(* ===== verification/_CoqProject ===== *)
-Q . S2P
Prelude.v
Types.v
RaftLog.v
Storage.v
Node.v
Replication.v
Cluster.v
Protocol.v
Refinement.v
Ghost.v
ElectionSafety.v
LogFacts.v
LogSafety.v
NextIndex.v
Bounds.v
Simulation.v
Safety.v
Guarantees.v
Recovery.v
Progress.v
Liveness.v
Abstraction.v
RunLoop.v
Binary.v
Text.v
Json.v
JsonFuel.v
Wal.v
WalSpec.v
WalReplay.v
WalFaults.v
KVStore.v
Api.v
Http.v
System.v
Web.v
Stack.v
Config.v
Transport.v
Main.v
Process.v
