(* ===== verification/Prelude.v ===== *)
(** * RaftKV: a verified model of the Raft key-value server

    This library models the Go server of this repository and proves what it
    guarantees.  The server is a replicated key-value store: a process
    (src/cmd/server/main.go) reads its configuration (src/internal/config), opens
    a write-ahead log (src/internal/storage), runs a Raft node
    (src/internal/raft) that talks to its peers through a gRPC transport
    (src/internal/transport), feeds committed entries to a store
    (src/internal/kvstore) and serves clients over HTTP (src/internal/api).

    ** Files and sources

    - Prelude.v: machine integers, panics, tactics, shared lemmas.
    - Types.v: src/internal/raft/types.go and errors.go.
    - RaftLog.v: log.go, every operation with its conversions between [uint64]
      and [int] and the panics of its index and slice expressions.
    - Storage.v: what the node needs of its storage, as the class [Storage]
      with the laws [StorageSpec], the records of the write-ahead log and what
      replaying them gives, and an in-memory journal as first instance.
    - Node.v: node.go, one definition per critical section (from [mu.Lock] to
      [mu.Unlock]); the state record [Node] has the fields of the Go struct, the
      timers and contexts included.  A critical section that can panic returns
      an [outcome].
    - Replication.v: replication.go and the heartbeats of node.go: the
      goroutine per peer, the commit rule, the apply loop, [SubmitCommand].
    - RunLoop.v: [run] of node.go, the loop that waits for the timers.
    - Cluster.v: several servers, their goroutines and a network.  An execution
      is a list of events, each one critical section of one goroutine of one
      server; messages may be delayed, repeated and lost; servers stop between two
      critical sections and restart.
    - Binary.v, Text.v, Json.v: what the sources use of encoding/binary,
      hash/crc32, unicode/utf8, encoding/base64, strconv and encoding/json.
    - Wal.v: wal.go on a directory of files, with a list of faults that decides
      which calls to the operating system fail, and how.
    - KVStore.v, Api.v, Config.v, Transport.v: store.go, handler.go, config.go,
      grpc.go with server.go and transport.go.
    - Http.v: the handlers of handler.go as goroutines, one look at the node or
      the store at a time.
    - Main.v, Process.v: main.go.  Main.v is the start of a process, Process.v
      its goroutines (event loop, apply loop, consumer, the HTTP server with its
      requests, the gRPC server with its calls) and [main] up to its end.
    - System.v: cluster, store, API and write-ahead log put together.
    - Web.v: clients that send HTTP requests to the servers of a cluster;
      Stack.v: the same with the files of wal.go.

    ** Theorems

    The proof of Raft's properties goes through an abstract transition system:
    Protocol.v has the state of a node without timers, contexts, queues and
    storage, and unbounded numbers; Refinement.v shows that each critical
    section does what its abstract transition does, as long as numbers stay in
    range; Simulation.v lifts this to events of a cluster.  Ghost.v adds a
    history (votes, leaders and their logs, acknowledgements);
    ElectionSafety.v and LogSafety.v (with LogFacts.v) are the inductive
    invariants over it; NextIndex.v keeps the positions at which a leader
    replicates within its log; Bounds.v keeps the numbers in range; Safety.v is the
    invariant of a run with the apply side.

    - Guarantees.v: election safety and absence of panics, with any restarts, for
      storage that is fresh and has no faults ([StorageSpec]);
      log matching, leader completeness, finality of commitment, state machine
      safety, in-order delivery and the meaning of an acknowledged command, with
      intact restarts, that is such that give back the term, the vote cast in it
      and the log that were in memory ([intact_run]).  [Divergence] is an execution with another
      restart in which state machine safety fails: a truncation of the log is not
      recorded in the write-ahead log.
    - Recovery.v: when restarts are intact.  The write-ahead log, on storage without
      faults, holds the log; a restart reads it right exactly when the indices of its entries are
      consecutive, and always when no server restarts after a truncation.
    - Progress.v: every rejected request moves [nextIndex] back, so that as
      many heartbeats as [nextIndex] bring a follower in line; the commit rule is
      the one of the Raft paper; nodes stay well formed.
    - Liveness.v: availability.  A majority that votes makes a server leader;
      from every state with a leader and a majority that follows it that is reached
      with intact restarts, a command is appended and can be committed, applied
      and acknowledged by the work of the replication goroutines alone, without a
      heartbeat (RunLoop.v shows that a leader may send none).
    - Abstraction.v: the cluster refines one append-only log (with intact restarts)
      and, step by step, the transition system of Protocol.v (with storage without
      faults); entries come from clients.
    - Web.v: the answers that HTTP clients get, by that log: acknowledged writes
      are in it, each at its own place and in the order of real time, and reads
      are answered from a prefix of it, all with intact restarts.  Stack.v: with
      files on disks without faults and no restart after a truncation, a process
      that is started on the files of a later leader has every acknowledged write
      in its log.
    - RunLoop.v: two ways in which the loop waits for a timer that nothing
      starts again.
    - WalSpec.v: the write-ahead log on a disk without faults is an instance of
      [StorageSpec], so the theorems above hold for servers with files.
      WalReplay.v: replay of arbitrary bytes ends and is idempotent.
      WalFaults.v: what is persisted is recovered, torn and damaged records are
      detected in any file, and the cases in which records are lost.
    - KVStore.v: every branch of [Apply]; serialized commands are read back.
      Api.v: what the answers to clients mean; Http.v: the handlers as one step
      and as goroutines agree.  Config.v: settings are read back, and the two
      ways to configure agree.  Transport.v: messages and calls reach the handler
      of the peer unchanged.  Main.v: a start of the process is the restart event
      of the cluster; shutting down keeps the log.  Process.v: the servers are
      idle when the node is stopped, and [main] gets to its end.
    - System.v: stores are copies of one store, acknowledged puts are read
      back, election safety with files; limits: votes that were not stored, reads
      at a replaced leader, acknowledgement before the store has the write.

    Witnesses: every theorem with hypotheses is applied to a concrete
    execution or input in a module at the end of its file.

    ** Bounds and fuel

    Numbers are kept at their width: indices and terms wrap around at 2^64 and
    conversions to [int] turn negative at 2^63.  Theorems about executions with
    restarts ask that the logs stay below 2^60 entries and terms below 2^64 - 1
    ([sized_run]).  With intact restarts this follows from the number of events
    being below 2^59 ([event_limit]), which no execution exceeds.  A restart is
    only considered while the number of the last file of the log is below
    1000000 ([wal_listed]), from where on files are not found.

    [replay_loop] has one unit of fuel per byte of the file and one more; a
    round reads at least eight bytes ([replay_terminates]).  The parsers of
    Json.v take the length of their input as fuel for a string, an array or an
    object, whose elements take at least one byte each (JsonFuel.v:
    [parse_fuel_enough]); the nesting depth is the limit of encoding/json.
    Text.v cuts a string into at most as many runes as it has bytes.
    [submit_wait] runs over the states in which the waiting loop looks at the
    node until its deadline; in Http.v the deadline is an event.

    ** Not modelled

    Logging and metrics; time (sleeps and timers are steps of the environment,
    random timeouts come from a parameter [Rand]); sockets, TLS and HTTP framing,
    keepalive and timeout options of the servers; the generated protobuf code
    and the gRPC library, which are parameters of Transport.v ([GrpcSpec] is what
    its documentation promises of a server); the cleaning of
    paths by the HTTP multiplexer; usage texts of the flag package; the tests
    under src/tests and the dashboard, which are no part of the server.  Locks
    are modelled by the atomicity of critical sections; the Go memory model is
    not.  A process that dies in the middle of a critical section, between
    two writes to its log, is modelled for the log alone (WalFaults.v: a torn
    append), not in the cluster.  The consumer of the cluster takes an entry and
    applies it in one step; in Process.v these are two.  Equal numbers among the
    files of a log, for which [sort.Slice] promises no order, are kept in the
    order of their names. *)

From stdpp Require Export base list gmap strings sorting.
From Stdlib Require Export ZArith NArith Lia.

Declare Scope raft_scope.
Delimit Scope raft_scope with raft.
#[global] Open Scope raft_scope.
#[global] Open Scope N_scope.
#[global] Open Scope nat_scope.

(** ** Machine integers

    Go's [uint64] is modelled by [N] with the wrap-around of each operation
    written out; [int] (64 bits on the platforms the server is built for) by
    [Z].  [int_of_u64] is Go's conversion [int(x)]: the two's complement
    reading of the same 64 bits, negative from 2^63 on. *)
Definition two64 : N := 18446744073709551616.
Definition two63 : N := 9223372036854775808.

Definition u64 (n : N) : N := (n mod two64)%N.
Definition u64_add (a b : N) : N := u64 (a + b).
Definition u64_sub (a b : N) : N := u64 (a + two64 - b).

Definition int_of_u64 (n : N) : Z :=
  if (n <? two63)%N then Z.of_N n else (Z.of_N n - Z.of_N two64)%Z.

Notation "a +64 b" := (u64_add a b) (at level 50, left associativity) : raft_scope.
Notation "a -64 b" := (u64_sub a b) (at level 50, left associativity) : raft_scope.

(** ** Run-time panics

    An indexing or slicing expression of Go that is out of range panics.  A
    panic in a goroutine that is not recovered ends the process, and the
    sources recover nothing, so a panicking operation has no result state. *)
Inductive outcome (A : Type) : Type :=
| Ret (a : A)
| Panic.
Arguments Ret {A} a.
Arguments Panic {A}.

#[global] Instance outcome_eq_decision {A} `{EqDecision A} : EqDecision (outcome A).
Proof. solve_decision. Defined.

#[global] Instance outcome_ret : MRet outcome := fun A a => Ret a.
#[global] Instance outcome_bind : MBind outcome :=
  fun A B f m => match m with Ret a => f a | Panic => Panic end.
#[global] Instance outcome_fmap : FMap outcome :=
  fun A B f m => match m with Ret a => Ret (f a) | Panic => Panic end.

(** Go's index expression [l[i]] and slice expressions [l[:n]], [l[i:j]].
    A slice expression of Go is bounded by the capacity rather than by the
    length; the sources only slice below the length or with a bound of at
    least 2^63, which is over any capacity, so the length is the bound here. *)
Definition go_index {A} (l : list A) (i : N) : outcome A :=
  match l !! N.to_nat i with Some x => Ret x | None => Panic end.

Definition go_slice_to {A} (l : list A) (n : N) : outcome (list A) :=
  if (n <=? N.of_nat (length l))%N then Ret (take (N.to_nat n) l) else Panic.

Definition go_slice {A} (l : list A) (i j : N) : outcome (list A) :=
  if (i <=? j)%N && (j <=? N.of_nat (length l))%N
  then Ret (take (N.to_nat (j - i)) (drop (N.to_nat i) l)) else Panic.

(** A Go map read with a missing key gives the zero value. *)
Definition map_get {V} (zero : V) (m : gmap string V) (k : string) : V :=
  default zero (m !! k).

(** ** Automation *)

Create HintDb u64.
Create HintDb raft.

Ltac u64_unfold := unfold u64_add, u64_sub, u64, int_of_u64, two63, two64 in *.

(** Linear arithmetic with division and remainder by constants. *)
Ltac div_mod_lia := zify; Z.to_euclidean_division_equations; lia.

(** [split_ifs] case-splits every boolean test of the goal and of the
    hypotheses, turning arithmetic tests into propositions. *)
Ltac bool_to_prop :=
  repeat match goal with
  | H : (_ <? _)%N = true |- _ => apply N.ltb_lt in H
  | H : (_ <? _)%N = false |- _ => apply N.ltb_ge in H
  | H : (_ <=? _)%N = true |- _ => apply N.leb_le in H
  | H : (_ <=? _)%N = false |- _ => apply N.leb_gt in H
  | H : (_ =? _)%N = true |- _ => apply N.eqb_eq in H
  | H : (_ =? _)%N = false |- _ => apply N.eqb_neq in H
  | H : (_ <? _)%Z = true |- _ => apply Z.ltb_lt in H
  | H : (_ <? _)%Z = false |- _ => apply Z.ltb_ge in H
  | H : (_ <=? _)%Z = true |- _ => apply Z.leb_le in H
  | H : (_ <=? _)%Z = false |- _ => apply Z.leb_gt in H
  | H : (_ =? _)%Z = true |- _ => apply Z.eqb_eq in H
  | H : (_ =? _)%Z = false |- _ => apply Z.eqb_neq in H
  | H : (_ <=? _) = true |- _ => apply Nat.leb_le in H
  | H : (_ <=? _) = false |- _ => apply Nat.leb_gt in H
  | H : (_ <? _) = true |- _ => apply Nat.ltb_lt in H
  | H : (_ <? _) = false |- _ => apply Nat.ltb_ge in H
  | H : _ && _ = true |- _ => apply andb_true_iff in H as [? ?]
  | H : _ || _ = false |- _ => apply orb_false_iff in H as [? ?]
  | H : negb _ = true |- _ => apply negb_true_iff in H
  | H : negb _ = false |- _ => apply negb_false_iff in H
  | H : bool_decide _ = true |- _ => apply bool_decide_eq_true_1 in H
  | H : bool_decide _ = false |- _ => apply bool_decide_eq_false_1 in H
  end.

Ltac split_ifs :=
  repeat match goal with
  | |- context [if ?b then _ else _] => destruct b eqn:?; bool_to_prop
  | H : context [if ?b then _ else _] |- _ => destruct b eqn:?; bool_to_prop
  end.

(** Closed goals: an equation by computation, a decidable proposition by its
    decision procedure. *)
Ltac by_compute := vm_compute; reflexivity.
Ltac decided := apply (bool_decide_unpack _); vm_compute; exact I.

(** ** Lemmas on machine integers *)

Lemma u64_small n : (n < two64)%N → u64 n = n.
Proof. apply N.mod_small. Qed.

Lemma u64_lt n : (u64 n < two64)%N.
Proof. apply N.mod_lt. discriminate. Qed.

Lemma u64_add_small a b : (a + b < two64)%N → (a +64 b = a + b)%N.
Proof. apply u64_small. Qed.

Lemma u64_sub_small a b : (b <= a)%N → (a < two64)%N → (a -64 b = a - b)%N.
Proof.
  intros Hba Ha. unfold u64_sub.
  replace (a + two64 - b)%N with ((a - b) + 1 * two64)%N by (unfold two64 in *; lia).
  unfold u64. rewrite N.Div0.mod_add. apply N.mod_small. lia.
Qed.

Lemma int_of_u64_small n : (n < two63)%N → int_of_u64 n = Z.of_N n.
Proof. unfold int_of_u64. intros H%N.ltb_lt. by rewrite H. Qed.

Lemma int_of_u64_large n : (two63 <= n)%N → (n < two64)%N → (int_of_u64 n < 0)%Z.
Proof. intros H%N.ltb_ge ?. unfold int_of_u64. rewrite H. lia. Qed.

#[export] Hint Resolve u64_lt : u64.

(** ** Lemmas on the outcome monad *)

Lemma bind_Ret {A B} (m : outcome A) (f : A → outcome B) b :
  m ≫= f = Ret b ↔ ∃ a, m = Ret a ∧ f a = Ret b.
Proof.
  split.
  - destruct m as [a|]; [by exists a|done].
  - by intros (a & -> & ?).
Qed.

Lemma Ret_pair_inj {A B} (a a' : A) (b b' : B) : Ret (a, b) = Ret (a', b') → a = a' ∧ b = b'.
Proof. by intros [= -> ->]. Qed.

Lemma go_index_Ret {A} (l : list A) i x :
  go_index l i = Ret x ↔ l !! N.to_nat i = Some x.
Proof. unfold go_index. destruct (l !! N.to_nat i); naive_solver. Qed.

Lemma go_index_Panic {A} (l : list A) i :
  go_index l i = Panic ↔ (N.of_nat (length l) <= i)%N.
Proof.
  unfold go_index. destruct (l !! N.to_nat i) eqn:E.
  - split; [done|]. apply lookup_lt_Some in E. lia.
  - split; [|done]. apply lookup_ge_None in E. lia.
Qed.

Lemma go_slice_to_Ret {A} (l : list A) n :
  (n <= N.of_nat (length l))%N → go_slice_to l n = Ret (take (N.to_nat n) l).
Proof. unfold go_slice_to. by intros ->%N.leb_le. Qed.

Lemma go_slice_Ret {A} (l : list A) i j :
  (i <= j)%N → (j <= N.of_nat (length l))%N →
  go_slice l i j = Ret (take (N.to_nat (j - i)) (drop (N.to_nat i) l)).
Proof. unfold go_slice. by intros ->%N.leb_le ->%N.leb_le. Qed.

(** ** Lemmas on lists *)

Lemma prefix_lookup_eq {A} (l1 l2 : list A) i :
  l1 `prefix_of` l2 → i < length l1 → l2 !! i = l1 !! i.
Proof. intros [k ->] Hi. by rewrite lookup_app_l. Qed.

Lemma take_prefix_of {A} n (l : list A) : take n l `prefix_of` l.
Proof. exists (drop n l). by rewrite take_drop. Qed.

(** Two lists that agree at every position below [n] share their first [n]
    elements. *)
Lemma take_ext {A} (l1 l2 : list A) n :
  (∀ i, i < n → l1 !! i = l2 !! i) → take n l1 = take n l2.
Proof.
  intros H. apply list_eq. intros i. destruct (decide (i < n)).
  - rewrite !lookup_take_lt by done. auto.
  - rewrite !lookup_take_ge by lia. done.
Qed.

Lemma half_lt n : (n + 1) / 2 < S n.
Proof. apply Nat.Div0.div_lt_upper_bound. lia. Qed.

(** A map after the same value was written under every key of a list. *)
Lemma lookup_foldl_insert {V} (c : V) (l : list string) (m : gmap string V) q :
  q ∈ l → foldl (λ m p, <[p := c]> m) m l !! q = Some c.
Proof.
  assert (Hkeep : ∀ (l : list string) (m : gmap string V), m !! q = Some c → foldl (λ m p, <[p := c]> m) m l !! q = Some c).
  { clear. induction l as [|p l IH]; intros m Hm; [done|]. simpl. apply IH.
    rewrite lookup_insert. by case_decide. }
  revert m. induction l as [|p l IH]; intros m Hq; [by apply elem_of_nil in Hq|]. simpl.
  destruct (decide (p = q)) as [->|]; [apply Hkeep, lookup_insert_eq|].
  apply IH. apply elem_of_cons in Hq as [?|?]; [congruence|done].
Qed.

Lemma length_filter_fmap {A B} (f : A → B) (P : B → Prop) `{∀ x, Decision (P x)} l :
  length (filter P (f <$> l)) = length (filter (λ x, P (f x)) l).
Proof.
  induction l as [|x l IH]; [done|]. rewrite fmap_cons, !filter_cons.
  by repeat case_decide; simpl; rewrite ?IH.
Qed.

Lemma filter_all {A} (P : A → Prop) `{∀ x, Decision (P x)} l : Forall P l → filter P l = l.
Proof. induction 1 as [|x l Hx _ IH]; [done|]. by rewrite filter_cons, decide_True, IH. Qed.
