(* ===== verification/Types.v ===== *)
(** The data of package [raft]: src/internal/raft/types.go (node ids, terms,
    indices, roles, log entries and the four RPC structures) and
    src/internal/raft/errors.go.

    [NodeID] is a Go string, that is a sequence of bytes; [Term] and
    [LogIndex] are [uint64], as [N] with wrap-around written where the code
    computes with them; a command is a byte slice. *)

From S2P Require Import Prelude.
From Stdlib Require Export Strings.Byte.

Abbreviation bytes := (list Byte.byte).

#[global] Instance byte_eq_decision : EqDecision Byte.byte := Byte.byte_eq_dec.

Abbreviation NodeID := string.
Abbreviation Term := N.
Abbreviation LogIndex := N.

Inductive State : Type :=
| Follower
| Candidate
| Leader.

#[global] Instance State_eq_decision : EqDecision State.
Proof. solve_decision. Defined.

(** [State.String]; the [default] branch of the source is for values other
    than the three constants, which nothing creates. *)
Definition State_String (s : State) : string :=
  match s with
  | Follower => "follower"
  | Candidate => "candidate"
  | Leader => "leader"
  end.

Record LogEntry : Type := mkEntry {
  e_Term : Term;
  e_Index : LogIndex;
  e_Command : bytes;
}.

#[global] Instance LogEntry_eq_decision : EqDecision LogEntry.
Proof. solve_decision. Defined.

Record RequestVoteArgs : Type := mkRequestVoteArgs {
  rv_Term : Term;
  rv_CandidateID : NodeID;
  rv_LastLogIndex : LogIndex;
  rv_LastLogTerm : Term;
}.

Record RequestVoteReply : Type := mkRequestVoteReply {
  rvr_Term : Term;
  rvr_VoteGranted : bool;
}.

Record AppendEntriesArgs : Type := mkAppendEntriesArgs {
  ae_Term : Term;
  ae_LeaderID : NodeID;
  ae_PrevLogIndex : LogIndex;
  ae_PrevLogTerm : Term;
  ae_Entries : list LogEntry;
  ae_LeaderCommit : LogIndex;
}.

Record AppendEntriesReply : Type := mkAppendEntriesReply {
  aer_Term : Term;
  aer_Success : bool;
  aer_ConflictTerm : Term;
  aer_ConflictIndex : LogIndex;
}.

(** The sentinel errors of the package, and the errors of a failed write to
    the write-ahead log, which [SubmitCommand] passes on. *)
Inductive raft_error : Type :=
| ErrNotLeader
| ErrTimeout
| ErrStopped
| ErrStorage (msg : string).

#[global] Instance raft_error_eq_decision : EqDecision raft_error.
Proof. solve_decision. Defined.

Definition raft_error_Error (e : raft_error) : string :=
  match e with
  | ErrNotLeader => "not the leader"
  | ErrTimeout => "request timed out"
  | ErrStopped => "node is stopped"
  | ErrStorage msg => msg
  end.
