(* ===== verification/RaftLog.v ===== *)
(** The in-memory log: src/internal/raft/log.go.

    The Go struct is a slice whose element 0 is a sentinel entry of term 0.
    Every operation is translated with its bounds tests on [int(idx)] and with
    the panics of its index and slice expressions; the theorems relate the
    operations to the abstract view of the log, the sequence of entries after
    the sentinel, whose entry at position [i] has index [i]. *)

From S2P Require Import Prelude Types.

Record RaftLog : Type := mkLog { entries : list LogEntry }.

#[global] Instance RaftLog_eq_decision : EqDecision RaftLog.
Proof. solve_decision. Defined.

Definition sentinel : LogEntry := mkEntry 0 0 [].

Module RLog.

Definition NewRaftLog : RaftLog := mkLog [sentinel].

Definition Append (l : RaftLog) (es : list LogEntry) : RaftLog :=
  mkLog (entries l ++ es).

Definition Entry (l : RaftLog) (idx : LogIndex) : outcome LogEntry :=
  go_index (entries l) idx.

Definition Len (l : RaftLog) : nat := length (entries l).

(** [LogIndex(len(l.entries) - 1)]: the conversion of a negative [int] would
    give 2^64 - 1. *)
Definition LastIndex (l : RaftLog) : LogIndex :=
  N.of_nat (length (entries l)) -64 1.

Definition LastTerm (l : RaftLog) : outcome Term :=
  e ← go_index (entries l) (LastIndex l); Ret (e_Term e).

Definition TruncateAfter (l : RaftLog) (idx : LogIndex) : outcome RaftLog :=
  if (int_of_u64 idx <? Z.of_nat (length (entries l)) - 1)%Z
  then es ← go_slice_to (entries l) (idx +64 1); Ret (mkLog es)
  else Ret l.

Definition Entries (l : RaftLog) (startIdx endIdx : LogIndex) : outcome (list LogEntry) :=
  if (endIdx <? startIdx)%N
     || (Z.of_nat (length (entries l)) <=? int_of_u64 startIdx)%Z
  then Ret []
  else
    let endIdx' :=
      if (Z.of_nat (length (entries l)) <=? int_of_u64 endIdx)%Z
      then LastIndex l else endIdx in
    go_slice (entries l) startIdx (endIdx' +64 1).

Definition EntriesFrom (l : RaftLog) (startIdx : LogIndex) : outcome (list LogEntry) :=
  Entries l startIdx (LastIndex l).

Definition Contains (l : RaftLog) (idx : LogIndex) : bool :=
  (int_of_u64 idx <? Z.of_nat (length (entries l)))%Z.

Definition TermAt (l : RaftLog) (idx : LogIndex) : outcome Term :=
  if negb (Contains l idx) then Ret 0%N
  else e ← go_index (entries l) idx; Ret (e_Term e).

Definition RestoreEntries (es : list LogEntry) : RaftLog :=
  mkLog ([sentinel] ++ es).

(** The loop [for i := 1; i < len; i++] over the entries after the sentinel. *)
Fixpoint find_first_from (t : Term) (i : N) (es : list LogEntry) : LogIndex :=
  match es with
  | [] => 0%N
  | e :: es' => if (e_Term e =? t)%N then i else find_first_from t (i + 1) es'
  end.

Definition FindFirstIndexOfTerm (l : RaftLog) (t : Term) : LogIndex :=
  find_first_from t 1 (drop 1 (entries l)).

End RLog.
Import RLog.

(** ** Well-formed logs

    [log_shape]: there is a sentinel and the length fits the index
    arithmetic.  [log_wf]: moreover the sentinel has term 0, the entry at
    position [i] has index [i], and the terms of the other entries are
    positive. *)
Definition log_shape (l : RaftLog) : Prop :=
  0 < length (entries l) ∧ (N.of_nat (length (entries l)) < two63)%N.

Definition log_wf (l : RaftLog) : Prop :=
  log_shape l ∧
  entries l !! 0 = Some sentinel ∧
  (∀ i e, entries l !! i = Some e → e_Index e = N.of_nat i) ∧
  (∀ i e, entries l !! S i = Some e → (0 < e_Term e)%N).

(** The term at a position, 0 out of range: the total function [TermAt] is
    for positions of an [int] index. *)
Definition term_at (l : RaftLog) (i : nat) : Term :=
  match entries l !! i with Some e => e_Term e | None => 0%N end.

(** ** Operations on the abstract view *)

Lemma LastIndex_eq l : log_shape l → LastIndex l = N.of_nat (length (entries l) - 1).
Proof.
  intros [? ?]. unfold LastIndex. rewrite u64_sub_small; unfold two63, two64 in *; lia.
Qed.

Lemma LastIndex_bound l : log_shape l → (LastIndex l < two63)%N.
Proof. intros H. rewrite LastIndex_eq by done. destruct H. lia. Qed.

Lemma Contains_spec l idx :
  (idx < two63)%N → Contains l idx = (idx <? N.of_nat (length (entries l)))%N.
Proof.
  intros H. unfold Contains. rewrite int_of_u64_small by done.
  destruct (Z.ltb_spec (Z.of_N idx) (Z.of_nat (length (entries l))));
    destruct (N.ltb_spec idx (N.of_nat (length (entries l)))); lia || done.
Qed.

Lemma Contains_LastIndex l idx :
  log_shape l → (idx < two63)%N → Contains l idx = true ↔ (idx <= LastIndex l)%N.
Proof.
  intros Hl ?. rewrite Contains_spec, LastIndex_eq by done. destruct Hl.
  rewrite N.ltb_lt. lia.
Qed.

Lemma TermAt_spec l idx :
  (idx < two63)%N → TermAt l idx = Ret (term_at l (N.to_nat idx)).
Proof.
  intros H. unfold TermAt, term_at. rewrite Contains_spec by done.
  destruct (N.ltb_spec idx (N.of_nat (length (entries l)))) as [Hlt|Hge]; simpl.
  - destruct (lookup_lt_is_Some_2 (entries l) (N.to_nat idx)) as [e He]; [lia|].
    unfold go_index. by rewrite He.
  - by rewrite (proj2 (lookup_ge_None _ _)) by lia.
Qed.

Lemma LastTerm_spec l :
  log_shape l → LastTerm l = Ret (term_at l (length (entries l) - 1)).
Proof.
  intros H. unfold LastTerm, term_at. rewrite LastIndex_eq by done. destruct H.
  destruct (lookup_lt_is_Some_2 (entries l) (length (entries l) - 1)) as [e He]; [lia|].
  unfold go_index. rewrite Nat2N.id. by rewrite He.
Qed.

Lemma TruncateAfter_spec l idx :
  (idx < two63)%N →
  TruncateAfter l idx = Ret (mkLog (take (S (N.to_nat idx)) (entries l))).
Proof.
  intros H. unfold TruncateAfter. rewrite int_of_u64_small by done.
  destruct (Z.ltb_spec (Z.of_N idx) (Z.of_nat (length (entries l)) - 1)).
  - rewrite u64_add_small by (unfold two63, two64 in *; lia).
    rewrite go_slice_to_Ret by lia. simpl. do 3 f_equal. lia.
  - rewrite take_ge by lia. by destruct l.
Qed.

Lemma Entries_spec l a b :
  log_shape l → (a < two63)%N → (b < two63)%N → 
  Entries l a b = Ret (take (N.to_nat (b + 1 - a)) (drop (N.to_nat a) (entries l))).
Proof.
  intros Hl Ha Hb. pose proof Hl as [Hne Hlen]. unfold Entries.
  rewrite !int_of_u64_small by done.
  destruct (N.ltb_spec b a); simpl.
  { replace (N.to_nat (b + 1 - a)) with 0 by lia. done. }
  destruct (Z.leb_spec (Z.of_nat (length (entries l))) (Z.of_N a)); simpl.
  { rewrite drop_ge by lia. by rewrite take_nil. }
  destruct (Z.leb_spec (Z.of_nat (length (entries l))) (Z.of_N b)).
  - rewrite LastIndex_eq by done.
    rewrite u64_add_small by (unfold two63, two64 in *; lia).
    rewrite go_slice_Ret by lia. f_equal.
    rewrite !(take_ge (drop _ _)) by (rewrite length_drop; lia). done.
  - rewrite u64_add_small by (unfold two63, two64 in *; lia).
    rewrite go_slice_Ret by lia. done.
Qed.

Lemma EntriesFrom_spec l a :
  log_shape l → (a < two63)%N →
  EntriesFrom l a = Ret (drop (N.to_nat a) (entries l)).
Proof.
  intros Hl Ha. unfold EntriesFrom.
  rewrite Entries_spec by auto using LastIndex_bound.
  rewrite LastIndex_eq by done. destruct Hl.
  rewrite take_ge by (rewrite length_drop; lia). done.
Qed.

(** ** Searching for a term *)

Lemma find_first_from_spec t k es :
  (∃ j e, es !! j = Some e ∧ e_Term e = t ∧
          (∀ j' e', j' < j → es !! j' = Some e' → e_Term e' ≠ t) ∧
          find_first_from t k es = (k + N.of_nat j)%N)
  ∨ ((∀ e, e ∈ es → e_Term e ≠ t) ∧ find_first_from t k es = 0%N).
Proof.
  revert k. induction es as [|e es IH]; intros k; simpl.
  { right. split; [|done]. intros e He. by apply not_elem_of_nil in He. }
  destruct (N.eqb_spec (e_Term e) t) as [Heq|Hne].
  { left. exists 0, e. split_and!; [done..| |lia]. intros; lia. }
  destruct (IH (k + 1)%N) as [(j & e1 & Hj & Ht & Hmin & ->)|[Hall ->]].
  - left. exists (S j), e1. split_and!; [done..| |lia].
    intros [|j'] e' ? Hl; simpl in Hl; [naive_solver|]. apply (Hmin j'); [lia|done].
  - right. split; [|done]. intros e' [->|?]%elem_of_cons; auto.
Qed.

(** [FindFirstIndexOfTerm] returns the least positive position whose
    entry has the term, or 0 when no entry after the sentinel has it. *)
Lemma FindFirstIndexOfTerm_correct l t :
  (∃ i e, FindFirstIndexOfTerm l t = N.of_nat (S i) ∧
          entries l !! S i = Some e ∧ e_Term e = t ∧
          ∀ j e', j < i → entries l !! S j = Some e' → e_Term e' ≠ t)
  ∨ (FindFirstIndexOfTerm l t = 0%N ∧
     ∀ j e, entries l !! S j = Some e → e_Term e ≠ t).
Proof.
  unfold FindFirstIndexOfTerm.
  destruct (find_first_from_spec t 1 (drop 1 (entries l)))
    as [(j & e & Hj & Ht & Hmin & ->)|[Hall ->]].
  - left. exists j, e. rewrite lookup_drop in Hj. split_and!; [lia|done|done|].
    intros j' e' ? He'. apply (Hmin j'); [lia|]. by rewrite lookup_drop.
  - right. split; [done|]. intros j e He. apply Hall, list_elem_of_lookup.
    exists j. by rewrite lookup_drop.
Qed.

(** ** Preservation of well-formedness *)

Lemma log_wf_shape l : log_wf l → log_shape l.
Proof. by intros [? _]. Qed.

Lemma log_wf_nonempty l : log_wf l → 0 < length (entries l).
Proof. by intros [[? _] _]. Qed.

Lemma NewRaftLog_wf : log_wf NewRaftLog.
Proof.
  split; [split; unfold two63; simpl; lia|]. split_and!; [done|..].
  - intros [|i] e He; [by simplify_eq/=|discriminate He].
  - intros i e He. discriminate He.
Qed.

Lemma take_log_wf l n : log_wf l → 0 < n → log_wf (mkLog (take n (entries l))).
Proof.
  intros ([Hne Hlen] & H0 & Hidx & Hterm) Hn. split; [split|split_and!]; simpl.
  - rewrite length_take. lia.
  - rewrite length_take. lia.
  - by rewrite lookup_take_lt.
  - intros i e [He _]%lookup_take_Some. auto.
  - intros i e [He _]%lookup_take_Some. eauto.
Qed.

(** Entries that may follow position [k - 1] of a log: consecutive indices
    from [k], positive terms. *)
Definition segment_wf (k : nat) (es : list LogEntry) : Prop :=
  ∀ i e, es !! i = Some e → e_Index e = N.of_nat (k + i) ∧ (0 < e_Term e)%N.

Lemma Append_wf l es :
  log_wf l → segment_wf (length (entries l)) es →
  (N.of_nat (length (entries l) + length es) < two63)%N →
  log_wf (Append l es).
Proof.
  intros ([Hne Hlen] & H0 & Hidx & Hterm) Hes Hbound. split; [split|split_and!]; simpl.
  - rewrite length_app. lia.
  - rewrite length_app. lia.
  - by rewrite lookup_app_l.
  - intros i e [He|[? He]]%lookup_app_Some; [auto|].
    apply Hes in He as [-> _]. lia.
  - intros i e [He|[? He]]%lookup_app_Some; [eauto|].
    by apply Hes in He as [_ ?].
Qed.

Lemma segment_wf_drop k es i : segment_wf k es → segment_wf (k + i) (drop i es).
Proof. intros H j e. rewrite lookup_drop. intros He%H. by rewrite Nat.add_assoc in He. Qed.

Lemma log_wf_segment l k : log_wf l → 0 < k → segment_wf k (drop k (entries l)).
Proof.
  intros (_ & _ & Hidx & Hterm) Hk i e. rewrite lookup_drop. intros He.
  split; [auto|]. destruct k; [lia|]. simpl in He. eauto.
Qed.

#[export] Hint Resolve log_wf_shape NewRaftLog_wf : raft.

(** [TermAt] panics exactly for the indices whose conversion to
    [int] is negative, from 2^63 on: the bounds test [int(idx) < len] lets them
    through to the index expression; every other index gives the entry's term,
    or 0 past the end. *)
Lemma TermAt_panics_iff l idx :
  log_shape l → (idx < two64)%N →
  (TermAt l idx = Panic ↔ (two63 <= idx)%N) ∧
  ((idx < two63)%N → TermAt l idx = Ret (term_at l (N.to_nat idx))).
Proof.
  intros Hl Hidx. split; [|apply TermAt_spec].
  split.
  - intros Hp. destruct (N.lt_ge_cases idx two63) as [Hlt|]; [|done].
    by rewrite TermAt_spec in Hp.
  - intros Hge. unfold TermAt, Contains.
    pose proof (int_of_u64_large idx Hge Hidx).
    rewrite (proj2 (Z.ltb_lt _ _)) by lia. simpl.
    rewrite (proj2 (go_index_Panic _ _)); [done|]. destruct Hl. lia.
Qed.
