(* ===== verification/Storage.v ===== *)
(** The interface between the Raft node and its write-ahead log.

    src/internal/raft/node.go and replication.go use [*storage.WAL] through
    [PersistTerm], [PersistVote], [PersistEntry] and [Replay]
    (src/internal/storage/wal.go).  The class [Storage] holds those
    operations, [StorageSpec] what a node may rely on: what was appended is
    read back by the next replay.  The node's theorems are proved against the
    classes; [Journal], a log of records kept in memory, is an instance, and the
    file-based implementation (Wal.v) is another.

    [replay_record], [replay_file] and [replay_files] are the record-level part
    of wal.go: what [replayFile] does with a decoded record and how [Replay]
    combines the files. *)

From S2P Require Import Prelude Types.

(** A decoded record: the JSON payloads [TermRecord], [VoteRecord] and
    [EntryRecord] of wal.go with their record type. *)
Inductive wrecord : Type :=
| TermRecord (term : N)
| VoteRecord (votedFor : string) (term : N)
| EntryRecord (index term : N) (command : bytes).

#[global] Instance wrecord_eq_decision : EqDecision wrecord.
Proof. solve_decision. Defined.

(** What a replay returns: term, votedFor and the entries. *)
Record recovered : Type := mkRecovered {
  rc_term : N;
  rc_votedFor : string;
  rc_entries : list LogEntry;
}.

Definition recovered_zero : recovered := mkRecovered 0 "" [].

(** The [switch recordType] of [replayFile] on a record that decodes. *)
Definition replay_record (s : recovered) (r : wrecord) : recovered :=
  match r with
  | TermRecord t => mkRecovered t (rc_votedFor s) (rc_entries s)
  | VoteRecord v t =>
      mkRecovered (if (rc_term s <? t)%N then t else rc_term s) v (rc_entries s)
  | EntryRecord i t c =>
      mkRecovered (rc_term s) (rc_votedFor s) (rc_entries s ++ [mkEntry t i c])
  end.

Definition replay_file (rs : list wrecord) : recovered :=
  foldl replay_record recovered_zero rs.

(** One round of the loop over the files in [Replay]. *)
Definition replay_merge (s f : recovered) : recovered :=
  mkRecovered
    (if (0 <? rc_term f)%N then rc_term f else rc_term s)
    (if bool_decide (rc_votedFor f = "") then rc_votedFor s else rc_votedFor f)
    (rc_entries s ++ rc_entries f).

Definition replay_files (fs : list (list wrecord)) : recovered :=
  foldl (λ s f, replay_merge s (replay_file f)) recovered_zero fs.

(** Where an append may put a record: at the end of the last file, or in a
    new file after a rotation. *)
Inductive journal_add (r : wrecord) : list (list wrecord) → list (list wrecord) → Prop :=
| add_last fs f : journal_add r (fs ++ [f]) (fs ++ [f ++ [r]])
| add_rotate fs : journal_add r fs (fs ++ [[r]]).

(** The operations.  An append returns the error, if any; a replay may repair
    the files it reads, and may panic on damaged ones; [wal_reopen] is what a
    new process does with the files that the last one left.  [wal_listed] is not
    an operation: it says whether a new process would find every file. *)
Class Storage (W : Type) := {
  wal_append : W → wrecord → W * option string;
  wal_replay : W → outcome (W * (recovered + string));
  wal_reopen : W → W + string;
  wal_listed : W → bool;
}.

(** What a node may rely on, as long as the storage is good (no fault of the
    disk has happened or is going to happen): a storable record is appended
    without error, and what was appended is read back, also after a restart,
    if all files are found then.  Node ids and commands may be subject to
    restrictions. *)
Class StorageSpec (W : Type) `{Storage W} := {
  wal_journal : W → list (list wrecord);
  wal_good : W → Prop;
  storable_id : NodeID → Prop;
  storable_command : bytes → Prop;
  storable (r : wrecord) : Prop :=
    match r with
    | TermRecord t => (t < two64)%N
    | VoteRecord v t => storable_id v ∧ (t < two64)%N
    | EntryRecord i t c => (i < two64)%N ∧ (t < two64)%N ∧ storable_command c
    end;
  wal_append_ok w r :
    wal_good w → storable r →
    ∃ w', wal_append w r = (w', None) ∧ wal_good w' ∧
          journal_add r (wal_journal w) (wal_journal w');
  wal_replay_ok w :
    wal_good w → wal_listed w = true →
    ∃ w', wal_replay w = Ret (w', inl (replay_files (wal_journal w))) ∧ wal_good w' ∧
          wal_journal w' = wal_journal w;
  wal_reopen_ok w :
    wal_good w → wal_listed w = true →
    ∃ w', wal_reopen w = inl w' ∧ wal_good w' ∧ wal_listed w' = true ∧
          wal_journal w' = wal_journal w;
}.

Section persist.
Context {W : Type} `{Storage W}.

Definition PersistTerm (w : W) (term : N) : W * option string :=
  wal_append w (TermRecord term).

Definition PersistVote (w : W) (votedFor : string) (term : N) : W * option string :=
  wal_append w (VoteRecord votedFor term).

Definition PersistEntry (w : W) (index term : N) (command : bytes) : W * option string :=
  wal_append w (EntryRecord index term command).

End persist.

(** ** The in-memory journal *)

Record Journal : Type := mkJournal { j_files : list (list wrecord) }.

Definition journal_append (j : Journal) (r : wrecord) : Journal * option string :=
  (mkJournal (match reverse (j_files j) with
              | [] => [[r]]
              | f :: fs => reverse fs ++ [f ++ [r]]
              end), None).

#[global] Instance Journal_Storage : Storage Journal := {
  wal_append := journal_append;
  wal_replay j := Ret (j, inl (replay_files (j_files j)));
  wal_reopen j := inl j;
  wal_listed _ := true;
}.

#[global] Instance Journal_StorageSpec : StorageSpec Journal.
Proof.
  refine {| wal_journal := j_files; wal_good _ := True;
            storable_id _ := True; storable_command _ := True |}.
  - intros w r _ _. eexists. split; [reflexivity|]. split; [done|]. simpl.
    destruct (reverse (j_files w)) as [|f fs] eqn:E.
    + apply (f_equal reverse) in E. rewrite reverse_involutive in E.
      rewrite E. apply (add_rotate r []).
    + apply (f_equal reverse) in E. rewrite reverse_involutive, reverse_cons in E.
      rewrite E. constructor.
  - intros w _. by exists w.
  - intros w _. by exists w.
Defined.

(** ** What the replay of a journal recovers *)

Lemma replay_file_snoc rs r : replay_file (rs ++ [r]) = replay_record (replay_file rs) r.
Proof. unfold replay_file. by rewrite foldl_app. Qed.

Lemma replay_files_snoc fs f :
  replay_files (fs ++ [f]) = replay_merge (replay_files fs) (replay_file f).
Proof. unfold replay_files. by rewrite foldl_app. Qed.

(** Entries accumulate in the order in which they were written, whatever the
    indices they carry. *)
Lemma replay_entries_add r fs fs' :
  journal_add r fs fs' →
  rc_entries (replay_files fs') =
    rc_entries (replay_files fs) ++
    match r with EntryRecord i t c => [mkEntry t i c] | _ => [] end.
Proof.
  intros Hadd. destruct Hadd as [fs f|fs]; rewrite !replay_files_snoc.
  - rewrite replay_file_snoc. simpl. rewrite <- app_assoc.
    f_equal. by destruct r; simpl; rewrite ?app_nil_r.
  - simpl. f_equal. by destruct r.
Qed.

Lemma replay_term_add t fs fs' :
  journal_add (TermRecord t) fs fs' → (0 < t)%N →
  rc_term (replay_files fs') = t ∧
  rc_votedFor (replay_files fs') = rc_votedFor (replay_files fs).
Proof.
  intros Hadd Ht%N.ltb_lt. inversion Hadd; subst; rewrite !replay_files_snoc.
  - rewrite replay_file_snoc. simpl. by rewrite Ht.
  - simpl. by rewrite Ht.
Qed.

Lemma replay_entry_add i t c fs fs' :
  journal_add (EntryRecord i t c) fs fs' →
  rc_term (replay_files fs') = rc_term (replay_files fs) ∧
  rc_votedFor (replay_files fs') = rc_votedFor (replay_files fs).
Proof.
  intros Hadd. inversion Hadd; subst; rewrite !replay_files_snoc.
  - by rewrite replay_file_snoc.
  - done.
Qed.

(** A vote for a term that no earlier record exceeds becomes the recovered
    term and vote. *)
Lemma replay_vote_add v t fs fs' :
  journal_add (VoteRecord v t) fs fs' → v ≠ "" → (0 < t)%N →
  (rc_term (replay_files fs) <= t)%N →
  rc_term (replay_files fs') = t ∧ rc_votedFor (replay_files fs') = v.
Proof.
  intros Hadd Hv Ht. pose proof Ht as Ht'%N.ltb_lt.
  inversion Hadd; subst; rewrite !replay_files_snoc.
  - rewrite replay_file_snoc. simpl. rewrite bool_decide_eq_false_2 by done.
    intros Hle. destruct (N.ltb_spec (rc_term (replay_file f)) t) as [?|Hge].
    { by rewrite Ht'. }
    destruct (N.ltb_spec 0 (rc_term (replay_file f))); [|lia]. split; [lia|done].
  - simpl. rewrite Ht', bool_decide_eq_false_2 by done. by rewrite Ht'.
Qed.
