(* ===== verification/Node.v ===== *)
(** The Raft node: src/internal/raft/node.go.

    All mutable state of a [Node] is guarded by one mutex, so every critical
    section of the source is one function from the node's state to its new
    state and the values that leave the critical section.  Functions whose
    name ends in [Locked] are called with the mutex held.  The network calls
    between two critical sections are not here: the sections before and after
    them are separate definitions ([startElection] and [handleVoteReply],
    [sendHeartbeats], [heartbeat_args] and [heartbeat_reply]).

    Timers are values: an [electionTimer] is created once and then reset; each
    [becomeLeaderLocked] creates a new heartbeat timer, so the field is the
    list of the timers it has held, the last being the current one.  The
    context of the replication goroutines of a leadership is a position in
    [contexts], the flag there telling whether it was cancelled; the field
    [replicateCancel] is the position its cancel function works on.  Random
    numbers are drawn from a sequence, [draws] counts them.  Logging and the
    wall clock ([electionStart]) are left out; [stopCh] is the flag
    [stopped]. *)

From S2P Require Import Prelude Types RaftLog Storage.
Import RLog.

(** [math/rand]: the k-th draw of [rand.Int63n(n)] is some number of [0, n). *)
Class Rand := {
  Int63n : nat → Z → Z;
  Int63n_range k n : (0 < n)%Z → (0 <= Int63n k n < n)%Z;
}.

(** A [time.Timer]: stopped, or running with a duration in nanoseconds, or
    expired with its tick not yet received.  Since Go 1.23 (go.mod says 1.25)
    [Stop] and [Reset] discard a tick that was not received. *)
Inductive timer : Type :=
| TStopped
| TRunning (duration : Z)
| TFired.

#[global] Instance timer_eq_decision : EqDecision timer.
Proof. solve_decision. Defined.

Definition millisecond : Z := 1000000.
Definition electionTimeoutMin : Z := 150 * millisecond.
Definition electionTimeoutMax : Z := 300 * millisecond.
Definition heartbeatInterval : Z := 50 * millisecond.

Record Node (W : Type) : Type := mkNode {
  id : NodeID;
  peers : list NodeID;
  currentTerm : Term;
  votedFor : NodeID;
  log : RaftLog;
  state : State;
  commitIndex : LogIndex;
  lastApplied : LogIndex;
  leaderID : NodeID;
  nextIndex : gmap NodeID LogIndex;
  matchIndex : gmap NodeID LogIndex;
  electionTimer : option timer;
  heartbeatTimer : list timer;
  votes : nat;
  votesReceived : gmap NodeID bool;
  wal : option W;
  applyCh : list LogEntry;
  stopped : bool;
  replicateCancel : option nat;
  contexts : list bool;
  leaderChanges : Z;
  committedEntries : Z;
  draws : nat;
}.
Arguments mkNode {W}.
Arguments id {W} _.
Arguments peers {W} _.
Arguments currentTerm {W} _.
Arguments votedFor {W} _.
Arguments log {W} _.
Arguments state {W} _.
Arguments commitIndex {W} _.
Arguments lastApplied {W} _.
Arguments leaderID {W} _.
Arguments nextIndex {W} _.
Arguments matchIndex {W} _.
Arguments electionTimer {W} _.
Arguments heartbeatTimer {W} _.
Arguments votes {W} _.
Arguments votesReceived {W} _.
Arguments wal {W} _.
Arguments applyCh {W} _.
Arguments stopped {W} _.
Arguments replicateCancel {W} _.
Arguments contexts {W} _.
Arguments leaderChanges {W} _.
Arguments committedEntries {W} _.
Arguments draws {W} _.

(** Field assignments. *)
Section setters.
Context {W : Type}.

Definition set_currentTerm (v : Term) (n : Node W) : Node W :=
  mkNode (id n) (peers n) v (votedFor n) (log n) (state n) (commitIndex n) (lastApplied n) (leaderID n) (nextIndex n) (matchIndex n) (electionTimer n) (heartbeatTimer n) (votes n) (votesReceived n) (wal n) (applyCh n) (stopped n) (replicateCancel n) (contexts n) (leaderChanges n) (committedEntries n) (draws n).
Definition set_votedFor (v : NodeID) (n : Node W) : Node W :=
  mkNode (id n) (peers n) (currentTerm n) v (log n) (state n) (commitIndex n) (lastApplied n) (leaderID n) (nextIndex n) (matchIndex n) (electionTimer n) (heartbeatTimer n) (votes n) (votesReceived n) (wal n) (applyCh n) (stopped n) (replicateCancel n) (contexts n) (leaderChanges n) (committedEntries n) (draws n).
Definition set_log (v : RaftLog) (n : Node W) : Node W :=
  mkNode (id n) (peers n) (currentTerm n) (votedFor n) v (state n) (commitIndex n) (lastApplied n) (leaderID n) (nextIndex n) (matchIndex n) (electionTimer n) (heartbeatTimer n) (votes n) (votesReceived n) (wal n) (applyCh n) (stopped n) (replicateCancel n) (contexts n) (leaderChanges n) (committedEntries n) (draws n).
Definition set_state (v : State) (n : Node W) : Node W :=
  mkNode (id n) (peers n) (currentTerm n) (votedFor n) (log n) v (commitIndex n) (lastApplied n) (leaderID n) (nextIndex n) (matchIndex n) (electionTimer n) (heartbeatTimer n) (votes n) (votesReceived n) (wal n) (applyCh n) (stopped n) (replicateCancel n) (contexts n) (leaderChanges n) (committedEntries n) (draws n).
Definition set_commitIndex (v : LogIndex) (n : Node W) : Node W :=
  mkNode (id n) (peers n) (currentTerm n) (votedFor n) (log n) (state n) v (lastApplied n) (leaderID n) (nextIndex n) (matchIndex n) (electionTimer n) (heartbeatTimer n) (votes n) (votesReceived n) (wal n) (applyCh n) (stopped n) (replicateCancel n) (contexts n) (leaderChanges n) (committedEntries n) (draws n).
Definition set_lastApplied (v : LogIndex) (n : Node W) : Node W :=
  mkNode (id n) (peers n) (currentTerm n) (votedFor n) (log n) (state n) (commitIndex n) v (leaderID n) (nextIndex n) (matchIndex n) (electionTimer n) (heartbeatTimer n) (votes n) (votesReceived n) (wal n) (applyCh n) (stopped n) (replicateCancel n) (contexts n) (leaderChanges n) (committedEntries n) (draws n).
Definition set_leaderID (v : NodeID) (n : Node W) : Node W :=
  mkNode (id n) (peers n) (currentTerm n) (votedFor n) (log n) (state n) (commitIndex n) (lastApplied n) v (nextIndex n) (matchIndex n) (electionTimer n) (heartbeatTimer n) (votes n) (votesReceived n) (wal n) (applyCh n) (stopped n) (replicateCancel n) (contexts n) (leaderChanges n) (committedEntries n) (draws n).
Definition set_nextIndex (v : gmap NodeID LogIndex) (n : Node W) : Node W :=
  mkNode (id n) (peers n) (currentTerm n) (votedFor n) (log n) (state n) (commitIndex n) (lastApplied n) (leaderID n) v (matchIndex n) (electionTimer n) (heartbeatTimer n) (votes n) (votesReceived n) (wal n) (applyCh n) (stopped n) (replicateCancel n) (contexts n) (leaderChanges n) (committedEntries n) (draws n).
Definition set_matchIndex (v : gmap NodeID LogIndex) (n : Node W) : Node W :=
  mkNode (id n) (peers n) (currentTerm n) (votedFor n) (log n) (state n) (commitIndex n) (lastApplied n) (leaderID n) (nextIndex n) v (electionTimer n) (heartbeatTimer n) (votes n) (votesReceived n) (wal n) (applyCh n) (stopped n) (replicateCancel n) (contexts n) (leaderChanges n) (committedEntries n) (draws n).
Definition set_electionTimer (v : option timer) (n : Node W) : Node W :=
  mkNode (id n) (peers n) (currentTerm n) (votedFor n) (log n) (state n) (commitIndex n) (lastApplied n) (leaderID n) (nextIndex n) (matchIndex n) v (heartbeatTimer n) (votes n) (votesReceived n) (wal n) (applyCh n) (stopped n) (replicateCancel n) (contexts n) (leaderChanges n) (committedEntries n) (draws n).
Definition set_heartbeatTimer (v : list timer) (n : Node W) : Node W :=
  mkNode (id n) (peers n) (currentTerm n) (votedFor n) (log n) (state n) (commitIndex n) (lastApplied n) (leaderID n) (nextIndex n) (matchIndex n) (electionTimer n) v (votes n) (votesReceived n) (wal n) (applyCh n) (stopped n) (replicateCancel n) (contexts n) (leaderChanges n) (committedEntries n) (draws n).
Definition set_votes (v : nat) (n : Node W) : Node W :=
  mkNode (id n) (peers n) (currentTerm n) (votedFor n) (log n) (state n) (commitIndex n) (lastApplied n) (leaderID n) (nextIndex n) (matchIndex n) (electionTimer n) (heartbeatTimer n) v (votesReceived n) (wal n) (applyCh n) (stopped n) (replicateCancel n) (contexts n) (leaderChanges n) (committedEntries n) (draws n).
Definition set_votesReceived (v : gmap NodeID bool) (n : Node W) : Node W :=
  mkNode (id n) (peers n) (currentTerm n) (votedFor n) (log n) (state n) (commitIndex n) (lastApplied n) (leaderID n) (nextIndex n) (matchIndex n) (electionTimer n) (heartbeatTimer n) (votes n) v (wal n) (applyCh n) (stopped n) (replicateCancel n) (contexts n) (leaderChanges n) (committedEntries n) (draws n).
Definition set_wal (v : option W) (n : Node W) : Node W :=
  mkNode (id n) (peers n) (currentTerm n) (votedFor n) (log n) (state n) (commitIndex n) (lastApplied n) (leaderID n) (nextIndex n) (matchIndex n) (electionTimer n) (heartbeatTimer n) (votes n) (votesReceived n) v (applyCh n) (stopped n) (replicateCancel n) (contexts n) (leaderChanges n) (committedEntries n) (draws n).
Definition set_applyCh (v : list LogEntry) (n : Node W) : Node W :=
  mkNode (id n) (peers n) (currentTerm n) (votedFor n) (log n) (state n) (commitIndex n) (lastApplied n) (leaderID n) (nextIndex n) (matchIndex n) (electionTimer n) (heartbeatTimer n) (votes n) (votesReceived n) (wal n) v (stopped n) (replicateCancel n) (contexts n) (leaderChanges n) (committedEntries n) (draws n).
Definition set_stopped (v : bool) (n : Node W) : Node W :=
  mkNode (id n) (peers n) (currentTerm n) (votedFor n) (log n) (state n) (commitIndex n) (lastApplied n) (leaderID n) (nextIndex n) (matchIndex n) (electionTimer n) (heartbeatTimer n) (votes n) (votesReceived n) (wal n) (applyCh n) v (replicateCancel n) (contexts n) (leaderChanges n) (committedEntries n) (draws n).
Definition set_replicateCancel (v : option nat) (n : Node W) : Node W :=
  mkNode (id n) (peers n) (currentTerm n) (votedFor n) (log n) (state n) (commitIndex n) (lastApplied n) (leaderID n) (nextIndex n) (matchIndex n) (electionTimer n) (heartbeatTimer n) (votes n) (votesReceived n) (wal n) (applyCh n) (stopped n) v (contexts n) (leaderChanges n) (committedEntries n) (draws n).
Definition set_contexts (v : list bool) (n : Node W) : Node W :=
  mkNode (id n) (peers n) (currentTerm n) (votedFor n) (log n) (state n) (commitIndex n) (lastApplied n) (leaderID n) (nextIndex n) (matchIndex n) (electionTimer n) (heartbeatTimer n) (votes n) (votesReceived n) (wal n) (applyCh n) (stopped n) (replicateCancel n) v (leaderChanges n) (committedEntries n) (draws n).
Definition set_leaderChanges (v : Z) (n : Node W) : Node W :=
  mkNode (id n) (peers n) (currentTerm n) (votedFor n) (log n) (state n) (commitIndex n) (lastApplied n) (leaderID n) (nextIndex n) (matchIndex n) (electionTimer n) (heartbeatTimer n) (votes n) (votesReceived n) (wal n) (applyCh n) (stopped n) (replicateCancel n) (contexts n) v (committedEntries n) (draws n).
Definition set_committedEntries (v : Z) (n : Node W) : Node W :=
  mkNode (id n) (peers n) (currentTerm n) (votedFor n) (log n) (state n) (commitIndex n) (lastApplied n) (leaderID n) (nextIndex n) (matchIndex n) (electionTimer n) (heartbeatTimer n) (votes n) (votesReceived n) (wal n) (applyCh n) (stopped n) (replicateCancel n) (contexts n) (leaderChanges n) v (draws n).
Definition set_draws (v : nat) (n : Node W) : Node W :=
  mkNode (id n) (peers n) (currentTerm n) (votedFor n) (log n) (state n) (commitIndex n) (lastApplied n) (leaderID n) (nextIndex n) (matchIndex n) (electionTimer n) (heartbeatTimer n) (votes n) (votesReceived n) (wal n) (applyCh n) (stopped n) (replicateCancel n) (contexts n) (leaderChanges n) (committedEntries n) v.

End setters.

(** [n |> f |> g]: assignments in the order of the source. *)
Notation "n |> f" := (f n) (at level 50, left associativity, only parsing) : raft_scope.

(** The status structure returned to the HTTP API. *)
Record NodeStatus : Type := mkNodeStatus {
  st_NodeID : string;
  st_State : string;
  st_Term : Term;
  st_CommitIndex : LogIndex;
  st_LastApplied : LogIndex;
  st_Peers : list string;
  st_LeaderID : string;
}.

Section node.
Context {W : Type} `{Storage W} `{Rand}.
Implicit Types n : Node W.

Definition NewNode (i : NodeID) (ps : list NodeID) (w : option W) (seed : nat) : Node W :=
  {| id := i; peers := ps; currentTerm := 0; votedFor := ""; log := NewRaftLog;
     state := Follower; commitIndex := 0; lastApplied := 0; leaderID := "";
     nextIndex := ∅; matchIndex := ∅; electionTimer := None; heartbeatTimer := [];
     votes := 0; votesReceived := ∅; wal := w; applyCh := []; stopped := false;
     replicateCancel := None; contexts := []; leaderChanges := 0;
     committedEntries := 0; draws := seed |}.

(** ** Timers and contexts *)

(** [resetElectionTimerLocked]: whether the timer exists or not, it runs
    afterwards, for a duration drawn anew. *)
Definition resetElectionTimerLocked (n : Node W) : Node W :=
  let duration :=
    (electionTimeoutMin + Int63n (draws n) (electionTimeoutMax - electionTimeoutMin))%Z in
  n |> set_draws (S (draws n)) |> set_electionTimer (Some (TRunning duration)).

(** [if n.electionTimer != nil { n.electionTimer.Stop() }] *)
Definition stopElectionTimer (n : Node W) : Node W :=
  match electionTimer n with
  | Some _ => n |> set_electionTimer (Some TStopped)
  | None => n
  end.

(** [if n.heartbeatTimer != nil { n.heartbeatTimer.Stop() }] *)
Definition stopHeartbeatTimer (n : Node W) : Node W :=
  n |> set_heartbeatTimer (<[length (heartbeatTimer n) - 1 := TStopped]> (heartbeatTimer n)).

(** [if n.heartbeatTimer != nil { n.heartbeatTimer.Reset(heartbeatInterval) }] *)
Definition resetHeartbeatTimer (n : Node W) : Node W :=
  n |> set_heartbeatTimer
         (<[length (heartbeatTimer n) - 1 := TRunning heartbeatInterval]> (heartbeatTimer n)).

(** [n.heartbeatTimer = time.NewTimer(heartbeatInterval)] *)
Definition newHeartbeatTimer (n : Node W) : Node W :=
  n |> set_heartbeatTimer (heartbeatTimer n ++ [TRunning heartbeatInterval]).

(** [if n.replicateCancel != nil { n.replicateCancel() }] *)
Definition cancelContext (n : Node W) : Node W :=
  match replicateCancel n with
  | Some c => n |> set_contexts (<[c := true]> (contexts n))
  | None => n
  end.

(** [if n.replicateCancel != nil { n.replicateCancel(); n.replicateCancel = nil }] *)
Definition cancelReplication (n : Node W) : Node W :=
  cancelContext n |> set_replicateCancel None.

(** ** The write-ahead log

    [if n.wal != nil { if err := ...; err != nil { log } }]: an error of the
    storage is reported to the logger and nothing else. *)
Definition persist (r : wrecord) (n : Node W) : Node W :=
  match wal n with
  | None => n
  | Some w => n |> set_wal (Some (wal_append w r).1)
  end.

Definition persist_entries (es : list LogEntry) (n : Node W) : Node W :=
  foldl (λ n e, persist (EntryRecord (e_Index e) (e_Term e) (e_Command e)) n) n es.

(** ** Starting, stopping, recovering *)

Definition Start (n : Node W) : Node W := resetElectionTimerLocked n.

(** [close(n.stopCh)] panics when the channel is closed already. *)
Definition Stop (n : Node W) : outcome (Node W) :=
  if stopped n then Panic
  else Ret (n |> set_stopped true |> stopElectionTimer |> stopHeartbeatTimer |> cancelContext).

Definition Replay (n : Node W) : outcome (Node W + string) :=
  match wal n with
  | None => Ret (inl n)
  | Some w =>
      '(w', res) ← wal_replay w;
      Ret match res with
      | inr err => inr err
      | inl s =>
          let n := n |> set_wal (Some w') |> set_currentTerm (rc_term s) |> set_votedFor (rc_votedFor s) in
          inl (match rc_entries s with
               | [] => n
               | es => n |> set_log (RestoreEntries es)
               end)
      end
  end.

(** ** Role changes *)

Definition becomeFollowerLocked (term : Term) (n : Node W) : Node W :=
  let n1 :=
    if (currentTerm n <? term)%N
    then n |> set_currentTerm term |> set_votedFor "" |> persist (TermRecord term)
    else n in
  let wasLeader := bool_decide (state n1 = Leader) in
  let n2 := n1 |> set_state Follower |> set_votes 0 |> set_votesReceived ∅ in
  let n3 :=
    if wasLeader then n2 |> stopHeartbeatTimer |> cancelReplication else n2 in
  resetElectionTimerLocked n3.

(** The loop that initialises [nextIndex] and [matchIndex] for every peer. *)
Definition init_indices (lastIdx : LogIndex) (n : Node W) : Node W :=
  n |> set_nextIndex (foldl (λ m p, <[p := lastIdx]> m) (nextIndex n) (peers n))
    |> set_matchIndex (foldl (λ m p, <[p := 0%N]> m) (matchIndex n) (peers n)).

Definition becomeLeaderLocked (n : Node W) : Node W :=
  n |> set_state Leader
    |> set_leaderID (id n)
    |> set_leaderChanges (leaderChanges n + 1)
    |> stopElectionTimer
    |> init_indices (LastIndex (log n) +64 1)
    |> newHeartbeatTimer
    |> set_replicateCancel (Some (length (contexts n)))
    |> set_contexts (contexts n ++ [false]).

(** ** Elections *)

(** [startElection]: the critical section and the arguments of the RPCs that
    follow it, which go to every peer. *)
Definition startElection (n : Node W) : outcome (Node W * RequestVoteArgs) :=
  let n := n |> set_currentTerm (currentTerm n +64 1)
             |> set_state Candidate
             |> set_votedFor (id n)
             |> set_leaderID ""
             |> set_votes 1
             |> set_votesReceived {[ id n := true ]} in
  let n := n |> persist (TermRecord (currentTerm n))
             |> persist (VoteRecord (votedFor n) (currentTerm n))
             |> resetElectionTimerLocked in
  lastLogTerm ← LastTerm (log n);
  Ret (n, mkRequestVoteArgs (currentTerm n) (id n) (LastIndex (log n)) lastLogTerm).

(** [majority := (len(n.peers)+1)/2 + 1] *)
Definition majority (n : Node W) : nat := (length (peers n) + 1) / 2 + 1.

(** The critical section of the goroutine of [startElection] that asked [p]
    for its vote in [term], after the reply arrived. *)
Definition handleVoteReply (p : NodeID) (term : Term) (reply : RequestVoteReply)
    (n : Node W) : Node W :=
  if negb (currentTerm n =? term)%N || negb (bool_decide (state n = Candidate)) then n
  else if (currentTerm n <? rvr_Term reply)%N then becomeFollowerLocked (rvr_Term reply) n
  else if rvr_VoteGranted reply then
    if map_get false (votesReceived n) p then n
    else
      let n := n |> set_votesReceived (<[p := true]> (votesReceived n))
                 |> set_votes (votes n + 1) in
      if majority n <=? votes n then becomeLeaderLocked n else n
  else n.

(** [isLogUpToDate] *)
Definition isLogUpToDate (n : Node W) (lastTerm : Term) (lastIndex : LogIndex) : outcome bool :=
  ourLastTerm ← LastTerm (log n);
  let ourLastIndex := LastIndex (log n) in
  Ret (if negb (lastTerm =? ourLastTerm)%N then (ourLastTerm <? lastTerm)%N
       else (ourLastIndex <=? lastIndex)%N).

Definition HandleRequestVote (args : RequestVoteArgs) (n : Node W)
    : outcome (Node W * RequestVoteReply) :=
  let n := if (currentTerm n <? rv_Term args)%N
           then becomeFollowerLocked (rv_Term args) n else n in
  let reply := mkRequestVoteReply (currentTerm n) false in
  if (rv_Term args <? currentTerm n)%N then Ret (n, reply)
  else
    let canVote := bool_decide (votedFor n = "") || bool_decide (votedFor n = rv_CandidateID args) in
    logOK ← isLogUpToDate n (rv_LastLogTerm args) (rv_LastLogIndex args);
    if canVote && logOK then
      let n := n |> set_votedFor (rv_CandidateID args) |> resetElectionTimerLocked in
      Ret (n |> persist (VoteRecord (votedFor n) (currentTerm n)),
           mkRequestVoteReply (rvr_Term reply) true)
    else Ret (n, reply).

(** ** Log replication, the follower's side *)

(** The loop over [args.Entries]: [i] counts the entries seen, [es] is
    [args.Entries[i:]]. *)
Fixpoint append_entries_loop (prev : LogIndex) (i : N) (es : list LogEntry)
    (n : Node W) : outcome (Node W) :=
  match es with
  | [] => Ret n
  | entry :: es' =>
      let idx := prev +64 i +64 1 in
      if Contains (log n) idx then
        t ← TermAt (log n) idx;
        if negb (t =? e_Term entry)%N then
          l ← TruncateAfter (log n) (idx -64 1);
          Ret (n |> set_log (Append l es) |> persist_entries es)
        else append_entries_loop prev (i + 1) es' n
      else Ret (n |> set_log (Append (log n) es) |> persist_entries es)
  end.

(** The consistency test at [PrevLogIndex]: the conflict hint of the reply
    that rejects the request, or [None] when the test passes. *)
Definition check_prev (args : AppendEntriesArgs) (n : Node W) : outcome (option (Term * LogIndex)) :=
  if (0 <? ae_PrevLogIndex args)%N then
    if negb (Contains (log n) (ae_PrevLogIndex args))
    then Ret (Some (0%N, LastIndex (log n) +64 1))
    else
      t ← TermAt (log n) (ae_PrevLogIndex args);
      if negb (t =? ae_PrevLogTerm args)%N
      then Ret (Some (t, FindFirstIndexOfTerm (log n) t))
      else Ret None
  else Ret None.

(** The update of [commitIndex] at the end of the handler. *)
Definition follower_commit (leaderCommit : LogIndex) (n : Node W) : Node W :=
  if (commitIndex n <? leaderCommit)%N
  then n |> set_commitIndex
              (if (LastIndex (log n) <? leaderCommit)%N then LastIndex (log n) else leaderCommit)
  else n.

Definition HandleAppendEntries (args : AppendEntriesArgs) (n : Node W)
    : outcome (Node W * AppendEntriesReply) :=
  if (ae_Term args <? currentTerm n)%N
  then Ret (n, mkAppendEntriesReply (currentTerm n) false 0 0)
  else
    let n := if (currentTerm n <? ae_Term args)%N
             then becomeFollowerLocked (ae_Term args) n else n in
    let n := if bool_decide (state n = Follower) then n
             else n |> set_state Follower |> stopHeartbeatTimer |> cancelReplication in
    let n := n |> set_leaderID (ae_LeaderID args) in
    let replyTerm := currentTerm n in
    let n := resetElectionTimerLocked n in
    conflict ← check_prev args n;
    match conflict with
    | Some (cterm, cidx) => Ret (n, mkAppendEntriesReply replyTerm false cterm cidx)
    | None =>
        n ← append_entries_loop (ae_PrevLogIndex args) 0 (ae_Entries args) n;
        Ret (follower_commit (ae_LeaderCommit args) n,
             mkAppendEntriesReply replyTerm true 0 0)
    end.

(** ** Log replication, the conflict hint at the leader *)

(** [for i := n.log.LastIndex(); i > 0; i--]: the last index whose entry has
    the term, 0 when there is none. *)
Fixpoint find_last_of_term (l : RaftLog) (t : Term) (i : nat) : outcome LogIndex :=
  match i with
  | O => Ret 0%N
  | S i' =>
      t' ← TermAt l (N.of_nat i);
      if (t' =? t)%N then Ret (N.of_nat i) else find_last_of_term l t i'
  end.

Definition handleConflictLocked (peer : NodeID) (reply : AppendEntriesReply) (n : Node W)
    : outcome (Node W) :=
  let set_next v := n |> set_nextIndex (<[peer := v]> (nextIndex n)) in
  if (0 <? aer_ConflictTerm reply)%N then
    lastIdxOfTerm ← find_last_of_term (log n) (aer_ConflictTerm reply)
                      (N.to_nat (LastIndex (log n)));
    if (0 <? lastIdxOfTerm)%N then Ret (set_next (lastIdxOfTerm +64 1))
    else Ret (set_next (aer_ConflictIndex reply))
  else if (0 <? aer_ConflictIndex reply)%N then Ret (set_next (aer_ConflictIndex reply))
  else
    let cur := map_get 0%N (nextIndex n) peer in
    if (1 <? cur)%N then Ret (set_next (cur -64 1)) else Ret n.

(** ** Queries *)

Definition Status (n : Node W) : NodeStatus :=
  mkNodeStatus (id n) (State_String (state n)) (currentTerm n) (commitIndex n)
    (lastApplied n) (peers n) (leaderID n).

Definition IsLeader (n : Node W) : bool := bool_decide (state n = Leader).
Definition LeaderID (n : Node W) : NodeID := leaderID n.
Definition ID (n : Node W) : NodeID := id n.

End node.

#[global] Arguments persist {W _} r n : simpl never.
#[global] Arguments persist_entries {W _} es n : simpl never.
#[global] Arguments becomeFollowerLocked {W _ _} term n : simpl never.
#[global] Arguments becomeLeaderLocked {W} n : simpl never.
#[global] Arguments resetElectionTimerLocked {W _} n : simpl never.
