(* ===== verification/Replication.v ===== *)
(** Replication, commitment and application: src/internal/raft/replication.go,
    with the heartbeat goroutines of src/internal/raft/node.go, which share
    its commit rule.

    A goroutine that sends an RPC has a critical section before the call,
    which builds the arguments, and one after it, which handles the reply;
    each is one definition, and what the goroutine keeps in local variables
    in between is passed to the second one. *)

From S2P Require Import Prelude Types RaftLog Storage Node.
Import RLog.

(** The capacity of [applyCh]. *)
Definition applyCh_capacity : nat := 256.

(** The order of [sort.Slice(matches, ...)]: descending. *)
Definition desc (x y : LogIndex) : Prop := (y <= x)%N.

#[global] Instance desc_dec : RelDecision desc := λ x y, N.le_dec y x.
#[global] Instance desc_trans : Transitive desc.
Proof. intros x y z. unfold desc. lia. Qed.
#[global] Instance desc_total : Total desc.
Proof. intros x y. unfold desc. lia. Qed.

Section replication.
Context {W : Type} `{Storage W} `{Rand}.
Implicit Types n : Node W.

(** ** The commit rule *)

(** [matches]: the leader's own last index and every peer's matchIndex. *)
Definition match_indices (n : Node W) : list LogIndex :=
  LastIndex (log n) :: map (map_get 0%N (matchIndex n)) (peers n).

(** [sort.Slice(matches, >)]: the order of equal numbers does not show, so
    any sorting algorithm gives the same slice. *)
Definition sort_desc (l : list LogIndex) : list LogIndex := merge_sort desc l.

Definition advanceCommitIndexLocked (n : Node W) : outcome (Node W) :=
  let matches := sort_desc (match_indices n) in
  let maj := (length (peers n) + 1) / 2 in
  if length matches <=? maj then Ret n
  else
    candidateCommit ← go_index matches (N.of_nat maj);
    if (commitIndex n <? candidateCommit)%N && Contains (log n) candidateCommit then
      t ← TermAt (log n) candidateCommit;
      if (t =? currentTerm n)%N
      then Ret (n |> set_commitIndex candidateCommit
                  |> set_committedEntries (int_of_u64 candidateCommit))
      else Ret n
    else Ret n.

(** A successful reply: [entries] are the entries that were sent. *)
Definition record_success (peer : NodeID) (es : list LogEntry) (n : Node W) : outcome (Node W) :=
  last ← go_index es (N.of_nat (length es - 1));
  let newNextIdx := e_Index last +64 1 in
  let n := if (map_get 0%N (nextIndex n) peer <? newNextIdx)%N
           then n |> set_nextIndex (<[peer := newNextIdx]> (nextIndex n)) else n in
  let newMatchIdx := newNextIdx -64 1 in
  let n := if (map_get 0%N (matchIndex n) peer <? newMatchIdx)%N
           then n |> set_matchIndex (<[peer := newMatchIdx]> (matchIndex n)) else n in
  advanceCommitIndexLocked n.

(** ** Heartbeats (node.go) *)

(** The first critical section of [sendHeartbeats]: what each of the
    goroutines it starts captures, [None] when the node is not leader. *)
Definition sendHeartbeats (n : Node W) : option (Term * NodeID * LogIndex) :=
  if bool_decide (state n = Leader) then Some (currentTerm n, id n, commitIndex n) else None.

(** The first critical section of a heartbeat goroutine for peer [p].  It does
    not look at the role or the term again: [term] and [commit] are the
    captured ones, the log is the current one. *)
Definition heartbeat_args (p : NodeID) (term : Term) (leader : NodeID) (commit : LogIndex)
    (n : Node W) : outcome AppendEntriesArgs :=
  let next := map_get 0%N (nextIndex n) p in
  let prevLogIndex := next -64 1 in
  prevLogTerm ← TermAt (log n) prevLogIndex;
  es ← EntriesFrom (log n) next;
  Ret (mkAppendEntriesArgs term leader prevLogIndex prevLogTerm es commit).

(** The second one, after the reply. *)
Definition heartbeat_reply (p : NodeID) (term : Term) (es : list LogEntry)
    (reply : AppendEntriesReply) (n : Node W) : outcome (Node W) :=
  if negb (bool_decide (state n = Leader)) || negb (currentTerm n =? term)%N then Ret n
  else if (currentTerm n <? aer_Term reply)%N then Ret (becomeFollowerLocked (aer_Term reply) n)
  else if aer_Success reply then
    if 0 <? length es then record_success p es n else Ret n
  else handleConflictLocked p reply n.

(** ** The replication goroutine of a peer *)

(** What an iteration of the loop does after its first critical section. *)
Inductive repl_action : Type :=
| ReplExit
| ReplContinue
| ReplSend (args : AppendEntriesArgs).

Definition replicate_prepare (peer : NodeID) (n : Node W) : outcome repl_action :=
  if negb (bool_decide (state n = Leader)) then Ret ReplExit
  else
    let nextIdx := map_get 0%N (nextIndex n) peer in
    let prevLogIndex := nextIdx -64 1 in
    prevLogTerm ← TermAt (log n) prevLogIndex;
    es ← EntriesFrom (log n) nextIdx;
    Ret (match es with
         | [] => ReplContinue
         | _ => ReplSend (mkAppendEntriesArgs (currentTerm n) (id n) prevLogIndex
                            prevLogTerm es (commitIndex n))
         end).

(** The flag tells whether the goroutine goes on. *)
Definition replicate_reply (peer : NodeID) (term : Term) (es : list LogEntry)
    (reply : AppendEntriesReply) (n : Node W) : outcome (Node W * bool) :=
  if negb (bool_decide (state n = Leader)) || negb (currentTerm n =? term)%N then Ret (n, false)
  else if (currentTerm n <? aer_Term reply)%N
  then Ret (becomeFollowerLocked (aer_Term reply) n, false)
  else
    n ← (if aer_Success reply then record_success peer es n
         else handleConflictLocked peer reply n);
    Ret (n, true).

(** ** The apply loop *)

(** The first critical section of an iteration: the entries to deliver and
    the new [lastApplied]. *)
Definition apply_collect (n : Node W) : outcome (option (list LogEntry * LogIndex)) :=
  if (commitIndex n <=? lastApplied n)%N then Ret None
  else
    es ← Entries (log n) (lastApplied n +64 1) (commitIndex n);
    Ret (Some (es, commitIndex n)).

(** [n.applyCh <- entry]: blocked ([None]) while the channel is full. *)
Definition apply_send (e : LogEntry) (n : Node W) : option (Node W) :=
  if length (applyCh n) <? applyCh_capacity
  then Some (n |> set_applyCh (applyCh n ++ [e])) else None.

(** The last critical section of an iteration. *)
Definition apply_finish (newLastApplied : LogIndex) (n : Node W) : Node W :=
  n |> set_lastApplied newLastApplied.

(** ** Client commands *)

(** The critical section of [SubmitCommand] that appends: the node always has
    the entry in its log afterwards, also when the storage reports an error. *)
Definition submit_append (command : bytes) (n : Node W)
    : Node W * ((LogIndex * Term) + raft_error) :=
  if negb (bool_decide (state n = Leader)) then (n, inr ErrNotLeader)
  else
    let entry := mkEntry (currentTerm n) (LastIndex (log n) +64 1) command in
    let n := n |> set_log (Append (log n) [entry]) in
    match wal n with
    | None => (n, inl (e_Index entry, e_Term entry))
    | Some w =>
        let (w', err) := PersistEntry w (e_Index entry) (e_Term entry) (e_Command entry) in
        let n := n |> set_wal (Some w') in
        match err with
        | Some msg => (n, inr (ErrStorage msg))
        | None => (n, inl (e_Index entry, e_Term entry))
        end
    end.

(** One round of the waiting loop: the result, or [None] to sleep and look
    again. *)
Definition submit_poll (index : LogIndex) (term : Term) (n : Node W)
    : option ((LogIndex * Term) + raft_error) :=
  if negb (bool_decide (state n = Leader)) || negb (currentTerm n =? term)%N
  then Some (inr ErrNotLeader)
  else if (index <=? lastApplied n)%N then Some (inl (index, term))
  else None.

(** [SubmitCommand] against the states in which the waiting loop looks at the
    node until its deadline passes. *)
Fixpoint submit_wait (index : LogIndex) (term : Term) (looks : list (Node W))
    : (LogIndex * Term) + raft_error :=
  match looks with
  | [] => inr ErrTimeout
  | n :: looks' =>
      match submit_poll index term n with
      | Some r => r
      | None => submit_wait index term looks'
      end
  end.

Definition SubmitCommand (command : bytes) (n : Node W) (looks : list (Node W))
    : Node W * ((LogIndex * Term) + raft_error) :=
  match submit_append command n with
  | (n', inr err) => (n', inr err)
  | (n', inl (index, term)) => (n', submit_wait index term looks)
  end.

End replication.

(** ** The element in the middle *)

Lemma sorted_desc_take l i x :
  StronglySorted desc l → l !! i = Some x → Forall (λ y, (x <= y)%N) (take (S i) l).
Proof.
  intros Hs. revert i. induction Hs as [|y l _ IH Hy]; intros i Hi; [done|].
  destruct i as [|i]; simpl in Hi.
  - injection Hi as ->. rewrite firstn_cons, firstn_0. repeat constructor. lia.
  - rewrite firstn_cons. constructor; [|by apply IH].
    eapply Forall_lookup_1 in Hy; [|done]. done.
Qed.

(** More than [i] of the numbers are at least the [i]-th in descending order. *)
Lemma sort_desc_count l i x :
  sort_desc l !! i = Some x → S i <= length (filter (λ y, (x <= y)%N) l).
Proof.
  intros Hi. unfold sort_desc in Hi.
  pose proof (StronglySorted_merge_sort desc l) as Hs.
  pose proof (sorted_desc_take _ _ _ Hs Hi) as Hall. apply lookup_lt_Some in Hi as Hlt.
  rewrite <- (merge_sort_Permutation desc l).
  rewrite <- (take_drop (S i) (merge_sort desc l)), filter_app, length_app.
  assert (Hf : ∀ l', Forall (λ y, (x <= y)%N) l' → length (filter (λ y, (x <= y)%N) l') = length l').
  { induction 1 as [|y l' Hy _ IH]; [done|]. rewrite filter_cons, decide_True by done. simpl. lia. }
  rewrite (Hf _ Hall), length_take. lia.
Qed.

(** At most [i] of the numbers are over the [i]-th in descending order. *)
Lemma sort_desc_above l i x :
  sort_desc l !! i = Some x → length (filter (λ y, (x < y)%N) l) <= i.
Proof.
  intros Hi. unfold sort_desc in Hi.
  pose proof (StronglySorted_merge_sort desc l) as Hs.
  rewrite <- (merge_sort_Permutation desc l).
  rewrite <- (take_drop i (merge_sort desc l)), filter_app, length_app.
  assert (Hle : Forall (λ y, (y <= x)%N) (drop i (merge_sort desc l))).
  { revert i Hi. induction Hs as [|y s _ IH Hy]; intros i Hi; [done|].
    destruct i as [|i]; simpl in *; [|by apply IH]. injection Hi as ->.
    constructor; [lia|]. eapply Forall_impl; [exact Hy|]. unfold desc. intros. lia. }
  assert (Hd : filter (λ y, (x < y)%N) (drop i (merge_sort desc l)) = []).
  { induction Hle as [|y s Hy _ IH]; [done|]. rewrite filter_cons, decide_False by lia. done. }
  rewrite Hd. simpl. pose proof (length_filter (λ y, (x < y)%N) (take i (merge_sort desc l))).
  rewrite length_take in *. lia.
Qed.
