(* ===== verification/Cluster.v ===== *)
(** A cluster of servers: the Raft nodes of src/internal/raft with the
    goroutines around them (the apply loop of replication.go, the consumer of
    [applyCh] of src/cmd/server/main.go), connected by a network, as the
    in-process cluster of src/tests/chaos/chaos_test.go builds it.

    An execution is a sequence of events, each of them one critical section
    of one goroutine of one server, in any interleaving.  [exec] runs one
    event and [run] a sequence; both are executable.  The network keeps every
    message, so an execution may deliver a message late, twice, or never. *)

From S2P Require Import Prelude Types RaftLog Storage Node Replication.
Import RLog.

(** What is in flight: the requests and replies of the two RPCs, and the
    heartbeat goroutines that have been started and have not yet built their
    arguments.  In all five, [src] is the server that makes the call. *)
Inductive packet : Type :=
| VoteReq (src dst : NodeID) (args : RequestVoteArgs)
| VoteRep (src dst : NodeID) (term : Term) (reply : RequestVoteReply)
| HbTask (src dst : NodeID) (term : Term) (leader : NodeID) (commit : LogIndex)
| AppReq (src dst : NodeID) (hb : bool) (args : AppendEntriesArgs)
| AppRep (src dst : NodeID) (hb : bool) (args : AppendEntriesArgs) (reply : AppendEntriesReply).

(** A server: the node, what the apply loop holds between its critical
    sections (entries left to send and the new [lastApplied]), and the entries
    the consumer has taken from [applyCh] so far. *)
Record server (W : Type) : Type := mkServer {
  sv_node : Node W;
  sv_applier : option (list LogEntry * LogIndex);
  sv_consumed : list LogEntry;
}.
Arguments mkServer {W}.
Arguments sv_node {W} _.
Arguments sv_applier {W} _.
Arguments sv_consumed {W} _.

Record cluster (W : Type) : Type := mkCluster {
  cl_servers : gmap NodeID (server W);
  cl_net : list packet;
}.
Arguments mkCluster {W}.
Arguments cl_servers {W} _.
Arguments cl_net {W} _.

(** Events; a number is the position of a message in the network. *)
Inductive event : Type :=
| EvElection (i : NodeID)
| EvVoteRequest (k : nat)
| EvVoteReply (k : nat)
| EvHeartbeats (i : NodeID)
| EvHeartbeatTask (k : nat)
| EvReplicate (i p : NodeID)
| EvAppendRequest (k : nat)
| EvAppendReply (k : nat)
| EvSubmit (i : NodeID) (command : bytes)
| EvApplyCollect (i : NodeID)
| EvApplySend (i : NodeID)
| EvApplyFinish (i : NodeID)
| EvConsume (i : NodeID)
| EvRestart (i : NodeID).

(** The goroutines of a server die with its process; requests on the wire do
    not. *)
Definition goroutine_of (i : NodeID) (p : packet) : bool :=
  match p with
  | VoteRep src _ _ _ | HbTask src _ _ _ _ | AppRep src _ _ _ _ => bool_decide (src = i)
  | VoteReq _ _ _ | AppReq _ _ _ _ => false
  end.

Section cluster.
Context {W : Type} `{Storage W} `{Rand}.
Implicit Types c : cluster W.
Implicit Types s : server W.

Definition set_node (n : Node W) (s : server W) : server W :=
  mkServer n (sv_applier s) (sv_consumed s).

(** What an event of a server gives: [None] when the server cannot take it
    now, [Some Panic] when the process dies, else the new state of the server
    and the messages sent. *)
Abbreviation reaction := (option (outcome (server W * list packet))).

Definition react (s : server W) (r : outcome (Node W * list packet)) : reaction :=
  Some ('(n, ps) ← r; Ret (set_node n s, ps)).

Definition on_election (s : server W) : reaction :=
  react s ('(n, args) ← startElection (sv_node s);
           Ret (n, map (λ p, VoteReq (id n) p args) (peers n))).

Definition on_vote_request (src dst : NodeID) (args : RequestVoteArgs) (s : server W) : reaction :=
  react s ('(n, reply) ← HandleRequestVote args (sv_node s);
           Ret (n, [VoteRep src dst (rv_Term args) reply])).

Definition on_vote_reply (p : NodeID) (term : Term) (reply : RequestVoteReply)
    (s : server W) : reaction :=
  react s (Ret (handleVoteReply p term reply (sv_node s), [])).

Definition on_heartbeats (s : server W) : reaction :=
  match sendHeartbeats (sv_node s) with
  | None => None
  | Some (term, leader, commit) =>
      react s (Ret (sv_node s,
                    map (λ p, HbTask (id (sv_node s)) p term leader commit) (peers (sv_node s))))
  end.

Definition on_heartbeat_task (src p : NodeID) (term : Term) (leader : NodeID)
    (commit : LogIndex) (s : server W) : reaction :=
  react s (args ← heartbeat_args p term leader commit (sv_node s);
           Ret (sv_node s, [AppReq src p true args])).

Definition on_replicate (p : NodeID) (s : server W) : reaction :=
  if bool_decide (p ∈ peers (sv_node s)) then
    match replicate_prepare p (sv_node s) with
    | Panic => Some Panic
    | Ret (ReplSend args) => react s (Ret (sv_node s, [AppReq (id (sv_node s)) p false args]))
    | Ret _ => None
    end
  else None.

Definition on_append_request (src dst : NodeID) (hb : bool) (args : AppendEntriesArgs)
    (s : server W) : reaction :=
  react s ('(n, reply) ← HandleAppendEntries args (sv_node s);
           Ret (n, [AppRep src dst hb args reply])).

Definition on_append_reply (p : NodeID) (hb : bool) (args : AppendEntriesArgs)
    (reply : AppendEntriesReply) (s : server W) : reaction :=
  react s (n ← (if hb then heartbeat_reply p (ae_Term args) (ae_Entries args) reply (sv_node s)
                else fst <$> replicate_reply p (ae_Term args) (ae_Entries args) reply (sv_node s));
           Ret (n, [])).

Definition on_submit (command : bytes) (s : server W) : reaction :=
  react s (Ret ((submit_append command (sv_node s)).1, [])).

Definition on_apply_collect (s : server W) : reaction :=
  match sv_applier s with
  | Some _ => None
  | None =>
      match apply_collect (sv_node s) with
      | Panic => Some Panic
      | Ret None => None
      | Ret (Some pending) => Some (Ret (mkServer (sv_node s) (Some pending) (sv_consumed s), []))
      end
  end.

Definition on_apply_send (s : server W) : reaction :=
  match sv_applier s with
  | Some (e :: es, new) =>
      match apply_send e (sv_node s) with
      | Some n => Some (Ret (mkServer n (Some (es, new)) (sv_consumed s), []))
      | None => None
      end
  | _ => None
  end.

Definition on_apply_finish (s : server W) : reaction :=
  match sv_applier s with
  | Some ([], new) => Some (Ret (mkServer (apply_finish new (sv_node s)) None (sv_consumed s), []))
  | _ => None
  end.

(** The consumer takes an entry from [applyCh] and applies it to its store: the
    store is a function of the entries taken ([replica] of KVStore.v). *)
Definition on_consume (s : server W) : reaction :=
  match applyCh (sv_node s) with
  | e :: es => Some (Ret (mkServer (set_applyCh es (sv_node s)) (sv_applier s)
                            (sv_consumed s ++ [e]), []))
  | [] => None
  end.

(** A server whose node has a write-ahead log stops between two critical sections
    (not in the middle of one, between two writes to the log) and is started
    again, as main.go does: [NewWAL] on the same directory, [NewNode],
    [Replay], [Start].  A node that fails to open or replay its log does not
    start. *)
Definition on_restart (s : server W) : reaction :=
  let n := sv_node s in
  match wal n with
  | None => None
  | Some w =>
      match wal_reopen w with
      | inr _ => None
      | inl w' =>
          match Replay (NewNode (id n) (peers n) (Some w') (draws n)) with
          | Panic => Some Panic
          | Ret (inr _) => None
          | Ret (inl n') => Some (Ret (mkServer (Start n') None [], []))
          end
      end
  end.

Definition at_server (i : NodeID) (f : server W → reaction) (c : cluster W)
    : option (outcome (cluster W)) :=
  s ← cl_servers c !! i;
  r ← f s;
  Some ('(s', ps) ← r;
        Ret (mkCluster (<[i := s']> (cl_servers c)) (cl_net c ++ ps))).

Definition exec (ev : event) (c : cluster W) : option (outcome (cluster W)) :=
  match ev with
  | EvElection i => at_server i on_election c
  | EvVoteRequest k =>
      match cl_net c !! k with
      | Some (VoteReq src dst args) => at_server dst (on_vote_request src dst args) c
      | _ => None
      end
  | EvVoteReply k =>
      match cl_net c !! k with
      | Some (VoteRep src dst term reply) => at_server src (on_vote_reply dst term reply) c
      | _ => None
      end
  | EvHeartbeats i => at_server i on_heartbeats c
  | EvHeartbeatTask k =>
      match cl_net c !! k with
      | Some (HbTask src dst term leader commit) =>
          at_server src (on_heartbeat_task src dst term leader commit) c
      | _ => None
      end
  | EvReplicate i p => at_server i (on_replicate p) c
  | EvAppendRequest k =>
      match cl_net c !! k with
      | Some (AppReq src dst hb args) => at_server dst (on_append_request src dst hb args) c
      | _ => None
      end
  | EvAppendReply k =>
      match cl_net c !! k with
      | Some (AppRep src dst hb args reply) => at_server src (on_append_reply dst hb args reply) c
      | _ => None
      end
  | EvSubmit i command => at_server i (on_submit command) c
  | EvApplyCollect i => at_server i on_apply_collect c
  | EvApplySend i => at_server i on_apply_send c
  | EvApplyFinish i => at_server i on_apply_finish c
  | EvConsume i => at_server i on_consume c
  | EvRestart i =>
      at_server i on_restart
        (mkCluster (cl_servers c) (List.filter (λ p, negb (goroutine_of i p)) (cl_net c)))
  end.

Fixpoint run (evs : list event) (c : cluster W) : option (outcome (cluster W)) :=
  match evs with
  | [] => Some (Ret c)
  | ev :: evs' =>
      match exec ev c with
      | Some (Ret c') => run evs' c'
      | r => r
      end
  end.

(** A restart is intact when the process gets back what it had in memory: its
    term, the vote it cast in it, if it cast one, and its log.  (When it had not
    voted in its term, a vote of an earlier term may come back: [Replay] does not
    look at the term of a vote record.) *)
Definition intact (s : server W) : Prop :=
  match on_restart s with
  | Some (Ret (s', _)) =>
      currentTerm (sv_node s') = currentTerm (sv_node s) ∧
      (votedFor (sv_node s) ≠ "" → votedFor (sv_node s') = votedFor (sv_node s)) ∧
      entries (log (sv_node s')) = entries (log (sv_node s))
  | Some Panic => False
  | None => True
  end.

Definition intact_restart (ev : event) (c : cluster W) : Prop :=
  match ev with
  | EvRestart i => match cl_servers c !! i with Some s => intact s | None => True end
  | _ => True
  end.

(** Every restart of the execution is intact. *)
Fixpoint intact_run (evs : list event) (c : cluster W) : Prop :=
  match evs with
  | [] => True
  | ev :: evs' =>
      intact_restart ev c ∧ match exec ev c with Some (Ret c') => intact_run evs' c' | _ => True end
  end.

#[global] Instance intact_dec (s : server W) : Decision (intact s).
Proof. unfold intact. destruct (on_restart s) as [[[s' ps]|]|]; apply _. Defined.

#[global] Instance intact_restart_dec ev c : Decision (intact_restart ev c).
Proof. destruct ev as [| | | | | | | | | | | | |i]; simpl; [apply _..|]. destruct (cl_servers c !! i); apply _. Defined.

#[global] Instance intact_run_dec evs c : Decision (intact_run evs c).
Proof.
  revert c. induction evs as [|ev evs IH]; intros c; simpl; [apply _|].
  destruct (exec ev c) as [[c'|]|]; apply _.
Defined.

(** The initial cluster: every server has all the others as peers and a fresh
    node; [w i] is the write-ahead log of server [i], if any. *)
Definition peers_of (ids : list NodeID) (i : NodeID) : list NodeID :=
  filter (λ p, p ≠ i) ids.

Definition init_server (ids : list NodeID) (w : NodeID → option W) (i : NodeID) : server W :=
  mkServer (Start (NewNode i (peers_of ids i) (w i) 0)) None [].

Definition init_cluster (ids : list NodeID) (w : NodeID → option W) : cluster W :=
  mkCluster (list_to_map ((λ i, (i, init_server ids w i)) <$> ids)) [].

End cluster.

(** No server restarts. *)
Definition crash_free (evs : list event) : Prop :=
  Forall (λ ev, match ev with EvRestart _ => False | _ => True end) evs.

Lemma crash_free_intact {W} `{Storage W} `{Rand} evs (c : cluster W) : crash_free evs → intact_run evs c.
Proof.
  intros Hcf. revert c. induction Hcf as [|ev evs Hev _ IH]; intros c; simpl; [done|].
  split; [by destruct ev|]. destruct (exec ev c) as [[c'|]|]; auto.
Qed.
