(* ===== verification/Protocol.v ===== *)
(** The protocol the nodes follow: an abstract specification of the cluster.

    A [core] is the part of a node's state that the other nodes can observe
    through the protocol; timers, contexts, metrics, the write-ahead log and
    the apply queue are left out, numbers are unbounded and nothing panics.
    [ptrans] gives the transitions of one node, [pstep] those of a cluster.
    Refinement.v shows that the critical sections of node.go and replication.go
    implement these transitions; ElectionSafety.v and LogSafety.v prove the
    safety properties of Raft for them. *)

From S2P Require Import Prelude Types RaftLog Replication Cluster.

Record core : Type := mkCore {
  k_id : NodeID;
  k_peers : list NodeID;
  k_term : Term;
  k_voted : NodeID;
  k_log : list LogEntry;
  k_state : State;
  k_commit : LogIndex;
  k_next : gmap NodeID LogIndex;
  k_match : gmap NodeID LogIndex;
  k_votes : nat;
  k_received : gmap NodeID bool;
}.

Definition pstate : Type := gmap NodeID core * list packet.

(** ** Logs as lists of entries, the sentinel first *)

Definition tm (L : list LogEntry) (i : nat) : Term :=
  match L !! i with Some e => e_Term e | None => 0%N end.

Definition last_index (L : list LogEntry) : LogIndex := N.of_nat (length L - 1).
Definition last_term (L : list LogEntry) : Term := tm L (length L - 1).

(** The log after entries [es] are offered at position [pos]: nothing happens
    while the terms agree; from the first disagreement on, or past the end, the
    rest replaces what was there. *)
Fixpoint merge_log (L : list LogEntry) (pos : nat) (es : list LogEntry) : list LogEntry :=
  match es with
  | [] => L
  | e :: es' =>
      match L !! pos with
      | Some e' =>
          if (e_Term e' =? e_Term e)%N then merge_log L (S pos) es' else take pos L ++ es
      | None => L ++ es
      end
  end.

(** The first position after the sentinel whose entry has the term. *)
Definition first_of_term (L : list LogEntry) (t : Term) : LogIndex :=
  RLog.FindFirstIndexOfTerm (mkLog L) t.

(** The last position below [i] (included) whose entry has the term. *)
Fixpoint last_of_term (L : list LogEntry) (t : Term) (i : nat) : LogIndex :=
  match i with
  | O => 0%N
  | S i' => if (tm L i =? t)%N then N.of_nat i else last_of_term L t i'
  end.

(** ** Transitions of a node *)

(** Move to a higher term. *)
Definition p_bump (t : Term) (k : core) : core :=
  mkCore (k_id k) (k_peers k) t "" (k_log k) Follower (k_commit k)
    (k_next k) (k_match k) 0 ∅.

Definition p_set_voted (v : NodeID) (k : core) : core :=
  mkCore (k_id k) (k_peers k) (k_term k) v (k_log k) (k_state k) (k_commit k)
    (k_next k) (k_match k) (k_votes k) (k_received k).

Definition p_set_next (p : NodeID) (x : LogIndex) (k : core) : core :=
  mkCore (k_id k) (k_peers k) (k_term k) (k_voted k) (k_log k) (k_state k) (k_commit k)
    (<[p := x]> (k_next k)) (k_match k) (k_votes k) (k_received k).

Definition p_set_match (p : NodeID) (x : LogIndex) (k : core) : core :=
  mkCore (k_id k) (k_peers k) (k_term k) (k_voted k) (k_log k) (k_state k) (k_commit k)
    (k_next k) (<[p := x]> (k_match k)) (k_votes k) (k_received k).

Definition p_set_commit (x : LogIndex) (k : core) : core :=
  mkCore (k_id k) (k_peers k) (k_term k) (k_voted k) (k_log k) (k_state k) x
    (k_next k) (k_match k) (k_votes k) (k_received k).

Definition p_set_log (L : list LogEntry) (k : core) : core :=
  mkCore (k_id k) (k_peers k) (k_term k) (k_voted k) L (k_state k) (k_commit k)
    (k_next k) (k_match k) (k_votes k) (k_received k).

Definition p_set_state (s : State) (k : core) : core :=
  mkCore (k_id k) (k_peers k) (k_term k) (k_voted k) (k_log k) s (k_commit k)
    (k_next k) (k_match k) (k_votes k) (k_received k).

(** An election. *)
Definition p_elect (k : core) : core :=
  mkCore (k_id k) (k_peers k) (k_term k + 1) (k_id k) (k_log k) Candidate (k_commit k)
    (k_next k) (k_match k) 1 {[ k_id k := true ]}.

Definition p_vote_args (k : core) : RequestVoteArgs :=
  mkRequestVoteArgs (k_term k) (k_id k) (last_index (k_log k)) (last_term (k_log k)).

(** The answer to a vote request. *)
Definition p_up_to_date (args : RequestVoteArgs) (k : core) : bool :=
  if negb (rv_LastLogTerm args =? last_term (k_log k))%N
  then (last_term (k_log k) <? rv_LastLogTerm args)%N
  else (last_index (k_log k) <=? rv_LastLogIndex args)%N.

Definition p_can_vote (args : RequestVoteArgs) (k : core) : bool :=
  bool_decide (k_voted k = "") || bool_decide (k_voted k = rv_CandidateID args).

Definition p_vote (args : RequestVoteArgs) (k : core) : core * RequestVoteReply :=
  let k := if (k_term k <? rv_Term args)%N then p_bump (rv_Term args) k else k in
  if (rv_Term args <? k_term k)%N then (k, mkRequestVoteReply (k_term k) false)
  else if p_can_vote args k && p_up_to_date args k
  then (p_set_voted (rv_CandidateID args) k, mkRequestVoteReply (k_term k) true)
  else (k, mkRequestVoteReply (k_term k) false).

(** A vote reply at the candidate. *)
Definition p_majority (k : core) : nat := (length (k_peers k) + 1) / 2 + 1.

Definition p_count (p : NodeID) (k : core) : core :=
  mkCore (k_id k) (k_peers k) (k_term k) (k_voted k) (k_log k) (k_state k) (k_commit k)
    (k_next k) (k_match k) (k_votes k + 1) (<[p := true]> (k_received k)).

Definition p_lead (k : core) : core :=
  mkCore (k_id k) (k_peers k) (k_term k) (k_voted k) (k_log k) Leader (k_commit k)
    (foldl (λ m p, <[p := (last_index (k_log k) + 1)%N]> m) (k_next k) (k_peers k))
    (foldl (λ m p, <[p := 0%N]> m) (k_match k) (k_peers k))
    (k_votes k) (k_received k).

Definition p_vote_reply (p : NodeID) (term : Term) (reply : RequestVoteReply) (k : core) : core :=
  if negb (k_term k =? term)%N || negb (bool_decide (k_state k = Candidate)) then k
  else if (k_term k <? rvr_Term reply)%N then p_bump (rvr_Term reply) k
  else if rvr_VoteGranted reply then
    if map_get false (k_received k) p then k
    else if p_majority (p_count p k) <=? k_votes (p_count p k)
         then p_lead (p_count p k) else p_count p k
  else k.

(** The arguments of an AppendEntries request to [p]. *)
Definition p_args (p : NodeID) (term : Term) (leader : NodeID) (commit : LogIndex) (k : core)
    : AppendEntriesArgs :=
  let next := map_get 0%N (k_next k) p in
  mkAppendEntriesArgs term leader (next - 1) (tm (k_log k) (N.to_nat (next - 1)))
    (drop (N.to_nat next) (k_log k)) commit.

(** The answer to an AppendEntries request. *)
Definition p_check_prev (args : AppendEntriesArgs) (L : list LogEntry) : option (Term * LogIndex) :=
  if (0 <? ae_PrevLogIndex args)%N then
    if negb (ae_PrevLogIndex args <? N.of_nat (length L))%N
    then Some (0%N, (last_index L + 1)%N)
    else
      let t := tm L (N.to_nat (ae_PrevLogIndex args)) in
      if negb (t =? ae_PrevLogTerm args)%N then Some (t, first_of_term L t) else None
  else None.

Definition p_follow_commit (leaderCommit : LogIndex) (k : core) : core :=
  if (k_commit k <? leaderCommit)%N
  then p_set_commit (N.min (last_index (k_log k)) leaderCommit) k
  else k.

Definition p_append (args : AppendEntriesArgs) (k : core) : core * AppendEntriesReply :=
  if (ae_Term args <? k_term k)%N then (k, mkAppendEntriesReply (k_term k) false 0 0)
  else
    let k := p_set_state Follower
               (if (k_term k <? ae_Term args)%N then p_bump (ae_Term args) k else k) in
    match p_check_prev args (k_log k) with
    | Some (cterm, cidx) => (k, mkAppendEntriesReply (k_term k) false cterm cidx)
    | None =>
        let L := merge_log (k_log k) (S (N.to_nat (ae_PrevLogIndex args))) (ae_Entries args) in
        (p_follow_commit (ae_LeaderCommit args) (p_set_log L k),
         mkAppendEntriesReply (k_term k) true 0 0)
    end.

(** An AppendEntries reply at the leader. *)
Definition p_match_indices (k : core) : list LogIndex :=
  last_index (k_log k) :: map (map_get 0%N (k_match k)) (k_peers k).

Definition p_advance (k : core) : core :=
  match sort_desc (p_match_indices k) !! ((length (k_peers k) + 1) / 2) with
  | Some x =>
      if (k_commit k <? x)%N && (x <? N.of_nat (length (k_log k)))%N
         && (tm (k_log k) (N.to_nat x) =? k_term k)%N
      then p_set_commit x k else k
  | None => k
  end.

Definition p_success (p : NodeID) (x : LogIndex) (k : core) : core :=
  let k := if (map_get 0%N (k_next k) p <? x + 1)%N then p_set_next p (x + 1) k else k in
  let k := if (map_get 0%N (k_match k) p <? x)%N then p_set_match p x k else k in
  p_advance k.

Definition p_conflict (p : NodeID) (reply : AppendEntriesReply) (k : core) : core :=
  if (0 <? aer_ConflictTerm reply)%N then
    let x := last_of_term (k_log k) (aer_ConflictTerm reply) (length (k_log k) - 1) in
    if (0 <? x)%N then p_set_next p (x + 1) k else p_set_next p (aer_ConflictIndex reply) k
  else if (0 <? aer_ConflictIndex reply)%N then p_set_next p (aer_ConflictIndex reply) k
  else
    let cur := map_get 0%N (k_next k) p in
    if (1 <? cur)%N then p_set_next p (cur - 1) k else k.

Definition p_append_reply (p : NodeID) (args : AppendEntriesArgs) (reply : AppendEntriesReply)
    (k : core) : core :=
  if negb (bool_decide (k_state k = Leader)) || negb (k_term k =? ae_Term args)%N then k
  else if (k_term k <? aer_Term reply)%N then p_bump (aer_Term reply) k
  else if aer_Success reply then
    match last (ae_Entries args) with
    | Some e => p_success p (e_Index e) k
    | None => k
    end
  else p_conflict p reply k.

(** A client command at the leader. *)
Definition p_submit (command : bytes) (k : core) : core :=
  p_set_log (k_log k ++ [mkEntry (k_term k) (last_index (k_log k) + 1) command]) k.

(** ** The transition system *)

Inductive ptrans (net : list packet) (i : NodeID) (k : core) : core → list packet → Prop :=
| pt_idle : ptrans net i k k []
| pt_elect :
    ptrans net i k (p_elect k) (map (λ p, VoteReq i p (p_vote_args (p_elect k))) (k_peers k))
| pt_vote src args :
    VoteReq src i args ∈ net →
    ptrans net i k (p_vote args k).1 [VoteRep src i (rv_Term args) (p_vote args k).2]
| pt_vote_reply p term reply :
    VoteRep i p term reply ∈ net →
    ptrans net i k (p_vote_reply p term reply k) []
| pt_heartbeats :
    k_state k = Leader →
    ptrans net i k k (map (λ p, HbTask i p (k_term k) i (k_commit k)) (k_peers k))
| pt_heartbeat_task p term leader commit :
    HbTask i p term leader commit ∈ net →
    ptrans net i k k [AppReq i p true (p_args p term leader commit k)]
| pt_replicate p :
    k_state k = Leader → p ∈ k_peers k →
    ae_Entries (p_args p (k_term k) i (k_commit k) k) ≠ [] →
    ptrans net i k k [AppReq i p false (p_args p (k_term k) i (k_commit k) k)]
| pt_append src hb args :
    AppReq src i hb args ∈ net →
    ptrans net i k (p_append args k).1 [AppRep src i hb args (p_append args k).2]
| pt_append_reply p hb args reply :
    AppRep i p hb args reply ∈ net →
    ptrans net i k (p_append_reply p args reply k) []
| pt_submit command :
    k_state k = Leader →
    ptrans net i k (p_submit command k) [].

(** A restart keeps the term; it keeps the vote, or invents one when there
    was none; the log is whatever the storage gives back. *)
Definition p_restarted (v : NodeID) (L : list LogEntry) (k : core) : core :=
  mkCore (k_id k) (k_peers k) (k_term k) v L Follower 0 ∅ ∅ 0 ∅.

Inductive pstep : pstate → pstate → Prop :=
| ps_trans m net i k k' ps :
    m !! i = Some k → ptrans net i k k' ps →
    pstep (m, net) (<[i := k']> m, net ++ ps)
| ps_restart m net i k v L :
    m !! i = Some k → (k_voted k ≠ "" → v = k_voted k) →
    pstep (m, net)
      (<[i := p_restarted v L k]> m, List.filter (λ p, negb (goroutine_of i p)) net).

(** Steps whose restarts give back the log that was lost. *)
Inductive pstep_live : pstate → pstate → Prop :=
| psl_trans m net i k k' ps :
    m !! i = Some k → ptrans net i k k' ps →
    pstep_live (m, net) (<[i := k']> m, net ++ ps)
| psl_restart m net i k v :
    m !! i = Some k → (k_voted k ≠ "" → v = k_voted k) →
    pstep_live (m, net)
      (<[i := p_restarted v (k_log k) k]> m, List.filter (λ p, negb (goroutine_of i p)) net).

Definition p_init_core (ids : list NodeID) (i : NodeID) : core :=
  mkCore i (peers_of ids i) 0 "" [sentinel] Follower 0 ∅ ∅ 0 ∅.

Definition p_init (ids : list NodeID) : pstate :=
  (list_to_map ((λ i, (i, p_init_core ids i)) <$> ids), []).

(** ** The cases of a transition *)

(** The core after the term of a message was taken over. *)
Definition p_observe (t : Term) (k : core) : core :=
  if (k_term k <? t)%N then p_bump t k else k.

Lemma p_observe_cases t k :
  ((k_term k < t)%N ∧ p_observe t k = p_bump t k) ∨ ((t <= k_term k)%N ∧ p_observe t k = k).
Proof. unfold p_observe. destruct (N.ltb_spec (k_term k) t); auto. Qed.

Lemma p_observe_term t k : k_term (p_observe t k) = N.max (k_term k) t.
Proof. destruct (p_observe_cases t k) as [[? ->]|[? ->]]; simpl; lia. Qed.

Lemma p_observe_log t k : k_log (p_observe t k) = k_log k.
Proof. by destruct (p_observe_cases t k) as [[? ->]|[? ->]]. Qed.

Lemma p_vote_cases args k k' reply :
  p_vote args k = (k', reply) →
  (k' = p_observe (rv_Term args) k ∧ rvr_VoteGranted reply = false) ∨
  (k' = p_set_voted (rv_CandidateID args) (p_observe (rv_Term args) k) ∧
   reply = mkRequestVoteReply (rv_Term args) true ∧
   (k_term k <= rv_Term args)%N ∧
   (k_voted (p_observe (rv_Term args) k) = "" ∨
    k_voted (p_observe (rv_Term args) k) = rv_CandidateID args) ∧
   p_up_to_date args k = true).
Proof.
  unfold p_vote. fold (p_observe (rv_Term args) k).
  destruct (N.ltb_spec (rv_Term args) (k_term (p_observe (rv_Term args) k))) as [|Hge].
  { intros [= <- <-]. auto. }
  rewrite p_observe_term in *.
  assert (Hu : p_up_to_date args (p_observe (rv_Term args) k) = p_up_to_date args k)
    by (unfold p_up_to_date; by rewrite p_observe_log).
  rewrite Hu. unfold p_can_vote.
  destruct (_ && _) eqn:E; intros [= <- <-]; [right|by left].
  apply andb_true_iff in E as [Hc Hup]. split_and!; [done|f_equal; lia|lia| |done].
  apply orb_true_iff in Hc as [?%bool_decide_eq_true|?%bool_decide_eq_true]; auto.
Qed.

Lemma p_vote_reply_cases p term reply k :
  p_vote_reply p term reply k = k ∨
  ((k_term k < rvr_Term reply)%N ∧ p_vote_reply p term reply k = p_bump (rvr_Term reply) k) ∨
  (k_term k = term ∧ k_state k = Candidate ∧ rvr_VoteGranted reply = true ∧
   map_get false (k_received k) p = false ∧
   (p_vote_reply p term reply k = p_count p k ∨
    (p_vote_reply p term reply k = p_lead (p_count p k) ∧
     p_majority k <= k_votes (p_count p k)))).
Proof.
  unfold p_vote_reply.
  destruct (N.eqb_spec (k_term k) term); simpl; [|auto].
  case_bool_decide; simpl; [|auto].
  destruct (N.ltb_spec (k_term k) (rvr_Term reply)); [auto|].
  destruct (rvr_VoteGranted reply); [|auto].
  destruct (map_get false (k_received k) p); [auto|].
  change (p_majority (p_count p k)) with (p_majority k).
  right. right. split_and!; [done..|].
  simpl. destruct (Nat.leb_spec (p_majority k) (k_votes k + 1)); auto.
Qed.

Lemma p_append_cases args k k' reply :
  p_append args k = (k', reply) →
  ((ae_Term args < k_term k)%N ∧ k' = k ∧ reply = mkAppendEntriesReply (k_term k) false 0 0) ∨
  ((k_term k <= ae_Term args)%N ∧
   ((∃ ct ci, p_check_prev args (k_log k) = Some (ct, ci) ∧
              k' = p_set_state Follower (p_observe (ae_Term args) k) ∧
              reply = mkAppendEntriesReply (ae_Term args) false ct ci) ∨
    (p_check_prev args (k_log k) = None ∧
     k' = p_follow_commit (ae_LeaderCommit args)
            (p_set_log (merge_log (k_log k) (S (N.to_nat (ae_PrevLogIndex args))) (ae_Entries args))
               (p_set_state Follower (p_observe (ae_Term args) k))) ∧
     reply = mkAppendEntriesReply (ae_Term args) true 0 0))).
Proof.
  unfold p_append. fold (p_observe (ae_Term args) k).
  destruct (N.ltb_spec (ae_Term args) (k_term k)) as [|Hge].
  { intros [= <- <-]. auto. }
  assert (Ht : k_term (p_set_state Follower (p_observe (ae_Term args) k)) = ae_Term args).
  { simpl. rewrite p_observe_term. lia. }
  rewrite Ht. change (k_log (p_set_state Follower (p_observe (ae_Term args) k)))
    with (k_log (p_observe (ae_Term args) k)). rewrite p_observe_log.
  destruct (p_check_prev args (k_log k)) as [[ct ci]|]; intros [= <- <-];
    right; (split; [done|]); [left; by exists ct, ci|by right].
Qed.

Lemma p_append_reply_cases p args reply k :
  p_append_reply p args reply k = k ∨
  ((k_term k < aer_Term reply)%N ∧
   p_append_reply p args reply k = p_bump (aer_Term reply) k) ∨
  (k_state k = Leader ∧ k_term k = ae_Term args ∧ (aer_Term reply <= k_term k)%N ∧
   ((∃ e, aer_Success reply = true ∧ last (ae_Entries args) = Some e ∧
          p_append_reply p args reply k = p_success p (e_Index e) k) ∨
    (aer_Success reply = false ∧ p_append_reply p args reply k = p_conflict p reply k))).
Proof.
  unfold p_append_reply. case_bool_decide; simpl; [|auto].
  destruct (N.eqb_spec (k_term k) (ae_Term args)); simpl; [|auto].
  destruct (N.ltb_spec (k_term k) (aer_Term reply)); [auto|].
  destruct (aer_Success reply); [|auto 10].
  destruct (last (ae_Entries args)); [|auto]. right. right. split_and!; eauto.
Qed.

(** What the leader's bookkeeping leaves alone. *)
Definition same_but_indices (k k' : core) : Prop :=
  k_id k' = k_id k ∧ k_peers k' = k_peers k ∧ k_term k' = k_term k ∧
  k_voted k' = k_voted k ∧ k_log k' = k_log k ∧ k_state k' = k_state k ∧
  k_votes k' = k_votes k ∧ k_received k' = k_received k.

Lemma p_success_same p x k : same_but_indices k (p_success p x k).
Proof.
  unfold p_success, p_advance. set (k1 := if (map_get _ _ p <? x + 1)%N then _ else _).
  assert (H1 : same_but_indices k k1) by (unfold k1; by case_match).
  set (k2 := if (map_get _ _ p <? x)%N then _ else _).
  assert (H2 : same_but_indices k k2) by (unfold k2; by destruct (_ <? x)%N).
  clearbody k2. by case_match; [case_match|].
Qed.

Lemma p_conflict_same p reply k : same_but_indices k (p_conflict p reply k).
Proof. unfold p_conflict. by repeat case_match. Qed.

Lemma p_follow_commit_same lc k : same_but_indices k (p_follow_commit lc k).
Proof. unfold p_follow_commit. by case_match. Qed.

(** Terms grow, and within a term a vote that was cast stays. *)
Definition core_le (k k' : core) : Prop :=
  k_id k' = k_id k ∧ k_peers k' = k_peers k ∧ (k_term k <= k_term k')%N ∧
  (k_term k' = k_term k → k_voted k = "" ∨ k_voted k' = k_voted k).

Lemma core_le_refl k : core_le k k.
Proof. unfold core_le. split_and!; auto; lia. Qed.

Lemma core_le_trans k1 k2 k3 : core_le k1 k2 → core_le k2 k3 → core_le k1 k3.
Proof.
  intros (?&?&?&HA) (?&?&?&HB). split_and!; [congruence..|lia|].
  intros. destruct HA; [lia|auto|]. destruct HB; [lia|left; congruence|right; congruence].
Qed.

Lemma same_but_indices_le k k' : same_but_indices k k' → core_le k k'.
Proof. intros (Hi&Hp&Ht&Hv&_). unfold core_le. split_and!; auto; lia. Qed.

Lemma p_bump_le t k : (k_term k < t)%N → core_le k (p_bump t k).
Proof. intros. unfold core_le. simpl. split_and!; auto; lia. Qed.

Lemma p_observe_le t k : core_le k (p_observe t k).
Proof.
  destruct (p_observe_cases t k) as [[? ->]|[? ->]]; [by apply p_bump_le|apply core_le_refl].
Qed.

Lemma p_set_voted_le v k : k_voted k = "" ∨ k_voted k = v → core_le k (p_set_voted v k).
Proof. intros [?| ?]; unfold core_le; simpl; split_and!; auto; lia. Qed.

Lemma ptrans_le net i k k' ps : ptrans net i k k' ps → core_le k k'.
Proof.
  intros Ht. destruct Ht as
    [| |src args _|p term reply _|_|p term leader commit _|p _ _ _|src hb args _
     |p hb args reply _|cmd _]; try apply core_le_refl.
  - unfold core_le. simpl. split_and!; auto; lia.
  - destruct (p_vote args k) as [k1 r] eqn:E. simpl.
    apply p_vote_cases in E as [[-> _]|(-> & _ & _ & Hv & _)]; [apply p_observe_le|].
    eapply core_le_trans; [apply p_observe_le|]. by apply p_set_voted_le.
  - destruct (p_vote_reply_cases p term reply k)
      as [->|[[? ->]|(_ & _ & _ & _ & [->|[-> _]])]];
      [apply core_le_refl|by apply p_bump_le| |];
      unfold core_le; simpl; split_and!; auto; lia.
  - destruct (p_append args k) as [k1 r] eqn:E. simpl.
    apply p_append_cases in E as [(_ & -> & _)|(_ & [(ct & ci & _ & -> & _)|(_ & -> & _)])];
      [apply core_le_refl|..].
    + eapply core_le_trans; [apply p_observe_le|].
      unfold core_le; simpl; split_and!; auto; lia.
    + eapply core_le_trans; [apply p_observe_le|].
      eapply core_le_trans; [|apply same_but_indices_le, p_follow_commit_same].
      unfold core_le; simpl; split_and!; auto; lia.
  - destruct (p_append_reply_cases p args reply k)
      as [->|[[? ->]|(_ & _ & _ & [(e & _ & _ & ->)|(_ & ->)])]];
      [apply core_le_refl|by apply p_bump_le|..]; apply same_but_indices_le;
      auto using p_success_same, p_conflict_same.
  - unfold core_le. simpl. split_and!; auto; lia.
Qed.
