(* ===== verification/Refinement.v ===== *)
(** The node implements the protocol.

    [core_of] forgets everything of a node but its protocol state.  For every
    critical section of node.go and replication.go, a lemma states that within
    the bounds of the machine integers it does not panic and has the effect on
    the core, and sends the messages, that Protocol.v prescribes.  The bounds
    are [node_bounds]; they hold in every execution of fewer than 2^62 events
    (Safety.v). *)

From S2P Require Import Prelude Types RaftLog Storage Node Replication Cluster Protocol.
Import RLog.

Section refinement.
Context {W : Type} `{Storage W} `{Rand}.
Implicit Types n : Node W.

Definition core_of (n : Node W) : core :=
  mkCore (id n) (peers n) (currentTerm n) (votedFor n) (entries (log n)) (state n)
    (commitIndex n) (nextIndex n) (matchIndex n) (votes n) (votesReceived n).

(** The apply queue and [lastApplied] are the apply loop's alone. *)
Definition queue_of (n : Node W) : LogIndex * list LogEntry := (lastApplied n, applyCh n).

Definition node_bounds (n : Node W) : Prop :=
  log_shape (log n) ∧ (currentTerm n + 1 < two64)%N.

(** ** Operations that leave the core alone *)

Lemma persist_core r n : core_of (persist r n) = core_of n.
Proof. unfold persist. by destruct (wal n). Qed.

Lemma persist_queue r n : queue_of (persist r n) = queue_of n.
Proof. unfold persist. by destruct (wal n). Qed.

Lemma persist_entries_core es n : core_of (persist_entries es n) = core_of n.
Proof.
  revert n. induction es as [|e es IH]; intros n; [done|].
  unfold persist_entries in *. simpl. by rewrite IH, persist_core.
Qed.

Lemma persist_entries_queue es n : queue_of (persist_entries es n) = queue_of n.
Proof.
  revert n. induction es as [|e es IH]; intros n; [done|].
  unfold persist_entries in *. simpl. by rewrite IH, persist_queue.
Qed.

Lemma resetElectionTimer_core n : core_of (resetElectionTimerLocked n) = core_of n.
Proof. done. Qed.

Lemma resetElectionTimer_queue n : queue_of (resetElectionTimerLocked n) = queue_of n.
Proof. done. Qed.

Lemma stopElectionTimer_core n : core_of (stopElectionTimer n) = core_of n.
Proof. unfold stopElectionTimer. by destruct (electionTimer n). Qed.

Lemma stopElectionTimer_queue n : queue_of (stopElectionTimer n) = queue_of n.
Proof. unfold stopElectionTimer. by destruct (electionTimer n). Qed.

Lemma cancelReplication_core n : core_of (cancelReplication n) = core_of n.
Proof. unfold cancelReplication, cancelContext. by destruct (replicateCancel n). Qed.

Lemma cancelReplication_queue n : queue_of (cancelReplication n) = queue_of n.
Proof. unfold cancelReplication, cancelContext. by destruct (replicateCancel n). Qed.

(** Equal cores have equal fields. *)
Lemma core_of_fields n1 n2 :
  core_of n1 = core_of n2 →
  id n1 = id n2 ∧ peers n1 = peers n2 ∧ currentTerm n1 = currentTerm n2 ∧
  votedFor n1 = votedFor n2 ∧ log n1 = log n2 ∧ state n1 = state n2 ∧
  commitIndex n1 = commitIndex n2 ∧ nextIndex n1 = nextIndex n2 ∧
  matchIndex n1 = matchIndex n2 ∧ votes n1 = votes n2 ∧
  votesReceived n1 = votesReceived n2.
Proof.
  intros E. injection E as -> -> -> -> Hl -> -> -> -> -> ->.
  split_and!; try done. destruct (log n1), (log n2). simpl in Hl. by subst.
Qed.

(** ** Role changes *)

Lemma becomeFollower_core t n :
  (currentTerm n < t)%N → core_of (becomeFollowerLocked t n) = p_bump t (core_of n).
Proof.
  intros Ht%N.ltb_lt. unfold becomeFollowerLocked. rewrite Ht.
  rewrite resetElectionTimer_core. unfold persist. simpl.
  by destruct (wal n); simpl; case_bool_decide; rewrite ?cancelReplication_core.
Qed.

Lemma becomeFollower_queue t n : queue_of (becomeFollowerLocked t n) = queue_of n.
Proof.
  unfold becomeFollowerLocked. rewrite resetElectionTimer_queue. unfold persist. simpl.
  by destruct (currentTerm n <? t)%N, (wal n); simpl; case_bool_decide;
    rewrite ?cancelReplication_queue.
Qed.

Lemma becomeLeader_core n :
  log_shape (log n) → core_of (becomeLeaderLocked n) = p_lead (core_of n).
Proof.
  intros Hl. unfold becomeLeaderLocked, p_lead, last_index.
  rewrite LastIndex_eq by done.
  rewrite u64_add_small by (destruct Hl; unfold two63, two64 in *; lia).
  unfold stopElectionTimer. by destruct n as [???????????[]???????????].
Qed.

Lemma becomeLeader_queue n : queue_of (becomeLeaderLocked n) = queue_of n.
Proof.
  unfold becomeLeaderLocked, stopElectionTimer. by destruct n as [???????????[]???????????].
Qed.

(** ** Elections *)

Lemma startElection_refines n :
  node_bounds n →
  ∃ n', startElection n = Ret (n', p_vote_args (p_elect (core_of n))) ∧
        core_of n' = p_elect (core_of n) ∧ queue_of n' = queue_of n.
Proof.
  intros [Hl Ht]. unfold startElection.
  set (n1 := set_votesReceived _ _).
  set (n2 := resetElectionTimerLocked _).
  assert (Hn2 : core_of n2 = p_elect (core_of n)).
  { unfold n2. rewrite resetElectionTimer_core, !persist_core.
    unfold n1, p_elect, core_of; simpl. by rewrite u64_add_small. }
  assert (Hq : queue_of n2 = queue_of n).
  { unfold n2. by rewrite resetElectionTimer_queue, !persist_queue. }
  clearbody n2. exists n2. injection Hn2 as Hid Hp Htm Hv Hlog Hst Hc Hn Hm Hvs Hr.
  assert (Hl2 : log_shape (log n2)) by (unfold log_shape; by rewrite Hlog).
  rewrite LastTerm_spec by done. simpl. split_and!; [|unfold core_of, p_elect; by f_equal|done].
  rewrite LastIndex_eq by done. unfold p_vote_args, last_index, last_term, tm, term_at. simpl.
  by rewrite Hid, Htm, Hlog.
Qed.

Lemma HandleRequestVote_refines args n :
  log_shape (log n) →
  ∃ n' reply, HandleRequestVote args n = Ret (n', reply) ∧
              p_vote args (core_of n) = (core_of n', reply) ∧ queue_of n' = queue_of n.
Proof.
  intros Hl. unfold HandleRequestVote, p_vote.
  set (n1 := if (currentTerm n <? rv_Term args)%N then _ else _).
  assert (Hn1 : core_of n1 = if (k_term (core_of n) <? rv_Term args)%N
                             then p_bump (rv_Term args) (core_of n) else core_of n).
  { unfold n1. simpl. destruct (N.ltb_spec (currentTerm n) (rv_Term args)); [|done].
    by apply becomeFollower_core. }
  assert (Hq : queue_of n1 = queue_of n).
  { unfold n1. destruct (currentTerm n <? rv_Term args)%N; [apply becomeFollower_queue|done]. }
  clearbody n1. rewrite <- Hn1. simpl k_term.
  assert (Hl1 : log_shape (log n1)).
  { unfold log_shape. change (entries (log n1)) with (k_log (core_of n1)). rewrite Hn1.
    by case_match. }
  destruct (rv_Term args <? currentTerm n1)%N eqn:Hs; [by exists n1, (mkRequestVoteReply (currentTerm n1) false)|].
  unfold isLogUpToDate. rewrite LastTerm_spec by done. simpl.
  rewrite LastIndex_eq by done.
  set (b1 := bool_decide (votedFor n1 = "") || _).
  set (b2 := if negb _ then _ else _).
  change (p_can_vote args (core_of n1) && p_up_to_date args (core_of n1)) with (b1 && b2).
  destruct (b1 && b2).
  - eexists _, _. split_and!; [done| |].
    + rewrite persist_core, resetElectionTimer_core. done.
    + by rewrite persist_queue.
  - by eexists _, _.
Qed.

Lemma handleVoteReply_refines p term reply n :
  log_shape (log n) →
  core_of (handleVoteReply p term reply n) = p_vote_reply p term reply (core_of n) ∧
  queue_of (handleVoteReply p term reply n) = queue_of n.
Proof.
  intros Hl. unfold handleVoteReply, p_vote_reply. simpl.
  destruct (negb (currentTerm n =? term)%N || negb (bool_decide (state n = Candidate))); [done|].
  destruct (N.ltb_spec (currentTerm n) (rvr_Term reply)).
  { split; [by apply becomeFollower_core|apply becomeFollower_queue]. }
  destruct (rvr_VoteGranted reply); [|done].
  destruct (map_get false (votesReceived n) p); [done|].
  set (n1 := set_votes _ _). change (p_count p (core_of n)) with (core_of n1).
  change (majority n1) with (p_majority (core_of n1)). simpl votes. simpl k_votes.
  case_match; [|done]. split; [by apply becomeLeader_core|exact (becomeLeader_queue n1)].
Qed.

(** ** The follower's side *)

Lemma append_entries_loop_refines prev i es n :
  log_shape (log n) → (prev + i + N.of_nat (length es) + 1 < two63)%N →
  ∃ n', append_entries_loop prev i es n = Ret n' ∧
        core_of n' = p_set_log
          (merge_log (entries (log n)) (S (N.to_nat (prev + i))) es) (core_of n) ∧
        queue_of n' = queue_of n.
Proof.
  revert i. induction es as [|e es IH]; intros i Hl Hb; simpl.
  { by exists n. }
  rewrite length_cons in Hb.
  rewrite (u64_add_small prev i), (u64_add_small _ 1) by (unfold two63, two64 in *; lia).
  rewrite Contains_spec by lia.
  replace (S (N.to_nat (prev + i))) with (N.to_nat (prev + i + 1)) by lia.
  destruct (N.ltb_spec (prev + i + 1) (N.of_nat (length (entries (log n))))) as [Hlt|Hge].
  - rewrite TermAt_spec by lia. simpl. unfold term_at.
    destruct (entries (log n) !! N.to_nat (prev + i + 1)) as [e'|] eqn:E.
    2: { apply lookup_ge_None in E. lia. }
    destruct (e_Term e' =? e_Term e)%N; simpl.
    + destruct (IH (i + 1)%N) as (n' & Hn' & Hc & Hq); [done|lia|].
      exists n'. split_and!; [done| |done].
      by replace (S (N.to_nat (prev + i + 1))) with (S (N.to_nat (prev + (i + 1)))) by lia.
    + rewrite u64_sub_small by (unfold two63, two64 in *; lia).
      rewrite TruncateAfter_spec by lia. simpl. eexists. split; [done|].
      rewrite persist_entries_core, persist_entries_queue. split; [|done].
      unfold core_of, p_set_log; simpl.
      replace (S (N.to_nat (prev + i + 1 - 1))) with (N.to_nat (prev + i + 1)) by lia. done.
  - rewrite (proj2 (lookup_ge_None _ _)) by lia. eexists. split; [done|].
    by rewrite persist_entries_core, persist_entries_queue.
Qed.

Lemma check_prev_refines args n :
  log_shape (log n) → (ae_PrevLogIndex args < two63)%N →
  check_prev args n = Ret (p_check_prev args (entries (log n))).
Proof.
  intros Hl Hp. unfold check_prev, p_check_prev, last_index.
  rewrite Contains_spec, TermAt_spec, LastIndex_eq by done.
  rewrite u64_add_small by (destruct Hl; unfold two63, two64 in *; lia).
  destruct (0 <? ae_PrevLogIndex args)%N; [|done].
  destruct (ae_PrevLogIndex args <? N.of_nat (length (entries (log n))))%N; simpl; [|done].
  change (term_at (log n)) with (tm (entries (log n))).
  unfold first_of_term. replace (mkLog (entries (log n))) with (log n) by (by destruct (log n)).
  by case_match.
Qed.

Lemma follower_commit_refines lc n :
  log_shape (log n) →
  core_of (follower_commit lc n) = p_follow_commit lc (core_of n) ∧
  queue_of (follower_commit lc n) = queue_of n.
Proof.
  intros Hl. unfold follower_commit, p_follow_commit, last_index. simpl.
  case_match; [|done]. rewrite LastIndex_eq by done. split; [|done].
  unfold core_of, p_set_commit; simpl. unfold N.min, N.ltb.
  rewrite N.compare_antisym. by destruct (lc ?= _)%N eqn:E; simpl;
    try apply N.compare_eq in E; subst.
Qed.

Definition args_bounds (args : AppendEntriesArgs) : Prop :=
  (ae_PrevLogIndex args + N.of_nat (length (ae_Entries args)) + 1 < two63)%N.

Lemma merge_log_length L pos es :
  length (merge_log L pos es) <= Nat.max (length L) (pos + length es) + length es.
Proof.
  revert pos. induction es as [|e es IH]; intros pos; simpl; [lia|].
  case_match; [case_match|].
  - specialize (IH (S pos)). lia.
  - rewrite length_app, length_take. simpl. lia.
  - rewrite length_app. simpl. lia.
Qed.

Lemma merge_log_nonempty L pos es : 0 < length L → 0 < pos → 0 < length (merge_log L pos es).
Proof.
  revert pos. induction es as [|e es IH]; intros pos ??; simpl; [lia|].
  case_match; [case_match; [apply IH; lia|]|]; rewrite length_app; simpl; lia.
Qed.

Lemma HandleAppendEntries_refines args n :
  log_shape (log n) → args_bounds args →
  (N.of_nat (length (merge_log (entries (log n)) (S (N.to_nat (ae_PrevLogIndex args)))
     (ae_Entries args))) < two63)%N →
  ∃ n' reply, HandleAppendEntries args n = Ret (n', reply) ∧
              p_append args (core_of n) = (core_of n', reply) ∧ queue_of n' = queue_of n.
Proof.
  intros Hl Ha Hm. unfold HandleAppendEntries, p_append. simpl k_term.
  destruct (ae_Term args <? currentTerm n)%N; [by eexists _, _|].
  set (n1 := if (currentTerm n <? ae_Term args)%N then _ else _).
  assert (Hn1 : core_of n1 = if (currentTerm n <? ae_Term args)%N
                             then p_bump (ae_Term args) (core_of n) else core_of n).
  { unfold n1. destruct (N.ltb_spec (currentTerm n) (ae_Term args)); [|done].
    by apply becomeFollower_core. }
  assert (Hq1 : queue_of n1 = queue_of n).
  { unfold n1. destruct (currentTerm n <? ae_Term args)%N; [apply becomeFollower_queue|done]. }
  rewrite <- Hn1. clearbody n1.
  set (n2 := resetElectionTimerLocked _).
  assert (Hn2 : core_of n2 = p_set_state Follower (core_of n1)).
  { unfold n2. rewrite resetElectionTimer_core. case_bool_decide as E.
    - unfold p_set_state, core_of; simpl. by rewrite E.
    - unfold cancelReplication, cancelContext. by destruct n1 as [??????????????????[]????]. }
  assert (Hq2 : queue_of n2 = queue_of n).
  { unfold n2. rewrite resetElectionTimer_queue, <- Hq1. case_bool_decide as E; [done|].
    unfold cancelReplication, cancelContext. by destruct n1 as [??????????????????[]????]. }
  set (n2' := set_leaderID _ _). assert (Ht2 : currentTerm n2' = currentTerm n2) by done.
  rewrite Ht2, <- Hn2. clear n2' Ht2. clearbody n2.
  assert (Hlog : entries (log n2) = entries (log n)).
  { change (k_log (core_of n2) = k_log (core_of n)). rewrite Hn2. simpl.
    change (k_log (core_of n1) = k_log (core_of n)). rewrite Hn1. by case_match. }
  assert (Hl2 : log_shape (log n2)) by (unfold log_shape; by rewrite Hlog).
  unfold args_bounds in Ha. rewrite check_prev_refines by (done || lia). simpl.
  assert (Ht12 : currentTerm n1 = currentTerm n2).
  { change (k_term (core_of n1) = k_term (core_of n2)). by rewrite Hn2. }
  rewrite Ht12. change (k_log (core_of n2)) with (entries (log n2)).
  destruct (p_check_prev args (entries (log n2))) as [[ct ci]|]; [by eexists _, _|].
  destruct (append_entries_loop_refines (ae_PrevLogIndex args) 0 (ae_Entries args) n2)
    as (n3 & -> & Hc3 & Hq3); [done|lia|]. simpl.
  assert (Hl3 : log_shape (log n3)).
  { unfold log_shape. change (entries (log n3)) with (k_log (core_of n3)). rewrite Hc3. simpl.
    rewrite N.add_0_r, Hlog. split; [|done]. apply merge_log_nonempty; [apply Hl|lia]. }
  destruct (follower_commit_refines (ae_LeaderCommit args) n3 Hl3) as [Hc4 Hq4].
  eexists _, _. split_and!; [done| |congruence].
  rewrite Hc4, Hc3, N.add_0_r. done.
Qed.

(** ** The leader's side *)

(** The values of [nextIndex] and [matchIndex] are positions. *)
Definition index_bounds (n : Node W) : Prop :=
  (∀ p x, nextIndex n !! p = Some x → (x < two63)%N) ∧
  (∀ p x, matchIndex n !! p = Some x → (x < two63)%N).

Lemma next_bound n p : index_bounds n → (map_get 0 (nextIndex n) p < two63)%N.
Proof. intros [Hb _]. unfold map_get. destruct (nextIndex n !! p) eqn:E; [eauto|done]. Qed.

Lemma match_bound n p : index_bounds n → (map_get 0 (matchIndex n) p < two63)%N.
Proof. intros [_ Hb]. unfold map_get. destruct (matchIndex n !! p) eqn:E; [eauto|done]. Qed.

Lemma length_sort_desc l : length (sort_desc l) = length l.
Proof. apply Permutation_length, merge_sort_Permutation. Qed.

Lemma match_indices_bound n x :
  log_shape (log n) → index_bounds n → x ∈ match_indices n → (x < two63)%N.
Proof.
  intros Hl Hb [->|Hx]%elem_of_cons; [by apply LastIndex_bound|].
  apply list_elem_of_In, in_map_iff in Hx as (p & <- & _). by apply match_bound.
Qed.

Lemma match_indices_core n : log_shape (log n) → match_indices n = p_match_indices (core_of n).
Proof. intros Hl. unfold match_indices, p_match_indices, last_index. by rewrite LastIndex_eq. Qed.

Lemma advanceCommit_refines n :
  log_shape (log n) → index_bounds n →
  ∃ n', advanceCommitIndexLocked n = Ret n' ∧ core_of n' = p_advance (core_of n) ∧
        queue_of n' = queue_of n.
Proof.
  intros Hl Hb. unfold advanceCommitIndexLocked, p_advance.
  rewrite length_sort_desc. rewrite match_indices_core by done.
  replace (length (p_match_indices (core_of n))) with (S (length (peers n)))
    by (unfold p_match_indices; simpl; by rewrite length_map).
  pose proof (half_lt (length (peers n))).
  rewrite (proj2 (Nat.leb_gt _ _)) by lia.
  change (length (k_peers (core_of n))) with (length (peers n)).
  destruct (sort_desc (p_match_indices (core_of n)) !! ((length (peers n) + 1) / 2))
    as [x|] eqn:E.
  2: { apply lookup_ge_None in E. rewrite length_sort_desc in E.
       unfold p_match_indices in E. rewrite length_cons, length_map in E.
       change (k_peers (core_of n)) with (peers n) in E. lia. }
  unfold go_index. rewrite Nat2N.id, E. cbn [mbind outcome_bind].
  assert (Hx : (x < two63)%N).
  { apply (match_indices_bound n); [done..|]. rewrite match_indices_core by done.
    apply list_elem_of_lookup_2 in E. unfold sort_desc in E.
    by rewrite merge_sort_Permutation in E. }
  rewrite Contains_spec, TermAt_spec by done. simpl.
  change (term_at (log n)) with (tm (entries (log n))).
  destruct (commitIndex n <? x)%N, (x <? N.of_nat (length (entries (log n))))%N; simpl;
    try by exists n.
  by case_match; eexists.
Qed.

Lemma record_success_refines p es e n :
  log_shape (log n) → index_bounds n → last es = Some e → (e_Index e + 1 < two63)%N →
  ∃ n', record_success p es n = Ret n' ∧ core_of n' = p_success p (e_Index e) (core_of n) ∧
        queue_of n' = queue_of n.
Proof.
  intros Hl Hb Hes He. unfold record_success, p_success, go_index.
  rewrite Nat2N.id. rewrite last_lookup in Hes.
  replace (length es - 1) with (pred (length es)) by lia. rewrite Hes. simpl.
  rewrite (u64_add_small (e_Index e) 1) by (unfold two63, two64 in *; lia).
  rewrite u64_sub_small by (unfold two63, two64 in *; lia).
  replace (e_Index e + 1 - 1)%N with (e_Index e) by lia.
  set (n1 := if (map_get 0 (nextIndex n) p <? e_Index e + 1)%N then _ else n).
  assert (Hn1 : core_of n1 = if (map_get 0 (nextIndex n) p <? e_Index e + 1)%N
     then p_set_next p (e_Index e + 1) (core_of n) else core_of n) by (unfold n1; by case_match).
  assert (Hb1 : index_bounds n1).
  { unfold n1. case_match; [|done]. destruct Hb as [Hb1 Hb2]. split; simpl; [|done].
    intros p' x. rewrite lookup_insert. case_decide; [naive_solver|eauto]. }
  assert (Hr1 : log_shape (log n1) ∧ queue_of n1 = queue_of n) by (unfold n1; by case_match).
  rewrite <- Hn1. clearbody n1. destruct Hr1 as [Hl1 Hq1].
  set (n2 := if (map_get 0 (matchIndex n1) p <? e_Index e)%N then _ else n1).
  assert (Hn2 : core_of n2 = if (map_get 0 (matchIndex n1) p <? e_Index e)%N
     then p_set_match p (e_Index e) (core_of n1) else core_of n1) by (unfold n2; by destruct (_ <? e_Index e)%N).
  change (k_match (core_of n1)) with (matchIndex n1). rewrite <- Hn2.
  assert (Hr2 : log_shape (log n2) ∧ queue_of n2 = queue_of n) by (unfold n2; by destruct (_ <? e_Index e)%N).
  destruct Hr2 as [Hl2 <-]. apply advanceCommit_refines; [done|].
  unfold n2. destruct (_ <? e_Index e)%N; [|done]. destruct Hb1 as [Hb1 Hb2]. split; simpl; [done|].
  intros p' x. rewrite lookup_insert. case_decide; [naive_solver lia|eauto].
Qed.

Lemma find_last_of_term_refines l t i :
  (N.of_nat i < two63)%N → find_last_of_term l t i = Ret (last_of_term (entries l) t i).
Proof.
  induction i as [|i IH]; intros Hi; [done|]. cbn [find_last_of_term last_of_term].
  rewrite TermAt_spec by done. rewrite Nat2N.id. simpl.
  change (term_at l) with (tm (entries l)). case_match; [done|]. apply IH. lia.
Qed.

Lemma last_of_term_le L t i : (last_of_term L t i <= N.of_nat i)%N.
Proof. induction i; simpl; [lia|]. case_match; lia. Qed.

Lemma handleConflict_refines p reply n :
  log_shape (log n) → index_bounds n →
  ∃ n', handleConflictLocked p reply n = Ret n' ∧ core_of n' = p_conflict p reply (core_of n) ∧
        queue_of n' = queue_of n.
Proof.
  intros Hl Hb. unfold handleConflictLocked, p_conflict. simpl.
  rewrite LastIndex_eq, Nat2N.id by done.
  rewrite find_last_of_term_refines by (destruct Hl; lia). simpl.
  pose proof (last_of_term_le (entries (log n)) (aer_ConflictTerm reply)
                (length (entries (log n)) - 1)).
  rewrite u64_add_small by (destruct Hl; unfold two63, two64 in *; lia).
  pose proof (next_bound n p Hb).
  destruct (0 <? aer_ConflictTerm reply)%N; [by case_match; eexists|].
  destruct (0 <? aer_ConflictIndex reply)%N; [by eexists|].
  destruct (N.ltb_spec 1 (map_get 0%N (nextIndex n) p)); [|by eexists].
  rewrite u64_sub_small by (unfold two63, two64 in *; lia). by eexists.
Qed.

Lemma heartbeat_args_refines p term leader commit n :
  log_shape (log n) → index_bounds n → (0 < map_get 0 (nextIndex n) p)%N →
  heartbeat_args p term leader commit n = Ret (p_args p term leader commit (core_of n)).
Proof.
  intros Hl Hb Hp. pose proof (next_bound n p Hb). unfold heartbeat_args, p_args.
  rewrite u64_sub_small by (unfold two63, two64 in *; lia).
  rewrite TermAt_spec, EntriesFrom_spec by (done || lia). done.
Qed.

Lemma replicate_prepare_refines p n :
  log_shape (log n) → index_bounds n → state n = Leader → (0 < map_get 0 (nextIndex n) p)%N →
  replicate_prepare p n =
    let args := p_args p (currentTerm n) (id n) (commitIndex n) (core_of n) in
    Ret (match ae_Entries args with [] => ReplContinue | _ => ReplSend args end).
Proof.
  intros Hl Hb Hs Hp. pose proof (next_bound n p Hb). unfold replicate_prepare, p_args.
  rewrite Hs. simpl.
  rewrite u64_sub_small by (unfold two63, two64 in *; lia).
  rewrite TermAt_spec, EntriesFrom_spec by (done || lia). simpl.
  by case_match.
Qed.

(** Both goroutines that handle a reply have the same effect. *)
Lemma append_reply_refines p (hb : bool) args reply n :
  log_shape (log n) → index_bounds n → (hb = false → ae_Entries args ≠ []) →
  (∀ e, last (ae_Entries args) = Some e → (e_Index e + 1 < two63)%N) →
  ∃ n', (if hb then heartbeat_reply p (ae_Term args) (ae_Entries args) reply n
         else fst <$> replicate_reply p (ae_Term args) (ae_Entries args) reply n) = Ret n' ∧
        core_of n' = p_append_reply p args reply (core_of n) ∧ queue_of n' = queue_of n.
Proof.
  intros Hl Hb Hne He. unfold heartbeat_reply, replicate_reply, p_append_reply. simpl.
  destruct (negb (bool_decide (state n = Leader)) || negb (currentTerm n =? ae_Term args)%N).
  { exists n. by destruct hb. }
  destruct (N.ltb_spec (currentTerm n) (aer_Term reply)).
  { exists (becomeFollowerLocked (aer_Term reply) n).
    rewrite becomeFollower_core, becomeFollower_queue by done. by destruct hb. }
  destruct (aer_Success reply).
  - destruct (last (ae_Entries args)) as [e|] eqn:El.
    + destruct (record_success_refines p (ae_Entries args) e n Hl Hb El (He e eq_refl))
        as (n' & -> & ? & ?).
      exists n'. split; [|done]. destruct hb; [|done].
      destruct (ae_Entries args); [done|]. done.
    + apply last_None in El. rewrite El in *. destruct hb; [by exists n|].
      by destruct (Hne eq_refl).
  - destruct (handleConflict_refines p reply n Hl Hb) as (n' & -> & ? & ?).
    exists n'. split; [|done]. by destruct hb.
Qed.

Lemma submit_refines command n :
  log_shape (log n) → state n = Leader →
  core_of (submit_append command n).1 = p_submit command (core_of n) ∧
  queue_of (submit_append command n).1 = queue_of n.
Proof.
  intros Hl Hs. unfold submit_append, p_submit, last_index. rewrite Hs. simpl.
  rewrite LastIndex_eq by done.
  rewrite u64_add_small by (destruct Hl; unfold two63, two64 in *; lia).
  destruct (wal n) as [w|]; [|done]. simpl.
  by destruct (PersistEntry w _ _ command) as [w' [msg|]].
Qed.

Lemma submit_not_leader command n :
  state n ≠ Leader → submit_append command n = (n, inr ErrNotLeader).
Proof. intros Hs. unfold submit_append. by rewrite bool_decide_eq_false_2. Qed.
End refinement.
