(* ===== verification/Ghost.v ===== *)
(** Auxiliary state for the safety proofs: the history of a protocol
    execution.

    [ghost] records, next to a state of the protocol, which votes were ever
    cast, who led which term and with which quorum, what the log of each
    leader became, and which entries of its current term's leader each server
    ever held.  [gstep] is a step of the protocol with its bookkeeping; the
    bookkeeping never restricts the steps ([gstep_total]). *)

From S2P Require Import Prelude Types RaftLog Cluster Protocol.

Record leadership : Type := mkLeadership {
  ld_id : NodeID;
  ld_quorum : gset NodeID;
  ld_init : nat;
}.

Record ghost : Type := mkGhost {
  g_votes : gset (NodeID * Term * NodeID);
  g_lead : gmap Term leadership;
  g_tl : gmap Term (list LogEntry);
  g_acks : gset (NodeID * Term * nat);
}.

Definition ghost_init : ghost := mkGhost ∅ ∅ ∅ ∅.

(** The positions of entries of term [t] up to which [L] agrees with the log
    [T] of that term's leader. *)
Definition held (t : Term) (T L : list LogEntry) (j : nat) : bool :=
  (0 <? j) && (tm T j =? t)%N && bool_decide (take (S j) T `prefix_of` L) && (j <? length T).

(** A vote counts when it is granted in a reply, or when a server votes for
    itself.  (A restarted server may also carry the vote of an earlier term
    into its term; nobody has been told of such a vote.) *)
Definition grants (pkt : packet) : bool :=
  match pkt with VoteRep _ _ _ reply => rvr_VoteGranted reply | _ => false end.

Definition casts (k : core) (ps : list packet) : bool :=
  bool_decide (k_state k ≠ Follower) || existsb grants ps.

(** The history after server [i] moved to core [k] and sent [ps]. *)
Definition ghost_update (i : NodeID) (k : core) (ps : list packet) (g : ghost) : ghost :=
  let lead :=
    match k_state k, g_lead g !! k_term k with
    | Leader, None =>
        <[k_term k := mkLeadership i (dom (k_received k)) (length (k_log k))]> (g_lead g)
    | _, _ => g_lead g
    end in
  let tl :=
    match k_state k with
    | Leader => <[k_term k := k_log k]> (g_tl g)
    | _ => g_tl g
    end in
  mkGhost
    (if bool_decide (k_voted k = "") || negb (casts k ps) then g_votes g
     else {[ (i, k_term k, k_voted k) ]} ∪ g_votes g)
    lead tl
    (match tl !! k_term k with
     | Some T => list_to_set ((λ j, (i, k_term k, j)) <$>
                   List.filter (held (k_term k) T (k_log k)) (seq 0 (length T))) ∪ g_acks g
     | None => g_acks g
     end).

Inductive gstep : pstate * ghost → pstate * ghost → Prop :=
| gs_trans m net i k k' ps g :
    m !! i = Some k → ptrans net i k k' ps →
    gstep (m, net, g) (<[i := k']> m, net ++ ps, ghost_update i k' ps g)
| gs_restart m net i k v L g :
    m !! i = Some k → (k_voted k ≠ "" → v = k_voted k) →
    gstep (m, net, g)
      (<[i := p_restarted v L k]> m, List.filter (λ p, negb (goroutine_of i p)) net, g).

(** The steps whose restarts give back the log that was lost. *)
Inductive gstep_live : pstate * ghost → pstate * ghost → Prop :=
| gsl_trans m net i k k' ps g :
    m !! i = Some k → ptrans net i k k' ps →
    gstep_live (m, net, g) (<[i := k']> m, net ++ ps, ghost_update i k' ps g)
| gsl_restart m net i k v g :
    m !! i = Some k → (k_voted k ≠ "" → v = k_voted k) →
    gstep_live (m, net, g)
      (<[i := p_restarted v (k_log k) k]> m, List.filter (λ p, negb (goroutine_of i p)) net, g).

(** Every step of the protocol is a step with bookkeeping. *)
Lemma gstep_total s s' g : pstep s s' → ∃ g', gstep (s, g) (s', g').
Proof. intros Hs. destruct Hs; eexists; by econstructor. Qed.

Lemma gstep_live_total s s' g : pstep_live s s' → ∃ g', gstep_live (s, g) (s', g').
Proof. intros Hs. destruct Hs; eexists; by econstructor. Qed.

Lemma gstep_live_gstep x y : gstep_live x y → gstep x y.
Proof. intros Hs. destruct Hs; [by apply (gs_trans _ _ _ k)|by apply gs_restart]. Qed.

(** ** How the history grows *)

Lemma ghost_votes_spec i k ps g v t c :
  (v, t, c) ∈ g_votes (ghost_update i k ps g) ↔
  (v, t, c) ∈ g_votes g ∨ (v = i ∧ t = k_term k ∧ c = k_voted k ∧ c ≠ "" ∧ casts k ps = true).
Proof. simpl. destruct (casts k ps); case_bool_decide; set_solver. Qed.

Lemma casts_running k ps : k_state k ≠ Follower → casts k ps = true.
Proof. intros Hs. unfold casts. by rewrite bool_decide_eq_true_2. Qed.

Lemma ghost_votes_mono i k ps g x : x ∈ g_votes g → x ∈ g_votes (ghost_update i k ps g).
Proof. destruct x as [[v t] c]. rewrite ghost_votes_spec. auto. Qed.

Lemma ghost_lead_spec i k ps g t ld :
  g_lead (ghost_update i k ps g) !! t = Some ld ↔
  g_lead g !! t = Some ld ∨
  (g_lead g !! t = None ∧ k_state k = Leader ∧ t = k_term k ∧
   ld = mkLeadership i (dom (k_received k)) (length (k_log k))).
Proof.
  simpl. destruct (k_state k) eqn:Hs; [naive_solver..|].
  destruct (g_lead g !! k_term k) eqn:E; [naive_solver congruence|].
  rewrite lookup_insert. case_decide; naive_solver congruence.
Qed.

Lemma ghost_lead_mono i k ps g t ld :
  g_lead g !! t = Some ld → g_lead (ghost_update i k ps g) !! t = Some ld.
Proof. rewrite ghost_lead_spec. auto. Qed.

Lemma ghost_tl_leader i k ps g :
  k_state k = Leader → g_tl (ghost_update i k ps g) = <[k_term k := k_log k]> (g_tl g).
Proof. intros Hs. simpl. by rewrite Hs. Qed.

Lemma ghost_tl_other i k ps g :
  k_state k ≠ Leader → g_tl (ghost_update i k ps g) = g_tl g.
Proof. intros Hs. simpl. by destruct (k_state k). Qed.

(** [j] is a position of an entry of term [t] in [T], and [L] has the entries
    of [T] up to it. *)
Definition holds (t : Term) (T L : list LogEntry) (j : nat) : Prop :=
  0 < j ∧ tm T j = t ∧ take (S j) T `prefix_of` L ∧ j < length T.

Lemma held_holds t T L j : held t T L j = true ↔ holds t T L j.
Proof.
  unfold held, holds. rewrite !andb_true_iff, !Nat.ltb_lt, N.eqb_eq, bool_decide_eq_true.
  tauto.
Qed.

Lemma ghost_acks_spec i k ps g v t j :
  (v, t, j) ∈ g_acks (ghost_update i k ps g) ↔
  (v, t, j) ∈ g_acks g ∨
  (v = i ∧ t = k_term k ∧
   ∃ T, g_tl (ghost_update i k ps g) !! t = Some T ∧ holds t T (k_log k) j).
Proof.
  unfold ghost_update at 1. cbn [g_acks]. cbv zeta.
  change (match k_state k with
          | Leader => <[k_term k:=k_log k]> (g_tl g)
          | _ => g_tl g
          end) with (g_tl (ghost_update i k ps g)).
  destruct (g_tl (ghost_update i k ps g) !! k_term k) as [T|] eqn:E.
  - rewrite elem_of_union, elem_of_list_to_set, list_elem_of_fmap.
    split.
    + intros [(j' & Heq & Hj)|?]; [|auto]. simplify_eq.
      apply list_elem_of_In, filter_In in Hj as [_ Hj%held_holds]. right. eauto.
    + intros [?|(-> & -> & T' & HT' & Hh)]; [auto|]. simplify_eq. left. exists j.
      split; [done|]. apply list_elem_of_In, filter_In. split; [|by apply held_holds].
      apply in_seq. destruct Hh. lia.
  - split; [auto|]. intros [?|(-> & -> & T' & HT' & _)]; [done|]. congruence.
Qed.

Lemma ghost_acks_mono i k ps g x : x ∈ g_acks g → x ∈ g_acks (ghost_update i k ps g).
Proof. destruct x as [[v t] j]. rewrite ghost_acks_spec. auto. Qed.
