(* ===== verification/ElectionSafety.v ===== *)
(** Election safety of the protocol: at most one leader per term, over a whole
    execution, restarts included.

    [election_inv] is the invariant: every vote ever cast is still binding for
    its voter, a candidate counts only votes that were cast for it, and a
    leader has a quorum of them. *)

From S2P Require Import Prelude Types RaftLog Cluster Protocol Ghost.

(** ** Quorums *)

Section quorums.
Context (ids : list NodeID) (Hnodup : NoDup ids).

Definition members : gset NodeID := list_to_set ids.

Definition quorum (Q : gset NodeID) : Prop :=
  Q ⊆ members ∧ length ids / 2 + 1 <= size Q.

Lemma quorums_meet Q1 Q2 : quorum Q1 → quorum Q2 → ∃ v, v ∈ Q1 ∧ v ∈ Q2.
Proof.
  intros [Hs1 Hn1] [Hs2 Hn2].
  destruct (decide (Q1 ∩ Q2 = ∅)) as [Hd|Hd].
  - exfalso. assert (Hu : size (Q1 ∪ Q2) = size Q1 + size Q2) by (apply size_union; set_solver).
    assert (Hm : size (Q1 ∪ Q2) <= size members) by (apply subseteq_size; set_solver).
    unfold members in Hm. rewrite size_list_to_set in Hm by done.
    pose proof (Nat.div_mod_eq (length ids) 2). pose proof (Nat.mod_upper_bound (length ids) 2).
    lia.
  - apply set_choose_L in Hd as [v Hv]. exists v. set_solver.
Qed.

Lemma quorum_nonempty Q : quorum Q → ∃ v, v ∈ Q.
Proof. intros HQ. destruct (quorums_meet Q Q HQ HQ) as (v & ? & _). eauto. Qed.

Lemma peers_of_length i : i ∈ ids → length (peers_of ids i) + 1 = length ids.
Proof.
  unfold peers_of. induction Hnodup as [|j l Hj Hl IH]; [by intros ?%elem_of_nil|].
  intros Hi. rewrite filter_cons. case_decide as Hji.
  - simpl. rewrite <- IH; [lia|done|]. apply elem_of_cons in Hi as [->|?]; done.
  - subst j. simpl.
    assert (Hf : filter (λ p, p ≠ i) l = l).
    { clear -Hj. induction l as [|x l IHl]; [done|]. rewrite filter_cons.
      apply not_elem_of_cons in Hj as [? ?]. rewrite decide_True by done. f_equal. auto. }
    rewrite Hf. lia.
Qed.

Lemma elem_of_peers_of i p : p ∈ peers_of ids i ↔ p ∈ ids ∧ p ≠ i.
Proof. unfold peers_of. rewrite list_elem_of_filter. tauto. Qed.

End quorums.

(** ** The invariant *)

Section election.
Context (ids : list NodeID) (Hnodup : NoDup ids) (Hnonempty : "" ∉ ids).
Implicit Types m : gmap NodeID core.

Record election_inv (m : gmap NodeID core) (net : list packet) (g : ghost) : Prop := {
  ei_core i k : m !! i = Some k → k_id k = i ∧ k_peers k = peers_of ids i ∧ i ∈ ids;
  ei_all i : i ∈ ids → is_Some (m !! i);
  ei_votes v t c :
    (v, t, c) ∈ g_votes g →
    c ≠ "" ∧ ∃ k, m !! v = Some k ∧
      ((t < k_term k)%N ∨ (t = k_term k ∧ k_voted k = c));
  ei_unique v t c1 c2 :
    (v, t, c1) ∈ g_votes g → (v, t, c2) ∈ g_votes g → c1 = c2;
  ei_voted i k :
    m !! i = Some k → k_state k ≠ Follower → k_voted k ≠ "" → (i, k_term k, k_voted k) ∈ g_votes g;
  ei_running i k :
    m !! i = Some k → k_state k ≠ Follower →
    k_voted k = i ∧ k_votes k = size (k_received k) ∧
    (∀ p b, k_received k !! p = Some b → b = true ∧ p ∈ ids ∧ (p, k_term k, i) ∈ g_votes g);
  ei_req src dst args :
    VoteReq src dst args ∈ net →
    rv_CandidateID args = src ∧ src ∈ ids ∧ (0 < rv_Term args)%N;
  ei_rep src dst term reply :
    VoteRep src dst term reply ∈ net → rvr_VoteGranted reply = true →
    dst ∈ ids ∧ (dst, term, src) ∈ g_votes g;
  ei_lead t ld :
    g_lead g !! t = Some ld →
    quorum ids (ld_quorum ld) ∧ (∀ v, v ∈ ld_quorum ld → (v, t, ld_id ld) ∈ g_votes g) ∧
    ∃ k, m !! ld_id ld = Some k ∧ (t <= k_term k)%N ∧ (t = k_term k → k_state k ≠ Candidate);
  ei_leader i k :
    m !! i = Some k → k_state k = Leader →
    ∃ ld, g_lead g !! k_term k = Some ld ∧ ld_id ld = i;
}.

(** Two quorums of votes for one term went to the same candidate. *)
Lemma quorum_votes_unique m net g t Q1 Q2 c1 c2 :
  election_inv m net g → quorum ids Q1 → quorum ids Q2 →
  (∀ v, v ∈ Q1 → (v, t, c1) ∈ g_votes g) → (∀ v, v ∈ Q2 → (v, t, c2) ∈ g_votes g) →
  c1 = c2.
Proof.
  intros HI HQ1 HQ2 H1 H2. destruct (quorums_meet ids Hnodup Q1 Q2 HQ1 HQ2) as (v & ? & ?).
  eapply (ei_unique _ _ _ HI); eauto.
Qed.

Lemma id_nonempty i : i ∈ ids → i ≠ "".
Proof. intros ? ->. done. Qed.

(** ** Preservation *)

(** The invariant's part about the votes only needs that terms grow and that a
    vote is kept within its term. *)
Lemma votes_step m i k k' ps g :
  m !! i = Some k → core_le k k' →
  (∀ v t c, (v, t, c) ∈ g_votes g →
     c ≠ "" ∧ ∃ k, m !! v = Some k ∧ ((t < k_term k)%N ∨ (t = k_term k ∧ k_voted k = c))) →
  ∀ v t c, (v, t, c) ∈ g_votes (ghost_update i k' ps g) →
     c ≠ "" ∧ ∃ k, <[i := k']> m !! v = Some k ∧
                   ((t < k_term k)%N ∨ (t = k_term k ∧ k_voted k = c)).
Proof.
  intros Hk (_ & _ & Hle & Hv) Hvotes v t c [Hold|(-> & -> & -> & Hne & _)]%ghost_votes_spec.
  - destruct (Hvotes _ _ _ Hold) as (Hc & k1 & Hk1 & Ht). split; [done|].
    rewrite lookup_insert. case_decide as Hiv; [subst v|by exists k1].
    exists k'. rewrite Hk in Hk1. injection Hk1 as <-. split; [done|].
    destruct (N.eq_dec (k_term k') (k_term k)) as [Heq|]; [|left; destruct Ht; lia].
    destruct Ht as [?|[-> <-]]; [left; lia|]. right. split; [done|].
    by destruct (Hv Heq).
  - split; [done|]. exists k'. rewrite lookup_insert_eq. auto.
Qed.

Lemma unique_step m i k k' ps g :
  m !! i = Some k → core_le k k' →
  (∀ v t c, (v, t, c) ∈ g_votes g →
     c ≠ "" ∧ ∃ k, m !! v = Some k ∧ ((t < k_term k)%N ∨ (t = k_term k ∧ k_voted k = c))) →
  (∀ v t c1 c2, (v, t, c1) ∈ g_votes g → (v, t, c2) ∈ g_votes g → c1 = c2) →
  ∀ v t c1 c2, (v, t, c1) ∈ g_votes (ghost_update i k' ps g) →
    (v, t, c2) ∈ g_votes (ghost_update i k' ps g) → c1 = c2.
Proof.
  intros Hk (_ & _ & Hle & Hv) Hvotes Huniq v t c1 c2.
  assert (Hold : ∀ c, (i, k_term k', c) ∈ g_votes g → k_voted k' ≠ "" → c = k_voted k').
  { intros c Hc Hne. destruct (Hvotes _ _ _ Hc) as (Hc' & k1 & Hk1 & Ht). simplify_eq.
    destruct Ht as [?|[Heq <-]]; [lia|]. by destruct (Hv Heq). }
  intros [H1|(-> & -> & -> & Hne & _)]%ghost_votes_spec [H2|(? & ? & -> & ? & _)]%ghost_votes_spec;
    subst; eauto. symmetry. eauto.
Qed.

(** The quorum behind a leader's election. *)
Lemma count_quorum i k :
  i ∈ ids → k_peers k = peers_of ids i →
  (∀ p b, k_received k !! p = Some b → p ∈ ids) →
  p_majority k <= size (k_received k) →
  quorum ids (dom (k_received k)).
Proof.
  intros Hi Hp Hr Hm. split.
  - intros p [b Hb]%elem_of_dom. unfold members. rewrite elem_of_list_to_set. eauto.
  - rewrite size_dom. unfold p_majority in Hm. by rewrite Hp, peers_of_length in Hm.
Qed.

Lemma candidate_step net i k k' ps :
  ptrans net i k k' ps → k_state k' = Candidate → k_term k' = k_term k → k_state k = Candidate.
Proof.
  intros Ht. destruct Ht as
    [| |src args _|p term reply _|_|p term leader commit _|p _ _ _|src hb args _
     |p hb args reply _|cmd Hl]; try done.
  - simpl. lia.
  - destruct (p_vote args k) as [k1 r] eqn:E. simpl.
    by apply p_vote_cases in E as [[-> _]|(-> & _)]; destruct (p_observe_cases (rv_Term args) k)
      as [[? ->]|[? ->]].
  - by destruct (p_vote_reply_cases p term reply k) as [->|[[? ->]|(_ & ? & _ & _ & [->|[-> _]])]].
  - destruct (p_append args k) as [k1 r] eqn:E. simpl.
    apply p_append_cases in E as [(_ & -> & _)|(_ & [(ct & ci & _ & -> & _)|(_ & -> & _)])]; try done.
    match goal with |- context [p_follow_commit ?lc ?x] =>
      destruct (p_follow_commit_same lc x) as (_&_&_&_&_&->&_) end. done.
  - destruct (p_append_reply_cases p args reply k)
      as [->|[[? ->]|(_ & _ & _ & [(e & _ & _ & ->)|(_ & ->)])]]; try done.
    + by destruct (p_success_same p (e_Index e) k) as (_&_&_&_&_&->&_).
    + by destruct (p_conflict_same p reply k) as (_&_&_&_&_&->&_).
Qed.

(** A leader was leader of the same term already, or has just counted a
    majority. *)
Lemma leader_step net i k k' ps :
  ptrans net i k k' ps → k_state k' = Leader →
  k_term k' = k_term k ∧
  (k_state k = Leader ∨ (k_state k = Candidate ∧ p_majority k' <= k_votes k' ∧ k_log k' = k_log k)).
Proof.
  intros Ht. destruct Ht as
    [| |src args _|p term reply _|_|p term leader commit _|p _ _ _|src hb args _
     |p hb args reply _|cmd Hl]; try by auto.
  - destruct (p_vote args k) as [k1 r] eqn:E. simpl.
    apply p_vote_cases in E as [[-> _]|(-> & _)]; destruct (p_observe_cases (rv_Term args) k)
      as [[? ->]|[? ->]]; simpl; auto; done.
  - destruct (p_vote_reply_cases p term reply k)
      as [->|[[? ->]|(_ & Hc & _ & _ & [->|[-> ?]])]]; [by auto|done|simpl; congruence|auto].
  - destruct (p_append args k) as [k1 r] eqn:E. simpl.
    apply p_append_cases in E as [(_ & -> & _)|(_ & [(ct & ci & _ & -> & _)|(_ & -> & _)])];
      [auto|done|].
    match goal with |- context [p_follow_commit ?lc ?x] =>
      destruct (p_follow_commit_same lc x) as (_&_&_&_&_&->&_) end. done.
  - destruct (p_append_reply_cases p args reply k)
      as [->|[[? ->]|(_ & _ & _ & [(e & _ & _ & ->)|(_ & ->)])]]; [by auto|done|..].
    + destruct (p_success_same p (e_Index e) k) as (_&_&->&_&_&->&_). auto.
    + destruct (p_conflict_same p reply k) as (_&_&->&_&_&->&_). auto.
Qed.

Definition running_ok (i : NodeID) (k : core) (votes : gset (NodeID * Term * NodeID)) : Prop :=
  k_voted k = i ∧ k_votes k = size (k_received k) ∧
  (∀ p b, k_received k !! p = Some b → b = true ∧ p ∈ ids ∧ (p, k_term k, i) ∈ votes).

Lemma running_ok_same i k k' votes votes' :
  k_term k' = k_term k → k_voted k' = k_voted k → k_votes k' = k_votes k →
  k_received k' = k_received k →
  votes ⊆ votes' → running_ok i k votes → running_ok i k' votes'.
Proof.
  intros Ht Hv Hn Hr Hsub (H1 & H2 & H3). unfold running_ok.
  rewrite Ht, Hv, Hn, Hr. split_and!; [done..|].
  intros p b Hp. destruct (H3 p b Hp) as (?&?&?). auto.
Qed.

Lemma count_running i p k g :
  running_ok i k (g_votes g) → map_get false (k_received k) p = false →
  p ∈ ids → (p, k_term k, i) ∈ g_votes g → running_ok i (p_count p k) (g_votes g).
Proof.
  intros (Hv & Hn & Hr) Hp Hin Hvote. unfold running_ok. simpl.
  assert (Hnone : k_received k !! p = None).
  { unfold map_get in Hp. destruct (k_received k !! p) as [b|] eqn:E; [|done].
    destruct (Hr p b E) as [-> _]. done. }
  split_and!; [done|rewrite map_size_insert_None by done; lia|].
  intros q b. rewrite lookup_insert. case_decide; [subst q; intros [= <-]; auto|].
  intros Hq. by apply Hr in Hq.
Qed.

Lemma running_step m net g i k k' ps :
  election_inv m net g → m !! i = Some k → ptrans net i k k' ps → k_state k' ≠ Follower →
  running_ok i k' (g_votes (ghost_update i k' ps g)).
Proof.
  intros HI Hk Ht Hs. destruct (ei_core _ _ _ HI _ _ Hk) as (Hid & _ & Hi).
  assert (Hmono : g_votes g ⊆ g_votes (ghost_update i k' ps g)).
  { intros x. apply ghost_votes_mono. }
  assert (Hkeep : same_but_indices k k' → running_ok i k' (g_votes (ghost_update i k' ps g))).
  { intros (_&_&?&?&_&Hst&?&?). eapply (running_ok_same i k); [done..|].
    apply (ei_running _ _ _ HI); [done|]. by rewrite <- Hst. }
  destruct Ht as
    [| |src args Hin|p term reply Hin|_|p term leader commit _|p _ _ _|src hb args _
     |p hb args reply _|cmd Hl];
    try (apply Hkeep; by auto using p_success_same, p_conflict_same).
  - split; [done|]. split; [simpl; by rewrite map_size_singleton|].
    cbn [p_elect k_received k_term]. rewrite Hid.
    intros p b [<- <-]%lookup_singleton_Some. split_and!; [done..|].
    apply ghost_votes_spec. right. simpl. auto 10 using id_nonempty, casts_running.
  - destruct (p_vote args k) as [k1 r] eqn:E. simpl in *.
    apply p_vote_cases in E as [[-> _]|(-> & _ & _ & Hv & _)];
      destruct (p_observe_cases (rv_Term args) k) as [[? Hob]|[? Hob]]; rewrite Hob in *;
      try done; [by apply Hkeep|].
    destruct (ei_running _ _ _ HI _ _ Hk Hs) as (Hvi & _ & _).
    assert (Hc : rv_CandidateID args = i).
    { destruct Hv as [Hv|Hv]; [|congruence]. destruct (id_nonempty i Hi). congruence. }
    apply Hkeep. unfold same_but_indices. simpl. split_and!; congruence.
  - destruct (p_vote_reply_cases p term reply k)
      as [Hr|[[? Hr]|(<- & Hc & Hg & Hp & Hr)]]; [apply Hkeep; by rewrite Hr|by rewrite Hr in Hs|].
    destruct (ei_rep _ _ _ HI _ _ _ _ Hin Hg) as [Hpi Hvote].
    assert (Hcount : running_ok i (p_count p k) (g_votes g)).
    { apply count_running; [|done..]. apply (ei_running _ _ _ HI); [done|by rewrite Hc]. }
    destruct Hr as [Hr|[Hr _]]; apply (running_ok_same i (p_count p k) _ (g_votes g));
      first [done|by rewrite Hr].
  - destruct (p_append args k) as [k1 r] eqn:E. simpl in *.
    apply p_append_cases in E as [(_ & -> & _)|(_ & [(ct & ci & _ & -> & _)|(_ & -> & _)])];
      [by apply Hkeep|done|].
    match goal with H : k_state (p_follow_commit ?lc ?x) ≠ _ |- _ =>
      destruct (p_follow_commit_same lc x) as (_&_&_&_&_&Hf&_); rewrite Hf in H end. done.
  - destruct (p_append_reply_cases p args reply k)
      as [Hr|[[? Hr]|(_ & _ & _ & [(e & _ & _ & Hr)|(_ & Hr)])]];
      [apply Hkeep; by rewrite Hr|by rewrite Hr in Hs|..]; apply Hkeep; rewrite Hr;
      auto using p_success_same, p_conflict_same.
  - destruct (ei_running _ _ _ HI _ _ Hk) as (? & ? & Hr); [by rewrite Hl|].
    split_and!; [done..|]. intros q b Hq. destruct (Hr q b Hq) as (?&?&?). auto.
Qed.

(** The servers that a leader by its own count has votes of are a quorum. *)
Lemma counted_quorum i k V :
  i ∈ ids → k_peers k = peers_of ids i → running_ok i k V → p_majority k <= k_votes k →
  quorum ids (dom (k_received k)) ∧ ∀ v, v ∈ dom (k_received k) → (v, k_term k, i) ∈ V.
Proof.
  intros Hi Hp (_ & Hn & Hr) Hmaj. split.
  - apply (count_quorum i); [done|done| |lia]. intros p b Hb. by destruct (Hr p b Hb) as (_&?&_).
  - intros v [b Hb]%elem_of_dom. by destruct (Hr v b Hb) as (_&_&?).
Qed.

(** A server that moves to or stays in the leader state is the recorded leader
    of its term: two counts of the same term share a voter. *)
Lemma leader_recorded m net g i k k' ps :
  election_inv m net g → m !! i = Some k → core_le k k' →
  running_ok i k' (g_votes (ghost_update i k' ps g)) → k_state k' = Leader →
  k_term k' = k_term k → k_state k = Leader ∨ p_majority k' <= k_votes k' →
  ∃ ld, g_lead (ghost_update i k' ps g) !! k_term k' = Some ld ∧ ld_id ld = i.
Proof.
  intros HI Hk Hle Hrun Hs Hteq Hlead. destruct (ei_core _ _ _ HI _ _ Hk) as (_ & Hp & Hi).
  destruct (g_lead g !! k_term k') as [ld|] eqn:Hld.
  2: { exists (mkLeadership i (dom (k_received k')) (length (k_log k'))).
       split; [|done]. apply ghost_lead_spec. auto. }
  exists ld. split; [by apply ghost_lead_mono|]. destruct Hlead as [Hl|Hmaj].
  { destruct (ei_leader _ _ _ HI _ _ Hk Hl) as (ld' & Hld' & Hid').
    rewrite <- Hteq in Hld'. congruence. }
  destruct (ei_lead _ _ _ HI _ _ Hld) as (HQ & HV & _).
  destruct (counted_quorum i k' (g_votes (ghost_update i k' ps g))) as [HQ' HV'];
    [done|by destruct Hle as (_&->&_)|done..|].
  destruct (quorums_meet ids Hnodup _ _ HQ HQ') as (v & Hv1 & Hv2).
  eapply (unique_step _ _ _ _ _ _ Hk Hle (ei_votes _ _ _ HI) (ei_unique _ _ _ HI));
    [apply ghost_votes_mono, HV, Hv1|]. by apply HV'.
Qed.

(** A move of one server that keeps the invariant: the conditions shared by
    the transitions and by restarts. *)
Lemma election_inv_move m net net' g i k k' ps :
  election_inv m net g → m !! i = Some k → core_le k k' →
  (k_state k' ≠ Follower → running_ok i k' (g_votes (ghost_update i k' ps g))) →
  (k_state k' = Candidate → k_term k' = k_term k → k_state k = Candidate) →
  (k_state k' = Leader → k_term k' = k_term k ∧
     (k_state k = Leader ∨ p_majority k' <= k_votes k')) →
  (∀ src dst args, VoteReq src dst args ∈ net' →
     rv_CandidateID args = src ∧ src ∈ ids ∧ (0 < rv_Term args)%N) →
  (∀ src dst term reply, VoteRep src dst term reply ∈ net' → rvr_VoteGranted reply = true →
     dst ∈ ids ∧ (dst, term, src) ∈ g_votes (ghost_update i k' ps g)) →
  election_inv (<[i := k']> m) net' (ghost_update i k' ps g).
Proof.
  intros HI Hk Hle Hrun Hcand Hlead Hreq Hrep.
  destruct (ei_core _ _ _ HI _ _ Hk) as (Hid & Hp & Hi).
  pose proof (votes_step _ _ _ _ ps _ Hk Hle (ei_votes _ _ _ HI)) as Hvotes.
  pose proof (unique_step _ _ _ _ ps _ Hk Hle (ei_votes _ _ _ HI) (ei_unique _ _ _ HI)) as Huniq.
  assert (Hnewlead : k_state k' = Leader → g_lead g !! k_term k' = None →
    quorum ids (dom (k_received k')) ∧
    ∀ v, v ∈ dom (k_received k') → (v, k_term k', i) ∈ g_votes (ghost_update i k' ps g)).
  { intros Hs Hnone. destruct (Hlead Hs) as [Hteq [Hl|Hmaj]].
    { destruct (ei_leader _ _ _ HI _ _ Hk Hl) as (ld & Hld & _). congruence. }
    apply counted_quorum; [done|by destruct Hle as (_&->&_)|apply Hrun; congruence|done]. }
  constructor.
  - intros j kj. rewrite lookup_insert. case_decide as Hij; [|apply (ei_core _ _ _ HI)].
    subst j. intros [= <-]. destruct Hle as (-> & -> & _). done.
  - intros j Hj. rewrite lookup_insert. case_decide; [done|]. by apply (ei_all _ _ _ HI).
  - done.
  - done.
  - intros j kj. rewrite lookup_insert. case_decide as Hij.
    + subst j. intros [= <-] Hs Hv. apply ghost_votes_spec. auto 10 using casts_running.
    + intros Hkj Hs Hv. apply ghost_votes_mono. by apply (ei_voted _ _ _ HI).
  - intros j kj. rewrite lookup_insert. case_decide as Hij; [subst j; intros [= <-]; apply Hrun|].
    intros Hkj Hs. destruct (ei_running _ _ _ HI _ _ Hkj Hs) as (?&?&Hr).
    split_and!; [done..|]. intros p b Hb. destruct (Hr p b Hb) as (?&?&?).
    auto using ghost_votes_mono.
  - done.
  - done.
  - intros t ld [Hld|(Hnone & Hs & -> & ->)]%ghost_lead_spec.
    + destruct (ei_lead _ _ _ HI _ _ Hld) as (HQ & HV & kl & Hkl & Htl & Hsl).
      split_and!; [done|auto using ghost_votes_mono|].
      rewrite lookup_insert. case_decide as Hij; [|by exists kl].
      exists k'. rewrite <- Hij, Hk in Hkl. injection Hkl as <-.
      destruct Hle as (_ & _ & Hle & _). split_and!; [done|lia|].
      intros Ht Hs. assert (k_term k' = k_term k) as Heq by lia.
      apply Hsl; [lia|]. auto.
    + destruct (Hnewlead Hs Hnone) as [HQ HV]. simpl ld_quorum. simpl ld_id.
      split_and!; [done..|]. exists k'. rewrite lookup_insert_eq.
      split_and!; [done|lia|congruence].
  - intros j kj. rewrite lookup_insert. case_decide as Hij.
    + subst j. intros [= <-] Hs. destruct (Hlead Hs) as [Hteq Hl].
      eapply leader_recorded; try done. apply Hrun. congruence.
    + intros Hkj Hs. destruct (ei_leader _ _ _ HI _ _ Hkj Hs) as (ld & Hld & ?).
      exists ld. split; [by apply ghost_lead_mono|done].
Qed.

(** The invariant is about votes and leaders only. *)
Lemma election_inv_history m net g g' :
  g_votes g' = g_votes g → g_lead g' = g_lead g → election_inv m net g → election_inv m net g'.
Proof. intros Hv Hl []. constructor; rewrite ?Hv, ?Hl; done. Qed.

Lemma election_inv_step x y : gstep x y →
  election_inv x.1.1 x.1.2 x.2 → election_inv y.1.1 y.1.2 y.2.
Proof.
  intros Hs. destruct Hs as [m net i k k' ps g Hk Ht|m net i k v L g Hk Hv]; simpl; intros HI.
  - apply (election_inv_move m net _ g i k); try done.
    + by eapply ptrans_le.
    + by eapply running_step.
    + by eapply candidate_step.
    + intros Hl. destruct (leader_step _ _ _ _ _ Ht Hl) as [? [?|(_&?&_)]]; auto.
    + intros src dst args [Hin|Hin]%elem_of_app; [by eapply ei_req|].
      destruct (ei_core _ _ _ HI _ _ Hk) as (Hid & _ & Hi).
      destruct Ht; apply list_elem_of_In in Hin; simpl in Hin;
        try (apply in_map_iff in Hin as (q & Hq & _)); simplify_eq; try naive_solver.
      simpl. split_and!; [done..|lia].
    + intros src dst term reply [Hin|Hin]%elem_of_app Hg.
      { destruct (ei_rep _ _ _ HI _ _ _ _ Hin Hg). auto using ghost_votes_mono. }
      destruct (ei_core _ _ _ HI _ _ Hk) as (_ & _ & Hi).
      destruct Ht as [| |src' args' Hin'| | | | | | | ]; apply list_elem_of_In in Hin; simpl in Hin;
        try (apply in_map_iff in Hin as (q & Hq & _)); simplify_eq; try naive_solver.
      destruct Hin as [[= -> <- <- <-]|[]]. split; [done|].
      destruct (ei_req _ _ _ HI _ _ _ Hin') as (Hc & Hsrc & _).
      destruct (p_vote args' k) as [k1 r] eqn:E. simpl in *.
      apply p_vote_cases in E as [[_ ?]|(-> & _ & Hle & _)]; [congruence|].
      apply ghost_votes_spec. right. simpl. rewrite p_observe_term, Hc.
      split_and!; [done|lia|done|by apply id_nonempty|]. unfold casts. simpl. by rewrite Hg, orb_true_r.
  - apply (election_inv_history _ _ (ghost_update i (p_restarted v L k) [] g)).
    { simpl. by destruct (bool_decide _). }
    { done. }
    apply (election_inv_move m net _ g i k); try done.
    + unfold core_le. simpl. split_and!; [done..|lia|]. intros _.
      destruct (decide (k_voted k = "")); auto.
    + intros src dst args Hin. apply list_elem_of_In, filter_In in Hin as [Hin%list_elem_of_In _].
      by eapply ei_req.
    + intros src dst term reply Hin Hg.
      apply list_elem_of_In, filter_In in Hin as [Hin%list_elem_of_In _].
      destruct (ei_rep _ _ _ HI _ _ _ _ Hin Hg). auto using ghost_votes_mono.
Qed.

(** ** Initial state and consequences *)

Lemma p_init_lookup i k :
  (p_init ids).1 !! i = Some k ↔ i ∈ ids ∧ k = p_init_core ids i.
Proof.
  simpl. split.
  - intros Hk%elem_of_list_to_map_2. apply list_elem_of_fmap in Hk as (j & [= <- <-] & ?). auto.
  - intros [Hi ->]. apply elem_of_list_to_map_1.
    + by rewrite <- list_fmap_compose, (list_fmap_ext _ id), list_fmap_id.
    + apply list_elem_of_fmap. eauto.
Qed.

Lemma election_inv_init : election_inv (p_init ids).1 (p_init ids).2 ghost_init.
Proof.
  constructor; simpl; try set_solver.
  - intros i k [Hi ->]%p_init_lookup. done.
  - intros i Hi. exists (p_init_core ids i). by apply p_init_lookup.
  - intros i k [Hi ->]%p_init_lookup. done.
  - intros i k [Hi ->]%p_init_lookup. done.
  - intros i k [Hi ->]%p_init_lookup. done.
Qed.

Lemma election_inv_steps x y : rtc gstep x y →
  election_inv x.1.1 x.1.2 x.2 → election_inv y.1.1 y.1.2 y.2.
Proof. induction 1; eauto using election_inv_step. Qed.

Lemma gsteps_lead_mono x y t ld :
  rtc gstep x y → g_lead x.2 !! t = Some ld → g_lead y.2 !! t = Some ld.
Proof.
  induction 1 as [|x y z Hxy _ IH]; [done|]. intros Hld. apply IH.
  destruct Hxy; [by apply ghost_lead_mono|done].
Qed.

(** Whoever leads a term now and whoever leads it later are the same server. *)
Lemma leader_unique x y i j ki kj :
  election_inv x.1.1 x.1.2 x.2 → rtc gstep x y →
  x.1.1 !! i = Some ki → y.1.1 !! j = Some kj →
  k_state ki = Leader → k_state kj = Leader → k_term ki = k_term kj → i = j.
Proof.
  intros HI Hxy Hi Hj Hsi Hsj Ht.
  destruct (ei_leader _ _ _ HI _ _ Hi Hsi) as (ld & Hld & <-).
  pose proof (election_inv_steps _ _ Hxy HI) as HJ.
  destruct (ei_leader _ _ _ HJ _ _ Hj Hsj) as (ld' & Hld' & <-).
  apply (gsteps_lead_mono _ _ _ _ Hxy) in Hld. congruence.
Qed.
End election.
