(* ===== verification/LogFacts.v ===== *)
(** Logs of the protocol as lists: compatibility of logs, agreement through
    the logs of the leaders, and what a follower's log becomes when it accepts
    a leader's entries. *)

From S2P Require Import Prelude Types RaftLog Protocol.

(** One of the two logs extends the other. *)
Definition compat (A B : list LogEntry) : Prop := A `prefix_of` B ∨ B `prefix_of` A.

(** The shape of every log of the protocol (the list form of [log_wf]). *)
Definition wf_list (L : list LogEntry) : Prop :=
  L !! 0 = Some sentinel ∧
  (∀ i e, L !! i = Some e → e_Index e = N.of_nat i) ∧
  (∀ i e, L !! S i = Some e → (0 < e_Term e)%N).

(** [L] agrees with the logs [tl] of the leaders: up to an entry of term [t] it
    is the log of the leader of term [t]. *)
Definition lm (tl : gmap Term (list LogEntry)) (L : list LogEntry) : Prop :=
  ∀ i e, L !! i = Some e → 0 < i →
    ∃ T, tl !! e_Term e = Some T ∧ take (S i) L `prefix_of` T.

(** Position [i] of the log of the leader of term [t] has an entry of its own
    term. *)
Definition own (T : list LogEntry) (t : Term) (i : nat) : Prop :=
  0 < i ∧ i < length T ∧ tm T i = t.

(** ** Prefixes *)

Lemma prefix_take_eq (A B : list LogEntry) n :
  A `prefix_of` B → n <= length A → take n A = take n B.
Proof. intros [C ->] ?. by rewrite take_app_le. Qed.

Lemma prefix_tm A B i : A `prefix_of` B → i < length A → tm A i = tm B i.
Proof. intros HAB Hi. unfold tm. by rewrite (prefix_lookup_eq A B). Qed.

Lemma take_take_prefix (A : list LogEntry) n m : n <= m → take n A `prefix_of` take m A.
Proof. intros. replace n with (Nat.min n m) by lia. rewrite <- take_take. apply prefix_take. Qed.

Lemma take_prefix_mono (A B : list LogEntry) n :
  A `prefix_of` B → n <= length A → take n B `prefix_of` A.
Proof. intros HAB ?. rewrite <- (prefix_take_eq A B n) by done. apply prefix_take. Qed.

Lemma prefix_of_take (A B : list LogEntry) n :
  A `prefix_of` B → length A <= n → A `prefix_of` take n B.
Proof.
  intros [C ->] ?. rewrite take_app_ge by done. by apply prefix_app_r.
Qed.

Lemma take_prefix_len (A B : list LogEntry) n :
  take n A `prefix_of` B → n <= length A → n <= length B.
Proof. intros H%prefix_length ?. rewrite length_take in H. lia. Qed.

Lemma compat_prefix_r A B B' : compat A B → B' `prefix_of` B → compat A B'.
Proof.
  intros [HAB|HBA] HB.
  - destruct (prefix_weak_total A B' B HAB HB); unfold compat; auto.
  - right. by etrans.
Qed.

Lemma compat_length_eq A B : compat A B → length A = length B → A = B.
Proof. intros [Hp|Hp] Hl; [|symmetry]; apply prefix_length_eq; done || lia. Qed.

Lemma compat_same A B C : A `prefix_of` C → B `prefix_of` C → compat A B.
Proof. intros. by apply (prefix_weak_total A B C). Qed.

(** A prefix [P] of the old log [R] survives when [R] is replaced by a log [L]
    that does not contradict [P2], an extension of [P]. *)
Lemma replace_keeps P P2 R L :
  compat P2 L → P `prefix_of` P2 → P `prefix_of` R → ¬ L `prefix_of` R → P `prefix_of` L.
Proof.
  intros [H2|H2] HP HR Hn; [by transitivity P2|].
  destruct (prefix_weak_total P L P2 HP H2) as [|HL]; [done|].
  destruct Hn. by transitivity P.
Qed.

(** ** Well-formed lists *)

Lemma wf_list_nonempty L : wf_list L → 0 < length L.
Proof. intros (H0 & _). by apply lookup_lt_Some in H0. Qed.

Lemma wf_list_term L i : wf_list L → 0 < i → i < length L → (0 < tm L i)%N.
Proof.
  intros (_ & _ & Ht) Hi Hl. destruct i as [|i]; [lia|].
  destruct (lookup_lt_is_Some_2 L (S i) Hl) as [e He]. unfold tm. rewrite He. eauto.
Qed.

Lemma wf_list_snoc L t c :
  wf_list L → (0 < t)%N → wf_list (L ++ [mkEntry t (last_index L + 1) c]).
Proof.
  intros HL Ht. pose proof (wf_list_nonempty L HL) as Hne. destruct HL as (H0 & Hi & Hp).
  split_and!.
  - by rewrite lookup_app_l.
  - intros i e [He|[Hle He]]%lookup_app_Some; [auto|].
    apply list_lookup_singleton_Some in He as [Hz <-]. simpl. unfold last_index. lia.
  - intros i e [He|[Hle He]]%lookup_app_Some; [eauto|].
    by apply list_lookup_singleton_Some in He as [Hz <-].
Qed.

Lemma tm_lookup L i e : L !! i = Some e → tm L i = e_Term e.
Proof. intros He. unfold tm. by rewrite He. Qed.

Lemma last_term_spec L : last_term L = tm L (length L - 1).
Proof. done. Qed.

(** ** Agreement *)

Lemma lm_prefix tl A B : lm tl B → A `prefix_of` B → lm tl A.
Proof.
  intros HB HAB i e He Hi. destruct (HB i e) as (T & HT & Hp).
  { by eapply prefix_lookup_Some. }
  { done. }
  exists T. split; [done|].
  rewrite (prefix_take_eq A B); [done..|]. apply lookup_lt_Some in He. lia.
Qed.

Lemma lm_at tl L i :
  lm tl L → 0 < i → i < length L → ∃ T, tl !! tm L i = Some T ∧ take (S i) L `prefix_of` T.
Proof.
  intros HL Hi Hl. destruct (lookup_lt_is_Some_2 L i Hl) as [e He].
  rewrite (tm_lookup _ _ _ He). eauto.
Qed.

(** Logs that agree with the leaders' logs and have an entry of the same term
    at the same position are the same up to there. *)
Lemma lm_agree tl A B i :
  lm tl A → lm tl B → 0 < i → i < length A → i < length B → tm A i = tm B i →
  take (S i) A = take (S i) B.
Proof.
  intros HA HB Hi HlA HlB Ht.
  destruct (lm_at tl A i HA Hi HlA) as (T & HT & HpA).
  destruct (lm_at tl B i HB Hi HlB) as (T' & HT' & HpB).
  rewrite Ht in HT. rewrite HT in HT'. injection HT' as <-.
  destruct (prefix_weak_total _ _ _ HpA HpB) as [Hp|Hp]; [|symmetry];
    apply prefix_length_eq; try done; rewrite !length_take; lia.
Qed.

(** Growing the leaders' logs keeps agreement. *)
Definition tl_le (tl tl' : gmap Term (list LogEntry)) : Prop :=
  ∀ t T, tl !! t = Some T → ∃ T', tl' !! t = Some T' ∧ T `prefix_of` T'.

Lemma lm_mono tl tl' L : tl_le tl tl' → lm tl L → lm tl' L.
Proof.
  intros Hle HL i e He Hi. destruct (HL i e He Hi) as (T & HT & Hp).
  destruct (Hle _ _ HT) as (T' & HT' & HTT'). exists T'. split; [done|]. by transitivity T.
Qed.

Lemma own_prefix T T' t i : T `prefix_of` T' → own T t i → own T' t i.
Proof.
  intros HT (H0 & Hl & Ht). pose proof (prefix_length _ _ HT). split_and!; [done|lia|].
  by rewrite <- (prefix_tm T T').
Qed.

Lemma own_shrink T T' t i : T `prefix_of` T' → own T' t i → i < length T → own T t i.
Proof.
  intros HT (H0 & Hl & Ht) Hi. split_and!; [done..|]. by rewrite (prefix_tm T T').
Qed.

(** ** Accepting entries *)

Lemma merge_log_from tl R L pos :
  lm tl R → lm tl L → take pos R = take pos L → 0 < pos → pos <= length L → pos <= length R →
  (merge_log R pos (drop pos L) = R ∧ L `prefix_of` R) ∨
  (merge_log R pos (drop pos L) = L ∧ ¬ L `prefix_of` R).
Proof.
  intros HR HL. remember (length L - pos) as d eqn:Hd.
  revert pos Hd. induction d as [|d IH]; intros pos Hd Heq Hpos HlL HlR.
  - left. rewrite drop_ge by lia. split; [done|].
    rewrite <- (take_ge L pos) by lia. rewrite <- Heq. apply prefix_take.
  - destruct (lookup_lt_is_Some_2 L pos) as [e He]; [lia|].
    rewrite (drop_S L e pos He). simpl.
    destruct (R !! pos) as [e'|] eqn:He'.
    + apply lookup_lt_Some in He' as HlR'.
      destruct (N.eqb_spec (e_Term e') (e_Term e)) as [Ht|Ht].
      * apply IH; try lia.
        apply (lm_agree tl); try done; [lia|].
        by rewrite (tm_lookup _ _ _ He), (tm_lookup _ _ _ He').
      * right. rewrite <- (drop_S L e pos He), Heq, take_drop. split; [done|].
        intros Hp. rewrite (prefix_lookup_Some _ _ _ _ He Hp) in He'. congruence.
    + right. apply lookup_ge_None in He'.
      assert (HR' : R = take pos L) by (rewrite <- Heq; symmetry; apply take_ge; lia).
      split.
      * rewrite HR' at 1. by rewrite <- (drop_S L e pos He), take_drop.
      * intros Hp%prefix_length. lia.
Qed.

Lemma merge_log_result tl R L prev :
  lm tl R → lm tl L → wf_list R → wf_list L → prev < length L →
  prev = 0 ∨ (prev < length R ∧ tm R prev = tm L prev) →
  (merge_log R (S prev) (drop (S prev) L) = R ∧ L `prefix_of` R) ∨
  (merge_log R (S prev) (drop (S prev) L) = L ∧ ¬ L `prefix_of` R).
Proof.
  intros HR HL HwR HwL Hprev Hag.
  pose proof (wf_list_nonempty _ HwR). pose proof (wf_list_nonempty _ HwL).
  apply (merge_log_from tl); try done; try lia.
  - destruct (decide (prev = 0)) as [->|Hnz].
    + apply take_ext. intros i Hi. replace i with 0 by lia.
      destruct HwR as (-> & _), HwL as (-> & _). done.
    + destruct Hag as [?|[? ?]]; [lia|]. apply (lm_agree tl); done || lia.
Qed.
