(* ===== verification/LogSafety.v ===== *)
(** Log safety of the protocol: log matching, leader completeness, state
    machine safety, in executions whose restarts give back the log that was
    lost ([gstep_live]).

    The invariant [log_inv] is relative to the history kept in [ghost].  An
    entry [i] of its own term in the log of the leader of term [t] is [chosen]
    when a quorum held it while in term [t], and [dead] when a quorum has left
    term [t] without ever holding it: a dead entry can never be chosen.  The
    core of the argument is [li_complete]: each entry of a leader's own term is
    dead or is in the log with which every leader of a higher term started.

    A heartbeat goroutine reads the log after releasing the lock under which
    it read the term, so it may send, in an old term, the log its server has
    got since.  Such a message is not a prefix of the old leader's log;
    [safe_at] is what it still satisfies, and it suffices. *)

From S2P Require Import Prelude Types RaftLog Replication Cluster Protocol Ghost ElectionSafety LogFacts.

Section logsafety.
Context (ids : list NodeID) (Hnodup : NoDup ids) (Hnonempty : "" ∉ ids).
Implicit Types m : gmap NodeID core.

Definition dead m (g : ghost) (t : Term) (i : nat) : Prop :=
  ∃ Q, quorum ids Q ∧
    ∀ v, v ∈ Q → (∃ k, m !! v = Some k ∧ (t < k_term k)%N) ∧ (v, t, i) ∉ g_acks g.

Definition chosen (g : ghost) (t : Term) (i : nat) : Prop :=
  ∃ Q, quorum ids Q ∧ ∀ v, v ∈ Q → (v, t, i) ∈ g_acks g.

(** [L] contradicts no entry, of a term up to [s], that may still be chosen. *)
Definition safe_at m (g : ghost) (s : Term) (L : list LogEntry) : Prop :=
  ∀ t T i, (t <= s)%N → g_tl g !! t = Some T → own T t i →
    dead m g t i ∨ compat (take (S i) T) L.

(** The first [c] entries of [L] are committed: they are those of a leader of a
    term up to [s], and one of them or a later one is chosen. *)
Definition commit_ok (g : ghost) (s : Term) (c : nat) (L : list LogEntry) : Prop :=
  c = 0 ∨ ∃ t T i, (t <= s)%N ∧ g_tl g !! t = Some T ∧ own T t i ∧ chosen g t i ∧
                   c <= i ∧ take (S c) T `prefix_of` L.

Definition leads (g : ghost) (i : NodeID) (t : Term) : Prop :=
  ∃ ld, g_lead g !! t = Some ld ∧ ld_id ld = i.

(** An AppendEntries request of term [s] from [src]: either its consistency
    test always fails, or it carries the end of a log [L] of [src], which was
    that of the leader [src] of term [s] or a later log of [src]. *)
Definition msg_log m (g : ghost) (src : NodeID) (args : AppendEntriesArgs)
    (L : list LogEntry) : Prop :=
  wf_list L ∧ lm (g_tl g) L ∧
  N.to_nat (ae_PrevLogIndex args) < length L ∧
  ae_PrevLogTerm args = tm L (N.to_nat (ae_PrevLogIndex args)) ∧
  ae_Entries args = drop (S (N.to_nat (ae_PrevLogIndex args))) L ∧
  safe_at m g (ae_Term args) L ∧
  commit_ok g (ae_Term args) (N.to_nat (ae_LeaderCommit args)) L ∧
  ((∃ T, g_tl g !! ae_Term args = Some T ∧ L `prefix_of` T) ∨
   (∃ k, m !! src = Some k ∧ (ae_Term args < k_term k)%N)).

Definition msg_ok m (g : ghost) (src : NodeID) (args : AppendEntriesArgs) : Prop :=
  ((0 < ae_PrevLogIndex args)%N ∧ ae_PrevLogTerm args = 0%N ∧ ae_Entries args = []) ∨
  ∃ L, msg_log m g src args L.

(** All entries of the leader of term [s] up to position [x] were held by
    [p]. *)
Definition acked_to (g : ghost) (p : NodeID) (s : Term) (x : N) : Prop :=
  ∃ T, g_tl g !! s = Some T ∧ (x < N.of_nat (length T))%N ∧
    ∀ i, own T s i → (N.of_nat i <= x)%N → (p, s, i) ∈ g_acks g.

Record log_inv m (net : list packet) (g : ghost) : Prop := {
  li_log i k : m !! i = Some k → wf_list (k_log k) ∧ lm (g_tl g) (k_log k);
  li_tl t T :
    g_tl g !! t = Some T →
    wf_list T ∧ lm (g_tl g) T ∧ (0 < t)%N ∧
    ∃ ld, g_lead g !! t = Some ld ∧ 0 < ld_init ld ∧ ld_init ld <= length T ∧
      (∀ i, i < length T → (i < ld_init ld → (tm T i < t)%N) ∧ (ld_init ld <= i → tm T i = t));
  li_lead t ld : g_lead g !! t = Some ld → is_Some (g_tl g !! t);
  li_leader i k : m !! i = Some k → k_state k = Leader → g_tl g !! k_term k = Some (k_log k);
  li_stays i t k : leads g i t → m !! i = Some k → k_term k = t → g_tl g !! t = Some (k_log k);
  li_complete t t2 T T2 ld2 i :
    (t < t2)%N → g_tl g !! t = Some T → g_tl g !! t2 = Some T2 → g_lead g !! t2 = Some ld2 →
    own T t i → dead m g t i ∨ take (S i) T `prefix_of` take (ld_init ld2) T2;
  li_acks v t i :
    (v, t, i) ∈ g_acks g →
    ∃ T k, g_tl g !! t = Some T ∧ own T t i ∧ m !! v = Some k ∧ (t <= k_term k)%N ∧
           (dead m g t i ∨ take (S i) T `prefix_of` k_log k);
  li_candidate i k : m !! i = Some k → k_state k ≠ Follower → (0 < k_term k)%N;
  li_votes v u c : (v, u, c) ∈ g_votes g → ∃ k, m !! c = Some k ∧ (u <= k_term k)%N;
  li_req src dst args :
    VoteReq src dst args ∈ net →
    ∃ k, m !! src = Some k ∧ (rv_Term args <= k_term k)%N ∧
      (k_term k = rv_Term args → k_state k = Candidate →
       rv_LastLogTerm args = last_term (k_log k) ∧ rv_LastLogIndex args = last_index (k_log k));
  li_uptodate v c k t T i :
    (v, k_term k, c) ∈ g_votes g → m !! c = Some k → k_state k = Candidate →
    (t < k_term k)%N → g_tl g !! t = Some T → (v, t, i) ∈ g_acks g →
    dead m g t i ∨ take (S i) T `prefix_of` k_log k;
  li_blocked c k i :
    m !! c = Some k → k_state k = Candidate → 0 < i → i < length (k_log k) →
    (k_term k <= tm (k_log k) i)%N →
    ∃ ld, g_lead g !! tm (k_log k) i = Some ld ∧
      ∀ v, v ∈ ld_quorum ld → (v, k_term k, c) ∉ g_votes g;
  li_hb src dst s leader commit :
    HbTask src dst s leader commit ∈ net →
    dst ∈ peers_of ids src ∧ leads g src s ∧
    ∃ k, m !! src = Some k ∧ (s <= k_term k)%N ∧
      safe_at m g s (k_log k) ∧ commit_ok g s (N.to_nat commit) (k_log k);
  li_app src dst hb args :
    AppReq src dst hb args ∈ net →
    dst ∈ peers_of ids src ∧ leads g src (ae_Term args) ∧ msg_ok m g src args;
  li_rep src dst hb args reply e :
    AppRep src dst hb args reply ∈ net → aer_Success reply = true →
    last (ae_Entries args) = Some e →
    (∃ k, m !! src = Some k ∧ (ae_Term args < k_term k)%N) ∨
    acked_to g dst (ae_Term args) (e_Index e);
  li_match i k p x :
    m !! i = Some k → k_state k = Leader → p ∈ k_peers k → k_match k !! p = Some x →
    acked_to g p (k_term k) x;
  li_commit i k :
    m !! i = Some k → commit_ok g (k_term k) (N.to_nat (k_commit k)) (k_log k);
  li_next i k p :
    m !! i = Some k → p ∈ peers_of ids i →
    k_state k = Leader ∨ (∃ s leader commit, HbTask i p s leader commit ∈ net) →
    (0 < map_get 0 (k_next k) p)%N;
  li_hint src dst hb args reply :
    AppRep src dst hb args reply ∈ net →
    (0 < aer_ConflictTerm reply → 0 < aer_ConflictIndex reply)%N;
}.

(** ** General facts *)

Lemma chosen_not_dead m g t j : chosen g t j → ¬ dead m g t j.
Proof.
  intros (Q & HQ & Hc) (Q' & HQ' & Hd).
  destruct (quorums_meet ids Hnodup Q Q' HQ HQ') as (v & Hv & Hv').
  destruct (Hd v Hv') as [_ Hno]. by apply Hno, Hc.
Qed.

Lemma safe_at_prefix m g s L L' : safe_at m g s L → L' `prefix_of` L → safe_at m g s L'.
Proof.
  intros Hs HL t T j Ht HT Ho. destruct (Hs t T j Ht HT Ho); [by left|].
  right. by eapply compat_prefix_r.
Qed.

Lemma safe_at_le m g s s' L : safe_at m g s L → (s' <= s)%N → safe_at m g s' L.
Proof. intros Hs Hle t T j Ht. apply Hs. lia. Qed.

Lemma commit_ok_le g s s' c c' L L' :
  commit_ok g s c L → (s <= s')%N → c' <= c → L `prefix_of` L' → commit_ok g s' c' L'.
Proof.
  intros [->|(t & T & j & Hts & HT & Ho & Hch & Hcj & Hp)] Hs Hc HL; [left; lia|].
  right. exists t, T, j. split_and!; try done; try lia.
  transitivity (take (S c) T); [apply take_take_prefix; lia|]. by transitivity L.
Qed.

(** The committed prefix of [L] and its bound. *)
Lemma commit_ok_length g s c L : commit_ok g s c L → 0 < length L → c < length L.
Proof.
  intros [->|(t & T & j & _ & _ & (_ & Hj & _) & _ & Hc & Hp)] ?; [done|].
  apply take_prefix_len in Hp; lia.
Qed.

(** ** Transitions and logs *)

Lemma log_step net i k k' ps :
  ptrans net i k k' ps →
  k_log k' = k_log k ∨
  (∃ c, k_state k = Leader ∧ k' = p_submit c k) ∨
  (∃ src hb args, AppReq src i hb args ∈ net ∧ (k_term k <= ae_Term args)%N ∧
     p_check_prev args (k_log k) = None ∧
     k_term k' = ae_Term args ∧ k_state k' = Follower ∧
     k_log k' = merge_log (k_log k) (S (N.to_nat (ae_PrevLogIndex args))) (ae_Entries args)).
Proof.
  intros Ht. destruct Ht as
    [| |src args _|p term reply _|_|p term leader commit _|p _ _ _|src hb args Hin
     |p hb args reply _|cmd Hl]; try by left.
  - left. destruct (p_vote args k) as [k1 r] eqn:E. simpl.
    apply p_vote_cases in E as [[-> _]|(-> & _)]; apply p_observe_log.
  - left. by destruct (p_vote_reply_cases p term reply k)
      as [->|[[? ->]|(_ & ? & _ & _ & [->|[-> _]])]].
  - destruct (p_append args k) as [k1 r] eqn:E. simpl.
    apply p_append_cases in E as [(_ & -> & _)|(Hle & [(ct & ci & _ & -> & _)|(Hc & -> & _)])].
    + by left.
    + left. apply p_observe_log.
    + right. right. exists src, hb, args.
      match goal with |- context [p_follow_commit ?lc ?x] =>
        destruct (p_follow_commit_same lc x) as (_&_&->&_&->&->&_) end.
      simpl. rewrite p_observe_term. split_and!; try done. lia.
  - left. destruct (p_append_reply_cases p args reply k)
      as [->|[[? ->]|(_ & _ & _ & [(e & _ & _ & ->)|(_ & ->)])]]; try done.
    + by destruct (p_success_same p (e_Index e) k) as (_&_&_&_&->&_).
    + by destruct (p_conflict_same p reply k) as (_&_&_&_&->&_).
  - right. left. eauto.
Qed.

(** ** What a step does to the history *)

Section step.
Context (m : gmap NodeID core) (net : list packet) (g : ghost)
        (i : NodeID) (k k' : core) (ps : list packet).
Context (HE : election_inv ids m net g) (HL : log_inv m net g)
        (Hk : m !! i = Some k) (Ht : ptrans net i k k' ps).

Let m' := <[i := k']> m.
Let g' := ghost_update i k' ps g.

Lemma step_election : election_inv ids m' (net ++ ps) g'.
Proof. apply (election_inv_step ids Hnodup Hnonempty _ _ (gs_trans _ _ _ _ _ _ _ Hk Ht) HE). Qed.

Lemma step_le : core_le k k'.
Proof. by eapply ptrans_le. Qed.

Lemma step_lookup j kj :
  m !! j = Some kj → ∃ kj', m' !! j = Some kj' ∧ (k_term kj <= k_term kj')%N.
Proof.
  intros Hj. unfold m'. rewrite lookup_insert. case_decide as Hij; [|exists kj; split; [done|lia]].
  subst j. rewrite Hk in Hj. injection Hj as <-. exists k'. split; [done|]. apply step_le.
Qed.

(** The leaders' logs: a new leader's log is new, an old leader's log may have
    got one more entry. *)
Lemma step_leader :
  k_state k' = Leader →
  k_term k' = k_term k ∧
  ((k_state k = Candidate ∧ k_log k' = k_log k ∧
    g_tl g !! k_term k = None ∧ g_lead g !! k_term k = None) ∨
   (k_state k = Leader ∧ g_tl g !! k_term k = Some (k_log k) ∧
    (k_log k' = k_log k ∨ ∃ c, k_log k' = k_log k ++ [mkEntry (k_term k) (last_index (k_log k) + 1) c]))).
Proof.
  intros Hs. destruct (leader_step _ _ _ _ _ Ht Hs) as [Hteq [Hl|(Hc & Hmaj & Hlog)]];
    (split; [done|]).
  - right. split; [done|]. split; [by apply (li_leader _ _ _ HL i)|].
    destruct (log_step _ _ _ _ _ Ht) as [?|[(c & _ & ->)|(src & hb & args & _ & _ & _ & _ & ? & _)]];
      [auto|eauto|congruence].
  - assert (Hnone : g_lead g !! k_term k = None).
    { destruct (g_lead g !! k_term k) as [ld|] eqn:Hld; [|done]. exfalso.
      destruct (ei_leader _ _ _ _ step_election i k') as (ld' & Hld' & Hid);
        [apply lookup_insert_eq|done|].
      rewrite Hteq in Hld'. unfold g' in Hld'. rewrite (ghost_lead_mono _ _ _ _ _ _ Hld) in Hld'.
      injection Hld' as <-.
      destruct (ei_lead _ _ _ _ HE _ _ Hld) as (_ & _ & k1 & Hk1 & _ & Hnc).
      rewrite Hid, Hk in Hk1. injection Hk1 as <-. by apply Hnc. }
    left. split_and!; [done..| |done].
    destruct (g_tl g !! k_term k) as [T|] eqn:HT; [|done].
    destruct (li_tl _ _ _ HL _ _ HT) as (_ & _ & _ & ld & Hld & _). congruence.
Qed.

(** The entry a leader appends. *)
Definition appended (t : Term) (j : nat) : Prop :=
  k_state k = Leader ∧ k_state k' = Leader ∧ t = k_term k ∧ k_term k' = k_term k ∧
  j = length (k_log k) ∧
  ∃ c, k_log k' = k_log k ++ [mkEntry (k_term k) (last_index (k_log k) + 1) c].

(** A new leader has no entry of its term or a later one. *)
Lemma new_leader_terms j :
  k_state k = Candidate → k_state k' = Leader → 0 < j → j < length (k_log k) →
  (tm (k_log k) j < k_term k)%N.
Proof.
  intros Hc Hs Hj Hl. destruct (N.lt_ge_cases (tm (k_log k) j) (k_term k)) as [|Hge]; [done|].
  destruct (li_blocked _ _ _ HL _ _ _ Hk Hc Hj Hl Hge) as (ld & Hld & Hno).
  destruct (ei_lead _ _ _ _ HE _ _ Hld) as (HQ & _).
  destruct (ei_leader _ _ _ _ step_election i k') as (ld' & Hld' & Hid);
    [apply lookup_insert_eq|done|].
  destruct (ei_lead _ _ _ _ step_election _ _ Hld') as (HQ' & HV & _).
  destruct (quorums_meet ids Hnodup _ _ HQ HQ') as (v & Hv & Hv'%HV).
  destruct (step_leader Hs) as [Hteq _]. rewrite Hteq, Hid in Hv'.
  apply ghost_votes_spec in Hv' as [Hv'|(-> & _)]; [by destruct (Hno v)|].
  destruct (ei_running _ _ _ _ HE _ _ Hk) as (Hvo & _); [congruence|].
  destruct (Hno i Hv). rewrite <- Hvo at 2. apply (ei_voted _ _ _ _ HE); [done|congruence|].
  rewrite Hvo. apply (id_nonempty ids Hnonempty). by apply (ei_core _ _ _ _ HE _ _ Hk).
Qed.

Lemma step_tl_le : tl_le (g_tl g) (g_tl g').
Proof.
  intros t T HT. destruct (decide (k_state k' = Leader)) as [Hs|Hs].
  - unfold g'. rewrite ghost_tl_leader by done. rewrite lookup_insert.
    case_decide as Htt; [|by exists T]. subst t.
    destruct (step_leader Hs) as (Hteq & [(_ & _ & Hn & _)|(_ & Hold & Hlog)]).
    { rewrite Hteq in HT. congruence. }
    rewrite Hteq, Hold in HT. injection HT as <-. eexists. split; [done|].
    destruct Hlog as [->|[c ->]]; [done|by apply prefix_app_r].
  - unfold g'. rewrite ghost_tl_other by done. by exists T.
Qed.

(** Entries of their own term in the leaders' logs are old ones or the one
    just appended. *)
Lemma step_own t T' j :
  g_tl g' !! t = Some T' → own T' t j →
  (∃ T, g_tl g !! t = Some T ∧ T `prefix_of` T' ∧ own T t j) ∨ (appended t j ∧ T' = k_log k').
Proof.
  intros HT' Ho. destruct (decide (k_state k' = Leader)) as [Hs|Hs].
  2: { unfold g' in HT'. rewrite ghost_tl_other in HT' by done. left. eauto. }
  unfold g' in HT'. rewrite ghost_tl_leader in HT' by done. rewrite lookup_insert in HT'.
  case_decide as Htt; [|left; eauto]. subst t. injection HT' as <-.
  destruct (step_leader Hs) as (Hteq & [(Hc & Hlog & _)|(Hl & Hold & Hlog)]).
  - exfalso. rewrite Hlog in Ho. destruct Ho as (H0 & H1 & H2).
    pose proof (new_leader_terms j Hc Hs H0 H1). lia.
  - rewrite Hteq in *. destruct Hlog as [Hlog|[c Hlog]]; [left; rewrite Hlog in *; eauto|].
    destruct (decide (j < length (k_log k))) as [Hj|Hj].
    + left. exists (k_log k). assert (k_log k `prefix_of` k_log k').
      { rewrite Hlog. by apply prefix_app_r. }
      split_and!; [done..|]. by eapply own_shrink.
    + right. destruct Ho as (_ & Hlen & _). rewrite Hlog, length_app in Hlen. simpl in Hlen.
      split; [|done]. unfold appended. split_and!; [done..|lia|eauto].
Qed.

Lemma step_ack v t j :
  (v, t, j) ∈ g_acks g' →
  (v, t, j) ∈ g_acks g ∨
  (v = i ∧ t = k_term k' ∧ ∃ T, g_tl g' !! t = Some T ∧ holds t T (k_log k') j).
Proof. apply ghost_acks_spec. Qed.

Lemma step_dead t j : dead m g t j → dead m' g' t j.
Proof.
  intros (Q & HQ & Hd). exists Q. split; [done|]. intros v Hv.
  destruct (Hd v Hv) as ((kv & Hkv & Htv) & Hno). split.
  - destruct (step_lookup _ _ Hkv) as (kv' & ? & ?). exists kv'. split; [done|lia].
  - intros [?|(-> & -> & _)]%step_ack; [done|].
    rewrite Hk in Hkv. injection Hkv as <-. destruct step_le as (_ & _ & Hle & _). lia.
Qed.

Lemma step_chosen t j : chosen g t j → chosen g' t j.
Proof.
  intros (Q & HQ & Hc). exists Q. split; [done|]. intros v Hv. by apply ghost_acks_mono, Hc.
Qed.

Lemma step_leads j t : leads g j t → leads g' j t.
Proof. intros (ld & Hld & ?). exists ld. split; [by apply ghost_lead_mono|done]. Qed.

(** An entry appended by a leader that has been superseded is dead. *)
Lemma appended_dead t j s ld :
  appended t j → (t < s)%N → g_lead g' !! s = Some ld → dead m' g' t j.
Proof.
  intros (Hl & Hl' & -> & Hteq & -> & c & Hlog) Hs Hld.
  destruct (ei_lead _ _ _ _ step_election _ _ Hld) as (HQ & HV & _).
  exists (ld_quorum ld). split; [done|]. intros v Hv.
  destruct (ei_votes _ _ _ _ step_election _ _ _ (HV v Hv)) as (_ & kv & Hkv & Htv).
  split; [exists kv; split; [done|lia]|].
  intros [Hold|(-> & -> & _)]%step_ack.
  - destruct (li_acks _ _ _ HL _ _ _ Hold) as (T & k1 & HT & (_ & Ho & _) & _).
    rewrite (li_leader _ _ _ HL _ _ Hk Hl) in HT. injection HT as <-. lia.
  - unfold m' in Hkv. rewrite lookup_insert_eq in Hkv. injection Hkv as <-. lia.
Qed.

(** *** Monotonicity of what the invariant says *)

Lemma step_commit_ok s c L : commit_ok g s c L → commit_ok g' s c L.
Proof.
  intros [->|(t & T & j & Hts & HT & Ho & Hch & Hcj & Hp)]; [by left|].
  destruct (step_tl_le t T HT) as (T' & HT' & Hpre). right. exists t, T', j.
  split_and!; try done; [by eapply own_prefix|by apply step_chosen|].
  destruct Ho as (_ & Hj & _). rewrite <- (prefix_take_eq T T') by (done || lia). done.
Qed.

Lemma step_safe_at s L :
  safe_at m g s L →
  (∀ t j, appended t j → (t <= s)%N → dead m' g' t j ∨ compat (k_log k') L) →
  safe_at m' g' s L.
Proof.
  intros Hs Happ t T' j Hts HT' Ho.
  destruct (step_own t T' j HT' Ho) as [(T & HT & Hpre & Ho')|[Ha ->]].
  - destruct (Hs t T j Hts HT Ho') as [Hd|Hc]; [left; by apply step_dead|right].
    destruct Ho' as (_ & Hj & _). by rewrite <- (prefix_take_eq T T') by (done || lia).
  - destruct (Happ t j Ha Hts) as [|Hc]; [by left|right].
    destruct Ha as (_ & _ & _ & _ & -> & c & Hlog).
    rewrite take_ge; [done|]. rewrite Hlog, length_app. simpl. lia.
Qed.

(** Nothing is appended when the log stays. *)
Lemma not_appended t j : k_log k' = k_log k ∨ k_state k' ≠ Leader → ¬ appended t j.
Proof.
  intros Hor (_ & Hl & _ & _ & _ & c & Hlog). destruct Hor as [Hs|?]; [|done].
  rewrite Hs in Hlog. apply (f_equal length) in Hlog. rewrite length_app in Hlog. simpl in Hlog. lia.
Qed.

Lemma step_acked_to p s x : acked_to g p s x → acked_to g' p s x.
Proof.
  intros (T & HT & Hx & Ha). destruct (step_tl_le s T HT) as (T' & HT' & Hpre).
  exists T'. pose proof (prefix_length _ _ Hpre). split_and!; [done|lia|].
  intros j Ho Hj. apply ghost_acks_mono, Ha; [|done]. eapply own_shrink; [done..|lia].
Qed.

Lemma leads_unique j j' t : leads g' j t → leads g' j' t → j = j'.
Proof. intros (ld & Hld & <-) (ld' & Hld' & <-). congruence. Qed.

Lemma step_msg_ok src args :
  leads g src (ae_Term args) → msg_ok m g src args → msg_ok m' g' src args.
Proof.
  intros Hlead [Hv|(L & Hw & Hlm & Hprev & Hpt & Hes & Hsafe & Hcom & Horig)]; [by left|].
  right. exists L. split_and!; try done.
  - eapply lm_mono; [apply step_tl_le|done].
  - apply step_safe_at; [done|]. intros t j Ha Hts.
    destruct (N.eq_dec t (ae_Term args)) as [->|Hne].
    2: { left. destruct Hlead as (ld & Hld & _).
         apply (appended_dead t j (ae_Term args) ld Ha); [lia|]. by apply ghost_lead_mono. }
    pose proof Ha as (Hl & _ & Htk & _ & _ & c & Hlog).
    destruct Horig as [(T & HT & Hpre)|(ks & Hks & Hlt)].
    + right. right. rewrite Htk, (li_leader _ _ _ HL _ _ Hk Hl) in HT. injection HT as <-.
      transitivity (k_log k); [done|]. rewrite Hlog. by apply prefix_app_r.
    + exfalso. destruct (ei_leader _ _ _ _ HE _ _ Hk Hl) as (ld & Hld & Hid).
      assert (src = i) as ->.
      { apply (leads_unique src i (ae_Term args)); apply step_leads; [done|].
        exists ld. rewrite Htk. done. }
      rewrite Hk in Hks. injection Hks as <-. lia.
  - by apply step_commit_ok.
  - destruct Horig as [(T & HT & Hpre)|(ks & Hks & Hlt)].
    + left. destruct (step_tl_le _ _ HT) as (T' & HT' & ?). exists T'. split; [done|].
      by transitivity T.
    + right. destruct (step_lookup _ _ Hks) as (ks' & ? & ?). exists ks'. split; [done|lia].
Qed.

(** *** The log after a step *)

(** A request that passes the consistency test carries a log. *)
Lemma accepted src hb args :
  AppReq src i hb args ∈ net → p_check_prev args (k_log k) = None →
  ∃ L, msg_log m g src args L ∧
    let R' := merge_log (k_log k) (S (N.to_nat (ae_PrevLogIndex args))) (ae_Entries args) in
    (R' = k_log k ∧ L `prefix_of` k_log k) ∨ (R' = L ∧ ¬ L `prefix_of` k_log k).
Proof.
  intros Hin Hc. destruct (li_app _ _ _ HL _ _ _ _ Hin) as (_ & _ & Hmsg).
  destruct (li_log _ _ _ HL _ _ Hk) as [Hwf Hlm].
  unfold p_check_prev in Hc.
  destruct Hmsg as [(H0 & Hpt & _)|(L & Hml)].
  - exfalso. rewrite (proj2 (N.ltb_lt _ _) H0) in Hc.
    destruct (N.ltb_spec (ae_PrevLogIndex args) (N.of_nat (length (k_log k)))); [|done].
    simpl in Hc. rewrite Hpt in Hc.
    pose proof (wf_list_term _ (N.to_nat (ae_PrevLogIndex args)) Hwf).
    destruct (N.eqb_spec (tm (k_log k) (N.to_nat (ae_PrevLogIndex args))) 0); [|done]. lia.
  - exists L. split; [done|]. destruct Hml as (HwL & HlmL & Hprev & Hpt & -> & _).
    apply (merge_log_result (g_tl g)); try done.
    destruct (N.ltb_spec 0 (ae_PrevLogIndex args)); [right|left; lia].
    destruct (N.ltb_spec (ae_PrevLogIndex args) (N.of_nat (length (k_log k)))); [|done].
    simpl in Hc. rewrite Hpt in Hc.
    destruct (N.eqb_spec (tm (k_log k) (N.to_nat (ae_PrevLogIndex args)))
                (tm L (N.to_nat (ae_PrevLogIndex args)))); [|done].
    split; [lia|done].
Qed.

Lemma log_cases :
  k_log k' = k_log k ∨ appended (k_term k) (length (k_log k)) ∨
  ∃ src args, msg_log m g src args (k_log k') ∧ (k_term k <= ae_Term args)%N ∧
    k_state k' = Follower ∧ ¬ k_log k' `prefix_of` k_log k.
Proof.
  destruct (log_step _ _ _ _ _ Ht) as [?|[(c & Hl & Heq)|(src & hb & args & Hin & Hle & Hc & _ & Hs & ->)]].
  - by left.
  - right. left. unfold appended. rewrite Heq. simpl. eauto 10.
  - destruct (accepted _ _ _ Hin Hc) as (L & Hml & [[-> _]|[-> Hn]]); [by left|].
    right. right. by exists src, args.
Qed.

(** What a server held of a leader's log, it still holds, unless it is dead. *)
Lemma step_keeps t T j P :
  (t <= k_term k)%N → g_tl g !! t = Some T → own T t j →
  P `prefix_of` take (S j) T → P `prefix_of` k_log k →
  dead m g t j ∨ P `prefix_of` k_log k'.
Proof.
  intros Hle HT Ho HP HR. destruct log_cases as [->|[(_&_&_&_&_&c&->)|(src & args & Hml & Hle' & _ & Hn)]].
  - by right.
  - right. by apply prefix_app_r.
  - destruct Hml as (_ & _ & _ & _ & _ & Hsafe & _).
    destruct (Hsafe t T j) as [|Hc]; [lia|done|done|by left|]. right. by eapply replace_keeps.
Qed.

Lemma step_commit_keeps s c :
  (s <= k_term k)%N → commit_ok g s c (k_log k) → commit_ok g' s c (k_log k').
Proof.
  intros Hs [->|(t & T & j & Hts & HT & Ho & Hch & Hcj & Hp)]; [by left|].
  apply step_commit_ok. right. exists t, T, j. split_and!; try done.
  destruct (step_keeps t T j (take (S c) T)) as [Hd|]; try done; [lia|apply take_take_prefix; lia|].
  by destruct (chosen_not_dead m g t j Hch).
Qed.

Lemma candidate_cases :
  k_state k' = Candidate →
  k' = p_elect k ∨ (k_state k = Candidate ∧ k_term k' = k_term k ∧ k_log k' = k_log k).
Proof.
  intros Hs. destruct (N.eq_dec (k_term k') (k_term k)) as [Heq|Hne].
  - right. pose proof (candidate_step _ _ _ _ _ Ht Hs Heq). split_and!; [done..|].
    destruct log_cases as [?|[(_ & ? & _)|(src & args & _ & _ & ? & _)]]; congruence.
  - left. clear -Ht Hs Hne. destruct Ht as
      [| |src args _|p term reply _|_|p term leader commit _|p _ _ _|src hb args _
       |p hb args reply _|cmd Hl]; try done.
    + destruct (p_vote args k) as [k1 r] eqn:E. simpl in *.
      apply p_vote_cases in E as [[-> _]|(-> & _)]; destruct (p_observe_cases (rv_Term args) k)
        as [[? Ho]|[? Ho]]; rewrite Ho in *; done.
    + destruct (p_vote_reply_cases p term reply k)
        as [Hr|[[? Hr]|(_ & ? & _ & _ & [Hr|[Hr _]])]]; rewrite Hr in *; done.
    + destruct (p_append args k) as [k1 r] eqn:E. simpl in *.
      apply p_append_cases in E as [(_ & -> & _)|(_ & [(ct & ci & _ & -> & _)|(_ & -> & _)])]; try done.
      match goal with H : k_state (p_follow_commit ?lc ?x) = _ |- _ =>
        destruct (p_follow_commit_same lc x) as (_&_&_&_&_&Hf&_); rewrite Hf in H end. done.
    + destruct (p_append_reply_cases p args reply k)
        as [Hr|[[? Hr]|(_ & _ & _ & [(e & _ & _ & Hr)|(_ & Hr)])]]; rewrite Hr in *; try done.
      * by destruct (p_success_same p (e_Index e) k) as (_&_&?&_).
      * by destruct (p_conflict_same p reply k) as (_&_&?&_).
Qed.

(** *** The invariant after a step *)

Lemma post_candidate j kj : m' !! j = Some kj → k_state kj ≠ Follower → (0 < k_term kj)%N.
Proof.
  unfold m'. rewrite lookup_insert. case_decide; [|apply (li_candidate _ _ _ HL)].
  intros [= <-] Hs. destruct (k_state k') eqn:Es; [done|..].
  - destruct (candidate_cases Es) as [->|(Hc & -> & _)]; [simpl; lia|].
    apply (li_candidate _ _ _ HL _ _ Hk). congruence.
  - destruct (step_leader Es) as (-> & [(Hc & _)|(Hl & _)]);
      apply (li_candidate _ _ _ HL _ _ Hk); congruence.
Qed.

Lemma post_log_i : wf_list (k_log k') ∧ lm (g_tl g') (k_log k').
Proof.
  destruct (li_log _ _ _ HL _ _ Hk) as [Hwf Hlm].
  destruct log_cases as [->|[(Hl&Hl'&_&Hteq&_&c&Hlog)|(src & args & (Hw & Hlm' & _) & _)]].
  - split; [done|]. eapply lm_mono; [apply step_tl_le|done].
  - assert (Hpos : (0 < k_term k)%N) by (apply (li_candidate _ _ _ HL _ _ Hk); congruence).
    split; [rewrite Hlog; by apply wf_list_snoc|]. intros j e He Hj.
    destruct (decide (j < length (k_log k))) as [Hlt|Hge].
    + assert (He' : k_log k !! j = Some e) by (rewrite Hlog, lookup_app_l in He; done).
      destruct (lm_mono _ _ _ step_tl_le Hlm j e He' Hj) as (T & HT & Hp). exists T. split; [done|].
      rewrite Hlog, take_app_le by lia. done.
    + exists (k_log k'). assert (Hj' : j = length (k_log k)).
      { apply lookup_lt_Some in He. rewrite Hlog, length_app in He. simpl in He. lia. }
      subst j. split; [|apply prefix_take].
      rewrite Hlog, list_lookup_middle in He by done. injection He as <-. cbn [e_Term].
      unfold g'. rewrite ghost_tl_leader by done. by rewrite Hteq, lookup_insert_eq.
  - split; [done|]. eapply lm_mono; [apply step_tl_le|done].
Qed.

Lemma post_log j kj : m' !! j = Some kj → wf_list (k_log kj) ∧ lm (g_tl g') (k_log kj).
Proof.
  unfold m'. rewrite lookup_insert. case_decide; [intros [= <-]; apply post_log_i|].
  intros Hj. destruct (li_log _ _ _ HL _ _ Hj) as [? ?]. split; [done|].
  eapply lm_mono; [apply step_tl_le|done].
Qed.

Lemma post_tl t T :
  g_tl g' !! t = Some T →
  wf_list T ∧ lm (g_tl g') T ∧ (0 < t)%N ∧
  ∃ ld, g_lead g' !! t = Some ld ∧ 0 < ld_init ld ∧ ld_init ld <= length T ∧
    (∀ j, j < length T → (j < ld_init ld → (tm T j < t)%N) ∧ (ld_init ld <= j → tm T j = t)).
Proof.
  intros HT. destruct (decide (k_state k' = Leader ∧ t = k_term k')) as [[Hs ->]|Hno].
  2: { assert (HT0 : g_tl g !! t = Some T).
       { destruct (decide (k_state k' = Leader)) as [Hs|Hs]; unfold g' in HT;
           [rewrite ghost_tl_leader, lookup_insert_ne in HT by naive_solver
           |rewrite ghost_tl_other in HT]; done. }
       destruct (li_tl _ _ _ HL _ _ HT0) as (? & ? & ? & ld & ? & ? & ? & ?).
       split_and!; [done|eapply lm_mono; [apply step_tl_le|done]|done|].
       exists ld. split; [by apply ghost_lead_mono|done]. }
  pose proof HT as HT0. unfold g' in HT0. rewrite ghost_tl_leader, lookup_insert_eq in HT0 by done.
  injection HT0 as <-. destruct post_log_i as [Hwf Hlm].
  assert (Hpos : (0 < k_term k')%N) by (apply (post_candidate i); [apply lookup_insert_eq|congruence]).
  split_and!; [done..|].
  destruct (step_leader Hs) as (Hteq & [(Hc & Hlog & _ & Hnone)|(Hl & Hold & Hlog)]).
  - exists (mkLeadership i (dom (k_received k')) (length (k_log k'))). simpl.
    split_and!; [|by apply wf_list_nonempty|done|].
    + apply (ghost_lead_spec i k' ps). right. rewrite Hteq. auto.
    + intros j Hj. split; [intros _|lia]. destruct (decide (j = 0)) as [->|].
      * unfold tm. by destruct Hwf as (-> & _).
      * rewrite Hlog, Hteq in *. apply new_leader_terms; done || lia.
  - destruct (li_tl _ _ _ HL _ _ Hold) as (_ & _ & _ & ld & Hld & Hi0 & Hi & Hterms).
    exists ld. rewrite Hteq. split_and!; [by apply ghost_lead_mono|done|..].
    { destruct Hlog as [->|[c ->]]; [done|]. rewrite length_app. lia. }
    intros j Hj. destruct Hlog as [Hlog|[c Hlog]]; [rewrite Hlog in *; auto|].
    destruct (decide (j < length (k_log k))) as [Hlt|Hge].
    + rewrite <- (prefix_tm (k_log k)); [by apply Hterms| |done].
      rewrite Hlog. by apply prefix_app_r.
    + rewrite Hlog, length_app in Hj. simpl in Hj. split; [lia|intros _].
      replace j with (length (k_log k)) by lia. unfold tm.
      by rewrite Hlog, list_lookup_middle.
Qed.

Lemma post_lead t ld : g_lead g' !! t = Some ld → is_Some (g_tl g' !! t).
Proof.
  intros [Hld|(_ & Hs & -> & _)]%ghost_lead_spec.
  - destruct (li_lead _ _ _ HL _ _ Hld) as [T HT].
    destruct (step_tl_le _ _ HT) as (T' & ? & _). eauto.
  - unfold g'. rewrite ghost_tl_leader, lookup_insert_eq by done. eauto.
Qed.

Lemma post_leader j kj :
  m' !! j = Some kj → k_state kj = Leader → g_tl g' !! k_term kj = Some (k_log kj).
Proof.
  intros Hj Hs. destruct (decide (j = i)) as [->|Hne].
  { unfold m' in Hj. rewrite lookup_insert_eq in Hj. injection Hj as <-.
    unfold g'. by rewrite ghost_tl_leader, lookup_insert_eq. }
  pose proof Hj as Hj0. unfold m' in Hj0. rewrite lookup_insert_ne in Hj0 by done.
  pose proof (li_leader _ _ _ HL _ _ Hj0 Hs) as HT. unfold g'.
  destruct (decide (k_state k' = Leader)) as [Hs'|]; [|by rewrite ghost_tl_other].
  rewrite ghost_tl_leader by done. rewrite lookup_insert_ne; [done|]. intros Heq.
  destruct (ei_leader _ _ _ _ step_election j kj Hj Hs) as (ld & Hld & Hid).
  destruct (ei_leader _ _ _ _ step_election i k') as (ld' & Hld' & Hid');
    [apply lookup_insert_eq|done|].
  rewrite Heq in Hld'. congruence.
Qed.

(** The log of a server within a term that it led: it gets no request of its
    own term, so it only changes while the server still leads. *)
Lemma led_log_keeps :
  leads g i (k_term k) → k_term k' = k_term k → k_state k' ≠ Leader → k_log k' = k_log k.
Proof.
  intros (ld & Hld & Hid) Hteq Hs.
  destruct (log_step _ _ _ _ _ Ht) as [?|[(c & Hl & Heq)|(src & hb & args & Hin & _ & _ & Hta & _)]]; [done|..].
  - destruct Hs. by rewrite Heq.
  - exfalso. destruct (li_app _ _ _ HL _ _ _ _ Hin) as (Hpeer & (ld' & Hld' & Hid') & _).
    rewrite <- Hta, Hteq in Hld'. apply elem_of_peers_of in Hpeer as [_ Hne]. congruence.
Qed.

Lemma post_stays j t kj :
  leads g' j t → m' !! j = Some kj → k_term kj = t → g_tl g' !! t = Some (k_log kj).
Proof.
  intros (ld & Hld & Hid) Hj Htj.
  destruct (decide (k_state kj = Leader)) as [Hs|Hs]; [rewrite <- Htj; by eapply post_leader|].
  apply ghost_lead_spec in Hld as [Hld|(_ & Hs' & -> & ->)].
  2: { simpl in Hid. subst j. unfold m' in Hj. rewrite lookup_insert_eq in Hj. by injection Hj as <-. }
  destruct (decide (j = i)) as [->|Hne].
  - unfold m' in Hj. rewrite lookup_insert_eq in Hj. injection Hj as <-.
    destruct (ei_lead _ _ _ _ HE _ _ Hld) as (_ & _ & k1 & Hk1 & Hle & _).
    rewrite Hid, Hk in Hk1. injection Hk1 as <-.
    destruct step_le as (_ & _ & Hle' & _). assert (Hteq : k_term k = t) by lia.
    unfold g'. rewrite ghost_tl_other, led_log_keeps; [|by rewrite Hteq; exists ld|lia|done|done].
    apply (li_stays _ _ _ HL i t); [by exists ld|done..].
  - unfold m' in Hj. rewrite lookup_insert_ne in Hj by done.
    pose proof (li_stays _ _ _ HL j t _ (ex_intro _ ld (conj Hld Hid)) Hj Htj) as HT.
    destruct (decide (k_state k' = Leader)) as [Hs'|]; unfold g'; [|by rewrite ghost_tl_other].
    rewrite ghost_tl_leader by done. rewrite lookup_insert_ne; [done|]. intros Heq.
    destruct (ei_leader _ _ _ _ step_election i k') as (ld' & Hld' & Hid'); [apply lookup_insert_eq|done|].
    unfold g' in Hld'. rewrite Heq, (ghost_lead_mono _ _ _ _ _ _ Hld) in Hld'. congruence.
Qed.

(** The votes behind a new leader were cast before it counted them. *)
Lemma old_self_vote v :
  k_state k = Candidate → (v, k_term k, i) ∈ g_votes g' → k_term k' = k_term k →
  (v, k_term k, i) ∈ g_votes g.
Proof.
  intros Hc Hv Hteq. apply ghost_votes_spec in Hv as [?|(-> & _ & _ & Hi & _)]; [done|].
  destruct (ei_running _ _ _ _ HE _ _ Hk) as (Hvo & _); [congruence|].
  pose proof (ei_voted _ _ _ _ HE _ _ Hk) as Hvk. rewrite Hvo in Hvk. apply Hvk; [congruence|done].
Qed.

Lemma post_complete t t2 T T2 ld2 j :
  (t < t2)%N → g_tl g' !! t = Some T → g_tl g' !! t2 = Some T2 → g_lead g' !! t2 = Some ld2 →
  own T t j → dead m' g' t j ∨ take (S j) T `prefix_of` take (ld_init ld2) T2.
Proof.
  intros Hlt HT HT2 Hld2 Ho.
  destruct (step_own t T j HT Ho) as [(T0 & HT0 & Hpre & Ho0)|[Ha _]].
  2: { left. by apply (appended_dead t j t2 ld2). }
  assert (Htake : take (S j) T = take (S j) T0).
  { symmetry. apply prefix_take_eq; [done|]. destruct Ho0. lia. }
  rewrite Htake. pose proof Hld2 as [Hld|(Hnone & Hs & -> & ->)]%ghost_lead_spec.
  - destruct (li_lead _ _ _ HL _ _ Hld) as [T20 HT20].
    destruct (li_tl _ _ _ HL _ _ HT20) as (_ & _ & _ & ld' & Hld' & _ & Hinit & _).
    rewrite Hld in Hld'. injection Hld' as <-.
    destruct (step_tl_le _ _ HT20) as (T2' & HT2' & Hpre2). unfold g' in *. rewrite HT2 in HT2'.
    injection HT2' as <-. rewrite <- (prefix_take_eq T20 T2) by done.
    destruct (li_complete _ _ _ HL _ _ _ _ _ _ Hlt HT0 HT20 Hld Ho0) as [Hd|]; [|by right].
    left. by apply step_dead.
  - simpl. pose proof HT2 as HT2'. unfold g' in HT2'. rewrite ghost_tl_leader, lookup_insert_eq in HT2' by done.
    injection HT2' as <-. rewrite (take_ge (k_log k')) by lia.
    destruct (step_leader Hs) as (Hteq & [(Hc & Hlog & _)|(Hl & _)]).
    2: { destruct (ei_leader _ _ _ _ HE _ _ Hk Hl) as (ld & Hld & _). congruence. }
    destruct (ei_lead _ _ _ _ step_election _ _ Hld2) as (HQ & HV & _). cbn [ld_quorum ld_id] in HQ, HV.
    destruct (decide (set_Forall (λ v, (v, t, j) ∉ g_acks g) (dom (k_received k')))) as [Hall|Hex].
    + left. exists (dom (k_received k')). split; [done|]. intros v Hv. split.
      * destruct (ei_votes _ _ _ _ step_election _ _ _ (HV v Hv)) as (_ & kv & Hkv & ?).
        exists kv. split; [done|lia].
      * intros [Hack|(_ & -> & _)]%step_ack; [by apply (Hall v)|lia].
    + apply not_set_Forall_Exists in Hex; [|apply _]. destruct Hex as (v & Hv & Hack).
      apply dec_stable in Hack. rewrite Hlog, Hteq in *.
      destruct (li_uptodate _ _ _ HL v i k t T0 j) as [Hd|]; try done; [|left; by apply step_dead|by right].
      apply old_self_vote; try done. by apply HV.
Qed.

(** The log of a leader is safe at its term. *)
Lemma leader_safe s T : g_tl g' !! s = Some T → safe_at m' g' s T.
Proof.
  intros HT t T1 j Hts HT1 Ho. destruct (N.eq_dec t s) as [->|Hne].
  - rewrite HT in HT1. injection HT1 as <-. right. left. apply prefix_take.
  - destruct (post_tl _ _ HT) as (_ & _ & _ & ld & Hld & _).
    destruct (post_complete t s T1 T ld j) as [|Hp]; try done; [lia|by left|right; left].
    etrans; [exact Hp|apply prefix_take].
Qed.

Lemma post_acks v t j :
  (v, t, j) ∈ g_acks g' →
  ∃ T kv, g_tl g' !! t = Some T ∧ own T t j ∧ m' !! v = Some kv ∧ (t <= k_term kv)%N ∧
          (dead m' g' t j ∨ take (S j) T `prefix_of` k_log kv).
Proof.
  intros [Hold|(-> & -> & T & HT & H0 & Htm & Hp & Hj)]%step_ack.
  2: { exists T, k'. split_and!; [done|done|apply lookup_insert_eq|lia|by right]. }
  destruct (li_acks _ _ _ HL _ _ _ Hold) as (T & kv & HT & Ho & Hkv & Hle & Hd).
  destruct (step_tl_le _ _ HT) as (T' & HT' & Hpre).
  assert (Htake : take (S j) T' = take (S j) T).
  { symmetry. apply prefix_take_eq; [done|]. destruct Ho. lia. }
  destruct (step_lookup _ _ Hkv) as (kv' & Hkv' & Hle').
  exists T', kv'. split_and!; [done|by eapply own_prefix|done|lia|]. rewrite Htake.
  destruct Hd as [Hd|Hp]; [left; by apply step_dead|].
  unfold m' in Hkv'. rewrite lookup_insert in Hkv'. case_decide as Hiv.
  - subst v. injection Hkv' as <-. rewrite Hk in Hkv. injection Hkv as <-.
    destruct (step_keeps t T j (take (S j) T)) as [Hd|]; try done; [left; by apply step_dead|by right].
  - right. congruence.
Qed.

(** How a vote comes to be cast. *)
Lemma voted_step :
  casts k' ps = true →
  (k_state k ≠ Follower ∧ k_voted k' = k_voted k ∧ k_term k' = k_term k) ∨ k' = p_elect k ∨
  ∃ src args, VoteReq src i args ∈ net ∧ k_voted k' = rv_CandidateID args ∧
    k_term k' = rv_Term args ∧ p_up_to_date args k = true ∧ k_log k' = k_log k.
Proof.
  intros Hcast. destruct (decide (k_state k' = Follower)) as [Hf|Hr].
  - right. right. unfold casts in Hcast. rewrite bool_decide_eq_false_2 in Hcast by tauto.
    simpl in Hcast. clear -Ht Hcast.
    destruct Ht as [| |src args Hin|p term reply _|_|p term leader commit _|p _ _ _|src hb args _
       |p hb args reply _|cmd _]; simpl in Hcast; try done;
      try (apply existsb_exists in Hcast as (x & (p & <- & _)%in_map_iff & ?); done).
    destruct (p_vote args k) as [k1 r] eqn:E. simpl in *.
    apply p_vote_cases in E as [[-> Hr]|(-> & _ & Hle & _ & Hup)]; [by rewrite Hr in Hcast|].
    exists src, args. simpl. rewrite p_observe_term, p_observe_log. split_and!; try done. lia.
  - destruct (ei_running _ _ _ _ step_election i k') as (Hvo' & _); [apply lookup_insert_eq|done|].
    assert (Hk0 : k' = p_elect k ∨ (k_state k ≠ Follower ∧ k_term k' = k_term k)).
    { destruct (k_state k') eqn:Es; [done|..].
      - destruct (candidate_cases Es) as [?|(? & ? & _)]; [auto|right; split; congruence].
      - destruct (step_leader Es) as (? & [(? & _)|(? & _)]); right; split; congruence. }
    destruct Hk0 as [?|[Hs Hteq]]; [auto|left].
    destruct (ei_running _ _ _ _ HE _ _ Hk Hs) as (Hvo & _). split_and!; congruence.
Qed.

Lemma post_votes v u c : (v, u, c) ∈ g_votes g' → ∃ kc, m' !! c = Some kc ∧ (u <= k_term kc)%N.
Proof.
  assert (Hold : ∀ v u c, (v, u, c) ∈ g_votes g → ∃ kc, m' !! c = Some kc ∧ (u <= k_term kc)%N).
  { intros v0 u0 c0 Hv. destruct (li_votes _ _ _ HL _ _ _ Hv) as (kc & Hkc & Hle).
    destruct (step_lookup _ _ Hkc) as (kc' & ? & ?). exists kc'. split; [done|lia]. }
  intros [Hv|(-> & -> & -> & Hne & Hcast)]%ghost_votes_spec; [eauto|].
  destruct (voted_step Hcast) as [(Hs & Hv & Hteq)|[Heq|(src & args & Hin & Hv & Hteq & _)]].
  - rewrite Hv, Hteq in *. eapply Hold. by apply (ei_voted _ _ _ _ HE).
  - exists k'. destruct (ei_core _ _ _ _ HE _ _ Hk) as (Hid & _).
    rewrite Heq at 1. simpl. rewrite Hid. split; [apply lookup_insert_eq|lia].
  - destruct (ei_req _ _ _ _ HE _ _ _ Hin) as (Hc & _).
    destruct (li_req _ _ _ HL _ _ _ Hin) as (ks & Hks & Hle & _).
    destruct (step_lookup _ _ Hks) as (ks' & ? & ?). rewrite Hv, Hteq, Hc.
    exists ks'. split; [done|lia].
Qed.

Lemma post_req src dst args :
  VoteReq src dst args ∈ net ++ ps →
  ∃ ks, m' !! src = Some ks ∧ (rv_Term args <= k_term ks)%N ∧
    (k_term ks = rv_Term args → k_state ks = Candidate →
     rv_LastLogTerm args = last_term (k_log ks) ∧ rv_LastLogIndex args = last_index (k_log ks)).
Proof.
  intros [Hin|Hin]%elem_of_app.
  - destruct (li_req _ _ _ HL _ _ _ Hin) as (ks & Hks & Hle & Hlast).
    destruct (step_lookup _ _ Hks) as (ks' & Hks' & Hle'). exists ks'. split_and!; [done|lia|].
    unfold m' in Hks'. rewrite lookup_insert in Hks'. case_decide as Hi; [subst src|naive_solver].
    injection Hks' as <-. rewrite Hk in Hks. injection Hks as <-. intros Hteq Hs.
    destruct (candidate_cases Hs) as [->|(Hc & Hteq' & ->)]; [simpl in Hteq; lia|].
    apply Hlast; [congruence|done].
  - exists k'. clear -Hin Ht HE Hk. destruct (ei_core _ _ _ _ HE _ _ Hk) as (Hid & _).
    destruct Ht; apply list_elem_of_In in Hin; simpl in Hin;
      try (apply in_map_iff in Hin as (q & Hq & _)); simplify_eq; try naive_solver.
    split_and!; [apply lookup_insert_eq|simpl; lia|done].
Qed.

(** The votes that a candidate has not got yet when it starts an election. *)
Lemma no_future_vote v u c : (v, u, c) ∈ g_votes g → c = i → ¬ (k_term k < u)%N.
Proof.
  intros Hv -> Hu. destruct (li_votes _ _ _ HL _ _ _ Hv) as (kc & Hkc & Hle).
  rewrite Hk in Hkc. injection Hkc as <-. lia.
Qed.

(** The terms of a log are bounded by its last one. *)
Lemma last_term_bound L j :
  lm (g_tl g) L → 0 < j → j < length L →
  ∃ T, g_tl g !! last_term L = Some T ∧ L `prefix_of` T ∧ (tm L j <= last_term L)%N.
Proof.
  intros Hlm Hj Hl. destruct (lm_at _ L (length L - 1) Hlm) as (T & HT & Hp); [lia..|].
  rewrite take_ge in Hp by lia. exists T. split_and!; [done..|].
  destruct (li_tl _ _ _ HL _ _ HT) as (_ & _ & _ & ld & _ & _ & _ & Hterms).
  rewrite (prefix_tm L T) by done. pose proof (prefix_length _ _ Hp).
  destruct (Hterms j) as [H1 H2]; [lia|].
  destruct (decide (j < ld_init ld)) as [?%H1|]; unfold last_term in *; [lia|].
  rewrite H2 by lia. lia.
Qed.

(** A log at least as up to date as one with an entry of its own term has that
    entry, unless the entry is dead. *)
Lemma uptodate_contains A B t T j :
  lm (g_tl g) A → lm (g_tl g) B → wf_list A → wf_list B →
  g_tl g !! t = Some T → own T t j → take (S j) T `prefix_of` A →
  (last_term A < last_term B)%N ∨ (last_term A = last_term B ∧ length A <= length B) →
  dead m g t j ∨ take (S j) T `prefix_of` B.
Proof.
  intros HlA HlB HwA HwB HT Ho Hp Hup. pose proof Ho as (Hj & HjT & Htm).
  assert (HjA : j < length A) by (apply take_prefix_len in Hp; lia).
  assert (HtA : tm A j = t).
  { rewrite <- (prefix_tm (take (S j) T) A), (prefix_tm _ T); [done|apply prefix_take|..];
      rewrite ?length_take; done || lia. }
  destruct (last_term_bound A j HlA Hj HjA) as (TA & HTA & HpA & Hle).
  assert (HB : 1 < length B).
  { destruct Hup as [Hlt|[_ ?]]; [|lia]. destruct (decide (1 < length B)); [done|].
    pose proof (wf_list_nonempty B HwB). destruct HwB as (HB0 & _).
    assert (Hl0 : last_term B = 0%N).
    { unfold last_term, tm. replace (length B - 1) with 0 by lia. by rewrite HB0. }
    lia. }
  destruct (last_term_bound B (length B - 1) HlB) as (TB & HTB & HpB & _); [lia..|].
  destruct Hup as [Hlt|[Heq Hlen]].
  - destruct (li_tl _ _ _ HL _ _ HTB) as (_ & _ & _ & ld & Hld & _ & Hinit & Hterms).
    destruct (li_complete _ _ _ HL t (last_term B) T TB ld j) as [|Hpre]; try done; [lia|by left|right].
    etrans; [exact Hpre|]. pose proof (prefix_length _ _ HpB).
    destruct (Hterms (length B - 1)) as [H1 _]; [lia|].
    rewrite <- (prefix_tm B TB) in H1 by (done || lia).
    apply take_prefix_mono; [done|].
    destruct (decide (ld_init ld <= length B)); [done|].
    assert (length B - 1 < ld_init ld) as ?%H1 by lia. unfold last_term in *. lia.
  - right. rewrite Heq, HTB in HTA. injection HTA as <-.
    transitivity A; [done|]. destruct (prefix_weak_total A B TB HpA HpB) as [|HBA]; [done|].
    rewrite (prefix_length_eq B A); done.
Qed.

Lemma p_up_to_date_spec args L :
  p_up_to_date args k = true → 0 < length L → wf_list (k_log k) →
  rv_LastLogTerm args = last_term L → rv_LastLogIndex args = last_index L →
  (last_term (k_log k) < last_term L)%N ∨
  (last_term (k_log k) = last_term L ∧ length (k_log k) <= length L).
Proof.
  unfold p_up_to_date. intros Hup HL0 Hwf E1 E2. rewrite E1, E2 in Hup. pose proof (wf_list_nonempty _ Hwf).
  destruct (N.eqb_spec (last_term L) (last_term (k_log k))) as [Heq|]; simpl in Hup.
  - right. unfold last_index in Hup. apply N.leb_le in Hup. split; [done|lia].
  - left. by apply N.ltb_lt.
Qed.

Lemma post_uptodate v c kc t T j :
  (v, k_term kc, c) ∈ g_votes g' → m' !! c = Some kc → k_state kc = Candidate →
  (t < k_term kc)%N → g_tl g' !! t = Some T → (v, t, j) ∈ g_acks g' →
  dead m' g' t j ∨ take (S j) T `prefix_of` k_log kc.
Proof.
  intros Hv Hc Hs Hlt HT Hack.
  assert (Hack0 : (v, t, j) ∈ g_acks g).
  { apply step_ack in Hack as [?|(-> & -> & _)]; [done|]. exfalso.
    destruct (ei_votes _ _ _ _ step_election _ _ _ Hv) as (_ & k1 & Hk1 & Hor).
    unfold m' in Hk1. rewrite lookup_insert_eq in Hk1. injection Hk1 as <-. lia. }
  destruct (li_acks _ _ _ HL _ _ _ Hack0) as (T0 & kv & HT0 & Ho & Hkv & Hle & Hd).
  destruct (step_tl_le _ _ HT0) as (T' & HT' & Hpre).
  unfold g' in *. rewrite HT in HT'. injection HT' as <-.
  rewrite <- (prefix_take_eq T0 T) by (done || (destruct Ho; lia)).
  cut (dead m g t j ∨ take (S j) T0 `prefix_of` k_log kc).
  { intros [?|?]; [left; by apply step_dead|by right]. }
  destruct (decide (c = i)) as [->|Hne].
  - unfold m' in Hc. rewrite lookup_insert_eq in Hc. injection Hc as <-.
    destruct (candidate_cases Hs) as [Heq|(Hsk & Hteq & Hlog)].
    + apply ghost_votes_spec in Hv as [Hv|(-> & _)].
      * destruct (no_future_vote _ _ _ Hv eq_refl). rewrite Heq. simpl. lia.
      * rewrite Hk in Hkv. injection Hkv as <-. rewrite Heq. done.
    + rewrite Hlog. rewrite Hteq in Hv, Hlt. apply (li_uptodate _ _ _ HL v i); try done.
      by apply old_self_vote.
  - unfold m' in Hc. rewrite lookup_insert_ne in Hc by done.
    apply ghost_votes_spec in Hv as [Hv|(-> & Hteq & -> & Hvn & Hcast)]; [by apply (li_uptodate _ _ _ HL v c)|].
    destruct (voted_step Hcast) as [(Hsk & Hv & Hteq')|[Heq|(src & args & Hin & Hv & Hteq' & Hup & _)]].
    + apply (li_uptodate _ _ _ HL i (k_voted k')); try done.
      rewrite Hteq, Hteq', Hv in *. by apply (ei_voted _ _ _ _ HE).
    + destruct Hne. rewrite Heq. simpl. by destruct (ei_core _ _ _ _ HE _ _ Hk).
    + destruct (ei_req _ _ _ _ HE _ _ _ Hin) as (Hcid & _). rewrite Hv, Hcid in *.
      destruct (li_req _ _ _ HL _ _ _ Hin) as (ks & Hks & _ & Hlast).
      rewrite Hc in Hks. injection Hks as <-. destruct Hlast as [Hlt' Hli]; [congruence|done|].
      destruct (li_log _ _ _ HL _ _ Hk) as [HwA HlA]. destruct (li_log _ _ _ HL _ _ Hc) as [HwB HlB].
      rewrite Hk in Hkv. injection Hkv as <-. destruct Hd as [|Hp]; [by left|].
      apply (uptodate_contains (k_log k)); try done.
      eapply p_up_to_date_spec; eauto using wf_list_nonempty.
Qed.

Lemma post_blocked c kc j :
  m' !! c = Some kc → k_state kc = Candidate → 0 < j → j < length (k_log kc) →
  (k_term kc <= tm (k_log kc) j)%N →
  ∃ ld, g_lead g' !! tm (k_log kc) j = Some ld ∧
    ∀ v, v ∈ ld_quorum ld → (v, k_term kc, c) ∉ g_votes g'.
Proof.
  intros Hc Hs Hj Hl Hge. destruct (decide (c = i)) as [->|Hne].
  - unfold m' in Hc. rewrite lookup_insert_eq in Hc. injection Hc as <-.
    destruct (candidate_cases Hs) as [Heq|(Hsk & Hteq & Hlog)].
    + assert (Hlog : k_log k' = k_log k) by by rewrite Heq.
      assert (Hteq : k_term k' = (k_term k + 1)%N) by by rewrite Heq.
      rewrite Hlog, Hteq in *. destruct (li_log _ _ _ HL _ _ Hk) as [_ Hlm].
      destruct (lm_at _ _ j Hlm Hj Hl) as (T & HT & _).
      destruct (li_tl _ _ _ HL _ _ HT) as (_ & _ & _ & ld & Hld & _).
      exists ld. split; [by apply ghost_lead_mono|].
      intros v Hv [Hvote|(-> & _)]%ghost_votes_spec.
      * destruct (no_future_vote _ _ _ Hvote eq_refl). lia.
      * destruct (ei_lead _ _ _ _ HE _ _ Hld) as (_ & HV & _).
        destruct (ei_votes _ _ _ _ HE _ _ _ (HV i Hv)) as (_ & k1 & Hk1 & Hor).
        rewrite Hk in Hk1. injection Hk1 as <-. lia.
    + rewrite Hlog, Hteq in *. destruct (li_blocked _ _ _ HL _ _ _ Hk Hsk Hj Hl Hge) as (ld & Hld & Hno).
      exists ld. split; [by apply ghost_lead_mono|]. intros v Hv Hvote.
      apply (Hno v Hv). by apply old_self_vote.
  - unfold m' in Hc. rewrite lookup_insert_ne in Hc by done.
    destruct (li_blocked _ _ _ HL _ _ _ Hc Hs Hj Hl Hge) as (ld & Hld & Hno).
    exists ld. split; [by apply ghost_lead_mono|].
    intros v Hv [Hvote|(-> & Hteq & -> & Hvn & _)]%ghost_votes_spec; [by apply (Hno v)|].
    destruct (ei_lead _ _ _ _ HE _ _ Hld) as (_ & HV & kl & Hkl & _ & Hnc).
    destruct (ei_votes _ _ _ _ HE _ _ _ (HV i Hv)) as (Hidn & k1 & Hk1 & Hor).
    rewrite Hk in Hk1. injection Hk1 as <-. destruct step_le as (_ & _ & Hle & Hkeep).
    destruct Hor as [?|[Htk Hvk]]; [lia|]. destruct Hkeep as [?|Hkeep]; [lia|congruence|].
    rewrite Hkeep, Hvk in Hc. rewrite Hc in Hkl. injection Hkl as <-. apply Hnc; [lia|done].
Qed.

(** *** Messages *)

Lemma step_safe_own s :
  (s <= k_term k)%N → safe_at m g s (k_log k) → safe_at m' g' s (k_log k').
Proof.
  intros Hs Hsafe. destruct log_cases as [Hlog|[Ha|(src & args & Hml & Hle & Hf & _)]].
  - rewrite Hlog. apply step_safe_at; [done|]. intros t j Ha. by destruct (not_appended t j (or_introl Hlog)).
  - destruct Ha as (_ & Hl' & _ & Hteq & _). apply (safe_at_le _ _ (k_term k')); [|lia].
    apply leader_safe. apply (post_leader i); [apply lookup_insert_eq|done].
  - destruct Hml as (_ & _ & _ & _ & _ & Hsafe' & _). apply step_safe_at.
    + eapply safe_at_le; [done|lia].
    + intros t j Ha. destruct (not_appended t j); [right; congruence|done].
Qed.

Lemma step_safe_other src s L :
  leads g src s → src ≠ i → safe_at m g s L → safe_at m' g' s L.
Proof.
  intros (ld & Hld & Hid) Hne Hsafe. apply step_safe_at; [done|]. intros t j Ha Hts. left.
  destruct (N.eq_dec t s) as [->|]; [|apply (appended_dead t j s ld Ha); [lia|by apply ghost_lead_mono]].
  destruct Ha as (Hl & _ & -> & _).
  destruct (ei_leader _ _ _ _ HE _ _ Hk Hl) as (ld' & Hld' & Hid'). congruence.
Qed.

(** The heartbeat goroutines that a transition starts. *)
Lemma new_hb src dst s leader commit :
  HbTask src dst s leader commit ∈ ps →
  src = i ∧ dst ∈ k_peers k ∧ s = k_term k ∧ commit = k_commit k ∧ k' = k ∧ k_state k = Leader.
Proof.
  clear -Ht. intros Hin. destruct Ht; apply list_elem_of_In in Hin; simpl in Hin;
    try (apply in_map_iff in Hin as (q & Hq & Hin')); simplify_eq; try naive_solver.
  by apply list_elem_of_In in Hin'.
Qed.

(** What a leader's goroutines rely on. *)
Lemma post_hb src dst s leader commit :
  HbTask src dst s leader commit ∈ net ++ ps →
  dst ∈ peers_of ids src ∧ leads g' src s ∧
  ∃ ks, m' !! src = Some ks ∧ (s <= k_term ks)%N ∧
    safe_at m' g' s (k_log ks) ∧ commit_ok g' s (N.to_nat commit) (k_log ks).
Proof.
  intros [Hin|Hin]%elem_of_app.
  - destruct (li_hb _ _ _ HL _ _ _ _ _ Hin) as (Hdst & Hlead & ks & Hks & Hle & Hsafe & Hcom).
    split_and!; [done|by apply step_leads|]. unfold m'. rewrite lookup_insert.
    case_decide as His; [subst src|exists ks; split_and!; eauto using step_safe_other, step_commit_ok].
    rewrite Hk in Hks. injection Hks as <-. exists k'. destruct step_le as (_ & _ & Hle' & _).
    split_and!; [done|lia|by apply step_safe_own|by apply step_commit_keeps].
  - destruct (new_hb _ _ _ _ _ Hin) as (-> & Hdst & -> & -> & Heq & Hl).
    destruct (ei_core _ _ _ _ HE _ _ Hk) as (_ & Hpeers & _). rewrite Hpeers in Hdst.
    destruct (ei_leader _ _ _ _ HE _ _ Hk Hl) as (ld & Hld & Hid).
    split_and!; [done|apply step_leads; by exists ld|]. exists k'.
    split_and!; [apply lookup_insert_eq|by rewrite Heq| |].
    + rewrite <- Heq at 1. apply leader_safe. apply (post_leader i); [apply lookup_insert_eq|congruence].
    + apply step_commit_keeps; [lia|]. by apply (li_commit _ _ _ HL i).
Qed.

(** The request that a leader, or a goroutine of a former leader, builds. *)
Lemma args_ok p s leader c :
  (0 < map_get 0 (k_next k') p)%N → leads g' i s → (s <= k_term k')%N →
  safe_at m' g' s (k_log k') → commit_ok g' s (N.to_nat c) (k_log k') →
  msg_ok m' g' i (p_args p s leader c k').
Proof.
  intros Hnext Hlead Hle Hsafe Hcom. destruct post_log_i as [Hwf Hlm].
  pose proof (wf_list_nonempty _ Hwf). unfold msg_ok, msg_log, p_args. simpl.
  set (next := map_get 0%N (k_next k') p) in *.
  destruct (decide (N.to_nat (next - 1) < length (k_log k'))) as [Hlt|Hge].
  - right. exists (k_log k'). split_and!; try done.
    + f_equal. lia.
    + destruct (N.eq_dec s (k_term k')) as [->|].
      * left. exists (k_log k'). split; [|done].
        apply (post_stays i); [done|apply lookup_insert_eq|done].
      * right. exists k'. split; [apply lookup_insert_eq|lia].
  - left. split_and!; [lia| |by apply drop_ge; lia].
    unfold tm. by rewrite lookup_ge_None_2 by lia.
Qed.

Lemma post_app src dst hb args :
  AppReq src dst hb args ∈ net ++ ps →
  dst ∈ peers_of ids src ∧ leads g' src (ae_Term args) ∧ msg_ok m' g' src args.
Proof.
  intros [Hin|Hin]%elem_of_app.
  { destruct (li_app _ _ _ HL _ _ _ _ Hin) as (? & ? & ?).
    split_and!; [done|by apply step_leads|by apply step_msg_ok]. }
  destruct (ei_core _ _ _ _ HE _ _ Hk) as (_ & Hpeers & _).
  assert (Hnew : src = i ∧ k' = k ∧ ∃ leader c, args = p_args dst (ae_Term args) leader c k ∧
    (HbTask i dst (ae_Term args) leader c ∈ net ∨
     (k_state k = Leader ∧ dst ∈ k_peers k ∧ ae_Term args = k_term k ∧ c = k_commit k))).
  { clear -Hin Ht. destruct Ht; apply list_elem_of_In in Hin; simpl in Hin;
      try (apply in_map_iff in Hin as (q & Hq & Hin')); simplify_eq; try naive_solver. }
  destruct Hnew as (-> & Heq & leader & c & Hargs & Hor).
  assert (Hs : dst ∈ peers_of ids i ∧ leads g i (ae_Term args) ∧ (ae_Term args <= k_term k)%N ∧
    safe_at m' g' (ae_Term args) (k_log k') ∧ commit_ok g' (ae_Term args) (N.to_nat c) (k_log k')).
  { destruct Hor as [Hin'|(Hl & Hdst & -> & ->)].
    - destruct (li_hb _ _ _ HL _ _ _ _ _ Hin') as (Hdst & Hlead & ks & Hks & Hle & Hsafe & Hcom).
      rewrite Hk in Hks. injection Hks as <-.
      split_and!; [done|done|lia|by apply step_safe_own|by apply step_commit_keeps].
    - destruct (ei_leader _ _ _ _ HE _ _ Hk Hl) as (ld & Hld & Hid). rewrite Hpeers in Hdst.
      split_and!; [done|by exists ld|lia| |].
      + rewrite <- Heq at 1. apply leader_safe. apply (post_leader i); [apply lookup_insert_eq|congruence].
      + apply step_commit_keeps; [lia|]. by apply (li_commit _ _ _ HL i). }
  destruct Hs as (Hdst & Hlead & Hle & Hsafe & Hcom).
  split_and!; [done|by apply step_leads|]. rewrite Hargs, <- Heq.
  apply args_ok; try done; [|by apply step_leads|by rewrite Heq].
  rewrite Heq. apply (li_next _ _ _ HL i); [done..|].
  destruct Hor as [?|(? & _)]; [right; eauto|by left].
Qed.

Lemma post_rep src dst hb args reply e :
  AppRep src dst hb args reply ∈ net ++ ps → aer_Success reply = true →
  last (ae_Entries args) = Some e →
  (∃ ks, m' !! src = Some ks ∧ (ae_Term args < k_term ks)%N) ∨
  acked_to g' dst (ae_Term args) (e_Index e).
Proof.
  assert (Hup : (∃ ks, m !! src = Some ks ∧ (ae_Term args < k_term ks)%N) →
                ∃ ks, m' !! src = Some ks ∧ (ae_Term args < k_term ks)%N).
  { intros (ks & Hks & ?). destruct (step_lookup _ _ Hks) as (ks' & ? & ?). exists ks'. split; [done|lia]. }
  intros [Hin|Hin]%elem_of_app Hok He.
  { destruct (li_rep _ _ _ HL _ _ _ _ _ _ Hin Hok He); [left; auto|right; by apply step_acked_to]. }
  assert (Hnew : dst = i ∧ AppReq src i hb args ∈ net ∧ p_append args k = (k', reply)).
  { clear -Hin Ht. destruct Ht; apply list_elem_of_In in Hin; simpl in Hin;
      try (apply in_map_iff in Hin as (q & Hq & Hin')); simplify_eq; try naive_solver.
    destruct Hin as [[= -> <- <- <- <-]|[]]. split_and!; [done..|]. by destruct (p_append args0 k). }
  destruct Hnew as (-> & Hreq & E).
  apply p_append_cases in E as [(_ & _ & ->)|(Hle & [(ct & ci & _ & _ & ->)|(Hc & Hk' & _)])]; [done..|].
  assert (Hpost : k_term k' = ae_Term args ∧
    k_log k' = merge_log (k_log k) (S (N.to_nat (ae_PrevLogIndex args))) (ae_Entries args)).
  { rewrite Hk'. match goal with |- context [p_follow_commit ?lc ?x] =>
      destruct (p_follow_commit_same lc x) as (_&_&->&_&->&_) end. simpl. rewrite p_observe_term. split; [lia|done]. }
  destruct Hpost as [Hteq Hlog]. destruct (accepted _ _ _ Hreq Hc) as (L & Hml & Hres).
  assert (HLk : L `prefix_of` k_log k').
  { rewrite Hlog. by destruct Hres as [[-> ?]|[-> _]]. }
  destruct Hml as ((_ & Hidx & _) & _ & Hprev & _ & Hes & _ & _ & [(T & HT & HLT)|Hgone]);
    [right|left; auto].
  destruct (step_tl_le _ _ HT) as (T' & HT' & Hpre).
  assert (HeL : L !! (length L - 1) = Some e ∧ 0 < length L).
  { rewrite last_lookup, Hes, length_drop, lookup_drop in He. split; [|lia].
    rewrite <- He. f_equal. apply lookup_lt_Some in He. lia. }
  destruct HeL as [HeL HL0]. apply Hidx in HeL. assert (HLT' : L `prefix_of` T') by by transitivity T.
  pose proof (prefix_length _ _ HLT').
  exists T'. split_and!; [done|lia|]. intros j (Hj & HjT & Htm) Hje.
  apply ghost_acks_spec. right. split_and!; [done..|]. exists T'. split; [done|].
  unfold holds. split_and!; [done..| |done].
  rewrite <- (prefix_take_eq L T') by (done || lia). etrans; [apply prefix_take|done].
Qed.

(** *** The leader's indices *)

Lemma p_advance_cases c :
  p_advance c = c ∨
  ∃ x, sort_desc (p_match_indices c) !! ((length (k_peers c) + 1) / 2) = Some x ∧
    (k_commit c < x)%N ∧ (x < N.of_nat (length (k_log c)))%N ∧
    tm (k_log c) (N.to_nat x) = k_term c ∧ p_advance c = p_set_commit x c.
Proof.
  unfold p_advance. destruct (sort_desc _ !! _) as [x|]; [|by left].
  destruct (_ && _) eqn:E; [right|by left]. bool_to_prop. by exists x.
Qed.

(** The indices after a transition. *)
Definition advanced (c : core) : Prop :=
  sort_desc (p_match_indices c) !! ((length (k_peers c) + 1) / 2) = Some (k_commit c) ∧
  (0 < k_commit c)%N ∧ (k_commit c < N.of_nat (length (k_log c)))%N ∧
  tm (k_log c) (N.to_nat (k_commit c)) = k_term c.

Lemma p_success_indices p x c :
  (k_next (p_success p x c) = k_next c ∨ k_next (p_success p x c) = <[p := (x + 1)%N]> (k_next c)) ∧
  (k_match (p_success p x c) = k_match c ∨ k_match (p_success p x c) = <[p := x]> (k_match c)) ∧
  (k_commit (p_success p x c) = k_commit c ∨ advanced (p_success p x c)).
Proof.
  unfold p_success. set (c1 := if (map_get _ _ p <? x + 1)%N then _ else _).
  assert (H1 : (k_next c1 = k_next c ∨ k_next c1 = <[p := (x + 1)%N]> (k_next c)) ∧
               k_match c1 = k_match c ∧ k_commit c1 = k_commit c).
  { unfold c1. case_match; auto. }
  set (c2 := if (map_get _ _ p <? x)%N then _ else _).
  assert (H2 : (k_match c2 = k_match c1 ∨ k_match c2 = <[p := x]> (k_match c1)) ∧
               k_next c2 = k_next c1 ∧ k_commit c2 = k_commit c1).
  { unfold c2. destruct (_ <? x)%N; auto. }
  clearbody c2 c1. destruct H1 as (Hn & Hm & Hc), H2 as (Hm2 & Hn2 & Hc2).
  destruct (p_advance_cases c2) as [->|(y & Hy & Hcy & Hly & Hty & ->)].
  - rewrite Hn2, Hc2, Hc. rewrite Hm in Hm2. auto.
  - simpl. rewrite Hn2. rewrite Hm in Hm2. split_and!; [done..|]. right.
    unfold advanced. simpl. split_and!; [done|lia|done..].
Qed.

Lemma p_conflict_indices p reply c :
  (0 < aer_ConflictTerm reply → 0 < aer_ConflictIndex reply)%N →
  (k_next (p_conflict p reply c) = k_next c ∨
   ∃ x, (0 < x)%N ∧ k_next (p_conflict p reply c) = <[p := x]> (k_next c)) ∧
  k_match (p_conflict p reply c) = k_match c ∧ k_commit (p_conflict p reply c) = k_commit c.
Proof.
  intros Hh. unfold p_conflict. cbv zeta. split_ifs; simpl; (split; [|done]); [right..|by left];
    eexists; (split; [|done]); auto; lia.
Qed.

(** Which transitions change the indices. *)
Lemma indices_step :
  (k_next k' = k_next k ∧ k_match k' = k_match k ∧ k_commit k' = k_commit k ∧
   (k_state k' = Leader → k_state k = Leader)) ∨
  (∃ p, k' = p_lead (p_count p k)) ∨
  (∃ p hb args reply e, AppRep i p hb args reply ∈ net ∧ k_state k = Leader ∧
     k_term k = ae_Term args ∧ aer_Success reply = true ∧ last (ae_Entries args) = Some e ∧
     k' = p_success p (e_Index e) k) ∨
  (∃ p hb args reply, AppRep i p hb args reply ∈ net ∧ k_state k = Leader ∧ k_term k = ae_Term args ∧
     k' = p_conflict p reply k) ∨
  (∃ src hb args, AppReq src i hb args ∈ net ∧ k_state k' = Follower ∧
     p_check_prev args (k_log k) = None ∧ k_term k' = ae_Term args ∧
     k_log k' = merge_log (k_log k) (S (N.to_nat (ae_PrevLogIndex args))) (ae_Entries args) ∧
     k_next k' = k_next k ∧ k_match k' = k_match k ∧
     (k_commit k' = k_commit k ∨
      k_commit k' = N.min (last_index (k_log k')) (ae_LeaderCommit args))).
Proof.
  clear -Ht. destruct Ht as
    [| |src args Hin|p term reply _|_|p term leader commit _|p _ _ _|src hb args Hin
     |p hb args reply Hin|cmd _]; try (left; by split_and!).
  - left. destruct (p_vote args k) as [k1 r] eqn:E. simpl.
    apply p_vote_cases in E as [[-> _]|(-> & _)];
      destruct (p_observe_cases (rv_Term args) k) as [[? ->]|[? ->]]; by split_and!.
  - destruct (p_vote_reply_cases p term reply k)
      as [->|[[? ->]|(_ & ? & _ & _ & [->|[-> _]])]]; try (left; by split_and!). right. left. eauto.
  - destruct (p_append args k) as [k1 r] eqn:E. simpl.
    apply p_append_cases in E as [(_ & -> & _)|(Hle & [(ct & ci & _ & -> & _)|(Hc & -> & _)])].
    + left. by split_and!.
    + left. simpl. destruct (p_observe_cases (ae_Term args) k) as [[? ->]|[? ->]]; by split_and!.
    + right. right. right. right. exists src, hb, args. split_and!; try done.
      all: unfold p_follow_commit; destruct (p_observe_cases (ae_Term args) k) as [[? ->]|[? ->]];
           simpl; case_match; simpl; auto; lia.
  - destruct (p_append_reply_cases p args reply k)
      as [->|[[? ->]|(Hl & Hteq & _ & [(e & ? & ? & ->)|(_ & ->)])]]; try (left; by split_and!).
    + right. right. left. exists p, hb, args, reply, e. by split_and!.
    + right. right. right. left. exists p, hb, args, reply. by split_and!.
Qed.

Lemma post_next j kj p :
  m' !! j = Some kj → p ∈ peers_of ids j →
  k_state kj = Leader ∨ (∃ s leader commit, HbTask j p s leader commit ∈ net ++ ps) →
  (0 < map_get 0 (k_next kj) p)%N.
Proof.
  intros Hj Hp Hor. destruct (decide (j = i)) as [->|Hne].
  2: { unfold m' in Hj. rewrite lookup_insert_ne in Hj by done. apply (li_next _ _ _ HL j); [done..|].
       destruct Hor as [?|(s & l & c & [Hin|(-> & _)%new_hb]%elem_of_app)]; [by left|right; eauto|done]. }
  unfold m' in Hj. rewrite lookup_insert_eq in Hj. injection Hj as <-.
  destruct (ei_core _ _ _ _ HE _ _ Hk) as (_ & Hpeers & _).
  assert (Hins : ∀ q x (M : gmap NodeID LogIndex),
    (0 < x)%N → (0 < map_get 0 M p)%N → (0 < map_get 0 (<[q := x]> M) p)%N).
  { intros q x M Hx HM. unfold map_get in *. rewrite lookup_insert. by case_decide. }
  assert (Hold : k_state k = Leader ∨ k_state k' ≠ Leader → (0 < map_get 0 (k_next k) p)%N).
  { intros Hor'. apply (li_next _ _ _ HL i); [done..|]. destruct (decide (k_state k = Leader)); [by left|right].
    destruct Hor as [?|(s & l & c & [Hin|Hin]%elem_of_app)]; [naive_solver|eauto|].
    by apply new_hb in Hin as (_ & _ & _ & _ & _ & ?). }
  destruct indices_step as [(-> & _ & _ & Hs)|[(q & ->)|[Hsu|[Hco|(_&_&_&_&Hf&_&_&_&->&_)]]]].
  - apply Hold. destruct (k_state k'); auto.
  - unfold map_get. simpl. rewrite lookup_foldl_insert by (by rewrite Hpeers). simpl. lia.
  - destruct Hsu as (q & hb & args & reply & e & _ & Hl & _ & _ & _ & ->).
    destruct (p_success_indices q (e_Index e) k) as ([->| ->] & _); auto. apply Hins; [lia|auto].
  - destruct Hco as (q & hb & args & reply & Hin & Hl & _ & ->).
    destruct (p_conflict_indices q reply k) as ([->|(x & Hx & ->)] & _); auto.
    by apply (li_hint _ _ _ HL i q hb args).
  - apply Hold. right. congruence.
Qed.

(** The conflict index of a reply that names a conflict term. *)
Lemma p_check_prev_hint args L ct ci :
  p_check_prev args L = Some (ct, ci) → (0 < ct → 0 < ci)%N.
Proof.
  clear. intros Hc. unfold p_check_prev in Hc. split_ifs; simplify_eq; [lia|].
  intros _. destruct (FindFirstIndexOfTerm_correct (mkLog L)
    (tm L (N.to_nat (ae_PrevLogIndex args)))) as [(j & e & Hf & _)|(_ & Hno)];
    [unfold first_of_term; rewrite Hf; lia|].
  exfalso. destruct (lookup_lt_is_Some_2 L (N.to_nat (ae_PrevLogIndex args))) as [e He]; [lia|].
  apply (Hno (N.to_nat (ae_PrevLogIndex args) - 1) e); [|by rewrite (tm_lookup _ _ _ He)].
  simpl. rewrite <- He. f_equal. lia.
Qed.

Lemma post_hint src dst hb args reply :
  AppRep src dst hb args reply ∈ net ++ ps →
  (0 < aer_ConflictTerm reply → 0 < aer_ConflictIndex reply)%N.
Proof.
  intros [Hin|Hin]%elem_of_app; [by apply (li_hint _ _ _ HL src dst hb args)|].
  assert (Hnew : p_append args k = (k', reply)).
  { clear -Hin Ht. destruct Ht; apply list_elem_of_In in Hin; simpl in Hin;
      try (apply in_map_iff in Hin as (q & Hq & Hin')); simplify_eq; try naive_solver.
    destruct Hin as [[= -> <- <- <- <-]|[]]. by destruct (p_append args0 k). }
  apply p_append_cases in Hnew as [(_ & _ & ->)|(Hle & [(ct & ci & Hc & _ & ->)|(_ & _ & ->)])]; try done.
  simpl. by eapply p_check_prev_hint.
Qed.

Lemma post_match j kj p x :
  m' !! j = Some kj → k_state kj = Leader → p ∈ k_peers kj → k_match kj !! p = Some x →
  acked_to g' p (k_term kj) x.
Proof.
  intros Hj Hs Hp Hx. destruct (decide (j = i)) as [->|Hne].
  2: { unfold m' in Hj. rewrite lookup_insert_ne in Hj by done.
       apply step_acked_to. by eapply (li_match _ _ _ HL j). }
  pose proof (post_leader _ _ Hj Hs) as HT.
  unfold m' in Hj. rewrite lookup_insert_eq in Hj. injection Hj as <-.
  destruct (step_leader Hs) as [Hteq _]. destruct step_le as (_ & Hpeers & _). rewrite Hpeers in Hp.
  assert (Hold : k_state k = Leader → k_match k !! p = Some x → acked_to g' p (k_term k') x).
  { intros. rewrite Hteq. apply step_acked_to. by eapply (li_match _ _ _ HL i). }
  destruct indices_step as [(_ & Hm & _ & Hl)|[(q & Heq)|[Hsu|[Hco|(_&_&_&_&Hf&_)]]]].
  - rewrite Hm in Hx. auto.
  - assert (x = 0%N) as ->.
    { rewrite Heq in Hx. simpl in Hx. rewrite lookup_foldl_insert in Hx by done. by injection Hx. }
    destruct post_log_i as [Hwf%wf_list_nonempty _].
    exists (k_log k'). split_and!; [done|lia|]. intros y (Hy & _) ?. lia.
  - destruct Hsu as (q & hb & args & reply & e & Hin & Hl & Hta & Hok & He & Heq).
    destruct (p_success_indices q (e_Index e) k) as (_ & [Hm|Hm] & _); rewrite Heq, Hm in Hx; auto.
    rewrite lookup_insert in Hx. case_decide as Hqp; [|auto]. subst q. injection Hx as <-.
    destruct (li_rep _ _ _ HL _ _ _ _ _ _ Hin Hok He) as [(ks & Hks & Hlt)|Hack].
    + rewrite Hk in Hks. injection Hks as <-. lia.
    + rewrite Hteq, Hta. by apply step_acked_to.
  - destruct Hco as (q & hb & args & reply & Hin & Hl & _ & Heq).
    destruct (p_conflict_indices q reply k) as (_ & Hm & _).
    { by apply (li_hint _ _ _ HL i q hb args). }
    rewrite Heq, Hm in Hx. auto.
  - congruence.
Qed.

(** The commit rule: an entry of the current term in the middle of the sorted
    match indices is chosen. *)
Lemma advanced_chosen :
  k_state k' = Leader → advanced k' → chosen g' (k_term k') (N.to_nat (k_commit k')).
Proof.
  intros Hs (Hsort & Hpos & Hlen & Htm). set (x := k_commit k') in *.
  assert (HT : g_tl g' !! k_term k' = Some (k_log k')).
  { apply (post_leader i); [apply lookup_insert_eq|done]. }
  assert (Ho : own (k_log k') (k_term k') (N.to_nat x)) by (unfold own; split_and!; [lia..|done]).
  destruct (ei_core _ _ _ _ step_election i k') as (_ & Hpeers & Hi); [apply lookup_insert_eq|].
  set (f p := if decide (p = i) then last_index (k_log k') else map_get 0%N (k_match k') p).
  assert (Hmi : p_match_indices k' = f <$> i :: peers_of ids i).
  { unfold p_match_indices. rewrite Hpeers. simpl. unfold f at 1. rewrite decide_True by done. f_equal.
    apply list_fmap_ext. intros n p Hp%list_elem_of_lookup_2%elem_of_peers_of.
    unfold f. rewrite decide_False by tauto. done. }
  assert (Hnd : NoDup (i :: peers_of ids i)).
  { apply NoDup_cons. rewrite elem_of_peers_of. split; [tauto|]. unfold peers_of. by apply NoDup_filter. }
  exists (list_to_set (filter (λ p, (x <= f p)%N) (i :: peers_of ids i))). split; [split|].
  - unfold members. intros p. rewrite !elem_of_list_to_set, list_elem_of_filter, elem_of_cons, elem_of_peers_of.
    intros (_ & [->|[? _]]); done.
  - rewrite size_list_to_set by (by apply NoDup_filter).
    apply sort_desc_count in Hsort. rewrite Hmi, length_filter_fmap, Hpeers, peers_of_length in Hsort by done.
    lia.
  - intros p. rewrite elem_of_list_to_set, list_elem_of_filter. intros [Hf Hp].
    unfold f in Hf. case_decide as Hpi.
    + subst p. apply ghost_acks_spec. right. split_and!; [done..|]. exists (k_log k'). split; [done|].
      destruct Ho as (? & ? & ?). unfold holds. split_and!; [done..|apply prefix_take|done].
    + assert (Hpp : p ∈ peers_of ids i) by (apply elem_of_cons in Hp as [?|?]; [congruence|done]).
      unfold map_get in Hf. destruct (k_match k' !! p) as [y|] eqn:Hy; simpl in Hf; [|lia].
      destruct (post_match i k' p y) as (T & HT' & _ & Hack);
        [apply lookup_insert_eq|done|by rewrite Hpeers|done|].
      rewrite HT in HT'. injection HT' as <-. apply Hack; [done|lia].
Qed.

Lemma post_commit j kj :
  m' !! j = Some kj → commit_ok g' (k_term kj) (N.to_nat (k_commit kj)) (k_log kj).
Proof.
  intros Hj. destruct (decide (j = i)) as [->|Hne].
  2: { unfold m' in Hj. rewrite lookup_insert_ne in Hj by done.
       apply step_commit_ok. by apply (li_commit _ _ _ HL j). }
  unfold m' in Hj. rewrite lookup_insert_eq in Hj. injection Hj as <-.
  destruct step_le as (_ & _ & Hle & _).
  assert (Hold : k_commit k' = k_commit k → commit_ok g' (k_term k') (N.to_nat (k_commit k')) (k_log k')).
  { intros ->. eapply commit_ok_le; [apply (step_commit_keeps (k_term k))| | |]; try done.
    by apply (li_commit _ _ _ HL i). }
  destruct indices_step as [(_ & _ & Hc & _)|[(q & ->)|[Hsu|[Hco|Happ]]]]; [by auto|by auto|..].
  - destruct Hsu as (q & hb & args & reply & e & Hin & Hl & Hta & Hok & He & Heq).
    destruct (p_success_indices q (e_Index e) k) as (_ & _ & [Hc|Hadv]); rewrite <- Heq in *; [auto|].
    assert (Hs : k_state k' = Leader).
    { rewrite Heq. by destruct (p_success_same q (e_Index e) k) as (_&_&_&_&_&->&_). }
    pose proof (advanced_chosen Hs Hadv) as Hch. destruct Hadv as (_ & Hpos & Hlen & Htm).
    right. exists (k_term k'), (k_log k'), (N.to_nat (k_commit k')).
    split_and!; try done; [|unfold own; split_and!; [lia..|done]|apply prefix_take].
    apply (post_leader i); [apply lookup_insert_eq|done].
  - destruct Hco as (q & hb & args & reply & Hin & Hl & _ & Heq). apply Hold. rewrite Heq.
    apply p_conflict_indices. by apply (li_hint _ _ _ HL i q hb args).
  - destruct Happ as (src & hb & args & Hin & _ & Hck & Hteq & Hlog & _ & _ & [Hc|Hc]); [auto|].
    destruct (accepted _ _ _ Hin Hck) as (L & Hml & Hres). rewrite Hteq, Hc.
    destruct Hml as (_ & _ & _ & _ & _ & _ & Hcom & _). apply step_commit_ok in Hcom.
    eapply commit_ok_le; [exact Hcom|done|lia|]. rewrite Hlog. by destruct Hres as [[-> ?]|[-> _]].
Qed.

Lemma log_inv_trans : log_inv m' (net ++ ps) g'.
Proof.
  constructor; eauto using post_log, post_tl, post_lead, post_leader, post_stays, post_complete,
    post_acks, post_candidate, post_votes, post_req, post_uptodate, post_blocked, post_hb,
    post_app, post_rep, post_match, post_commit, post_next.
  apply post_hint.
Qed.

(** The committed prefix of a server's log stays. *)
Lemma commit_prefix_step :
  (k_commit k <= k_commit k')%N ∧
  take (S (N.to_nat (k_commit k))) (k_log k) `prefix_of` k_log k'.
Proof.
  assert (Hp : take (S (N.to_nat (k_commit k))) (k_log k) `prefix_of` k_log k').
  { destruct (li_commit _ _ _ HL _ _ Hk) as [->|(t & T & j & Hts & HT & Ho & Hch & Hcj & Hp)].
    - pose proof (proj1 (li_log _ _ _ HL _ _ Hk)) as (H0 & _).
      destruct post_log_i as [(H0' & _) _]. destruct (k_log k), (k_log k'); simplify_eq/=.
      apply prefix_cons, prefix_nil.
    - rewrite <- (prefix_take_eq (take (S (N.to_nat (k_commit k))) T) (k_log k)); [|done|].
      2: { rewrite length_take. destruct Ho. lia. }
      rewrite take_take, Nat.min_id. destruct (step_keeps t T j (take (S (N.to_nat (k_commit k))) T));
        try done; [apply take_take_prefix; lia|]. by destruct (chosen_not_dead m g t j Hch). }
  split; [|done].
  assert (Hlen : (k_commit k <= last_index (k_log k'))%N).
  { pose proof (wf_list_nonempty _ (proj1 (li_log _ _ _ HL _ _ Hk))) as H0.
    pose proof (commit_ok_length _ _ _ _ (li_commit _ _ _ HL _ _ Hk) H0).
    apply take_prefix_len in Hp; [|lia]. unfold last_index. lia. }
  clear Hp. destruct Ht as
    [| |src args Hin|p term reply _|_|p term leader commit _|p _ _ _|src hb args Hin
     |p hb args reply Hin|cmd _]; simpl; try lia.
  - destruct (p_vote args k) as [k1 r] eqn:E. simpl.
    apply p_vote_cases in E as [[-> _]|(-> & _)];
      destruct (p_observe_cases (rv_Term args) k) as [[? ->]|[? ->]]; simpl; lia.
  - destruct (p_vote_reply_cases p term reply k)
      as [->|[[? ->]|(_ & ? & _ & _ & [->|[-> _]])]]; simpl; lia.
  - destruct (p_append args k) as [k1 r] eqn:E. simpl in *.
    apply p_append_cases in E as [(_ & -> & _)|(Hle & [(ct & ci & _ & -> & _)|(Hc & -> & _)])];
      [lia|simpl; destruct (p_observe_cases (ae_Term args) k) as [[? ->]|[? ->]]; simpl; lia|].
    unfold p_follow_commit in *. destruct (p_observe_cases (ae_Term args) k) as [[? Ho]|[? Ho]];
      rewrite Ho in *; simpl in *; split_ifs; simpl in *; lia.
  - destruct (p_append_reply_cases p args reply k)
      as [->|[[? ->]|(Hl & Hteq & _ & [(e & ? & ? & ->)|(_ & ->)])]]; simpl; try lia.
    + unfold p_success. set (c1 := if (_ <? e_Index e + 1)%N then _ else _).
      assert (Hc1 : k_commit c1 = k_commit k) by (unfold c1; by destruct (_ <? _ + 1)%N).
      set (c2 := if (_ <? e_Index e)%N then _ else _).
      assert (Hc2 : k_commit c2 = k_commit k) by (unfold c2; by destruct (_ <? e_Index e)%N).
      destruct (p_advance_cases c2) as [->|(x & _ & Hx & _ & _ & ->)]; simpl; lia.
    + unfold p_conflict. cbv zeta. split_ifs; simpl; lia.
Qed.
End step.

(** ** A restart that gives back the log *)

Section restart.
Context (m : gmap NodeID core) (net : list packet) (g : ghost) (i : NodeID) (k : core) (v : NodeID).
Context (HL : log_inv m net g) (Hk : m !! i = Some k).

Let k' := p_restarted v (k_log k) k.
Let m' := <[i := k']> m.
Let net' := List.filter (λ p, negb (goroutine_of i p)) net.

Lemma restart_net pkt : pkt ∈ net' → pkt ∈ net ∧ goroutine_of i pkt = false.
Proof.
  unfold net'. intros Hin. apply list_elem_of_In, filter_In in Hin as [Hin%list_elem_of_In Hg].
  by apply negb_true_iff in Hg.
Qed.

(** Every server has the term and the log that it had. *)
Lemma restart_lookup j kj :
  m !! j = Some kj → ∃ kj', m' !! j = Some kj' ∧ k_term kj' = k_term kj ∧ k_log kj' = k_log kj.
Proof.
  intros Hj. unfold m'. rewrite lookup_insert. case_decide as Hij; [|by exists kj].
  subst j. rewrite Hk in Hj. injection Hj as <-. by exists k'.
Qed.

Lemma restart_lookup_inv j kj :
  m' !! j = Some kj →
  ∃ k0, m !! j = Some k0 ∧ k_term kj = k_term k0 ∧ k_log kj = k_log k0 ∧
    ((j = i ∧ kj = k') ∨ (j ≠ i ∧ kj = k0)).
Proof.
  unfold m'. rewrite lookup_insert. case_decide as Hij.
  - subst j. intros [= <-]. exists k. split_and!; [done..|by left].
  - intros Hj. exists kj. split_and!; [done..|]. right. split; congruence.
Qed.

Lemma restart_running j kj : m' !! j = Some kj → k_state kj ≠ Follower → j ≠ i ∧ m !! j = Some kj.
Proof. intros (k0 & Hj & _ & _ & [[-> ->]|[? ->]])%restart_lookup_inv Hs; done. Qed.

Lemma restart_above j t :
  (∃ kj, m !! j = Some kj ∧ (t < k_term kj)%N) → ∃ kj, m' !! j = Some kj ∧ (t < k_term kj)%N.
Proof.
  intros (kj & Hj & Hlt). destruct (restart_lookup _ _ Hj) as (kj' & ? & Ht & _).
  exists kj'. by rewrite Ht.
Qed.

Lemma restart_dead t j : dead m g t j → dead m' g t j.
Proof.
  intros (Q & HQ & Hd). exists Q. split; [done|]. intros x Hx. destruct (Hd x Hx) as [? ?].
  split; [by apply restart_above|done].
Qed.

Lemma restart_safe_at s L : safe_at m g s L → safe_at m' g s L.
Proof. intros Hs t T j Ht HT Ho. destruct (Hs t T j Ht HT Ho); [left; by apply restart_dead|by right]. Qed.

Lemma restart_msg_ok src args : msg_ok m g src args → msg_ok m' g src args.
Proof.
  intros [?|(L & ? & ? & ? & ? & ? & Hsafe & ? & Hor)]; [by left|]. right. exists L.
  split_and!; try done; [by apply restart_safe_at|]. destruct Hor; [by left|right; by apply restart_above].
Qed.

Lemma log_inv_restart : log_inv m' net' g.
Proof.
  assert (Hdead : ∀ t j P, dead m g t j ∨ P → dead m' g t j ∨ P) by (intros ??? [?%restart_dead|]; auto).
  constructor.
  - intros j kj (k0 & Hj & _ & -> & _)%restart_lookup_inv. by apply (li_log _ _ _ HL j).
  - apply (li_tl _ _ _ HL).
  - apply (li_lead _ _ _ HL).
  - intros j kj Hj Hs. destruct (restart_running j kj Hj) as [_ Hj']; [congruence|]. by apply (li_leader _ _ _ HL j).
  - intros j t kj Hl (k0 & Hj & -> & -> & _)%restart_lookup_inv. by apply (li_stays _ _ _ HL j).
  - intros. apply Hdead. by eapply (li_complete _ _ _ HL).
  - intros x t j Hack. destruct (li_acks _ _ _ HL _ _ _ Hack) as (T & kx & HT & Ho & Hx & Hle & Hd).
    destruct (restart_lookup _ _ Hx) as (kx' & Hx' & Htx & Hlx). exists T, kx'. rewrite Htx, Hlx.
    split_and!; auto.
  - intros j kj Hj Hs. destruct (restart_running j kj Hj Hs) as [_ Hj']. by apply (li_candidate _ _ _ HL j).
  - intros x u c (kc & Hc & Hle)%(li_votes _ _ _ HL). destruct (restart_lookup _ _ Hc) as (kc' & ? & Htc & _).
    exists kc'. by rewrite Htc.
  - intros src dst args [Hin _]%restart_net. destruct (li_req _ _ _ HL _ _ _ Hin) as (ks & Hks & Hle & Hlast).
    destruct (restart_lookup _ _ Hks) as (ks' & Hks' & Hts & _). exists ks'. rewrite Hts.
    split_and!; [done..|]. intros Ht Hs. destruct (restart_running src ks' Hks') as [_ Hm]; [congruence|].
    rewrite Hks in Hm. injection Hm as <-. auto.
  - intros x c kc t T j Hv Hc Hs. destruct (restart_running c kc Hc) as [_ Hc']; [congruence|].
    intros. apply Hdead. by eapply (li_uptodate _ _ _ HL x c).
  - intros c kc j Hc Hs. destruct (restart_running c kc Hc) as [_ Hc']; [congruence|]. by apply (li_blocked _ _ _ HL c).
  - intros src dst s leader commit [Hin _]%restart_net.
    destruct (li_hb _ _ _ HL _ _ _ _ _ Hin) as (? & ? & ks & Hks & Hle & Hsafe & Hcom).
    destruct (restart_lookup _ _ Hks) as (ks' & Hks' & Hts & Hls). split_and!; [done..|]. exists ks'.
    rewrite Hts, Hls. split_and!; [done..|by apply restart_safe_at|done].
  - intros src dst hb args [Hin _]%restart_net. destruct (li_app _ _ _ HL _ _ _ _ Hin) as (? & ? & ?).
    split_and!; [done..|by apply restart_msg_ok].
  - intros src dst hb args reply e [Hin _]%restart_net Hok He.
    destruct (li_rep _ _ _ HL _ _ _ _ _ _ Hin Hok He); [left; by apply restart_above|by right].
  - intros j kj p x Hj Hs. destruct (restart_running j kj Hj) as [_ Hj']; [congruence|]. by apply (li_match _ _ _ HL j).
  - intros j kj (k0 & Hj & _ & _ & [[-> ->]|[_ ->]])%restart_lookup_inv; [by left|by apply (li_commit _ _ _ HL j)].
  - intros j kj p Hj Hp Hor. destruct (restart_lookup_inv j kj Hj) as (k0 & Hj0 & _ & _ & [[-> ->]|[_ ->]]).
    + exfalso. destruct Hor as [?|(s & l & c & [_ Hg]%restart_net)]; [done|]. simpl in Hg.
      by rewrite bool_decide_eq_true_2 in Hg.
    + apply (li_next _ _ _ HL j); [done..|].
      destruct Hor as [?|(s & l & c & [Hin _]%restart_net)]; [by left|right; eauto].
  - intros src dst hb args reply [Hin _]%restart_net. by apply (li_hint _ _ _ HL src dst hb args).
Qed.
End restart.

(** ** Executions *)

Lemma log_inv_step x y :
  gstep_live x y → election_inv ids x.1.1 x.1.2 x.2 → log_inv x.1.1 x.1.2 x.2 →
  log_inv y.1.1 y.1.2 y.2.
Proof. intros Hs HE HL. destruct Hs; [by eapply log_inv_trans|by apply log_inv_restart]. Qed.

Lemma log_inv_init : log_inv (p_init ids).1 (p_init ids).2 ghost_init.
Proof.
  assert (Hnone : ∀ i t, ¬ leads ghost_init i t) by (by intros i t (ld & Hld & _)).
  constructor; try set_solver.
  - intros i k [_ ->]%(p_init_lookup ids Hnodup). simpl. split.
    + split_and!; [done|..]; intros [|[|j]] e; simpl; by intros [= <-] || done.
    + intros [|j] e ?; [lia|done].
  - intros i k [_ ->]%(p_init_lookup ids Hnodup). done.
  - intros i k [_ ->]%(p_init_lookup ids Hnodup). done.
  - intros c k i [_ ->]%(p_init_lookup ids Hnodup). done.
  - intros i k p x [_ ->]%(p_init_lookup ids Hnodup). done.
  - intros i k [_ ->]%(p_init_lookup ids Hnodup). by left.
  - intros i k p [_ ->]%(p_init_lookup ids Hnodup) _ [?|(s & l & c & ?%elem_of_nil)]; done.
Qed.

Definition live_inv (x : pstate * ghost) : Prop :=
  election_inv ids x.1.1 x.1.2 x.2 ∧ log_inv x.1.1 x.1.2 x.2.

Lemma live_inv_init : live_inv (p_init ids, ghost_init).
Proof. split; [by apply election_inv_init|apply log_inv_init]. Qed.

Lemma live_inv_step x y : gstep_live x y → live_inv x → live_inv y.
Proof.
  intros Hs [HE HL]. split; [|by eapply log_inv_step].
  eapply election_inv_step; eauto using gstep_live_gstep.
Qed.

Lemma live_inv_steps x y : rtc gstep_live x y → live_inv x → live_inv y.
Proof. induction 1; eauto using live_inv_step. Qed.

(** ** Consequences *)

(** The committed part of a log, the sentinel included. *)
Definition committed (k : core) : list LogEntry := take (S (N.to_nat (k_commit k))) (k_log k).

Lemma log_matching m net g i j ki kj n :
  log_inv m net g → m !! i = Some ki → m !! j = Some kj →
  n < length (k_log ki) → n < length (k_log kj) → tm (k_log ki) n = tm (k_log kj) n →
  take (S n) (k_log ki) = take (S n) (k_log kj).
Proof.
  intros HL Hi Hj Hni Hnj Ht.
  destruct (li_log _ _ _ HL _ _ Hi) as [Hwi Hli]. destruct (li_log _ _ _ HL _ _ Hj) as [Hwj Hlj].
  destruct n as [|n]; [|apply (lm_agree (g_tl g)); done || lia].
  destruct Hwi as (H0 & _), Hwj as (H0' & _). destruct (k_log ki), (k_log kj); by simplify_eq/=.
Qed.

(** Committed prefixes are prefixes of leaders' logs. *)
Lemma commit_ok_source g s c L :
  commit_ok g s c L → L !! 0 = Some sentinel →
  take (S c) L = [sentinel] ∨
  ∃ t T j, (t <= s)%N ∧ g_tl g !! t = Some T ∧ own T t j ∧ chosen g t j ∧
           c <= j ∧ take (S c) L = take (S c) T.
Proof.
  intros Hc H0. destruct Hc as [->|(t & T & j & ? & ? & Ho & ? & ? & Hp)].
  - left. destruct L; by simplify_eq/=.
  - right. exists t, T, j. split_and!; try done.
    rewrite <- (prefix_take_eq _ _ _ Hp); [by rewrite take_take, Nat.min_id|].
    rewrite length_take. destruct Ho. lia.
Qed.

Lemma sentinel_prefix L n : L !! 0 = Some sentinel → [sentinel] `prefix_of` take (S n) L.
Proof. destruct L; intros; simplify_eq/=. apply prefix_cons, prefix_nil. Qed.

Lemma chosen_in_leader m net g t T j s S' :
  log_inv m net g → g_tl g !! t = Some T → own T t j → chosen g t j → (t <= s)%N →
  g_tl g !! s = Some S' → take (S j) T `prefix_of` S'.
Proof.
  intros HL HT Ho Hch Hle HS. destruct (N.eq_dec t s) as [->|].
  - rewrite HT in HS. injection HS as <-. apply prefix_take.
  - destruct (li_tl _ _ _ HL _ _ HS) as (_ & _ & _ & ld & Hld & _).
    destruct (li_complete _ _ _ HL t s T S' ld j) as [Hd|Hp]; try done; [lia|..].
    + by destruct (chosen_not_dead m g t j).
    + etrans; [exact Hp|apply prefix_take].
Qed.

(** A committed prefix is in the log of every leader of its term or later. *)
Lemma commit_ok_leader m net g s c L s' T :
  log_inv m net g → commit_ok g s c L → L !! 0 = Some sentinel →
  g_tl g !! s' = Some T → (s <= s')%N → take (S c) L `prefix_of` T.
Proof.
  intros HL Hc H0 HT Hle.
  destruct (commit_ok_source g s c L Hc H0) as [->|(t & T1 & j & Hts & HT1 & Ho & Hch & Hcj & ->)].
  - destruct (li_tl _ _ _ HL _ _ HT) as ((HT0 & _) & _). etrans; [by apply (sentinel_prefix T 0)|apply prefix_take].
  - transitivity (take (S j) T1); [apply take_take_prefix; lia|].
    apply (chosen_in_leader m net g t T1 j s'); done || lia.
Qed.

(** Any two committed prefixes are the same as far as both go. *)
Lemma commit_ok_agree m net g s c L s' c' L' :
  log_inv m net g → commit_ok g s c L → commit_ok g s' c' L' →
  L !! 0 = Some sentinel → L' !! 0 = Some sentinel → compat (take (S c) L) (take (S c') L').
Proof.
  intros HL Hc Hc' H0 H0'.
  destruct (commit_ok_source _ _ _ _ Hc H0) as [->|(t & T & n & _ & HT & Ho & Hch & Hn & Heq)].
  { left. by apply sentinel_prefix. }
  destruct (commit_ok_source _ _ _ _ Hc' H0') as [->|(t' & T' & n' & _ & HT' & Ho' & Hch' & Hn' & Heq')].
  { right. by apply sentinel_prefix. }
  rewrite Heq, Heq'. destruct (N.le_ge_cases t t').
  - apply (compat_same _ _ T'); [|apply prefix_take].
    transitivity (take (S n) T); [apply take_take_prefix; lia|]. by eapply chosen_in_leader.
  - apply (compat_same _ _ T); [apply prefix_take|].
    transitivity (take (S n') T'); [apply take_take_prefix; lia|]. by eapply chosen_in_leader.
Qed.

Lemma committed_agree m net g i j ki kj :
  log_inv m net g → m !! i = Some ki → m !! j = Some kj → compat (committed ki) (committed kj).
Proof.
  intros HL Hi Hj.
  apply (commit_ok_agree m net g (k_term ki) _ _ (k_term kj)); [done|by eapply li_commit..| |].
  - by destruct (li_log _ _ _ HL _ _ Hi) as [(? & _) _].
  - by destruct (li_log _ _ _ HL _ _ Hj) as [(? & _) _].
Qed.

Lemma gstep_live_lookup x y i : gstep_live x y → is_Some (x.1.1 !! i) → is_Some (y.1.1 !! i).
Proof. intros Hs. destruct Hs; simpl; rewrite lookup_insert; by case_decide. Qed.

(** What is committed in a server's log stays there. *)
Lemma commit_ok_step x y i k k' s c :
  gstep_live x y → live_inv x → x.1.1 !! i = Some k → y.1.1 !! i = Some k' → (s <= k_term k)%N →
  commit_ok x.2 s c (k_log k) → (s <= k_term k')%N ∧ commit_ok y.2 s c (k_log k').
Proof.
  intros Hs [HE HL] Hk Hk' Hle Hc.
  destruct Hs as [m net j kj kj' ps g Hj Ht|m net j kj v g Hj Hv]; simpl in *;
    (destruct (decide (j = i)) as [->|Hne];
      [rewrite lookup_insert_eq in Hk'; rewrite Hj in Hk; injection Hk as <-; injection Hk' as <-
      |rewrite lookup_insert_ne, Hk in Hk' by done; injection Hk' as <-]); try done.
  - destruct (ptrans_le _ _ _ _ _ Ht) as (_ & _ & Hle' & _). split; [lia|].
    by apply (step_commit_keeps m net g i kj kj' ps HE HL Hj Ht).
  - split; [done|]. by apply (step_commit_ok m net g j kj kj' ps HE HL Hj Ht).
Qed.

Lemma commit_ok_steps x y i k k' s c :
  rtc gstep_live x y → live_inv x → x.1.1 !! i = Some k → y.1.1 !! i = Some k' → (s <= k_term k)%N →
  commit_ok x.2 s c (k_log k) → (s <= k_term k')%N ∧ commit_ok y.2 s c (k_log k').
Proof.
  intros Hxy. revert k. induction Hxy as [x|x y z Hxy _ IH]; intros k HI Hk Hk' Hle Hc; [by simplify_eq|].
  destruct (gstep_live_lookup x y i Hxy) as [k1 Hk1]; [eauto|].
  destruct (commit_ok_step x y i k k1 s c) as [? ?]; [done..|].
  apply (IH k1); [by eapply live_inv_step|done..].
Qed.

(** ** Between two points of an execution *)

Lemma tl_le_trans tl1 tl2 tl3 : tl_le tl1 tl2 → tl_le tl2 tl3 → tl_le tl1 tl3.
Proof.
  intros H12 H23 t T HT. destruct (H12 _ _ HT) as (T2 & HT2 & ?).
  destruct (H23 _ _ HT2) as (T3 & ? & ?). exists T3. split; [done|by transitivity T2].
Qed.

Lemma steps_tl_le x y : rtc gstep_live x y → live_inv x → tl_le (g_tl x.2) (g_tl y.2).
Proof.
  intros Hxy. induction Hxy as [x|x y z Hxy _ IH]; intros HI; [intros t T; by exists T|].
  eapply tl_le_trans; [|apply IH; by eapply live_inv_step].
  destruct HI as [HE HL], Hxy; [by eapply step_tl_le|intros t T; by exists T].
Qed.

Lemma steps_commit_ok x y s c L :
  rtc gstep_live x y → live_inv x → commit_ok x.2 s c L → commit_ok y.2 s c L.
Proof.
  intros Hxy. induction Hxy as [x|x y z Hxy _ IH]; intros HI Hc; [done|].
  apply IH; [by eapply live_inv_step|]. destruct HI as [HE HL], Hxy; [by eapply step_commit_ok|done].
Qed.

(** Within its term, the log of a leader is the recorded one. *)
Lemma leader_log_steps x y i k k' :
  rtc gstep_live x y → live_inv x → x.1.1 !! i = Some k → y.1.1 !! i = Some k' →
  k_state k = Leader → k_state k' = Leader → k_term k' = k_term k →
  k_log k `prefix_of` k_log k'.
Proof.
  intros Hxy HI Hk Hk' Hs Hs' Ht. pose proof (live_inv_steps _ _ Hxy HI) as [_ HL'].
  destruct HI as [HE HL]. pose proof (li_leader _ _ _ HL _ _ Hk Hs) as HT.
  pose proof (li_leader _ _ _ HL' _ _ Hk' Hs') as HT'.
  destruct (steps_tl_le _ _ Hxy (conj HE HL) _ _ HT) as (T & HT2 & Hp). congruence.
Qed.

Lemma rtc_lookup x y i : rtc gstep_live x y → is_Some (x.1.1 !! i) → is_Some (y.1.1 !! i).
Proof. induction 1; eauto using gstep_live_lookup. Qed.
End logsafety.
