(* ===== verification/NextIndex.v ===== *)
(** The bookkeeping of a leader stays within its log: [nextIndex] of
    src/internal/raft is at most one past the last entry, in executions whose
    restarts give back the log that was lost.

    The bound is what lets the replication goroutines work ([replicateLog] sends
    nothing when [nextIndex] is past the log).  It is an invariant together with
    what is in flight: a request of a leader starts within its log, and the
    conflict index of a reply is not past the request's. *)

From S2P Require Import Prelude Types RaftLog Replication Cluster Protocol Refinement Ghost ElectionSafety LogFacts LogSafety.

Section nextindex.
Context (ids : list NodeID) (Hnodup : NoDup ids) (Hnonempty : "" ∉ ids).
Implicit Types m : gmap NodeID core.

(** A request of term [s] that starts at position [x]: the position is in the
    log of the leader of [s], or the sender has left the term. *)
Definition starts_within m (g : ghost) (src : NodeID) (s : Term) (x : LogIndex) : Prop :=
  (∃ T, g_tl g !! s = Some T ∧ (x < N.of_nat (length T))%N) ∨
  (∃ k, m !! src = Some k ∧ (s < k_term k)%N).

Definition next_within (k : core) (p : NodeID) : Prop :=
  (map_get 0 (k_next k) p <= N.of_nat (length (k_log k)))%N.

Record next_inv m (net : list packet) (g : ghost) : Prop := {
  ni_next i k p : m !! i = Some k → leads g i (k_term k) → p ∈ k_peers k → next_within k p;
  ni_req src dst hb args :
    AppReq src dst hb args ∈ net → starts_within m g src (ae_Term args) (ae_PrevLogIndex args);
  ni_rep src dst hb args reply :
    AppRep src dst hb args reply ∈ net →
    starts_within m g src (ae_Term args) (ae_PrevLogIndex args) ∧
    (aer_ConflictIndex reply <= ae_PrevLogIndex args)%N;
}.

(** The conflict index that a follower names. *)
Lemma p_check_prev_index args L ct ci :
  0 < length L → p_check_prev args L = Some (ct, ci) → (ci <= ae_PrevLogIndex args)%N.
Proof.
  intros H0 Hc. unfold p_check_prev in Hc. set (x := ae_PrevLogIndex args) in *.
  destruct (N.ltb_spec 0 x) as [Hx|]; [|done].
  destruct (N.ltb_spec x (N.of_nat (length L))) as [Hlt|Hge]; cbn [negb] in Hc.
  2: { injection Hc as <- <-. unfold last_index. lia. }
  destruct (negb _); [|done]. injection Hc as _ <-. unfold first_of_term.
  destruct (FindFirstIndexOfTerm_correct (mkLog L) (tm L (N.to_nat x))) as [(j & e & -> & _ & _ & Hmin)|[-> _]]; [|lia].
  destruct (lookup_lt_is_Some_2 L (N.to_nat x)) as [e' He']; [lia|].
  destruct (decide (N.to_nat x - 1 < j)) as [Hj|]; [|lia].
  destruct (Hmin (N.to_nat x - 1) e' Hj); [|by rewrite (tm_lookup _ _ _ He')].
  cbn [entries]. rewrite <- He'. f_equal. lia.
Qed.

Lemma p_append_index args k :
  0 < length (k_log k) → (aer_ConflictIndex (p_append args k).2 <= ae_PrevLogIndex args)%N.
Proof.
  intros H0. destruct (p_append args k) as [k1 r] eqn:E. cbn [snd].
  apply p_append_cases in E as [(_ & _ & ->)|(_ & [(ct & ci & Hc & _ & ->)|(_ & _ & ->)])]; simpl; [lia| |lia].
  by eapply p_check_prev_index.
Qed.

(** *** One transition *)

Section step.
Context (m : gmap NodeID core) (net : list packet) (g : ghost)
        (i : NodeID) (k k' : core) (ps : list packet).
Context (HE : election_inv ids m net g) (HL : log_inv ids m net g) (HN : next_inv m net g)
        (Hk : m !! i = Some k) (Ht : ptrans net i k k' ps).

Let m' := <[i := k']> m.
Let g' := ghost_update i k' ps g.

Lemma starts_within_step src s x : starts_within m g src s x → starts_within m' g' src s x.
Proof using Hnodup Hnonempty HE HL Hk Ht.
  intros [(T & HT & Hx)|(ks & Hks & Hs)].
  - left. destruct (step_tl_le ids Hnodup Hnonempty m net g i k k' ps HE HL Hk Ht s T HT) as (T' & HT' & Hp%prefix_length).
    exists T'. split; [done|lia].
  - right. destruct (step_lookup m net i k k' ps Hk Ht src ks Hks) as (ks' & ? & ?). exists ks'. split; [done|lia].
Qed.

(** A server that has led its term and stays in it. *)
Lemma leads_before :
  leads g' i (k_term k') → k_term k' = k_term k ∧ (leads g i (k_term k) ∨ k_state k = Candidate ∧ k_state k' = Leader).
Proof using Hnodup Hnonempty HE HL Hk Ht.
  intros (ld & Hld & Hid). apply ghost_lead_spec in Hld as [Hld|(Hn & Hs & _)].
  - destruct (ei_lead _ _ _ _ HE _ _ Hld) as (_ & _ & k1 & Hk1 & Hle & _). rewrite Hid, Hk in Hk1. injection Hk1 as <-.
    destruct (ptrans_le _ _ _ _ _ Ht) as (_ & _ & Hle' & _). assert (Heq : k_term k' = k_term k) by lia.
    split; [done|]. left. exists ld. by rewrite <- Heq.
  - destruct (step_leader ids Hnodup Hnonempty m net g i k k' ps HE HL Hk Ht Hs) as (Heq & [(? & _)|(Hl & HT & _)]); [auto|].
    destruct (ei_leader _ _ _ _ HE _ _ Hk Hl) as (ld' & Hld' & _). rewrite Heq in Hn. congruence.
Qed.

(** Its log does not get shorter. *)
Lemma led_log_grows :
  leads g i (k_term k) → k_term k' = k_term k → length (k_log k) <= length (k_log k').
Proof using Hnodup Hnonempty HE HL Hk Ht.
  intros Hl Heq. pose proof (li_stays _ _ _ _ HL i _ k Hl Hk eq_refl) as HT.
  assert (HT' : g_tl g' !! k_term k = Some (k_log k')).
  { apply (post_stays ids Hnodup Hnonempty m net g i k k' ps HE HL Hk Ht i); [|apply lookup_insert_eq|done].
    by apply step_leads. }
  destruct (step_tl_le ids Hnodup Hnonempty m net g i k k' ps HE HL Hk Ht _ _ HT) as (T & HT2 & Hp%prefix_length).
  fold g' in HT2. rewrite HT' in HT2. injection HT2 as <-. done.
Qed.

Lemma map_get_insert_le (M : gmap NodeID LogIndex) p q x B :
  (x <= B)%N → (map_get 0 M p <= B)%N → (map_get 0 (<[q := x]> M) p <= B)%N.
Proof. intros Hx HM. unfold map_get in *. rewrite lookup_insert. by case_decide. Qed.

(** Where a rejection moves [nextIndex]. *)
Lemma p_conflict_within q reply c p :
  0 < length (k_log c) → (aer_ConflictIndex reply <= N.of_nat (length (k_log c)))%N →
  next_within c p → next_within (p_conflict q reply c) p.
Proof.
  intros H0 Hci Hp. unfold next_within in *.
  destruct (p_conflict_same q reply c) as (_ & _ & _ & _ & -> & _).
  pose proof (last_of_term_le (k_log c) (aer_ConflictTerm reply) (length (k_log c) - 1)).
  unfold p_conflict. cbv zeta. split_ifs; simpl; [apply map_get_insert_le; (done || lia)..| |done].
  destruct (decide (q = p)) as [->|Hne]; unfold map_get in *; rewrite lookup_insert; case_decide; simpl in *; (done || lia).
Qed.

Lemma next_step p : leads g' i (k_term k') → p ∈ k_peers k' → next_within k' p.
Proof using Hnodup Hnonempty HE HL HN Hk Ht.
  intros Hlead Hp. destruct (leads_before Hlead) as (Heq & Hor).
  destruct (ptrans_le _ _ _ _ _ Ht) as (_ & Hpeers & _). rewrite Hpeers in Hp.
  destruct (li_log _ _ _ _ HL _ _ Hk) as [H0%wf_list_nonempty _].
  assert (Hold : k_state k = Leader ∨ k_state k' ≠ Leader → next_within k p ∧ length (k_log k) <= length (k_log k')).
  { intros Hs. destruct Hor as [Hl|[? ?]]; [|naive_solver congruence].
    split; [by apply (ni_next _ _ _ HN i)|by apply led_log_grows]. }
  unfold next_within in *.
  destruct (indices_step net i k k' ps Ht) as [(-> & _ & _ & Hs)|[(q & ->)|[Hsu|[Hco|(_&_&_&_&Hf&_&_&_&->&_)]]]].
  - destruct Hold; [destruct (k_state k'); auto|lia].
  - unfold map_get. simpl. rewrite lookup_foldl_insert by done. simpl. unfold last_index. lia.
  - destruct Hsu as (q & hb & args & reply & e & Hin & Hl & Hta & Hok & He & Heq').
    destruct Hold as [Hn Hle]; [by left|].
    assert (He' : (e_Index e < N.of_nat (length (k_log k)))%N).
    { destruct (li_rep _ _ _ _ HL _ _ _ _ _ _ Hin Hok He) as [(k1 & Hk1 & Hlt)|(T & HT & Hx & _)].
      - rewrite Hk in Hk1. injection Hk1 as <-. lia.
      - rewrite <- Hta, (li_leader _ _ _ _ HL _ _ Hk Hl) in HT. by injection HT as <-. }
    rewrite Heq' at 1. destruct (p_success_indices q (e_Index e) k) as ([->| ->] & _); [lia|].
    apply map_get_insert_le; lia.
  - destruct Hco as (q & hb & args & reply & Hin & Hl & Hta & ->). destruct Hold as [Hn Hle]; [by left|].
    apply p_conflict_within; [done| |done]. destruct (ni_rep _ _ _ HN _ _ _ _ _ Hin) as [Hw Hci].
    destruct Hw as [(T & HT & Hx)|(k1 & Hk1 & Hlt)]; [|rewrite Hk in Hk1; injection Hk1 as <-; lia].
    rewrite <- Hta, (li_leader _ _ _ _ HL _ _ Hk Hl) in HT. injection HT as <-. lia.
  - destruct Hold; [right; congruence|lia].
Qed.

(** A request that is new. *)
Lemma new_request_within src dst hb args :
  AppReq src dst hb args ∈ ps → starts_within m' g' src (ae_Term args) (ae_PrevLogIndex args).
Proof using Hnodup Hnonempty HE HL HN Hk Ht.
  intros Hin. destruct (li_log _ _ _ _ HL _ _ Hk) as [H0%wf_list_nonempty _].
  destruct (ei_core _ _ _ _ HE _ _ Hk) as (_ & Hpeers & _).
  assert (Hnew : src = i ∧ ae_PrevLogIndex args = (map_get 0 (k_next k) dst - 1)%N ∧
    dst ∈ k_peers k ∧ leads g i (ae_Term args) ∧ (ae_Term args <= k_term k)%N).
  { destruct Ht as [| | | | |p term leader commit Hi|p Hl Hp Hne| | |];
      try (by apply elem_of_nil in Hin); try (by apply list_elem_of_fmap in Hin as (q & ? & _));
      apply list_elem_of_singleton in Hin; simplify_eq; try done.
    - destruct (li_hb _ _ _ _ HL _ _ _ _ _ Hi) as (Hp & Hl & k1 & Hk1 & Hle & _).
      rewrite Hk in Hk1. injection Hk1 as <-. rewrite <- Hpeers in Hp. by split_and!.
    - split_and!; try done. by apply (ei_leader _ _ _ _ HE). }
  destruct Hnew as (-> & -> & Hdst & Hl & Hle). apply starts_within_step.
  destruct (N.eq_dec (ae_Term args) (k_term k)) as [He|]; [|right; exists k; split; [done|lia]].
  left. exists (k_log k). rewrite He in *. split; [by apply (li_stays _ _ _ _ HL i)|].
  pose proof (ni_next _ _ _ HN i k dst Hk Hl Hdst) as Hw. unfold next_within in Hw. lia.
Qed.

Lemma next_inv_trans : next_inv m' (net ++ ps) g'.
Proof using Hnodup Hnonempty HE HL HN Hk Ht.
  constructor.
  - intros j kj p. unfold m'. rewrite lookup_insert. case_decide as Hij; [intros [= <-]; subst j; apply next_step|].
    intros Hj (ld & Hld & Hid). apply (ni_next _ _ _ HN j kj p Hj). exists ld. split; [|done].
    by apply ghost_lead_spec in Hld as [?|(_ & _ & _ & ->)].
  - intros src dst hb args [Hin|Hin]%elem_of_app; [|by eapply new_request_within].
    by eapply starts_within_step, ni_req.
  - intros src dst hb args reply [Hin|Hin]%elem_of_app.
    { destruct (ni_rep _ _ _ HN _ _ _ _ _ Hin). split; [by apply starts_within_step|done]. }
    assert (Hnew : dst = i ∧ AppReq src i hb args ∈ net ∧ reply = (p_append args k).2).
    { clear -Hin Ht. destruct Ht; apply list_elem_of_In in Hin; simpl in Hin;
        try (apply in_map_iff in Hin as (q & Hq & Hin')); simplify_eq; try naive_solver. }
    destruct Hnew as (-> & Hreq & ->). split; [by eapply starts_within_step, ni_req|].
    apply p_append_index. by destruct (li_log _ _ _ _ HL _ _ Hk) as [H0%wf_list_nonempty _].
Qed.
End step.

(** *** Restarts and executions *)

Lemma next_inv_restart m net g i k v :
  next_inv m net g → m !! i = Some k →
  next_inv (<[i := p_restarted v (k_log k) k]> m) (List.filter (λ p, negb (goroutine_of i p)) net) g.
Proof.
  intros HN Hk. assert (Hw : ∀ src s x, starts_within m g src s x →
    starts_within (<[i := p_restarted v (k_log k) k]> m) g src s x).
  { intros src s x [?|(k1 & Hk1 & Hlt)]; [by left|right]. rewrite lookup_insert.
    case_decide; [subst src|by exists k1]. rewrite Hk in Hk1. injection Hk1 as <-. by eexists. }
  constructor.
  - intros j kj p. rewrite lookup_insert. case_decide; [|apply (ni_next _ _ _ HN)].
    intros [= <-] _ _. unfold next_within, map_get. cbn [p_restarted k_next]. rewrite lookup_empty. simpl. lia.
  - intros src dst hb args Hin. apply list_elem_of_In, filter_In in Hin as [Hin%list_elem_of_In _].
    by eapply Hw, ni_req.
  - intros src dst hb args reply Hin. apply list_elem_of_In, filter_In in Hin as [Hin%list_elem_of_In _].
    destruct (ni_rep _ _ _ HN _ _ _ _ _ Hin). auto.
Qed.

Lemma next_inv_init : next_inv (p_init ids).1 (p_init ids).2 ghost_init.
Proof using Hnodup.
  constructor.
  - intros i k p _ (ld & Hld & _). cbn [ghost_init g_lead] in Hld. by rewrite lookup_empty in Hld.
  - by intros src dst hb args ?%elem_of_nil.
  - by intros src dst hb args reply ?%elem_of_nil.
Qed.

Definition paced_inv (x : pstate * ghost) : Prop := live_inv ids x ∧ next_inv x.1.1 x.1.2 x.2.

Lemma paced_inv_init : paced_inv (p_init ids, ghost_init).
Proof using Hnodup Hnonempty. split; [by apply live_inv_init|apply next_inv_init]. Qed.

Lemma paced_inv_step x y : gstep_live x y → paced_inv x → paced_inv y.
Proof using Hnodup Hnonempty.
  intros Hs [HI HN]. split; [by eapply live_inv_step|]. destruct HI as [HE HL], Hs; simpl in *.
  - by eapply next_inv_trans.
  - by apply next_inv_restart.
Qed.

Lemma paced_inv_steps x y : rtc gstep_live x y → paced_inv x → paced_inv y.
Proof using Hnodup Hnonempty. induction 1; eauto using paced_inv_step. Qed.

(** A leader's [nextIndex] is at most one past its log. *)
Lemma leader_next_within x i k p :
  paced_inv x → x.1.1 !! i = Some k → k_state k = Leader → p ∈ k_peers k → next_within k p.
Proof.
  intros [[HE _] HN] Hk Hl Hp. apply (ni_next _ _ _ HN i k p Hk); [|done]. by apply (ei_leader _ _ _ _ HE).
Qed.
End nextindex.
