(* ===== verification/Bounds.v ===== *)
(** How large the numbers of an execution get: the indices in the messages
    and in the leaders' tables are bounded by the lengths of the logs, and a
    leader's [nextIndex] is never 0, so that [nextIndex - 1] does not wrap
    around.  Restarts are included. *)

From S2P Require Import Prelude Types RaftLog Replication Cluster Protocol Refinement LogSafety.

(** ** Terms *)

Definition packet_term (pkt : packet) : Term :=
  match pkt with
  | VoteReq _ _ args => rv_Term args
  | VoteRep _ _ _ reply => rvr_Term reply
  | HbTask _ _ term _ _ => term
  | AppReq _ _ _ args => ae_Term args
  | AppRep _ _ _ _ reply => aer_Term reply
  end.

Lemma p_vote_terms args k :
  (k_term (p_vote args k).1 <= N.max (k_term k) (rv_Term args))%N ∧
  (rvr_Term (p_vote args k).2 <= N.max (k_term k) (rv_Term args))%N.
Proof.
  unfold p_vote. fold (p_observe (rv_Term args) k).
  pose proof (p_observe_term (rv_Term args) k). split_ifs; simpl; lia.
Qed.

Lemma p_append_terms args k :
  (k_term (p_append args k).1 <= N.max (k_term k) (ae_Term args))%N ∧
  (aer_Term (p_append args k).2 <= N.max (k_term k) (ae_Term args))%N.
Proof.
  destruct (p_append args k) as [k1 r] eqn:E. simpl.
  apply p_append_cases in E as [(_ & -> & ->)|(_ & [(ct & ci & _ & -> & ->)|(_ & -> & ->)])]; simpl;
    rewrite ?p_observe_term; try lia.
  match goal with |- context [p_follow_commit ?lc ?x] =>
    destruct (p_follow_commit_same lc x) as (_&_&->&_) end.
  simpl. rewrite p_observe_term. lia.
Qed.

(** The terms a transition leads to are those of the messages, of the server,
    or the next one. *)
Lemma ptrans_terms N net i k k' ps :
  ptrans net i k k' ps → (k_term k + 1 <= N)%N → (∀ pkt, pkt ∈ net → (packet_term pkt <= N)%N) →
  (k_term k' <= N)%N ∧ ∀ pkt, pkt ∈ ps → (packet_term pkt <= N)%N.
Proof.
  intros Ht HkN Hnet. destruct Ht as
    [| |src args Hi|p term reply Hi|Hl|p term leader commit Hi|p Hl Hp Hne|src hb args Hi
     |p hb args reply Hi|cmd Hl]; try apply Hnet in Hi as HiN; simpl in *.
  - split; [lia|]. by intros pkt ?%elem_of_nil.
  - split; [lia|]. intros pkt (p & -> & _)%list_elem_of_fmap. simpl. lia.
  - destruct (p_vote_terms args k). split; [lia|].
    intros pkt ->%list_elem_of_singleton. simpl. lia.
  - split; [|by intros pkt ?%elem_of_nil].
    destruct (p_vote_reply_cases p term reply k)
      as [->|[[? ->]|(_ & ? & _ & _ & [->|[-> _]])]]; simpl; lia.
  - split; [lia|]. intros pkt (p & -> & _)%list_elem_of_fmap. simpl. lia.
  - split; [lia|]. intros pkt ->%list_elem_of_singleton. simpl. lia.
  - split; [lia|]. intros pkt ->%list_elem_of_singleton. simpl. lia.
  - destruct (p_append_terms args k). split; [lia|].
    intros pkt ->%list_elem_of_singleton. simpl. lia.
  - split; [|by intros pkt ?%elem_of_nil].
    destruct (p_append_reply_cases p args reply k)
      as [->|[[? ->]|(_ & _ & _ & [(e & _ & _ & ->)|(_ & ->)])]]; simpl; try lia.
    + destruct (p_success_same p (e_Index e) k) as (_&_&->&_). lia.
    + destruct (p_conflict_same p reply k) as (_&_&->&_). lia.
  - split; [lia|]. by intros pkt ?%elem_of_nil.
Qed.

Section bounds.
Context (B : N) (C : bytes → Prop).
Implicit Types m : gmap NodeID core.

(** An entry whose numbers fit, with an admissible command. *)
Definition entry_ok (e : LogEntry) : Prop :=
  (e_Index e < B)%N ∧ (e_Term e < two64)%N ∧ C (e_Command e).

Definition core_small (k : core) : Prop :=
  (k_term k < two64)%N ∧ 0 < length (k_log k) ∧ (k_commit k <= B)%N ∧
  (∀ p x, k_next k !! p = Some x → (x <= B)%N) ∧
  (∀ p x, k_match k !! p = Some x → (x <= B)%N) ∧
  (∀ j e, k_log k !! S j = Some e → entry_ok e).

Definition args_small (hb : bool) (args : AppendEntriesArgs) : Prop :=
  (ae_PrevLogIndex args <= B)%N ∧ (ae_LeaderCommit args <= B)%N ∧ (N.of_nat (length (ae_Entries args)) <= B)%N ∧
  (∀ j e, ae_Entries args !! j = Some e → entry_ok e) ∧
  (hb = false → ae_Entries args ≠ []).

Definition packet_small m (pkt : packet) : Prop :=
  match pkt with
  | HbTask src dst _ _ commit =>
      (commit <= B)%N ∧ ∃ k, m !! src = Some k ∧ dst ∈ k_peers k ∧ (0 < map_get 0 (k_next k) dst)%N
  | AppReq _ _ hb args => args_small hb args
  | AppRep _ _ hb args reply =>
      args_small hb args ∧ (aer_ConflictIndex reply <= B)%N ∧
      (0 < aer_ConflictTerm reply → 0 < aer_ConflictIndex reply)%N
  | VoteReq _ _ _ | VoteRep _ _ _ _ => True
  end.

(** Where a new entry of a leader comes from: a client's admissible command. *)
Definition logs_by (k k' : core) : Prop :=
  k_log k' = k_log k ∨ k_state k' ≠ Leader ∨ ∃ c, C c ∧ k' = p_submit c k.

Record small m (net : list packet) : Prop := {
  sm_core i k : m !! i = Some k → core_small k;
  sm_pos i k p :
    m !! i = Some k → k_state k = Leader → p ∈ k_peers k → (0 < map_get 0 (k_next k) p)%N;
  sm_net pkt : pkt ∈ net → packet_small m pkt;
  sm_term pkt : pkt ∈ net → (packet_term pkt < two64)%N;
}.

(** ** One transition *)

Section trans.
Context (m : gmap NodeID core) (net : list packet) (i : NodeID) (k k' : core) (ps : list packet).
Context (HS : small m net) (Hk : m !! i = Some k) (Ht : ptrans net i k k' ps)
        (Hlen : (N.of_nat (length (k_log k)) <= B - 1)%N) (HB : (0 < B)%N)
        (Hterm : (k_term k + 1 < two64)%N) (Hcmd : logs_by k k').

Lemma first_of_term_le L t : (first_of_term L t <= last_index L)%N.
Proof.
  unfold first_of_term, last_index.
  destruct (FindFirstIndexOfTerm_correct (mkLog L) t) as [(j & e & -> & He & _)|[-> _]]; [|lia].
  apply lookup_lt_Some in He. simpl in He. lia.
Qed.

Lemma merge_log_lookup L pos es j e :
  merge_log L pos es !! j = Some e → L !! j = Some e ∨ e ∈ es.
Proof.
  revert pos. induction es as [|x es IH]; intros pos; simpl.
  { by left. }
  case_match; [case_match|].
  - intros [?|?]%IH; [by left|right; by right].
  - intros [He|[_ He%list_elem_of_lookup_2]]%lookup_app_Some; [left|by right].
    by apply lookup_take_Some in He as [? _].
  - intros [He|[_ He%list_elem_of_lookup_2]]%lookup_app_Some; [by left|by right].
Qed.

Lemma core_small_log j e : k_log k' !! S j = Some e → entry_ok e.
Proof.
  destruct (sm_core _ _ HS _ _ Hk) as (_ & H0 & _ & _ & _ & Hidx).
  destruct (log_step _ _ _ _ _ Ht) as [->|[(c & Hl & Heq)|(src & hb & args & Hin & _ & _ & _ & _ & ->)]].
  - apply Hidx.
  - destruct Hcmd as [->|[Hnl|(c' & Hc' & ->)]]; [apply Hidx|by rewrite Heq in Hnl|].
    intros [He|[_ He]]%lookup_app_Some; [by eapply Hidx|].
    apply list_lookup_singleton_Some in He as [_ <-]. unfold entry_ok, last_index. simpl.
    split_and!; [lia|lia|done].
  - destruct (sm_net _ _ HS _ Hin) as (_ & _ & _ & Hes & _).
    intros [?|[? ?]%list_elem_of_lookup]%merge_log_lookup; eauto.
Qed.

Lemma log_nonempty_step : 0 < length (k_log k').
Proof.
  destruct (sm_core _ _ HS _ _ Hk) as (_ & H0 & _).
  destruct (log_step _ _ _ _ _ Ht) as [->|[(c & _ & ->)|(src & hb & args & Hin & _ & _ & _ & _ & ->)]];
    [done|simpl; rewrite length_app; simpl; lia|apply merge_log_nonempty; lia].
Qed.

Lemma foldl_insert_bound (c : N) l (M : gmap NodeID LogIndex) :
  (c <= B)%N → (∀ p x, M !! p = Some x → (x <= B)%N) →
  ∀ p x, foldl (λ M p, <[p := c]> M) M l !! p = Some x → (x <= B)%N.
Proof.
  intros Hc. revert M. induction l as [|q l IH]; intros M HM; simpl; [done|].
  apply IH. intros p x. rewrite lookup_insert. case_decide; [by intros [= <-]|apply HM].
Qed.

Lemma insert_bound (c : N) q (M : gmap NodeID LogIndex) :
  (c <= B)%N → (∀ p x, M !! p = Some x → (x <= B)%N) →
  ∀ p x, <[q := c]> M !! p = Some x → (x <= B)%N.
Proof. intros Hc HM p x. rewrite lookup_insert. case_decide; [by intros [= <-]|apply HM]. Qed.

(** The values that a rejected request may put into [nextIndex]. *)
Lemma p_conflict_next p reply :
  k_next (p_conflict p reply k) = k_next k ∨
  ∃ x, k_next (p_conflict p reply k) = <[p := x]> (k_next k) ∧
    ((0 < aer_ConflictTerm reply → 0 < aer_ConflictIndex reply)%N → (0 < x)%N) ∧
    (0 < length (k_log k) → (aer_ConflictIndex reply <= B)%N →
     (map_get 0 (k_next k) p <= B)%N → (x <= B)%N).
Proof.
  pose proof (last_of_term_le (k_log k) (aer_ConflictTerm reply) (length (k_log k) - 1)).
  unfold p_conflict. cbv zeta. split_ifs; simpl; [right..|by left];
    eexists; (split; [reflexivity|]); split; intros; auto; lia.
Qed.

Lemma indices_small :
  (∀ p x, k_next k' !! p = Some x → (x <= B)%N) ∧
  (∀ p x, k_match k' !! p = Some x → (x <= B)%N).
Proof.
  destruct (sm_core _ _ HS _ _ Hk) as (_ & H0 & _ & Hn & Hm & _).
  destruct (indices_step _ _ _ _ _ Ht) as [(-> & -> & _)|[(q & ->)|[Hsu|[Hco|Hap]]]]; [done|..].
  - simpl. split; apply foldl_insert_bound; try done; unfold last_index; lia.
  - destruct Hsu as (p & hb & args & reply & e & Hin & _ & _ & _ & He & ->).
    destruct (sm_net _ _ HS _ Hin) as ((_ & _ & _ & Hes & _) & _). rewrite last_lookup in He.
    apply Hes in He as (He & _).
    destruct (p_success_indices p (e_Index e) k) as ([->| ->] & [->| ->] & _);
      split; try done; apply insert_bound; done || lia.
  - destruct Hco as (p & hb & args & reply & Hin & _ & _ & ->).
    destruct (sm_net _ _ HS _ Hin) as (_ & Hci & Hh).
    destruct (p_conflict_indices p reply k Hh) as (_ & -> & _). split; [|done].
    destruct (p_conflict_next p reply) as [->|(x & -> & _ & Hx)]; [done|].
    apply insert_bound; [|done]. apply Hx; [done..|].
    unfold map_get. destruct (k_next k !! p) eqn:E; simpl; [eauto|lia].
  - destruct Hap as (src & hb & args & _ & _ & _ & _ & _ & -> & -> & _). done.
Qed.

Lemma commit_small : (k_commit k' <= B)%N.
Proof.
  destruct (sm_core _ _ HS _ _ Hk) as (_ & H0 & Hc & _).
  destruct (indices_step _ _ _ _ _ Ht) as [(_ & _ & -> & _)|[(q & ->)|[Hsu|[Hco|Hap]]]]; [done..| | |].
  - destruct Hsu as (p & hb & args & reply & e & _ & _ & _ & _ & _ & ->).
    destruct (p_success_indices p (e_Index e) k) as (_ & _ & [->|(_ & _ & Hl & _)]); [done|].
    destruct (p_success_same p (e_Index e) k) as (_&_&_&_&Hlog&_). rewrite Hlog in Hl. lia.
  - destruct Hco as (p & hb & args & reply & Hin & _ & _ & ->).
    destruct (sm_net _ _ HS _ Hin) as (_ & _ & Hh).
    by destruct (p_conflict_indices p reply k Hh) as (_ & _ & ->).
  - destruct Hap as (src & hb & args & Hin & _ & _ & _ & _ & _ & _ & [->| ->]); [done|].
    destruct (sm_net _ _ HS _ Hin) as (_ & Hlc & _). lia.
Qed.

Lemma next_pos_step p :
  p ∈ k_peers k → (0 < map_get 0 (k_next k) p)%N → (0 < map_get 0 (k_next k') p)%N.
Proof.
  intros Hp Hpos.
  assert (Hins : ∀ q x, (0 < x)%N → (0 < map_get 0 (<[q := x]> (k_next k)) p)%N).
  { intros q x Hx. unfold map_get in *. rewrite lookup_insert. by case_decide. }
  destruct (indices_step _ _ _ _ _ Ht) as [(-> & _)|[(q & ->)|[Hsu|[Hco|Hap]]]]; [done|..].
  - unfold map_get. simpl. rewrite lookup_foldl_insert by done. simpl. lia.
  - destruct Hsu as (q & hb & args & reply & e & _ & _ & _ & _ & _ & ->).
    destruct (p_success_indices q (e_Index e) k) as ([->| ->] & _); [done|]. apply Hins. lia.
  - destruct Hco as (q & hb & args & reply & Hin & _ & _ & ->).
    destruct (sm_net _ _ HS _ Hin) as (_ & _ & Hh).
    destruct (p_conflict_indices q reply k Hh) as ([->|(x & Hx & ->)] & _); auto.
  - by destruct Hap as (src & hb & args & _ & _ & _ & _ & _ & -> & _).
Qed.

Lemma leader_pos_step p :
  k_state k' = Leader → p ∈ k_peers k → (0 < map_get 0 (k_next k') p)%N.
Proof.
  intros Hs Hp. destruct (decide (k_state k = Leader)) as [Hl|Hl].
  { apply next_pos_step; [done|]. by apply (sm_pos _ _ HS i). }
  destruct (indices_step _ _ _ _ _ Ht) as [(_ & _ & _ & Hl')|[(q & ->)|[Hsu|[Hco|Hap]]]].
  - by destruct Hl; apply Hl'.
  - unfold map_get. simpl. rewrite lookup_foldl_insert by done. simpl. lia.
  - by destruct Hsu as (q & hb & args & reply & e & _ & ? & _).
  - by destruct Hco as (q & hb & args & reply & Hin & ? & _).
  - destruct Hap as (src & hb & args & _ & ? & _). congruence.
Qed.

Lemma p_args_small p term leader commit hb :
  (commit <= B)%N → (0 < map_get 0 (k_next k) p)%N → (hb = false → ae_Entries (p_args p term leader commit k) ≠ []) →
  args_small hb (p_args p term leader commit k).
Proof.
  intros Hc Hpos Hne. destruct (sm_core _ _ HS _ _ Hk) as (_ & H0 & _ & Hn & _ & Hidx). unfold args_small. simpl.
  assert (map_get 0 (k_next k) p <= B)%N.
  { unfold map_get. destruct (k_next k !! p) eqn:E; simpl; [eauto|lia]. }
  split_and!; [lia|done|rewrite length_drop; lia| |done].
  intros j e. rewrite lookup_drop.
  replace (N.to_nat (map_get 0%N (k_next k) p) + j)
    with (S (N.to_nat (map_get 0%N (k_next k) p) - 1 + j)) by lia.
  apply Hidx.
Qed.

Lemma p_append_small hb args :
  args_small hb args →
  (aer_ConflictIndex (p_append args k).2 <= B)%N ∧
  (0 < aer_ConflictTerm (p_append args k).2 → 0 < aer_ConflictIndex (p_append args k).2)%N.
Proof.
  intros Ha. destruct (sm_core _ _ HS _ _ Hk) as (_ & H0 & _).
  destruct (p_append args k) as [k1 r] eqn:E. simpl.
  apply p_append_cases in E as [(_ & _ & ->)|(_ & [(ct & ci & Hc & _ & ->)|(_ & _ & ->)])];
    simpl; [lia| |lia].
  pose proof (first_of_term_le (k_log k) ct). pose proof (p_check_prev_hint _ _ _ _ Hc).
  split; [|done]. unfold p_check_prev, last_index in *. split_ifs; simplify_eq; lia.
Qed.

Lemma small_trans : small (<[i := k']> m) (net ++ ps).
Proof.
  pose proof (ptrans_le _ _ _ _ _ Ht) as (_ & Hpeers & _).
  pose proof (sm_core _ _ HS _ _ Hk) as Hsm.
  destruct (ptrans_terms (two64 - 1) _ _ _ _ _ Ht) as [Hterm' Hps].
  { unfold two64 in *. lia. }
  { intros pkt Hin%(sm_term _ _ HS). unfold two64 in *. lia. }
  constructor.
  - intros j kj. rewrite lookup_insert. case_decide; [|apply (sm_core _ _ HS)].
    intros [= <-]. destruct indices_small as [? ?].
    split_and!; [unfold two64 in *; lia|apply log_nonempty_step|apply commit_small|done|done|apply core_small_log].
  - intros j kj p. rewrite lookup_insert. case_decide; [|apply (sm_pos _ _ HS)].
    intros [= <-] Hs. rewrite Hpeers. by apply leader_pos_step.
  - assert (Htask : ∀ dst, (0 < map_get 0 (k_next k) dst)%N → dst ∈ k_peers k →
              ∃ kj, <[i := k']> m !! i = Some kj ∧ dst ∈ k_peers kj ∧ (0 < map_get 0 (k_next kj) dst)%N).
    { intros dst Hpos Hdst. exists k'. rewrite lookup_insert_eq, Hpeers.
      split_and!; [done..|by apply next_pos_step]. }
    intros pkt [Hin|Hin]%elem_of_app.
    + pose proof (sm_net _ _ HS _ Hin) as Hp. destruct pkt; simpl in *; try done.
      destruct Hp as (Hcm & kj & Hkj & Hdst & Hpos). split; [done|]. destruct (decide (src = i)) as [->|Hne].
      * simplify_eq. by apply Htask.
      * exists kj. by rewrite lookup_insert_ne.
    + destruct Ht as
        [| |src args Hi|p term reply _|Hl|p term leader commit Hi|p Hl Hp Hne|src hb args Hi
         |p hb args reply _|cmd _]; simpl in Hin; try (by apply elem_of_nil in Hin).
      * by apply list_elem_of_fmap in Hin as (p & -> & _).
      * by apply list_elem_of_singleton in Hin as ->.
      * apply list_elem_of_fmap in Hin as (p & -> & Hp). split; [by apply Hsm|].
        apply Htask; [|done]. by apply (sm_pos _ _ HS i).
      * apply list_elem_of_singleton in Hin as ->. destruct (sm_net _ _ HS _ Hi) as (? & ki & Hki & _ & ?).
        rewrite Hk in Hki. injection Hki as <-. by apply p_args_small.
      * apply list_elem_of_singleton in Hin as ->. apply p_args_small; [by apply Hsm|by apply (sm_pos _ _ HS i)|done].
      * apply list_elem_of_singleton in Hin as ->. pose proof (sm_net _ _ HS _ Hi) as Ha.
        split; [done|]. by apply (p_append_small hb).
  - intros pkt [Hin%(sm_term _ _ HS)|Hin%Hps]%elem_of_app; [done|]. unfold two64 in *. lia.
Qed.
End trans.

(** ** A restart *)

Lemma small_restart m net i k v L :
  small m net → m !! i = Some k → 0 < length L → (∀ j e, L !! S j = Some e → entry_ok e) →
  small (<[i := p_restarted v L k]> m) (List.filter (λ p, negb (goroutine_of i p)) net).
Proof.
  intros HS Hk HL Hidx. constructor.
  - intros j kj. rewrite lookup_insert. case_decide; [|apply (sm_core _ _ HS)].
    intros [= <-]. destruct (sm_core _ _ HS _ _ Hk) as (? & _). split_and!; try done. simpl. lia.
  - intros j kj p. rewrite lookup_insert. case_decide; [|apply (sm_pos _ _ HS)].
    by intros [= <-].
  - intros pkt Hin. apply list_elem_of_In, filter_In in Hin as [Hin%list_elem_of_In Hg].
    pose proof (sm_net _ _ HS _ Hin) as Hp. destruct pkt; simpl in *; try done.
    destruct Hp as (? & kj & Hkj & ?). split; [done|]. exists kj. rewrite lookup_insert_ne; [done|].
    intros ->. by rewrite bool_decide_eq_true_2 in Hg.
  - intros pkt Hin. apply list_elem_of_In, filter_In in Hin as [Hin%list_elem_of_In _].
    by apply (sm_term _ _ HS).
Qed.

End bounds.
