(* ===== verification/Simulation.v ===== *)
(** Executions of the cluster are executions of the protocol.

    [abs] forgets everything of a cluster but the protocol state.  [cluster_inv]
    collects what the simulation needs: the numbers are small ([small]), and
    what a node has stored in its write-ahead log is what it would need after
    a restart ([stored]).  [exec_simulates]: an event of a cluster within the
    bounds of [sized] does not panic and is a step of the protocol. *)

From S2P Require Import Prelude Types RaftLog Storage Node Replication Cluster.
From S2P Require Import Protocol Refinement Ghost ElectionSafety LogSafety Bounds.
Import RLog.

(** Bounds on the logs and terms of a state.  The room left below 2^63 is what
    the index arithmetic of a step needs. *)
Definition log_limit : N := 2 ^ 60.
Definition term_limit : N := 2 ^ 63.

Section simulation.
Context {W : Type} `{HStorage : Storage W} `{HRand : Rand}.
Context (durable : Prop) `{Hpi : !ProofIrrel durable} (SS : durable → StorageSpec W).
Context (client : bytes → Prop).
Context (ids : list NodeID) (Hids : ∀ (d : durable) i, i ∈ ids → @storable_id W HStorage (SS d) i).
Implicit Types n : Node W.

(** ** The write-ahead log of a node *)

(** Executions with restarts need a storage that meets its specification;
    [durable] is the proposition under which it does, [False] where no
    assumption on the storage is made. *)
Definition journal (d : durable) (w : W) : list (list wrecord) := @wal_journal W HStorage (SS d) w.

(** The commands that come from clients ([client] is any property of theirs)
    and that the storage accepts. *)
Definition admissible (c : bytes) : Prop :=
  client c ∧ ∀ d : durable, @storable_command W HStorage (SS d) c.

Abbreviation ok_entry := (entry_ok log_limit admissible).

(** A restart gets back the term, the vote if one was cast in it, and entries
    of which [Q] holds. *)
Definition stored_as (Q : list LogEntry → Prop) n : Prop :=
  ∀ (d : durable) w, wal n = Some w →
    let r := replay_files (journal d w) in
    @wal_good W HStorage (SS d) w ∧ rc_term r = currentTerm n ∧ (votedFor n ≠ "" → rc_votedFor r = votedFor n) ∧
    Q (rc_entries r).

Section stored.
Context {Q : list LogEntry → Prop}.
Abbreviation stored := (stored_as Q).

Lemma stored_same n n' :
  wal n' = wal n → currentTerm n' = currentTerm n → votedFor n' = votedFor n →
  stored n → stored n'.
Proof. intros Hw Ht Hv Hs d w. rewrite Hw, Ht, Hv. apply Hs. Qed.

Lemma persist_journal d r n w :
  wal (persist r n) = Some w → (∀ w0, wal n = Some w0 → @wal_good W HStorage (SS d) w0) →
  @storable W HStorage (SS d) r →
  ∃ w0, wal n = Some w0 ∧ @wal_good W HStorage (SS d) w ∧ journal_add r (journal d w0) (journal d w).
Proof.
  unfold persist. destruct (wal n) as [w0|] eqn:Hw; simpl; [|congruence].
  intros Hw' Hg Hr. injection Hw' as <-. exists w0. split; [done|].
  destruct (@wal_append_ok W HStorage (SS d) w0 r (Hg _ eq_refl) Hr) as (w' & -> & ? & ?). done.
Qed.

Lemma persist_view r n :
  currentTerm (persist r n) = currentTerm n ∧ votedFor (persist r n) = votedFor n ∧
  log (persist r n) = log n ∧ id (persist r n) = id n.
Proof. unfold persist. by destruct (wal n). Qed.

(** The storage of a node before a term or a vote is written. *)
Definition stored_log n (t : Term) : Prop :=
  ∀ (d : durable) w, wal n = Some w →
    @wal_good W HStorage (SS d) w ∧ (rc_term (replay_files (journal d w)) <= t)%N ∧
    Q (rc_entries (replay_files (journal d w))).

Lemma stored_stored_log n t : stored n → (currentTerm n <= t)%N → stored_log n t.
Proof. intros Hs Ht d w Hw. destruct (Hs d w Hw) as (? & Hle & _ & ?). split_and!; [done|lia|done]. Qed.

Lemma stored_log_good n t d w : stored_log n t → wal n = Some w → @wal_good W HStorage (SS d) w.
Proof. intros Hs Hw. by destruct (Hs d w Hw). Qed.

Lemma stored_log_term n t :
  stored_log n t → (0 < t)%N → (t < two64)%N → stored_log (persist (TermRecord t) n) t.
Proof.
  intros Hs Hpos Ht d w Hw. apply (persist_journal d) in Hw as (w0 & Hw0 & Hg & Hadd); [|eauto using stored_log_good|done].
  destruct (Hs d _ Hw0) as (_ & _ & Hidx). destruct (replay_term_add _ _ _ Hadd Hpos) as [-> _].
  rewrite (replay_entries_add _ _ _ Hadd), app_nil_r. split_and!; [done|lia|done].
Qed.

Lemma stored_term t n :
  stored_log n t → currentTerm n = t → votedFor n = "" → (0 < t)%N → (t < two64)%N →
  stored (persist (TermRecord t) n).
Proof.
  intros Hs Ht Hv Hpos Hlt d w Hw.
  apply (persist_journal d) in Hw as (w0 & Hw0 & Hg & Hadd); [|eauto using stored_log_good|done]. simpl.
  destruct (persist_view (TermRecord t) n) as (-> & -> & _).
  destruct (replay_term_add _ _ _ Hadd Hpos) as [-> _]. destruct (Hs d _ Hw0) as (_ & _ & Hidx).
  rewrite (replay_entries_add _ _ _ Hadd), app_nil_r. split_and!; [done|done|by rewrite Hv|done].
Qed.

Lemma stored_vote v n :
  stored_log n (currentTerm n) → votedFor n = v → v ∈ ids → v ≠ "" →
  (0 < currentTerm n)%N → (currentTerm n < two64)%N →
  stored (persist (VoteRecord v (currentTerm n)) n).
Proof.
  intros Hs Hv Hin Hne Hpos Hlt d w Hw.
  apply (persist_journal d) in Hw as (w0 & Hw0 & Hg & Hadd); [|eauto using stored_log_good|split; auto]. simpl.
  destruct (persist_view (VoteRecord v (currentTerm n)) n) as (-> & -> & _).
  destruct (Hs d _ Hw0) as (_ & Hle & Hidx).
  destruct (replay_vote_add _ _ _ _ Hadd Hne Hpos Hle) as [-> ->].
  rewrite (replay_entries_add _ _ _ Hadd), app_nil_r. by split_and!.
Qed.

Lemma stored_becomeFollower t n :
  stored n → (currentTerm n < t)%N → (t < two64)%N → stored (becomeFollowerLocked t n).
Proof.
  intros Hs Ht Hlt. unfold becomeFollowerLocked. rewrite (proj2 (N.ltb_lt _ _) Ht).
  set (n1 := persist _ _).
  assert (Hn1 : stored n1).
  { apply stored_term; [|reflexivity|reflexivity|lia|done]. apply (stored_stored_log n); [done|lia]. }
  clearbody n1.
  eapply stored_same; [..|exact Hn1]; case_bool_decide;
    unfold resetElectionTimerLocked, cancelReplication, cancelContext, stopHeartbeatTimer; simpl;
    by destruct (replicateCancel n1).
Qed.

Lemma becomeFollower_log t n : (currentTerm n < t)%N → log (becomeFollowerLocked t n) = log n.
Proof.
  intros Ht. pose proof (f_equal k_log (becomeFollower_core t n Ht)) as Hl. cbn [core_of k_log p_bump] in Hl.
  destruct (log (becomeFollowerLocked t n)), (log n). simpl in Hl. by rewrite Hl.
Qed.

Lemma stored_becomeLeader n : stored n → stored (becomeLeaderLocked n).
Proof.
  intros Hs. eapply stored_same; [..|exact Hs]; unfold becomeLeaderLocked, stopElectionTimer; simpl;
    by destruct (electionTimer n).
Qed.

Lemma stored_startElection n n' args :
  stored n → (currentTerm n + 1 < two64)%N → id n ∈ ids → id n ≠ "" →
  startElection n = Ret (n', args) → stored n'.
Proof.
  intros Hs Ht Hin Hid. unfold startElection. set (n0 := set_votesReceived _ _).
  assert (Ht0 : currentTerm n0 = (currentTerm n +64 1)%N) by reflexivity.
  rewrite u64_add_small in Ht0 by lia.
  assert (Hv0 : votedFor n0 = id n) by reflexivity.
  assert (Hs0 : stored_log n0 (currentTerm n0)) by (rewrite Ht0; apply (stored_stored_log n); [done|lia]).
  clearbody n0. set (n1 := persist (TermRecord (currentTerm n0)) n0).
  assert (H1 : stored_log n1 (currentTerm n0)) by (apply stored_log_term; [done|lia..]).
  destruct (persist_view (TermRecord (currentTerm n0)) n0) as (Ht1 & Hv1 & _).
  fold n1 in Ht1, Hv1. clearbody n1. rewrite <- Ht1 in H1 |- *.
  set (n2 := persist _ n1). assert (Hn2 : stored n2).
  { apply stored_vote; [done|done|by rewrite Hv0|by rewrite Hv0|lia|lia]. }
  clearbody n2. set (n3 := resetElectionTimerLocked n2).
  assert (Hn3 : stored n3) by (by apply (stored_same n2)). clearbody n3.
  destruct (LastTerm (log n3)); simpl; [|done]. by intros [<- _]%Ret_pair_inj.
Qed.

Lemma stored_HandleRequestVote args n n' reply :
  HandleRequestVote args n = Ret (n', reply) → stored n →
  rv_CandidateID args ∈ ids → rv_CandidateID args ≠ "" → (0 < rv_Term args)%N →
  (rv_Term args < two64)%N → (currentTerm n < two64)%N → stored n'.
Proof.
  intros He Hs Hin Hc Hpos Hlt Hltn. unfold HandleRequestVote in He.
  set (n1 := if (currentTerm n <? rv_Term args)%N then _ else _) in He.
  assert (Hn1 : stored n1 ∧ (0 < currentTerm n1)%N ∧ (currentTerm n1 < two64)%N).
  { unfold n1. destruct (N.ltb_spec (currentTerm n) (rv_Term args)) as [?|]; [|split_and!; [done|lia|lia]].
    split; [by apply stored_becomeFollower|].
    change (currentTerm (becomeFollowerLocked (rv_Term args) n))
      with (k_term (core_of (becomeFollowerLocked (rv_Term args) n))).
    by rewrite becomeFollower_core. }
  clearbody n1. destruct Hn1 as (Hn1 & Ht1 & Ht1'). destruct (N.ltb_spec (rv_Term args) (currentTerm n1)).
  { by apply Ret_pair_inj in He as [<- _]. }
  apply bind_Ret in He as (ok & _ & He). destruct (_ && ok); apply Ret_pair_inj in He as [<- _]; [|done].
  set (n2 := resetElectionTimerLocked _).
  assert (Hs2 : stored_log n2 (currentTerm n1)) by (by apply (stored_stored_log n1)).
  assert (Ht2 : currentTerm n2 = currentTerm n1) by reflexivity.
  assert (Hv2 : votedFor n2 = rv_CandidateID args) by reflexivity. clearbody n2.
  rewrite <- Ht2 in *. by apply stored_vote; try congruence.
Qed.

Lemma stored_handleVoteReply p term reply n :
  stored n → (rvr_Term reply < two64)%N → stored (handleVoteReply p term reply n).
Proof.
  intros Hs Hlt. unfold handleVoteReply.
  destruct (_ || _); [done|]. destruct (N.ltb_spec (currentTerm n) (rvr_Term reply)).
  { by apply stored_becomeFollower. }
  destruct (rvr_VoteGranted reply); [|done]. destruct (map_get _ _ p); [done|].
  set (n1 := set_votes _ _). assert (Hn1 : stored n1) by (by apply (stored_same n)).
  clearbody n1. cbv zeta. destruct (_ <=? _); [by apply stored_becomeLeader|done].
Qed.

Lemma stored_advance n n' : advanceCommitIndexLocked n = Ret n' → stored n → stored n'.
Proof.
  intros He Hs. unfold advanceCommitIndexLocked in He. destruct (_ <=? _); [by injection He as <-|].
  apply bind_Ret in He as (x & _ & He). destruct (_ && _); [|by injection He as <-].
  apply bind_Ret in He as (t & _ & He). destruct (_ =? _)%N; injection He as <-; [|done].
  by apply (stored_same n).
Qed.

Lemma stored_record_success p es n n' : record_success p es n = Ret n' → stored n → stored n'.
Proof.
  intros He Hs. unfold record_success in He. apply bind_Ret in He as (e & _ & He).
  cbv zeta in He. set (n1 := if (_ <? _)%N then _ else n) in He.
  assert (Hn1 : stored n1) by (unfold n1; destruct (_ <? _)%N; [by apply (stored_same n)|done]).
  clearbody n1. set (n2 := if (_ <? _)%N then _ else n1) in He.
  assert (Hn2 : stored n2) by (unfold n2; destruct (_ <? _)%N; [by apply (stored_same n1)|done]).
  clearbody n2. by eapply stored_advance.
Qed.

Lemma stored_handleConflict p reply n n' :
  handleConflictLocked p reply n = Ret n' → stored n → stored n'.
Proof.
  intros He Hs. unfold handleConflictLocked in He.
  assert (Hset : ∀ v, stored (set_nextIndex v n)) by (intros v; by apply (stored_same n)).
  destruct (_ <? _)%N.
  - apply bind_Ret in He as (x & _ & He). destruct (_ <? _)%N; injection He as <-; apply Hset.
  - destruct (_ <? _)%N; [injection He as <-; apply Hset|].
    cbv zeta in He. destruct (_ <? _)%N; injection He as <-; [apply Hset|done].
Qed.

Lemma stored_append_reply p (hb : bool) term es reply n n' :
  (if hb then heartbeat_reply p term es reply n
   else fst <$> replicate_reply p term es reply n) = Ret n' → stored n →
  (aer_Term reply < two64)%N → stored n'.
Proof.
  intros He Hs Hlt. unfold heartbeat_reply, replicate_reply in He. destruct hb.
  - destruct (_ || _); [by injection He as <-|].
    destruct (N.ltb_spec (currentTerm n) (aer_Term reply)).
    { injection He as <-. by apply stored_becomeFollower. }
    destruct (aer_Success reply); [|by eapply stored_handleConflict].
    destruct (_ <? _); [by eapply stored_record_success|by injection He as <-].
  - destruct (_ || _); [by injection He as <-|].
    destruct (N.ltb_spec (currentTerm n) (aer_Term reply)).
    { injection He as <-. by apply stored_becomeFollower. }
    destruct (if aer_Success reply then _ else _) as [n1|] eqn:E; [|done]. injection He as <-.
    destruct (aer_Success reply); [by eapply stored_record_success|by eapply stored_handleConflict].
Qed.

End stored.

(** *** Writing entries *)

Definition all_ok (es : list LogEntry) : Prop := ∀ j e, es !! j = Some e → ok_entry e.

Lemma all_ok_app es1 es2 : all_ok es1 → all_ok es2 → all_ok (es1 ++ es2).
Proof. intros H1 H2 j e [?|[_ ?]]%lookup_app_Some; eauto. Qed.

Lemma stored_entries (Q Q' : list LogEntry → Prop) es n :
  stored_as Q n → all_ok es → (∀ rc, Q rc → Q' (rc ++ es)) → stored_as Q' (persist_entries es n).
Proof.
  revert Q n. induction es as [|e es IH]; intros Q n Hs Hes HQ.
  { intros d w Hw. destruct (Hs d w Hw) as (? & ? & ? & Hq). split_and!; try done.
    specialize (HQ _ Hq). by rewrite app_nil_r in HQ. }
  unfold persist_entries in *. simpl. apply (IH (λ rc, ∃ rc0, rc = rc0 ++ [e] ∧ Q rc0)).
  - intros d w Hw. destruct (Hes 0 e eq_refl) as (Hi & Ht & Hc).
    apply (persist_journal d) in Hw as (w0 & Hw0 & Hg & Hadd).
    2: { intros w1 Hw1. by destruct (Hs d w1 Hw1). }
    2: { split_and!; [unfold log_limit, two64 in *; lia|done|apply Hc]. }
    simpl. destruct (persist_view (EntryRecord (e_Index e) (e_Term e) (e_Command e)) n) as (-> & -> & _).
    destruct (replay_entry_add _ _ _ _ _ Hadd) as [-> ->]. destruct (Hs d _ Hw0) as (_ & ? & ? & Hq).
    split_and!; [done..|]. rewrite (replay_entries_add _ _ _ Hadd). eexists. split; [|exact Hq]. by destruct e.
  - intros j. apply (Hes (S j)).
  - intros rc (rc0 & -> & Hq). rewrite <- app_assoc. by apply HQ.
Qed.

(** The log to which the loop of [HandleAppendEntries] appends when it stops at
    index [idx] of [l], with the first of [es] to be written there: [l], if it
    ends before, or what is left of it, if its entry has another term. *)
Definition cut_at (l : RaftLog) (idx : LogIndex) (es : list LogEntry) (l' : RaftLog) : Prop :=
  (Contains l idx = false ∧ l' = l) ∨
  (Contains l idx = true ∧ TruncateAfter l (idx -64 1) = Ret l' ∧
   ∃ t e, TermAt l idx = Ret t ∧ head es = Some e ∧ t ≠ e_Term e).

Lemma stored_append_loop (Q : RaftLog → list LogEntry → Prop) prev i es n n' :
  append_entries_loop prev i es n = Ret n' → stored_as (Q (log n)) n → all_ok es →
  (∀ j l rc, j < length es →
     (∀ j', j = S j' → Contains (log n) (prev +64 (i + N.of_nat j') +64 1) = true) →
     cut_at (log n) (prev +64 (i + N.of_nat j) +64 1) (drop j es) l → Q (log n) rc →
     Q (Append l (drop j es)) (rc ++ drop j es)) →
  stored_as (Q (log n')) n'.
Proof.
  assert (Hlog : ∀ es n, log (persist_entries es n) = log n).
  { clear. induction es as [|e es IH]; intros n; [done|]. unfold persist_entries in *. simpl. rewrite IH.
    by destruct (persist_view (EntryRecord (e_Index e) (e_Term e) (e_Command e)) n) as (_ & _ & -> & _). }
  revert i. induction es as [|e es IH]; intros i He Hs Hes HQ; cbn [append_entries_loop] in He.
  { by injection He as <-. }
  cbv zeta in He. pose proof (HQ 0) as HQ0. rewrite N.add_0_r in HQ0. unfold cut_at in HQ0 at 1.
  destruct (Contains _ _) eqn:Hct.
  - apply bind_Ret in He as (t & Htm & He). destruct (N.eqb_spec t (e_Term e)) as [|Hne]; simpl in He.
    2: { apply bind_Ret in He as (l & Hl & [= <-]). rewrite Hlog.
      eapply stored_entries; [by apply (stored_same n)|done|]. intros rc Hq.
      apply HQ0; [simpl; lia|done|right; split_and!; [done..|by exists t, e]|done]. }
    apply (IH (i + 1)%N); [done|done|intros j; apply (Hes (S j))|]. intros j l rc Hj Hpv Hc Hq.
    apply (HQ (S j)); [simpl; lia| | |done].
    + intros j' [= <-]. destruct j as [|j]; [by rewrite N.add_0_r|].
      replace (i + N.of_nat (S j))%N with (i + 1 + N.of_nat j)%N by lia. by apply Hpv.
    + by replace (i + N.of_nat (S j))%N with (i + 1 + N.of_nat j)%N by lia.
  - injection He as <-. rewrite Hlog. eapply stored_entries; [by apply (stored_same n)|done|]. intros rc Hq.
    apply HQ0; [simpl; lia|done|left; by split|done].
Qed.

Lemma stored_HandleAppendEntries (Q : RaftLog → list LogEntry → Prop) args n n' reply :
  HandleAppendEntries args n = Ret (n', reply) → stored_as (Q (log n)) n →
  all_ok (ae_Entries args) → (ae_Term args < two64)%N →
  (∀ j l rc, j < length (ae_Entries args) → check_prev args n = Ret None →
     (∀ j', j = S j' → Contains (log n) (ae_PrevLogIndex args +64 N.of_nat j' +64 1) = true) →
     cut_at (log n) (ae_PrevLogIndex args +64 N.of_nat j +64 1) (drop j (ae_Entries args)) l → Q (log n) rc →
     Q (Append l (drop j (ae_Entries args))) (rc ++ drop j (ae_Entries args))) →
  stored_as (Q (log n')) n'.
Proof.
  intros He Hs Hes Hlt HQ. unfold HandleAppendEntries in He.
  destruct (ae_Term args <? currentTerm n)%N. { by apply Ret_pair_inj in He as [<- _]. }
  set (n1 := if (currentTerm n <? ae_Term args)%N then _ else _) in He.
  assert (Hn1 : stored_as (Q (log n)) n1 ∧ log n1 = log n).
  { unfold n1. destruct (N.ltb_spec (currentTerm n) (ae_Term args)); [|done].
    split; [by apply stored_becomeFollower|by apply becomeFollower_log]. }
  clearbody n1. destruct Hn1 as [Hn1 Hl1]. set (n2 := if bool_decide (state n1 = Follower) then _ else _) in He.
  assert (Hn2 : stored_as (Q (log n)) n2 ∧ log n2 = log n).
  { unfold n2. case_bool_decide; [done|]. split; [apply (stored_same n1); [..|done]|rewrite <- Hl1];
      unfold cancelReplication, cancelContext, stopHeartbeatTimer; simpl;
      by destruct (replicateCancel n1). }
  clearbody n2. destruct Hn2 as [Hn2 Hl2]. cbv zeta in He. set (n3 := resetElectionTimerLocked _) in He.
  assert (Hn3 : stored_as (Q (log n)) n3 ∧ log n3 = log n) by (split; [by apply (stored_same n2)|done]).
  clearbody n3. destruct Hn3 as [Hn3 Hl3]. apply bind_Ret in He as (o & Hck & He).
  assert (Hck' : check_prev args n = Ret o) by (rewrite <- Hck; unfold check_prev; by rewrite Hl3).
  destruct o as [[ct ci]|]. { apply Ret_pair_inj in He as [<- _]. by rewrite Hl3. }
  apply bind_Ret in He as (n4 & Hl & [<- _]%Ret_pair_inj).
  assert (Hn4 : stored_as (Q (log n4)) n4).
  { rewrite <- Hl3 in Hn3. apply (stored_append_loop Q _ _ _ _ _ Hl Hn3 Hes). intros j l rc Hj Hpv.
    rewrite Hl3, N.add_0_l in *. apply HQ; [done..|]. intros j' Hj'. specialize (Hpv j' Hj'). by rewrite N.add_0_l in Hpv. }
  unfold follower_commit. by case_match.
Qed.

Lemma stored_submit (Q : RaftLog → list LogEntry → Prop) command n :
  log_shape (log n) → (N.of_nat (length (entries (log n))) < log_limit)%N →
  (currentTerm n < two64)%N → admissible command → stored_as (Q (log n)) n →
  (∀ e rc, ok_entry e → e_Index e = N.of_nat (length (entries (log n))) → Q (log n) rc → Q (Append (log n) [e]) (rc ++ [e])) →
  stored_as (Q (log (submit_append command n).1)) (submit_append command n).1.
Proof.
  intros Hl Hlen Ht Hc Hs HQ. unfold submit_append. destruct (negb _); [done|].
  set (e := mkEntry _ _ _).
  assert (Hi : e_Index e = N.of_nat (length (entries (log n)))).
  { unfold e. simpl. rewrite LastIndex_eq by done. destruct Hl.
    rewrite u64_add_small by (unfold log_limit, two64 in *; lia). lia. }
  assert (Hok : all_ok [e]).
  { intros [|j] x [= <-]. unfold entry_ok. rewrite Hi. unfold e. simpl. split_and!; [lia|done..]. }
  set (n1 := set_log (Append (log n) [e]) n).
  assert (Hn1 : stored_as (Q (log n)) n1) by (by apply (stored_same n)).
  pose proof (stored_entries _ (Q (log n1)) [e] n1 Hn1 Hok (λ rc, HQ e rc (Hok 0 e eq_refl) Hi)) as Hn2.
  cbv zeta. unfold persist_entries in Hn2. simpl in Hn2. unfold persist, PersistEntry in *.
  change (wal n1) with (wal n) in *. destruct (wal n) as [w|]; [|done].
  destruct (wal_append w _) as [w' [msg|]]; exact Hn2.
Qed.

Abbreviation stored := (stored_as all_ok).

(** ** Reactions *)

(** What the apply loop and the consumer of [applyCh] do. *)
Inductive apply_step (s : server W) : server W → Prop :=
| as_collect pending :
    sv_applier s = None → apply_collect (sv_node s) = Ret (Some pending) →
    apply_step s (mkServer (sv_node s) (Some pending) (sv_consumed s))
| as_send e es new n :
    sv_applier s = Some (e :: es, new) → apply_send e (sv_node s) = Some n →
    apply_step s (mkServer n (Some (es, new)) (sv_consumed s))
| as_finish new :
    sv_applier s = Some ([], new) →
    apply_step s (mkServer (apply_finish new (sv_node s)) None (sv_consumed s))
| as_consume e es :
    applyCh (sv_node s) = e :: es →
    apply_step s (mkServer (set_applyCh es (sv_node s)) (sv_applier s) (sv_consumed s ++ [e])).

(** Everything else leaves the apply side alone. *)
Definition quiet (s s' : server W) : Prop :=
  queue_of (sv_node s') = queue_of (sv_node s) ∧ sv_applier s' = sv_applier s ∧
  sv_consumed s' = sv_consumed s.

Lemma apply_step_core s s' : apply_step s s' → core_of (sv_node s') = core_of (sv_node s).
Proof.
  intros Hs. destruct Hs as [?? _|?? ? n _ Hsend| |]; try done. simpl.
  unfold apply_send in Hsend. case_match; [|done]. by injection Hsend as <-.
Qed.

Lemma apply_step_stored Q s s' : apply_step s s' → stored_as Q (sv_node s) → stored_as Q (sv_node s').
Proof.
  intros Hs. destruct Hs as [?? _|?? ? n _ Hsend| |]; try (intros; by apply (stored_same (sv_node s))).
  simpl. unfold apply_send in Hsend. case_match; [|done]. injection Hsend as <-.
  intros. by apply (stored_same (sv_node s)).
Qed.

(** The numbers of the apply loop. *)
Definition applier_small (s : server W) : Prop :=
  (lastApplied (sv_node s) <= log_limit)%N ∧
  match sv_applier s with Some (_, new) => (new <= log_limit)%N | None => True end.

Definition server_ok (s : server W) : Prop :=
  core_small log_limit admissible (core_of (sv_node s)) ∧ stored (sv_node s) ∧ applier_small s ∧
  (N.of_nat (length (entries (log (sv_node s)))) < log_limit)%N ∧
  (currentTerm (sv_node s) + 1 < two64)%N.

(** A reaction that does not panic, that the protocol allows, and that keeps
    the storage and the apply side in order. *)
Definition good (net : list packet) (i : NodeID) (s : server W)
    (r : outcome (server W * list packet)) : Prop :=
  ∃ s' ps, r = Ret (s', ps) ∧
    ptrans net i (core_of (sv_node s)) (core_of (sv_node s')) ps ∧
    logs_by admissible (core_of (sv_node s)) (core_of (sv_node s')) ∧
    stored (sv_node s') ∧ applier_small s' ∧ (quiet s s' ∨ apply_step s s').

Lemma good_react net i s o r n' ps :
  react s o = Some r → o = Ret (n', ps) →
  applier_small s → queue_of n' = queue_of (sv_node s) → stored n' →
  ptrans net i (core_of (sv_node s)) (core_of n') ps →
  logs_by admissible (core_of (sv_node s)) (core_of n') → good net i s r.
Proof.
  intros Hr -> Ha Hq Hs Ht Hlog. unfold react in Hr. cbn [mbind outcome_bind] in Hr. injection Hr as <-.
  exists (set_node n' s), ps. split_and!; [done..| |left; by split_and!].
  unfold applier_small in *. simpl. injection Hq as -> _. done.
Qed.

Lemma server_ok_shape s : server_ok s → log_shape (log (sv_node s)).
Proof.
  intros ((_ & Hlen0 & _) & _ & _ & Hlen & _). split; [done|]. unfold log_limit, two63 in *. lia.
Qed.

Lemma server_ok_index s : server_ok s → index_bounds (sv_node s).
Proof.
  intros ((_ & _ & _ & Hn & Hm & _) & _). split; intros p x Hx; [apply Hn in Hx|apply Hm in Hx];
    unfold log_limit, two63 in *; lia.
Qed.

Section reactions.
Context (net : list packet) (i : NodeID) (s : server W).
Context (Hok : server_ok s) (Hid : id (sv_node s) = i) (Hin : i ∈ ids) (Hne : i ≠ "").

Local Lemma Hshape : log_shape (log (sv_node s)).
Proof. by apply server_ok_shape. Qed.
Local Lemma Hindex : index_bounds (sv_node s).
Proof. by apply server_ok_index. Qed.
Local Lemma Hstored : stored (sv_node s).
Proof. apply Hok. Qed.
Local Lemma Happlier : applier_small s.
Proof. apply Hok. Qed.

Lemma on_election_good r : on_election s = Some r → good net i s r.
Proof.
  intros Hr. destruct (startElection_refines (sv_node s)) as (n' & He & Hc & Hq).
  { split; [apply Hshape|apply Hok]. }
  eapply good_react; [exact Hr|by rewrite He|apply Happlier|done| | |].
  - eapply stored_startElection; [apply Hstored| | | |done]; [apply Hok|by rewrite Hid|congruence].
  - rewrite Hc. assert (Hid' : id n' = i ∧ peers n' = peers (sv_node s)).
    { rewrite <- Hid. by injection Hc. }
    destruct Hid' as [-> ->]. apply pt_elect.
  - rewrite Hc. by left.
Qed.

Lemma on_vote_request_good src args r :
  VoteReq src i args ∈ net → rv_CandidateID args ∈ ids → rv_CandidateID args ≠ "" →
  (0 < rv_Term args)%N → (rv_Term args < two64)%N →
  on_vote_request src i args s = Some r → good net i s r.
Proof.
  intros Hreq Hci Hc Hpos Hlt Hr.
  destruct (HandleRequestVote_refines args (sv_node s) Hshape) as (n' & reply & He & Hp & Hq).
  eapply good_react; [exact Hr|by rewrite He|apply Happlier|done| | |].
  - eapply stored_HandleRequestVote; eauto using Hstored. apply Hok.
  - pose proof (pt_vote _ _ (core_of (sv_node s)) _ _ Hreq) as Ht. by rewrite Hp in Ht.
  - left. apply p_vote_cases in Hp as [[-> _]|(-> & _)]; apply p_observe_log.
Qed.

Lemma on_vote_reply_good p term reply r :
  VoteRep i p term reply ∈ net → (rvr_Term reply < two64)%N → on_vote_reply p term reply s = Some r → good net i s r.
Proof.
  intros Hrep Hlt Hr. destruct (handleVoteReply_refines p term reply (sv_node s) Hshape) as [Hc Hq].
  eapply good_react; [exact Hr|done|apply Happlier|done|apply stored_handleVoteReply; [apply Hstored|done]|..].
  - rewrite Hc. by apply pt_vote_reply.
  - left. rewrite Hc. by destruct (p_vote_reply_cases p term reply (core_of (sv_node s)))
      as [->|[[? ->]|(_ & _ & _ & _ & [->|[-> _]])]].
Qed.

Lemma on_heartbeats_good r : on_heartbeats s = Some r → good net i s r.
Proof.
  unfold on_heartbeats, sendHeartbeats. case_bool_decide as Hl; [|done]. intros Hr.
  eapply good_react; [exact Hr|done|apply Happlier|done|apply Hstored| |by left]. rewrite Hid. by apply pt_heartbeats.
Qed.

Lemma on_heartbeat_task_good p term leader commit r :
  HbTask i p term leader commit ∈ net → (0 < map_get 0 (nextIndex (sv_node s)) p)%N →
  on_heartbeat_task i p term leader commit s = Some r → good net i s r.
Proof.
  intros Htask Hpos Hr. eapply good_react; [exact Hr| |apply Happlier| |apply Hstored| |by left].
  - by rewrite (heartbeat_args_refines p term leader commit _ Hshape Hindex Hpos).
  - done.
  - by apply pt_heartbeat_task.
Qed.

Lemma on_replicate_good p r :
  (state (sv_node s) = Leader → p ∈ peers (sv_node s) → 0 < map_get 0 (nextIndex (sv_node s)) p)%N →
  on_replicate p s = Some r → good net i s r.
Proof.
  intros Hpos. unfold on_replicate. case_bool_decide as Hp; [|done].
  destruct (decide (state (sv_node s) = Leader)) as [Hl|Hl].
  - rewrite (replicate_prepare_refines p _ Hshape Hindex Hl) by auto. cbv zeta.
    destruct (ae_Entries _) as [|e es] eqn:Hes; [done|]. intros Hr.
    eapply good_react; [exact Hr|done|apply Happlier|done|apply Hstored| |by left]. rewrite Hid in *.
    apply (pt_replicate net i (core_of (sv_node s)) p); [done..|]. simpl in *. by rewrite Hes.
  - unfold replicate_prepare. by rewrite bool_decide_eq_false_2.
Qed.

Lemma on_append_request_good src hb args r :
  AppReq src i hb args ∈ net → args_small log_limit admissible hb args → (ae_Term args < two64)%N →
  on_append_request src i hb args s = Some r → good net i s r.
Proof.
  intros Hreq (Hprev & _ & Hlen & Hidx & _) Hlt Hr.
  destruct (HandleAppendEntries_refines args (sv_node s) Hshape) as (n' & reply & He & Hp & Hq).
  { unfold args_bounds, log_limit, two63 in *. lia. }
  { pose proof (merge_log_length (entries (log (sv_node s)))
      (S (N.to_nat (ae_PrevLogIndex args))) (ae_Entries args)).
    destruct Hok as (_ & _ & _ & Hl & _). unfold log_limit, two63 in *. lia. }
  eapply good_react; [exact Hr|by rewrite He|apply Happlier|done| | |].
  - apply (stored_HandleAppendEntries (λ _, all_ok) _ _ _ _ He); [apply Hstored|done..|].
    intros j l rc _ _ _ _ Hrc. apply all_ok_app; [done|]. intros x e Hx. rewrite lookup_drop in Hx. eauto.
  - pose proof (pt_append _ _ (core_of (sv_node s)) _ _ _ Hreq) as Ht. by rewrite Hp in Ht.
  - apply p_append_cases in Hp as [(_ & -> & _)|(_ & [(ct & ci & _ & -> & _)|(_ & -> & _)])];
      [by left|by right; left|].
    right. left. match goal with |- context [p_follow_commit ?lc ?x] =>
      destruct (p_follow_commit_same lc x) as (_&_&_&_&_&->&_) end. done.
Qed.

Lemma on_append_reply_good p hb args reply r :
  AppRep i p hb args reply ∈ net → args_small log_limit admissible hb args → (aer_Term reply < two64)%N →
  on_append_reply p hb args reply s = Some r → good net i s r.
Proof.
  intros Hrep (_ & _ & _ & Hidx & Hnil) Hlt Hr.
  destruct (append_reply_refines p hb args reply (sv_node s) Hshape Hindex Hnil) as (n' & He & Hc & Hq).
  { intros e He. rewrite last_lookup in He. apply Hidx in He as (He & _). unfold log_limit, two63 in *. lia. }
  eapply good_react; [exact Hr|by rewrite He|apply Happlier|done| | |].
  - eapply stored_append_reply; eauto using Hstored.
  - rewrite Hc. by apply (pt_append_reply _ _ _ _ hb).
  - left. rewrite Hc. destruct (p_append_reply_cases p args reply (core_of (sv_node s)))
      as [->|[[? ->]|(_ & _ & _ & [(e & _ & _ & ->)|(_ & ->)])]]; [done..| |].
    + by destruct (p_success_same p (e_Index e) (core_of (sv_node s))) as (_&_&_&_&->&_).
    + by destruct (p_conflict_same p reply (core_of (sv_node s))) as (_&_&_&_&->&_).
Qed.

Lemma on_submit_good command r : admissible command → on_submit command s = Some r → good net i s r.
Proof.
  intros Hcmd Hr. destruct (decide (state (sv_node s) = Leader)) as [Hl|Hl].
  - destruct (submit_refines command (sv_node s) Hshape Hl) as [Hc Hq].
    eapply good_react; [exact Hr|done|apply Happlier|done| | |].
    + pose proof (stored_submit (λ _, all_ok) command (sv_node s) Hshape) as Hsub. apply Hsub; try apply Hok; [done|].
      intros e rc He Hi Hrc. apply all_ok_app; [done|]. by intros [|j] x [= <-].
    + rewrite Hc. by apply pt_submit.
    + rewrite Hc. right. right. by exists command.
  - unfold on_submit in Hr. rewrite submit_not_leader in Hr by done.
    eapply good_react; [exact Hr|done|apply Happlier|done|apply Hstored|apply pt_idle|by left].
Qed.

Lemma good_apply s' : apply_step s s' → applier_small s' → good net i s (Ret (s', [])).
Proof.
  intros Hs Ha. exists s', [].
  split_and!; [done| | |by eapply apply_step_stored, Hstored|done|by right];
    rewrite (apply_step_core _ _ Hs); [apply pt_idle|by left].
Qed.

Lemma on_apply_collect_good r : on_apply_collect s = Some r → good net i s r.
Proof.
  unfold on_apply_collect. destruct (sv_applier s) eqn:Ea; [done|].
  pose proof Happlier as [Hla _]. pose proof Hok as ((_ & _ & Hc & _) & _). simpl in Hc.
  assert (Hcol : ∃ o, apply_collect (sv_node s) = Ret o ∧
                      ∀ es new, o = Some (es, new) → (new <= log_limit)%N).
  { unfold apply_collect. destruct (N.leb_spec (commitIndex (sv_node s)) (lastApplied (sv_node s))).
    { by exists None. }
    rewrite u64_add_small by (unfold log_limit, two64 in *; lia).
    rewrite Entries_spec; [|apply Hshape|unfold log_limit, two63 in *; lia..].
    cbn [mbind outcome_bind]. eexists. split; [reflexivity|]. by intros es new [= _ <-]. }
  destruct Hcol as (o & Ho & Hnew). rewrite Ho. destruct o as [[es new]|]; [|done]. intros [= <-].
  apply good_apply; [by apply as_collect|]. split; [done|]. simpl. by eapply Hnew.
Qed.

Lemma on_apply_send_good r : on_apply_send s = Some r → good net i s r.
Proof.
  unfold on_apply_send. destruct (sv_applier s) as [[[|e es] new]|] eqn:Ea; try done.
  destruct (apply_send e (sv_node s)) as [n|] eqn:Es; [|done]. intros [= <-].
  apply good_apply; [by eapply as_send|]. pose proof Happlier as [Hla Hn]. rewrite Ea in Hn.
  split; [|done]. unfold apply_send in Es. case_match; [|done]. by injection Es as <-.
Qed.

Lemma on_apply_finish_good r : on_apply_finish s = Some r → good net i s r.
Proof.
  unfold on_apply_finish. destruct (sv_applier s) as [[[|e es] new]|] eqn:Ea; try done.
  intros [= <-]. apply good_apply; [by apply as_finish|].
  pose proof Happlier as [Hla Hn]. rewrite Ea in Hn. by split.
Qed.

Lemma on_consume_good r : on_consume s = Some r → good net i s r.
Proof.
  unfold on_consume. destruct (applyCh (sv_node s)) as [|e es] eqn:Ea; [done|].
  intros [= <-]. apply good_apply; [by apply as_consume|]. apply Happlier.
Qed.

End reactions.

(** ** Restarts *)

(** A server with a good write-ahead log gets back what was stored. *)
Lemma on_restart_stored Q (d : durable) s w :
  stored_as Q (sv_node s) → wal (sv_node s) = Some w → wal_listed w = true →
  ∃ s' v, let L := rc_entries (replay_files (journal d w)) in
    on_restart s = Some (Ret (s', [])) ∧
    core_of (sv_node s') = p_restarted v (sentinel :: L) (core_of (sv_node s)) ∧
    (votedFor (sv_node s) ≠ "" → v = votedFor (sv_node s)) ∧ stored_as Q (sv_node s') ∧ applier_small s'.
Proof.
  intros Hs Hw Hl. unfold on_restart. rewrite Hw.
  destruct (Hs d _ Hw) as (Hg & Ht & Hv & Hidx).
  destruct (@wal_reopen_ok W HStorage (SS d) w Hg Hl) as (w1 & -> & Hg1 & Hl1 & Hj1).
  destruct (@wal_replay_ok W HStorage (SS d) w1 Hg1 Hl1) as (w2 & Hrep & Hg2 & Hj2).
  unfold Replay. cbn [wal NewNode]. rewrite Hrep, Hj1. cbn [mbind outcome_bind]. fold (journal d w).
  set (rc := replay_files (journal d w)) in *.
  set (n1 := match rc_entries rc with [] => _ | _ => _ end).
  assert (Hn1 : core_of n1 = p_restarted (rc_votedFor rc) (sentinel :: rc_entries rc) (core_of (sv_node s))
                ∧ wal n1 = Some w2 ∧ lastApplied n1 = 0%N).
  { unfold n1, p_restarted, core_of. simpl. rewrite <- Ht. by destruct (rc_entries rc). }
  clearbody n1. destruct Hn1 as (Hc & Hw1 & Hla).
  exists (mkServer (Start n1) None []), (rc_votedFor rc). simpl. split_and!; [done| |done| |].
  - rewrite <- Hc. apply resetElectionTimer_core.
  - apply (stored_same n1); [done..|]. intros d' w' Hw'. rewrite Hw1 in Hw'. injection Hw' as <-.
    rewrite (proof_irrel d' d). injection Hc as _ _ Ht1 Hv1 _ _ _ _ _ _ _. simpl.
    rewrite Ht1, Hv1. unfold journal. rewrite Hj2, Hj1. by split_and!.
  - split; [|done]. change (lastApplied n1 <= log_limit)%N. rewrite Hla. done.
Qed.

Lemma on_restart_good (d : durable) s r :
  stored (sv_node s) → (∀ w, wal (sv_node s) = Some w → wal_listed w = true) → on_restart s = Some r →
  ∃ s' v L, r = Ret (s', []) ∧ core_of (sv_node s') = p_restarted v L (core_of (sv_node s)) ∧
    (votedFor (sv_node s) ≠ "" → v = votedFor (sv_node s)) ∧ 0 < length L ∧
    (∀ j e, L !! S j = Some e → ok_entry e) ∧
    stored (sv_node s') ∧ applier_small s'.
Proof.
  intros Hs Hl Hr. destruct (wal (sv_node s)) as [w|] eqn:Hw.
  2: { unfold on_restart in Hr. by rewrite Hw in Hr. }
  destruct (on_restart_stored _ d s w Hs Hw (Hl w eq_refl)) as (s' & v & Hr' & Hc & Hv & Hst & Ha).
  rewrite Hr in Hr'. injection Hr' as ->. destruct (Hs d w Hw) as (_ & _ & _ & Hidx).
  eexists s', v, _. split_and!; [done|exact Hc|done|simpl; lia|exact Hidx|done..].
Qed.

(** What a restarted server is, whatever its storage does. *)
Lemma on_restart_core s s' ps :
  on_restart s = Some (Ret (s', ps)) →
  ps = [] ∧ core_of (sv_node s') =
    mkCore (id (sv_node s)) (peers (sv_node s)) (currentTerm (sv_node s')) (votedFor (sv_node s'))
      (entries (log (sv_node s'))) Follower 0 ∅ ∅ 0 ∅ ∧
  sv_applier s' = None ∧ sv_consumed s' = [] ∧ applyCh (sv_node s') = [] ∧ lastApplied (sv_node s') = 0%N.
Proof.
  unfold on_restart. destruct (wal (sv_node s)) as [w|]; [|done].
  destruct (wal_reopen w) as [w1|]; [|done]. unfold Replay. cbn [wal NewNode].
  destruct (wal_replay w1) as [[w2 [rc|]]|]; cbn [mbind outcome_bind]; [|done..].
  intros [= <- <-]. split; [done|]. simpl. by destruct (rc_entries rc).
Qed.

(** ** The simulation *)

Definition abs (c : cluster W) : pstate :=
  ((λ s, core_of (sv_node s)) <$> cl_servers c, cl_net c).

Definition sized (c : cluster W) : Prop :=
  ∀ i s, cl_servers c !! i = Some s →
    (N.of_nat (length (entries (log (sv_node s)))) < log_limit)%N ∧
    (currentTerm (sv_node s) + 1 < two64)%N.

(** A server restarts only while all files of its write-ahead log are found. *)
Definition restart_ready (ev : event) (c : cluster W) : Prop :=
  match ev with
  | EvRestart i => ∀ s, cl_servers c !! i = Some s → ∀ w, wal (sv_node s) = Some w → wal_listed w = true
  | _ => True
  end.

#[global] Instance sized_dec (c : cluster W) : Decision (sized c).
Proof.
  refine (cast_if (decide (map_Forall (λ _ s,
    (N.of_nat (length (entries (log (sv_node s)))) < log_limit)%N ∧
    (currentTerm (sv_node s) + 1 < two64)%N) (cl_servers c)))); done.
Defined.

#[global] Instance restart_ready_dec ev (c : cluster W) : Decision (restart_ready ev c).
Proof.
  destruct ev as [| | | | | | | | | | | | |i]; simpl; [apply _..|].
  destruct (cl_servers c !! i) as [s|].
  - destruct (wal (sv_node s)) as [w|] eqn:E.
    + destruct (wal_listed w) eqn:El.
      * left. intros s' [= <-] w' Hw'. rewrite E in Hw'. by injection Hw' as <-.
      * right. intros H. specialize (H s eq_refl w E). congruence.
    + left. intros s' [= <-] w'. by rewrite E.
  - left. by intros s'.
Defined.

Definition cluster_inv (c : cluster W) : Prop :=
  small log_limit admissible (abs c).1 (abs c).2 ∧
  ∀ i s, cl_servers c !! i = Some s → stored (sv_node s) ∧ applier_small s.

(** One server moved. *)
Definition live_move (c c' : cluster W) : Prop :=
  ∃ i s s' ps, cl_servers c !! i = Some s ∧
    c' = mkCluster (<[i := s']> (cl_servers c)) (cl_net c ++ ps) ∧
    ptrans (cl_net c) i (core_of (sv_node s)) (core_of (sv_node s')) ps ∧
    (quiet s s' ∨ apply_step s s').

(** Server [i] restarted and has its term, vote and log. *)
Definition restart_move (i : NodeID) (c c' : cluster W) : Prop :=
  ∃ s s', cl_servers c !! i = Some s ∧
    c' = mkCluster (<[i := s']> (cl_servers c)) (List.filter (λ p, negb (goroutine_of i p)) (cl_net c)) ∧
    core_of (sv_node s') = p_restarted (votedFor (sv_node s')) (k_log (core_of (sv_node s))) (core_of (sv_node s)) ∧
    (votedFor (sv_node s) ≠ "" → votedFor (sv_node s') = votedFor (sv_node s)) ∧
    sv_applier s' = None ∧ sv_consumed s' = [] ∧ applyCh (sv_node s') = [] ∧ lastApplied (sv_node s') = 0%N.

Lemma abs_lookup c i s :
  cl_servers c !! i = Some s → (abs c).1 !! i = Some (core_of (sv_node s)).
Proof. intros Hs. simpl. by rewrite lookup_fmap, Hs. Qed.

Lemma abs_lookup_inv c i k :
  (abs c).1 !! i = Some k → ∃ s, cl_servers c !! i = Some s ∧ k = core_of (sv_node s).
Proof. simpl. rewrite lookup_fmap. destruct (cl_servers c !! i); naive_solver. Qed.

Lemma live_move_gstep (c c' : cluster W) g :
  live_move c c' → ∃ g', gstep_live (abs c, g) (abs c', g').
Proof.
  intros (i & s & s' & ps & Hs & -> & Ht & _). eexists. unfold abs. simpl. rewrite fmap_insert.
  eapply (gsl_trans _ _ i (core_of (sv_node s))); [|done]. by rewrite lookup_fmap, Hs.
Qed.

Lemma abs_restart c i s' k :
  core_of (sv_node s') = k →
  abs (mkCluster (<[i := s']> (cl_servers c)) (List.filter (λ p, negb (goroutine_of i p)) (cl_net c))) =
  (<[i := k]> (abs c).1, List.filter (λ p, negb (goroutine_of i p)) (abs c).2).
Proof. intros <-. unfold abs. cbn [cl_servers cl_net fst snd]. by rewrite fmap_insert. Qed.

Lemma restart_move_gstep (c c' : cluster W) g i :
  restart_move i c c' → gstep_live (abs c, g) (abs c', g).
Proof.
  intros (s & s' & Hs & -> & Hc & Hv & _). rewrite (abs_restart _ _ _ _ Hc).
  apply (gsl_restart _ _ i (core_of (sv_node s))); [|done]. by apply (abs_lookup c).
Qed.

Lemma at_server_Some i (f : server W → option (outcome (server W * list packet)))
    (c : cluster W) (r : outcome (cluster W)) :
  at_server i f c = Some r →
  ∃ s o, cl_servers c !! i = Some s ∧ f s = Some o ∧
    r = ('(s', ps) ← o; Ret (mkCluster (<[i := s']> (cl_servers c)) (cl_net c ++ ps))).
Proof.
  unfold at_server. destruct (cl_servers c !! i) as [s|]; [|done]. cbn [mbind option_bind].
  destruct (f s) as [o|] eqn:E; [|done]. cbn [mbind option_bind]. intros Hr. injection Hr as <-.
  by exists s, o.
Qed.

Section exec.
Context (Hnonempty : "" ∉ ids).
Context (c : cluster W) (g : ghost).
Context (HE : election_inv ids (abs c).1 (abs c).2 g) (HC : cluster_inv c) (HZ : sized c).

Lemma server_ok_at i s : cl_servers c !! i = Some s → server_ok s.
Proof.
  intros Hs. destruct HC as [Hsm Hst]. destruct (Hst _ _ Hs) as [? ?]. destruct (HZ _ _ Hs) as [? ?].
  split_and!; try done. by apply (sm_core _ _ _ _ Hsm i), abs_lookup.
Qed.

Lemma id_at i s : cl_servers c !! i = Some s → id (sv_node s) = i ∧ i ∈ ids ∧ i ≠ "".
Proof.
  intros Hs%abs_lookup. destruct (ei_core _ _ _ _ HE _ _ Hs) as (Hid & _ & Hi).
  split_and!; [done..|]. by intros ->.
Qed.

Lemma move_good i s o r :
  cl_servers c !! i = Some s → good (cl_net c) i s o →
  r = ('(s', ps) ← o; Ret (mkCluster (<[i := s']> (cl_servers c)) (cl_net c ++ ps))) →
  ∃ c', r = Ret c' ∧ cluster_inv c' ∧ live_move c c'.
Proof.
  intros Hs (s' & ps & -> & Ht & Hby & Hst & Ha & Hor) ->. cbn [mbind outcome_bind].
  eexists. split; [reflexivity|]. split; [|by exists i, s, s', ps].
  destruct HC as [Hsm Hall]. split.
  - unfold abs. cbn [cl_servers cl_net]. rewrite fmap_insert.
    eapply (small_trans log_limit admissible); [exact Hsm|by apply abs_lookup|done|..].
    + destruct (HZ _ _ Hs) as [Hlen _]. simpl. lia.
    + done.
    + by destruct (HZ _ _ Hs).
    + done.
  - intros j sj. cbn [cl_servers]. rewrite lookup_insert. case_decide; [by intros [= <-]|apply Hall].
Qed.

Lemma exec_live ev r :
  exec ev c = Some r → (∀ i, ev ≠ EvRestart i) → (∀ i cmd, ev = EvSubmit i cmd → admissible cmd) →
  ∃ c', r = Ret c' ∧ cluster_inv c' ∧ live_move c c'.
Proof.
  intros Hx Hnr Hadm. pose proof (proj1 HC) as Hsm.
  assert (Hat : ∀ i f, at_server i f c = Some r →
    (∀ s o, cl_servers c !! i = Some s → server_ok s → id (sv_node s) = i → i ∈ ids → i ≠ "" →
       f s = Some o → good (cl_net c) i s o) →
    ∃ c', r = Ret c' ∧ cluster_inv c' ∧ live_move c c').
  { intros i f (s & o & Hs & Hf & Hr)%at_server_Some Hg. destruct (id_at _ _ Hs) as (? & ? & ?).
    eapply move_good; [done| |exact Hr]. eauto using server_ok_at. }
  destruct ev as [i|k|k|i|k|i p|k|k|i cmd|i|i|i|i|i]; cbn [exec] in Hx;
    try (destruct (cl_net c !! k) as [pkt|] eqn:Hin; [|done]; apply list_elem_of_lookup_2 in Hin;
         pose proof (sm_net _ _ _ _ Hsm _ Hin) as Hpk; pose proof (sm_term _ _ _ _ Hsm _ Hin) as Hpt;
         destruct pkt; try done);
    try (eapply Hat; [exact Hx|]; intros s o Hs Hok Hid Hids' Hne Ho).
  - by apply on_election_good.
  - destruct (ei_req _ _ _ _ HE _ _ _ Hin) as (Hcid & Hsrc & Hpos).
    eapply on_vote_request_good; try done; rewrite Hcid; [done|by intros ->].
  - by eapply on_vote_reply_good.
  - by apply on_heartbeats_good.
  - destruct Hpk as (_ & kk & Hkk & _ & Hpos). rewrite (abs_lookup _ _ _ Hs) in Hkk.
    injection Hkk as <-. by eapply on_heartbeat_task_good.
  - eapply on_replicate_good; try done. intros Hl Hp.
    by apply (sm_pos _ _ _ _ Hsm _ _ _ (abs_lookup _ _ _ Hs)).
  - by eapply on_append_request_good.
  - destruct Hpk as (Ha & _). by eapply on_append_reply_good.
  - eapply on_submit_good; eauto.
  - by apply on_apply_collect_good.
  - by apply on_apply_send_good.
  - by apply on_apply_finish_good.
  - by apply on_consume_good.
  - by destruct (Hnr i).
Qed.

Lemma exec_restart (d : durable) i r :
  exec (EvRestart i) c = Some r → restart_ready (EvRestart i) c →
  ∃ c', r = Ret c' ∧ cluster_inv c' ∧ ∃ g', gstep (abs c, g) (abs c', g').
Proof.
  intros (s & o & Hs & Ho & ->)%at_server_Some Hl. cbn [cl_servers cl_net] in *.
  destruct HC as [Hsm Hall]. destruct (Hall _ _ Hs) as [Hst _].
  destruct (on_restart_good d s o Hst (Hl s Hs) Ho) as (s' & v & L & -> & Hcore & Hv & HL & Hidx & Hst' & Ha).
  cbn [mbind outcome_bind]. eexists. split; [reflexivity|]. rewrite app_nil_r.
  pose proof (abs_restart c i s' _ Hcore) as Habs.
  split.
  - split; [|intros j sj; cbn [cl_servers]; rewrite lookup_insert; case_decide; [by intros [= <-]|apply Hall]].
    rewrite Habs. apply (small_restart log_limit admissible); [done|by apply abs_lookup|done|done].
  - eexists. rewrite Habs. destruct (abs c) as [m net] eqn:Ec. simpl.
    apply (gs_restart m net i (core_of (sv_node s))); [|done].
    change m with (m, net).1. rewrite <- Ec. by apply abs_lookup.
Qed.

(** An intact restart; the storage need not meet its specification. *)
Lemma exec_intact i r :
  exec (EvRestart i) c = Some r → intact_restart (EvRestart i) c →
  (durable → restart_ready (EvRestart i) c) →
  ∃ c', r = Ret c' ∧ cluster_inv c' ∧ restart_move i c c'.
Proof.
  intros (s & o & Hs & Ho & ->)%at_server_Some Hin Hl. cbn [cl_servers cl_net] in *.
  cbn [intact_restart] in Hin. rewrite Hs in Hin. unfold intact in Hin. rewrite Ho in Hin.
  destruct o as [[s' ps]|]; [|done]. destruct Hin as (Ht & Hv & Hlog).
  destruct (on_restart_core s s' ps Ho) as (-> & Hcore & Ha & Hcon & Hch & Hla).
  rewrite Ht, Hlog in Hcore. change (core_of (sv_node s') = p_restarted (votedFor (sv_node s'))
    (k_log (core_of (sv_node s))) (core_of (sv_node s))) in Hcore.
  cbn [mbind outcome_bind]. eexists. split; [reflexivity|]. rewrite app_nil_r.
  split; [|by exists s, s']. destruct HC as [Hsm Hall]. destruct (Hall _ _ Hs) as [Hst _]. split.
  - rewrite (abs_restart c i s' _ Hcore). pose proof (abs_lookup c i s Hs) as Hk.
    destruct (sm_core _ _ _ _ Hsm _ _ Hk) as (_ & ? & _ & _ & _ & ?).
    by apply (small_restart log_limit admissible).
  - intros j sj. cbn [cl_servers]. rewrite lookup_insert. case_decide; [|apply Hall].
    intros [= <-]. split; [|split; [rewrite Hla; done|by rewrite Ha]].
    intros d. destruct (on_restart_good d s _ Hst (Hl d s Hs) Ho) as (s1 & v & L & [= <-] & _ & _ & _ & _ & Hst' & _).
    exact (Hst' d).
Qed.

End exec.

End simulation.
