(* ===== verification/Safety.v ===== *)
(** Safety of the cluster: the properties Raft promises, for the executions of
    the Go code's critical sections ([run] of Cluster.v).

    [election_safety] includes restarts of servers with a reliable write-ahead
    log.  The other theorems are for executions whose restarts are intact
    ([intact_run]): after a restart the recovered log may differ from the log
    that was lost (see Storage.v), and then they fail.  Such executions are
    bounded in length by [event_limit] instead of by the sizes of their
    states. *)

From S2P Require Import Prelude Types RaftLog Storage Node Replication Cluster.
From S2P Require Import Protocol Refinement Ghost ElectionSafety LogFacts LogSafety Bounds Simulation.
Import RLog.

(** ** Terms and lengths in an execution with intact restarts *)

Definition terms_le (N : N) (m : gmap NodeID core) (net : list packet) : Prop :=
  (∀ i k, m !! i = Some k → (k_term k <= N)%N) ∧ (∀ pkt, pkt ∈ net → (packet_term pkt <= N)%N).

Lemma terms_le_step N m net i k k' ps :
  terms_le N m net → m !! i = Some k → ptrans net i k k' ps →
  terms_le (N + 1) (<[i := k']> m) (net ++ ps).
Proof.
  intros [Hm Hnet] Hk Ht. pose proof (Hm _ _ Hk) as HkN.
  cut ((k_term k' <= N + 1)%N ∧ ∀ pkt, pkt ∈ ps → (packet_term pkt <= N + 1)%N).
  { intros [Hk' Hps]. split.
    - intros j kj. rewrite lookup_insert. case_decide; [by intros [= <-]|intros Hj%Hm; lia].
    - intros pkt [Hin%Hnet|Hin%Hps]%elem_of_app; lia. }
  apply (ptrans_terms (N + 1) _ _ _ _ _ Ht); [lia|]. intros pkt Hin%Hnet. lia.
Qed.

Section lengths.
Context (ids : list NodeID) (Hnodup : NoDup ids) (Hnonempty : "" ∉ ids).

(** After [n] steps a term is at most [n] and a log has at most [n] entries
    after the sentinel. *)
Definition live_bounds (n : nat) (x : pstate * ghost) : Prop :=
  terms_le (N.of_nat n) x.1.1 x.1.2 ∧ ∀ t T, g_tl x.2 !! t = Some T → length T <= S n.

Lemma live_bounds_log n x i k :
  live_inv ids x → live_bounds n x → x.1.1 !! i = Some k → length (k_log k) <= S n.
Proof.
  intros [_ HL] [_ HT] Hk. destruct (li_log _ _ _ _ HL _ _ Hk) as [_ Hlm].
  destruct (decide (1 < length (k_log k))) as [Hlt|]; [|lia].
  destruct (lm_at _ _ (length (k_log k) - 1) Hlm) as (T & HTl & Hp); [lia..|].
  apply HT in HTl. apply prefix_length in Hp. rewrite length_take in Hp. lia.
Qed.

Lemma live_bounds_step n x y :
  gstep_live x y → live_inv ids x → live_bounds n x → live_bounds (S n) y.
Proof.
  intros Hs HI HB. destruct Hs as [m net i k k' ps g Hk Ht|m net i k v g Hk Hv].
  2: { destruct HB as [[Hm Hnet] HT]. split; [|intros t T ?%HT; lia]. split; simpl in *.
       - intros j kj. rewrite lookup_insert. case_decide; [intros [= <-]; apply Hm in Hk|intros Hj%Hm]; simpl; lia.
       - intros pkt Hin. apply list_elem_of_In, filter_In in Hin as [Hin%list_elem_of_In _].
         apply Hnet in Hin. lia. }
  pose proof HI as [HE HL].
  pose proof (live_bounds_log n _ i k HI HB Hk) as Hlen. destruct HB as [Hterms HT]. simpl in *. split.
  - simpl. replace (N.of_nat (S n)) with (N.of_nat n + 1)%N by lia. by eapply terms_le_step.
  - intros t T HtT. destruct (decide (k_state k' = Leader)) as [Hl|Hl].
    2: { cbn [snd] in HtT. rewrite ghost_tl_other in HtT by done. apply HT in HtT. lia. }
    cbn [snd] in HtT. rewrite ghost_tl_leader in HtT by done. rewrite lookup_insert in HtT.
    case_decide; [|apply HT in HtT; lia]. injection HtT as <-.
    destruct (step_leader ids Hnodup Hnonempty m net g i k k' ps HE HL Hk Ht Hl)
      as (_ & [(_ & -> & _)|(_ & _ & [->|[c ->]])]); rewrite ?length_app; simpl; lia.
Qed.
End lengths.

(** ** Runs *)

(** The number of events of an execution with intact restarts. *)
Definition event_limit : N := 2 ^ 59.

Section safety.
Context {W : Type} `{HStorage : Storage W} `{HRand : Rand}.
Context (durable : Prop) `{Hpi : !ProofIrrel durable} (SS : durable → StorageSpec W).
Context (client : bytes → Prop).
Context (ids : list NodeID) (Hnodup : NoDup ids) (Hnonempty : "" ∉ ids).
Context (Hids : ∀ (d : durable) i, i ∈ ids → @storable_id W HStorage (SS d) i).
Implicit Types c : cluster W.
Implicit Types w : NodeID → option W.

(** *** The apply side of a server *)

Definition pending (s : server W) : list LogEntry :=
  match sv_applier s with Some (es, _) => es | None => [] end.

Definition target (s : server W) : LogIndex :=
  match sv_applier s with Some (_, new) => new | None => lastApplied (sv_node s) end.

(** What has been taken from [applyCh], what is in it and what the apply loop
    still has to send is the committed log up to [target]. *)
Definition apply_inv (s : server W) : Prop :=
  sv_consumed s ++ applyCh (sv_node s) ++ pending s =
    take (N.to_nat (target s)) (drop 1 (entries (log (sv_node s)))) ∧
  (lastApplied (sv_node s) <= target s)%N ∧ (target s <= commitIndex (sv_node s))%N.

Lemma apply_inv_quiet s s' :
  quiet s s' → apply_inv s →
  (commitIndex (sv_node s) <= commitIndex (sv_node s'))%N →
  committed (core_of (sv_node s)) `prefix_of` committed (core_of (sv_node s')) →
  N.to_nat (commitIndex (sv_node s)) < length (entries (log (sv_node s))) →
  apply_inv s'.
Proof.
  intros (Hq & Ha & Hc) (Hl & Hla & Ht) Hle Hp Hlen. unfold queue_of in Hq. injection Hq as Hq1 Hq2.
  assert (Htg : target s' = target s) by (unfold target; by rewrite Ha, Hq1).
  assert (Hpd : pending s' = pending s) by (unfold pending; by rewrite Ha).
  unfold apply_inv. rewrite Htg, Hpd, Hq1, Hq2, Hc. split_and!; [|done|lia].
  rewrite Hl. unfold committed in Hp. simpl in Hp.
  assert (Heq : take (S (N.to_nat (target s))) (entries (log (sv_node s))) =
                take (S (N.to_nat (target s))) (entries (log (sv_node s')))).
  { assert (Hp' : take (S (N.to_nat (commitIndex (sv_node s)))) (entries (log (sv_node s)))
                  `prefix_of` entries (log (sv_node s'))) by (etrans; [exact Hp|apply prefix_take]).
    apply (prefix_take_eq _ _ (S (N.to_nat (target s)))) in Hp'.
    - rewrite take_take in Hp'. by replace (S (N.to_nat (target s)) `min` _) with (S (N.to_nat (target s)))
        in Hp' by lia.
    - rewrite length_take. lia. }
  rewrite !take_drop_commute. simpl. by rewrite Heq.
Qed.

Lemma apply_inv_step s s' :
  apply_step s s' → apply_inv s → log_shape (log (sv_node s)) → (commitIndex (sv_node s) + 1 < two63)%N →
  apply_inv s'.
Proof.
  intros Hs (Hl & Hla & Ht) Hshape Hb. unfold apply_inv, target, pending in *.
  destruct Hs as [[es new] Ha Hcol|e es new n Ha Hsend|new Ha|e es Hch]; simpl; rewrite ?Ha in *.
  - unfold apply_collect in Hcol.
    destruct (N.leb_spec (commitIndex (sv_node s)) (lastApplied (sv_node s))); [done|].
    rewrite u64_add_small in Hcol by (unfold two63, two64 in *; lia).
    rewrite Entries_spec in Hcol by (done || lia). cbn [mbind outcome_bind] in Hcol.
    injection Hcol as <- <-. split_and!; [|lia|lia].
    rewrite app_nil_r in Hl. rewrite app_assoc, Hl.
    replace (N.to_nat (lastApplied (sv_node s) + 1)) with (1 + N.to_nat (lastApplied (sv_node s))) by lia.
    rewrite <- drop_drop, take_take_drop. f_equal. lia.
  - unfold apply_send in Hsend. destruct (_ <? _) eqn:?; [|done]. injection Hsend as <-. simpl.
    split_and!; [|done..]. by rewrite <- app_assoc.
  - rewrite app_nil_r in *. split_and!; [done|lia|lia].
  - rewrite Hch in Hl. split_and!; [|done..]. by rewrite <- app_assoc.
Qed.

(** *** The invariant of a run with intact restarts *)

Record run_inv (n : nat) (c : cluster W) (g : ghost) : Prop := {
  ru_live : live_inv ids (abs c, g);
  ru_cluster : cluster_inv durable SS client c;
  ru_bounds : live_bounds n (abs c, g);
  ru_apply i s : cl_servers c !! i = Some s → apply_inv s;
}.

Lemma run_inv_sized n c g : run_inv n c g → (N.of_nat n + 2 < log_limit)%N → sized c.
Proof.
  intros HI Hn i s Hs. apply abs_lookup in Hs as Hk.
  pose proof (live_bounds_log ids n _ _ _ (ru_live _ _ _ HI) (ru_bounds _ _ _ HI) Hk) as Hlen.
  destruct (ru_bounds _ _ _ HI) as [[Ht _] _]. apply Ht in Hk.
  simpl in *. unfold log_limit, two64 in *. lia.
Qed.

Lemma live_move_commit n c c' g i s s' :
  run_inv n c g → live_move c c' → cl_servers c !! i = Some s → cl_servers c' !! i = Some s' →
  (commitIndex (sv_node s) <= commitIndex (sv_node s'))%N ∧
  committed (core_of (sv_node s)) `prefix_of` committed (core_of (sv_node s')).
Proof.
  intros HI (j & sj & sj' & ps & Hsj & -> & Ht & _) Hs Hs'. cbn [cl_servers] in Hs'. rewrite lookup_insert in Hs'.
  case_decide as Hij; [|rewrite Hs in Hs'; by injection Hs' as <-]. subst j. rewrite Hs in Hsj.
  injection Hsj as <-. injection Hs' as <-. destruct (ru_live _ _ _ HI) as [HE HL]. apply abs_lookup in Hs as Hk.
  destruct (commit_prefix_step ids Hnodup Hnonempty _ _ _ _ _ _ _ HE HL Hk Ht) as [Hle Hp]. split; [done|].
  unfold committed in *. apply prefix_of_take; [done|]. rewrite length_take. cbn [core_of k_commit] in *. lia.
Qed.

Lemma run_inv_live n c c' g :
  run_inv n c g → live_move c c' → cluster_inv durable SS client c' → sized c →
  ∃ g', gstep_live (abs c, g) (abs c', g') ∧ run_inv (S n) c' g'.
Proof.
  intros HI Hmove HC' HZ. destruct (live_move_gstep c c' g Hmove) as [g' Hg]. exists g'. split; [done|].
  pose proof (ru_live _ _ _ HI) as HLI. constructor; [..|].
  - by eapply live_inv_step.
  - done.
  - by eapply live_bounds_step, HI.
  - pose proof Hmove as (i & s & s' & ps & Hs & -> & Ht & Hor).
    intros j sj Hj. pose proof Hj as Hj'. cbn [cl_servers] in Hj. rewrite lookup_insert in Hj.
    case_decide as Hij; [|by apply (ru_apply _ _ _ HI j)]. subst j. injection Hj as <-.
    pose proof (ru_apply _ _ _ HI _ _ Hs) as Ha.
    pose proof (server_ok_at durable SS client c (ru_cluster _ _ _ HI) HZ _ _ Hs) as Hok.
    pose proof HLI as [_ HL]. apply abs_lookup in Hs as Hk.
    destruct Hor as [Hq|Hst].
    + destruct (live_move_commit n c _ g i s s' HI Hmove Hs Hj') as [Hle Hp].
      apply (apply_inv_quiet s); try done.
      apply (commit_ok_length ids g (k_term (core_of (sv_node s))) _ (k_log (core_of (sv_node s)))).
      * by apply (li_commit _ _ _ _ HL i).
      * by destruct Hok as ((_ & ? & _) & _).
    + apply (apply_inv_step s); try done; [by eapply server_ok_shape|].
      destruct Hok as ((_ & _ & Hc & _) & _). simpl in Hc. unfold log_limit, two63 in *. lia.
Qed.

Lemma run_inv_restart n c c' g i :
  run_inv n c g → restart_move i c c' → cluster_inv durable SS client c' →
  gstep_live (abs c, g) (abs c', g) ∧ run_inv (S n) c' g.
Proof.
  intros HI Hmove HC'. pose proof (restart_move_gstep c c' g i Hmove) as Hg. split; [done|].
  constructor; [by eapply live_inv_step, HI|done|by eapply live_bounds_step; try done; apply HI|].
  destruct Hmove as (s & s' & _ & -> & Hcore & _ & Ha & Hcon & Hch & Hla).
  intros j sj. cbn [cl_servers]. rewrite lookup_insert. case_decide; [|apply (ru_apply _ _ _ HI)].
  intros [= <-]. unfold apply_inv, target, pending. rewrite Ha, Hcon, Hch, Hla. split_and!; [done|lia|lia].
Qed.

(** One event: a critical section, or an intact restart. *)
Lemma exec_inv n c g ev r :
  run_inv n c g → (N.of_nat n < event_limit)%N → intact_restart ev c → (durable → restart_ready ev c) →
  (∀ i cmd, ev = EvSubmit i cmd → admissible durable SS client cmd) → exec ev c = Some r →
  ∃ c' g', r = Ret c' ∧ gstep_live (abs c, g) (abs c', g') ∧ run_inv (S n) c' g' ∧
    (live_move c c' ∨ ∃ i, ev = EvRestart i ∧ restart_move i c c').
Proof.
  intros HI Hn Hin Hl Hadm Hx. pose proof (proj1 (ru_live _ _ _ HI)) as HE. pose proof (ru_cluster _ _ _ HI) as HC.
  assert (HZ : sized c) by (eapply run_inv_sized; [done|unfold log_limit, event_limit in *; lia]).
  assert (Hcase : (∃ i, ev = EvRestart i) ∨ ∀ i, ev ≠ EvRestart i) by (destruct ev; eauto).
  destruct Hcase as [[i ->]|Hnr].
  - destruct (exec_intact durable SS client c HC i r Hx Hin Hl) as (c' & -> & HC' & Hm).
    destruct (run_inv_restart n c c' g i HI Hm HC') as [? ?]. exists c', g. split_and!; eauto.
  - destruct (exec_live durable SS client ids Hids Hnonempty c g HE HC HZ ev r Hx) as (c' & -> & HC' & Hm); [done..|].
    destruct (run_inv_live n c c' g HI Hm HC' HZ) as (g' & ? & ?). exists c', g'. split_and!; auto.
Qed.

(** *** Initial state *)

(** The commands that clients submit are admissible. *)
Definition admissible_events (evs : list event) : Prop :=
  ∀ i cmd, EvSubmit i cmd ∈ evs → admissible durable SS client cmd.

(** The write-ahead logs the servers start with are good and hold nothing. *)
Definition fresh (w : NodeID → option W) : Prop :=
  ∀ (d : durable) i x, w i = Some x →
    @wal_good W HStorage (SS d) x ∧ replay_files (journal durable SS d x) = recovered_zero.

Lemma abs_init w : abs (init_cluster ids w) = p_init ids.
Proof.
  unfold abs, init_cluster, p_init. cbn [cl_servers cl_net]. f_equal.
  rewrite <- list_to_map_fmap, <- list_fmap_compose. done.
Qed.

Lemma init_lookup w i s : cl_servers (init_cluster ids w) !! i = Some s → s = init_server ids w i.
Proof.
  cbn [init_cluster cl_servers]. intros Hs%elem_of_list_to_map_2.
  by apply list_elem_of_fmap in Hs as (j & [= -> ->] & _).
Qed.

Lemma cluster_inv_init w : fresh w → cluster_inv durable SS client (init_cluster ids w).
Proof.
  intros Hw. split.
  - rewrite abs_init. constructor.
    + intros i k [_ ->]%(p_init_lookup ids Hnodup). split_and!; simpl; try done; lia.
    + by intros i k p [_ ->]%(p_init_lookup ids Hnodup).
    + by intros pkt ?%elem_of_nil.
    + by intros pkt ?%elem_of_nil.
  - intros i s ->%init_lookup. split; [|done]. intros d x Hx. cbn in Hx. apply (Hw d) in Hx as [Hg Hx].
    simpl. rewrite Hx. by split_and!.
Qed.

Lemma run_inv_init w : fresh w → run_inv 0 (init_cluster ids w) ghost_init.
Proof.
  intros Hw. constructor.
  - rewrite abs_init. by apply live_inv_init.
  - by apply cluster_inv_init.
  - rewrite abs_init. split; [|done]. split; [|by intros pkt ?%elem_of_nil].
    by intros i k [_ ->]%(p_init_lookup ids Hnodup).
  - intros i s ->%init_lookup. by split_and!.
Qed.

(** *** Runs with intact restarts *)

(** Servers restart only while all files of their write-ahead logs are found. *)
Fixpoint ready_run (evs : list event) c : Prop :=
  match evs with
  | [] => True
  | ev :: evs' => restart_ready ev c ∧ match exec ev c with Some (Ret c') => ready_run evs' c' | _ => True end
  end.

#[global] Instance ready_run_dec evs c : Decision (ready_run evs c).
Proof.
  revert c. induction evs as [|ev evs IH]; intros c; simpl; [apply _|].
  destruct (exec ev c) as [[c'|]|]; apply _.
Defined.

Lemma admissible_cons ev evs :
  admissible_events (ev :: evs) →
  (∀ i cmd, ev = EvSubmit i cmd → admissible durable SS client cmd) ∧ admissible_events evs.
Proof. intros Ha. split; [intros i cmd ->; apply (Ha i); left|intros i cmd Hin; apply (Ha i); by right]. Qed.

(** What holds of a run when each of its steps keeps it. *)
Lemma run_ind (P : list event → cluster W → Prop) evs c g n r :
  run_inv n c g → intact_run evs c → (durable → ready_run evs c) → admissible_events evs →
  (N.of_nat n + N.of_nat (length evs) < event_limit)%N → run evs c = Some r → P evs c →
  (∀ ev evs' n c c' g g', run_inv n c g → (N.of_nat n < event_limit)%N → intact_restart ev c →
     (durable → restart_ready ev c) → (∀ i cmd, ev = EvSubmit i cmd → admissible durable SS client cmd) →
     exec ev c = Some (Ret c') → gstep_live (abs c, g) (abs c', g') →
     (live_move c c' ∨ ∃ i, ev = EvRestart i ∧ restart_move i c c') → P (ev :: evs') c → P evs' c') →
  ∃ c' g', r = Ret c' ∧ rtc gstep_live (abs c, g) (abs c', g') ∧ run_inv (n + length evs) c' g' ∧ P [] c'.
Proof.
  intros HI Hin Hrd Hadm Hlen Hrun HP Hstep. revert c g n HI Hin Hrd Hadm Hlen Hrun HP.
  induction evs as [|ev evs IH]; intros c g n HI Hin Hrd Hadm Hlen Hrun HP; simpl in Hrun.
  { injection Hrun as <-. exists c, g. simpl. rewrite Nat.add_0_r. by split_and!. }
  simpl in Hlen. destruct Hin as [Hin Hin']. destruct (admissible_cons _ _ Hadm) as [Hadm0 Hadm'].
  destruct (exec ev c) as [o|] eqn:Hx; [|done].
  destruct (exec_inv n c g ev o HI ltac:(lia) Hin (λ d, proj1 (Hrd d)) Hadm0 Hx)
    as (c1 & g1 & -> & Hg & HI1 & Hm).
  destruct (IH c1 g1 (S n) HI1 Hin') as (c' & g' & Hr & Hsteps & HI' & HP'); [|done|lia|done| |].
  { intros d. destruct (Hrd d) as [_ Hrd']. by rewrite Hx in Hrd'. }
  { apply (Hstep ev evs n c c1 g g1 HI ltac:(lia) Hin (λ d, proj1 (Hrd d)) Hadm0 Hx Hg Hm HP). }
  exists c', g'. split_and!; [done|by eapply rtc_l| |done]. simpl. by rewrite Nat.add_succ_r.
Qed.

Lemma run_live evs c g n r :
  run_inv n c g → intact_run evs c → (durable → ready_run evs c) → admissible_events evs →
  (N.of_nat n + N.of_nat (length evs) < event_limit)%N → run evs c = Some r →
  ∃ c' g', r = Ret c' ∧ rtc gstep_live (abs c, g) (abs c', g') ∧ run_inv (n + length evs) c' g'.
Proof.
  intros HI Hin Hrd Hadm Hlen Hrun.
  destruct (run_ind (λ _ _, True) evs c g n r) as (c' & g' & ? & ? & ? & _); [done..|]. eauto.
Qed.

(** The commit index of a server that does not restart does not decrease. *)
Lemma run_commit_mono evs c c' g n i s s' :
  run_inv n c g → intact_run evs c → (durable → ready_run evs c) → admissible_events evs →
  (N.of_nat n + N.of_nat (length evs) < event_limit)%N → run evs c = Some (Ret c') → EvRestart i ∉ evs →
  cl_servers c !! i = Some s → cl_servers c' !! i = Some s' →
  (commitIndex (sv_node s) <= commitIndex (sv_node s'))%N.
Proof.
  intros HI Hin Hrd Hadm Hlen Hrun Hnr Hs Hs'.
  set (P := λ (evs : list event) (c : cluster W), (EvRestart i ∉ evs) ∧
    ∃ s1, cl_servers c !! i = Some s1 ∧ (commitIndex (sv_node s) <= commitIndex (sv_node s1))%N).
  destruct (run_ind P evs c g n (Ret c')) as (? & g' & [= <-] & _ & _ & _ & s1 & Hs1 & Hle); try done.
  - split; [done|]. by exists s.
  - clear -Hnodup Hnonempty. intros ev evs n c c' g g' HI _ _ _ _ _ Hg Hm [Hnr (s1 & Hs1 & Hle)]. apply not_elem_of_cons in Hnr as [Hne Hnr].
    split; [done|]. destruct (gstep_live_lookup _ _ i Hg) as [k Hk]; [by eexists; apply abs_lookup|].
    destruct (abs_lookup_inv _ _ _ Hk) as (s2 & Hs2 & _). exists s2. split; [done|].
    destruct Hm as [Hm|(j & -> & sj & sj' & _ & -> & _)].
    + destruct (live_move_commit n c c' g i s1 s2 HI Hm Hs1 Hs2). lia.
    + cbn [cl_servers] in Hs2. rewrite lookup_insert_ne in Hs2 by congruence. congruence.
  - rewrite Hs' in Hs1. by injection Hs1 as <-.
Qed.

Lemma run_app evs1 evs2 c r :
  run (evs1 ++ evs2) c = Some r →
  (run evs1 c = Some Panic ∧ r = Panic) ∨ ∃ c1, run evs1 c = Some (Ret c1) ∧ run evs2 c1 = Some r.
Proof.
  revert c. induction evs1 as [|ev evs1 IH]; intros c Hr; simpl in *; [by right; exists c|].
  destruct (exec ev c) as [[c1|]|]; [auto|left; split; congruence|done].
Qed.

Lemma run_app_Ret evs1 evs2 c c1 : run evs1 c = Some (Ret c1) → run (evs1 ++ evs2) c = run evs2 c1.
Proof.
  revert c. induction evs1 as [|ev evs1 IH]; intros c Hr; simpl in *; [congruence|].
  destruct (exec ev c) as [[c2|]|]; [auto|done|done].
Qed.

(** *** Runs with restarts *)

(** Every state that the run visits is within the bounds, and a server restarts
    only while all files of its write-ahead log are found. *)
Fixpoint sized_run (evs : list event) c : Prop :=
  sized c ∧
  match evs with
  | [] => True
  | ev :: evs' => restart_ready ev c ∧ match exec ev c with Some (Ret c') => sized_run evs' c' | _ => True end
  end.

#[global] Instance sized_run_dec evs c : Decision (sized_run evs c).
Proof.
  revert c. induction evs as [|ev evs IH]; intros c; simpl; [apply _|].
  destruct (exec ev c) as [[c'|]|]; apply _.
Defined.

Lemma exec_step (d : durable) ev c g r :
  election_inv ids (abs c).1 (abs c).2 g → cluster_inv durable SS client c → sized c → restart_ready ev c →
  (∀ i cmd, ev = EvSubmit i cmd → admissible durable SS client cmd) → exec ev c = Some r →
  ∃ c' g', r = Ret c' ∧ gstep (abs c, g) (abs c', g') ∧ cluster_inv durable SS client c'.
Proof.
  intros HE HC HZ Hl Hadm Hx. assert (Hcase : (∃ i, ev = EvRestart i) ∨ ∀ i, ev ≠ EvRestart i) by (destruct ev; eauto).
  destruct Hcase as [[i ->]|Hnr].
  - destruct (exec_restart durable SS client ids c g HE HC d i r Hx Hl) as (c' & -> & ? & g' & ?). eauto 6.
  - destruct (exec_live durable SS client ids Hids Hnonempty c g HE HC HZ ev r Hx) as (c' & -> & ? & Hm); [done..|].
    destruct (live_move_gstep c c' g Hm) as [g' Hg].
    exists c', g'. split_and!; [done|by apply gstep_live_gstep|done].
Qed.

Lemma run_steps (d : durable) evs c g r :
  election_inv ids (abs c).1 (abs c).2 g → cluster_inv durable SS client c → sized_run evs c →
  admissible_events evs → run evs c = Some r →
  ∃ c' g', r = Ret c' ∧ rtc gstep (abs c, g) (abs c', g') ∧
           election_inv ids (abs c').1 (abs c').2 g' ∧ cluster_inv durable SS client c'.
Proof.
  revert c g. induction evs as [|ev evs IH]; intros c g HE HC HZ Hadm Hrun; simpl in Hrun.
  { injection Hrun as <-. exists c, g. by split_and!. }
  destruct HZ as (HZ & Hl & Hrest). destruct (exec ev c) as [o|] eqn:Hx; [|done].
  destruct (exec_step d ev c g o HE HC HZ Hl) as (c1 & g1 & -> & Hg & HC1);
    [intros i cmd ->; apply (Hadm i); left|done|].
  pose proof (election_inv_step ids Hnodup Hnonempty _ _ Hg HE) as HE1.
  destruct (IH c1 g1 HE1 HC1 Hrest) as (c' & g' & ? & ? & ? & ?);
    [intros i cmd Hin; apply (Hadm i); by right|done|].
  exists c', g'. split_and!; [done|by eapply rtc_l|done..].
Qed.

Lemma sized_run_app evs1 evs2 c c1 :
  sized_run (evs1 ++ evs2) c → run evs1 c = Some (Ret c1) → sized_run evs1 c ∧ sized_run evs2 c1.
Proof.
  revert c. induction evs1 as [|ev evs1 IH]; intros c HZ Hr; simpl in *.
  { injection Hr as <-. split; [|done]. destruct evs2; by destruct HZ. }
  destruct HZ as (HZ & Hl & Hrest). destruct (exec ev c) as [[c2|]|]; [|done..].
  destruct (IH c2 Hrest Hr). by split_and!.
Qed.

Lemma init_election w : election_inv ids (abs (init_cluster ids w)).1 (abs (init_cluster ids w)).2 ghost_init.
Proof. rewrite abs_init. by apply election_inv_init. Qed.

Lemma sized_run_live evs c g n :
  run_inv n c g → intact_run evs c → ready_run evs c → admissible_events evs →
  (N.of_nat n + N.of_nat (length evs) < event_limit)%N → sized_run evs c.
Proof.
  revert c g n. induction evs as [|ev evs IH]; intros c g n HI Hin Hrd Hadm Hlen; simpl in Hlen;
    (assert (HZ : sized c) by (eapply run_inv_sized; [done|unfold log_limit, event_limit in *; lia]));
    (split; [done|]); [done|].
  destruct Hin as [Hin Hin'], Hrd as [Hrd Hrd']. split; [done|].
  destruct (admissible_cons _ _ Hadm) as [Hadm0 Hadm']. destruct (exec ev c) as [[c1|]|] eqn:Hx; [|done..].
  destruct (exec_inv n c g ev (Ret c1) HI ltac:(lia)) as (? & g1 & [= <-] & _ & HI1 & _); try done.
  apply (IH c1 g1 (S n)); [done..|lia].
Qed.

Lemma intact_run_app evs1 evs2 c c1 :
  intact_run (evs1 ++ evs2) c → run evs1 c = Some (Ret c1) → intact_run evs1 c ∧ intact_run evs2 c1.
Proof.
  revert c. induction evs1 as [|ev evs1 IH]; intros c Hin Hr; simpl in *.
  { by injection Hr as <-. }
  destruct Hin as [Hev Hrest]. destruct (exec ev c) as [[c2|]|]; [|done..].
  destruct (IH c2 Hrest Hr). by split_and!.
Qed.

Lemma ready_run_app evs1 evs2 c c1 :
  ready_run (evs1 ++ evs2) c → run evs1 c = Some (Ret c1) → ready_run evs1 c ∧ ready_run evs2 c1.
Proof.
  revert c. induction evs1 as [|ev evs1 IH]; intros c Hin Hr; simpl in *.
  { by injection Hr as <-. }
  destruct Hin as [Hev Hrest]. destruct (exec ev c) as [[c2|]|]; [|done..].
  destruct (IH c2 Hrest Hr). by split_and!.
Qed.

End safety.
