(* ===== verification/Guarantees.v ===== *)
(** What a cluster guarantees: the theorems of Raft for the executions of the
    critical sections of src/internal/raft ([run] of Cluster.v), with witnesses
    on a cluster of three servers.

    Executions deliver messages in any order, more than once or never, and
    interleave the goroutines of every server in any way.  Election safety and
    the absence of panics include restarts of servers whose write-ahead log
    meets its specification.  The other theorems ask nothing of the storage but
    that every restart of the execution gives back the term, vote and log that
    were in memory ([intact_run]; Recovery.v says when this is so). *)

From S2P Require Import Prelude Types RaftLog Storage Node Replication Cluster.
From S2P Require Import Protocol Refinement Ghost ElectionSafety LogFacts LogSafety Bounds Simulation Safety.
Import RLog.

(** The write-ahead logs the servers start with are good and hold nothing. *)
Definition fresh_wal {W} `{StorageSpec W} (w : NodeID → option W) : Prop :=
  ∀ i x, w i = Some x → wal_good x ∧ replay_files (wal_journal x) = recovered_zero.

(** The storage can hold the commands that clients submit. *)
Definition storable_events {W} `{StorageSpec W} (evs : list event) : Prop :=
  ∀ i cmd, EvSubmit i cmd ∈ evs → storable_command (W := W) cmd.

Lemma prefix_drop {A} n (l1 l2 : list A) : l1 `prefix_of` l2 → drop n l1 `prefix_of` drop n l2.
Proof.
  intros [l ->]. destruct (decide (n <= length l1)).
  - rewrite drop_app_le by done. by apply prefix_app_r.
  - rewrite (drop_ge l1) by lia. apply prefix_nil.
Qed.

(** No condition on the commands of the clients. *)
Definition any_command (c : bytes) : Prop := True.

(** *** With restarts *)

Section restarts.
Context {W : Type} `{SS : StorageSpec W} `{HRand : Rand}.
Context (ids : list NodeID) (Hnodup : NoDup ids) (Hnonempty : "" ∉ ids).
Context (Hids : ∀ i, i ∈ ids → storable_id (W := W) i).
Implicit Types c : cluster W.
Implicit Types w : NodeID → option W.

Lemma fresh_durable w : fresh_wal w → fresh True (λ _, SS) w.
Proof. intros Hw d i x. apply Hw. Qed.

(** Two leaders of one term are the same server; [election_safety] below and
    its instance on disk (System.v) are this. *)
Lemma one_leader w evs1 evs2 c1 c2 i j si sj :
  fresh_wal w → storable_events (W := W) (evs1 ++ evs2) →
  sized_run (evs1 ++ evs2) (init_cluster ids w) →
  run evs1 (init_cluster ids w) = Some (Ret c1) → run evs2 c1 = Some (Ret c2) →
  cl_servers c1 !! i = Some si → cl_servers c2 !! j = Some sj →
  IsLeader (sv_node si) = true → IsLeader (sv_node sj) = true →
  currentTerm (sv_node si) = currentTerm (sv_node sj) → i = j.
Proof.
  intros Hw%fresh_durable Hst HZ Hr1 Hr2 Hi Hj Hli%bool_decide_eq_true_1 Hlj%bool_decide_eq_true_1 Ht.
  destruct (sized_run_app _ _ _ _ HZ Hr1) as [HZ1 HZ2].
  destruct (run_steps True (λ _, SS) any_command ids Hnodup Hnonempty (λ _, Hids) I evs1 _ _ (Ret c1)
    (init_election ids Hnodup Hnonempty w) (cluster_inv_init _ _ _ ids Hnodup w Hw) HZ1)
    as (? & g1 & [= <-] & _ & HE1 & HC1);
    [intros x cmd Hin; split; [done|]; intros d; apply (Hst x), elem_of_app; by left|done|].
  destruct (run_steps True (λ _, SS) any_command ids Hnodup Hnonempty (λ _, Hids) I evs2 _ _ (Ret c2) HE1 HC1 HZ2)
    as (? & g2 & [= <-] & Hsteps & _);
    [intros x cmd Hin; split; [done|]; intros d; apply (Hst x), elem_of_app; by right|done|].
  eapply (leader_unique ids Hnodup Hnonempty (abs c1, g1) _ i j _ _ HE1 Hsteps); eauto using abs_lookup.
Qed.

(** C2: Election safety, with storage without faults.  The write-ahead logs of the
    servers, if they have one, are fresh and meet their specification: no call
    fails, and the ids and commands can be stored.  Then two servers that lead the
    same term, at two points of an execution within the machine's bounds, are the
    same server.  The execution may deliver messages in any order, twice or
    never, and may restart servers that have a write-ahead log between two
    critical sections. *)
Theorem election_safety w evs1 evs2 c1 c2 i j si sj :
  fresh_wal w → storable_events (W := W) (evs1 ++ evs2) →
  sized_run (evs1 ++ evs2) (init_cluster ids w) →
  run evs1 (init_cluster ids w) = Some (Ret c1) → run evs2 c1 = Some (Ret c2) →
  cl_servers c1 !! i = Some si → cl_servers c2 !! j = Some sj →
  IsLeader (sv_node si) = true → IsLeader (sv_node sj) = true →
  currentTerm (sv_node si) = currentTerm (sv_node sj) → i = j.
Proof. apply one_leader. Qed.

(** C20: No panic.  For servers whose write-ahead logs are fresh and meet their
    specification (storage without faults), no critical section of the cluster
    panics, in any execution with restarts whose states stay within the machine's
    bounds. *)
Theorem run_no_panic w evs :
  fresh_wal w → storable_events (W := W) evs → sized_run evs (init_cluster ids w) →
  run evs (init_cluster ids w) ≠ Some Panic.
Proof.
  intros Hw%fresh_durable Hst HZ Hr.
  by destruct (run_steps True (λ _, SS) any_command ids Hnodup Hnonempty (λ _, Hids) I evs _ _ Panic
    (init_election ids Hnodup Hnonempty w) (cluster_inv_init _ _ _ ids Hnodup w Hw) HZ
    (λ x cmd Hin, conj I (λ d, Hst x cmd Hin)) Hr) as (? & ? & ? & _).
Qed.
End restarts.

(** A server without peers: nothing is ever sent, and nobody leads. *)
Definition lonely (x : pstate * ghost) : Prop :=
  x.1.2 = [] ∧ ∀ i k, x.1.1 !! i = Some k → k_peers k = [] ∧ k_state k ≠ Leader.

Lemma lonely_step x y : gstep x y → lonely x → lonely y.
Proof.
  intros Hs [Hnet Hm]. destruct Hs as [m net i k k' ps g Hk Ht|m net i k v L g Hk Hv]; simpl in *; subst net.
  - destruct (Hm _ _ Hk) as [Hp Hl].
    assert (Hk' : ps = [] ∧ k_state k' ≠ Leader).
    { destruct Ht; try done; try (by match goal with H : _ ∈ [] |- _ => apply elem_of_nil in H end).
      simpl. by rewrite Hp. }
    destruct Hk' as [-> Hl']. destruct (ptrans_le _ _ _ _ _ Ht) as (_ & Hp' & _). split; [done|].
    intros j kj. simpl. rewrite lookup_insert. case_decide; [|apply Hm]. intros [= <-]. by rewrite Hp'.
  - split; [done|]. intros j kj. simpl. rewrite lookup_insert. case_decide; [|apply Hm].
    intros [= <-]. by destruct (Hm _ _ Hk).
Qed.

(** C22: A server without peers never becomes leader.  The majority is only
    looked at when a vote reply arrives, and a single server gets none; so it
    refuses every command, in every state of an execution with restarts within
    the bounds on storage that was fresh and has no faults. *)
Theorem single_server_never_leads {W : Type} `{SS : StorageSpec W} `{HRand : Rand} i
    (w : NodeID → option W) evs c s command :
  i ≠ "" → storable_id (W := W) i → fresh_wal w → storable_events (W := W) evs →
  sized_run evs (init_cluster [i] w) → run evs (init_cluster [i] w) = Some (Ret c) →
  cl_servers c !! i = Some s →
  IsLeader (sv_node s) = false ∧ submit_append command (sv_node s) = (sv_node s, inr ErrNotLeader).
Proof.
  intros Hi Hid Hw Hst HZ Hr Hs.
  assert (Hnd : NoDup [i]) by (repeat constructor; set_solver).
  assert (Hne : "" ∉ [i]) by (intros ?%list_elem_of_singleton; congruence).
  destruct (run_steps True (λ _, SS) any_command [i] Hnd Hne) with evs (init_cluster [i] w) ghost_init (Ret c)
    as (? & g & [= <-] & Hsteps & _); try done.
  - by intros _ j ->%list_elem_of_singleton.
  - by apply init_election.
  - apply cluster_inv_init; [done|]. intros d. apply Hw.
  - intros x cmd Hin. split; [done|]. intros d. by apply (Hst x).
  - assert (Hlon : lonely (abs (init_cluster [i] w), ghost_init)).
    { rewrite abs_init. split; [done|]. intros j k [->%list_elem_of_singleton ->]%(p_init_lookup _ Hnd).
      split; [|done]. simpl. unfold peers_of. by rewrite filter_cons, decide_False by tauto. }
    assert (Hend : lonely (abs c, g)) by (clear -Hsteps Hlon; induction Hsteps; eauto using lonely_step).
    destruct Hend as [_ Hend]. destruct (Hend _ _ (abs_lookup _ _ _ Hs)) as [_ Hl]. simpl in Hl.
    split; [by apply bool_decide_eq_false_2|by apply submit_not_leader].
Qed.

(** *** With intact restarts *)

(** No assumption on the storage. *)
Definition no_spec {W} `{Storage W} (f : False) : StorageSpec W := match f with end.

Lemma no_ids {W} `{Storage W} (ids : list NodeID) (f : False) i : i ∈ ids → @storable_id W _ (no_spec f) i.
Proof. destruct f. Qed.

Lemma no_admissible {W} `{Storage W} evs : admissible_events False (no_spec (W := W)) any_command evs.
Proof. intros i cmd _. split; [done|]. intros []. Qed.

Section intact.
Context {W : Type} `{HStorage : Storage W} `{HRand : Rand}.
Context (ids : list NodeID) (Hnodup : NoDup ids) (Hnonempty : "" ∉ ids).
Implicit Types c : cluster W.
Implicit Types w : NodeID → option W.

Abbreviation reached n c g := (run_inv False no_spec any_command ids n c g).

Lemma init_reached w : reached 0 (init_cluster ids w) ghost_init.
Proof. apply run_inv_init; [done|done|intros []]. Qed.

(** One and two points of an execution. *)
Lemma reach w evs c :
  intact_run evs (init_cluster ids w) → (N.of_nat (length evs) < event_limit)%N →
  run evs (init_cluster ids w) = Some (Ret c) → ∃ g, reached (length evs) c g.
Proof.
  intros Hin Hlen Hr.
  destruct (run_live False no_spec any_command ids Hnodup Hnonempty (no_ids ids) evs _ ghost_init 0 _
    (init_reached w) Hin (False_ind _) (no_admissible evs) Hlen Hr) as (? & g & [= <-] & _ & HI). by exists g.
Qed.

(** From a state that an execution has reached to a later one. *)
Lemma reach_on n c g evs c' :
  reached n c g → intact_run evs c → (N.of_nat n + N.of_nat (length evs) < event_limit)%N →
  run evs c = Some (Ret c') →
  ∃ g', reached (n + length evs) c' g' ∧ rtc gstep_live (abs c, g) (abs c', g').
Proof.
  intros HI Hin Hlen Hr.
  destruct (run_live False no_spec any_command ids Hnodup Hnonempty (no_ids ids) evs c g n _ HI Hin
    (False_ind _) (no_admissible evs) Hlen Hr) as (? & g' & [= <-] & ? & ?). eauto.
Qed.

Lemma reach_two w evs1 evs2 c1 c2 :
  intact_run (evs1 ++ evs2) (init_cluster ids w) → (N.of_nat (length (evs1 ++ evs2)) < event_limit)%N →
  run evs1 (init_cluster ids w) = Some (Ret c1) → run evs2 c1 = Some (Ret c2) →
  ∃ g1 g2 n1 n2, reached n1 c1 g1 ∧ reached n2 c2 g2 ∧ rtc gstep_live (abs c1, g1) (abs c2, g2).
Proof.
  intros Hin Hlen Hr1 Hr2. destruct (intact_run_app _ _ _ _ Hin Hr1) as [Hin1 Hin2].
  rewrite length_app in Hlen. destruct (reach w evs1 c1 Hin1 ltac:(lia) Hr1) as [g1 HI1].
  destruct (reach_on _ c1 g1 evs2 c2 HI1 Hin2 ltac:(lia) Hr2) as (g2 & HI2 & Hs).
  by exists g1, g2, (length evs1), (length evs1 + length evs2).
Qed.

(** C21: The bounds are no restriction for executions with intact restarts: fewer
    than 2^59 events keep every log and every term within them, and nothing
    panics, whatever the storage does otherwise. *)
Theorem intact_bounded w evs :
  intact_run evs (init_cluster ids w) → ready_run evs (init_cluster ids w) →
  (N.of_nat (length evs) < event_limit)%N →
  sized_run evs (init_cluster ids w) ∧ run evs (init_cluster ids w) ≠ Some Panic.
Proof.
  intros Hin Hrd Hlen. split.
  - by apply (sized_run_live False no_spec any_command ids Hnodup Hnonempty (no_ids ids) evs _ ghost_init 0);
      [apply init_reached|done|done|apply no_admissible|..].
  - intros Hr. by destruct (run_live False no_spec any_command ids Hnodup Hnonempty (no_ids ids) evs _ ghost_init 0 _
      (init_reached w) Hin (False_ind _) (no_admissible evs) Hlen Hr) as (? & ? & ? & _).
Qed.

(** C4: Log matching.  If two logs have entries of the same term at the same
    position, they are equal up to and including that position. *)
Theorem log_matching_property w evs c i j si sj n ei ej :
  intact_run evs (init_cluster ids w) → (N.of_nat (length evs) < event_limit)%N →
  run evs (init_cluster ids w) = Some (Ret c) →
  cl_servers c !! i = Some si → cl_servers c !! j = Some sj →
  entries (log (sv_node si)) !! n = Some ei → entries (log (sv_node sj)) !! n = Some ej →
  e_Term ei = e_Term ej →
  take (S n) (entries (log (sv_node si))) = take (S n) (entries (log (sv_node sj))).
Proof.
  intros Hin Hlen Hr Hi Hj Hei Hej Ht. destruct (reach w evs c Hin Hlen Hr) as [g HI].
  destruct (ru_live _ _ _ _ _ _ _ HI) as [_ HL].
  eapply (log_matching ids _ _ _ i j _ _ n HL (abs_lookup _ _ _ Hi) (abs_lookup _ _ _ Hj)); simpl.
  - by apply lookup_lt_Some in Hei.
  - by apply lookup_lt_Some in Hej.
  - by rewrite (tm_lookup _ _ _ Hei), (tm_lookup _ _ _ Hej).
Qed.

(** What is committed at one point is in the logs of later leaders. *)
Lemma committed_at_leader n n' c c' g g' i j si sj :
  reached n c g → reached n' c' g' → rtc gstep_live (abs c, g) (abs c', g') →
  cl_servers c !! i = Some si → cl_servers c' !! j = Some sj →
  state (sv_node sj) = Leader → (currentTerm (sv_node si) <= currentTerm (sv_node sj))%N →
  take (S (N.to_nat (commitIndex (sv_node si)))) (entries (log (sv_node si)))
    `prefix_of` entries (log (sv_node sj)).
Proof.
  intros HI1 HI2 Hs Hi Hj Hl Hle.
  destruct (ru_live _ _ _ _ _ _ _ HI1) as [HE1 HL1], (ru_live _ _ _ _ _ _ _ HI2) as [HE2 HL2].
  apply abs_lookup in Hi, Hj. pose proof (li_commit _ _ _ _ HL1 _ _ Hi) as Hc.
  pose proof (steps_commit_ok ids Hnodup Hnonempty _ _ _ _ _ Hs (conj HE1 HL1) Hc) as Hc2.
  eapply (commit_ok_leader ids Hnodup); [exact HL2|exact Hc2|..]; [|by apply (li_leader _ _ _ _ HL2 _ _ Hj)|done].
  by destruct (li_log _ _ _ _ HL1 _ _ Hi) as ((? & _) & _).
Qed.

(** C3: Leader completeness.  What a server knew to be committed at one point of
    an execution is in the log of every server that leads the same or a later
    term at a later point. *)
Theorem leader_completeness_property w evs1 evs2 c1 c2 i j si sj :
  intact_run (evs1 ++ evs2) (init_cluster ids w) → (N.of_nat (length (evs1 ++ evs2)) < event_limit)%N →
  run evs1 (init_cluster ids w) = Some (Ret c1) → run evs2 c1 = Some (Ret c2) →
  cl_servers c1 !! i = Some si → cl_servers c2 !! j = Some sj →
  IsLeader (sv_node sj) = true → (currentTerm (sv_node si) <= currentTerm (sv_node sj))%N →
  take (S (N.to_nat (commitIndex (sv_node si)))) (entries (log (sv_node si)))
    `prefix_of` entries (log (sv_node sj)).
Proof.
  intros Hin Hlen Hr1 Hr2 Hi Hj Hl%bool_decide_eq_true_1 Hle.
  destruct (reach_two _ _ _ _ _ Hin Hlen Hr1 Hr2) as (g1 & g2 & n1 & n2 & HI1 & HI2 & Hs).
  by apply (committed_at_leader n1 n2 c1 c2 g1 g2 i j).
Qed.

(** C5: Commitment is final.  The entries that the commit index of a server
    covered at one point of an execution with intact restarts are in its log,
    unchanged, at every later point, after its restarts too; and the commit index of a server that does
    not restart does not decrease. *)
Theorem committed_stays w evs1 evs2 c1 c2 i s1 s2 :
  intact_run (evs1 ++ evs2) (init_cluster ids w) → (N.of_nat (length (evs1 ++ evs2)) < event_limit)%N →
  run evs1 (init_cluster ids w) = Some (Ret c1) → run evs2 c1 = Some (Ret c2) →
  cl_servers c1 !! i = Some s1 → cl_servers c2 !! i = Some s2 →
  (EvRestart i ∉ evs2 → (commitIndex (sv_node s1) <= commitIndex (sv_node s2))%N) ∧
  N.to_nat (commitIndex (sv_node s1)) < length (entries (log (sv_node s1))) ∧
  take (S (N.to_nat (commitIndex (sv_node s1)))) (entries (log (sv_node s1))) =
  take (S (N.to_nat (commitIndex (sv_node s1)))) (entries (log (sv_node s2))).
Proof.
  intros Hin Hlen Hr1 Hr2 Hi Hj. destruct (intact_run_app _ _ _ _ Hin Hr1) as [Hin1 Hin2].
  rewrite length_app in Hlen. destruct (reach w evs1 c1 Hin1 ltac:(lia) Hr1) as [g1 HI1].
  destruct (reach_on _ c1 g1 evs2 c2 HI1 Hin2 ltac:(lia) Hr2) as (g2 & HI2 & Hs).
  split.
  { intros Hnr. by apply (run_commit_mono False no_spec any_command ids Hnodup Hnonempty (no_ids ids) evs2 c1 c2 g1
      (length evs1) i s1 s2 HI1 Hin2 (False_ind _) (no_admissible _) ltac:(lia) Hr2). }
  apply abs_lookup in Hi, Hj. pose proof (ru_live _ _ _ _ _ _ _ HI1) as HLI1.
  destruct (ru_live _ _ _ _ _ _ _ HI2) as [_ HL2]. pose proof HLI1 as [_ HL1].
  pose proof (li_commit _ _ _ _ HL1 _ _ Hi) as Hc.
  destruct (commit_ok_steps ids Hnodup Hnonempty _ _ i _ _ _ _ Hs HLI1 Hi Hj (N.le_refl _) Hc) as [_ Hc'].
  pose proof (steps_commit_ok ids Hnodup Hnonempty _ _ _ _ _ Hs HLI1 Hc) as Hc1.
  destruct (li_log _ _ _ _ HL1 _ _ Hi) as [(H0 & _) _], (li_log _ _ _ _ HL2 _ _ Hj) as [(H0' & _) _].
  cbn [core_of k_commit k_log k_term snd] in *.
  pose proof (commit_ok_length _ _ _ _ _ Hc (lookup_lt_Some _ _ _ H0)) as Hlt. split; [done|].
  pose proof (commit_ok_length _ _ _ _ _ Hc' (lookup_lt_Some _ _ _ H0')) as Hlt'.
  apply compat_length_eq; [by apply (commit_ok_agree ids Hnodup _ _ _ _ _ _ _ _ _ HL2 Hc1 Hc')|].
  rewrite !length_take. lia.
Qed.

(** The entries taken from [applyCh] are committed ones. *)
Lemma consumed_committed (s : server W) :
  apply_inv s → sv_consumed s `prefix_of` drop 1 (committed (core_of (sv_node s))).
Proof.
  intros (Hl & _ & Ht). unfold committed. simpl.
  transitivity (take (N.to_nat (target s)) (drop 1 (entries (log (sv_node s))))).
  - rewrite <- Hl. by apply prefix_app_r.
  - rewrite take_drop_commute. simpl. apply prefix_drop, take_take_prefix. lia.
Qed.

(** What servers know to be committed at two points does not contradict. *)
Lemma committed_compat c1 c2 g1 g2 n1 n2 i j si sj :
  reached n1 c1 g1 → reached n2 c2 g2 → rtc gstep_live (abs c1, g1) (abs c2, g2) →
  cl_servers c1 !! i = Some si → cl_servers c2 !! j = Some sj →
  compat (committed (core_of (sv_node si))) (committed (core_of (sv_node sj))).
Proof.
  intros HI1 HI2 Hs Hi Hj. apply abs_lookup in Hi, Hj. pose proof (ru_live _ _ _ _ _ _ _ HI1) as HL1.
  destruct (ru_live _ _ _ _ _ _ _ HI2) as [_ HL2].
  apply (commit_ok_agree ids Hnodup _ _ g2 (k_term (core_of (sv_node si))) _ _ (k_term (core_of (sv_node sj)))
    _ _ HL2).
  - apply (steps_commit_ok ids Hnodup Hnonempty _ _ _ _ _ Hs HL1). destruct HL1 as [_ HL1].
    by apply (li_commit _ _ _ _ HL1 i).
  - by apply (li_commit _ _ _ _ HL2 j).
  - destruct HL1 as [_ HL1]. by destruct (li_log _ _ _ _ HL1 _ _ Hi) as [(? & _) _].
  - by destruct (li_log _ _ _ _ HL2 _ _ Hj) as [(? & _) _].
Qed.

(** What two servers have consumed does not contradict. *)
Lemma consumed_agree c1 c2 g1 g2 n1 n2 i j si sj :
  reached n1 c1 g1 → reached n2 c2 g2 → rtc gstep_live (abs c1, g1) (abs c2, g2) →
  cl_servers c1 !! i = Some si → cl_servers c2 !! j = Some sj →
  sv_consumed si `prefix_of` sv_consumed sj ∨ sv_consumed sj `prefix_of` sv_consumed si.
Proof.
  intros HI1 HI2 Hs Hi Hj.
  pose proof (consumed_committed _ (ru_apply _ _ _ _ _ _ _ HI1 _ _ Hi)) as Hci.
  pose proof (consumed_committed _ (ru_apply _ _ _ _ _ _ _ HI2 _ _ Hj)) as Hcj.
  destruct (committed_compat c1 c2 g1 g2 n1 n2 i j si sj) as [Hc|Hc]; [done..| |]; apply (prefix_drop 1) in Hc.
  - apply (prefix_weak_total _ _ (drop 1 (committed (core_of (sv_node sj))))); by (etrans; [eassumption|]).
  - apply (prefix_weak_total _ _ (drop 1 (committed (core_of (sv_node si))))); by (etrans; [eassumption|]).
Qed.

(** C1: State machine safety.  The sequences of entries that two servers'
    consumers have taken from [applyCh], at two points of an execution, do not
    contradict each other: one is a prefix of the other. *)
Theorem state_machine_safety w evs1 evs2 c1 c2 i j si sj :
  intact_run (evs1 ++ evs2) (init_cluster ids w) → (N.of_nat (length (evs1 ++ evs2)) < event_limit)%N →
  run evs1 (init_cluster ids w) = Some (Ret c1) → run evs2 c1 = Some (Ret c2) →
  cl_servers c1 !! i = Some si → cl_servers c2 !! j = Some sj →
  sv_consumed si `prefix_of` sv_consumed sj ∨ sv_consumed sj `prefix_of` sv_consumed si.
Proof.
  intros Hin Hlen Hr1 Hr2.
  destruct (reach_two _ _ _ _ _ Hin Hlen Hr1 Hr2) as (g1 & g2 & n1 & n2 & HI1 & HI2 & Hs).
  by apply (consumed_agree c1 c2 g1 g2 n1 n2).
Qed.

(** C18: In order, without gaps.  In every state of an execution with intact
    restarts, the [k]-th entry that a consumer takes is the
    one at position [k + 1] of the server's log, and carries that index;
    [lastApplied] never passes [commitIndex]. *)
Theorem applied_in_order w evs c i s :
  intact_run evs (init_cluster ids w) → (N.of_nat (length evs) < event_limit)%N →
  run evs (init_cluster ids w) = Some (Ret c) → cl_servers c !! i = Some s →
  (lastApplied (sv_node s) <= commitIndex (sv_node s))%N ∧
  ∀ k e, sv_consumed s !! k = Some e →
    e_Index e = N.of_nat (S k) ∧ entries (log (sv_node s)) !! S k = Some e.
Proof.
  intros Hin Hlen Hr Hi. destruct (reach w evs c Hin Hlen Hr) as [g HI].
  pose proof (ru_apply _ _ _ _ _ _ _ HI _ _ Hi) as Ha. pose proof (consumed_committed _ Ha) as Hc.
  destruct Ha as (_ & Hla & Ht). split; [lia|]. intros k e He.
  assert (Hek : entries (log (sv_node s)) !! S k = Some e).
  { apply (prefix_lookup_Some _ _ _ _ He) in Hc. rewrite lookup_drop in Hc.
    unfold committed in Hc. simpl in Hc. by apply lookup_take_Some in Hc as [? _]. }
  split; [|done]. destruct (ru_live _ _ _ _ _ _ _ HI) as [_ HL].
  destruct (li_log _ _ _ _ HL _ _ (abs_lookup _ _ _ Hi)) as [(_ & Hidx & _) _]. by apply Hidx.
Qed.

(** The state of a leader after [SubmitCommand] has appended. *)
Lemma submit_appended cmd (n n' : Node W) index term :
  log_shape (log n) → submit_append cmd n = (n', inl (index, term)) →
  state n = Leader ∧ state n' = Leader ∧ currentTerm n' = term ∧
  entries (log n') = entries (log n) ++ [mkEntry term index cmd] ∧
  index = N.of_nat (length (entries (log n))).
Proof.
  intros Hl Hs. destruct (decide (state n = Leader)) as [Hlead|Hno].
  2: { rewrite submit_not_leader in Hs by done. discriminate. }
  destruct (submit_refines cmd n Hl Hlead) as [Hc _]. rewrite Hs in Hc. cbn [fst] in Hc.
  assert (Hi : index = (LastIndex (log n) +64 1)%N ∧ term = currentTerm n).
  { unfold submit_append in Hs. rewrite bool_decide_eq_true_2 in Hs by done. cbv zeta in Hs. cbn [negb] in Hs.
    destruct (wal _) as [w|]; [destruct (PersistEntry w _ _ _) as [w' [msg|]]|];
      (discriminate Hs || (apply (f_equal snd) in Hs; cbn [snd] in Hs; by injection Hs as <- <-)). }
  destruct Hi as [-> ->]. rewrite LastIndex_eq by done. destruct Hl as [Hne Hlt].
  rewrite u64_add_small by (unfold two63, two64 in *; lia).
  injection Hc as _ _ Ht _ Hlog Hst _ _ _ _ _. unfold last_index in Hlog.
  split_and!; [done|congruence|done|done|lia].
Qed.

Lemma submit_exec cmd c i s n' index term :
  cl_servers c !! i = Some s → submit_append cmd (sv_node s) = (n', inl (index, term)) →
  exec (EvSubmit i cmd) c =
    Some (Ret (mkCluster (<[i := set_node n' s]> (cl_servers c)) (cl_net c ++ []))).
Proof.
  intros Hi Hsub. cbn [exec]. unfold at_server, on_submit, react. rewrite Hi. cbn [mbind option_bind outcome_bind].
  by rewrite Hsub.
Qed.

Lemma reached_shape n c g i s :
  reached n c g → (N.of_nat n < event_limit)%N → cl_servers c !! i = Some s → log_shape (log (sv_node s)).
Proof.
  intros HI Hlen Hi. destruct (ru_cluster _ _ _ _ _ _ _ HI) as [Hsm _]. split.
  - by destruct (sm_core _ _ _ _ Hsm _ _ (abs_lookup _ _ _ Hi)) as (_ & ? & _).
  - pose proof (live_bounds_log ids _ _ _ _ (ru_live _ _ _ _ _ _ _ HI) (ru_bounds _ _ _ _ _ _ _ HI)
      (abs_lookup _ _ _ Hi)). simpl in *. unfold event_limit, two63 in *. lia.
Qed.

(** The waiting loop of [SubmitCommand] reports success only as the leader of
    the same term, with the entry applied. *)
Lemma submit_poll_success index term (n : Node W) r :
  submit_poll index term n = Some (inl r) →
  state n = Leader ∧ currentTerm n = term ∧ (index <= lastApplied n)%N ∧ r = (index, term).
Proof.
  unfold submit_poll. destruct (bool_decide (state n = Leader)) eqn:E; [|done].
  destruct (N.eqb_spec (currentTerm n) term) as [Ht|]; [|done]. cbn [negb orb].
  destruct (N.leb_spec index (lastApplied n)); [|done]. intros [= <-]. by bool_to_prop.
Qed.

(** Nothing else is consumed at a committed position, then or later. *)
Lemma committed_unique n n' c c' g g' i j si sj k e e' :
  reached n c g → reached n' c' g' → rtc gstep_live (abs c, g) (abs c', g') →
  cl_servers c !! i = Some si → cl_servers c' !! j = Some sj →
  entries (log (sv_node si)) !! S k = Some e → (N.of_nat (S k) <= commitIndex (sv_node si))%N →
  sv_consumed sj !! k = Some e' → e' = e.
Proof.
  intros HI HI' Hs Hi Hj He Hk He'.
  pose proof (consumed_committed _ (ru_apply _ _ _ _ _ _ _ HI' _ _ Hj)) as Hcj.
  apply (prefix_lookup_Some _ _ _ _ He') in Hcj. rewrite lookup_drop in Hcj. simpl in Hcj.
  assert (Hci : committed (core_of (sv_node si)) !! S k = Some e).
  { unfold committed. cbn [core_of k_commit k_log]. rewrite lookup_take_lt by lia. done. }
  destruct (committed_compat c c' g g' n n' i j si sj) as [Hc|Hc]; [done..| |].
  - apply (prefix_lookup_Some _ _ _ _ Hci) in Hc. congruence.
  - apply (prefix_lookup_Some _ _ _ _ Hcj) in Hc. congruence.
Qed.

(** The entry that a leader appended is in its log as long as it leads the same
    term. *)
Lemma submitted_stays n1 n2 c1 c2 g1 g2 i s1 s2 n n' cmd index term :
  log_shape (log n) → submit_append cmd n = (n', inl (index, term)) →
  reached n1 c1 g1 → reached n2 c2 g2 → rtc gstep_live (abs c1, g1) (abs c2, g2) →
  cl_servers c1 !! i = Some s1 → sv_node s1 = n' →
  cl_servers c2 !! i = Some s2 → state (sv_node s2) = Leader → currentTerm (sv_node s2) = term →
  (0 < index)%N ∧ entries (log (sv_node s2)) !! N.to_nat index = Some (mkEntry term index cmd).
Proof.
  intros Hshape Hsub HI1 HI2 Hs Hi1 Hn Hi2 Hl2 Ht2.
  destruct (submit_appended _ _ _ _ _ Hshape Hsub) as (_ & Hl1 & Ht1 & Hlog1 & Hidx).
  destruct Hshape as [Hne _]. split; [lia|].
  pose proof (leader_log_steps ids Hnodup Hnonempty _ _ i _ _ Hs (ru_live _ _ _ _ _ _ _ HI1)
    (abs_lookup _ _ _ Hi1) (abs_lookup _ _ _ Hi2)) as Hp.
  cbn [core_of k_state k_log k_term] in Hp. rewrite Hn in Hp. specialize (Hp Hl1 Hl2).
  eapply prefix_lookup_Some; [|apply Hp; congruence]. rewrite Hlog1, Hidx, Nat2N.id. by apply list_lookup_middle.
Qed.

Lemma acknowledged_command w evs1 evs2 evs3 c1 c2 c3 i s1 s2 n' cmd index term r :
  intact_run (evs1 ++ (EvSubmit i cmd :: evs2) ++ evs3) (init_cluster ids w) →
  (N.of_nat (length (evs1 ++ (EvSubmit i cmd :: evs2) ++ evs3)) < event_limit)%N →
  run evs1 (init_cluster ids w) = Some (Ret c1) →
  cl_servers c1 !! i = Some s1 → submit_append cmd (sv_node s1) = (n', inl (index, term)) →
  run (EvSubmit i cmd :: evs2) c1 = Some (Ret c2) → cl_servers c2 !! i = Some s2 →
  submit_poll index term (sv_node s2) = Some (inl r) → run evs3 c2 = Some (Ret c3) →
  r = (index, term) ∧ (0 < index <= commitIndex (sv_node s2))%N ∧
  entries (log (sv_node s2)) !! N.to_nat index = Some (mkEntry term index cmd) ∧
  ∀ j sj, cl_servers c3 !! j = Some sj →
    (∀ e, sv_consumed sj !! (N.to_nat index - 1) = Some e → e = mkEntry term index cmd) ∧
    (IsLeader (sv_node sj) = true → (term <= currentTerm (sv_node sj))%N →
     entries (log (sv_node sj)) !! N.to_nat index = Some (mkEntry term index cmd)).
Proof.
  intros Hin Hlen Hr1 Hi1 Hsub Hr2 Hi2 Hpoll Hr3. rewrite !length_app in Hlen. simpl in Hlen.
  destruct (intact_run_app _ _ _ _ Hin Hr1) as [Hin1 Hin23]. destruct (intact_run_app _ _ _ _ Hin23 Hr2) as [[_ Hin2] Hin3].
  pose proof (submit_exec _ _ _ _ _ _ _ Hi1 Hsub) as Hx. cbn [run] in Hr2. rewrite Hx in Hr2, Hin2.
  destruct (reach w evs1 c1 Hin1 ltac:(lia) Hr1) as [g1 HI1].
  destruct (reach_on _ c1 g1 [EvSubmit i cmd] _ HI1 ltac:(by apply crash_free_intact; repeat constructor) ltac:(simpl; lia)
    ltac:(cbn [run]; by rewrite Hx)) as (g1' & HI1' & _).
  destruct (reach_on _ _ g1' evs2 c2 HI1' Hin2 ltac:(simpl; lia) Hr2) as (g2 & HI2 & Hs2).
  destruct (reach_on _ _ g2 evs3 c3 HI2 Hin3 ltac:(simpl; lia) Hr3) as (g3 & HI3 & Hs3).
  assert (Hshape : log_shape (log (sv_node s1))) by (eapply (reached_shape (length evs1)); [exact HI1|lia|exact Hi1]).
  destruct (submit_poll_success _ _ _ _ Hpoll) as (Hl2 & Ht2 & Hap & ->).
  destruct (submitted_stays _ _ _ c2 g1' g2 i (set_node n' s1) s2 _ n' cmd index term Hshape Hsub HI1' HI2 Hs2
    ltac:(apply lookup_insert_eq) eq_refl Hi2 Hl2 Ht2) as [Hpos Hlk].
  destruct (ru_apply _ _ _ _ _ _ _ HI2 _ _ Hi2) as (_ & Hla & Htg).
  split_and!; [done|lia|lia|done|]. intros j sj Hj. split.
  - intros e He. replace (N.to_nat index) with (S (N.to_nat index - 1)) in Hlk by lia.
    apply (committed_unique _ _ c2 c3 g2 g3 i j s2 sj (N.to_nat index - 1) _ _ HI2 HI3 Hs3); [done..|lia|done].
  - intros Hlj%bool_decide_eq_true_1 Htj.
    eapply prefix_lookup_Some; [|apply (committed_at_leader _ _ c2 c3 g2 g3 i j s2 sj HI2 HI3 Hs3 Hi2 Hj Hlj); lia].
    rewrite lookup_take_lt by lia. done.
Qed.

(** C6: What [SubmitCommand] acknowledges is committed and durable.  If the
    leader appended a command at [index] in [term], and at a later point the
    waiting loop reports success, then the command is at that position of the
    leader's log and is committed there; from then on, through crashes and
    elections, no server's consumer has taken anything else at that position,
    and every server that leads that term or a later one has the command in its
    log. *)
Theorem submit_acknowledged w evs1 evs2 evs3 c1 c2 c3 i s1 s2 n' cmd index term r :
  intact_run (evs1 ++ (EvSubmit i cmd :: evs2) ++ evs3) (init_cluster ids w) →
  (N.of_nat (length (evs1 ++ (EvSubmit i cmd :: evs2) ++ evs3)) < event_limit)%N →
  run evs1 (init_cluster ids w) = Some (Ret c1) →
  cl_servers c1 !! i = Some s1 → submit_append cmd (sv_node s1) = (n', inl (index, term)) →
  run (EvSubmit i cmd :: evs2) c1 = Some (Ret c2) → cl_servers c2 !! i = Some s2 →
  submit_poll index term (sv_node s2) = Some (inl r) → run evs3 c2 = Some (Ret c3) →
  r = (index, term) ∧ (0 < index <= commitIndex (sv_node s2))%N ∧
  entries (log (sv_node s2)) !! N.to_nat index = Some (mkEntry term index cmd) ∧
  ∀ j sj, cl_servers c3 !! j = Some sj →
    (∀ e, sv_consumed sj !! (N.to_nat index - 1) = Some e → e = mkEntry term index cmd) ∧
    (IsLeader (sv_node sj) = true → (term <= currentTerm (sv_node sj))%N →
     entries (log (sv_node sj)) !! N.to_nat index = Some (mkEntry term index cmd)).
Proof. apply acknowledged_command. Qed.

End intact.

(** ** A concrete cluster

    Three servers with in-memory journals: [a] is elected, a command is
    submitted to it, replicated, committed and applied; servers restart. *)
Module Demo.

Definition constant_rand : Rand.
Proof. refine {| Int63n _ _ := 0%Z |}. intros _ n. lia. Defined.

#[local] Existing Instance constant_rand.

Definition ids : list NodeID := ["a"; "b"; "c"].
Definition wals (i : NodeID) : option Journal := Some (mkJournal []).
Definition start : cluster Journal := init_cluster ids wals.
Definition cmd : bytes := [Byte.x01; Byte.x02].

(** [a] becomes leader of term 1 with the vote of [b]. *)
Definition elect : list event := [EvElection "a"; EvVoteRequest 0; EvVoteReply 2].

(** The command goes to [b], is committed and applied at [a]. *)
Definition replicate : list event :=
  [EvReplicate "a" "b"; EvAppendRequest 3; EvAppendReply 4;
   EvApplyCollect "a"; EvApplySend "a"; EvApplyFinish "a"; EvConsume "a"].

Definition result (o : option (outcome (cluster Journal))) : cluster Journal :=
  match o with Some (Ret c) => c | _ => start end.

Definition server_of (i : NodeID) (c : cluster Journal) : server Journal :=
  default (init_server ids wals i) (cl_servers c !! i).

Definition elected : cluster Journal := result (run elect start).
Definition applied : cluster Journal := result (run (EvSubmit "a" cmd :: replicate) elected).

(** [a] and [b] restart; [b] becomes leader of term 2 with the vote of [c]. *)
Definition reelect : list event :=
  [EvRestart "a"; EvRestart "b"; EvElection "b"; EvVoteRequest 4; EvVoteReply 5].
Definition reelected : cluster Journal := result (run reelect applied).

(** [b] restarts while [a] leads, and gets a heartbeat. *)
Definition after_restart : list event :=
  EvSubmit "a" cmd :: replicate ++ [EvRestart "b"; EvHeartbeats "a"; EvHeartbeatTask 5].
Definition restarted : cluster Journal := result (run after_restart elected).

Lemma ids_nodup : NoDup ids.
Proof. decided. Qed.

Lemma ids_nonempty : "" ∉ ids.
Proof. decided. Qed.

Lemma ids_storable i : i ∈ ids → storable_id (W := Journal) i.
Proof. done. Qed.

Lemma wals_fresh : fresh_wal wals.
Proof. by intros i x [= <-]. Qed.

(** The hypotheses of [election_safety] hold for an execution in which [b]
    restarts while [a] leads. *)
Lemma election_safety_witness :
  run elect start = Some (Ret elected) ∧ run after_restart elected = Some (Ret restarted) ∧
  IsLeader (sv_node (server_of "a" restarted)) = true ∧ ("a" : NodeID) = "a".
Proof.
  split; [by_compute|]. split; [by_compute|]. split; [by_compute|].
  apply (election_safety ids ids_nodup ids_nonempty ids_storable wals elect after_restart elected restarted
           "a" "a" (server_of "a" elected) (server_of "a" restarted));
    [exact wals_fresh|done|decided|by_compute..].
Defined.

Lemma run_no_panic_witness : run (elect ++ after_restart) start ≠ Some Panic.
Proof.
  apply (run_no_panic ids ids_nodup ids_nonempty ids_storable wals); [exact wals_fresh|done|decided].
Defined.

Lemma intact_bounded_witness :
  sized_run (elect ++ after_restart) start ∧ run (elect ++ after_restart) start ≠ Some Panic.
Proof.
  apply (intact_bounded ids ids_nodup ids_nonempty wals); [decided|decided|by_compute].
Defined.

Definition applying : list event := elect ++ EvSubmit "a" cmd :: replicate.

Lemma log_matching_witness :
  take 2 (entries (log (sv_node (server_of "a" applied)))) =
  take 2 (entries (log (sv_node (server_of "b" applied)))).
Proof.
  apply (log_matching_property ids ids_nodup ids_nonempty wals applying applied "a" "b"
    (server_of "a" applied) (server_of "b" applied) 1 (mkEntry 1 1 cmd) (mkEntry 1 1 cmd));
    [decided|by_compute..].
Defined.

Lemma leader_completeness_witness :
  commitIndex (sv_node (server_of "a" applied)) = 1%N ∧
  currentTerm (sv_node (server_of "b" reelected)) = 2%N ∧
  take 2 (entries (log (sv_node (server_of "a" applied)))) `prefix_of`
    entries (log (sv_node (server_of "b" reelected))).
Proof.
  split; [by_compute|]. split; [by_compute|].
  apply (leader_completeness_property ids ids_nodup ids_nonempty wals applying reelect applied reelected
    "a" "b" (server_of "a" applied) (server_of "b" reelected));
    [decided|by_compute|by_compute|by_compute|by_compute|by_compute|by_compute|vm_compute; discriminate].
Defined.

Lemma committed_stays_witness :
  take 2 (entries (log (sv_node (server_of "a" applied)))) =
  take 2 (entries (log (sv_node (server_of "a" reelected)))).
Proof.
  apply (committed_stays ids ids_nodup ids_nonempty wals applying reelect applied reelected
    "a" (server_of "a" applied) (server_of "a" reelected));
    [decided|by_compute..].
Defined.

Lemma state_machine_safety_witness :
  sv_consumed (server_of "a" applied) = [mkEntry 1 1 cmd] ∧
  (sv_consumed (server_of "a" applied) `prefix_of` sv_consumed (server_of "c" reelected) ∨
   sv_consumed (server_of "c" reelected) `prefix_of` sv_consumed (server_of "a" applied)).
Proof.
  split; [by_compute|].
  apply (state_machine_safety ids ids_nodup ids_nonempty wals applying reelect applied reelected
    "a" "c" (server_of "a" applied) (server_of "c" reelected));
    [decided|by_compute..].
Defined.

Lemma applied_in_order_witness :
  sv_consumed (server_of "a" applied) !! 0 = Some (mkEntry 1 1 cmd) ∧
  entries (log (sv_node (server_of "a" applied))) !! 1 = Some (mkEntry 1 1 cmd).
Proof.
  split; [by_compute|].
  apply (applied_in_order ids ids_nodup ids_nonempty wals applying applied "a" (server_of "a" applied));
    [decided|by_compute..].
Defined.

(** After the acknowledgement [a] and [b] restart, and [b] leads. *)
Lemma submit_acknowledged_witness :
  submit_poll 1 1 (sv_node (server_of "a" applied)) = Some (inl (1, 1)%N) ∧
  entries (log (sv_node (server_of "b" reelected))) !! 1 = Some (mkEntry 1 1 cmd).
Proof.
  split; [by_compute|].
  destruct (submit_acknowledged ids ids_nodup ids_nonempty wals elect replicate reelect elected applied reelected "a"
    (server_of "a" elected) (server_of "a" applied)
    (submit_append cmd (sv_node (server_of "a" elected))).1 cmd 1 1 (1, 1)%N) as (_ & _ & _ & Hlater);
    [decided|by_compute..|].
  destruct (Hlater "b" (server_of "b" reelected)) as [_ Hb]; [by_compute|].
  apply Hb; [by_compute|vm_compute; discriminate].
Defined.

(** A single server times out twice and stays a candidate. *)
Definition alone : cluster Journal :=
  result (run [EvElection "a"; EvElection "a"] (init_cluster ["a"] wals)).

Lemma single_server_never_leads_witness :
  currentTerm (sv_node (server_of "a" alone)) = 2%N ∧
  IsLeader (sv_node (server_of "a" alone)) = false ∧
  submit_append cmd (sv_node (server_of "a" alone)) = (sv_node (server_of "a" alone), inr ErrNotLeader).
Proof.
  split; [by_compute|].
  apply (single_server_never_leads "a" wals [EvElection "a"; EvElection "a"] alone);
    [discriminate|done|exact wals_fresh|done|decided|by_compute|by_compute].
Defined.

End Demo.

(** * A restart after a truncation

    The write-ahead log has no record for the truncation that
    [HandleAppendEntries] makes, so [Replay] puts the removed entries back. *)
Module Divergence.

#[local] Existing Instance Demo.constant_rand.

Definition x : bytes := [Byte.x0a].
Definition y : bytes := [Byte.x0b].
Definition z : bytes := [Byte.x0c].

(** [a] leads term 1 and appends [x]; [b] leads term 2, overwrites it with [y],
    commits and applies [y]. *)
Definition overwrite : list event :=
  [EvElection "a"; EvVoteRequest 0; EvVoteReply 2; EvSubmit "a" x;
   EvElection "b"; EvVoteRequest 4; EvVoteReply 5; EvSubmit "b" y;
   EvReplicate "b" "a"; EvAppendRequest 6; EvAppendReply 7;
   EvApplyCollect "b"; EvApplySend "b"; EvApplyFinish "b"; EvConsume "b"].

(** [a] restarts, leads term 3 with the vote of [c], brings [c] up to date,
    commits [z] and applies the first entry of its log. *)
Definition come_back : list event :=
  [EvRestart "a"; EvElection "a"; EvVoteRequest 8; EvVoteReply 9;
   EvHeartbeats "a"; EvHeartbeatTask 11; EvAppendRequest 12; EvAppendReply 13;
   EvReplicate "a" "c"; EvAppendRequest 14; EvAppendReply 15;
   EvSubmit "a" z; EvReplicate "a" "c"; EvAppendRequest 16; EvAppendReply 17;
   EvApplyCollect "a"; EvApplySend "a"; EvConsume "a"].

Definition final : cluster Journal := Demo.result (run (overwrite ++ come_back) Demo.start).

(** With restarts, state machine safety fails although the write-ahead log
    loses nothing: three servers with perfect storage reach a state in which
    [a] and [b] have handed different commands to their state machines as
    entry 1. The log of [a] after its restart holds the entry it had removed,
    and behind it, at position 2, the entry with index 1 that replaced it. *)
Theorem restart_breaks_state_machine_safety :
  run (overwrite ++ come_back) Demo.start = Some (Ret final) ∧
  sv_consumed (Demo.server_of "a" final) = [mkEntry 1 1 x] ∧
  sv_consumed (Demo.server_of "b" final) = [mkEntry 2 1 y] ∧
  entries (log (sv_node (Demo.server_of "a" final))) =
    [sentinel; mkEntry 1 1 x; mkEntry 2 1 y; mkEntry 3 3 z].
Proof. vm_compute; repeat split; reflexivity. Qed.

End Divergence.
