(* ===== verification/Recovery.v ===== *)
(** What a restart gives back.

    The write-ahead log has a record for every entry that a node appended and
    none for the entries that it removed.  In an execution with intact restarts
    the records hold the log all the same ([wal_holds_log]): the entry written
    last at an index replaces what was written there and behind it before.
    [Replay] does not read them so, but puts the entries of all records one
    behind the other; so a restart is intact exactly when the indices of the
    stored entries are consecutive, and always when no server restarts after its
    log was truncated ([untruncated_intact]). *)

From S2P Require Import Prelude Types RaftLog Storage Node Replication Cluster.
From S2P Require Import Protocol Refinement Ghost ElectionSafety LogFacts LogSafety Bounds Simulation Safety Guarantees.
Import RLog.

(** ** The log that the records hold *)

(** An entry with index [k] replaces what was at that index and behind it. *)
Definition put_entry (L : list LogEntry) (e : LogEntry) : list LogEntry :=
  take (N.to_nat (e_Index e) - 1) L ++ [e].

Definition restore (es : list LogEntry) : list LogEntry := foldl put_entry [] es.

(** The indices of [es] follow on [b]. *)
Definition consecutive (b : nat) (es : list LogEntry) : Prop :=
  ∀ j e, es !! j = Some e → e_Index e = N.of_nat (b + j + 1).

Lemma restore_app es1 es2 : restore (es1 ++ es2) = foldl put_entry (restore es1) es2.
Proof. unfold restore. by rewrite foldl_app. Qed.

Lemma put_entries b L es :
  consecutive b es → b <= length L → es ≠ [] → foldl put_entry L es = take b L ++ es.
Proof.
  revert b L. induction es as [|e es IH]; intros b L Hc Hb Hne; [done|]. simpl.
  assert (He : put_entry L e = take b L ++ [e]).
  { unfold put_entry. rewrite (Hc 0 e eq_refl). do 2 f_equal. lia. }
  rewrite He. destruct es as [|e' es]; [done|].
  rewrite (IH (S b)); [|intros j x Hx; rewrite (Hc (S j) x Hx); lia|rewrite length_app, length_take; simpl; lia|done].
  rewrite take_ge by (rewrite length_app, length_take; simpl; lia). by rewrite <- app_assoc.
Qed.

Lemma restore_consecutive es : consecutive 0 es → restore es = es.
Proof. intros Hc. destruct es as [|e es]; [done|]. unfold restore. by rewrite (put_entries 0) by (done || simpl; lia). Qed.

Lemma log_consecutive L : wf_list L → consecutive 0 (drop 1 L).
Proof. intros (_ & Hidx & _) j e He. rewrite lookup_drop in He. rewrite (Hidx _ _ He). lia. Qed.

(** ** Where the loop of [HandleAppendEntries] cuts the log *)

Lemma cut_at_spec l idx es l' :
  log_shape l → (0 < idx)%N → (idx < two63)%N → (idx <= N.of_nat (length (entries l)))%N → cut_at l idx es l' →
  entries l' = take (N.to_nat idx) (entries l) ∧
  (l' = l ∨ ∃ e, head es = Some e ∧ tm (entries l) (N.to_nat idx) ≠ e_Term e ∧
                 N.to_nat idx < length (entries l)).
Proof.
  intros Hl H0 Hb Hle Hc. unfold cut_at in Hc. rewrite Contains_spec in Hc by done.
  destruct Hc as [[Hge ->]|(Hlt & Htr & t & e & Htm & He & Hne)].
  - apply N.ltb_ge in Hge. split; [|by left]. by rewrite take_ge by lia.
  - apply N.ltb_lt in Hlt. rewrite u64_sub_small in Htr by (unfold two63, two64 in *; lia).
    rewrite TruncateAfter_spec in Htr by lia. injection Htr as <-. cbn [entries].
    replace (S (N.to_nat (idx - 1))) with (N.to_nat idx) by lia. split; [done|right].
    exists e. split_and!; [done| |lia]. rewrite TermAt_spec in Htm by done. by injection Htm as <-.
Qed.

Lemma prefix_cut_term L es e x :
  head es = Some e → x < length L → tm L x ≠ e_Term e → ¬ L `prefix_of` take x L ++ es.
Proof.
  intros He Hx Hne Hp. destruct es as [|e' es]; [done|]. injection He as ->.
  apply Hne. rewrite (prefix_tm _ _ _ Hp Hx). unfold tm.
  rewrite lookup_app_r by (rewrite length_take; lia). rewrite length_take.
  by replace (x - x `min` length L) with 0 by lia.
Qed.

Section recovery.
Context {W : Type} `{SS : StorageSpec W} `{HRand : Rand}.
Context (ids : list NodeID) (Hnodup : NoDup ids) (Hnonempty : "" ∉ ids).
Context (Hids : ∀ i, i ∈ ids → storable_id (W := W) i).
Implicit Types c : cluster W.
Implicit Types s : server W.
Implicit Types n : Node W.

Abbreviation reached k c g := (run_inv True (λ _, SS) any_command ids k c g).
Abbreviation stored_with Q n := (stored_as True (λ _, SS) Q n).
Abbreviation all_small := (all_ok True (λ _, SS) any_command).

(** ** One event *)

Lemma log_same n n' : k_log (core_of n') = k_log (core_of n) → log n' = log n.
Proof. cbn [core_of k_log]. destruct (log n), (log n'). simpl. by intros ->. Qed.

Lemma react_result s o s' ps : react s o = Some (Ret (s', ps)) → ∃ n', o = Ret (n', ps) ∧ s' = set_node n' s.
Proof. unfold react. destruct o as [[n' ps']|]; [|done]. cbn [mbind outcome_bind]. intros [= <- <-]. eauto. Qed.

Section event.
Context (k : nat) (c : cluster W) (g : ghost) (HI : reached k c g) (Hk : (N.of_nat k < event_limit)%N).
Context (i : NodeID) (s : server W) (Hs : cl_servers c !! i = Some s).

(** A property [Q] of the log and the stored entries that appending keeps. *)
Context (Q : RaftLog → list LogEntry → Prop) (HQ : stored_with (Q (log (sv_node s))) (sv_node s)).
Context (Hsubmit : ∀ e rc, entry_ok log_limit (admissible True (λ _, SS) any_command) e →
  e_Index e = N.of_nat (length (entries (log (sv_node s)))) →
  Q (log (sv_node s)) rc → Q (Append (log (sv_node s)) [e]) (rc ++ [e])).
Context (Happend : ∀ src hb args j l rc, AppReq src i hb args ∈ cl_net c → j < length (ae_Entries args) →
  check_prev args (sv_node s) = Ret None →
  (∀ j', j = S j' → Contains (log (sv_node s)) (ae_PrevLogIndex args +64 N.of_nat j' +64 1) = true) →
  cut_at (log (sv_node s)) (ae_PrevLogIndex args +64 N.of_nat j +64 1) (drop j (ae_Entries args)) l →
  Q (log (sv_node s)) rc → Q (Append l (drop j (ae_Entries args))) (rc ++ drop j (ae_Entries args))).

Local Lemma Hsized : sized c.
Proof. eapply run_inv_sized; [exact HI|unfold log_limit, event_limit in *; lia]. Qed.
Local Lemma Hok : server_ok True (λ _, SS) any_command s.
Proof. by eapply server_ok_at; [apply HI|apply Hsized|]. Qed.
Local Lemma Hsh : log_shape (log (sv_node s)).
Proof. eapply server_ok_shape, Hok. Qed.
Local Lemma Hsmall : small log_limit (admissible True (λ _, SS) any_command) (abs c).1 (abs c).2.
Proof. apply HI. Qed.

(** A critical section that keeps the log. *)
Lemma stored_kept n' :
  stored_with (Q (log (sv_node s))) n' → k_log (core_of n') = k_log (core_of (sv_node s)) → stored_with (Q (log n')) n'.
Proof. intros Hst Hl. by rewrite (log_same _ _ Hl). Qed.

Local Lemma Hid : id (sv_node s) = i ∧ i ∈ ids ∧ i ≠ "".
Proof. eapply (id_at ids Hnonempty c g); [apply HI|done]. Qed.

(** *** The critical sections *)

Abbreviation kept s' := (stored_with (Q (log (sv_node s'))) (sv_node s')).

Lemma election_stored s' ps : on_election s = Some (Ret (s', ps)) → kept s'.
Proof using Hnonempty Hids HI Hk Hs HQ.
  intros (n' & Hf & ->)%react_result. destruct Hid as (Hid & Hin & Hne).
  destruct (startElection_refines (sv_node s)) as (n1 & He & Hc & _); [split; [apply Hsh|apply Hok]|].
  rewrite He in Hf. injection Hf as <- _. apply stored_kept; [|cbn [set_node sv_node]; by rewrite Hc].
  eapply (stored_startElection True (λ _, SS) ids (λ _, Hids)); [exact HQ|apply Hok|by rewrite Hid|by rewrite Hid|exact He].
Qed.

Lemma vote_request_stored src dst args s' ps :
  VoteReq src dst args ∈ cl_net c → on_vote_request src dst args s = Some (Ret (s', ps)) → kept s'.
Proof using Hnonempty Hids HI Hk Hs HQ.
  intros Hq (n' & Hf & ->)%react_result. pose proof (sm_term _ _ _ _ Hsmall _ Hq) as Hpt.
  destruct (ei_req _ _ _ _ (proj1 (ru_live _ _ _ _ _ _ _ HI)) _ _ _ Hq) as (Hcid & Hsrc & Hpos).
  destruct (HandleRequestVote_refines args (sv_node s) Hsh) as (n1 & reply & He & Hp & _).
  rewrite He in Hf. injection Hf as <- _. apply stored_kept.
  - eapply (stored_HandleRequestVote True (λ _, SS) ids (λ _, Hids));
      [exact He|exact HQ|rewrite Hcid; done|rewrite Hcid; by intros ->|done|done|apply Hok].
  - cbn [set_node sv_node]. apply p_vote_cases in Hp as [[-> _]|(-> & _)]; apply p_observe_log.
Qed.

Lemma vote_reply_stored p term reply s' ps :
  VoteRep i p term reply ∈ cl_net c → on_vote_reply p term reply s = Some (Ret (s', ps)) → kept s'.
Proof using HI Hk Hs HQ.
  intros Hq (n' & Hf & ->)%react_result. pose proof (sm_term _ _ _ _ Hsmall _ Hq) as Hpt. injection Hf as <- _.
  destruct (handleVoteReply_refines p term reply (sv_node s) Hsh) as [Hc _].
  apply stored_kept; [by apply stored_handleVoteReply|]. cbn [set_node sv_node]. rewrite Hc.
  by destruct (p_vote_reply_cases p term reply (core_of (sv_node s)))
    as [->|[[? ->]|(_ & _ & _ & _ & [->|[-> _]])]].
Qed.

Lemma append_request_stored src hb args s' ps :
  AppReq src i hb args ∈ cl_net c → on_append_request src i hb args s = Some (Ret (s', ps)) → kept s'.
Proof using HI Hk Hs HQ Happend.
  intros Hq (n' & Hf & ->)%react_result. apply bind_Ret in Hf as ([n1 reply] & He & [= <- _]).
  destruct (sm_net _ _ _ _ Hsmall _ Hq) as (_ & _ & _ & Hes & _).
  apply (stored_HandleAppendEntries True (λ _, SS) any_command Q _ _ _ _ He HQ Hes (sm_term _ _ _ _ Hsmall _ Hq)).
  intros x l rc. by apply (Happend src hb).
Qed.

Lemma append_reply_stored p hb args reply s' ps :
  AppRep i p hb args reply ∈ cl_net c → on_append_reply p hb args reply s = Some (Ret (s', ps)) → kept s'.
Proof using HI Hk Hs HQ.
  intros Hq (n' & Hf & ->)%react_result. apply bind_Ret in Hf as (n1 & He & [= <- _]).
  pose proof (sm_term _ _ _ _ Hsmall _ Hq) as Hpt.
  destruct (sm_net _ _ _ _ Hsmall _ Hq) as ((_ & _ & _ & Hidx & Hnil) & _).
  destruct (append_reply_refines p hb args reply (sv_node s) Hsh (server_ok_index _ _ _ _ Hok) Hnil)
    as (n2 & He2 & Hc & _).
  { intros e Hlast. rewrite last_lookup in Hlast. apply Hidx in Hlast as (? & _). unfold log_limit, two63 in *. lia. }
  rewrite He2 in He. injection He as <-. apply stored_kept; [by eapply stored_append_reply|].
  cbn [set_node sv_node]. rewrite Hc.
  destruct (p_append_reply_cases p args reply (core_of (sv_node s)))
    as [->|[[? ->]|(_ & _ & _ & [(e & _ & _ & ->)|(_ & ->)])]]; [done..| |].
  - by destruct (p_success_same p (e_Index e) (core_of (sv_node s))) as (_&_&_&_&->&_).
  - by destruct (p_conflict_same p reply (core_of (sv_node s))) as (_&_&_&_&->&_).
Qed.

Lemma submit_stored cmd s' ps :
  storable_command (W := W) cmd → on_submit cmd s = Some (Ret (s', ps)) → kept s'.
Proof using HI Hk Hs HQ Hsubmit.
  intros Hcmd (n' & Hf & ->)%react_result. injection Hf as <- _.
  by apply (stored_submit True (λ _, SS) any_command Q); [apply Hsh|apply Hok|apply Hok| |exact HQ|exact Hsubmit].
Qed.

(** The steps that leave the node as it is. *)
Lemma same_stored s' : sv_node s' = sv_node s → kept s'.
Proof using HQ. by intros ->. Qed.

Lemma apply_stored s' : apply_step s s' → kept s'.
Proof using HQ.
  intros Ha. apply stored_kept; [by eapply apply_step_stored|exact (f_equal k_log (apply_step_core _ _ Ha))].
Qed.

Lemma exec_stored ev c' s' :
  exec ev c = Some (Ret c') → (∀ j, ev ≠ EvRestart j) →
  (∀ j cmd, ev = EvSubmit j cmd → storable_command (W := W) cmd) →
  cl_servers c' !! i = Some s' → kept s'.
Proof using Hnonempty Hids HI Hk Hs HQ Hsubmit Happend.
  intros Hx Hnr Hadm Hs'.
  assert (Hat : ∀ j f, at_server j f c = Some (Ret c') → (j = i → ∀ ps, f s = Some (Ret (s', ps)) → kept s') → kept s').
  { intros j f (sj & o & Hsj & Hf & Hr)%at_server_Some Hgoal. destruct o as [[sj' ps]|]; [|done].
    injection Hr as ->. cbn [cl_servers] in Hs'. rewrite lookup_insert in Hs'. case_decide as Hji.
    - subst j. injection Hs' as ->. rewrite Hs in Hsj. injection Hsj as <-. by apply (Hgoal eq_refl ps).
    - rewrite Hs in Hs'. by injection Hs' as <-. }
  destruct ev as [j|q|q|j|q|j p|q|q|j cmd|j|j|j|j|j]; cbn [exec] in Hx;
    try (destruct (cl_net c !! q) as [pkt|] eqn:Hq; [|done]; apply list_elem_of_lookup_2 in Hq; destruct pkt; try done);
    try (eapply Hat; [exact Hx|]; intros -> qs Hf; clear Hat).
  - by eapply election_stored.
  - by eapply vote_request_stored.
  - by eapply vote_reply_stored.
  - unfold on_heartbeats in Hf. destruct (sendHeartbeats _) as [[[? ?] ?]|]; [|done].
    apply react_result in Hf as (n' & [= <- _] & ->). by apply same_stored.
  - apply react_result in Hf as (n' & (a & _ & [= <- _])%bind_Ret & ->). by apply same_stored.
  - unfold on_replicate in Hf. case_bool_decide; [|done]. destruct (replicate_prepare _ _) as [[| |a]|]; try done.
    apply react_result in Hf as (n' & [= <- _] & ->). by apply same_stored.
  - by eapply append_request_stored.
  - by eapply append_reply_stored.
  - eapply submit_stored; [|exact Hf]. by apply (Hadm i).
  - apply apply_stored. unfold on_apply_collect in Hf. destruct (sv_applier s) eqn:Ea; [done|].
    destruct (apply_collect _) as [[p|]|] eqn:Ep; try done. injection Hf as <- <-. by apply as_collect.
  - apply apply_stored. unfold on_apply_send in Hf. destruct (sv_applier s) as [[[|e es] new]|] eqn:Ea; try done.
    destruct (apply_send e _) as [n1|] eqn:Ep; [|done]. injection Hf as <- <-. by eapply as_send.
  - apply apply_stored. unfold on_apply_finish in Hf. destruct (sv_applier s) as [[[|e es] new]|] eqn:Ea; try done.
    injection Hf as <- <-. by apply as_finish.
  - apply apply_stored. unfold on_consume in Hf. destruct (applyCh _) as [|e es] eqn:Ea; [done|].
    injection Hf as <- <-. by apply as_consume.
  - by destruct (Hnr j).
Qed.
End event.

(** ** What the events do to the stored entries *)

Section stored_entries.
Context (k : nat) (c : cluster W) (g : ghost) (HI : reached k c g) (Hk : (N.of_nat k < event_limit)%N).
Context (i : NodeID) (s : server W) (Hs : cl_servers c !! i = Some s).

Local Lemma Hwf : wf_list (entries (log (sv_node s))).
Proof.
  destruct (ru_live _ _ _ _ _ _ _ HI) as [_ HL].
  by destruct (li_log _ _ _ _ HL _ _ (abs_lookup _ _ _ Hs)).
Qed.

(** The entries of a request follow on the index it names. *)
Lemma request_consecutive src hb args :
  AppReq src i hb args ∈ cl_net c → consecutive (N.to_nat (ae_PrevLogIndex args)) (ae_Entries args).
Proof using HI Hk.
  intros Hin. destruct (ru_live _ _ _ _ _ _ _ HI) as [_ HL].
  destruct (li_app _ _ _ _ HL _ _ _ _ Hin) as (_ & _ & [(_ & _ & ->)|(L & (_ & Hidx & _) & _ & _ & _ & -> & _)]).
  - by intros j e.
  - intros j e He. rewrite lookup_drop in He. rewrite (Hidx _ _ He). lia.
Qed.

(** What is left of the log when the loop writes from the [j]-th entry on. *)
Lemma request_cut src hb args j l :
  AppReq src i hb args ∈ cl_net c → j < length (ae_Entries args) → check_prev args (sv_node s) = Ret None →
  (∀ j', j = S j' → Contains (log (sv_node s)) (ae_PrevLogIndex args +64 N.of_nat j' +64 1) = true) →
  cut_at (log (sv_node s)) (ae_PrevLogIndex args +64 N.of_nat j +64 1) (drop j (ae_Entries args)) l →
  let b := N.to_nat (ae_PrevLogIndex args) + j in
  b < length (entries (log (sv_node s))) ∧ entries l = take (S b) (entries (log (sv_node s))) ∧
  (l = log (sv_node s) ∨ ¬ entries (log (sv_node s)) `prefix_of` entries (Append l (drop j (ae_Entries args)))).
Proof using HI Hk Hs.
  intros Hin Hj Hck Hpv Hcut b.
  pose proof (Hsh k c g HI Hk i s Hs) as Hl. pose proof Hl as [Hl0 _].
  destruct (sm_net _ _ _ _ (Hsmall k c g HI) _ Hin) as (Hprev & _ & Hlen & _).
  assert (Hidx : ∀ x, x < length (ae_Entries args) →
    (ae_PrevLogIndex args +64 N.of_nat x +64 1)%N = N.of_nat (N.to_nat (ae_PrevLogIndex args) + x + 1) ∧
    (N.of_nat (N.to_nat (ae_PrevLogIndex args) + x + 1) < two63)%N).
  { intros x Hx. unfold log_limit in Hprev, Hlen. change (2 ^ 60)%N with 1152921504606846976%N in *.
    rewrite (u64_add_small (ae_PrevLogIndex args)) by (unfold two64; lia).
    rewrite u64_add_small by (unfold two64; lia). unfold two63. lia. }
  destruct (Hidx j Hj) as [Hj1 Hj2]. rewrite Hj1 in Hcut.
  assert (Hb : b < length (entries (log (sv_node s)))).
  { unfold b. destruct j as [|j].
    - unfold check_prev in Hck. destruct (N.ltb_spec 0 (ae_PrevLogIndex args)); [|lia].
      rewrite Contains_spec in Hck by (unfold log_limit, two63 in *; lia).
      destruct (N.ltb_spec (ae_PrevLogIndex args) (N.of_nat (length (entries (log (sv_node s)))))); [lia|done].
    - destruct (Hidx j ltac:(lia)) as [Hx1 Hx2]. specialize (Hpv j eq_refl). rewrite Hx1, Contains_spec in Hpv by done.
      apply N.ltb_lt in Hpv. lia. }
  destruct (cut_at_spec _ (N.of_nat (N.to_nat (ae_PrevLogIndex args) + j + 1)) _ _ Hl ltac:(lia) Hj2 ltac:(lia) Hcut) as [Hel Hor].
  replace (N.to_nat (N.of_nat _)) with (S b) in Hel, Hor by lia. split_and!; [done..|].
  destruct Hor as [?|(e & He & Hne & Hlt)]; [by left|right]. cbn [Append entries]. rewrite Hel.
  by apply (prefix_cut_term _ _ e).
Qed.

(** The stored entries hold the log. *)
Definition holds_log (l : RaftLog) (rc : list LogEntry) : Prop := restore rc = drop 1 (entries l).

Lemma holds_submit e rc :
  e_Index e = N.of_nat (length (entries (log (sv_node s)))) →
  holds_log (log (sv_node s)) rc → holds_log (Append (log (sv_node s)) [e]) (rc ++ [e]).
Proof using HI Hk Hs.
  unfold holds_log. intros He Hrc. pose proof (Hsh k c g HI Hk i s Hs) as [Hl0 _].
  rewrite restore_app, Hrc. cbn [foldl Append entries]. unfold put_entry.
  rewrite He, take_ge, drop_app_le by (rewrite ?length_drop; lia). done.
Qed.

Lemma holds_append src hb args j l rc :
  AppReq src i hb args ∈ cl_net c → j < length (ae_Entries args) → check_prev args (sv_node s) = Ret None →
  (∀ j', j = S j' → Contains (log (sv_node s)) (ae_PrevLogIndex args +64 N.of_nat j' +64 1) = true) →
  cut_at (log (sv_node s)) (ae_PrevLogIndex args +64 N.of_nat j +64 1) (drop j (ae_Entries args)) l →
  holds_log (log (sv_node s)) rc →
  holds_log (Append l (drop j (ae_Entries args))) (rc ++ drop j (ae_Entries args)).
Proof using HI Hk Hs.
  intros Hin Hj Hck Hpv Hcut. destruct (request_cut src hb args j l Hin Hj Hck Hpv Hcut) as (Hb & Hl & _).
  unfold holds_log. intros Hrc. rewrite restore_app, Hrc. cbn [Append entries]. rewrite Hl.
  rewrite (put_entries (N.to_nat (ae_PrevLogIndex args) + j)).
  - rewrite drop_app_le by (rewrite length_take; lia). by rewrite take_drop_commute.
  - intros x e He. rewrite lookup_drop in He. rewrite (request_consecutive _ _ _ Hin _ _ He). lia.
  - rewrite length_drop. lia.
  - intros Hnil. apply (f_equal length) in Hnil. rewrite length_drop in Hnil. simpl in Hnil. lia.
Qed.

(** Without a truncation the stored entries stay those of the log. *)
Definition same_log (l : RaftLog) (rc : list LogEntry) : Prop :=
  entries (log (sv_node s)) `prefix_of` entries l → rc = drop 1 (entries l).

Lemma same_submit e rc : same_log (log (sv_node s)) rc → same_log (Append (log (sv_node s)) [e]) (rc ++ [e]).
Proof using HI Hk Hs.
  intros Hrc _. rewrite (Hrc (reflexivity _)). pose proof (Hsh k c g HI Hk i s Hs) as [Hl0 _].
  cbn [Append entries]. by rewrite drop_app_le by lia.
Qed.

Lemma same_append src hb args j l rc :
  AppReq src i hb args ∈ cl_net c → j < length (ae_Entries args) → check_prev args (sv_node s) = Ret None →
  (∀ j', j = S j' → Contains (log (sv_node s)) (ae_PrevLogIndex args +64 N.of_nat j' +64 1) = true) →
  cut_at (log (sv_node s)) (ae_PrevLogIndex args +64 N.of_nat j +64 1) (drop j (ae_Entries args)) l →
  same_log (log (sv_node s)) rc →
  same_log (Append l (drop j (ae_Entries args))) (rc ++ drop j (ae_Entries args)).
Proof using HI Hk Hs.
  intros Hin Hj Hck Hpv Hcut Hrc Hp. destruct (request_cut src hb args j l Hin Hj Hck Hpv Hcut) as (_ & _ & [->|Hn]); [|done].
  rewrite (Hrc (reflexivity _)). pose proof (Hsh k c g HI Hk i s Hs) as [Hl0 _].
  cbn [Append entries]. by rewrite drop_app_le by lia.
Qed.
End stored_entries.

(** ** Restarts *)

Lemma log_head L : wf_list L → L = sentinel :: drop 1 L.
Proof. intros [H0 _]. destruct L; simplify_eq/=. by rewrite drop_0. Qed.

(** A server with a good log, all of whose files are found, restarts with the
    entries of all records one behind the other. *)
Lemma restart_stored Q s x :
  stored_with Q (sv_node s) → wal (sv_node s) = Some x → wal_listed x = true →
  ∃ s', on_restart s = Some (Ret (s', [])) ∧ stored_with Q (sv_node s') ∧
    currentTerm (sv_node s') = currentTerm (sv_node s) ∧
    (votedFor (sv_node s) ≠ "" → votedFor (sv_node s') = votedFor (sv_node s)) ∧
    entries (log (sv_node s')) = sentinel :: rc_entries (replay_files (wal_journal x)).
Proof.
  intros Hst Hw Hl. destruct (on_restart_stored True (λ _, SS) Q I s x Hst Hw Hl) as (s' & v & Hr & Hc & Hv & Hst' & _).
  exists s'. injection Hc as _ _ Ht Hv' HL _ _ _ _ _ _. split_and!; [done..| |exact HL]. intros Hne. rewrite Hv'. auto.
Qed.

Lemma intact_entries Q s x :
  stored_with Q (sv_node s) → wal (sv_node s) = Some x → wal_listed x = true →
  intact s ↔ entries (log (sv_node s)) = sentinel :: rc_entries (replay_files (wal_journal x)).
Proof.
  intros Hst Hw Hl. destruct (restart_stored Q s x Hst Hw Hl) as (s' & Hr & _ & Ht & Hv & HL).
  unfold intact. rewrite Hr, HL. split; [by intros (_ & _ & ->)|by intros ->].
Qed.

(** An intact restart keeps every log and what is stored. *)
Lemma restart_server j c c' i s' :
  exec (EvRestart j) c = Some (Ret c') → intact_restart (EvRestart j) c → restart_ready (EvRestart j) c →
  cl_servers c' !! i = Some s' →
  ∃ s, cl_servers c !! i = Some s ∧ log (sv_node s') = log (sv_node s) ∧
    ∀ Q, stored_with Q (sv_node s) → stored_with Q (sv_node s').
Proof.
  intros (s & o & Hs & Ho & Hr)%at_server_Some Hin Hrd Hs'. destruct o as [[s1 ps]|]; [|done]. injection Hr as ->.
  cbn [cl_servers] in Hs, Hs'. rewrite lookup_insert in Hs'. case_decide; [|by exists s']. subst j. injection Hs' as ->.
  exists s. cbn [intact_restart] in Hin. rewrite Hs in Hin. unfold intact in Hin. rewrite Ho in Hin.
  destruct Hin as (_ & _ & HL). split_and!; [done|by apply log_same|].
  intros Q Hst. destruct (wal (sv_node s)) as [x|] eqn:Hw.
  - destruct (restart_stored Q s x Hst Hw (Hrd s Hs x Hw)) as (s2 & Hr & Hst' & _).
    rewrite Ho in Hr. by injection Hr as <- ->.
  - unfold on_restart in Ho. by rewrite Hw in Ho.
Qed.

(** Every server was there before. *)
Lemma step_server c c' g g' i s' :
  gstep_live (abs c, g) (abs c', g') → cl_servers c' !! i = Some s' → is_Some (cl_servers c !! i).
Proof.
  intros Hg Hs'%abs_lookup. assert (Hk : is_Some ((abs c', g').1.1 !! i)) by (cbn [fst]; eauto).
  cut (is_Some ((abs c, g).1.1 !! i)); [intros [k (s & -> & _)%abs_lookup_inv]; eauto|].
  revert Hk. clear Hs'. destruct Hg; simpl; rewrite lookup_insert; case_decide; subst; eauto.
Qed.

(** The servers' stored entries and logs in an execution. *)
Lemma run_holds w evs c :
  fresh_wal w → storable_events (W := W) evs → ready_run evs (init_cluster ids w) →
  intact_run evs (init_cluster ids w) → (N.of_nat (length evs) < event_limit)%N →
  run evs (init_cluster ids w) = Some (Ret c) →
  ∃ g, reached (length evs) c g ∧
    ∀ i s, cl_servers c !! i = Some s → stored_with (holds_log (log (sv_node s))) (sv_node s).
Proof.
  intros Hw Hev Hrd Hin Hlen Hrun.
  destruct (run_ind True (λ _, SS) any_command ids Hnodup Hnonempty (λ _, Hids)
    (λ _ c, ∀ i s, cl_servers c !! i = Some s → stored_with (holds_log (log (sv_node s))) (sv_node s))
    evs (init_cluster ids w) ghost_init 0 (Ret c)) as (? & g & [= <-] & _ & HI & HP); try done.
  - by apply (run_inv_init True (λ _, SS) any_command ids Hnodup Hnonempty w), fresh_durable.
  - intros i cmd Hi. split; [done|]. intros _. by apply (Hev i).
  - intros i s Hs. apply init_lookup in Hs as ->.
    intros d x Hx. cbn in Hx. apply Hw in Hx as [Hg Hx]. unfold journal. simpl. rewrite Hx. done.
  - clear -Hnodup Hnonempty Hids. intros ev _ n c c' g g' HI Hn Hin Hrd Hadm Hx Hg _ HP i s' Hs'.
    assert (Hcase : (∃ i, ev = EvRestart i) ∨ ∀ i, ev ≠ EvRestart i) by (destruct ev; eauto).
    destruct Hcase as [[j ->]|Hnr].
    + destruct (restart_server j c c' i s' Hx Hin (Hrd I) Hs') as (s & Hs & -> & HQ). by apply HQ, (HP i).
    + destruct (step_server c c' g g' i s' Hg Hs') as [s Hs].
      apply (exec_stored n c g HI Hn i s Hs holds_log (HP i s Hs)) with ev c'; try done.
      * intros e rc _. by apply (holds_submit n c g HI Hn i).
      * intros src hb args x l rc. by apply (holds_append n c g HI Hn i s Hs src hb).
      * intros x cmd ->. destruct (Hadm x cmd eq_refl) as [_ Hcmd]. exact (Hcmd I).
  - eauto.
Qed.

Section holds.
Context (w : NodeID → option W) (evs : list event) (c : cluster W).
Context (Hw : fresh_wal w) (Hev : storable_events (W := W) evs) (Hrd : ready_run evs (init_cluster ids w)).
Context (Hin : intact_run evs (init_cluster ids w)) (Hlen : (N.of_nat (length evs) < event_limit)%N).
Context (Hrun : run evs (init_cluster ids w) = Some (Ret c)).
Context (i : NodeID) (s : server W) (x : W) (Hs : cl_servers c !! i = Some s) (Hx : wal (sv_node s) = Some x).

(** C23: The write-ahead log holds the log although truncations leave no record
    in it.  For servers whose storage was fresh and meets its specification (no
    call fails, ids and commands can be stored, all files are found when a server
    restarts), in every state of an execution with intact restarts, the stored
    entries of a server, each put at its index in the place of what was there
    and behind it before, are the log that the server has in memory.  But a
    restart reads them one behind the other: if all files are found, it gives
    the log back exactly when the indices of the stored entries are
    consecutive. *)
Theorem wal_holds_log :
  let stored := rc_entries (replay_files (wal_journal x)) in
  wal_good x ∧ entries (log (sv_node s)) = sentinel :: restore stored ∧
  (wal_listed x = true → intact s ↔ consecutive 0 stored).
Proof using All.
  intros stored. destruct (run_holds w evs c Hw Hev Hrd Hin Hlen Hrun) as (g & HI & Hst).
  pose proof (Hwf _ c g HI i s Hs) as Hwfl. destruct (Hst i s Hs I x Hx) as (Hg & _ & _ & Hh).
  assert (HL : entries (log (sv_node s)) = sentinel :: restore stored).
  { unfold holds_log, journal in Hh. subst stored. rewrite Hh. by apply log_head. }
  split_and!; [done..|]. intros Hl. rewrite (intact_entries _ s x (Hst i s Hs) Hx Hl). fold stored. split.
  - intros HL'. rewrite HL' in Hwfl. by apply log_consecutive in Hwfl.
  - intros Hc. by rewrite HL, restore_consecutive.
Qed.
End holds.

(** ** Executions in which no server restarts after a truncation *)

(** The servers that lost an entry of their log between two states. *)
Definition truncated (c c' : cluster W) : gset NodeID :=
  dom (filter (λ p, ¬ entries (log (sv_node p.2)) `prefix_of`
                      from_option (λ s, entries (log (sv_node s))) [] (cl_servers c' !! p.1)) (cl_servers c)).

(** [T] has the servers whose log was truncated before; none of them restarts. *)
Fixpoint clean_run (T : gset NodeID) (evs : list event) (c : cluster W) : Prop :=
  match evs with
  | [] => True
  | ev :: evs' =>
      match ev with EvRestart i => i ∉ T | _ => True end ∧
      match exec ev c with
      | Some (Ret c') =>
          clean_run (match ev with EvRestart _ => T | _ => T ∪ truncated c c' end) evs' c'
      | _ => True
      end
  end.

#[global] Instance clean_run_dec T evs c : Decision (clean_run T evs c).
Proof.
  revert T c. induction evs as [|ev evs IH]; intros T c; simpl; [apply _|].
  apply and_dec; [destruct ev; apply _|]. destruct (exec ev c) as [[c'|]|]; apply _.
Defined.

Lemma not_truncated c c' i s s' :
  cl_servers c !! i = Some s → cl_servers c' !! i = Some s' → i ∉ truncated c c' →
  entries (log (sv_node s)) `prefix_of` entries (log (sv_node s')).
Proof.
  intros Hs Hs' Hni. destruct (decide (entries (log (sv_node s)) `prefix_of` entries (log (sv_node s')))) as [|Hn]; [done|].
  destruct Hni. apply elem_of_dom. exists s. apply map_lookup_filter_Some. split; [done|]. simpl. by rewrite Hs'.
Qed.

Lemma stored_with_mono (Q Q' : list LogEntry → Prop) n : (∀ rc, Q rc → Q' rc) → stored_with Q n → stored_with Q' n.
Proof. intros HQ Hst d x Hx. destruct (Hst d x Hx) as (? & ? & ? & ?). split_and!; auto. Qed.

(** The stored entries of the servers that were not truncated are their logs. *)
Definition exact (T : gset NodeID) (c : cluster W) : Prop :=
  ∀ i s, cl_servers c !! i = Some s → i ∉ T → stored_with (λ rc, rc = drop 1 (entries (log (sv_node s)))) (sv_node s).

Lemma exact_restart (n : nat) c g T j :
  reached n c g → exact T c → restart_ready (EvRestart j) c → j ∉ T → intact_restart (EvRestart j) c.
Proof.
  intros HI HX Hrd Hj. simpl. destruct (cl_servers c !! j) as [s|] eqn:Hs; [|done].
  destruct (wal (sv_node s)) as [x|] eqn:Hx; [|by unfold intact, on_restart; rewrite Hx].
  apply (intact_entries _ s x (HX j s Hs Hj) Hx (Hrd s Hs x Hx)).
  destruct (HX j s Hs Hj I x Hx) as (_ & _ & _ & Hrc). unfold journal in Hrc. rewrite Hrc.
  apply log_head, (Hwf _ c g HI j s Hs).
Qed.

Lemma exact_step (n : nat) c c' g g' T ev :
  reached n c g → (N.of_nat n < event_limit)%N → exact T c → exec ev c = Some (Ret c') →
  intact_restart ev c → restart_ready ev c → gstep_live (abs c, g) (abs c', g') →
  (∀ i cmd, ev = EvSubmit i cmd → storable_command (W := W) cmd) →
  exact (match ev with EvRestart _ => T | _ => T ∪ truncated c c' end) c'.
Proof using Hnodup Hnonempty Hids.
  intros HI Hn HX Hx Hin Hrd Hg Hadm i s' Hs' Hi.
  assert (Hcase : (∃ i, ev = EvRestart i) ∨ ∀ i, ev ≠ EvRestart i) by (destruct ev; eauto).
  destruct Hcase as [[j ->]|Hnr].
  - destruct (restart_server j c c' i s' Hx Hin Hrd Hs') as (s & Hs & -> & HQ). by apply HQ, (HX i).
  - assert (Hi' : i ∉ T ∪ truncated c c') by (destruct ev; [done..|by destruct (Hnr i0)]).
    apply not_elem_of_union in Hi' as [HiT Htr].
    destruct (step_server c c' g g' i s' Hg Hs') as [s Hs].
    apply (stored_with_mono (same_log s (log (sv_node s')))).
    { intros rc Hrc. by apply Hrc, (not_truncated c c' i). }
    apply (exec_stored n c g HI Hn i s Hs (same_log s)) with ev c'; try done.
    + eapply stored_with_mono; [|by apply (HX i s)]. by intros rc -> _.
    + intros e rc _ _. by apply (same_submit n c g HI Hn i).
    + intros src hb args x l rc. by apply (same_append n c g HI Hn i s Hs src hb).
Qed.

Lemma clean_intact evs (n : nat) c g T :
  reached n c g → (N.of_nat n + N.of_nat (length evs) < event_limit)%N → exact T c → ready_run evs c →
  clean_run T evs c → storable_events (W := W) evs → intact_run evs c.
Proof using Hnodup Hnonempty Hids.
  revert n c g T. induction evs as [|ev evs IH]; intros n c g T HI Hlen HX Hrd Hcl Hev; [done|].
  destruct Hrd as [Hrd Hrd'], Hcl as [Hcl Hcl']. simpl in Hlen.
  assert (Hin : intact_restart ev c) by (destruct ev; [done..|by eapply exact_restart]).
  split; [done|]. destruct (exec ev c) as [[c'|]|] eqn:Hx; [|done..].
  assert (Hadm : ∀ i cmd, ev = EvSubmit i cmd → storable_command (W := W) cmd) by (intros i cmd ->; apply (Hev i); left).
  destruct (exec_inv True (λ _, SS) any_command ids Hnodup Hnonempty (λ _, Hids) n c g ev (Ret c') HI ltac:(lia) Hin (λ _, Hrd))
    as (? & g' & [= <-] & Hg & HI' & _); [intros i cmd Hc; split; [done|]; intros _; by eapply Hadm|done|].
  eapply (IH (S n)); [exact HI'|lia| |done|exact Hcl'|intros i cmd Hc; apply (Hev i); by right].
  by eapply exact_step; try done; lia.
Qed.

Lemma clean_run_intact w evs :
  fresh_wal w → storable_events (W := W) evs → (N.of_nat (length evs) < event_limit)%N →
  ready_run evs (init_cluster ids w) → clean_run ∅ evs (init_cluster ids w) → intact_run evs (init_cluster ids w).
Proof using Hnodup Hnonempty Hids.
  intros Hw Hev Hlen Hrd Hcl.
  eapply (clean_intact evs 0 _ ghost_init ∅); try done.
  - by apply (run_inv_init True (λ _, SS) any_command ids Hnodup Hnonempty w), fresh_durable.
  - intros i s Hs _. apply init_lookup in Hs as ->.
    intros d x Hx. cbn in Hx. apply Hw in Hx as [Hg Hx]. unfold journal. simpl. by rewrite Hx.
Qed.

(** C24: Without a restart after a truncation all restarts are intact.  Take
    servers whose storage was fresh and meets its specification (no call fails,
    ids and commands can be stored, all files are found when a server restarts).
    If no server restarts in an execution after it has removed an entry from its
    log, then every restart gives back the term and the log that the server had,
    and the vote if it had cast one in this term (if not, an old vote may come
    back), however many leaders there were. *)
Theorem untruncated_intact w evs :
  fresh_wal w → storable_events (W := W) evs → (N.of_nat (length evs) < event_limit)%N →
  ready_run evs (init_cluster ids w) → clean_run ∅ evs (init_cluster ids w) → intact_run evs (init_cluster ids w).
Proof using Hnodup Hnonempty Hids. apply clean_run_intact. Qed.
End recovery.

#[global] Instance consecutive_dec b es : Decision (consecutive b es).
Proof.
  refine (cast_if (decide (Forall (λ p, e_Index p.2 = N.of_nat (b + p.1 + 1)) (imap pair es)))).
  - intros j e He. refine (proj1 (Forall_lookup _ _) f j (j, e) _). by rewrite list_lookup_imap, He.
  - intros Hc. apply n, Forall_lookup. intros j [j' e]. rewrite list_lookup_imap, fmap_Some.
    intros (x & Hx & [= -> ->]). by apply Hc.
Defined.

(** ** Concrete executions *)

Module RecoveryDemo.
Import Demo Divergence.
#[local] Existing Instance Demo.constant_rand.

(** [a] has replaced [x] by [y] in its log; its journal has both. *)
Definition overwritten : cluster Journal := result (run overwrite start).

Definition wal_of (i : NodeID) (c : cluster Journal) : Journal := default (mkJournal []) (wal (sv_node (server_of i c))).

Definition stored_of (i : NodeID) (c : cluster Journal) : list LogEntry :=
  rc_entries (replay_files (wal_journal (wal_of i c))).

(** So the restart of [a] would not be intact. *)
Lemma wal_holds_log_witness :
  stored_of "a" overwritten = [mkEntry 1 1 x; mkEntry 2 1 y] ∧
  entries (log (sv_node (server_of "a" overwritten))) = sentinel :: restore (stored_of "a" overwritten) ∧
  ¬ intact (server_of "a" overwritten).
Proof.
  split; [by_compute|]. unfold stored_of.
  assert (Hn : ¬ consecutive 0 (rc_entries (replay_files (wal_journal (wal_of "a" overwritten))))) by decided.
  pose proof (wal_holds_log ids ids_nodup ids_nonempty ids_storable wals overwrite overwritten
    wals_fresh ltac:(done) ltac:(decided) ltac:(decided) ltac:(by_compute) ltac:(by_compute)
    "a" (server_of "a" overwritten) (wal_of "a" overwritten) ltac:(by_compute) ltac:(by_compute)) as (_ & HL & Hc).
  split; [exact HL|]. intros Hin. exact (Hn (proj1 (Hc ltac:(by_compute)) Hin)).
Defined.

(** After the overwriting, [b] and [c] restart, but [a] does not. *)
Definition others_restart : list event := overwrite ++ [EvRestart "b"; EvRestart "c"].

Lemma untruncated_intact_witness :
  intact_run others_restart start ∧ ¬ clean_run ∅ (overwrite ++ [EvRestart "a"]) start.
Proof.
  split; [|decided].
  apply (untruncated_intact ids ids_nodup ids_nonempty ids_storable wals); [exact wals_fresh|done|by_compute|decided|decided].
Defined.

(** A vote of an earlier term comes back with a restart: [a] votes for [b] in
    term 1, learns of term 5 and restarts.  Before the restart it would vote for
    [c] in term 5, in which it has not voted; after it [a] refuses. *)
Definition node_or {A} (n : Node Journal) (o : outcome (Node Journal * A)) : Node Journal :=
  match o with Ret (n', _) => n' | Panic => n end.

Definition informed : Node Journal :=
  let n := NewNode "a" ["b"; "c"] (Some (mkJournal [])) 0 in
  becomeFollowerLocked 5 (node_or n (HandleRequestVote (mkRequestVoteArgs 1 "b" 0 0) n)).

Definition reborn : Node Journal :=
  match on_restart (mkServer informed None []) with Some (Ret (s, _)) => sv_node s | _ => informed end.

Definition grants_c (n : Node Journal) : option bool :=
  match HandleRequestVote (mkRequestVoteArgs 5 "c" 0 0) n with Ret (_, r) => Some (rvr_VoteGranted r) | Panic => None end.

Lemma stale_vote_returns :
  (currentTerm informed, votedFor informed, grants_c informed) = (5%N, "", Some true) ∧
  (currentTerm reborn, votedFor reborn, grants_c reborn) = (5%N, "b", Some false).
Proof. split; by_compute. Qed.

End RecoveryDemo.
