(* ===== verification/Progress.v ===== *)
(** Progress of replication: what the conflict hints of src/internal/raft are
    for, the rule by which a leader commits, and the shape that the state of a
    node keeps.

    A follower that rejects an AppendEntries request names a term and an index
    ([check_prev]); the leader moves [nextIndex] back with them
    ([handleConflictLocked]).  In the states of an execution with intact restarts
    every rejection moves [nextIndex] back by at least one and never to 0, so
    as many heartbeats as [nextIndex] bring the follower's log in line. *)

From S2P Require Import Prelude Types RaftLog Storage Node Replication Cluster.
From S2P Require Import Protocol Refinement Ghost ElectionSafety LogFacts LogSafety NextIndex Bounds Simulation Safety Guarantees.
Import RLog.

(** ** The conflict hints *)

Lemma first_of_term_at L t i :
  0 < i → i < length L → tm L i = t → (0 < first_of_term L t)%N ∧ (first_of_term L t <= N.of_nat i)%N.
Proof.
  intros Hi Hl Ht. destruct i as [|i]; [lia|]. destruct (lookup_lt_is_Some_2 L (S i) Hl) as [e He].
  rewrite (tm_lookup _ _ _ He) in Ht. unfold first_of_term.
  destruct (FindFirstIndexOfTerm_correct (mkLog L) t) as [(j & e' & -> & _ & _ & Hmin)|[_ Hno]].
  - destruct (decide (i < j)) as [Hlt|]; [by destruct (Hmin i e Hlt He)|lia].
  - by destruct (Hno i e He).
Qed.

Lemma last_of_term_at L t i :
  (0 < last_of_term L t i)%N → tm L (N.to_nat (last_of_term L t i)) = t.
Proof.
  induction i as [|i IH]; [cbn [last_of_term]; lia|]. cbn [last_of_term].
  destruct (N.eqb_spec (tm L (S i)) t); [by rewrite Nat2N.id|done].
Qed.

(** Two logs that agree with the leaders' logs, with entries of one term at
    [p] and at a later position [r]: the second has that term at [p] too. *)
Lemma lm_same_term tl F L p r :
  lm tl F → lm tl L → 0 < p → p < length F → p <= r → r < length L → tm F p = tm L r → tm F p = tm L p.
Proof.
  intros HF HL Hp HlF Hpr HlL Ht.
  destruct (lm_at tl F p HF Hp HlF) as (T & HT & HpF).
  destruct (lm_at tl L r HL) as (T' & HT' & HpL); [lia|done|].
  rewrite <- Ht, HT in HT'. injection HT' as <-.
  transitivity (tm T p).
  - rewrite <- (prefix_tm _ _ p HpF) by (rewrite length_take; lia). unfold tm. by rewrite lookup_take_lt by lia.
  - rewrite <- (prefix_tm _ _ p HpL) by (rewrite length_take; lia). unfold tm. by rewrite lookup_take_lt by lia.
Qed.

(** Where a rejection with hints [ct] and [ci] moves [nextIndex]. *)
Definition hinted (L : list LogEntry) (ct : Term) (ci : LogIndex) : LogIndex :=
  if (0 <? ct)%N then
    let r := last_of_term L ct (length L - 1) in if (0 <? r)%N then (r + 1)%N else ci
  else ci.

Lemma hinted_back tl L F args ct ci :
  lm tl L → lm tl F → wf_list L → wf_list F →
  ae_PrevLogTerm args = tm L (N.to_nat (ae_PrevLogIndex args)) → p_check_prev args F = Some (ct, ci) →
  (0 < ci)%N ∧ (0 < hinted L ct ci)%N ∧ (hinted L ct ci <= ae_PrevLogIndex args)%N.
Proof.
  intros HL HF HwL HwF Hpt Hc. pose proof (wf_list_nonempty _ HwF) as HneF. pose proof (wf_list_nonempty _ HwL).
  unfold p_check_prev in Hc. destruct (N.ltb_spec 0 (ae_PrevLogIndex args)) as [Hp|]; [|done].
  destruct (N.ltb_spec (ae_PrevLogIndex args) (N.of_nat (length F))) as [Hlt|Hge]; cbn [negb] in Hc.
  2: { injection Hc as <- <-. unfold hinted, last_index. simpl. lia. }
  set (p := N.to_nat (ae_PrevLogIndex args)) in *.
  destruct (N.eqb_spec (tm F p) (ae_PrevLogTerm args)) as [|Hne]; [done|]. cbn [negb] in Hc.
  injection Hc as <- <-. rewrite Hpt in Hne.
  destruct (first_of_term_at F (tm F p) p) as [Hf1 Hf2]; [lia..|done|].
  split; [done|]. unfold hinted.
  pose proof (wf_list_term F p HwF) as Hpos. rewrite (proj2 (N.ltb_lt 0 (tm F p))) by (apply Hpos; lia).
  set (r := last_of_term L (tm F p) (length L - 1)). destruct (N.ltb_spec 0 r) as [Hr|]; [|lia].
  pose proof (last_of_term_at L (tm F p) _ Hr) as Hrt. fold r in Hrt.
  pose proof (last_of_term_le L (tm F p) (length L - 1)) as Hrl. fold r in Hrl.
  destruct (decide (p <= N.to_nat r)) as [Hpr|]; [|lia].
  destruct Hne. apply (lm_same_term tl F L p (N.to_nat r)); try done; lia.
Qed.

Lemma p_conflict_hinted p reply k :
  (0 < aer_ConflictIndex reply)%N →
  p_conflict p reply k = p_set_next p (hinted (k_log k) (aer_ConflictTerm reply) (aer_ConflictIndex reply)) k.
Proof.
  intros Hci. unfold p_conflict, hinted. rewrite (proj2 (N.ltb_lt _ _) Hci). by repeat case_match.
Qed.

(** An accepted request names a position of both logs where they agree. *)
Lemma check_prev_agree L F args :
  wf_list L → wf_list F →
  ae_PrevLogTerm args = tm L (N.to_nat (ae_PrevLogIndex args)) → p_check_prev args F = None →
  N.to_nat (ae_PrevLogIndex args) < length L ∧
  (N.to_nat (ae_PrevLogIndex args) = 0 ∨
   N.to_nat (ae_PrevLogIndex args) < length F ∧
   tm F (N.to_nat (ae_PrevLogIndex args)) = tm L (N.to_nat (ae_PrevLogIndex args))).
Proof.
  intros HwL HwF Hpt Hc. pose proof (wf_list_nonempty _ HwL). unfold p_check_prev in Hc.
  set (p := N.to_nat (ae_PrevLogIndex args)) in *.
  destruct (N.ltb_spec 0 (ae_PrevLogIndex args)) as [Hp|]; [|lia].
  destruct (N.ltb_spec (ae_PrevLogIndex args) (N.of_nat (length F))) as [Hlt|]; [|done]. cbn [negb] in Hc.
  destruct (N.eqb_spec (tm F p) (ae_PrevLogTerm args)) as [He|]; [|done]. rewrite Hpt in He.
  split; [|right; split; [lia|done]].
  assert (Hpos : (0 < tm F p)%N) by (apply wf_list_term; [done|lia..]). rewrite He in Hpos.
  destruct (decide (p < length L)) as [|Hge]; [done|].
  unfold tm in Hpos. rewrite (lookup_ge_None_2 L p) in Hpos by lia. lia.
Qed.

(** A request whose previous position is in a common part of both logs is not
    rejected. *)
Lemma check_prev_common L0 L F args :
  L0 `prefix_of` L → L0 `prefix_of` F →
  ae_PrevLogTerm args = tm L (N.to_nat (ae_PrevLogIndex args)) → N.to_nat (ae_PrevLogIndex args) < length L0 →
  p_check_prev args F = None.
Proof.
  intros HL HF Hpt Hlt. unfold p_check_prev. destruct (0 <? ae_PrevLogIndex args)%N; [|done].
  apply prefix_length in HF as HlF. rewrite (proj2 (N.ltb_lt _ _)) by lia. cbn [negb].
  rewrite Hpt, <- (prefix_tm L0 F), <- (prefix_tm L0 L) by done. by rewrite N.eqb_refl.
Qed.

Lemma p_advance_indices k : k_next (p_advance k) = k_next k ∧ k_match (p_advance k) = k_match k.
Proof. unfold p_advance. by repeat case_match. Qed.

(** What a successful reply records. *)
Lemma p_success_records p x k :
  map_get 0%N (k_next (p_success p x k)) p = N.max (map_get 0%N (k_next k) p) (x + 1) ∧
  map_get 0%N (k_match (p_success p x k)) p = N.max (map_get 0%N (k_match k) p) x ∧
  ∀ p', p' ≠ p →
    k_next (p_success p x k) !! p' = k_next k !! p' ∧ k_match (p_success p x k) !! p' = k_match k !! p'.
Proof.
  unfold p_success. set (k1 := if (map_get 0 (k_next k) p <? x + 1)%N then _ else _).
  set (k2 := if (map_get 0 (k_match k1) p <? x)%N then _ else _).
  destruct (p_advance_indices k2) as [-> ->].
  assert (Hk1 : map_get 0%N (k_next k1) p = N.max (map_get 0%N (k_next k) p) (x + 1) ∧ k_match k1 = k_match k ∧
                ∀ p', p' ≠ p → k_next k1 !! p' = k_next k !! p').
  { unfold k1. destruct (N.ltb_spec (map_get 0%N (k_next k) p) (x + 1)); [|split_and!; [lia|done|done]].
    unfold p_set_next. cbn [k_next k_match]. split_and!; [unfold map_get in *; rewrite lookup_insert_eq; simpl; lia|done|].
    intros p' Hp'. by apply lookup_insert_ne. }
  destruct Hk1 as (Hn & Hm & Hother). clearbody k1. unfold k2. clear k2.
  destruct (N.ltb_spec (map_get 0%N (k_match k1) p) x); rewrite <- Hm.
  - unfold p_set_match. cbn [k_next k_match]. split_and!; [done|unfold map_get in *; rewrite lookup_insert_eq; simpl; lia|].
    intros p' Hp'. split; [by apply Hother|by apply lookup_insert_ne].
  - split_and!; [done|lia|]. intros p' Hp'. split; [by apply Hother|done].
Qed.

(** ** One exchange between a leader and a follower *)

Section exchange.
Context (tl : gmap Term (list LogEntry)) (k f : core) (j : NodeID) (commit : LogIndex).
Context (HL : wf_list (k_log k) ∧ lm tl (k_log k)) (HF : wf_list (k_log f) ∧ lm tl (k_log f)).
Context (Hlead : k_state k = Leader) (Hterm : (k_term f <= k_term k)%N)
        (Hnext : (0 < map_get 0 (k_next k) j)%N).

Let args := p_args j (k_term k) (k_id k) commit k.
Let f' := (p_append args f).1.
Let k' := p_append_reply j args (p_append args f).2 k.

(** A rejection moves [nextIndex] back from past the common part of the logs. *)
Lemma exchange_rejected ct ci :
  p_check_prev args (k_log f) = Some (ct, ci) →
  let k1 := p_conflict j (mkAppendEntriesReply (k_term k) false ct ci) k in
  same_but_indices k k1 ∧ (0 < map_get 0 (k_next k1) j)%N ∧
  (∀ p, p ≠ j → k_next k1 !! p = k_next k !! p ∧ k_match k1 !! p = k_match k !! p) ∧
  (map_get 0 (k_next k1) j < map_get 0 (k_next k) j)%N ∧
  ∀ L0, L0 `prefix_of` k_log k → L0 `prefix_of` k_log f → (N.of_nat (length L0) < map_get 0 (k_next k) j)%N.
Proof using All.
  intros Hc. destruct HL as [HwL HlL], HF as [HwF HlF].
  destruct (hinted_back tl (k_log k) (k_log f) args ct ci) as (Hci & Hpos & Hle); try done.
  rewrite p_conflict_hinted by done. cbn [aer_ConflictTerm aer_ConflictIndex]. cbv zeta.
  assert (Hn : map_get 0%N (k_next (p_set_next j (hinted (k_log k) ct ci) k)) j = hinted (k_log k) ct ci).
  { unfold map_get, p_set_next. cbn [k_next]. by rewrite lookup_insert_eq. }
  rewrite Hn. unfold args, p_args in Hle. cbn [ae_PrevLogIndex] in Hle. split_and!; [by repeat split|done| |lia|].
  { intros p Hp. unfold p_set_next. cbn [k_next k_match]. split; [by apply lookup_insert_ne|done]. }
  intros L0 HL0 HF0. destruct (N.lt_ge_cases (N.of_nat (length L0)) (map_get 0%N (k_next k) j)) as [|Hge]; [done|].
  by rewrite (check_prev_common L0 (k_log k) (k_log f) args) in Hc by (done || unfold args, p_args; simpl; lia).
Qed.

(** An acceptance: the follower's log extends the leader's afterwards, and the
    leader's bookkeeping stays within its log. *)
Lemma exchange_accepted :
  p_check_prev args (k_log f) = None →
  let k1 := match last (ae_Entries args) with Some e => p_success j (e_Index e) k | None => k end in
  same_but_indices k k1 ∧ (0 < map_get 0 (k_next k1) j)%N ∧
  (∀ p, p ≠ j → k_next k1 !! p = k_next k !! p ∧ k_match k1 !! p = k_match k !! p) ∧
  k_log k `prefix_of` merge_log (k_log f) (S (N.to_nat (ae_PrevLogIndex args))) (ae_Entries args) ∧
  (map_get 0 (k_next k1) j <= N.of_nat (length (k_log k)))%N ∧
  ((map_get 0 (k_next k) j < N.of_nat (length (k_log k)))%N → k1 = p_success j (last_index (k_log k)) k).
Proof using All.
  intros Hc. destruct HL as [HwL HlL], HF as [HwF HlF].
  destruct (check_prev_agree (k_log k) (k_log f) args) as [Hp Hag]; [done..|].
  assert (Hes : ae_Entries args = drop (S (N.to_nat (ae_PrevLogIndex args))) (k_log k)).
  { unfold args, p_args. cbn [ae_Entries ae_PrevLogIndex]. f_equal. lia. }
  assert (Hnx : N.to_nat (map_get 0%N (k_next k) j) = S (N.to_nat (ae_PrevLogIndex args))).
  { unfold args, p_args. cbn [ae_PrevLogIndex]. lia. }
  assert (Hpre : k_log k `prefix_of` merge_log (k_log f) (S (N.to_nat (ae_PrevLogIndex args))) (ae_Entries args)).
  { rewrite Hes.
    destruct (merge_log_result tl (k_log f) (k_log k) (N.to_nat (ae_PrevLogIndex args))) as [[-> ?]|[-> _]]; done. }
  destruct (last (ae_Entries args)) as [e|] eqn:He; cbv zeta.
  - assert (Hidx : e_Index e = last_index (k_log k) ∧ (map_get 0 (k_next k) j < N.of_nat (length (k_log k)))%N).
    { rewrite Hes, last_lookup, lookup_drop, length_drop in He. apply lookup_lt_Some in He as Hlt.
      destruct HwL as (_ & Hidx & _). apply Hidx in He as ->. unfold last_index. lia. }
    destruct Hidx as [-> Hlt]. destruct (p_success_records j (last_index (k_log k)) k) as (Hn & _ & Hother).
    split_and!; [apply p_success_same|rewrite Hn; lia|done|done| |done].
    rewrite Hn. unfold last_index. pose proof (wf_list_nonempty _ HwL). lia.
  - apply last_None in He. rewrite Hes in He. apply (f_equal length) in He. rewrite length_drop in He. simpl in He.
    split_and!; [by repeat split|done|done|done|lia|lia].
Qed.

(** The leader keeps its log and its role and what it knows of other peers;
    the follower takes the leader's term.  Either the follower's log extends the
    leader's afterwards and [nextIndex] is within it, and if entries were sent
    the leader records that the follower has its whole log; or the follower's
    log is unchanged and [nextIndex], which was past the common part of the
    logs, went back. *)
Lemma exchange_progress :
  same_but_indices k k' ∧ (k_term f' <= k_term k)%N ∧ (0 < map_get 0 (k_next k') j)%N ∧
  (∀ p, p ≠ j → k_next k' !! p = k_next k !! p ∧ k_match k' !! p = k_match k !! p) ∧
  ((k_log k `prefix_of` k_log f' ∧ (map_get 0 (k_next k') j <= N.of_nat (length (k_log k)))%N ∧
    ((map_get 0 (k_next k) j < N.of_nat (length (k_log k)))%N → k' = p_success j (last_index (k_log k)) k)) ∨
   (k_log f' = k_log f ∧ (map_get 0 (k_next k') j < map_get 0 (k_next k) j)%N ∧
    ∀ L0, L0 `prefix_of` k_log k → L0 `prefix_of` k_log f → (N.of_nat (length L0) < map_get 0 (k_next k) j)%N)).
Proof using All.
  assert (Hat : ae_Term args = k_term k) by done.
  assert (Hrep : ∀ reply, aer_Term reply = k_term k → p_append_reply j args reply k =
    if aer_Success reply then
      match last (ae_Entries args) with Some e => p_success j (e_Index e) k | None => k end
    else p_conflict j reply k).
  { intros reply Hr. unfold p_append_reply. rewrite bool_decide_eq_true_2 by done. rewrite Hat, N.eqb_refl, Hr.
    by rewrite N.ltb_irrefl. }
  pose proof exchange_rejected as Hno. pose proof exchange_accepted as Hyes.
  unfold k', f'. destruct (p_append args f) as [f1 reply] eqn:Ea. cbn [fst snd].
  destruct (p_append_cases args f f1 reply Ea) as [(Hlt & _)|(_ & [(ct & ci & Hc & -> & ->)|(Hc & -> & ->)])].
  - rewrite Hat in Hlt. lia.
  - rewrite Hrep by done. cbn [aer_Success]. destruct (Hno ct ci Hc) as (? & ? & ? & ? & ?).
    split_and!; try done; [simpl; rewrite p_observe_term; lia|]. right. split_and!; [simpl; apply p_observe_log|done..].
  - rewrite Hrep by done. cbn [aer_Success]. destruct (Hyes Hc) as (? & ? & ? & Hpre & ? & ?).
    set (f1 := p_set_log _ _). destruct (p_follow_commit_same (ae_LeaderCommit args) f1) as (_ & _ & Ht & _ & Hl & _).
    rewrite Ht, Hl. split_and!; try done; [unfold f1; simpl; rewrite p_observe_term; lia|]. left. by split_and!.
Qed.
End exchange.

(** ** Rounds of heartbeats *)

(** The events of one heartbeat of server [i] to the [q]-th of its [np] peers:
    the leader starts its goroutines, the one for that peer sends its request,
    the peer answers, and the answer arrives.  [m] messages were in the network
    before. *)
Definition heartbeat_round (i : NodeID) (np q m : nat) : list event :=
  [EvHeartbeats i; EvHeartbeatTask (m + q); EvAppendRequest (m + np); EvAppendReply (S (m + np))].

Fixpoint heartbeat_rounds (rounds : nat) (i : NodeID) (np q m : nat) : list event :=
  match rounds with
  | O => []
  | S rounds => heartbeat_round i np q m ++ heartbeat_rounds rounds i np q (S (S (m + np)))
  end.

Lemma length_heartbeat_rounds rounds i np q m : length (heartbeat_rounds rounds i np q m) = 4 * rounds.
Proof. revert m. induction rounds as [|r IH]; intros m; [done|]. cbn [heartbeat_rounds]. rewrite length_app, IH. simpl. lia. Qed.

Lemma heartbeat_rounds_crash_free rounds i np q m : crash_free (heartbeat_rounds rounds i np q m).
Proof. revert m. induction rounds as [|r IH]; intros m; [constructor|]. apply Forall_app. split; [repeat constructor|apply IH]. Qed.

Section rounds.
Context {W : Type} `{HStorage : Storage W} `{HRand : Rand}.
Implicit Types c : cluster W.

Lemma at_server_Ret i f c (s s' : server W) ps :
  cl_servers c !! i = Some s → f s = Some (Ret (s', ps)) →
  at_server i f c = Some (Ret (mkCluster (<[i := s']> (cl_servers c)) (cl_net c ++ ps))).
Proof. intros Hs Hf. unfold at_server. rewrite Hs. cbn [mbind option_bind]. by rewrite Hf. Qed.

Lemma react_Ret (s : server W) o n' ps : o = Ret (n', ps) → react s o = Some (Ret (set_node n' s, ps)).
Proof. by intros ->. Qed.

Lemma sendHeartbeats_leader (n : Node W) :
  state n = Leader → sendHeartbeats n = Some (currentTerm n, id n, commitIndex n).
Proof. intros Hs. unfold sendHeartbeats. by rewrite Hs. Qed.

(** Only the servers [i] and [j] have moved. *)
Definition only_moved (i j : NodeID) c c' : Prop :=
  ∀ p, p ≠ i → p ≠ j → cl_servers c' !! p = cl_servers c !! p.

Lemma only_moved_trans i j c1 c2 c3 : only_moved i j c1 c2 → only_moved i j c2 c3 → only_moved i j c1 c3.
Proof. intros H1 H2 p Hi Hj. by rewrite H2, H1. Qed.

(** The four events of a round, one after the other. *)
Lemma round_events c i j si sj np q args n1 n2 reply :
  i ≠ j → cl_servers c !! i = Some si → cl_servers c !! j = Some sj →
  np = length (peers (sv_node si)) → peers (sv_node si) !! q = Some j →
  state (sv_node si) = Leader → id (sv_node si) = i →
  heartbeat_args j (currentTerm (sv_node si)) i (commitIndex (sv_node si)) (sv_node si) = Ret args →
  HandleAppendEntries args (sv_node sj) = Ret (n2, reply) →
  heartbeat_reply j (ae_Term args) (ae_Entries args) reply (sv_node si) = Ret n1 →
  ∃ c', run (heartbeat_round i np q (length (cl_net c))) c = Some (Ret c') ∧
    length (cl_net c') = S (S (length (cl_net c) + np)) ∧
    cl_servers c' !! i = Some (set_node n1 si) ∧ cl_servers c' !! j = Some (set_node n2 sj) ∧
    only_moved i j c c'.
Proof.
  intros Hij Hi Hj -> Hq Hlead Hid Hargs Happ Hrep. set (m := length (cl_net c)).
  set (hbs := map (λ p, HbTask i p (currentTerm (sv_node si)) i (commitIndex (sv_node si))) (peers (sv_node si))).
  assert (Hset : ∀ s : server W, set_node (sv_node s) s = s) by (by intros []).
  assert (Hlen : length hbs = length (peers (sv_node si))) by apply length_map.
  cbn [run heartbeat_round exec].
  rewrite (at_server_Ret i on_heartbeats c si si hbs Hi).
  2: { unfold on_heartbeats. rewrite sendHeartbeats_leader, Hid by done. rewrite (react_Ret _ _ (sv_node si) hbs), Hset; done. }
  cbn [cl_net cl_servers].
  rewrite (lookup_app_r (cl_net c)) by lia. replace (m + q - length (cl_net c)) with q by lia.
  unfold hbs at 1. rewrite list_lookup_fmap, Hq. cbn [fmap option_fmap option_map].
  rewrite (at_server_Ret i _ _ si si [AppReq i j true args]).
  2: { cbn [cl_servers]. apply lookup_insert_eq. }
  2: { unfold on_heartbeat_task. erewrite react_Ret; [by rewrite Hset|]. by rewrite Hargs. }
  cbn [cl_net cl_servers]. rewrite !insert_insert_eq.
  rewrite (lookup_app_r (cl_net c ++ hbs)) by (rewrite length_app; lia).
  replace (m + _ - _) with 0 by (rewrite length_app; lia). cbn [lookup list_lookup].
  rewrite (at_server_Ret j _ _ sj (set_node n2 sj) [AppRep i j true args reply]).
  2: { cbn [cl_servers]. by rewrite lookup_insert_ne. }
  2: { unfold on_append_request. apply react_Ret. by rewrite Happ. }
  cbn [cl_net cl_servers].
  rewrite (lookup_app_r ((cl_net c ++ hbs) ++ _)) by (rewrite !length_app; simpl; lia).
  replace (S (m + _) - _) with 0 by (rewrite !length_app; simpl; lia). cbn [lookup list_lookup].
  rewrite (at_server_Ret i _ _ si (set_node n1 si) []).
  2: { cbn [cl_servers]. by rewrite lookup_insert_ne, lookup_insert_eq. }
  2: { unfold on_append_reply. apply react_Ret. by rewrite Hrep. }
  eexists. split; [reflexivity|]. cbn [cl_net cl_servers]. rewrite !length_app, Hlen. simpl.
  split_and!; [lia|apply lookup_insert_eq|by rewrite lookup_insert_ne, lookup_insert_eq by done|].
  intros p Hpi Hpj. cbn [cl_servers]. by rewrite !lookup_insert_ne by done.
Qed.
End rounds.

Section converge.
Context {W : Type} `{HStorage : Storage W} `{HRand : Rand}.
Context (ids : list NodeID) (Hnodup : NoDup ids) (Hnonempty : "" ∉ ids).
Implicit Types c : cluster W.
Implicit Types w : NodeID → option W.

Abbreviation reached n c g := (run_inv False no_spec any_command ids n c g).

Lemma reached_ok n c g i s :
  reached n c g → (N.of_nat n + 2 < event_limit)%N → cl_servers c !! i = Some s →
  server_ok False no_spec any_command s ∧ id (sv_node s) = i ∧ peers (sv_node s) = peers_of ids i.
Proof.
  intros HI Hn Hs.
  assert (HZ : sized c) by (eapply run_inv_sized; [done|unfold log_limit, event_limit in *; lia]).
  split; [by eapply (server_ok_at False no_spec any_command c (ru_cluster _ _ _ _ _ _ _ HI) HZ)|].
  destruct (ei_core _ _ _ _ (proj1 (ru_live _ _ _ _ _ _ _ HI)) _ _ (abs_lookup _ _ _ Hs)) as (? & ? & _). done.
Qed.

(** A leader's [nextIndex] is positive for its peers. *)
Lemma reached_next n c g i s j :
  reached n c g → cl_servers c !! i = Some s → state (sv_node s) = Leader → j ∈ peers (sv_node s) →
  (0 < map_get 0 (nextIndex (sv_node s)) j)%N.
Proof.
  intros HI Hs Hl Hj. destruct (ru_cluster _ _ _ _ _ _ _ HI) as [Hsm _].
  exact (sm_pos _ _ _ _ Hsm i _ j (abs_lookup _ _ _ Hs) Hl Hj).
Qed.

(** The bound on [nextIndex] holds in reached states too. *)
Lemma reach_paced w evs c :
  intact_run evs (init_cluster ids w) → (N.of_nat (length evs) < event_limit)%N →
  run evs (init_cluster ids w) = Some (Ret c) → ∃ g, reached (length evs) c g ∧ paced_inv ids (abs c, g).
Proof using Hnodup Hnonempty.
  intros Hin Hlen Hr.
  destruct (reach_on ids Hnodup Hnonempty 0 _ ghost_init evs c (init_reached ids Hnodup Hnonempty w) Hin Hlen Hr) as (g & HI & Hs).
  exists g. split; [done|]. eapply paced_inv_steps; [done..|]. rewrite abs_init. by apply paced_inv_init.
Qed.

Definition next_args (j : NodeID) (n : Node W) : AppendEntriesArgs :=
  p_args j (currentTerm n) (id n) (commitIndex n) (core_of n).

(** The critical sections of one exchange, in a heartbeat or a replication
    goroutine: none of them panics, and they do what the protocol does. *)
Lemma exchange_sections (hb : bool) n c g i j si sj :
  reached n c g → (N.of_nat n + 2 < event_limit)%N →
  cl_servers c !! i = Some si → cl_servers c !! j = Some sj →
  state (sv_node si) = Leader → j ∈ peers (sv_node si) →
  let args := next_args j (sv_node si) in
  (hb = false → ae_Entries args ≠ []) →
  i ≠ j ∧ id (sv_node si) = i ∧ log_shape (log (sv_node si)) ∧ index_bounds (sv_node si) ∧
  (0 < map_get 0 (nextIndex (sv_node si)) j)%N ∧
  ∃ n1 n2 reply, HandleAppendEntries args (sv_node sj) = Ret (n2, reply) ∧
    (if hb then heartbeat_reply j (ae_Term args) (ae_Entries args) reply (sv_node si)
     else fst <$> replicate_reply j (ae_Term args) (ae_Entries args) reply (sv_node si)) = Ret n1 ∧
    quiet si (set_node n1 si) ∧ core_of n2 = (p_append args (core_of (sv_node sj))).1 ∧
    core_of n1 = p_append_reply j args (p_append args (core_of (sv_node sj))).2 (core_of (sv_node si)).
Proof.
  intros HI Hn Hi Hj Hlead Hjp args Hsend.
  destruct (reached_ok _ _ _ _ _ HI Hn Hi) as (Hoki & Hidi & Hpi).
  destruct (reached_ok _ _ _ _ _ HI Hn Hj) as (Hokj & Hidj & _).
  pose proof (reached_next _ _ _ _ _ _ HI Hi Hlead Hjp) as Hnext.
  assert (Hij : i ≠ j). { rewrite Hpi in Hjp. intros ->. by apply list_elem_of_filter in Hjp as [? _]. }
  pose proof (server_ok_shape _ _ _ _ Hoki) as Hli. pose proof (server_ok_shape _ _ _ _ Hokj) as Hlj.
  pose proof (server_ok_index _ _ _ _ Hoki) as Hbi. do 5 (split; [done|]).
  destruct Hoki as ((_ & _ & _ & Hnx & _ & Hent) & _ & _ & Hleni & _). destruct Hokj as (_ & _ & _ & Hlenj & _).
  assert (Hprev : (ae_PrevLogIndex args <= log_limit)%N).
  { unfold args, next_args, p_args. cbn [ae_PrevLogIndex]. unfold map_get. cbn [core_of k_next].
    destruct (nextIndex (sv_node si) !! j) as [x|] eqn:Ex; [apply Hnx in Ex; simpl; lia|simpl; lia]. }
  assert (Hes : length (ae_Entries args) <= length (entries (log (sv_node si)))).
  { unfold args, next_args, p_args. cbn [ae_Entries core_of k_log]. rewrite length_drop. lia. }
  destruct (HandleAppendEntries_refines args (sv_node sj) Hlj) as (n2 & reply & Happ & Hcore & _).
  { unfold args_bounds, log_limit, two63 in *. lia. }
  { pose proof (merge_log_length (entries (log (sv_node sj))) (S (N.to_nat (ae_PrevLogIndex args))) (ae_Entries args)).
    unfold log_limit, two63 in *. lia. }
  destruct (append_reply_refines j hb args reply (sv_node si) Hli Hbi) as (n1 & Hrep & Hcore1 & Hq1); [done| |].
  { intros e He. rewrite last_lookup in He. unfold args, next_args, p_args in He. cbn [ae_Entries core_of k_log] in He.
    rewrite lookup_drop in He. change (k_next _) with (nextIndex (sv_node si)) in He.
    destruct (N.to_nat (map_get 0%N (nextIndex (sv_node si)) j)) as [|x] eqn:Ex; [lia|].
    apply Hent in He as (He & _). unfold log_limit, two63 in *. lia. }
  exists n1, n2, reply. rewrite Hcore. by split_and!.
Qed.

Lemma heartbeat_runs n c g i j si sj q :
  reached n c g → (N.of_nat n + 2 < event_limit)%N →
  cl_servers c !! i = Some si → cl_servers c !! j = Some sj →
  state (sv_node si) = Leader → peers (sv_node si) !! q = Some j →
  ∃ c' si' sj',
    run (heartbeat_round i (length (peers (sv_node si))) q (length (cl_net c))) c = Some (Ret c') ∧
    length (cl_net c') = S (S (length (cl_net c) + length (peers (sv_node si)))) ∧
    cl_servers c' !! i = Some si' ∧ cl_servers c' !! j = Some sj' ∧ only_moved i j c c' ∧ quiet si si' ∧
    core_of (sv_node sj') = (p_append (next_args j (sv_node si)) (core_of (sv_node sj))).1 ∧
    core_of (sv_node si') = p_append_reply j (next_args j (sv_node si))
      (p_append (next_args j (sv_node si)) (core_of (sv_node sj))).2 (core_of (sv_node si)).
Proof.
  intros HI Hn Hi Hj Hlead Hq. apply list_elem_of_lookup_2 in Hq as Hjp.
  destruct (exchange_sections true _ _ _ _ _ _ _ HI Hn Hi Hj Hlead Hjp ltac:(done))
    as (Hij & Hidi & Hli & Hbi & Hnext & n1 & n2 & reply & Happ & Hrep & Hq1 & Hc2 & Hc1).
  pose proof (heartbeat_args_refines j (currentTerm (sv_node si)) i (commitIndex (sv_node si)) (sv_node si) Hli Hbi Hnext) as Hargs.
  rewrite <- Hidi in Hargs at 2. fold (next_args j (sv_node si)) in Hargs.
  destruct (round_events c i j si sj (length (peers (sv_node si))) q _ n1 n2 reply Hij Hi Hj eq_refl Hq Hlead Hidi Hargs Happ Hrep)
    as (c' & Hrun & Hl' & Hi' & Hj' & Hmoved).
  exists c', (set_node n1 si), (set_node n2 sj). by split_and!.
Qed.

(** The follower's log extends the leader's, and [nextIndex] is within it. *)
Definition synced (j : NodeID) (k f : core) : Prop :=
  k_log k `prefix_of` k_log f ∧ (map_get 0 (k_next k) j <= N.of_nat (length (k_log k)))%N.

(** What exchanges with [j] leave alone at the leader. *)
Definition leader_frame (j : NodeID) (k k' : core) : Prop :=
  same_but_indices k k' ∧
  ∀ p, p ≠ j → k_next k' !! p = k_next k !! p ∧ k_match k' !! p = k_match k !! p.

Lemma leader_frame_trans j k1 k2 k3 : leader_frame j k1 k2 → leader_frame j k2 k3 → leader_frame j k1 k3.
Proof.
  intros [H1 F1] [H2 F2]. split; [unfold same_but_indices in *; naive_solver congruence|].
  intros p Hp. destruct (F1 p Hp), (F2 p Hp). split; congruence.
Qed.

(** What [exchange_progress] says of the leader [s1] and the follower [t1] after
    an exchange. *)
Definition progress (j : NodeID) (si sj s1 t1 : server W) : Prop :=
  let k := core_of (sv_node si) in let k' := core_of (sv_node s1) in let f' := core_of (sv_node t1) in
  leader_frame j k k' ∧ (k_term f' <= k_term k)%N ∧
  ((synced j k' f' ∧
    ((map_get 0 (k_next k) j < N.of_nat (length (k_log k)))%N → k' = p_success j (last_index (k_log k)) k)) ∨
   (k_log f' = k_log (core_of (sv_node sj)) ∧ (map_get 0 (k_next k') j < map_get 0 (k_next k) j)%N ∧
    ∀ L0, L0 `prefix_of` k_log k → L0 `prefix_of` k_log f' → (N.of_nat (length L0) < map_get 0 (k_next k) j)%N)).

Lemma exchanged n c g i j si sj (s1 t1 : server W) :
  reached n c g → cl_servers c !! i = Some si → cl_servers c !! j = Some sj →
  state (sv_node si) = Leader → j ∈ peers (sv_node si) →
  (currentTerm (sv_node sj) <= currentTerm (sv_node si))%N →
  core_of (sv_node t1) = (p_append (next_args j (sv_node si)) (core_of (sv_node sj))).1 →
  core_of (sv_node s1) = p_append_reply j (next_args j (sv_node si))
    (p_append (next_args j (sv_node si)) (core_of (sv_node sj))).2 (core_of (sv_node si)) →
  progress j si sj s1 t1.
Proof.
  intros HI Hi Hj Hlead Hjp Ht Hct Hcs. unfold progress.
  pose proof (ru_live _ _ _ _ _ _ _ HI) as [_ HL].
  destruct (exchange_progress (g_tl g) (core_of (sv_node si)) (core_of (sv_node sj)) j (commitIndex (sv_node si))
    (li_log _ _ _ _ HL _ _ (abs_lookup _ _ _ Hi)) (li_log _ _ _ _ HL _ _ (abs_lookup _ _ _ Hj))
    Hlead Ht (reached_next _ _ _ _ _ _ HI Hi Hlead Hjp)) as (Hsame & Hterm & _ & Hother & Hprog).
  change (p_args _ _ _ _ _) with (next_args j (sv_node si)) in Hsame, Hterm, Hother, Hprog.
  rewrite <- Hct in Hterm, Hprog. rewrite <- Hcs in Hsame, Hother, Hprog. clear Hct Hcs.
  split; [by split|]. split; [done|].
  destruct Hprog as [(Hp & Hnx & Hs)|(HF & Hlt & Hcommon)]; [left|right].
  - pose proof Hsame as (_ & _ & _ & _ & Hlog & _). split; [|done]. split; by rewrite Hlog.
  - rewrite HF. by split_and!.
Qed.

(** One round of a heartbeat. *)
Lemma round_progress n c g i j si sj q :
  reached n c g → (N.of_nat n + 6 < event_limit)%N →
  cl_servers c !! i = Some si → cl_servers c !! j = Some sj →
  state (sv_node si) = Leader → peers (sv_node si) !! q = Some j →
  (currentTerm (sv_node sj) <= currentTerm (sv_node si))%N →
  ∃ c' g' si' sj',
    run (heartbeat_round i (length (peers (sv_node si))) q (length (cl_net c))) c = Some (Ret c') ∧
    reached (n + 4) c' g' ∧ length (cl_net c') = S (S (length (cl_net c) + length (peers (sv_node si)))) ∧
    cl_servers c' !! i = Some si' ∧ cl_servers c' !! j = Some sj' ∧ only_moved i j c c' ∧ quiet si si' ∧
    progress j si sj si' sj'.
Proof using Hnodup Hnonempty.
  intros HI Hn Hi Hj Hlead Hq Ht.
  destruct (heartbeat_runs n c g i j si sj q HI ltac:(lia) Hi Hj Hlead Hq)
    as (c1 & s1 & t1 & Hr1 & Hl1 & Hi1 & Hj1 & Hm1 & Hq1 & Hct & Hcs).
  destruct (reach_on ids Hnodup Hnonempty n c g _ c1 HI
    (crash_free_intact _ _ (heartbeat_rounds_crash_free 1 i (length (peers (sv_node si))) q (length (cl_net c))))
    ltac:(rewrite length_heartbeat_rounds; lia) ltac:(cbn [heartbeat_rounds]; rewrite app_nil_r; exact Hr1))
    as (g1 & HI1 & _).
  rewrite length_heartbeat_rounds in HI1.
  exists c1, g1, s1, t1. do 7 (split; [done|]).
  apply (exchanged n c g i j); try done. by eapply list_elem_of_lookup_2.
Qed.

Lemma leader_frame_view j (n n' : Node W) :
  leader_frame j (core_of n) (core_of n') →
  peers n' = peers n ∧ currentTerm n' = currentTerm n ∧ entries (log n') = entries (log n) ∧ state n' = state n.
Proof. intros [(_ & Hp & Ht & _ & Hl & Hs & _) _]. done. Qed.

(** Rounds with [j]: they are synced at the end, or the follower's log is
    unchanged and every round moved [nextIndex] back. *)
Lemma rounds_run rounds n c g i j si sj q :
  reached n c g → (N.of_nat n + 4 * N.of_nat rounds + 2 < event_limit)%N →
  cl_servers c !! i = Some si → cl_servers c !! j = Some sj →
  state (sv_node si) = Leader → peers (sv_node si) !! q = Some j →
  (currentTerm (sv_node sj) <= currentTerm (sv_node si))%N →
  ∃ c' g' si' sj',
    run (heartbeat_rounds rounds i (length (peers (sv_node si))) q (length (cl_net c))) c = Some (Ret c') ∧
    reached (n + 4 * rounds) c' g' ∧
    cl_servers c' !! i = Some si' ∧ cl_servers c' !! j = Some sj' ∧ only_moved i j c c' ∧ quiet si si' ∧
    leader_frame j (core_of (sv_node si)) (core_of (sv_node si')) ∧
    (currentTerm (sv_node sj') <= currentTerm (sv_node si))%N ∧
    (synced j (core_of (sv_node si')) (core_of (sv_node sj')) ∨
     entries (log (sv_node sj')) = entries (log (sv_node sj)) ∧
     (map_get 0 (nextIndex (sv_node si')) j + N.of_nat rounds <= map_get 0 (nextIndex (sv_node si)) j)%N).
Proof using Hnodup Hnonempty.
  revert n c g si sj. induction rounds as [|rounds IH]; intros n c g si sj HI Hn Hi Hj Hlead Hq Ht.
  { exists c, g, si, sj. rewrite Nat.add_0_r. split_and!; try done. right. split; [done|lia]. }
  destruct (round_progress n c g i j si sj q HI ltac:(lia) Hi Hj Hlead Hq Ht)
    as (c1 & g1 & s1 & t1 & Hr1 & HI1 & Hl1 & Hi1 & Hj1 & Hm1 & Hq1 & (Hf1 & Ht1 & Hp1)).
  destruct (leader_frame_view _ _ _ Hf1) as (Hp & Htm & Hlog & Hst).
  destruct (IH (n + 4) c1 g1 s1 t1) as (c' & g' & s' & t' & Hr' & HI' & Hi' & Hj' & Hm' & Hq' & Hf' & Ht' & Hp');
    try done; [lia|congruence|by rewrite Hp|by rewrite Htm|].
  destruct (leader_frame_view _ _ _ Hf') as (_ & _ & Hlog' & _).
  exists c', g', s', t'. cbn [heartbeat_rounds]. rewrite Hp, Hl1 in Hr'. rewrite Htm in Ht'.
  split_and!; try done.
  - by rewrite (run_app_Ret _ _ _ _ Hr1).
  - by replace (n + 4 * S rounds) with (n + 4 + 4 * rounds) by lia.
  - by eapply only_moved_trans.
  - destruct Hq1 as (? & ? & ?), Hq' as (? & ? & ?). split_and!; congruence.
  - by eapply leader_frame_trans.
  - unfold synced in *. cbn [core_of k_log k_next] in *.
    destruct Hp' as [?|[HF' Hn']]; [by left|]. rewrite HF'. destruct Hp1 as [[[Hpre Hle] _]|(HF & Hlt & _)].
    + left. rewrite Hlog'. split; [done|lia].
    + right. rewrite HF. split; [done|lia].
Qed.

End converge.

(** ** The commit rule *)

(** *** The candidate *)

Definition p_on_majority (k : core) (x : LogIndex) : Prop :=
  length (k_peers k) + 1 < 2 * (1 + length (filter (λ p, (x <= map_get 0 (k_match k) p)%N) (k_peers k))).

Lemma match_indices_count k x :
  (x <= last_index (k_log k))%N →
  length (filter (λ y, (x <= y)%N) (p_match_indices k)) =
  1 + length (filter (λ p, (x <= map_get 0 (k_match k) p)%N) (k_peers k)).
Proof.
  intros Hx. unfold p_match_indices. rewrite filter_cons, decide_True by done.
  cbn [length]. change (map ?f ?l) with (f <$> l). by rewrite length_filter_fmap.
Qed.

Lemma filter_count_mono (P Q : LogIndex → Prop) `{∀ y, Decision (P y)} `{∀ y, Decision (Q y)} l :
  (∀ y, P y → Q y) → length (filter P l) <= length (filter Q l).
Proof.
  intros HPQ. induction l as [|y l IH]; [done|]. rewrite !filter_cons. repeat case_decide; simpl; naive_solver lia.
Qed.

(** The candidate that [advanceCommitIndexLocked] picks is the largest index
    that a majority holds. *)
Lemma majority_candidate k y :
  sort_desc (p_match_indices k) !! ((length (k_peers k) + 1) / 2) = Some y →
  (y <= last_index (k_log k))%N →
  p_on_majority k y ∧ ∀ x, (x <= last_index (k_log k))%N → p_on_majority k x → (x <= y)%N.
Proof.
  intros Hy Hyl. unfold p_on_majority. pose proof (sort_desc_count _ _ _ Hy) as Hc.
  pose proof (sort_desc_above _ _ _ Hy) as Ha. rewrite match_indices_count in Hc by done.
  pose proof (Nat.div_mod_eq (length (k_peers k) + 1) 2).
  pose proof (Nat.mod_upper_bound (length (k_peers k) + 1) 2 ltac:(lia)).
  split; [lia|]. intros x Hxl Hm. destruct (N.le_gt_cases x y) as [|Hlt]; [done|].
  pose proof (filter_count_mono (λ z, (x <= z)%N) (λ z, (y < z)%N) (p_match_indices k)) as Hle.
  rewrite match_indices_count in Hle by done. specialize (Hle ltac:(intros; lia)). lia.
Qed.

(** There is a candidate. *)
Lemma candidate_exists k : ∃ y, sort_desc (p_match_indices k) !! ((length (k_peers k) + 1) / 2) = Some y ∧ y ∈ p_match_indices k.
Proof.
  destruct (lookup_lt_is_Some_2 (sort_desc (p_match_indices k)) ((length (k_peers k) + 1) / 2)) as [y Hy].
  { rewrite length_sort_desc. unfold p_match_indices. rewrite length_cons, length_map. apply half_lt. }
  exists y. split; [done|]. apply list_elem_of_lookup_2 in Hy. unfold sort_desc in Hy. by rewrite merge_sort_Permutation in Hy.
Qed.

Section commit.
Context {W : Type} `{HStorage : Storage W} `{HRand : Rand}.
Context (ids : list NodeID) (Hnodup : NoDup ids) (Hnonempty : "" ∉ ids).
Implicit Types c : cluster W.
Implicit Types n : Node W.

(** The peers that hold index [x], as far as the leader knows, are more than
    half of the cluster together with the leader itself. *)
Definition on_majority n (x : LogIndex) : Prop :=
  length (peers n) + 1 < 2 * (1 + length (filter (λ p, (x <= map_get 0 (matchIndex n) p)%N) (peers n))).

(** What a leader knows about its peers stays within its own log. *)
Lemma leader_match_indices k g i m net y :
  log_inv ids m net g → m !! i = Some k → k_state k = Leader → y ∈ p_match_indices k →
  (y < N.of_nat (length (k_log k)))%N.
Proof.
  intros HL Hk Hl Hy. destruct (li_log _ _ _ _ HL _ _ Hk) as [Hne%wf_list_nonempty _].
  apply elem_of_cons in Hy as [->|Hy]; [unfold last_index; lia|].
  apply list_elem_of_In, in_map_iff in Hy as (p & <- & Hp%list_elem_of_In). unfold map_get.
  destruct (k_match k !! p) as [x|] eqn:Ex; [|simpl; lia].
  destruct (li_match _ _ _ _ HL _ _ _ _ Hk Hl Hp Ex) as (T & HT & Hx & _).
  rewrite (li_leader _ _ _ _ HL _ _ Hk Hl) in HT. by injection HT as <-.
Qed.

(** From its first entry of its own term on, a leader's log has only such. *)
Lemma leader_own_terms k g i m net x y :
  log_inv ids m net g → m !! i = Some k → k_state k = Leader →
  tm (k_log k) x = k_term k → x <= y → y < length (k_log k) → tm (k_log k) y = k_term k.
Proof.
  intros HL Hk Hl Hx Hxy Hy.
  destruct (li_tl _ _ _ _ HL _ _ (li_leader _ _ _ _ HL _ _ Hk Hl)) as (_ & _ & _ & ld & _ & _ & _ & Hall).
  destruct (Hall x) as [Hlow _]; [lia|]. destruct (Hall y Hy) as [_ Hhigh]. apply Hhigh.
  destruct (decide (x < ld_init ld)) as [Hlt|]; [|lia]. apply Hlow in Hlt. lia.
Qed.

(** C16: The commit rule.  In a state that an execution with intact restarts
    reaches, [advanceCommitIndexLocked] of a leader sets [commitIndex] to the
    largest index that a majority of the cluster holds and whose entry has the
    leader's own term, if there is one over the present [commitIndex]; it
    changes [commitIndex] in no other case. *)
Theorem commit_rule (w : NodeID → option W) evs c i s :
  intact_run evs (init_cluster ids w) → (N.of_nat (length evs) + 2 < event_limit)%N →
  run evs (init_cluster ids w) = Some (Ret c) →
  cl_servers c !! i = Some s → IsLeader (sv_node s) = true →
  ∃ n', advanceCommitIndexLocked (sv_node s) = Ret n' ∧
    (commitIndex n' = commitIndex (sv_node s) ∨
     (commitIndex (sv_node s) < commitIndex n')%N ∧ on_majority (sv_node s) (commitIndex n') ∧
     TermAt (log (sv_node s)) (commitIndex n') = Ret (currentTerm (sv_node s))) ∧
    ∀ x, on_majority (sv_node s) x → (x <= LastIndex (log (sv_node s)))%N →
      TermAt (log (sv_node s)) x = Ret (currentTerm (sv_node s)) → (x <= commitIndex n')%N.
Proof using Hnodup Hnonempty.
  intros Hint Hlen Hr Hs Hlead%bool_decide_eq_true_1.
  destruct (reach ids Hnodup Hnonempty w evs c Hint ltac:(lia) Hr) as [g HI].
  destruct (reached_ok ids _ _ _ _ _ HI Hlen Hs) as (Hok & _).
  pose proof (server_ok_shape _ _ _ _ Hok) as Hl. pose proof (server_ok_index _ _ _ _ Hok) as Hb.
  pose proof (ru_live _ _ _ _ _ _ _ HI) as [_ HL]. pose proof (abs_lookup _ _ _ Hs) as Hk.
  set (n := sv_node s) in *. pose proof (LastIndex_eq _ Hl) as Hlast.
  destruct (advanceCommit_refines n Hl Hb) as (n' & Hadv & Hcore & _). exists n'. split; [done|].
  apply (f_equal k_commit) in Hcore. cbn [core_of k_commit] in Hcore. rewrite Hcore.
  unfold p_advance. change (k_peers (core_of n)) with (peers n).
  destruct (candidate_exists (core_of n)) as (y & Ey & Hin). change (k_peers (core_of n)) with (peers n) in Ey.
  pose proof (leader_match_indices (core_of n) g i _ _ y HL Hk Hlead Hin) as Hy. cbn [core_of k_log] in Hy.
  rewrite Ey. destruct (majority_candidate (core_of n) y Ey) as [Hmaj Hmax]; [unfold last_index; cbn [core_of k_log]; lia|].
  change (last_index (k_log (core_of n))) with (N.of_nat (length (entries (log n)) - 1)) in Hmax. rewrite <- Hlast in Hmax.
  assert (Hterm : ∀ x, (x <= LastIndex (log n))%N → TermAt (log n) x = Ret (tm (entries (log n)) (N.to_nat x))).
  { intros x Hx. pose proof (LastIndex_bound _ Hl). by apply TermAt_spec; lia. }
  cbn [core_of k_commit k_log k_term]. rewrite (proj2 (N.ltb_lt _ _) Hy), andb_true_r.
  destruct (N.ltb_spec (commitIndex n) y) as [Hlt|Hge]; cbn [andb].
  2: { split; [by left|]. intros x Hx Hxl _. pose proof (Hmax x Hxl Hx). cbn [core_of k_commit]. lia. }
  destruct (N.eqb_spec (tm (entries (log n)) (N.to_nat y)) (currentTerm n)) as [Ht|Ht].
  - cbn [p_set_commit k_commit]. split; [right; split_and!; [done..|]|intros x Hx Hxl _; by apply Hmax].
    rewrite Hterm by lia. by rewrite Ht.
  - split; [by left|]. intros x Hx Hxl. rewrite Hterm by done. intros [= Hxt]. destruct Ht.
    apply (leader_own_terms (core_of n) g i _ _ (N.to_nat x) (N.to_nat y) HL Hk Hlead); [done| |].
    + pose proof (Hmax x Hxl Hx). lia.
    + cbn [core_of k_log]. lia.
Qed.
End commit.

(** ** Well-formed servers *)

Section well_formed.
Context {W : Type} `{HStorage : Storage W} `{HRand : Rand}.
Context (ids : list NodeID) (Hnodup : NoDup ids) (Hnonempty : "" ∉ ids).

(** The state of a node that runs as server [i] of the cluster [ids]. *)
Definition node_wf (i : NodeID) (n : Node W) : Prop :=
  id n = i ∧ peers n = peers_of ids i ∧ log_wf (log n) ∧
  (lastApplied n <= commitIndex n)%N ∧ (commitIndex n <= LastIndex (log n))%N ∧
  (state n ≠ Follower → votedFor n = i ∧ (0 < currentTerm n)%N) ∧
  (state n = Leader → ∀ p, p ∈ peers n →
     (0 < map_get 0 (nextIndex n) p)%N ∧ (map_get 0 (nextIndex n) p <= LastIndex (log n) + 1)%N ∧
     (map_get 0 (matchIndex n) p <= LastIndex (log n))%N).

(** C17: Nodes stay well formed.  In every state that an execution with
    intact restarts reaches, a node has its configured id and peers, a log with the
    sentinel, consecutive indices and positive terms, [lastApplied],
    [commitIndex] and the last index in this order; a candidate or leader voted
    for itself in a positive term; a leader's [nextIndex] is positive and at most
    one past its log, and its [matchIndex] is within its log. *)
Theorem nodes_well_formed (w : NodeID → option W) evs c i s :
  intact_run evs (init_cluster ids w) → (N.of_nat (length evs) + 2 < event_limit)%N →
  run evs (init_cluster ids w) = Some (Ret c) → cl_servers c !! i = Some s →
  node_wf i (sv_node s).
Proof using Hnodup Hnonempty.
  intros Hint Hlen Hr Hs. destruct (reach_paced ids Hnodup Hnonempty w evs c Hint ltac:(lia) Hr) as (g & HI & HN).
  destruct (reached_ok ids _ _ _ _ _ HI Hlen Hs) as (Hok & Hid & Hp).
  pose proof (server_ok_shape _ _ _ _ Hok) as Hl. pose proof (ru_live _ _ _ _ _ _ _ HI) as [HE HL].
  pose proof (abs_lookup _ _ _ Hs) as Hk. pose proof (LastIndex_eq _ Hl) as Hlast.
  destruct (li_log _ _ _ _ HL _ _ Hk) as [(H0 & Hidx & Hterm) _].
  destruct (ru_apply _ _ _ _ _ _ _ HI _ _ Hs) as (_ & Hla & Htg).
  pose proof (commit_ok_length _ _ _ _ _ (li_commit _ _ _ _ HL _ _ Hk) (proj1 Hl)) as Hc.
  cbn [core_of k_commit k_log] in *. split_and!; try done; try lia.
  - intros Hst. split; [exact (proj1 (ei_running _ _ _ _ HE _ _ Hk Hst))|exact (li_candidate _ _ _ _ HL _ _ Hk Hst)].
  - intros Hst p Hpp. split; [by eapply reached_next|].
    pose proof (leader_next_within ids _ i _ p HN Hk Hst Hpp) as Hnx. unfold next_within in Hnx. cbn [core_of k_log k_next] in Hnx.
    pose proof (wf_list_nonempty _ (conj H0 (conj Hidx Hterm))). split; [lia|].
    assert (Hin : map_get 0%N (matchIndex (sv_node s)) p ∈ p_match_indices (core_of (sv_node s))).
    { right. apply list_elem_of_In, in_map_iff. exists p. split; [done|by apply list_elem_of_In]. }
    pose proof (leader_match_indices ids _ _ _ _ _ _ HL Hk Hst Hin) as Hm. cbn [core_of k_log] in Hm. lia.
Qed.
End well_formed.

(** ** A concrete cluster

    [b] leads term 2 with one entry that [c] does not have; [nextIndex] for [c]
    is 2, so the first heartbeat is rejected and the second one accepted. *)
Module ProgressDemo.
#[local] Existing Instance Demo.constant_rand.

Definition evs : list event := Demo.applying ++ Demo.reelect.
Definition b : server Journal := Demo.server_of "b" Demo.reelected.
Definition c : server Journal := Demo.server_of "c" Demo.reelected.


(** [a], which leads term 1, has an entry that [b] acknowledged. *)
Definition a : server Journal := Demo.server_of "a" Demo.applied.

Lemma commit_rule_witness :
  ∃ n', advanceCommitIndexLocked (sv_node a) = Ret n' ∧
    (commitIndex n' = commitIndex (sv_node a) ∨
     (commitIndex (sv_node a) < commitIndex n')%N ∧ on_majority (sv_node a) (commitIndex n') ∧
     TermAt (log (sv_node a)) (commitIndex n') = Ret (currentTerm (sv_node a))) ∧
    ∀ x, on_majority (sv_node a) x → (x <= LastIndex (log (sv_node a)))%N →
      TermAt (log (sv_node a)) x = Ret (currentTerm (sv_node a)) → (x <= commitIndex n')%N.
Proof.
  apply (commit_rule Demo.ids Demo.ids_nodup Demo.ids_nonempty Demo.wals Demo.applying Demo.applied "a" a);
    [decided|by_compute..].
Defined.
Lemma nodes_well_formed_witness : node_wf Demo.ids "b" (sv_node b).
Proof.
  apply (nodes_well_formed Demo.ids Demo.ids_nodup Demo.ids_nonempty Demo.wals evs Demo.reelected);
    [decided|by_compute..].
Defined.
End ProgressDemo.
