(* ===== verification/Liveness.v ===== *)
(** Availability: a majority that can be reached is enough to elect a leader and
    to commit a command.

    The theorems give executions: from any state that an execution with
    intact restarts reaches, the events of an explicit schedule (or of some schedule)
    can be run one after the other and end in the state described.  They say
    nothing about which schedule the timers and the network choose (see
    RunLoop.v for what the timers can do wrong).  A command is committed by the
    replication goroutines, which [becomeLeaderLocked] starts and which do not
    wait for the timers of the node. *)

From S2P Require Import Prelude Types RaftLog Storage Node Replication Cluster.
From S2P Require Import Protocol Refinement Ghost ElectionSafety LogFacts LogSafety NextIndex Bounds Simulation Safety Guarantees Progress.
Import RLog.

(** ** Elections *)

(** A vote request at position [m + q] of the network is delivered, and the
    reply, which is then at position [x]; and so on for the others. *)
Fixpoint vote_events (m x : nat) (qs : list nat) : list event :=
  match qs with
  | [] => []
  | q :: qs => EvVoteRequest (m + q) :: EvVoteReply x :: vote_events m (S x) qs
  end.

(** Server [i] with [np] peers starts an election, with [m] messages in the
    network, and the peers at the positions [qs] of its list vote. *)
Definition election_events (i : NodeID) (np m : nat) (qs : list nat) : list event :=
  EvElection i :: vote_events m (m + np) qs.

(** A voter of a lower term with a log that is not ahead grants its vote. *)
Lemma p_vote_granted args k :
  (k_term k < rv_Term args)%N → p_up_to_date args k = true →
  (p_vote args k).2 = mkRequestVoteReply (rv_Term args) true.
Proof.
  intros Ht Hu. unfold p_vote. rewrite (proj2 (N.ltb_lt _ _) Ht). cbn [p_bump k_term].
  rewrite N.ltb_irrefl. unfold p_can_vote. cbn [p_bump k_voted]. rewrite bool_decide_eq_true_2 by done.
  change (p_up_to_date args (p_bump (rv_Term args) k)) with (p_up_to_date args k). by rewrite Hu.
Qed.

(** A candidate that has [v] votes, none of them from the servers of [js], or a
    leader; [T] is its term and [L] its log. *)
Definition campaigning (T : Term) (L : list LogEntry) (np v : nat) (js : list NodeID) (k : core) : Prop :=
  k_term k = T ∧ k_log k = L ∧ length (k_peers k) = np ∧
  (k_state k = Leader ∨
   k_state k = Candidate ∧ k_votes k = v ∧ v < p_majority k ∧
   ∀ j, j ∈ js → map_get false (k_received k) j = false).

Lemma campaigning_reply T L np v j js k :
  NoDup (j :: js) → campaigning T L np v (j :: js) k →
  campaigning T L np (S v) js (p_vote_reply j T (mkRequestVoteReply T true) k).
Proof.
  intros [Hj _]%NoDup_cons (Ht & Hl & Hp & Hst). unfold p_vote_reply. rewrite Ht, N.eqb_refl. cbn [negb orb rvr_Term rvr_VoteGranted].
  destruct Hst as [Hst|(Hst & Hv & Hm & Hr)]; rewrite Hst.
  { split_and!; try done. by left. }
  rewrite bool_decide_eq_true_2 by done. cbn [negb]. rewrite N.ltb_irrefl, Hr by left.
  destruct (Nat.leb_spec (p_majority (p_count j k)) (k_votes (p_count j k))) as [Hge|Hlt].
  { split_and!; try done. by left. }
  split_and!; try done. right. split_and!; [done|cbn [p_count k_votes]; lia|cbn [p_count k_votes] in Hlt; lia|].
  intros j' Hj'. cbn [p_count k_received]. unfold map_get. rewrite lookup_insert_ne by (intros ->; done).
  apply Hr. by right.
Qed.

Section elections.
Context {W : Type} `{HStorage : Storage W} `{HRand : Rand}.
Implicit Types c : cluster W.

(** One vote. *)
Lemma vote_runs c x i j si sj args :
  i ≠ j → cl_net c !! x = Some (VoteReq i j args) →
  cl_servers c !! i = Some si → cl_servers c !! j = Some sj →
  log_shape (log (sv_node si)) → log_shape (log (sv_node sj)) →
  ∃ ni nj c', run [EvVoteRequest x; EvVoteReply (length (cl_net c))] c = Some (Ret c') ∧
    cl_servers c' = <[i := set_node ni si]> (<[j := set_node nj sj]> (cl_servers c)) ∧
    cl_net c' = cl_net c ++ [VoteRep i j (rv_Term args) (p_vote args (core_of (sv_node sj))).2] ∧
    core_of ni = p_vote_reply j (rv_Term args) (p_vote args (core_of (sv_node sj))).2 (core_of (sv_node si)).
Proof.
  intros Hij Hx Hi Hj Hli Hlj.
  destruct (HandleRequestVote_refines args (sv_node sj) Hlj) as (nj & reply & Hh & Hp & _). rewrite Hp. cbn [snd].
  destruct (handleVoteReply_refines j (rv_Term args) reply (sv_node si) Hli) as [Hc _].
  exists (handleVoteReply j (rv_Term args) reply (sv_node si)), nj. cbn [run exec]. rewrite Hx.
  rewrite (at_server_Ret j _ _ sj (set_node nj sj) [VoteRep i j (rv_Term args) reply]) by
    (done || (unfold on_vote_request; apply react_Ret; by rewrite Hh)).
  cbn [cl_net cl_servers]. rewrite lookup_app_r, Nat.sub_diag by lia. cbn [lookup list_lookup].
  rewrite (at_server_Ret i _ _ si (set_node (handleVoteReply j (rv_Term args) reply (sv_node si)) si) []).
  2: { cbn [cl_servers]. by rewrite lookup_insert_ne. }
  2: { unfold on_vote_reply. by apply react_Ret. }
  eexists. split; [reflexivity|]. cbn [cl_servers cl_net]. by rewrite app_nil_r.
Qed.

(** The votes of the servers [js], whose requests are at the positions [m + q]. *)
Lemma votes_run T L args m i np qs js v c si :
  rv_Term args = T → Forall2 (λ q j, cl_net c !! (m + q) = Some (VoteReq i j args)) qs js →
  NoDup js → i ∉ js → cl_servers c !! i = Some si → log_shape (mkLog L) →
  campaigning T L np v js (core_of (sv_node si)) →
  (∀ j, j ∈ js → ∃ sj, cl_servers c !! j = Some sj ∧ log_shape (log (sv_node sj)) ∧
     (currentTerm (sv_node sj) < T)%N ∧ p_up_to_date args (core_of (sv_node sj)) = true) →
  ∃ c' si', run (vote_events m (length (cl_net c)) qs) c = Some (Ret c') ∧ cl_servers c' !! i = Some si' ∧
    campaigning T L np (length js + v) [] (core_of (sv_node si')).
Proof.
  intros HT Hnet. revert v c si Hnet. revert js.
  induction qs as [|q qs IH]; intros js v c si Hnet Hnd Hi Hsi HL Hcamp Hvoters.
  { apply Forall2_nil_inv_l in Hnet as ->. by exists c, si. }
  apply Forall2_cons_inv_l in Hnet as (j & js' & Hreq & Hnet & ->). rename js' into js.
  destruct (Hvoters j) as (sj & Hsj & Hlj & Htj & Huj); [left|].
  assert (Hij : i ≠ j) by (intros ->; apply Hi; left).
  assert (Hli : log_shape (log (sv_node si))).
  { destruct Hcamp as (_ & Hl & _). unfold log_shape in *. cbn [core_of k_log] in Hl. by rewrite Hl. }
  destruct (vote_runs c (m + q) i j si sj args Hij Hreq Hsi Hsj Hli Hlj) as (ni & nj & c1 & Hr & Hs1 & Hn1 & Hci).
  rewrite p_vote_granted, HT in Hci by (done || by rewrite HT).
  pose proof (campaigning_reply _ _ _ _ _ _ _ Hnd Hcamp) as Hcamp1. rewrite <- Hci in Hcamp1.
  apply NoDup_cons in Hnd as [Hjn Hnd]. apply not_elem_of_cons in Hi as [_ Hi].
  destruct (IH js (S v) c1 (set_node ni si)) as (c' & si' & Hr' & Hsi' & Hcamp'); try done.
  - eapply Forall2_impl; [exact Hnet|]. intros q' j' Hq'. rewrite Hn1. by apply lookup_app_l_Some.
  - rewrite Hs1. apply lookup_insert_eq.
  - intros j' Hj'. destruct (Hvoters j') as (sj' & Hsj' & ?); [by right|]. exists sj'. split; [|done].
    rewrite Hs1, !lookup_insert_ne; [done|by intros ->|by intros ->].
  - exists c', si'. rewrite Hn1, length_app in Hr'. cbn [length] in Hr'. rewrite Nat.add_1_r in Hr'. split_and!; [|done|].
    + cbn [vote_events]. change (?a :: ?b :: ?l) with ([a; b] ++ l). by rewrite (run_app_Ret _ _ _ _ Hr).
    + cbn [length]. by rewrite Nat.add_succ_comm.
Qed.

Context (ids : list NodeID) (Hnodup : NoDup ids) (Hnonempty : "" ∉ ids).

(** C14: A majority elects.  In any state that an execution with intact restarts
    reaches, let a server with peers start an election, and deliver its requests
    to peers that are a majority together with it, whose terms are not higher
    and whose logs are not ahead, and their replies.  Nothing panics, and the
    server leads the next term with the log it had. *)
Theorem majority_elects (w : NodeID → option W) evs c i si qs js lastTerm :
  intact_run evs (init_cluster ids w) → (N.of_nat (length evs) + 2 < event_limit)%N →
  run evs (init_cluster ids w) = Some (Ret c) → cl_servers c !! i = Some si →
  Forall2 (λ q j, peers (sv_node si) !! q = Some j) qs js → NoDup js → js ≠ [] →
  length (peers (sv_node si)) + 1 < 2 * (1 + length js) →
  LastTerm (log (sv_node si)) = Ret lastTerm →
  (∀ j, j ∈ js → ∃ sj, cl_servers c !! j = Some sj ∧
     (currentTerm (sv_node sj) <= currentTerm (sv_node si))%N ∧
     isLogUpToDate (sv_node sj) lastTerm (LastIndex (log (sv_node si))) = Ret true) →
  ∃ c' si', run (election_events i (length (peers (sv_node si))) (length (cl_net c)) qs) c = Some (Ret c') ∧
    cl_servers c' !! i = Some si' ∧ IsLeader (sv_node si') = true ∧
    currentTerm (sv_node si') = (currentTerm (sv_node si) + 1)%N ∧
    entries (log (sv_node si')) = entries (log (sv_node si)).
Proof using Hnodup Hnonempty.
  intros Hint Hlen Hr Hi Hqs Hnd Hne Hmaj Hlt Hvoters.
  destruct (reach ids Hnodup Hnonempty w evs c Hint ltac:(lia) Hr) as [g HI].
  destruct (reached_ok ids _ _ _ _ _ HI Hlen Hi) as (Hok & Hid & Hp).
  pose proof (server_ok_shape _ _ _ _ Hok) as Hl.
  destruct (startElection_refines (sv_node si)) as (n1 & Hs & Hc1 & _); [split; [done|apply Hok]|].
  set (args := p_vote_args (p_elect (core_of (sv_node si)))) in *. set (n := sv_node si) in *.
  set (reqs := map (λ p, VoteReq i p args) (peers n)).
  assert (Hid1 : id n1 = i ∧ peers n1 = peers n) by (injection Hc1; intros; split; congruence).
  set (c1 := mkCluster (<[i := set_node n1 si]> (cl_servers c)) (cl_net c ++ reqs)).
  assert (Hx : exec (EvElection i) c = Some (Ret c1)).
  { cbn [exec]. apply (at_server_Ret i on_election c si); [done|]. unfold on_election. apply react_Ret. fold n. rewrite Hs. cbn [mbind outcome_bind].
    destruct Hid1 as [-> ->]. done. }
  assert (Hlm : length (peers n) = length reqs) by (symmetry; apply length_map).
  assert (Hother : ∀ j, j ∈ js → j ≠ i).
  { intros j (x & Hj)%list_elem_of_lookup. destruct (Forall2_lookup_r _ _ _ _ _ Hqs Hj) as (q & _ & Hq%list_elem_of_lookup_2).
    rewrite Hp in Hq. by apply list_elem_of_filter in Hq as [? _]. }
  destruct (votes_run (currentTerm n + 1) (entries (log n)) args (length (cl_net c)) i (length (peers n)) qs js 1 c1 (set_node n1 si))
    as (c' & si' & Hr' & Hsi' & Ht' & Hl' & Hp' & Hst'); try done.
  - eapply Forall2_impl; [exact Hqs|]. intros q j Hq. cbn [c1 cl_net].
    rewrite lookup_app_r by lia. replace (_ - _) with q by lia. unfold reqs. by rewrite list_lookup_fmap, Hq.
  - intros Hin. by apply (Hother i Hin).
  - apply lookup_insert_eq.
  - cbn [set_node sv_node]. rewrite Hc1. split_and!; try done. right. split_and!; try done.
    + unfold p_majority. cbn [p_elect k_peers core_of]. fold n.
      assert (0 < length js) by (destruct js; [done|simpl; lia]).
      pose proof (Forall2_length _ _ _ Hqs). destruct qs as [|q qs]; [simpl in *; lia|].
      apply Forall2_cons_inv_l in Hqs as (j & ? & Hq%lookup_lt_Some & _).
      enough (1 <= (length (peers n) + 1) / 2) by lia. apply Nat.div_le_lower_bound; lia.
    + intros j Hj. cbn [p_elect k_received core_of k_id]. fold n. rewrite Hid. unfold map_get.
      rewrite lookup_singleton_ne; [done|]. intros <-. by apply (Hother i Hj).
  - intros j Hj. destruct (Hvoters j Hj) as (sj & Hsj & Htj & Huj). exists sj.
    destruct (reached_ok ids _ _ _ _ _ HI Hlen Hsj) as (Hokj & _). pose proof (server_ok_shape _ _ _ _ Hokj) as Hlj.
    split_and!; [|done|lia|].
    + cbn [c1 cl_servers]. rewrite lookup_insert_ne; [done|]. intros <-. by apply (Hother i Hj).
    + unfold isLogUpToDate in Huj. rewrite LastTerm_spec, LastIndex_eq, LastIndex_eq in Huj by done. cbn [mbind outcome_bind] in Huj.
      rewrite LastTerm_spec in Hlt by done. injection Hlt as <-. injection Huj as Huj. exact Huj.
  - exists c', si'. cbn [election_events run]. rewrite Hx. split_and!; try done.
    + cbn [c1 cl_net] in Hr'. by rewrite length_app, <- Hlm in Hr'.
    + destruct Hst' as [Hst'|(_ & Hv & Hm & _)]; [by apply bool_decide_eq_true_2|]. exfalso.
      unfold p_majority in Hm. rewrite Hp' in Hm.
      pose proof (Nat.div_mod_eq (length (peers n) + 1) 2). lia.
Qed.
End elections.

(** ** Commitment *)

(** A majority in [js] is a majority. *)
Lemma majority_of js k x :
  NoDup js → js ⊆ k_peers k → length (k_peers k) + 1 < 2 * (1 + length js) →
  (∀ j, j ∈ js → (x <= map_get 0 (k_match k) j)%N) → p_on_majority k x.
Proof.
  intros Hnd Hsub Hmaj Hx. unfold p_on_majority.
  assert (Hle : length js <= length (filter (λ p, (x <= map_get 0 (k_match k) p)%N) (k_peers k))).
  { apply submseteq_length, NoDup_submseteq; [done|]. intros j Hj. apply list_elem_of_filter. auto. }
  lia.
Qed.

(** Recording that a peer has the whole log commits it, once a majority has. *)
Lemma p_success_commits j k :
  0 < length (k_log k) →
  (∀ y, y ∈ p_match_indices (p_success j (last_index (k_log k)) k) → (y < N.of_nat (length (k_log k)))%N) →
  last_term (k_log k) = k_term k →
  p_on_majority (p_success j (last_index (k_log k)) k) (last_index (k_log k)) →
  (last_index (k_log k) <= k_commit (p_success j (last_index (k_log k)) k))%N.
Proof.
  set (x := last_index (k_log k)). unfold p_success.
  set (k1 := if (map_get 0 (k_match _) j <? x)%N then _ else _).
  assert (Hk1 : k_log k1 = k_log k ∧ k_term k1 = k_term k) by (unfold k1; by repeat case_match).
  destruct Hk1 as [Hlog Hterm]. clearbody k1. intros Hne Hin Hlt Hmaj.
  destruct (p_advance_indices k1) as [_ Hm].
  assert (Hp : k_peers (p_advance k1) = k_peers k1 ∧ k_log (p_advance k1) = k_log k1) by (unfold p_advance; by repeat case_match).
  destruct Hp as [Hp Hl]. unfold p_match_indices in Hin. rewrite Hm, Hp, Hl in Hin. fold (p_match_indices k1) in Hin.
  unfold p_on_majority in Hmaj. rewrite Hm, Hp in Hmaj. fold (p_on_majority k1 x) in Hmaj.
  destruct (candidate_exists k1) as (y & Ey & Hy%Hin).
  destruct (majority_candidate k1 y Ey) as [_ Hmax]; [rewrite Hlog; unfold last_index; lia|].
  rewrite Hlog in Hmax. specialize (Hmax x ltac:(lia) Hmaj). assert (y = x) as -> by (unfold x, last_index in *; lia).
  unfold p_advance. rewrite Ey, Hlog, Hterm.
  destruct (N.ltb_spec (k_commit k1) x) as [|Hge]; cbn [andb]; [|lia].
  rewrite (proj2 (N.ltb_lt _ _) Hy). cbn [andb].
  replace (tm (k_log k) (N.to_nat x)) with (k_term k); [rewrite N.eqb_refl; cbn [p_set_commit k_commit]; lia|].
  rewrite <- Hlt. unfold last_term, x, last_index. by rewrite Nat2N.id.
Qed.

(** The events of the replication goroutines and of the apply side of server [i],
    and the requests and replies of the former. *)
Definition replicating (i : NodeID) (ev : event) : Prop :=
  match ev with
  | EvReplicate j _ | EvApplyCollect j | EvApplySend j | EvApplyFinish j | EvConsume j => j = i
  | EvAppendRequest _ | EvAppendReply _ => True
  | _ => False
  end.

Lemma replicating_crash_free i evs : Forall (replicating i) evs → crash_free evs.
Proof. intros H. eapply Forall_impl; [exact H|]. by intros []. Qed.

(** One turn of the replication goroutine of server [i] for its peer [j]: it sends
    the entries from [nextIndex] on, the peer answers, and the answer arrives.
    [m] messages were in the network before. *)
Definition replicate_round (i j : NodeID) (m : nat) : list event :=
  [EvReplicate i j; EvAppendRequest m; EvAppendReply (S m)].

(** The rounds that the peers [js] need, by their [nextIndex]. *)
Definition round_cost (next : gmap NodeID LogIndex) (js : list NodeID) : N :=
  foldr (λ j a, map_get 0 next j + a)%N 0%N js.

Lemma round_cost_ext (k k' : gmap NodeID LogIndex) js :
  (∀ j, j ∈ js → k' !! j = k !! j) → round_cost k' js = round_cost k js.
Proof.
  induction js as [|j js IH]; intros Hext; [done|]. cbn [round_cost foldr]. fold (round_cost k' js) (round_cost k js).
  rewrite IH by (intros j' Hj'; apply Hext; by right). unfold map_get. by rewrite Hext by left.
Qed.

Section commitment.
Context {W : Type} `{HStorage : Storage W} `{HRand : Rand}.
Context (ids : list NodeID) (Hnodup : NoDup ids) (Hnonempty : "" ∉ ids).
Implicit Types c : cluster W.

Abbreviation reached n c g := (run_inv False no_spec any_command ids n c g).
Abbreviation paced n c g := (reached n c g ∧ paced_inv ids (abs c, g)).

Lemma paced_on n c g evs c' :
  paced n c g → crash_free evs → (N.of_nat n + N.of_nat (length evs) < event_limit)%N →
  run evs c = Some (Ret c') → ∃ g', paced (n + length evs) c' g'.
Proof using Hnodup Hnonempty.
  intros [HI HN] Hcf Hlen Hr.
  destruct (reach_on ids Hnodup Hnonempty n c g evs c' HI (crash_free_intact _ _ Hcf) Hlen Hr) as (g' & HI' & Hs).
  exists g'. split; [done|]. by eapply paced_inv_steps.
Qed.

(** What a leader and a group of its followers do with each other: the leader
    keeps all but its indices, and nothing else moves. *)
Record group_step (i : NodeID) (js : list NodeID) c (si : server W) c' (si' : server W) : Prop := {
  gr_at : cl_servers c' !! i = Some si';
  gr_quiet : quiet si si';
  gr_same : same_but_indices (core_of (sv_node si)) (core_of (sv_node si'));
  gr_index p : p ∉ js → k_next (core_of (sv_node si')) !! p = k_next (core_of (sv_node si)) !! p ∧
                        k_match (core_of (sv_node si')) !! p = k_match (core_of (sv_node si)) !! p;
  gr_others p : p ≠ i → p ∉ js → cl_servers c' !! p = cl_servers c !! p;
}.

Lemma group_step_refl i js c si : cl_servers c !! i = Some si → group_step i js c si c si.
Proof. intros Hi. by repeat split. Qed.

Lemma group_step_cons i j js c si c1 s1 c2 s2 :
  only_moved i j c c1 → quiet si s1 → leader_frame j (core_of (sv_node si)) (core_of (sv_node s1)) →
  group_step i js c1 s1 c2 s2 → group_step i (j :: js) c si c2 s2.
Proof.
  intros Hm (Hq1 & Hq2 & Hq3) [Hsame Hidx] [Hat (Hr1 & Hr2 & Hr3) Hs Hi Ho]. constructor; [done|..].
  - split_and!; congruence.
  - unfold same_but_indices in *. naive_solver congruence.
  - intros p [Hj Hjs]%not_elem_of_cons. destruct (Hidx p Hj), (Hi p Hjs). split; congruence.
  - intros p Hp [Hj Hjs]%not_elem_of_cons. by rewrite Ho, Hm.
Qed.

(** A follower whose term is not over [T]. *)
Definition follows c (T : Term) (j : NodeID) : Prop :=
  ∃ sj, cl_servers c !! j = Some sj ∧ (currentTerm (sv_node sj) <= T)%N.

Lemma same_view (n n' : Node W) :
  same_but_indices (core_of n) (core_of n') →
  peers n' = peers n ∧ currentTerm n' = currentTerm n ∧ entries (log n') = entries (log n) ∧ state n' = state n.
Proof. intros (_ & ? & ? & _ & ? & ? & _). done. Qed.

(** The leader commits its last entry once a majority has it. *)
Definition commits_last (k : core) : Prop :=
  p_on_majority k (last_index (k_log k)) → (last_index (k_log k) <= k_commit k)%N.

(** What a peer's whole log does to the leader's commit index. *)
Lemma pushed_commits n c g i (si s1 : server W) j :
  reached n c g → cl_servers c !! i = Some s1 → state (sv_node s1) = Leader →
  core_of (sv_node s1) = p_success j (last_index (entries (log (sv_node si)))) (core_of (sv_node si)) →
  entries (log (sv_node s1)) = entries (log (sv_node si)) →
  last_term (entries (log (sv_node si))) = currentTerm (sv_node si) → 0 < length (entries (log (sv_node si))) →
  commits_last (core_of (sv_node s1)).
Proof.
  intros HI Hi Hst Hk Hlog Hlast H0. unfold commits_last.
  change (k_log (core_of (sv_node s1))) with (entries (log (sv_node s1))). rewrite Hlog, Hk.
  apply (p_success_commits j (core_of (sv_node si))); [done| |done].
  intros y Hy. change (k_log (core_of (sv_node si))) with (entries (log (sv_node si))). rewrite <- Hlog.
  destruct (ru_live _ _ _ _ _ _ _ HI) as [_ HL1].
  apply (leader_match_indices ids (core_of (sv_node s1)) g i _ _ y HL1 (abs_lookup _ _ _ Hi)); [done|].
  by rewrite Hk.
Qed.

(** The three events of a turn, one after the other. *)
Lemma replicate_events c i j si sj args n1 n2 reply :
  i ≠ j → cl_servers c !! i = Some si → cl_servers c !! j = Some sj →
  j ∈ peers (sv_node si) → id (sv_node si) = i →
  replicate_prepare j (sv_node si) = Ret (ReplSend args) →
  HandleAppendEntries args (sv_node sj) = Ret (n2, reply) →
  fst <$> replicate_reply j (ae_Term args) (ae_Entries args) reply (sv_node si) = Ret n1 →
  ∃ c', run (replicate_round i j (length (cl_net c))) c = Some (Ret c') ∧
    cl_servers c' !! i = Some (set_node n1 si) ∧ cl_servers c' !! j = Some (set_node n2 sj) ∧ only_moved i j c c'.
Proof.
  intros Hij Hi Hj Hjp Hid Hprep Happ Hrep. assert (Hset : set_node (sv_node si) si = si) by (by destruct si).
  cbn [run replicate_round exec].
  rewrite (at_server_Ret i (on_replicate j) c si si [AppReq i j false args] Hi).
  2: { unfold on_replicate. rewrite bool_decide_eq_true_2, Hprep, Hid by done.
       erewrite react_Ret; [by rewrite Hset|done]. }
  cbn [cl_net cl_servers]. rewrite lookup_app_r, Nat.sub_diag by lia. cbn [lookup list_lookup].
  rewrite (at_server_Ret j _ _ sj (set_node n2 sj) [AppRep i j false args reply]).
  2: { cbn [cl_servers]. by rewrite lookup_insert_ne. }
  2: { unfold on_append_request. apply react_Ret. by rewrite Happ. }
  cbn [cl_net cl_servers].
  rewrite lookup_app_r, length_app by (rewrite length_app; simpl; lia). replace (S _ - _) with 0 by (simpl; lia).
  cbn [lookup list_lookup].
  rewrite (at_server_Ret i _ _ si (set_node n1 si) []).
  2: { cbn [cl_servers]. by rewrite lookup_insert_ne, lookup_insert_eq. }
  2: { unfold on_append_reply. apply react_Ret. by rewrite Hrep. }
  eexists. split; [reflexivity|]. cbn [cl_servers].
  split_and!; [apply lookup_insert_eq|by rewrite lookup_insert_ne, lookup_insert_eq by done|].
  intros p Hpi Hpj. cbn [cl_servers]. by rewrite !lookup_insert_ne by done.
Qed.

(** One turn, when there is something to send. *)
Lemma replicate_progress n c g i j si sj :
  paced n c g → (N.of_nat n + 5 < event_limit)%N →
  cl_servers c !! i = Some si → cl_servers c !! j = Some sj →
  state (sv_node si) = Leader → j ∈ peers (sv_node si) →
  (currentTerm (sv_node sj) <= currentTerm (sv_node si))%N →
  (map_get 0 (nextIndex (sv_node si)) j < N.of_nat (length (entries (log (sv_node si)))))%N →
  ∃ c' g' si' sj', run (replicate_round i j (length (cl_net c))) c = Some (Ret c') ∧ paced (n + 3) c' g' ∧
    cl_servers c' !! i = Some si' ∧ cl_servers c' !! j = Some sj' ∧ only_moved i j c c' ∧ quiet si si' ∧
    progress j si sj si' sj'.
Proof using Hnodup Hnonempty.
  intros HP Hn Hi Hj Hlead Hjp Ht Hnx. pose proof HP as [HI _].
  assert (Hes : ae_Entries (next_args j (sv_node si)) ≠ []).
  { unfold next_args, p_args. cbn [ae_Entries core_of k_log k_next]. intros E%(f_equal length).
    rewrite length_drop in E. simpl in E. lia. }
  destruct (exchange_sections ids false _ _ _ _ _ _ _ HI ltac:(lia) Hi Hj Hlead Hjp ltac:(done))
    as (Hij & Hidi & Hli & Hbi & Hnext & n1 & n2 & reply & Happ & Hrep & Hq1 & Hc2 & Hc1).
  destruct (replicate_events c i j si sj (next_args j (sv_node si)) n1 n2 reply) as (c' & Hrun & Hi' & Hj' & Hm); try done.
  { rewrite replicate_prepare_refines by done. cbv zeta. fold (next_args j (sv_node si)).
    by destruct (ae_Entries (next_args j (sv_node si))). }
  destruct (paced_on n c g (replicate_round i j (length (cl_net c))) c' HP) as [g' HP']; [by repeat constructor|simpl; lia|done|].
  exists c', g', (set_node n1 si), (set_node n2 sj). do 6 (split; [done|]). by apply (exchanged ids n c g i j).
Qed.

(** Turns for [j], until it has the whole log of the leader. *)
Lemma push_one x n c g i j si :
  paced n c g → (N.of_nat n + 3 * N.of_nat x + 2 < event_limit)%N →
  cl_servers c !! i = Some si → state (sv_node si) = Leader → j ∈ peers (sv_node si) →
  follows c (currentTerm (sv_node si)) j →
  N.to_nat (map_get 0%N (nextIndex (sv_node si)) j) <= x →
  (map_get 0 (nextIndex (sv_node si)) j < N.of_nat (length (entries (log (sv_node si)))))%N →
  last_term (entries (log (sv_node si))) = currentTerm (sv_node si) →
  ∃ evs c' g' si', Forall (replicating i) evs ∧ length evs <= 3 * x ∧ run evs c = Some (Ret c') ∧
    paced (n + length evs) c' g' ∧ cl_servers c' !! i = Some si' ∧ only_moved i j c c' ∧ quiet si si' ∧
    leader_frame j (core_of (sv_node si)) (core_of (sv_node si')) ∧
    (last_index (entries (log (sv_node si))) <= map_get 0 (k_match (core_of (sv_node si'))) j)%N ∧
    commits_last (core_of (sv_node si')).
Proof using Hnodup Hnonempty.
  revert n c g si. induction x as [|x IH]; intros n c g si HP Hn Hi Hlead Hjp (sj & Hj & Ht) Hx Hnx Hlast.
  { pose proof (reached_next ids _ _ _ _ _ _ (proj1 HP) Hi Hlead Hjp). lia. }
  destruct (replicate_progress n c g i j si sj HP ltac:(lia) Hi Hj Hlead Hjp Ht Hnx)
    as (c1 & g1 & s1 & t1 & Hr1 & HP1 & Hi1 & Hj1 & Hm1 & Hq1 & (Hf1 & Ht1 & Hp1)).
  destruct (leader_frame_view _ _ _ Hf1) as (Hp & Htm & Hlog & Hst).
  assert (Hround : Forall (replicating i) (replicate_round i j (length (cl_net c)))) by by repeat constructor.
  destruct Hp1 as [[_ Hk]|(_ & Hlt & _)].
  - specialize (Hk Hnx). exists (replicate_round i j (length (cl_net c))), c1, g1, s1.
    do 8 (split; [done || (simpl; lia)|]). cbn [core_of k_log] in Hk. split.
    + rewrite Hk. destruct (p_success_records j (last_index (entries (log (sv_node si)))) (core_of (sv_node si))) as (_ & -> & _). lia.
    + eapply pushed_commits; [exact (proj1 HP1)|exact Hi1|congruence|exact Hk|exact Hlog|exact Hlast|lia].
  - cbn [core_of k_next] in Hlt.
    destruct (IH (n + 3) c1 g1 s1 HP1 ltac:(lia) Hi1 ltac:(congruence)) as (evs & c' & g' & s' & Hev & Hlen & Hr' & HP' & Hi' & Hm' & Hq' & Hf' & Hmt & Hc');
      rewrite ?Hp, ?Htm, ?Hlog; try done; [by exists t1|lia|lia|].
    exists (replicate_round i j (length (cl_net c)) ++ evs), c', g', s'. rewrite Hlog in Hmt. rewrite length_app.
    split; [by apply Forall_app|]. split; [simpl; lia|]. split; [by rewrite (run_app_Ret _ _ _ _ Hr1)|].
    split; [by rewrite Nat.add_assoc|]. split_and!; try done.
    + by eapply only_moved_trans.
    + destruct Hq1 as (? & ? & ?), Hq' as (? & ? & ?). split_and!; congruence.
    + by eapply leader_frame_trans.
Qed.

(** The same for a group. *)
Lemma push_group js n c g i si :
  paced n c g → (N.of_nat n + 3 * round_cost (nextIndex (sv_node si)) js + 2 < event_limit)%N →
  cl_servers c !! i = Some si → state (sv_node si) = Leader →
  NoDup js → js ⊆ peers (sv_node si) → i ∉ js →
  (∀ j, j ∈ js → follows c (currentTerm (sv_node si)) j ∧
     (map_get 0 (nextIndex (sv_node si)) j < N.of_nat (length (entries (log (sv_node si)))))%N) →
  last_term (entries (log (sv_node si))) = currentTerm (sv_node si) →
  js ≠ [] ∨ commits_last (core_of (sv_node si)) →
  ∃ evs c' g' si', Forall (replicating i) evs ∧ (N.of_nat (length evs) <= 3 * round_cost (nextIndex (sv_node si)) js)%N ∧
    run evs c = Some (Ret c') ∧ paced (n + length evs) c' g' ∧
    group_step i js c si c' si' ∧ commits_last (core_of (sv_node si')) ∧
    ∀ j, j ∈ js → (last_index (entries (log (sv_node si))) <= map_get 0 (k_match (core_of (sv_node si'))) j)%N.
Proof using Hnodup Hnonempty.
  revert n c g si. induction js as [|j js IH]; intros n c g si HP Hb Hi Hlead Hnd Hsub Hni Hfol Hlast Hcom.
  { exists [], c, g, si. destruct Hcom as [?|Hcom]; [done|]. split; [by constructor|]. split; [simpl; lia|].
    rewrite Nat.add_0_r. do 4 (split; [done|]). intros j Hj. by apply elem_of_nil in Hj. }
  apply NoDup_cons in Hnd as [Hjn Hnd]. apply not_elem_of_cons in Hni as [Hij Hni].
  cbn [round_cost foldr] in *. fold (round_cost (nextIndex (sv_node si)) js) in *.
  destruct (Hfol j ltac:(left)) as [Hj Hnx].
  destruct (push_one (N.to_nat (map_get 0%N (nextIndex (sv_node si)) j)) n c g i j si HP ltac:(lia) Hi Hlead (Hsub j ltac:(left)) Hj (Nat.le_refl _) Hnx Hlast)
    as (evs1 & c1 & g1 & s1 & Hev1 & Hlen1 & Hr1 & HP1 & Hi1 & Hm1 & Hq1 & Hf1 & Hmt & Hc1).
  destruct (leader_frame_view _ _ _ Hf1) as (Hp & Htm & Hlog & Hst).
  assert (Hcost : round_cost (nextIndex (sv_node s1)) js = round_cost (nextIndex (sv_node si)) js).
  { apply round_cost_ext. intros j' Hj'. apply Hf1. by intros ->. }
  destruct (IH (n + length evs1) c1 g1 s1) as (evs & c' & g' & s' & Hev & Hlen & Hr' & HP' & Hgr & Hc' & Hall);
    rewrite ?Hlog, ?Htm, ?Hp, ?Hcost; try done; [lia|congruence|set_solver| |by right|].
  { intros j' Hj'. destruct (Hfol j' ltac:(by right)) as [(s & Hs & ?) Hnx']. split.
    - exists s. by rewrite Hm1 by (by intros ->).
    - unfold map_get in *. pose proof (proj1 (proj2 Hf1 j' ltac:(by intros ->))) as E. cbn [core_of k_next] in E. by rewrite E. }
  rewrite Hcost in Hlen.
  exists (evs1 ++ evs), c', g', s'. rewrite length_app.
  split; [by apply Forall_app|]. split; [lia|]. split; [by rewrite (run_app_Ret _ _ _ _ Hr1)|].
  split; [by rewrite Nat.add_assoc|]. split_and!.
  - by eapply group_step_cons.
  - done.
  - intros j' [->|Hj']%elem_of_cons; [|rewrite <- Hlog; by apply Hall].
    unfold map_get in *. by rewrite (proj2 (gr_index _ _ _ _ _ _ Hgr j Hjn)).
Qed.
End commitment.

(** ** Application *)

Section application.
Context {W : Type} `{HStorage : Storage W} `{HRand : Rand}.
Implicit Types c : cluster W.
Implicit Types s : server W.

(** Server [i] goes from [s] to [s'] by internal events, which change neither
    its core nor any other server. *)
Definition applies (i : NodeID) c s c' s' : Prop :=
  ∃ evs, Forall (replicating i) evs ∧ run evs c = Some (Ret c') ∧ cl_servers c !! i = Some s ∧ cl_servers c' !! i = Some s' ∧
    core_of (sv_node s') = core_of (sv_node s) ∧ ∀ p, p ≠ i → cl_servers c' !! p = cl_servers c !! p.

Lemma applies_refl i c s : cl_servers c !! i = Some s → applies i c s c s.
Proof. intros Hs. exists []. split; [by constructor|]. by split_and!. Qed.

Lemma applies_trans i c s c1 s1 c2 s2 : applies i c s c1 s1 → applies i c1 s1 c2 s2 → applies i c s c2 s2.
Proof.
  intros (evs1 & Hi1 & Hr1 & Hs & _ & Hc1 & Ho1) (evs2 & Hi2 & Hr2 & _ & Hs2 & Hc2 & Ho2). exists (evs1 ++ evs2).
  split; [by apply Forall_app|]. split_and!; try done.
  - by rewrite (run_app_Ret _ _ _ _ Hr1).
  - congruence.
  - intros p Hp. by rewrite Ho2, Ho1.
Qed.

(** One step of the apply side of a server. *)
Lemma applies_step ev f i c s s' :
  (∀ c, exec ev c = at_server i f c) → replicating i ev →
  cl_servers c !! i = Some s → f s = Some (Ret (s', [])) → core_of (sv_node s') = core_of (sv_node s) →
  ∃ c', applies i c s c' s'.
Proof.
  intros Hev Hrep Hs Hf Hc. eexists. exists [ev]. split_and!.
  - by repeat constructor.
  - cbn [run]. rewrite Hev, (at_server_Ret i f c s s' [] Hs Hf). reflexivity.
  - done.
  - apply lookup_insert_eq.
  - done.
  - intros p Hp. cbn [cl_servers]. by apply lookup_insert_ne.
Qed.

Lemma consume_all c i s :
  cl_servers c !! i = Some s →
  ∃ c' s', applies i c s c' s' ∧ applyCh (sv_node s') = [] ∧ sv_applier s' = sv_applier s ∧
    lastApplied (sv_node s') = lastApplied (sv_node s).
Proof.
  remember (applyCh (sv_node s)) as es eqn:Hes. revert c s Hes. induction es as [|e es IH]; intros c s Hes Hs.
  { exists c, s. split_and!; try done. by apply applies_refl. }
  set (s1 := mkServer (set_applyCh es (sv_node s)) (sv_applier s) (sv_consumed s ++ [e])).
  destruct (applies_step (EvConsume i) on_consume i c s s1) as [c1 H1]; try done.
  { unfold on_consume. by rewrite <- Hes. }
  pose proof H1 as (_ & _ & _ & _ & Hs1 & _).
  destruct (IH c1 s1 eq_refl Hs1) as (c' & s' & H' & ? & ? & ?). exists c', s'. split_and!; try done.
  by eapply applies_trans.
Qed.

Lemma send_all es new c i s :
  cl_servers c !! i = Some s → sv_applier s = Some (es, new) → applyCh (sv_node s) = [] →
  ∃ c' s', applies i c s c' s' ∧ sv_applier s' = None ∧ lastApplied (sv_node s') = new.
Proof.
  revert c s. induction es as [|e es IH]; intros c s Hs Ha Hch.
  - destruct (applies_step (EvApplyFinish i) on_apply_finish i c s
      (mkServer (apply_finish new (sv_node s)) None (sv_consumed s))) as [c1 H1]; try done.
    { unfold on_apply_finish. by rewrite Ha. }
    by exists c1, (mkServer (apply_finish new (sv_node s)) None (sv_consumed s)).
  - set (s1 := mkServer (set_applyCh [e] (sv_node s)) (Some (es, new)) (sv_consumed s)).
    destruct (applies_step (EvApplySend i) on_apply_send i c s s1) as [c1 H1]; try done.
    { unfold on_apply_send, apply_send. by rewrite Ha, Hch. }
    pose proof H1 as (_ & _ & _ & _ & Hs1 & _).
    destruct (consume_all c1 i s1 Hs1) as (c2 & s2 & H2 & Hch2 & Ha2 & _).
    pose proof H2 as (_ & _ & _ & _ & Hs2 & _).
    destruct (IH c2 s2 Hs2 Ha2 Hch2) as (c' & s' & H' & ? & ?). exists c', s'. split_and!; try done.
    eapply applies_trans; [exact H1|]. by eapply applies_trans.
Qed.

(** The apply loop and the consumer of a server catch up with its commit
    index. *)
Lemma apply_catches_up c i s :
  cl_servers c !! i = Some s → apply_inv s → log_shape (log (sv_node s)) → (commitIndex (sv_node s) + 1 < two63)%N →
  ∃ c' s', applies i c s c' s' ∧ lastApplied (sv_node s') = commitIndex (sv_node s).
Proof.
  intros Hs (_ & Hla & Ht) Hl Hb. unfold target in *.
  assert (H1 : ∃ c1 s1, applies i c s c1 s1 ∧ applyCh (sv_node s1) = [] ∧ sv_applier s1 = None ∧
                 (lastApplied (sv_node s1) <= commitIndex (sv_node s))%N).
  { destruct (consume_all c i s Hs) as (c1 & s1 & H1 & Hch1 & Ha1 & Hla1). pose proof H1 as (_ & _ & _ & _ & Hs1 & _).
    destruct (sv_applier s) as [[es new]|] eqn:Ha; [|exists c1, s1; split_and!; try done; lia].
    destruct (send_all es new c1 i s1 Hs1 Ha1 Hch1) as (c2 & s2 & H2 & Ha2 & Hla2). pose proof H2 as (_ & _ & _ & _ & Hs2 & _).
    destruct (consume_all c2 i s2 Hs2) as (c3 & s3 & H3 & Hch3 & Ha3 & Hla3). exists c3, s3.
    split_and!; [|done|congruence|rewrite Hla3, Hla2; done].
    eapply applies_trans; [exact H1|]. by eapply applies_trans. }
  destruct H1 as (c1 & s1 & H1 & Hch & Ha & Hle). pose proof H1 as (_ & _ & _ & _ & Hs1 & Hcore & _).
  injection Hcore as Hid Hp Htm Hv Hlog Hst Hc Hnx Hm Hvs Hr.
  destruct (N.eq_dec (lastApplied (sv_node s1)) (commitIndex (sv_node s))) as [Heq|Hne]; [by exists c1, s1|].
  assert (Hcol : ∃ es, apply_collect (sv_node s1) = Ret (Some (es, commitIndex (sv_node s)))).
  { unfold apply_collect. rewrite Hc, (proj2 (N.leb_gt _ _)) by lia.
    rewrite u64_add_small by (unfold two63, two64 in *; lia).
    rewrite Entries_spec; [by eexists|unfold log_shape; by rewrite Hlog|lia..]. }
  destruct Hcol as [es Hcol].
  destruct (applies_step (EvApplyCollect i) on_apply_collect i c1 s1
    (mkServer (sv_node s1) (Some (es, commitIndex (sv_node s))) (sv_consumed s1))) as [c2 H2]; try done.
  { unfold on_apply_collect. by rewrite Ha, Hcol. }
  pose proof H2 as (_ & _ & _ & _ & Hs2 & _).
  destruct (send_all es (commitIndex (sv_node s)) c2 i _ Hs2 eq_refl Hch) as (c3 & s3 & H3 & _ & ?).
  exists c3, s3. split; [|done]. eapply applies_trans; [exact H1|]. by eapply applies_trans.
Qed.
End application.

(** ** A command from its submission to its acknowledgement *)

Section availability.
Context {W : Type} `{HStorage : Storage W} `{HRand : Rand}.
Context (ids : list NodeID) (Hnodup : NoDup ids) (Hnonempty : "" ∉ ids).
Implicit Types c : cluster W.

Abbreviation paced n c g := (run_inv False no_spec any_command ids n c g ∧ paced_inv ids (abs c, g)).

(** The submission of a command at a leader whose storage takes the entry. *)
Lemma submit_runs n c g i si cmd :
  paced n c g → (N.of_nat n + 2 < event_limit)%N → cl_servers c !! i = Some si → state (sv_node si) = Leader →
  let index := (LastIndex (log (sv_node si)) + 1)%N in
  let term := currentTerm (sv_node si) in
  (∀ x, wal (sv_node si) = Some x → (PersistEntry x index term cmd).2 = None) →
  ∃ n', submit_append cmd (sv_node si) = (n', inl (index, term)) ∧
  ∃ c' g', run [EvSubmit i cmd] c = Some (Ret c') ∧ paced (n + 1) c' g' ∧ cl_servers c' !! i = Some (set_node n' si) ∧
    core_of n' = p_submit cmd (core_of (sv_node si)) ∧
    entries (log n') = entries (log (sv_node si)) ++ [mkEntry term index cmd] ∧
    ∀ p, p ≠ i → cl_servers c' !! p = cl_servers c !! p.
Proof using Hnodup Hnonempty.
  intros HP Hn Hi Hlead index term Hst. destruct (reached_ok ids _ _ _ _ _ (proj1 HP) Hn Hi) as (Hok & _).
  pose proof (server_ok_shape _ _ _ _ Hok) as Hl. pose proof (LastIndex_eq _ Hl) as Hlast.
  destruct (submit_refines cmd (sv_node si) Hl Hlead) as [Hc _].
  assert (Hidx : (LastIndex (log (sv_node si)) +64 1)%N = index).
  { apply u64_add_small. destruct Hl. unfold two63, two64 in *. lia. }
  assert (Hsub : (submit_append cmd (sv_node si)).2 = inl (index, term)).
  { unfold submit_append. rewrite Hlead, Hidx. cbn [negb bool_decide]. cbv zeta. rewrite bool_decide_eq_true_2 by done.
    cbn [negb set_log wal e_Index e_Term e_Command]. destruct (wal (sv_node si)) as [x|]; [|done].
    specialize (Hst x eq_refl). fold term. by destruct (PersistEntry x index term cmd) as [x' [msg|]]. }
  destruct (submit_append cmd (sv_node si)) as [n' res] eqn:E. cbn [fst snd] in *. subst res. exists n'. split; [done|].
  assert (Hr : run [EvSubmit i cmd] c = Some (Ret (mkCluster (<[i := set_node n' si]> (cl_servers c)) (cl_net c ++ [])))).
  { cbn [run exec]. rewrite (at_server_Ret i (on_submit cmd) c si (set_node n' si) []); [done..|]. unfold on_submit. by rewrite E. }
  destruct (paced_on ids Hnodup Hnonempty n c g [EvSubmit i cmd] _ HP ltac:(by repeat constructor) ltac:(simpl; lia) Hr) as (g1 & HP1).
  eexists _, g1. split; [exact Hr|]. split; [done|]. split; [apply lookup_insert_eq|]. split; [done|]. split.
  - apply (f_equal k_log) in Hc. cbn [core_of k_log p_submit p_set_log k_term] in Hc. rewrite Hc.
    unfold last_index. by rewrite <- Hlast.
  - intros p Hp. by apply lookup_insert_ne.
Qed.

(** Up to the commitment: the command is appended and sent to [js]. *)
Lemma command_commits n c g i si js cmd :
  paced n c g → cl_servers c !! i = Some si → state (sv_node si) = Leader →
  NoDup js → js ≠ [] → js ⊆ peers (sv_node si) → length (peers (sv_node si)) + 1 < 2 * (1 + length js) →
  (∀ j, j ∈ js → follows c (currentTerm (sv_node si)) j) →
  (N.of_nat n + 3 * round_cost (nextIndex (sv_node si)) js + 5 < event_limit)%N →
  let index := (LastIndex (log (sv_node si)) + 1)%N in
  let term := currentTerm (sv_node si) in
  (∀ x, wal (sv_node si) = Some x → (PersistEntry x index term cmd).2 = None) →
  ∃ n1, submit_append cmd (sv_node si) = (n1, inl (index, term)) ∧
  ∃ evs c' n' g' si', Forall (replicating i) evs ∧
    run (EvSubmit i cmd :: evs) c = Some (Ret c') ∧ cl_servers c' !! i = Some si' ∧
    paced n' c' g' ∧ (N.of_nat n' + 2 < event_limit)%N ∧
    state (sv_node si') = Leader ∧ currentTerm (sv_node si') = term ∧
    entries (log (sv_node si')) = entries (log (sv_node si)) ++ [mkEntry term index cmd] ∧
    (index <= commitIndex (sv_node si'))%N.
Proof using Hnodup Hnonempty.
  intros HP Hi Hlead Hnd Hne Hsub Hmaj Hfol Hb index term Hst.
  destruct (reached_ok ids _ _ _ _ _ (proj1 HP) ltac:(lia) Hi) as (Hok & _ & Hpi).
  pose proof (server_ok_shape _ _ _ _ Hok) as Hl. pose proof (LastIndex_eq _ Hl) as Hlast.
  assert (Hother : ∀ j, j ∈ js → j ≠ i).
  { intros j Hj%Hsub. rewrite Hpi in Hj. by apply list_elem_of_filter in Hj as [? _]. }
  destruct (submit_runs _ c g i si cmd HP ltac:(lia) Hi Hlead Hst)
    as (n1 & Happ & c1 & g1 & Hr1 & HP1 & Hi1 & Hcore & Hlog & Ho). exists n1. split; [done|].
  injection Hcore as _ Hp1 Ht1 _ _ Hst1 _ Hn1 _ _ _.
  destruct (push_group ids Hnodup Hnonempty js _ c1 g1 i (set_node n1 si) HP1) as (evs & c2 & g2 & s2 & Hev & Hlen & Hr2 & HP2 & Hgr & Hcom & Hmatch);
    cbn [set_node sv_node]; rewrite ?Hp1, ?Ht1, ?Hn1; try done; [lia|congruence|by intros Hin; apply (Hother i Hin)| | |by left|].
  { intros j Hj. split.
    - destruct (Hfol j Hj) as (sj & Hsj & ?). exists sj. by rewrite Ho by auto.
    - pose proof (leader_next_within ids _ i _ j (proj2 HP) (abs_lookup _ _ _ Hi) Hlead (Hsub j Hj)) as Hw.
      unfold next_within in Hw. cbn [core_of k_next k_log] in Hw. rewrite Hlog, length_app. simpl. lia. }
  { rewrite Hlog. unfold last_term, tm. rewrite length_app, lookup_app_r by (simpl; lia). by replace (_ + _ - 1 - _) with 0 by (simpl; lia). }
  destruct (same_view _ _ (gr_same _ _ _ _ _ _ Hgr)) as (Hp2 & Ht2 & Hlog2 & Hst2). cbn [set_node sv_node] in *.
  rewrite Hlog in Hlog2, Hmatch. rewrite Hn1 in Hlen. fold index term in Hlog2, Hmatch.
  assert (Hli : last_index (entries (log (sv_node si)) ++ [mkEntry term index cmd]) = index).
  { unfold last_index, index. rewrite length_app. simpl. destruct Hl. lia. }
  exists evs, c2, (n + 1 + length evs), g2, s2. split; [done|]. split; [|split; [by apply Hgr|]; split; [exact HP2|]; split_and!; [lia|congruence|unfold term; congruence|done|]].
  - change (EvSubmit i cmd :: ?l) with ([EvSubmit i cmd] ++ l). by rewrite (run_app_Ret _ _ _ _ Hr1).
  - unfold commits_last in Hcom. cbn [core_of k_log k_commit] in Hcom. rewrite Hlog2, Hli in Hcom.
    apply Hcom, (majority_of js); cbn [core_of k_peers]; rewrite ?Hp2, ?Hp1; try done.
    rewrite <- Hli. exact Hmatch.
Qed.

(** C13: A majority commits.  In any state that an execution with intact restarts
    reaches, let [i] lead, let [js] be peers that are a majority together with it
    and whose terms are not higher, and let the storage of [i], if any, take the
    entry of the command.  Then [SubmitCommand] appends the command at the next
    index; and the replication goroutines for [js], whose requests and replies
    get through, the apply loop and the consumer of [i] alone, without
    heartbeats, elections or restarts, can bring it to a state in which the
    command is committed and applied, so that the waiting loop reports
    success. *)
Theorem majority_commits (w : NodeID → option W) evs c i si js cmd :
  intact_run evs (init_cluster ids w) → run evs (init_cluster ids w) = Some (Ret c) →
  cl_servers c !! i = Some si → IsLeader (sv_node si) = true →
  NoDup js → js ≠ [] → js ⊆ peers (sv_node si) → length (peers (sv_node si)) + 1 < 2 * (1 + length js) →
  (∀ j, j ∈ js → follows c (currentTerm (sv_node si)) j) →
  (N.of_nat (length evs) + 3 * round_cost (nextIndex (sv_node si)) js + 5 < event_limit)%N →
  let index := (LastIndex (log (sv_node si)) + 1)%N in
  let term := currentTerm (sv_node si) in
  (∀ x, wal (sv_node si) = Some x → (PersistEntry x index term cmd).2 = None) →
  (∃ n', submit_append cmd (sv_node si) = (n', inl (index, term))) ∧
  ∃ evs' c' si', Forall (replicating i) evs' ∧
    run (EvSubmit i cmd :: evs') c = Some (Ret c') ∧ cl_servers c' !! i = Some si' ∧
    entries (log (sv_node si')) = entries (log (sv_node si)) ++ [mkEntry term index cmd] ∧
    (index <= commitIndex (sv_node si'))%N ∧
    submit_poll index term (sv_node si') = Some (inl (index, term)).
Proof using Hnodup Hnonempty.
  intros Hint Hr Hi Hlead%bool_decide_eq_true_1 Hnd Hne Hsub Hmaj Hfol Hb index term Hst.
  destruct (reach_paced ids Hnodup Hnonempty w evs c Hint ltac:(lia) Hr) as [g HP].
  destruct (command_commits _ c g i si js cmd HP Hi Hlead Hnd Hne Hsub Hmaj Hfol Hb Hst)
    as (n1 & Happ & evs3 & c3 & n3 & g3 & s3 & Hint3 & Hr3 & Hi3 & [HI3 _] & Hn3 & Hst3 & Ht3 & Hlog3 & Hcommit).
  split; [by exists n1|]. destruct (reached_ok ids _ _ _ _ _ HI3 Hn3 Hi3) as (Hok3 & _).
  destruct (apply_catches_up c3 i s3 Hi3) as (c4 & s4 & (evs4 & Hint4 & Hr4 & _ & Hs4 & Hcore4 & _) & Hla4).
  { exact (ru_apply _ _ _ _ _ _ _ HI3 _ _ Hi3). }
  { by eapply server_ok_shape. }
  { destruct Hok3 as ((_ & _ & Hc & _) & _). cbn [core_of k_commit] in Hc. unfold log_limit, two63 in *. lia. }
  injection Hcore4 as Hid4 Hp4 Ht4 Hv4 Hlog4 Hst4 Hc4 Hnx4 Hm4 Hvs4 Hre4.
  exists (evs3 ++ evs4), c4, s4. split; [by apply Forall_app|]. split_and!.
  - rewrite app_comm_cons. by rewrite (run_app_Ret _ _ _ _ Hr3).
  - done.
  - by rewrite Hlog4.
  - by rewrite Hc4.
  - unfold submit_poll. rewrite Hst4, Hst3, Ht4, Ht3, N.eqb_refl, Hla4. apply N.leb_le in Hcommit. fold index term in Hcommit. cbn [negb orb]. by rewrite Hcommit.
Qed.
End availability.

(** ** A concrete cluster *)
Module LivenessDemo.
#[local] Existing Instance Demo.constant_rand.

Definition a : server Journal := Demo.server_of "a" Demo.start.

Lemma majority_elects_witness :
  ∃ c' sa', run (election_events "a" 2 0 [0]) Demo.start = Some (Ret c') ∧
    cl_servers c' !! "a" = Some sa' ∧ IsLeader (sv_node sa') = true ∧
    currentTerm (sv_node sa') = (currentTerm (sv_node a) + 1)%N ∧
    entries (log (sv_node sa')) = entries (log (sv_node a)).
Proof.
  apply (majority_elects Demo.ids Demo.ids_nodup Demo.ids_nonempty Demo.wals [] Demo.start "a" a [0] ["b"] 0%N);
    [constructor|by_compute|by_compute|by_compute|repeat constructor|decided|done|vm_compute; lia|by_compute|].
  intros j ->%list_elem_of_singleton. exists (Demo.server_of "b" Demo.start).
  split_and!; [by_compute|vm_compute; discriminate|by_compute].
Defined.

(** [b] leads term 2 and [c] lacks its entry. *)
Definition b : server Journal := Demo.server_of "b" Demo.reelected.

Lemma majority_commits_witness :
  round_cost (nextIndex (sv_node b)) ["c"] = 2%N ∧
  (∃ n', submit_append Demo.cmd (sv_node b) = (n', inl (2%N, 2%N))) ∧
  ∃ evs' c' sb', Forall (replicating "b") evs' ∧
    run (EvSubmit "b" Demo.cmd :: evs') Demo.reelected = Some (Ret c') ∧ cl_servers c' !! "b" = Some sb' ∧
    entries (log (sv_node sb')) = entries (log (sv_node b)) ++ [mkEntry 2 2 Demo.cmd] ∧
    (2 <= commitIndex (sv_node sb'))%N ∧ submit_poll 2 2 (sv_node sb') = Some (inl (2%N, 2%N)).
Proof.
  split; [by_compute|].
  apply (majority_commits Demo.ids Demo.ids_nodup Demo.ids_nonempty Demo.wals (Demo.applying ++ Demo.reelect)
    Demo.reelected "b" b ["c"] Demo.cmd);
    [decided|by_compute|by_compute|by_compute|decided|done|decided|vm_compute; lia| |by_compute|done].
  intros j ->%list_elem_of_singleton. exists (Demo.server_of "c" Demo.reelected).
  split; [by_compute|vm_compute; discriminate].
Defined.
End LivenessDemo.
