(* ===== verification/Abstraction.v ===== *)
(** Abstract specifications that the cluster implements: one append-only log,
    and the transition system of Protocol.v; and where the entries of the logs
    come from. *)

From S2P Require Import Prelude Types RaftLog Storage Node Replication Cluster.
From S2P Require Import Protocol Refinement Ghost ElectionSafety LogFacts LogSafety Bounds Simulation Safety Guarantees.
Import RLog.

(** ** One append-only log

    Clients of the cluster see one log that only grows: the longest sequence of
    entries that some server has known to be committed. *)

Definition longer (a b : list LogEntry) : list LogEntry := if length b <? length a then a else b.
Definition longest (l : list (list LogEntry)) : list LogEntry := foldr longer [] l.

Lemma longest_in l : longest l = [] ∨ longest l ∈ l.
Proof.
  induction l as [|a l IH]; [by left|]. cbn [longest foldr]. fold (longest l). unfold longer.
  destruct (_ <? _); [right; left|]. destruct IH as [->|?]; [by left|right; by right].
Qed.

Lemma longest_upper l a :
  (∀ b b', b ∈ l → b' ∈ l → compat b b') → a ∈ l → a `prefix_of` longest l.
Proof.
  revert a. induction l as [|x l IH]; intros a Hall Ha; [by apply elem_of_nil in Ha|].
  assert (Hl : ∀ b, b ∈ l → b `prefix_of` longest l) by (intros b Hb; apply IH; [intros ????; apply Hall; by right|done]).
  cbn [longest foldr]. fold (longest l). unfold longer.
  assert (Hx : compat x (longest l)).
  { destruct (longest_in l) as [->|Hin]; [right; apply prefix_nil|]. apply Hall; [left|by right]. }
  destruct (Nat.ltb_spec (length (longest l)) (length x)) as [Hlt|Hge].
  - assert (Hp : longest l `prefix_of` x) by (destruct Hx as [Hx|]; [apply prefix_length in Hx; lia|done]).
    apply elem_of_cons in Ha as [->|Ha]; [done|]. etrans; [by apply Hl|done].
  - assert (Hp : x `prefix_of` longest l).
    { destruct Hx as [|Hx]; [done|]. by rewrite (prefix_length_eq _ _ Hx) by done. }
    apply elem_of_cons in Ha as [->|Ha]; [done|by apply Hl].
Qed.

Section decided.
Context {W : Type} `{HStorage : Storage W} `{HRand : Rand}.
Context (ids : list NodeID) (Hnodup : NoDup ids) (Hnonempty : "" ∉ ids).
Implicit Types c : cluster W.

(** What a server knows to be committed, without the sentinel. *)
Definition committed_entries (s : server W) : list LogEntry :=
  take (N.to_nat (commitIndex (sv_node s))) (drop 1 (entries (log (sv_node s)))).

(** The states of an execution, and the longest committed sequence in them. *)
Fixpoint visited (evs : list event) c : list (cluster W) :=
  c :: match evs with
       | [] => []
       | ev :: evs' => match exec ev c with Some (Ret c') => visited evs' c' | _ => [] end
       end.

Definition committed_at c : list (list LogEntry) := committed_entries <$> (map_to_list (cl_servers c)).*2.

Definition decided (evs : list event) c : list LogEntry := longest (visited evs c ≫= committed_at).

Lemma committed_entries_core s : committed_entries s = drop 1 (committed (core_of (sv_node s))).
Proof. unfold committed_entries, committed. by rewrite take_drop_commute. Qed.

Lemma committed_at_in c b :
  b ∈ committed_at c ↔ ∃ i s, cl_servers c !! i = Some s ∧ b = committed_entries s.
Proof.
  unfold committed_at. rewrite list_elem_of_fmap. split.
  - intros (s & -> & Hs). apply list_elem_of_fmap in Hs as ([i s'] & -> & Hin%elem_of_map_to_list). eauto.
  - intros (i & s & Hs & ->). exists s. split; [done|]. apply list_elem_of_fmap. exists (i, s).
    by rewrite elem_of_map_to_list.
Qed.

(** A visited state is the result of a prefix of the events, and the other way
    round. *)
Lemma visited_run evs c c' :
  c' ∈ visited evs c ↔ ∃ evs1, evs1 `prefix_of` evs ∧ run evs1 c = Some (Ret c').
Proof.
  revert c. induction evs as [|ev evs IH]; intros c; cbn [visited]; rewrite elem_of_cons; split.
  - intros [->|Hin%elem_of_nil]; [by exists []|done].
  - intros (evs1 & ->%prefix_nil_inv & [= <-]). by left.
  - intros [->|Hin]; [exists []; split; [apply prefix_nil|done]|].
    destruct (exec ev c) as [[c1|]|] eqn:Hx; [|by apply elem_of_nil in Hin..].
    apply IH in Hin as (evs1 & Hp & Hr). exists (ev :: evs1). split; [by apply prefix_cons|].
    cbn [run]. by rewrite Hx.
  - intros ([|ev1 evs1] & Hp & Hr); [injection Hr as <-; by left|right].
    apply prefix_cons_inv_1 in Hp as Hev. apply prefix_cons_inv_2 in Hp. subst ev1. cbn [run] in Hr.
    destruct (exec ev c) as [[c1|]|]; [|done..]. apply IH. by exists evs1.
Qed.

Lemma decided_in evs c b :
  b ∈ visited evs c ≫= committed_at ↔
  ∃ evs1 c1 i s, evs1 `prefix_of` evs ∧ run evs1 c = Some (Ret c1) ∧
    cl_servers c1 !! i = Some s ∧ b = committed_entries s.
Proof.
  rewrite list_elem_of_bind. split.
  - intros (c1 & (i & s & Hs & ->)%committed_at_in & (evs1 & Hp & Hr)%visited_run). by exists evs1, c1, i, s.
  - intros (evs1 & c1 & i & s & Hp & Hr & Hs & ->). exists c1.
    split; [apply committed_at_in; eauto|apply visited_run; eauto].
Qed.

(** What servers know to be committed in two states of an execution does not
    contradict. *)
Lemma visited_compat w evs evs1 evs2 c1 c2 i j si sj :
  intact_run evs (init_cluster ids w) → (N.of_nat (length evs) < event_limit)%N →
  evs1 `prefix_of` evs2 → evs2 `prefix_of` evs →
  run evs1 (init_cluster ids w) = Some (Ret c1) → run evs2 (init_cluster ids w) = Some (Ret c2) →
  cl_servers c1 !! i = Some si → cl_servers c2 !! j = Some sj →
  compat (committed_entries si) (committed_entries sj).
Proof using Hnodup Hnonempty.
  intros Hin Hlen [e1 ->] [e2 ->] Hr1 Hr2 Hi Hj. rewrite (run_app_Ret _ _ _ _ Hr1) in Hr2.
  assert (Hr12 : run (evs1 ++ e1) (init_cluster ids w) = Some (Ret c2)) by (by rewrite (run_app_Ret _ _ _ _ Hr1)).
  destruct (intact_run_app _ _ _ _ Hin Hr12) as [Hin' _]. rewrite length_app in Hlen.
  destruct (reach_two ids Hnodup Hnonempty w evs1 e1 c1 c2) as (g1 & g2 & n1 & n2 & HI1 & HI2 & Hs); [done|lia|done..|].
  rewrite !committed_entries_core.
  destruct (committed_compat ids Hnodup Hnonempty c1 c2 g1 g2 n1 n2 i j si sj) as [Hc|Hc]; [done..| |];
    [left|right]; by apply prefix_drop.
Qed.

(** Each committed sequence of the execution is a prefix of the decided log. *)
Lemma committed_decided w evs evs1 c1 i s :
  intact_run evs (init_cluster ids w) → (N.of_nat (length evs) < event_limit)%N →
  evs1 `prefix_of` evs → run evs1 (init_cluster ids w) = Some (Ret c1) →
  cl_servers c1 !! i = Some s → committed_entries s `prefix_of` decided evs (init_cluster ids w).
Proof using Hnodup Hnonempty.
  intros Hin Hlen Hp Hr Hs. apply longest_upper; [|apply decided_in; by exists evs1, c1, i, s].
  intros b b' (e1 & x1 & j & sj & Hp1 & Hr1 & Hj & ->)%decided_in (e2 & x2 & k & sk & Hp2 & Hr2 & Hk & ->)%decided_in.
  destruct (prefix_weak_total _ _ _ Hp1 Hp2).
  - by apply (visited_compat w evs e1 e2 x1 x2 j k).
  - destruct (visited_compat w evs e2 e1 x2 x1 k j sk sj); [done..|by right|by left].
Qed.

(** The decided log only grows. *)
Lemma decided_mono w evs evs1 :
  intact_run evs (init_cluster ids w) → (N.of_nat (length evs) < event_limit)%N → evs1 `prefix_of` evs →
  decided evs1 (init_cluster ids w) `prefix_of` decided evs (init_cluster ids w).
Proof using Hnodup Hnonempty.
  intros Hin Hlen Hpre. destruct (longest_in (visited evs1 (init_cluster ids w) ≫= committed_at)) as [Hnil|Hd].
  { unfold decided at 1. rewrite Hnil. apply prefix_nil. }
  apply decided_in in Hd as (e & x & i & s & Hp & Hr & Hs & Heq). unfold decided at 1. rewrite Heq.
  apply (committed_decided w evs e x i); try done. by etrans.
Qed.

(** What a consumer has taken at some point is a prefix of it. *)
Lemma consumed_decided w evs evs1 c1 i s :
  intact_run evs (init_cluster ids w) → (N.of_nat (length evs) < event_limit)%N →
  evs1 `prefix_of` evs → run evs1 (init_cluster ids w) = Some (Ret c1) →
  cl_servers c1 !! i = Some s → sv_consumed s `prefix_of` decided evs (init_cluster ids w).
Proof using Hnodup Hnonempty.
  intros Hin Hlen Hp Hr Hs. etrans; [|by apply (committed_decided w evs evs1 c1 i)].
  destruct Hp as [e ->]. destruct (intact_run_app _ _ _ _ Hin Hr) as [Hin1 _]. rewrite length_app in Hlen.
  destruct (reach ids Hnodup Hnonempty w evs1 c1 Hin1 ltac:(lia) Hr) as [g HI].
  rewrite committed_entries_core. apply consumed_committed, (ru_apply _ _ _ _ _ _ _ HI _ _ Hs).
Qed.

(** C11: The cluster is one log.  The log that an execution has decided (the
    longest sequence of entries that a server has known to be committed) starts
    empty and only grows, through crashes and elections; and what any server
    knows to be committed, and what any consumer has taken from [applyCh], are
    prefixes of it. *)
Theorem cluster_refines_log (w : NodeID → option W) evs1 evs2 c1 c2 :
  intact_run (evs1 ++ evs2) (init_cluster ids w) → (N.of_nat (length (evs1 ++ evs2)) < event_limit)%N →
  run evs1 (init_cluster ids w) = Some (Ret c1) → run evs2 c1 = Some (Ret c2) →
  decided [] (init_cluster ids w) = [] ∧
  decided evs1 (init_cluster ids w) `prefix_of` decided (evs1 ++ evs2) (init_cluster ids w) ∧
  ∀ i s, cl_servers c2 !! i = Some s →
    committed_entries s `prefix_of` decided (evs1 ++ evs2) (init_cluster ids w) ∧
    sv_consumed s `prefix_of` decided (evs1 ++ evs2) (init_cluster ids w).
Proof using Hnodup Hnonempty.
  intros Hin Hlen Hr1 Hr2.
  assert (Hr : run (evs1 ++ evs2) (init_cluster ids w) = Some (Ret c2)) by (by rewrite (run_app_Ret _ _ _ _ Hr1)).
  split_and!; [|by apply decided_mono; [..|apply prefix_app_r]|].
  - destruct (longest_in (visited [] (init_cluster ids w) ≫= committed_at)) as [|Hd]; [done|].
    apply decided_in in Hd as (e & x & i & s & ->%prefix_nil_inv & [= <-] & Hs & Heq). unfold decided. rewrite Heq.
    by rewrite (init_lookup ids w i s Hs).
  - intros i s Hs. split; [by apply (committed_decided w _ (evs1 ++ evs2) c2 i)|by apply (consumed_decided w _ (evs1 ++ evs2) c2 i)].
Qed.
End decided.

(** ** The protocol, and where entries come from *)

(** The commands that clients submit in an execution. *)
Definition submitted (evs : list event) (cmd : bytes) : Prop := ∃ i, EvSubmit i cmd ∈ evs.

Lemma gstep_pstep x y : gstep x y → pstep x.1 y.1.
Proof. intros []; [by eapply ps_trans|by eapply ps_restart]. Qed.

Lemma gsteps_psteps x y : rtc gstep x y → rtc pstep x.1 y.1.
Proof. induction 1; [done|]. by eapply rtc_l; [apply gstep_pstep|]. Qed.

Section protocol.
Context {W : Type} `{SS : StorageSpec W} `{HRand : Rand}.
Context (ids : list NodeID) (Hnodup : NoDup ids) (Hnonempty : "" ∉ ids).
Context (Hids : ∀ i, i ∈ ids → storable_id (W := W) i).
Implicit Types c : cluster W.
Implicit Types w : NodeID → option W.

Lemma restarts_reach w evs c :
  fresh_wal w → storable_events (W := W) evs → sized_run evs (init_cluster ids w) →
  run evs (init_cluster ids w) = Some (Ret c) →
  rtc pstep (p_init ids) (abs c) ∧ cluster_inv True (λ _, SS) (submitted evs) c.
Proof using Hnodup Hnonempty Hids.
  intros Hw%fresh_durable Hst HZ Hr.
  destruct (run_steps True (λ _, SS) (submitted evs) ids Hnodup Hnonempty (λ _, Hids) I evs _ _ (Ret c)
    (init_election ids Hnodup Hnonempty w) (cluster_inv_init _ _ _ ids Hnodup w Hw) HZ
    (λ x cmd Hin, conj (ex_intro _ x Hin) (λ d, Hst x cmd Hin)) Hr) as (? & g & [= <-] & Hsteps & _ & HC).
  split; [|done]. apply gsteps_psteps in Hsteps. by rewrite abs_init in Hsteps.
Qed.

(** C12: The cluster implements the protocol, step by step.  Take servers whose
    write-ahead logs are fresh and meet their specification (storage without
    faults), and an execution within the machine's bounds, restarts included.
    The state before each event is reached by the transition system of
    Protocol.v, whose states have no timers, contexts, apply queues or write-ahead
    logs and whose numbers do not wrap around; and the event does not panic and
    is one step of that system. *)
Theorem cluster_refines_protocol w evs ev c r :
  fresh_wal w → storable_events (W := W) (evs ++ [ev]) → sized_run (evs ++ [ev]) (init_cluster ids w) →
  run evs (init_cluster ids w) = Some (Ret c) → exec ev c = Some r →
  rtc pstep (p_init ids) (abs c) ∧ ∃ c', r = Ret c' ∧ pstep (abs c) (abs c').
Proof using Hnodup Hnonempty Hids.
  intros Hw%fresh_durable Hst HZ Hr Hx. destruct (sized_run_app _ _ _ _ HZ Hr) as [HZ1 (HZ2 & Hl & _)].
  destruct (run_steps True (λ _, SS) any_command ids Hnodup Hnonempty (λ _, Hids) I evs _ _ (Ret c)
    (init_election ids Hnodup Hnonempty w) (cluster_inv_init _ _ _ ids Hnodup w Hw) HZ1)
    as (? & g & [= <-] & Hsteps & HE & HC); [|done|].
  { intros x cmd Hin. split; [done|]. intros _. apply (Hst x), elem_of_app. by left. }
  split; [apply gsteps_psteps in Hsteps; by rewrite abs_init in Hsteps|].
  destruct (exec_step True (λ _, SS) any_command ids Hnonempty (λ _, Hids) I ev c g r HE HC HZ2 Hl)
    as (c' & g' & -> & Hg & _); [|done|].
  { intros x cmd ->. split; [done|]. intros _. apply (Hst x), elem_of_app. right. by left. }
  exists c'. split; [done|]. by apply gstep_pstep in Hg.
Qed.

(** C19: Nothing is made up.  For servers whose write-ahead logs are fresh and meet
    their specification (storage without faults), every entry of every log, in
    every execution with restarts within the bounds, carries a command that a client submitted, and
    a term and an index below the bounds. *)
Theorem entries_from_clients w evs c i s k e :
  fresh_wal w → storable_events (W := W) evs → sized_run evs (init_cluster ids w) →
  run evs (init_cluster ids w) = Some (Ret c) → cl_servers c !! i = Some s →
  entries (log (sv_node s)) !! S k = Some e →
  submitted evs (e_Command e) ∧ (e_Index e < log_limit)%N ∧ (e_Term e < two64)%N.
Proof using Hnodup Hnonempty Hids.
  intros Hw Hst HZ Hr Hs He. destruct (restarts_reach w evs c Hw Hst HZ Hr) as [_ [Hsm _]].
  destruct (sm_core _ _ _ _ Hsm _ _ (abs_lookup _ _ _ Hs)) as (_ & _ & _ & _ & _ & Hent).
  by destruct (Hent k e He) as (? & ? & [? _]).
Qed.
End protocol.

(** ** A concrete cluster *)
Module AbstractDemo.
#[local] Existing Instance Demo.constant_rand.

(** [a] and [b] restart after the entry was committed, and know of no committed
    entry then. *)
Lemma cluster_refines_log_witness :
  decided Demo.applying Demo.start = [mkEntry 1 1 Demo.cmd] ∧
  committed_entries (Demo.server_of "a" Demo.reelected) = [] ∧
  decided [] Demo.start = [] ∧
  decided Demo.applying Demo.start `prefix_of` decided (Demo.applying ++ Demo.reelect) Demo.start ∧
  ∀ i s, cl_servers Demo.reelected !! i = Some s →
    committed_entries s `prefix_of` decided (Demo.applying ++ Demo.reelect) Demo.start ∧
    sv_consumed s `prefix_of` decided (Demo.applying ++ Demo.reelect) Demo.start.
Proof.
  split; [by_compute|]. split; [by_compute|].
  apply (cluster_refines_log Demo.ids Demo.ids_nodup Demo.ids_nonempty Demo.wals Demo.applying Demo.reelect
    Demo.applied Demo.reelected); [decided|by_compute..].
Defined.

(** The execution in which [b] restarts. *)
Definition evs : list event := Demo.elect ++ Demo.after_restart.

(** The same up to the last event of [evs], a heartbeat. *)
Definition before : list event := Demo.elect ++ EvSubmit "a" Demo.cmd :: Demo.replicate ++ [EvRestart "b"; EvHeartbeats "a"].
Definition last_event : event := EvHeartbeatTask 5.
Definition before_last : cluster Journal := Demo.result (run before Demo.start).

Lemma cluster_refines_protocol_witness :
  rtc pstep (p_init Demo.ids) (abs before_last) ∧ ∃ c', Ret Demo.restarted = Ret c' ∧ pstep (abs before_last) (abs c').
Proof.
  apply (cluster_refines_protocol Demo.ids Demo.ids_nodup Demo.ids_nonempty Demo.ids_storable Demo.wals before last_event);
    [exact Demo.wals_fresh|done|decided|by_compute|by_compute].
Defined.

Lemma entries_from_clients_witness :
  submitted evs Demo.cmd ∧ (1 < log_limit)%N ∧ (1 < two64)%N.
Proof.
  apply (entries_from_clients Demo.ids Demo.ids_nodup Demo.ids_nonempty Demo.ids_storable Demo.wals evs
    Demo.restarted "b" (Demo.server_of "b" Demo.restarted) 0 (mkEntry 1 1 Demo.cmd));
    [exact Demo.wals_fresh|done|decided|by_compute..].
Defined.
End AbstractDemo.
