(* ===== verification/RunLoop.v ===== *)
(** The event loop of a node: [run] of src/internal/raft/node.go, with the
    timers it waits for.

    The loop is a state machine of its own beside the node's critical
    sections: it picks a timer channel according to the role it sees, blocks on
    that channel, and acts according to the role it sees when it wakes up.  An
    [rl_event] is one step of the loop, the expiry of a timer, or a critical
    section of another goroutine of the node, those that build the requests of a
    heartbeat or of the replication included; [rl_exec] runs it.

    The loop does not look at the role again while it is blocked, and a role
    change stops the timer of the old role, so the loop can be left waiting for
    a timer that nothing will start again.  The theorems at the end describe
    the two cases. *)

From S2P Require Import Prelude Types RaftLog Storage Node Replication.
Import RLog.

(** The channel of the election timer, or of the [k]-th heartbeat timer. *)
Inductive timer_ch : Type :=
| ElectionC
| HeartbeatC (k : nat).

(** Where the loop is. *)
Inductive loop : Type :=
| AtTop
| Waiting (ch : timer_ch)
| Woken
| Acting (role : State)
| Resetting
| Exited.

Inductive rl_event : Type :=
| RLTop
| RLTick
| RLStopSeen
| RLLook
| RLAct
| RLReset
| RLExpireElection
| RLExpireHeartbeat (k : nat)
| RLVoteRequest (args : RequestVoteArgs)
| RLVoteReply (p : NodeID) (term : Term) (reply : RequestVoteReply)
| RLAppendRequest (args : AppendEntriesArgs)
| RLHeartbeatReply (p : NodeID) (term : Term) (es : list LogEntry) (reply : AppendEntriesReply)
| RLReplicateReply (p : NodeID) (term : Term) (es : list LogEntry) (reply : AppendEntriesReply)
| RLHeartbeatTask (p : NodeID) (term : Term) (leader : NodeID) (commit : LogIndex)
| RLReplicate (p : NodeID)
| RLSubmit (command : bytes)
| RLApplied (newLastApplied : LogIndex)
| RLStop.

(** What the loop itself sends in a step. *)
Inductive rl_output : Type :=
| Nothing
| VoteRequests (args : RequestVoteArgs)
| Heartbeats (term : Term) (leader : NodeID) (commit : LogIndex).

Section loop.
Context {W : Type} `{Storage W} `{Rand}.
Implicit Types n : Node W.

(** The part of an iteration up to the blocking [select]; a nil channel means
    a sleep and another iteration. *)
Definition loop_top n : loop :=
  if stopped n then Exited
  else
    match state n with
    | Follower | Candidate =>
        match electionTimer n with Some _ => Waiting ElectionC | None => AtTop end
    | Leader =>
        match heartbeatTimer n with
        | [] => AtTop
        | ts => Waiting (HeartbeatC (length ts - 1))
        end
    end.

(** Receive from a timer channel: blocks ([None]) unless the timer has fired. *)
Definition receive (ch : timer_ch) n : option (Node W) :=
  match ch with
  | ElectionC =>
      match electionTimer n with
      | Some TFired => Some (n |> set_electionTimer (Some TStopped))
      | _ => None
      end
  | HeartbeatC k =>
      match heartbeatTimer n !! k with
      | Some TFired => Some (n |> set_heartbeatTimer (<[k := TStopped]> (heartbeatTimer n)))
      | _ => None
      end
  end.

(** A running timer expires. *)
Definition expire_election n : option (Node W) :=
  match electionTimer n with
  | Some (TRunning _) => Some (n |> set_electionTimer (Some TFired))
  | _ => None
  end.

Definition expire_heartbeat (k : nat) n : option (Node W) :=
  match heartbeatTimer n !! k with
  | Some (TRunning _) => Some (n |> set_heartbeatTimer (<[k := TFired]> (heartbeatTimer n)))
  | _ => None
  end.

Abbreviation rl_state := (Node W * loop)%type.

Definition keep (l : loop) (o : outcome (Node W)) : option (outcome (rl_state * rl_output)) :=
  Some (n ← o; Ret ((n, l), Nothing)).

Definition rl_exec (ev : rl_event) (s : rl_state) : option (outcome (rl_state * rl_output)) :=
  let (n, l) := s in
  match ev with
  | RLTop => match l with AtTop => Some (Ret ((n, loop_top n), Nothing)) | _ => None end
  | RLTick =>
      match l with
      | Waiting ch =>
          match receive ch n with Some n' => Some (Ret ((n', Woken), Nothing)) | None => None end
      | _ => None
      end
  | RLStopSeen =>
      match l with
      | Waiting _ => if stopped n then Some (Ret ((n, Exited), Nothing)) else None
      | _ => None
      end
  | RLLook => match l with Woken => Some (Ret ((n, Acting (state n)), Nothing)) | _ => None end
  | RLAct =>
      match l with
      | Acting Leader =>
          Some (Ret ((n, Resetting),
                     match sendHeartbeats n with
                     | Some (term, leader, commit) => Heartbeats term leader commit
                     | None => Nothing
                     end))
      | Acting _ => Some ('(n', args) ← startElection n; Ret ((n', AtTop), VoteRequests args))
      | _ => None
      end
  | RLReset => match l with Resetting => Some (Ret ((resetHeartbeatTimer n, AtTop), Nothing)) | _ => None end
  | RLExpireElection => match expire_election n with Some n' => keep l (Ret n') | None => None end
  | RLExpireHeartbeat k => match expire_heartbeat k n with Some n' => keep l (Ret n') | None => None end
  | RLVoteRequest args => keep l (fst <$> HandleRequestVote args n)
  | RLVoteReply p term reply => keep l (Ret (handleVoteReply p term reply n))
  | RLAppendRequest args => keep l (fst <$> HandleAppendEntries args n)
  | RLHeartbeatReply p term es reply => keep l (heartbeat_reply p term es reply n)
  | RLReplicateReply p term es reply => keep l (fst <$> replicate_reply p term es reply n)
  | RLHeartbeatTask p term leader commit => keep l (_ ← heartbeat_args p term leader commit n; Ret n)
  | RLReplicate p => keep l (_ ← replicate_prepare p n; Ret n)
  | RLSubmit command => keep l (Ret (submit_append command n).1)
  | RLApplied x => keep l (Ret (apply_finish x n))
  | RLStop => keep l (Stop n)
  end.

(** Run events; the outputs are collected in order. *)
Fixpoint rl_run (evs : list rl_event) (s : rl_state)
    : option (outcome (rl_state * list rl_output)) :=
  match evs with
  | [] => Some (Ret (s, []))
  | ev :: evs' =>
      match rl_exec ev s with
      | Some (Ret (s', o)) =>
          match rl_run evs' s' with
          | Some r => Some ('(s'', os) ← r; Ret (s'', o :: os))
          | None => None
          end
      | Some Panic => Some Panic
      | None => None
      end
  end.

(** ** What the critical sections do to the role and the timers *)

Definition view n : option timer * list timer * State * NodeID * NodeID * bool :=
  (electionTimer n, heartbeatTimer n, state n, votedFor n, id n, stopped n).

Lemma persist_view_rl r n : view (persist r n) = view n.
Proof. unfold persist. by destruct (wal n). Qed.

Lemma persist_entries_view es n : view (persist_entries es n) = view n.
Proof.
  revert n. induction es as [|e es IH]; intros n; [done|].
  unfold persist_entries in *. simpl. by rewrite IH, persist_view_rl.
Qed.

Lemma advance_view n n' : advanceCommitIndexLocked n = Ret n' → view n' = view n.
Proof.
  unfold advanceCommitIndexLocked. destruct (_ <=? _); [by intros [= <-]|].
  intros (x & _ & He)%bind_Ret. destruct (_ && _); [|by injection He as <-].
  apply bind_Ret in He as (t & _ & He). by destruct (_ =? _)%N; injection He as <-.
Qed.

Lemma record_success_view p es n n' : record_success p es n = Ret n' → view n' = view n.
Proof.
  unfold record_success. intros (e & _ & He)%bind_Ret. cbv zeta in He.
  rewrite (advance_view _ _ He). by repeat destruct (_ <? _)%N.
Qed.

Lemma handleConflict_view p reply n n' : handleConflictLocked p reply n = Ret n' → view n' = view n.
Proof.
  unfold handleConflictLocked. destruct (_ <? _)%N.
  - intros (x & _ & He)%bind_Ret. by destruct (_ <? _)%N; injection He as <-.
  - cbv zeta. by repeat destruct (_ <? _)%N; intros [= <-].
Qed.

Lemma submit_view command n : view (submit_append command n).1 = view n.
Proof.
  unfold submit_append. destruct (negb _); [done|]. cbv zeta. set (n1 := set_log _ n).
  assert (Hv : view n1 = view n) by done. clearbody n1. destruct (wal n1) as [w|]; [|done].
  by destruct (PersistEntry w _ _ _) as [w' [msg|]].
Qed.

(** Stopped timers of earlier leaderships stay stopped. *)
Definition dead_timer (k : nat) n : Prop := heartbeatTimer n !! k = Some TStopped.

Lemma stopHeartbeat_dead k n : dead_timer k n → dead_timer k (stopHeartbeatTimer n).
Proof.
  unfold dead_timer, stopHeartbeatTimer. simpl. intros Hk. rewrite list_lookup_insert.
  case_decide as Hd; [|done]. by destruct Hd.
Qed.

Lemma becomeFollower_dead k t n : dead_timer k n → dead_timer k (becomeFollowerLocked t n).
Proof.
  intros Hk. unfold becomeFollowerLocked. set (n1 := if (_ <? _)%N then _ else _).
  assert (Hn1 : dead_timer k n1).
  { unfold n1. case_match; [|done]. unfold persist. by case_match. }
  clearbody n1. cbv zeta. case_bool_decide; [|done].
  set (n2 := stopHeartbeatTimer _). assert (Hn2 : dead_timer k n2) by (by apply stopHeartbeat_dead).
  clearbody n2. unfold dead_timer, cancelReplication, cancelContext in *. by destruct (replicateCancel n2).
Qed.

Lemma becomeFollower_state t n : state (becomeFollowerLocked t n) = Follower.
Proof.
  unfold becomeFollowerLocked. set (n1 := if (_ <? _)%N then _ else _). clearbody n1. cbv zeta.
  case_bool_decide; [|done]. unfold cancelReplication, cancelContext. simpl. by destruct (replicateCancel n1).
Qed.

(** *** Every critical section of another goroutine *)

(** A node that is not a candidate does not become leader, and dead timers
    stay dead. *)
Definition calm (k : nat) n n' : Prop :=
  (dead_timer k n → dead_timer k n') ∧ (state n = Follower → state n' = Follower).

Lemma calm_view k n n' : view n' = view n → calm k n n'.
Proof. unfold view, calm, dead_timer. intros E. injection E as _ -> -> _ _ _. done. Qed.

Lemma calm_follower k t n : calm k n (becomeFollowerLocked t n).
Proof. split; [apply becomeFollower_dead|intros; apply becomeFollower_state]. Qed.

Lemma HandleRequestVote_calm k args n n' reply :
  HandleRequestVote args n = Ret (n', reply) → calm k n n'.
Proof.
  unfold HandleRequestVote. set (n1 := if (currentTerm n <? rv_Term args)%N then _ else _).
  assert (Hn1 : calm k n n1) by (unfold n1; case_match; [apply calm_follower|done]).
  clearbody n1. destruct (rv_Term args <? currentTerm n1)%N; [by intros [<- _]%Ret_pair_inj|].
  destruct (isLogUpToDate n1 _ _) as [ok|]; simpl; [|done].
  destruct (_ && ok); intros [<- _]%Ret_pair_inj; [|done].
  set (n2 := resetElectionTimerLocked _).
  assert (Hn2 : calm k n n2) by done. clearbody n2.
  set (r := VoteRecord _ _). destruct (calm_view k n2 _ (persist_view_rl r n2)), Hn2. split; auto.
Qed.

Lemma handleVoteReply_calm k p term reply n : calm k n (handleVoteReply p term reply n).
Proof.
  unfold handleVoteReply. case_bool_decide as Hc; [|rewrite orb_true_r; done].
  destruct (negb _); [done|]. simpl. destruct (_ <? _)%N; [apply calm_follower|].
  destruct (rvr_VoteGranted reply); [|done]. destruct (map_get _ _ p); [done|].
  case_match; [|done]. split; [|intros; congruence].
  unfold dead_timer, becomeLeaderLocked, stopElectionTimer, newHeartbeatTimer. simpl.
  destruct (electionTimer n); simpl; intros Hk; by rewrite lookup_app_l by (eapply lookup_lt_Some, Hk).
Qed.

Lemma append_loop_view prev i es n n' : append_entries_loop prev i es n = Ret n' → view n' = view n.
Proof.
  revert i. induction es as [|e es IH]; intros i; cbn [append_entries_loop]; [by intros [= <-]|].
  cbv zeta. destruct (Contains _ _).
  - intros (t & _ & He)%bind_Ret. destruct (negb _); [|by eapply IH].
    apply bind_Ret in He as (l & _ & [= <-]). by rewrite persist_entries_view.
  - intros [= <-]. by rewrite persist_entries_view.
Qed.

(** [HandleAppendEntries] leaves the node as it is or makes it a follower. *)
Lemma HandleAppendEntries_calm k args n n' reply :
  HandleAppendEntries args n = Ret (n', reply) → calm k n n' ∧ (n' = n ∨ state n' = Follower).
Proof.
  unfold HandleAppendEntries. destruct (ae_Term args <? currentTerm n)%N.
  { intros [<- _]%Ret_pair_inj. by split; [|left]. }
  set (n1 := if (currentTerm n <? ae_Term args)%N then _ else _).
  assert (Hn1 : calm k n n1) by (unfold n1; case_match; [apply calm_follower|done]).
  clearbody n1. set (n2 := if bool_decide _ then _ else _).
  assert (Hn2 : calm k n n2 ∧ state n2 = Follower).
  { unfold n2. case_bool_decide; [done|]. set (n3 := stopHeartbeatTimer _).
    assert (Hn3 : (dead_timer k n1 → dead_timer k n3) ∧ state n3 = Follower).
    { split; [|done]. intros Hk. by apply stopHeartbeat_dead. }
    clearbody n3. destruct Hn1, Hn3. unfold calm, dead_timer, cancelReplication, cancelContext in *.
    by destruct (replicateCancel n3); simpl; auto. }
  clearbody n2. set (n3 := resetElectionTimerLocked _).
  assert (Hn3 : calm k n n3 ∧ state n3 = Follower) by done. clearbody n3.
  destruct (check_prev args n3) as [[[ct ci]|]|]; simpl; [|..|done].
  { intros [<- _]%Ret_pair_inj. destruct Hn3. auto. }
  destruct (append_entries_loop _ _ _ n3) as [n4|] eqn:El; simpl; [|done].
  intros [<- _]%Ret_pair_inj. apply append_loop_view in El.
  assert (Hv : view (follower_commit (ae_LeaderCommit args) n4) = view n3).
  { rewrite <- El. unfold follower_commit. by case_match. }
  unfold view in Hv. injection Hv as _ Hh Hs _ _ _. destruct Hn3 as [[Hd _] Hst].
  unfold calm, dead_timer in *. rewrite Hh, Hs. auto.
Qed.

Lemma keep_Ret l o s' out :
  keep l o = Some (Ret (s', out)) → ∃ n', o = Ret n' ∧ s' = (n', l) ∧ out = Nothing.
Proof.
  unfold keep. destruct o as [n'|]; simpl; [|done]. intros E. injection E as <- <-. by exists n'.
Qed.

Lemma fst_Ret {A B} (o : outcome (A * B)) a : fst <$> o = Ret a → ∃ b, o = Ret (a, b).
Proof. destruct o as [[a' b]|]; simpl; [|done]. intros [= ->]. by exists b. Qed.

Lemma heartbeat_reply_cases p term es reply n n' :
  heartbeat_reply p term es reply n = Ret n' →
  view n' = view n ∨ n' = becomeFollowerLocked (aer_Term reply) n.
Proof.
  unfold heartbeat_reply. destruct (_ || _); [intros [= <-]; auto|].
  destruct (_ <? _)%N; [intros [= <-]; auto|].
  destruct (aer_Success reply); [|eauto using handleConflict_view].
  destruct (_ <? _); [eauto using record_success_view|intros [= <-]; auto].
Qed.

Lemma replicate_reply_cases p term es reply n n' b :
  replicate_reply p term es reply n = Ret (n', b) →
  view n' = view n ∨ n' = becomeFollowerLocked (aer_Term reply) n.
Proof.
  unfold replicate_reply. destruct (_ || _); [intros [<- _]%Ret_pair_inj; auto|].
  destruct (_ <? _)%N; [intros [<- _]%Ret_pair_inj; auto|].
  destruct (if aer_Success reply then _ else _) as [n1|] eqn:E; simpl; [|done].
  intros [<- _]%Ret_pair_inj.
  destruct (aer_Success reply); eauto using handleConflict_view, record_success_view.
Qed.

Lemma Stop_calm k n n' : Stop n = Ret n' → calm k n n'.
Proof.
  unfold Stop. destruct (stopped n); [done|]. intros E. injection E as <-.
  set (n1 := stopElectionTimer _).
  assert (Hn1 : calm k n n1).
  { unfold n1, stopElectionTimer, calm, dead_timer. simpl. by destruct (electionTimer n). }
  clearbody n1. set (n2 := stopHeartbeatTimer n1).
  assert (Hn2 : calm k n n2).
  { destruct Hn1. split; [|done]. intros Hk. apply stopHeartbeat_dead. auto. }
  clearbody n2. unfold cancelContext. by destruct (replicateCancel n2).
Qed.

(** A step of another goroutine, or the expiry of a timer. *)
Lemma other_calm k ev n l s' o :
  rl_exec ev (n, l) = Some (Ret (s', o)) →
  (ev ∈ [RLTop; RLTick; RLStopSeen; RLLook; RLAct; RLReset]) ∨
  (∃ n', s' = (n', l) ∧ o = Nothing ∧ calm k n n').
Proof.
  intros Hx. destruct ev; try (left; set_solver); right; cbn [rl_exec] in Hx.
  - unfold expire_election in Hx. destruct (electionTimer n) as [[]|]; try done.
    apply keep_Ret in Hx as (n' & [= <-] & -> & ->). by eexists.
  - unfold expire_heartbeat in Hx. destruct (heartbeatTimer n !! k0) as [[]|] eqn:Ek; try done.
    apply keep_Ret in Hx as (n' & [= <-] & -> & ->). eexists. split_and!; [done..|]. split; [|done].
    unfold dead_timer. simpl. intros Hk. rewrite list_lookup_insert_ne; [done|]. intros ->. congruence.
  - apply keep_Ret in Hx as (n' & [r Hr]%fst_Ret & -> & ->). eauto using HandleRequestVote_calm.
  - apply keep_Ret in Hx as (n' & [= <-] & -> & ->). eauto using handleVoteReply_calm.
  - apply keep_Ret in Hx as (n' & [r Hr]%fst_Ret & -> & ->).
    destruct (HandleAppendEntries_calm k _ _ _ _ Hr). eauto.
  - apply keep_Ret in Hx as (n' & Hr & -> & ->). exists n'. split_and!; [done..|].
    destruct (heartbeat_reply_cases _ _ _ _ _ _ Hr) as [?| ->]; eauto using calm_view, calm_follower.
  - apply keep_Ret in Hx as (n' & [b Hr]%fst_Ret & -> & ->). exists n'. split_and!; [done..|].
    destruct (replicate_reply_cases _ _ _ _ _ _ _ Hr) as [?| ->]; eauto using calm_view, calm_follower.
  - apply keep_Ret in Hx as (n' & (args & _ & [= <-])%bind_Ret & -> & ->). by eexists.
  - apply keep_Ret in Hx as (n' & (act & _ & [= <-])%bind_Ret & -> & ->). by eexists.
  - apply keep_Ret in Hx as (n' & [= <-] & -> & ->). eauto using calm_view, submit_view.
  - apply keep_Ret in Hx as (n' & [= <-] & -> & ->). by eexists.
  - apply keep_Ret in Hx as (n' & Hr & -> & ->). eauto using Stop_calm.
Qed.

(** The loop waits for a stopped heartbeat timer, or has returned. *)
Definition parked (k : nat) (s : rl_state) : Prop :=
  (s.2 = Waiting (HeartbeatC k) ∧ dead_timer k s.1) ∨ s.2 = Exited.

Lemma parked_step k ev s s' o :
  rl_exec ev s = Some (Ret (s', o)) → parked k s →
  o = Nothing ∧ parked k s' ∧ (state s.1 = Follower → state s'.1 = Follower).
Proof.
  destruct s as [n l]. intros Hx Hp.
  destruct (other_calm k _ _ _ _ _ Hx) as [Hev|(n' & -> & -> & Hd & Hs)].
  - destruct Hp as [[Hl Hk]|Hl]; simpl in Hl; subst l;
      repeat (apply elem_of_cons in Hev as [->|Hev]); try (by apply elem_of_nil in Hev);
      cbn [rl_exec receive] in Hx; try done.
    + simpl in Hk. unfold dead_timer in Hk. by rewrite Hk in Hx.
    + destruct (stopped n); [|done]. injection Hx as <- <-. split_and!; [done|by right|done].
  - split_and!; [done| |done]. destruct Hp as [[Hl Hk]|Hl]; [left|right]; simpl in *; auto.
Qed.

Lemma parked_run k evs s s' os :
  rl_run evs s = Some (Ret (s', os)) → parked k s →
  Forall (λ o, o = Nothing) os ∧ parked k s' ∧ (state s.1 = Follower → state s'.1 = Follower).
Proof.
  revert s os. induction evs as [|ev evs IH]; intros s os Hr Hp; cbn [rl_run] in Hr.
  { injection Hr as <- <-. by split_and!. }
  destruct (rl_exec ev s) as [[[s1 o]|]|] eqn:Hx; [|done..].
  destruct (rl_run evs s1) as [[[s2 os2]|]|] eqn:Hr1; simpl in Hr; [|done..]. injection Hr as <- <-.
  destruct (parked_step _ _ _ _ _ Hx Hp) as (-> & Hp1 & Hs1).
  destruct (IH _ _ Hr1 Hp1) as (? & ? & ?). split_and!; [by constructor|done|auto].
Qed.

(** ** The two ways to lose the loop *)

(** C40: A leader that steps down while its loop waits for the heartbeat timer
    never starts an election again.  Stepping down stops the timer; whatever
    happens afterwards, the loop sends nothing any more and the node stays a
    follower. *)
Theorem deposed_leader_stuck k evs n s' os :
  heartbeatTimer n !! k = Some TStopped → state n = Follower →
  rl_run evs (n, Waiting (HeartbeatC k)) = Some (Ret (s', os)) →
  Forall (λ o, o = Nothing) os ∧ state s'.1 = Follower ∧
  (s'.2 = Waiting (HeartbeatC k) ∨ s'.2 = Exited).
Proof.
  intros Hk Hs Hr. destruct (parked_run k _ _ _ _ Hr) as (Hos & Hp & Hst); [by left|].
  split_and!; [done|auto|]. destruct Hp as [[? _]|?]; auto.
Qed.

(** *** A leader whose loop waits for the election timer *)

Definition silent (me : NodeID) (s : rl_state) : Prop :=
  s.2 = Waiting ElectionC ∧ electionTimer s.1 = Some TStopped ∧ state s.1 = Leader ∧
  votedFor s.1 = me ∧ me ≠ "".

(** No vote request that names the node itself as candidate. *)
Definition not_own_request (me : NodeID) (ev : rl_event) : Prop :=
  match ev with RLVoteRequest args => rv_CandidateID args ≠ me | _ => True end.

Lemma silent_view me n n' l : view n' = view n → silent me (n, l) → silent me (n', l).
Proof. unfold view, silent. simpl. intros E. by injection E as -> _ -> -> _ _. Qed.

Lemma HandleRequestVote_leader me args n n' reply :
  HandleRequestVote args n = Ret (n', reply) → votedFor n = me → me ≠ "" →
  rv_CandidateID args ≠ me → n' = n ∨ state n' = Follower.
Proof.
  intros Hr Hv Hne Hc. destruct (N.ltb_spec (currentTerm n) (rv_Term args)) as [Hlt|Hge].
  - right. revert Hr. unfold HandleRequestVote. rewrite (proj2 (N.ltb_lt _ _) Hlt).
    set (n1 := becomeFollowerLocked _ n).
    assert (Hn1 : state n1 = Follower) by apply becomeFollower_state. clearbody n1.
    destruct (rv_Term args <? currentTerm n1)%N; [by intros [<- _]%Ret_pair_inj|].
    destruct (isLogUpToDate n1 _ _) as [ok|]; simpl; [|done].
    destruct (_ && ok); intros [<- _]%Ret_pair_inj; [|done].
    set (n2 := resetElectionTimerLocked _). assert (Hn2 : state n2 = Follower) by done. clearbody n2.
    set (r := VoteRecord _ _). pose proof (persist_view_rl r n2) as E. unfold view in E.
    injection E as _ _ -> _ _ _. done.
  - left. revert Hr. unfold HandleRequestVote. rewrite (proj2 (N.ltb_ge _ _) Hge).
    destruct (rv_Term args <? currentTerm n)%N; [by intros [<- _]%Ret_pair_inj|].
    destruct (isLogUpToDate n _ _) as [ok|]; simpl; [|done].
    rewrite !bool_decide_eq_false_2 by congruence. simpl. by intros [<- _]%Ret_pair_inj.
Qed.

Lemma silent_step me ev s s' o :
  rl_exec ev s = Some (Ret (s', o)) → silent me s → not_own_request me ev →
  o = Nothing ∧ (silent me s' ∨ state s'.1 = Follower ∨ s'.2 = Exited).
Proof.
  destruct s as [n l]. intros Hx Hsil Hnot. pose proof Hsil as (Hl & He & Hs & Hv & Hne).
  simpl in Hl, He, Hs, Hv. subst l. destruct ev; cbn [rl_exec receive] in Hx; try done.
  - by rewrite He in Hx.
  - destruct (stopped n); [|done]. injection Hx as <- <-. auto.
  - unfold expire_election in Hx. by rewrite He in Hx.
  - unfold expire_heartbeat in Hx. destruct (heartbeatTimer n !! k) as [[]|]; try done.
    apply keep_Ret in Hx as (n' & [= <-] & -> & ->). split; [done|]. by left.
  - apply keep_Ret in Hx as (n' & [r Hr]%fst_Ret & -> & ->). split; [done|].
    destruct (HandleRequestVote_leader _ _ _ _ _ Hr Hv Hne Hnot) as [->|?]; auto.
  - apply keep_Ret in Hx as (n' & [= <-] & -> & ->). split; [done|]. left.
    unfold handleVoteReply. rewrite bool_decide_eq_false_2 by congruence. by rewrite orb_true_r.
  - apply keep_Ret in Hx as (n' & [r Hr]%fst_Ret & -> & ->). split; [done|].
    destruct (HandleAppendEntries_calm 0 _ _ _ _ Hr) as (_ & [->|?]); auto.
  - apply keep_Ret in Hx as (n' & Hr & -> & ->). split; [done|].
    destruct (heartbeat_reply_cases _ _ _ _ _ _ Hr) as [?| ->]; [left; by eapply silent_view|].
    right. left. apply becomeFollower_state.
  - apply keep_Ret in Hx as (n' & [b Hr]%fst_Ret & -> & ->). split; [done|].
    destruct (replicate_reply_cases _ _ _ _ _ _ _ Hr) as [?| ->]; [left; by eapply silent_view|].
    right. left. apply becomeFollower_state.
  - apply keep_Ret in Hx as (n' & (args & _ & [= <-])%bind_Ret & -> & ->). split; [done|]. by left.
  - apply keep_Ret in Hx as (n' & (act & _ & [= <-])%bind_Ret & -> & ->). split; [done|]. by left.
  - apply keep_Ret in Hx as (n' & [= <-] & -> & ->). split; [done|]. left.
    eapply silent_view; [apply submit_view|done].
  - apply keep_Ret in Hx as (n' & [= <-] & -> & ->). split; [done|]. by left.
  - apply keep_Ret in Hx as (n' & Hr & -> & ->). split; [done|]. left.
    unfold Stop in Hr. destruct (stopped n); [done|]. injection Hr as <-.
    unfold silent, cancelContext, stopHeartbeatTimer, stopElectionTimer in *. simpl in *.
    rewrite He. simpl. by destruct (replicateCancel n).
Qed.

(** C39: A leader that was elected while its loop waited for the election timer
    sends no heartbeats.  Becoming leader stops that timer; until the node steps
    down or is stopped, the loop sends nothing at all. *)
Theorem new_leader_silent me evs n s' os :
  electionTimer n = Some TStopped → state n = Leader → votedFor n = me → me ≠ "" →
  Forall (not_own_request me) evs →
  rl_run evs (n, Waiting ElectionC) = Some (Ret (s', os)) →
  Forall (λ o, o = Nothing) os ∨
  ∃ evs1 evs2 s1 os1, evs = evs1 ++ evs2 ∧ rl_run evs1 (n, Waiting ElectionC) = Some (Ret (s1, os1)) ∧
    Forall (λ o, o = Nothing) os1 ∧ (state s1.1 = Follower ∨ s1.2 = Exited).
Proof.
  intros He Hs Hv Hne Hnot Hr.
  assert (Hsil : silent me (n, Waiting ElectionC)) by by split_and!. clear He Hs Hv Hne.
  revert Hsil Hr. generalize (n, Waiting ElectionC). revert os.
  induction Hnot as [|ev evs Hev Hnot IH]; intros os s Hsil Hr; cbn [rl_run] in Hr.
  { injection Hr as <- <-. by left. }
  destruct (rl_exec ev s) as [[[s1 o]|]|] eqn:Hx; [|done..].
  destruct (rl_run evs s1) as [[[s2 os2]|]|] eqn:Hr1; simpl in Hr; [|done..]. injection Hr as <- <-.
  destruct (silent_step _ _ _ _ _ Hx Hsil Hev) as (-> & [Hsil1|Hend]).
  - destruct (IH _ _ Hsil1 Hr1) as [Hall|(evs1 & evs2 & s3 & os1 & -> & Hrun & Hos1 & Hor)].
    + left. by constructor.
    + right. exists (ev :: evs1), evs2, s3, (Nothing :: os1). split_and!; [done| |by constructor|done].
      cbn [rl_run]. by rewrite Hx, Hrun.
  - right. exists [ev], evs, s1, [Nothing]. split_and!; [done| |by repeat constructor|done].
    cbn [rl_run]. by rewrite Hx.
Qed.

End loop.

(** ** The states are reached *)

Module LoopDemo.

Definition constant_rand : Rand.
Proof. refine {| Int63n _ _ := 0%Z |}. intros _ n. lia. Defined.

#[local] Existing Instance constant_rand.

Definition fresh : Node Journal := Start (NewNode "a" ["b"; "c"] None 0).
Definition yes : RequestVoteReply := mkRequestVoteReply 1 true.

(** The election timer expires, the node starts an election, and its loop
    waits for the election timer again before the first vote arrives. *)
Definition usual : list rl_event :=
  [RLTop; RLExpireElection; RLTick; RLLook; RLAct; RLTop; RLVoteReply "b" 1 yes].

(** The vote arrives before the loop waits again; then a higher term arrives. *)
Definition rare : list rl_event :=
  [RLTop; RLExpireElection; RLTick; RLLook; RLAct; RLVoteReply "b" 1 yes; RLTop;
   RLVoteRequest (mkRequestVoteArgs 2 "c" 0 0)].

Definition after (evs : list rl_event) : Node Journal * loop :=
  match rl_run evs (fresh, AtTop) with Some (Ret (s, _)) => s | _ => (fresh, AtTop) end.

(** The new leader gets a command and its replication goroutine a reply, and
    the heartbeat timer expires: nothing is sent. *)
Lemma new_leader_silent_witness :
  after usual = ((after usual).1, Waiting ElectionC) ∧ state (after usual).1 = Leader ∧
  ∃ s' os, rl_run [RLSubmit []; RLExpireHeartbeat 0] ((after usual).1, Waiting ElectionC) = Some (Ret (s', os)) ∧
    (Forall (λ o, o = Nothing) os ∨
     ∃ evs1 evs2 s1 os1, [RLSubmit []; RLExpireHeartbeat 0] = evs1 ++ evs2 ∧
       rl_run evs1 ((after usual).1, Waiting ElectionC) = Some (Ret (s1, os1)) ∧
       Forall (λ o, o = Nothing) os1 ∧ (state s1.1 = Follower ∨ s1.2 = Exited)).
Proof.
  split; [vm_compute; reflexivity|]. split; [vm_compute; reflexivity|].
  eexists _, _. split; [vm_compute; reflexivity|].
  apply (new_leader_silent "a" [RLSubmit []; RLExpireHeartbeat 0] (after usual).1) with
    (s' := (((after (usual ++ [RLSubmit []; RLExpireHeartbeat 0])).1, Waiting ElectionC)));
    [vm_compute; reflexivity|vm_compute; reflexivity|vm_compute; reflexivity
    |discriminate|repeat constructor|vm_compute; reflexivity].
Defined.

(** The deposed leader's election timer expires, and nothing happens. *)
Lemma deposed_leader_stuck_witness :
  after rare = ((after rare).1, Waiting (HeartbeatC 0)) ∧
  electionTimer (after (rare ++ [RLExpireElection])).1 = Some TFired ∧
  Forall (λ o, o = Nothing) [Nothing] ∧
  state (after (rare ++ [RLExpireElection])).1 = Follower ∧
  ((after (rare ++ [RLExpireElection])).2 = Waiting (HeartbeatC 0) ∨
   (after (rare ++ [RLExpireElection])).2 = Exited).
Proof.
  split; [vm_compute; reflexivity|]. split; [vm_compute; reflexivity|].
  apply (deposed_leader_stuck 0 [RLExpireElection] (after rare).1);
    vm_compute; reflexivity.
Defined.

End LoopDemo.
