(* ===== verification/Binary.v ===== *)
(** Bytes, and the two packages of Go's library that the write-ahead log uses
    to lay out its records: [encoding/binary] (little-endian [uint32]) and
    [hash/crc32] with the IEEE polynomial.

    The checksum is the bit-by-bit definition of CRC-32: eight steps of the
    shift register per byte, on a state that starts as all ones and is
    complemented at the end.  Each step is injective on 32-bit states, hence a
    change of one byte always changes the checksum. *)

From S2P Require Import Prelude Types.

(** ** Bytes as numbers *)

Definition byte_of_N (n : N) : Byte.byte := default Byte.x00 (Byte.of_N (n mod 256)).

Lemma to_N_lt b : (Byte.to_N b < 256)%N.
Proof. pose proof (Byte.to_N_bounded b). lia. Qed.

Lemma to_N_byte_of_N n : Byte.to_N (byte_of_N n) = (n mod 256)%N.
Proof.
  unfold byte_of_N. destruct (Byte.of_N (n mod 256)) as [b|] eqn:E; simpl.
  - by apply Byte.to_of_N.
  - exfalso. apply Byte.of_N_None_iff in E. pose proof (N.mod_lt n 256). lia.
Qed.

Lemma byte_of_N_to_N b : byte_of_N (Byte.to_N b) = b.
Proof.
  unfold byte_of_N. rewrite N.mod_small by apply to_N_lt. by rewrite Byte.of_to_N.
Qed.

Lemma to_N_byte_of_N_small n : (n < 256)%N → Byte.to_N (byte_of_N n) = n.
Proof. intros ?. rewrite to_N_byte_of_N. by apply N.mod_small. Qed.

Lemma to_N_inj b1 b2 : Byte.to_N b1 = Byte.to_N b2 → b1 = b2.
Proof. intros E. by rewrite <- (byte_of_N_to_N b1), <- (byte_of_N_to_N b2), E. Qed.

(** A fact that is checked on each of the 256 bytes. *)
Ltac each_byte b := destruct b; vm_compute; done.

(** ** encoding/binary *)

Definition two32 : N := 4294967296.

(** [binary.LittleEndian.PutUint32] and [Uint32]. *)
Definition PutUint32 (n : N) : bytes :=
  [byte_of_N n; byte_of_N (n / 256); byte_of_N (n / 65536); byte_of_N (n / 16777216)].

Definition Uint32 (b : bytes) : outcome N :=
  match b with
  | b0 :: b1 :: b2 :: b3 :: _ =>
      Ret (Byte.to_N b0 + 256 * Byte.to_N b1 + 65536 * Byte.to_N b2 + 16777216 * Byte.to_N b3)%N
  | _ => Panic
  end.

Lemma length_PutUint32 n : length (PutUint32 n) = 4.
Proof. done. Qed.

Lemma Uint32_PutUint32 n rest : (n < two32)%N → Uint32 (PutUint32 n ++ rest) = Ret n.
Proof.
  intros Hn. unfold two32 in Hn. simpl. f_equal. rewrite !to_N_byte_of_N.
  rewrite (N.mod_small (n / 16777216)) by (apply N.Div0.div_lt_upper_bound; lia).
  change 65536%N with (256 * 256)%N. change 16777216%N with (256 * (256 * 256))%N.
  rewrite <- !N.Div0.div_div.
  pose proof (N.div_mod' n 256). pose proof (N.div_mod' (n / 256) 256).
  pose proof (N.div_mod' (n / 256 / 256) 256). lia.
Qed.

Lemma Uint32_lt b n : Uint32 b = Ret n → (n < two32)%N.
Proof.
  destruct b as [|b0 [|b1 [|b2 [|b3 b]]]]; try done. simpl. intros [= <-].
  pose proof (to_N_lt b0). pose proof (to_N_lt b1).
  pose proof (to_N_lt b2). pose proof (to_N_lt b3). unfold two32. lia.
Qed.

(** ** hash/crc32 *)

Definition crc_poly : N := 0xEDB88320.
Definition all_ones : N := 0xFFFFFFFF.

Definition crc_bit (s : N) : N :=
  if N.odd s then N.lxor (s / 2) crc_poly else (s / 2)%N.

Definition crc_byte (s : N) (b : Byte.byte) : N :=
  Nat.iter 8 crc_bit (N.lxor s (Byte.to_N b)).

(** [crc32.ChecksumIEEE]. *)
Definition ChecksumIEEE (l : bytes) : N :=
  N.lxor (foldl crc_byte all_ones l) all_ones.

Definition ascii_bytes (s : string) : bytes := String.list_byte_of_string s.

(** The check value of CRC-32: the checksum of the nine digits. *)
Example ChecksumIEEE_check : ChecksumIEEE (ascii_bytes "123456789") = 0xCBF43926%N.
Proof. vm_compute. reflexivity. Qed.

Lemma lxor_lt32 a b : (a < two32)%N → (b < two32)%N → (N.lxor a b < two32)%N.
Proof.
  intros Ha Hb. destruct (N.eq_dec (N.lxor a b) 0) as [->|Hn]; [done|].
  change two32 with (2 ^ 32)%N in *. apply N.log2_lt_pow2; [lia|].
  eapply N.le_lt_trans; [apply N.log2_lxor|].
  assert (H : ∀ x, (x < 2 ^ 32)%N → (N.log2 x < 32)%N).
  { intros x Hx. destruct (N.eq_dec x 0) as [->|]; [done|]. apply N.log2_lt_pow2; [lia|done]. }
  apply N.max_lub_lt; auto.
Qed.

Lemma testbit_high n : (n < 2147483648)%N → N.testbit n 31 = false.
Proof.
  intros Hn. destruct (N.eq_dec n 0) as [->|]; [done|].
  apply N.bits_above_log2, N.log2_lt_pow2; [lia|]. done.
Qed.

(** The top bit of the new state is the bit that was shifted out. *)
Lemma crc_bit_top s : (s < two32)%N → N.testbit (crc_bit s) 31 = N.odd s.
Proof.
  intros Hs. assert (Hh : N.testbit (s / 2) 31 = false).
  { apply testbit_high. unfold two32 in Hs. apply N.Div0.div_lt_upper_bound. lia. }
  unfold crc_bit. destruct (N.odd s); [by rewrite N.lxor_spec, Hh|done].
Qed.

Lemma crc_bit_lt s : (s < two32)%N → (crc_bit s < two32)%N.
Proof.
  intros Hs. assert ((s / 2 < two32)%N).
  { eapply N.le_lt_trans; [|exact Hs]. apply N.Div0.div_le_upper_bound. lia. }
  unfold crc_bit. destruct (N.odd s); [|done]. by apply lxor_lt32.
Qed.

Lemma lxor_inj_r a b c : N.lxor a c = N.lxor b c → a = b.
Proof.
  intros H. apply (f_equal (λ x, N.lxor x c)) in H.
  by rewrite !N.lxor_assoc, N.lxor_nilpotent, !N.lxor_0_r in H.
Qed.

Lemma crc_bit_inj s t :
  (s < two32)%N → (t < two32)%N → crc_bit s = crc_bit t → s = t.
Proof.
  intros Hs Ht E. pose proof (f_equal (λ x, N.testbit x 31) E) as Hodd. simpl in Hodd.
  rewrite !crc_bit_top in Hodd by done.
  assert (Hhalf : (s / 2 = t / 2)%N).
  { unfold crc_bit in E. rewrite Hodd in E. destruct (N.odd t); [by apply lxor_inj_r in E|done]. }
  rewrite (N.div_mod s 2), (N.div_mod t 2) by done.
  rewrite <- !N.bit0_mod, !N.bit0_odd. congruence.
Qed.

Lemma crc_iter_lt n s : (s < two32)%N → (Nat.iter n crc_bit s < two32)%N.
Proof. intros Hs. induction n; [done|]. by apply crc_bit_lt. Qed.

Lemma crc_iter_inj n s t :
  (s < two32)%N → (t < two32)%N → Nat.iter n crc_bit s = Nat.iter n crc_bit t → s = t.
Proof.
  intros Hs Ht. induction n as [|n IH]; [done|]. simpl. intros E.
  by apply IH, crc_bit_inj; [apply crc_iter_lt..|].
Qed.

Lemma byte_lt32 b : (Byte.to_N b < two32)%N.
Proof. pose proof (to_N_lt b). unfold two32. lia. Qed.

#[export] Hint Resolve lxor_lt32 byte_lt32 crc_iter_lt : u64.

Lemma crc_byte_lt s b : (s < two32)%N → (crc_byte s b < two32)%N.
Proof. unfold crc_byte. auto with u64. Qed.

Lemma crc_byte_inj_state s t b :
  (s < two32)%N → (t < two32)%N → crc_byte s b = crc_byte t b → s = t.
Proof.
  intros Hs Ht E. apply crc_iter_inj in E; [|auto with u64..]. by apply lxor_inj_r in E.
Qed.

Lemma crc_byte_inj_byte s b c : (s < two32)%N → crc_byte s b = crc_byte s c → b = c.
Proof.
  intros Hs E. apply crc_iter_inj in E; [|auto with u64..].
  rewrite !(N.lxor_comm s) in E. by apply lxor_inj_r, to_N_inj in E.
Qed.

Lemma crc_bytes_lt l s : (s < two32)%N → (foldl crc_byte s l < two32)%N.
Proof.
  revert s. induction l as [|b l IH]; intros s Hs; [done|]. simpl. by apply IH, crc_byte_lt.
Qed.

Lemma crc_bytes_inj l s t :
  (s < two32)%N → (t < two32)%N → foldl crc_byte s l = foldl crc_byte t l → s = t.
Proof.
  revert s t. induction l as [|b l IH]; intros s t Hs Ht; [done|]. simpl.
  intros E%IH; [|by apply crc_byte_lt..]. by apply crc_byte_inj_state in E.
Qed.

Lemma ChecksumIEEE_lt l : (ChecksumIEEE l < two32)%N.
Proof. apply lxor_lt32; [by apply crc_bytes_lt|done]. Qed.

(** The checksums of two messages that differ in one byte differ. *)
Lemma ChecksumIEEE_one_byte l1 b c l2 :
  ChecksumIEEE (l1 ++ b :: l2) = ChecksumIEEE (l1 ++ c :: l2) → b = c.
Proof.
  unfold ChecksumIEEE. intros E%lxor_inj_r. rewrite !foldl_app in E. simpl in E.
  assert (Hs : (foldl crc_byte all_ones l1 < two32)%N) by by apply crc_bytes_lt.
  apply crc_bytes_inj in E; [|by apply crc_byte_lt..].
  by apply crc_byte_inj_byte in E.
Qed.

Lemma ChecksumIEEE_insert l i b c :
  l !! i = Some b → b ≠ c → ChecksumIEEE (<[i := c]> l) ≠ ChecksumIEEE l.
Proof.
  intros Hi Hne E. rewrite insert_take_drop in E by by apply lookup_lt_Some in Hi.
  rewrite <- (take_drop_middle l i b Hi) in E at 3. by apply ChecksumIEEE_one_byte in E.
Qed.

(** Any four bytes are the encoding of a number. *)
Lemma PutUint32_surj s : length s = 4 → ∃ n, (n < two32)%N ∧ PutUint32 n = s.
Proof.
  destruct s as [|b0 [|b1 [|b2 [|b3 [|]]]]]; try done. intros _.
  exists (Byte.to_N b0 + 256 * Byte.to_N b1 + 65536 * Byte.to_N b2 + 16777216 * Byte.to_N b3)%N.
  pose proof (to_N_lt b0). pose proof (to_N_lt b1). pose proof (to_N_lt b2). pose proof (to_N_lt b3).
  split; [unfold two32; lia|]. unfold PutUint32.
  repeat apply (f_equal2 cons); try done; apply to_N_inj; rewrite to_N_byte_of_N; div_mod_lia.
Qed.

Lemma PutUint32_inj m n : (m < two32)%N → (n < two32)%N → PutUint32 m = PutUint32 n → m = n.
Proof.
  intros Hm Hn E. pose proof (Uint32_PutUint32 m [] Hm) as H. rewrite E, Uint32_PutUint32 in H by done. congruence.
Qed.
