(* ===== verification/Text.v ===== *)
(** Text encodings of Go's library that the records of the write-ahead log and
    the commands go through: [unicode/utf8], [encoding/base64] (standard
    alphabet, with padding) and the decimal numbers of [strconv]. *)

From S2P Require Import Prelude Types Binary.
From Stdlib Require Import DecimalFacts DecimalPos DecimalN.

(** ** UTF-8

    [utf8.DecodeRune] on a non-empty input gives a rune and its width;
    [None] stands for an encoding error, which Go reports as
    [(RuneError, 1)]. *)
Definition within (lo hi : N) (b : Byte.byte) : bool :=
  (lo <=? Byte.to_N b)%N && (Byte.to_N b <=? hi)%N.

Definition decode_rune (s : bytes) : option (N * nat) :=
  match s with
  | [] => None
  | b0 :: s1 =>
      let n0 := Byte.to_N b0 in
      if (n0 <? 0x80)%N then Some (n0, 1)
      else if (n0 <? 0xC2)%N then None
      else if (n0 <? 0xE0)%N then
        match s1 with
        | b1 :: _ =>
            if within 0x80 0xBF b1
            then Some (((n0 - 0xC0) * 64 + (Byte.to_N b1 - 0x80))%N, 2) else None
        | _ => None
        end
      else if (n0 <? 0xF0)%N then
        match s1 with
        | b1 :: b2 :: _ =>
            if within (if (n0 =? 0xE0)%N then 0xA0 else 0x80) (if (n0 =? 0xED)%N then 0x9F else 0xBF) b1
               && within 0x80 0xBF b2
            then Some (((n0 - 0xE0) * 4096 + (Byte.to_N b1 - 0x80) * 64 + (Byte.to_N b2 - 0x80))%N, 3)
            else None
        | _ => None
        end
      else if (n0 <? 0xF5)%N then
        match s1 with
        | b1 :: b2 :: b3 :: _ =>
            if within (if (n0 =? 0xF0)%N then 0x90 else 0x80) (if (n0 =? 0xF4)%N then 0x8F else 0xBF) b1
               && within 0x80 0xBF b2 && within 0x80 0xBF b3
            then Some (((n0 - 0xF0) * 262144 + (Byte.to_N b1 - 0x80) * 4096
                        + (Byte.to_N b2 - 0x80) * 64 + (Byte.to_N b3 - 0x80))%N, 4)
            else None
        | _ => None
        end
      else None
  end.

Definition RuneError : N := 0xFFFD.

Definition surrogate (r : N) : bool := (0xD800 <=? r)%N && (r <? 0xE000)%N.

(** [utf8.AppendRune]; surrogates and what is over 0x10FFFF become
    [RuneError]. *)
Definition encode_rune (r : N) : bytes :=
  let r := if surrogate r || (0x10FFFF <? r)%N then RuneError else r in
  if (r <? 0x80)%N then [byte_of_N r]
  else if (r <? 0x800)%N then [byte_of_N (0xC0 + r / 64); byte_of_N (0x80 + r mod 64)]
  else if (r <? 0x10000)%N then
    [byte_of_N (0xE0 + r / 4096); byte_of_N (0x80 + r / 64 mod 64); byte_of_N (0x80 + r mod 64)]
  else
    [byte_of_N (0xF0 + r / 262144); byte_of_N (0x80 + r / 4096 mod 64);
     byte_of_N (0x80 + r / 64 mod 64); byte_of_N (0x80 + r mod 64)].

(** A string cut the way a loop over [DecodeRune] does: the rune, if the
    encoding is valid, with its bytes, else one byte. *)
Fixpoint cut_runes (fuel : nat) (s : bytes) : list (option N * bytes) :=
  match fuel, s with
  | S fuel, b :: s' =>
      match decode_rune s with
      | Some (r, k) => (Some r, take k s) :: cut_runes fuel (drop k s)
      | None => (None, [b]) :: cut_runes fuel s'
      end
  | _, _ => []
  end.

Definition runes (s : bytes) : list (option N * bytes) := cut_runes (length s) s.

Definition valid_utf8 (s : bytes) : bool := forallb (λ c, bool_decide (is_Some c.1)) (runes s).

(** What remains of a string that goes through a conversion of each rune:
    every byte that is not part of valid UTF-8 becomes U+FFFD. *)
Definition sanitize (s : bytes) : bytes :=
  concat ((λ c, match c.1 with Some _ => c.2 | None => encode_rune RuneError end) <$> runes s).

(** ** base64 *)

Definition alphabet : bytes :=
  ascii_bytes "ABCDEFGHIJKLMNOPQRSTUVWXYZabcdefghijklmnopqrstuvwxyz0123456789+/".

Definition b64_char (n : N) : Byte.byte := default Byte.x00 (alphabet !! N.to_nat n).

Definition b64_value (b : Byte.byte) : option N :=
  (λ p, N.of_nat p.1) <$> list_find (λ c, c = b) alphabet.

Definition pad_char : Byte.byte := Byte.x3d.

(** [base64.StdEncoding.EncodeToString]. *)
Fixpoint base64_encode (s : bytes) : bytes :=
  match s with
  | a :: b :: c :: s' =>
      let '(a, b, c) := (Byte.to_N a, Byte.to_N b, Byte.to_N c) in
      b64_char (a / 4) :: b64_char (a mod 4 * 16 + b / 16) ::
      b64_char (b mod 16 * 4 + c / 64) :: b64_char (c mod 64) :: base64_encode s'
  | [a; b] =>
      let '(a, b) := (Byte.to_N a, Byte.to_N b) in
      [b64_char (a / 4); b64_char (a mod 4 * 16 + b / 16); b64_char (b mod 16 * 4); pad_char]
  | [a] =>
      let a := Byte.to_N a in
      [b64_char (a / 4); b64_char (a mod 4 * 16); pad_char; pad_char]
  | [] => []
  end.

(** Groups of four characters; only the last may be padded.  The bits that a
    padded group leaves over are not looked at. *)
Fixpoint b64_groups (s : bytes) : option bytes :=
  match s with
  | [] => Some []
  | x :: y :: z :: w :: s' =>
      a ← b64_value x;
      b ← b64_value y;
      if decide (z = pad_char ∧ w = pad_char ∧ s' = []) then
        Some [byte_of_N (a * 4 + b / 16)]
      else
        c ← b64_value z;
        if decide (w = pad_char ∧ s' = []) then
          Some [byte_of_N (a * 4 + b / 16); byte_of_N (b mod 16 * 16 + c / 4)]
        else
          d ← b64_value w;
          l ← b64_groups s';
          Some (byte_of_N (a * 4 + b / 16) :: byte_of_N (b mod 16 * 16 + c / 4)
                :: byte_of_N (c mod 4 * 64 + d) :: l)
  | _ => None
  end.

(** [base64.StdEncoding.DecodeString]; line ends are skipped. *)
Definition base64_decode (s : bytes) : option bytes :=
  b64_groups (filter (λ b, b ≠ Byte.x0a ∧ b ≠ Byte.x0d) s).

(** ** Decimal numbers *)

Fixpoint bytes_of_uint (d : Decimal.uint) : bytes :=
  match d with
  | Decimal.Nil => []
  | Decimal.D0 d => Byte.x30 :: bytes_of_uint d
  | Decimal.D1 d => Byte.x31 :: bytes_of_uint d
  | Decimal.D2 d => Byte.x32 :: bytes_of_uint d
  | Decimal.D3 d => Byte.x33 :: bytes_of_uint d
  | Decimal.D4 d => Byte.x34 :: bytes_of_uint d
  | Decimal.D5 d => Byte.x35 :: bytes_of_uint d
  | Decimal.D6 d => Byte.x36 :: bytes_of_uint d
  | Decimal.D7 d => Byte.x37 :: bytes_of_uint d
  | Decimal.D8 d => Byte.x38 :: bytes_of_uint d
  | Decimal.D9 d => Byte.x39 :: bytes_of_uint d
  end.

Fixpoint uint_of_bytes (s : bytes) : option Decimal.uint :=
  match s with
  | [] => Some Decimal.Nil
  | b :: s' =>
      d ← uint_of_bytes s';
      match b with
      | Byte.x30 => Some (Decimal.D0 d) | Byte.x31 => Some (Decimal.D1 d)
      | Byte.x32 => Some (Decimal.D2 d) | Byte.x33 => Some (Decimal.D3 d)
      | Byte.x34 => Some (Decimal.D4 d) | Byte.x35 => Some (Decimal.D5 d)
      | Byte.x36 => Some (Decimal.D6 d) | Byte.x37 => Some (Decimal.D7 d)
      | Byte.x38 => Some (Decimal.D8 d) | Byte.x39 => Some (Decimal.D9 d)
      | _ => None
      end
  end.

Definition is_digit (b : Byte.byte) : bool := within 0x30 0x39 b.

(** [strconv.FormatUint(n, 10)]. *)
Definition FormatUint (n : N) : bytes := bytes_of_uint (N.to_uint n).

(** [strconv.ParseUint(s, 10, bits)] with [lim] = 2^bits; [None] is a syntax
    or range error. *)
Definition ParseUint (lim : N) (s : bytes) : option N :=
  if bool_decide (s = []) then None else
    d ← uint_of_bytes s;
    if (N.of_uint d <? lim)%N then Some (N.of_uint d) else None.

(** ** Lemmas: UTF-8 *)

Ltac decode_cases s :=
  destruct s as [|b0 s]; [done|]; simpl;
  pose proof (to_N_lt b0);
  repeat match goal with
  | |- context [if ?b then _ else _] => destruct b eqn:?
  | |- context [match ?l with [] => _ | _ => _ end] => is_var l; destruct l; simpl
  end; unfold within in *; bool_to_prop; try done.

Lemma decode_rune_width s r k : decode_rune s = Some (r, k) → 0 < k <= length s.
Proof. decode_cases s; intros [= <- <-]; simpl; lia. Qed.

(** The rune depends only on its own bytes. *)
Lemma decode_rune_take s r k tl :
  decode_rune s = Some (r, k) → decode_rune (take k s ++ tl) = Some (r, k).
Proof.
  destruct s as [|b0 s]; [done|]. unfold decode_rune at 1.
  repeat match goal with
  | |- context [if ?b then _ else _] => destruct b eqn:?
  | |- context [match ?l with [] => _ | _ => _ end] => is_var l; destruct l
  end; try done; intros [= <- <-]; simpl;
  repeat match goal with H : ?b = _ |- context [if ?b then _ else _] => rewrite H end; done.
Qed.

Lemma decode_rune_app s r k tl :
  decode_rune s = Some (r, k) → decode_rune (s ++ tl) = Some (r, k).
Proof.
  intros H. rewrite <- (take_drop k s), <- app_assoc. by apply decode_rune_take.
Qed.

Lemma byte_of_N_eq n b : n = Byte.to_N b → byte_of_N n = b.
Proof. intros ->. apply byte_of_N_to_N. Qed.

Ltac byte_bounds :=
  repeat match goal with b : Byte.byte |- _ => learn_hyp (to_N_lt b) end.

Lemma decode_rune_scalar s r k :
  decode_rune s = Some (r, k) → surrogate r || (0x10FFFF <? r)%N = false.
Proof.
  decode_cases s; intros [= <- <-]; byte_bounds; unfold surrogate;
  apply orb_false_iff; (split; [|apply N.ltb_ge; lia]); apply andb_false_iff;
  rewrite N.leb_gt, N.ltb_ge; lia.
Qed.

Lemma encode_decode_rune s r k : decode_rune s = Some (r, k) → encode_rune r = take k s.
Proof.
  intros Hd. pose proof (decode_rune_scalar _ _ _ Hd) as Hs. revert Hd Hs.
  decode_cases s; intros [= <- <-] Hs; unfold encode_rune; rewrite Hs; clear Hs; byte_bounds; simpl take.
  all: repeat match goal with
  | |- context [(?a <? ?b)%N] => destruct (N.ltb_spec a b); try lia
  end.
  all: repeat (apply (f_equal2 cons); [apply byte_of_N_eq; div_mod_lia|]).
  all: done.
Qed.

Lemma cut_runes_fuel f1 f2 s :
  length s <= f1 → length s <= f2 → cut_runes f1 s = cut_runes f2 s.
Proof.
  revert f2 s. induction f1 as [|f1 IH]; intros f2 s H1 H2.
  { destruct s; [by destruct f2|simpl in *; lia]. }
  destruct f2 as [|f2], s as [|b s]; simpl in H1, H2; try done; [lia|].
  cbn [cut_runes]. destruct (decode_rune (b :: s)) as [[r k]|] eqn:E.
  - apply decode_rune_width in E as Hk. simpl in Hk. f_equal.
    apply IH; rewrite length_drop; simpl; lia.
  - f_equal. apply IH; lia.
Qed.

Lemma runes_cons b s :
  runes (b :: s) =
    match decode_rune (b :: s) with
    | Some (r, k) => (Some r, take k (b :: s)) :: runes (drop k (b :: s))
    | None => (None, [b]) :: runes s
    end.
Proof.
  unfold runes. cbn [length cut_runes].
  destruct (decode_rune (b :: s)) as [[r k]|] eqn:E; [|done].
  apply decode_rune_width in E as Hk. f_equal.
  apply cut_runes_fuel; rewrite length_drop; simpl in *; lia.
Qed.

(** Induction on a string, rune by rune. *)
Lemma runes_ind (P : bytes → Prop) :
  P [] →
  (∀ b s, decode_rune (b :: s) = None → P s → P (b :: s)) →
  (∀ s r k, decode_rune s = Some (r, k) → P (drop k s) → P s) →
  ∀ s, P s.
Proof.
  intros H0 Hbad Hgood s.
  induction s as [s IH] using (induction_ltof1 _ (@length _)). unfold ltof in IH.
  destruct s as [|b s]; [done|]. destruct (decode_rune (b :: s)) as [[r k]|] eqn:E.
  - apply (Hgood _ _ _ E), IH. apply decode_rune_width in E. rewrite length_drop. lia.
  - apply Hbad; [done|]. apply IH. simpl. lia.
Qed.

Lemma runes_step s r k :
  decode_rune s = Some (r, k) → runes s = (Some r, take k s) :: runes (drop k s).
Proof. destruct s as [|b s]; [done|]. intros E. by rewrite runes_cons, E. Qed.

Lemma sanitize_bad b s :
  decode_rune (b :: s) = None → sanitize (b :: s) = encode_rune RuneError ++ sanitize s.
Proof. intros E. unfold sanitize. by rewrite runes_cons, E. Qed.

Lemma sanitize_good s r k :
  decode_rune s = Some (r, k) → sanitize s = take k s ++ sanitize (drop k s).
Proof. intros E. unfold sanitize. by rewrite (runes_step _ _ _ E). Qed.

Lemma valid_utf8_good s r k :
  decode_rune s = Some (r, k) → valid_utf8 s = valid_utf8 (drop k s).
Proof. intros E. unfold valid_utf8. by rewrite (runes_step _ _ _ E). Qed.

Lemma valid_utf8_bad b s : decode_rune (b :: s) = None → valid_utf8 (b :: s) = false.
Proof. intros E. unfold valid_utf8. by rewrite runes_cons, E. Qed.

(** Valid strings are exactly the ones that a conversion of each rune leaves
    alone. *)
Lemma sanitize_valid s : valid_utf8 s = true → sanitize s = s.
Proof.
  induction s as [|b s E IH|s r k E IH] using runes_ind; [done|..]; intros Hv.
  - by rewrite valid_utf8_bad in Hv.
  - rewrite (sanitize_good _ _ _ E), IH by by rewrite <- (valid_utf8_good _ _ _ E).
    by rewrite take_drop.
Qed.

Lemma decode_ascii b s : (Byte.to_N b < 0x80)%N → decode_rune (b :: s) = Some (Byte.to_N b, 1).
Proof. intros H%N.ltb_lt. simpl. by rewrite H. Qed.

Lemma valid_utf8_ascii s : Forall (λ b, (Byte.to_N b < 0x80)%N) s → valid_utf8 s = true.
Proof.
  induction 1 as [|b s Hb _ IH]; [done|].
  by rewrite (valid_utf8_good _ _ _ (decode_ascii b s Hb)).
Qed.

(** ** Lemmas: base64 *)

Lemma b64_value_char n : (n < 64)%N → b64_value (b64_char n) = Some n.
Proof.
  assert (H : Forall (λ n, b64_value (b64_char n) = Some n) (N.of_nat <$> seq 0 64)).
  { apply (bool_decide_unpack _). vm_compute. exact I. }
  intros Hn. rewrite Forall_forall in H. apply H, list_elem_of_fmap.
  exists (N.to_nat n). split; [lia|]. apply elem_of_seq. lia.
Qed.

Lemma b64_char_plain n :
  (n < 64)%N → b64_char n ≠ pad_char ∧ b64_char n ≠ Byte.x0a ∧ b64_char n ≠ Byte.x0d ∧
               (Byte.to_N (b64_char n) < 0x80)%N.
Proof.
  assert (H : Forall (λ n, b64_char n ≠ pad_char ∧ b64_char n ≠ Byte.x0a ∧ b64_char n ≠ Byte.x0d ∧
               (Byte.to_N (b64_char n) < 0x80)%N) (N.of_nat <$> seq 0 64)).
  { apply (bool_decide_unpack _). vm_compute. exact I. }
  intros Hn. rewrite Forall_forall in H. apply H, list_elem_of_fmap.
  exists (N.to_nat n). split; [lia|]. apply elem_of_seq. lia.
Qed.

(** Induction three bytes at a time. *)
Lemma triples_ind (P : bytes → Prop) :
  P [] → (∀ a, P [a]) → (∀ a b, P [a; b]) →
  (∀ a b c s, P s → P (a :: b :: c :: s)) → ∀ s, P s.
Proof.
  intros H0 H1 H2 H3 s.
  induction s as [s IH] using (induction_ltof1 _ (@length _)). unfold ltof in IH.
  destruct s as [|a [|b [|c s]]]; auto. apply H3, IH. simpl. lia.
Qed.

Ltac sextets :=
  repeat match goal with
  | |- context [b64_value (b64_char ?n)] =>
      rewrite (b64_value_char n) by (byte_bounds; div_mod_lia)
  end.

Lemma b64_groups_encode s : b64_groups (base64_encode s) = Some s.
Proof.
  induction s as [|a|a b|a b c s IH] using triples_ind; [done|..];
  cbn [base64_encode b64_groups]; sextets; cbn [mbind option_bind].
  - rewrite decide_True by done. do 2 f_equal. apply byte_of_N_eq. byte_bounds. div_mod_lia.
  - pose proof (b64_char_plain (Byte.to_N b mod 16 * 4)) as Hp.
    rewrite decide_False by (intros [Hx _]; apply Hp in Hx; [done|byte_bounds; div_mod_lia]).
    sextets. cbn [mbind option_bind]. rewrite decide_True by done.
    repeat f_equal; apply byte_of_N_eq; byte_bounds; div_mod_lia.
  - pose proof (b64_char_plain (Byte.to_N c mod 64)) as Hp.
    rewrite decide_False by (intros (_ & Hx & _); apply Hp in Hx; [done|byte_bounds; div_mod_lia]).
    sextets. cbn [mbind option_bind].
    rewrite decide_False by (intros [Hx _]; apply Hp in Hx; [done|byte_bounds; div_mod_lia]).
    sextets. rewrite IH. cbn [mbind option_bind].
    repeat f_equal; apply byte_of_N_eq; byte_bounds; div_mod_lia.
Qed.

Lemma base64_plain s :
  Forall (λ b, (b ≠ Byte.x0a ∧ b ≠ Byte.x0d) ∧ (Byte.to_N b < 0x80)%N) (base64_encode s).
Proof.
  assert (H : ∀ n, (n < 64)%N → (b64_char n ≠ Byte.x0a ∧ b64_char n ≠ Byte.x0d) ∧ (Byte.to_N (b64_char n) < 0x80)%N).
  { intros n Hn. by apply b64_char_plain in Hn as (_ & ? & ? & ?). }
  induction s as [|a|a b|a b c s IH] using triples_ind; simpl; repeat constructor; try done;
    apply H; byte_bounds; div_mod_lia.
Qed.

(** Decoding inverts encoding. *)
Lemma base64_decode_encode s : base64_decode (base64_encode s) = Some s.
Proof.
  unfold base64_decode. rewrite filter_all; [apply b64_groups_encode|].
  eapply Forall_impl; [apply base64_plain|]. by intros b [? _].
Qed.

(** ** Lemmas: decimal numbers *)

Lemma uint_of_bytes_of_uint d : uint_of_bytes (bytes_of_uint d) = Some d.
Proof. induction d; simpl; [done|..]; by rewrite IHd. Qed.

Lemma bytes_of_uint_digits d : Forall is_digit (bytes_of_uint d).
Proof. induction d; simpl; repeat constructor; done. Qed.

Lemma FormatUint_nonempty n : FormatUint n ≠ [].
Proof.
  unfold FormatUint. destruct n as [|p]; [done|]. simpl. intros E.
  assert (H : Pos.to_uint p = Decimal.Nil) by by destruct (Pos.to_uint p).
  pose proof (DecimalPos.Unsigned.to_uint_nonnil p). done.
Qed.

(** Parsing inverts formatting. *)
Lemma ParseUint_FormatUint lim n : (n < lim)%N → ParseUint lim (FormatUint n) = Some n.
Proof.
  intros Hn. unfold ParseUint. rewrite bool_decide_eq_false_2 by apply FormatUint_nonempty.
  unfold FormatUint. rewrite uint_of_bytes_of_uint. simpl.
  rewrite DecimalN.Unsigned.of_to. apply N.ltb_lt in Hn. by rewrite Hn.
Qed.

#[global] Instance FormatUint_inj : Inj (=) (=) FormatUint.
Proof.
  intros m n E. unfold FormatUint in E. apply (f_equal uint_of_bytes) in E.
  rewrite !uint_of_bytes_of_uint in E. injection E as E.
  apply (f_equal N.of_uint) in E. by rewrite !DecimalN.Unsigned.of_to in E.
Qed.

Lemma to_uint_no_leading_zero n d : N.to_uint n = Decimal.D0 d → d = Decimal.Nil.
Proof.
  intros E. pose proof (DecimalN.Unsigned.to_of (N.to_uint n)) as Hn.
  rewrite DecimalN.Unsigned.of_to, E in Hn. unfold Decimal.unorm in Hn.
  pose proof (DecimalFacts.nzhead_nonzero (Decimal.D0 d) d) as Hz.
  destruct (Decimal.nzhead (Decimal.D0 d)) as [|d'| | | | | | | | |] eqn:En; try done; congruence.
Qed.

(** A formatted number is "0" or starts with another digit. *)
Lemma FormatUint_head n :
  FormatUint n = [Byte.x30] ∨
  ∃ b s, FormatUint n = b :: s ∧ is_digit b = true ∧ b ≠ Byte.x30 ∧ Forall is_digit s.
Proof.
  unfold FormatUint. pose proof (FormatUint_nonempty n) as Hne. unfold FormatUint in Hne.
  destruct (N.to_uint n) as [|d|d|d|d|d|d|d|d|d|d] eqn:E; [done|left|right..].
  { apply to_uint_no_leading_zero in E as ->. done. }
  all: do 2 eexists; split; [reflexivity|]; split; [done|]; split; [done|apply bytes_of_uint_digits].
Qed.

(** *** Sizes *)

Lemma of_uint_acc_ge d acc :
  (N.pos acc * 10 ^ N.of_nat (length (bytes_of_uint d)) <= N.pos (Pos.of_uint_acc d acc))%N.
Proof.
  revert acc. induction d as [|d IH|d IH|d IH|d IH|d IH|d IH|d IH|d IH|d IH|d IH]; intros acc;
    [simpl; lia|..]; cbn [bytes_of_uint Pos.of_uint_acc length];
    (etransitivity; [|apply IH]); rewrite Nat2N.inj_succ, N.pow_succ_r';
    set (x := (10 ^ _)%N); nia.
Qed.

Lemma length_FormatUint n k :
  0 < k → (n < 10 ^ N.of_nat k)%N → length (FormatUint n) <= k.
Proof.
  intros Hk Hn. pose proof (DecimalN.Unsigned.of_to n) as Hof. unfold FormatUint.
  assert (Hbig : ∀ d a, (N.pos (Pos.of_uint_acc d a) = n)%N → length (bytes_of_uint d) < k).
  { intros d a Ha. pose proof (of_uint_acc_ge d a) as Hge. rewrite Ha in Hge.
    assert (Hlt : (10 ^ N.of_nat (length (bytes_of_uint d)) < 10 ^ N.of_nat k)%N) by nia.
    apply N.pow_lt_mono_r_iff in Hlt; lia. }
  destruct (N.to_uint n) as [|d|d|d|d|d|d|d|d|d|d] eqn:E; simpl in *; try lia;
    try (by apply Hbig in Hof; lia).
  by apply to_uint_no_leading_zero in E as ->.
Qed.

Lemma length_FormatUint_64 n : (n < two64)%N → length (FormatUint n) <= 20.
Proof. intros Hn. apply length_FormatUint; [lia|]. unfold two64 in Hn. simpl. lia. Qed.

Lemma length_base64 s : length (base64_encode s) <= 2 * length s + 2.
Proof. induction s as [|a|a b|a b c s IH] using triples_ind; simpl in *; lia. Qed.
