(* ===== verification/Json.v ===== *)
(** Go's [encoding/json], as far as the sources use it: [json.Marshal] of
    structures and maps of strings and unsigned integers, [json.Unmarshal] into
    structures of such fields and byte slices.

    [Unmarshal] first checks the syntax of the whole input and then fills the
    fields; both phases are the one parser [parse_value] here, followed by
    [decode_struct].  As in Go, nesting is limited to 10000, strings are
    converted rune by rune (invalid UTF-8 becomes U+FFFD), [null] leaves a field
    as it is, unknown members are skipped, a member name matches a field exactly
    or up to case folding, and a later member overrides an earlier one. *)

From S2P Require Import Prelude Types Binary Text.

#[warnings="-register-all"]
Inductive json : Type :=
| JNull
| JBool (b : bool)
| JNum (literal : bytes)
| JStr (s : bytes)
| JArr (l : list json)
| JObj (members : list (bytes * json)).

(** ** Writing *)

Definition hex_digit (n : N) : Byte.byte :=
  default Byte.x00 (ascii_bytes "0123456789abcdef" !! N.to_nat n).

(** The escape of an ASCII character, with [escapeHTML] on. *)
Definition quote_ascii (b : Byte.byte) : bytes :=
  match b with
  | Byte.x22 | Byte.x5c => [Byte.x5c; b]
  | Byte.x08 => [Byte.x5c; Byte.x62]
  | Byte.x0c => [Byte.x5c; Byte.x66]
  | Byte.x0a => [Byte.x5c; Byte.x6e]
  | Byte.x0d => [Byte.x5c; Byte.x72]
  | Byte.x09 => [Byte.x5c; Byte.x74]
  | _ =>
      if (Byte.to_N b <? 0x20)%N || bool_decide (b ∈ ascii_bytes "<>&")
      then ascii_bytes "\u00" ++ [hex_digit (Byte.to_N b / 16); hex_digit (Byte.to_N b mod 16)]
      else [b]
  end.

Definition quote_rune (c : option N * bytes) : bytes :=
  match c with
  | (None, _) => ascii_bytes "\ufffd"
  | (Some r, raw) =>
      if (r <? 0x80)%N then quote_ascii (byte_of_N r)
      else if (r =? 0x2028)%N then ascii_bytes "\u2028"
      else if (r =? 0x2029)%N then ascii_bytes "\u2029"
      else raw
  end.

Definition quote_body (s : bytes) : bytes := concat (quote_rune <$> runes s).
Definition quote (s : bytes) : bytes := Byte.x22 :: quote_body s ++ [Byte.x22].

Fixpoint join (sep : Byte.byte) (l : list bytes) : bytes :=
  match l with
  | [] => []
  | [x] => x
  | x :: l' => x ++ sep :: join sep l'
  end.

(** [json.Marshal]: compact, members in the order given. *)
Fixpoint Marshal (j : json) : bytes :=
  match j with
  | JNull => ascii_bytes "null"
  | JBool b => ascii_bytes (if b then "true" else "false")
  | JNum literal => literal
  | JStr s => quote s
  | JArr l => Byte.x5b :: join Byte.x2c (Marshal <$> l) ++ [Byte.x5d]
  | JObj ms =>
      Byte.x7b :: join Byte.x2c ((λ m, quote m.1 ++ Byte.x3a :: Marshal m.2) <$> ms) ++ [Byte.x7d]
  end.

(** ** Reading *)

Definition is_space (b : Byte.byte) : bool := bool_decide (b ∈ [Byte.x20; Byte.x09; Byte.x0d; Byte.x0a]).

Fixpoint skip_ws (s : bytes) : bytes :=
  match s with
  | b :: s' => if is_space b then skip_ws s' else s
  | [] => []
  end.

Fixpoint strip_prefix (p s : bytes) : option bytes :=
  match p, s with
  | [], _ => Some s
  | a :: p, b :: s => if Byte.eqb a b then strip_prefix p s else None
  | _, _ => None
  end.

(** *** Strings *)

Definition hex_value (b : Byte.byte) : option N :=
  let n := Byte.to_N b in
  if within 0x30 0x39 b then Some (n - 0x30)%N
  else if within 0x61 0x66 b then Some (n - 0x61 + 10)%N
  else if within 0x41 0x46 b then Some (n - 0x41 + 10)%N
  else None.

Definition getu4 (s : bytes) : option (N * bytes) :=
  match s with
  | a :: b :: c :: d :: s' =>
      a ← hex_value a; b ← hex_value b; c ← hex_value c; d ← hex_value d;
      Some ((a * 4096 + b * 256 + c * 16 + d)%N, s')
  | _ => None
  end.

(** [utf16.DecodeRune]. *)
Definition utf16_pair (r1 r2 : N) : option N :=
  if (0xD800 <=? r1)%N && (r1 <? 0xDC00)%N && (0xDC00 <=? r2)%N && (r2 <? 0xE000)%N
  then Some ((r1 - 0xD800) * 1024 + (r2 - 0xDC00) + 0x10000)%N else None.

Inductive str_step : Type :=
| StrEnd (rest : bytes)
| StrEmit (out rest : bytes).

(** After a backslash. *)
Definition escape_step (s : bytes) : option str_step :=
  match s with
  | Byte.x22 :: t => Some (StrEmit [Byte.x22] t)
  | Byte.x5c :: t => Some (StrEmit [Byte.x5c] t)
  | Byte.x2f :: t => Some (StrEmit [Byte.x2f] t)
  | Byte.x62 :: t => Some (StrEmit [Byte.x08] t)
  | Byte.x66 :: t => Some (StrEmit [Byte.x0c] t)
  | Byte.x6e :: t => Some (StrEmit [Byte.x0a] t)
  | Byte.x72 :: t => Some (StrEmit [Byte.x0d] t)
  | Byte.x74 :: t => Some (StrEmit [Byte.x09] t)
  | Byte.x75 :: t =>
      '(r, t) ← getu4 t;
      if surrogate r then
        match u ← strip_prefix (ascii_bytes "\u") t; '(r2, u) ← getu4 u; (., u) <$> utf16_pair r r2 with
        | Some (r', u) => Some (StrEmit (encode_rune r') u)
        | None => Some (StrEmit (encode_rune RuneError) t)
        end
      else Some (StrEmit (encode_rune r) t)
  | _ => None
  end.

Definition string_step (s : bytes) : option str_step :=
  match s with
  | [] => None
  | b :: t =>
      if Byte.eqb b Byte.x22 then Some (StrEnd t)
      else if Byte.eqb b Byte.x5c then escape_step t
      else if (Byte.to_N b <? 0x20)%N then None
      else match decode_rune s with
           | Some (r, k) => Some (StrEmit (encode_rune r) (drop k s))
           | None => Some (StrEmit (encode_rune RuneError) t)
           end
  end.

(** The rest of a string after its opening quote. *)
Fixpoint parse_string (fuel : nat) (s : bytes) : option (bytes * bytes) :=
  match fuel with
  | O => None
  | S fuel =>
      match string_step s with
      | None => None
      | Some (StrEnd rest) => Some ([], rest)
      | Some (StrEmit out rest) => '(l, rest) ← parse_string fuel rest; Some (out ++ l, rest)
      end
  end.

(** *** Numbers *)

Fixpoint span_digits (s : bytes) : bytes * bytes :=
  match s with
  | b :: s' => if is_digit b then let '(d, r) := span_digits s' in (b :: d, r) else ([], s)
  | [] => ([], [])
  end.

Definition scan_sign (signs s : bytes) : bytes * bytes :=
  match s with
  | b :: s' => if bool_decide (b ∈ signs) then ([b], s') else ([], s)
  | [] => ([], [])
  end.

Definition scan_int (s : bytes) : option (bytes * bytes) :=
  match s with
  | b :: s' =>
      if Byte.eqb b Byte.x30 then Some ([b], s')
      else if is_digit b then let '(d, r) := span_digits s' in Some (b :: d, r)
      else None
  | [] => None
  end.

Definition digits1 (s : bytes) : option (bytes * bytes) :=
  let '(d, r) := span_digits s in if bool_decide (d = []) then None else Some (d, r).

Definition scan_frac (s : bytes) : option (bytes * bytes) :=
  match s with
  | b :: s' =>
      if Byte.eqb b Byte.x2e then '(d, r) ← digits1 s'; Some (b :: d, r) else Some ([], s)
  | [] => Some ([], [])
  end.

Definition scan_exp (s : bytes) : option (bytes * bytes) :=
  match s with
  | b :: s' =>
      if bool_decide (b ∈ ascii_bytes "eE") then
        let '(sg, s'') := scan_sign (ascii_bytes "+-") s' in
        '(d, r) ← digits1 s''; Some (b :: sg ++ d, r)
      else Some ([], s)
  | [] => Some ([], [])
  end.

Definition scan_number (s : bytes) : option (bytes * bytes) :=
  let '(sg, s) := scan_sign (ascii_bytes "-") s in
  '(i, s) ← scan_int s;
  '(f, s) ← scan_frac s;
  '(e, s) ← scan_exp s;
  Some (sg ++ i ++ f ++ e, s).

(** *** Values *)

Section containers.
Variable value : bytes → option (json * bytes).

Fixpoint parse_elems (fuel : nat) (s : bytes) : option (list json * bytes) :=
  match fuel with
  | O => None
  | S fuel =>
      '(v, r) ← value s;
      match skip_ws r with
      | Byte.x2c :: t => '(vs, r) ← parse_elems fuel t; Some (v :: vs, r)
      | Byte.x5d :: t => Some ([v], t)
      | _ => None
      end
  end.

Definition parse_member (s : bytes) : option (bytes * json * bytes) :=
  match skip_ws s with
  | Byte.x22 :: t =>
      '(k, r) ← parse_string (S (length t)) t;
      match skip_ws r with
      | Byte.x3a :: t => '(v, r) ← value t; Some (k, v, r)
      | _ => None
      end
  | _ => None
  end.

Fixpoint parse_members (fuel : nat) (s : bytes) : option (list (bytes * json) * bytes) :=
  match fuel with
  | O => None
  | S fuel =>
      '(m, r) ← parse_member s;
      match skip_ws r with
      | Byte.x2c :: t => '(ms, r) ← parse_members fuel t; Some (m :: ms, r)
      | Byte.x7d :: t => Some ([m], t)
      | _ => None
      end
  end.

Definition parse_array (s : bytes) : option (json * bytes) :=
  match skip_ws s with
  | Byte.x5d :: t => Some (JArr [], t)
  | s => '(l, r) ← parse_elems (S (length s)) s; Some (JArr l, r)
  end.

Definition parse_object (s : bytes) : option (json * bytes) :=
  match skip_ws s with
  | Byte.x7d :: t => Some (JObj [], t)
  | s => '(l, r) ← parse_members (S (length s)) s; Some (JObj l, r)
  end.
End containers.

Definition parse_scalar (b : Byte.byte) (t : bytes) : option (json * bytes) :=
  match b with
  | Byte.x22 => '(s, r) ← parse_string (S (length t)) t; Some (JStr s, r)
  | Byte.x74 => (JBool true,.) <$> strip_prefix (ascii_bytes "rue") t
  | Byte.x66 => (JBool false,.) <$> strip_prefix (ascii_bytes "alse") t
  | Byte.x6e => (JNull,.) <$> strip_prefix (ascii_bytes "ull") t
  | _ => '(l, r) ← scan_number (b :: t); Some (JNum l, r)
  end.

(** [depth] is how many arrays and objects may still be opened. *)
Fixpoint parse_value (depth : nat) (s : bytes) : option (json * bytes) :=
  match skip_ws s with
  | [] => None
  | b :: t =>
      if Byte.eqb b Byte.x5b then
        match depth with O => None | S depth => parse_array (parse_value depth) t end
      else if Byte.eqb b Byte.x7b then
        match depth with O => None | S depth => parse_object (parse_value depth) t end
      else parse_scalar b t
  end.

Definition maxNestingDepth : nat := Nat.iter 4 (Nat.mul 10) 1.

Definition parse_json (s : bytes) : option json :=
  '(v, r) ← parse_value maxNestingDepth s;
  if bool_decide (skip_ws r = []) then Some v else None.

(** *** Structures *)

(** Case folding, restricted to what can equal an ASCII letter: U+017F folds
    with [s], U+212A with [k]. *)
Definition fold_rune (r : N) : N :=
  if (0x61 <=? r)%N && (r <=? 0x7A)%N then (r - 0x20)%N
  else if (r =? 0x17F)%N then 0x53%N
  else if (r =? 0x212A)%N then 0x4B%N
  else r.

Definition fold_name (s : bytes) : list N := (λ c, fold_rune (default RuneError c.1)) <$> runes s.

(** A field: its name and how a value is stored in it; [None] is an
    [UnmarshalTypeError] or a failed conversion. *)
Definition field (A : Type) : Type := string * (json → A → option A).

Definition find_field {A} (fs : list (field A)) (k : bytes) : option (json → A → option A) :=
  match list_find (λ f, ascii_bytes f.1 = k) fs with
  | Some (_, f) => Some f.2
  | None => (λ p, p.2.2) <$> list_find (λ f, fold_name (ascii_bytes f.1) = fold_name k) fs
  end.

Definition store_member {A} (fs : list (field A)) (a : A) (m : bytes * json) : option A :=
  match find_field fs m.1 with
  | Some set => set m.2 a
  | None => Some a
  end.

Fixpoint store_members {A} (fs : list (field A)) (a : A) (ms : list (bytes * json)) : option A :=
  match ms with
  | [] => Some a
  | m :: ms => a ← store_member fs a m; store_members fs a ms
  end.

Definition decode_struct {A} (fs : list (field A)) (zero : A) (j : json) : option A :=
  match j with
  | JNull => Some zero
  | JObj ms => store_members fs zero ms
  | _ => None
  end.

(** [json.Unmarshal(s, &v)] for a structure [v] with zero value [zero]. *)
Definition Unmarshal {A} (fs : list (field A)) (zero : A) (s : bytes) : option A :=
  parse_json s ≫= decode_struct fs zero.

Definition decode_uint (lim : N) (j : json) (old : N) : option N :=
  match j with
  | JNull => Some old
  | JNum l => ParseUint lim l
  | _ => None
  end.

Definition decode_string (j : json) (old : string) : option string :=
  match j with
  | JNull => Some old
  | JStr s => Some (String.string_of_list_byte s)
  | _ => None
  end.

(** A byte slice is written as a base64 string; an array of numbers is read as
    well. *)
Definition decode_bytes (j : json) (old : bytes) : option bytes :=
  match j with
  | JNull => Some []
  | JStr s => base64_decode s
  | JArr l => mapM (λ e, byte_of_N <$> decode_uint 256 e 0) l
  | _ => None
  end.

Definition json_string (s : string) : json := JStr (ascii_bytes s).
Definition json_uint (n : N) : json := JNum (FormatUint n).

(** A nil slice is written as [null]; the empty slice that is not nil, which
    would be [""], reads back as the same sequence of bytes. *)
Definition json_bytes (b : bytes) : json :=
  if bool_decide (b = []) then JNull else JStr (base64_encode b).

(** ** Reading what was written *)

Lemma eqb_high b c : (0x80 <= Byte.to_N b)%N → (Byte.to_N c < 0x80)%N → Byte.eqb b c = false.
Proof.
  intros Hb Hc. destruct (Byte.eqb b c) eqn:E; [|done].
  apply Byte.byte_dec_bl in E as ->. lia.
Qed.

Lemma string_step_raw s r k tl :
  decode_rune s = Some (r, k) → (0x80 <= r)%N →
  string_step (take k s ++ tl) = Some (StrEmit (take k s) tl).
Proof.
  intros Hd Hr. pose proof (decode_rune_take s r k tl Hd) as Hd'.
  pose proof (decode_rune_width _ _ _ Hd) as Hk.
  destruct s as [|b s]; [done|]. destruct k as [|k]; [lia|].
  assert (Hb : (0x80 <= Byte.to_N b)%N).
  { destruct (N.lt_ge_cases (Byte.to_N b) 0x80) as [Hlt|?]; [|done].
    rewrite (decode_ascii _ _ Hlt) in Hd. injection Hd as <- _. lia. }
  cbn [take app] in *. unfold string_step. rewrite Hd', !eqb_high by done.
  replace (Byte.to_N b <? 32)%N with false by (symmetry; apply N.ltb_ge; lia).
  rewrite (encode_decode_rune _ _ _ Hd). simpl in *. do 2 f_equal.
  rewrite drop_app_length'; [done|]. rewrite length_take. lia.
Qed.

Lemma string_step_ascii b tl :
  (Byte.to_N b < 0x80)%N → string_step (quote_ascii b ++ tl) = Some (StrEmit [b] tl).
Proof. destruct b; try (intros H; exfalso; vm_compute in H; done); intros _; reflexivity. Qed.

Lemma string_step_good s r k tl :
  decode_rune s = Some (r, k) →
  string_step (quote_rune (Some r, take k s) ++ tl) = Some (StrEmit (take k s) tl).
Proof.
  intros Hd. unfold quote_rune. destruct (N.ltb_spec r 0x80) as [Hr|Hr].
  - assert (Ht : take k s = [byte_of_N r]).
    { rewrite <- (encode_decode_rune _ _ _ Hd). unfold encode_rune.
      rewrite (decode_rune_scalar _ _ _ Hd). by apply N.ltb_lt in Hr as ->. }
    rewrite Ht. apply string_step_ascii. by rewrite to_N_byte_of_N_small by lia.
  - destruct (N.eqb_spec r 0x2028) as [->|]; [|destruct (N.eqb_spec r 0x2029) as [->|]].
    1,2: rewrite <- (encode_decode_rune _ _ _ Hd); reflexivity.
    by apply (string_step_raw s r k).
Qed.

Lemma string_step_bad c tl :
  string_step (quote_rune (None, c) ++ tl) = Some (StrEmit (encode_rune RuneError) tl).
Proof. reflexivity. Qed.

Lemma quote_rune_nonempty s r k : decode_rune s = Some (r, k) → quote_rune (Some r, take k s) ≠ [].
Proof.
  intros Hd E. pose proof (string_step_good s r k [] Hd) as H. by rewrite E in H.
Qed.

(** Reading a quoted string gives its valid runes back, and U+FFFD for each
    other byte. *)
Lemma parse_string_quote s rest fuel :
  length (quote_body s) < fuel →
  parse_string fuel (quote_body s ++ Byte.x22 :: rest) = Some (sanitize s, rest).
Proof.
  revert fuel. induction s as [|b s E IH|s r k E IH] using runes_ind; intros fuel Hf.
  - destruct fuel; [simpl in Hf; lia|]. reflexivity.
  - unfold quote_body in *. rewrite runes_cons, E in *. rewrite fmap_cons in *.
    cbn [concat] in *. rewrite <- app_assoc. destruct fuel as [|fuel]; [lia|].
    cbn [parse_string]. rewrite string_step_bad, IH by (rewrite length_app in Hf; simpl in Hf; lia).
    by rewrite (sanitize_bad _ _ E).
  - unfold quote_body in *. rewrite (runes_step _ _ _ E) in *. rewrite fmap_cons in *.
    cbn [concat] in *. rewrite <- app_assoc. destruct fuel as [|fuel]; [lia|].
    assert (length (quote_rune (Some r, take k s)) ≠ 0).
    { intros H%length_zero_iff_nil. by apply (quote_rune_nonempty _ _ _ E). }
    cbn [parse_string]. rewrite string_step_good, IH by (rewrite ?length_app in Hf; done || lia).
    by rewrite (sanitize_good _ _ _ E).
Qed.

Lemma skip_ws_stop b t : is_space b = false → skip_ws (b :: t) = b :: t.
Proof. simpl. by intros ->. Qed.

(** What may follow a number without becoming part of it. *)
Definition num_stop (rest : bytes) : Prop :=
  match rest with
  | [] => True
  | b :: _ => is_digit b = false ∧ b ≠ Byte.x2e ∧ b ≠ Byte.x65 ∧ b ≠ Byte.x45
  end.

Lemma span_digits_app s rest :
  Forall is_digit s → num_stop rest → span_digits (s ++ rest) = (s, rest).
Proof.
  intros Hs Hr. induction Hs as [|b s Hb _ IH]; simpl.
  - destruct rest as [|b r]; [done|]. destruct Hr as [Hd _]. simpl. by rewrite Hd.
  - destruct (is_digit b); [by rewrite IH|done].
Qed.

Lemma scan_tail_stop rest :
  num_stop rest → scan_frac rest = Some ([], rest) ∧ scan_exp rest = Some ([], rest).
Proof.
  destruct rest as [|b r]; [done|]. intros (Hd & Hdot & He). unfold scan_frac, scan_exp.
  rewrite bool_decide_eq_false_2 by (vm_compute ascii_bytes; set_solver). split; [|done].
  destruct (Byte.eqb b Byte.x2e) eqn:E; [by apply Byte.byte_dec_bl in E|done].
Qed.

Lemma scan_number_uint n rest :
  num_stop rest → scan_number (FormatUint n ++ rest) = Some (FormatUint n, rest).
Proof.
  intros Hr. apply scan_tail_stop in Hr as Ht. destruct Ht as [Hf He].
  destruct (FormatUint_head n) as [->|(b & s & -> & Hb & Hz & Hs)]; unfold scan_number.
  - simpl. rewrite Hf. simpl. by rewrite He.
  - assert (Hm : scan_sign (ascii_bytes "-") ((b :: s) ++ rest) = ([], b :: s ++ rest)).
    { simpl. rewrite bool_decide_eq_false_2; [done|].
      intros ->%list_elem_of_singleton. by vm_compute in Hb. }
    rewrite Hm. unfold scan_int. destruct (Byte.eqb b Byte.x30) eqn:E.
    { by apply Byte.byte_dec_bl in E. }
    rewrite Hb, span_digits_app by done. simpl. rewrite Hf. simpl. rewrite He. simpl.
    by rewrite app_nil_r.
Qed.

Lemma parse_value_head d b t :
  is_space b = false → b ≠ Byte.x5b → b ≠ Byte.x7b → parse_value d (b :: t) = parse_scalar b t.
Proof.
  intros Hs Ha Ho. destruct d; cbn [parse_value skip_ws]; rewrite Hs.
  all: destruct (Byte.eqb b Byte.x5b) eqn:E; [by apply Byte.byte_dec_bl in E|].
  all: by destruct (Byte.eqb b Byte.x7b) eqn:E'; [apply Byte.byte_dec_bl in E'|].
Qed.

Lemma parse_scalar_digit d b t :
  is_digit b = true →
  parse_value d (b :: t) = '(l, r) ← scan_number (b :: t); Some (JNum l, r).
Proof.
  intros Hb. rewrite parse_value_head by (intros ->; by vm_compute in Hb) || (destruct b; done).
  destruct b; try done.
Qed.

Lemma parse_value_uint d n rest :
  num_stop rest → parse_value d (FormatUint n ++ rest) = Some (JNum (FormatUint n), rest).
Proof.
  intros Hr. pose proof (scan_number_uint n rest Hr) as Hs.
  assert (Hh : ∃ b s, FormatUint n = b :: s ∧ is_digit b = true).
  { destruct (FormatUint_head n) as [->|(b & s & -> & ? & _)]; eauto. }
  destruct Hh as (b & s & E & Hb). rewrite E in *. simpl app in *.
  by rewrite parse_scalar_digit, Hs.
Qed.

Lemma parse_value_quote d s rest :
  parse_value d (quote s ++ rest) = Some (JStr (sanitize s), rest).
Proof.
  unfold quote. cbn [app]. rewrite <- app_assoc. cbn [app]. rewrite parse_value_head by done.
  unfold parse_scalar. rewrite parse_string_quote; [done|].
  rewrite length_app. simpl. lia.
Qed.

(** The value as it is read back. *)
Fixpoint sanitize_json (j : json) : json :=
  match j with
  | JStr s => JStr (sanitize s)
  | JArr l => JArr (sanitize_json <$> l)
  | JObj ms => JObj ((λ m, (sanitize m.1, sanitize_json m.2)) <$> ms)
  | _ => j
  end.

(** The values that the sources write: numbers are natural numbers; [d]
    bounds the nesting. *)
Fixpoint json_ok (d : nat) (j : json) : Prop :=
  match j with
  | JNum l => ∃ n, l = FormatUint n
  | JArr l => match d with O => False | S d => Forall (json_ok d) l end
  | JObj ms => match d with O => False | S d => Forall (λ m, json_ok d m.2) ms end
  | _ => True
  end.

Lemma Marshal_head d j :
  json_ok d j → ∃ b t, Marshal j = b :: t ∧ is_space b = false ∧ b ≠ Byte.x5d.
Proof.
  destruct d; (destruct j as [|[]|l|s|l|ms]; simpl; intros Hj; try by (eexists _, _; split; [reflexivity|])).
  all: destruct Hj as [n ->].
  all: destruct (FormatUint_head n) as [->|(b & s & -> & Hb & _)]; [by eexists _, _; split; [reflexivity|]|].
  all: exists b, s; split; [done|]; destruct b; done.
Qed.

Lemma length_join sep l : length l <= S (length (join sep l)).
Proof.
  induction l as [|x [|y l] IH]; simpl in *; [lia..|].
  rewrite length_app. simpl. lia.
Qed.

Lemma join_cons sep x l :
  l ≠ [] → join sep (x :: l) = x ++ sep :: join sep l.
Proof. by destruct l. Qed.

Section round_trip.
Variable d : nat.
Variable value : bytes → option (json * bytes).
Hypothesis value_ok : ∀ j rest,
  json_ok d j → num_stop rest → value (Marshal j ++ rest) = Some (sanitize_json j, rest).

Lemma parse_elems_ok l rest fuel :
  l ≠ [] → Forall (json_ok d) l → length l <= fuel →
  parse_elems value fuel (join Byte.x2c (Marshal <$> l) ++ Byte.x5d :: rest) =
    Some (sanitize_json <$> l, rest).
Proof.
  intros Hne Hl. revert fuel Hne. induction Hl as [|j l Hj Hl IH]; intros fuel Hne Hf; [done|].
  destruct fuel as [|fuel]; [simpl in Hf; lia|]. cbn [parse_elems].
  destruct l as [|j' l].
  - cbn [fmap list_fmap join]. by rewrite value_ok.
  - rewrite fmap_cons, join_cons by done. rewrite <- app_assoc. cbn [app].
    rewrite value_ok by done. cbn [mbind option_bind]. rewrite skip_ws_stop by done. cbv beta iota.
    rewrite IH by (done || simpl in *; lia). done.
Qed.

Lemma parse_members_ok ms rest fuel :
  ms ≠ [] → Forall (λ m, json_ok d m.2) ms → length ms <= fuel →
  parse_members value fuel
    (join Byte.x2c ((λ m, quote m.1 ++ Byte.x3a :: Marshal m.2) <$> ms) ++ Byte.x7d :: rest) =
    Some ((λ m, (sanitize m.1, sanitize_json m.2)) <$> ms, rest).
Proof.
  assert (Hmem : ∀ m tl, json_ok d m.2 → num_stop tl →
    parse_member value ((quote m.1 ++ Byte.x3a :: Marshal m.2) ++ tl) =
      Some (sanitize m.1, sanitize_json m.2, tl)).
  { intros m tl Hm Htl. unfold parse_member, quote. rewrite <- app_assoc. simpl app.
    rewrite skip_ws_stop by done. cbv beta iota. rewrite <- app_assoc. cbn [app].
    rewrite parse_string_quote by (rewrite length_app; simpl; lia).
    cbn [mbind option_bind]. rewrite skip_ws_stop by done. cbv beta iota. by rewrite value_ok. }
  intros Hne Hl. revert fuel Hne. induction Hl as [|m ms Hm Hl IH]; intros fuel Hne Hf; [done|].
  destruct fuel as [|fuel]; [simpl in Hf; lia|]. cbn [parse_members].
  destruct ms as [|m' ms].
  - cbn [fmap list_fmap join]. by rewrite Hmem.
  - rewrite fmap_cons, join_cons by done. rewrite <- app_assoc. cbn [app].
    rewrite Hmem by done. cbn [mbind option_bind]. rewrite skip_ws_stop by done. cbv beta iota.
    rewrite IH by (done || simpl in *; lia). done.
Qed.
End round_trip.

Lemma parse_array_ok d value l rest :
  (∀ j rest, json_ok d j → num_stop rest → value (Marshal j ++ rest) = Some (sanitize_json j, rest)) →
  Forall (json_ok d) l →
  parse_array value (join Byte.x2c (Marshal <$> l) ++ Byte.x5d :: rest) =
    Some (JArr (sanitize_json <$> l), rest).
Proof.
  intros Hv Hl. destruct l as [|j l]; [done|]. unfold parse_array.
  set (s := join _ _ ++ _).
  assert (Hs : ∃ b t, s = b :: t ∧ is_space b = false ∧ b ≠ Byte.x5d).
  { destruct (Marshal_head d j) as (b & t & E & Hb); [by apply Forall_inv in Hl|].
    unfold s. destruct l; simpl; rewrite E; simpl; eauto. }
  assert (He : parse_elems value (S (length s)) s = Some (sanitize_json <$> j :: l, rest)).
  { unfold s. apply (parse_elems_ok d); [done..|].
    pose proof (length_join Byte.x2c (Marshal <$> j :: l)) as Hlen.
    rewrite length_fmap in Hlen. rewrite length_app. simpl in *. lia. }
  destruct Hs as (b & t & Es & Hb & Hne). rewrite Es in *. clear Es. rewrite skip_ws_stop by done.
  by destruct b; try done; rewrite He.
Qed.

Lemma parse_object_ok d value ms rest :
  (∀ j rest, json_ok d j → num_stop rest → value (Marshal j ++ rest) = Some (sanitize_json j, rest)) →
  Forall (λ m, json_ok d m.2) ms →
  parse_object value
    (join Byte.x2c ((λ m, quote m.1 ++ Byte.x3a :: Marshal m.2) <$> ms) ++ Byte.x7d :: rest) =
    Some (JObj ((λ m, (sanitize m.1, sanitize_json m.2)) <$> ms), rest).
Proof.
  intros Hv Hl. destruct ms as [|m ms]; [done|]. unfold parse_object.
  set (s := join _ _ ++ _).
  assert (Hs : ∃ t, s = Byte.x22 :: t) by (unfold s; destruct ms; simpl; eauto).
  assert (He : parse_members value (S (length s)) s =
    Some ((λ m, (sanitize m.1, sanitize_json m.2)) <$> m :: ms, rest)).
  { unfold s. apply (parse_members_ok d); [done..|].
    pose proof (length_join Byte.x2c ((λ m, quote m.1 ++ Byte.x3a :: Marshal m.2) <$> m :: ms)) as Hlen.
    rewrite length_fmap in Hlen. rewrite length_app. simpl in *. lia. }
  destruct Hs as (t & Es). rewrite Es in *. clear Es. rewrite skip_ws_stop by done. cbv beta iota.
  by rewrite He.
Qed.

(** Reading what [Marshal] wrote gives the value back, with its strings
    converted to valid UTF-8. *)
Lemma parse_Marshal d j rest :
  json_ok d j → num_stop rest → parse_value d (Marshal j ++ rest) = Some (sanitize_json j, rest).
Proof.
  revert j rest. induction d as [|d IH]; intros j rest Hj Hr;
    (destruct j as [|[]|l|s|l|ms]; [done|done|done| | | |]); simpl in Hj; try done.
  1,3: by destruct Hj as [n ->]; apply parse_value_uint.
  1,2: by apply parse_value_quote.
  - cbn [Marshal parse_value app]. rewrite skip_ws_stop by done. cbn [Byte.eqb]. rewrite <- app_assoc.
    by apply (parse_array_ok d).
  - cbn [Marshal parse_value app]. rewrite skip_ws_stop by done. cbn [Byte.eqb]. rewrite <- app_assoc.
    by apply (parse_object_ok d).
Qed.

Lemma parse_json_Marshal j :
  json_ok maxNestingDepth j → parse_json (Marshal j) = Some (sanitize_json j).
Proof.
  intros Hj. unfold parse_json. rewrite <- (app_nil_r (Marshal j)).
  rewrite (parse_Marshal _ _ _ Hj) by done. done.
Qed.

(** Numbers, strings, [null] and booleans. *)
Definition scalar (j : json) : Prop :=
  match j with
  | JNum l => ∃ n, l = FormatUint n
  | JArr _ | JObj _ => False
  | _ => True
  end.

Lemma scalar_ok d j : scalar j → json_ok d j.
Proof. by destruct d, j. Qed.

Lemma flat_object_ok ms :
  Forall (λ m, scalar m.2) ms → json_ok maxNestingDepth (JObj ms).
Proof.
  intros H. assert (Hd : ∃ d, maxNestingDepth = S d) by by (eexists; vm_compute; reflexivity).
  destruct Hd as [d ->]. simpl. eapply Forall_impl; [exact H|]. intros m. apply scalar_ok.
Qed.

(** Reading a flat object into a structure: the members are stored as they
    were written, strings converted to valid UTF-8. *)
Lemma Unmarshal_Marshal {A} (fs : list (field A)) zero ms :
  Forall (λ m, scalar m.2) ms →
  Unmarshal fs zero (Marshal (JObj ms)) =
    store_members fs zero ((λ m, (sanitize m.1, sanitize_json m.2)) <$> ms).
Proof.
  intros H%flat_object_ok. unfold Unmarshal. by rewrite parse_json_Marshal.
Qed.

Lemma json_uint_scalar n : scalar (json_uint n).
Proof. by exists n. Qed.

Lemma json_string_scalar s : scalar (json_string s).
Proof. done. Qed.

Lemma json_bytes_scalar b : scalar (json_bytes b).
Proof. unfold json_bytes. by case_bool_decide. Qed.

#[export] Hint Resolve json_uint_scalar json_string_scalar json_bytes_scalar : raft.

Ltac scalars := repeat first [apply Forall_nil_2 | apply Forall_cons_2]; cbn [snd]; auto with raft.

Lemma decode_json_uint lim n old :
  (n < lim)%N → decode_uint lim (sanitize_json (json_uint n)) old = Some n.
Proof. apply ParseUint_FormatUint. Qed.

(** A Go string with each invalid byte replaced. *)
Definition sanitize_string (s : string) : string :=
  String.string_of_list_byte (sanitize (ascii_bytes s)).

Definition valid_string (s : string) : bool := valid_utf8 (ascii_bytes s).

Lemma decode_json_string s old :
  decode_string (sanitize_json (json_string s)) old = Some (sanitize_string s).
Proof. done. Qed.

Lemma sanitize_string_valid s : valid_string s = true → sanitize_string s = s.
Proof.
  intros H%sanitize_valid. unfold sanitize_string, ascii_bytes in *.
  by rewrite H, String.string_of_list_byte_of_string.
Qed.

Lemma decode_json_bytes b old : decode_bytes (sanitize_json (json_bytes b)) old = Some b.
Proof.
  unfold json_bytes. case_bool_decide as E; [by rewrite E|]. simpl.
  rewrite sanitize_valid; [apply base64_decode_encode|].
  apply valid_utf8_ascii. eapply Forall_impl; [apply base64_plain|]. by intros x [_ ?].
Qed.

(** ** Sizes *)

Lemma length_quote_ascii b : length (quote_ascii b) <= 6.
Proof. destruct b; vm_compute; lia. Qed.

Lemma length_quote s : length (quote s) <= 6 * length s + 2.
Proof.
  unfold quote, quote_body. simpl. rewrite length_app. simpl.
  enough (length (concat (quote_rune <$> runes s)) <= 6 * length s) by lia.
  induction s as [|b s E IH|s r k E IH] using runes_ind; [simpl; lia|..].
  - rewrite runes_cons, E, fmap_cons. cbn [concat]. rewrite length_app.
    change (length (quote_rune (None, [b]))) with 6. cbn [length]. lia.
  - rewrite (runes_step _ _ _ E), fmap_cons. cbn [concat]. rewrite length_app.
    apply decode_rune_width in E as Hk. rewrite length_drop in IH.
    assert (Hq : length (quote_rune (Some r, take k s)) <= 6 * k); [|lia].
    unfold quote_rune. pose proof (length_quote_ascii (byte_of_N r)).
    change (length (ascii_bytes "\u2028")) with 6. split_ifs; rewrite ?length_take; try lia.
    all: by change (6 <= 6 * k); lia.
Qed.
