(* ===== verification/JsonFuel.v ===== *)
(** The parsers of Json.v consume their input, so that the length of the input is
    fuel enough for them. *)

From S2P Require Import Prelude Types Binary Text Json.

Lemma skip_ws_le s : length (skip_ws s) <= length s.
Proof. induction s as [|b s IH]; simpl; [lia|]. destruct (is_space b); simpl; lia. Qed.

Lemma strip_prefix_le p s r : strip_prefix p s = Some r → length r <= length s.
Proof.
  revert s. induction p as [|b p IH]; intros [|b' s]; simpl; intros H; simplify_eq; simpl; try lia.
  destruct (Byte.eqb b b'); [|done]. apply IH in H. lia.
Qed.

Lemma getu4_le s x r : getu4 s = Some (x, r) → length r <= length s.
Proof.
  unfold getu4. destruct s as [|a [|b [|c [|d s]]]]; try done. intros H.
  repeat (apply bind_Some in H as (? & _ & H)). simplify_eq. simpl. lia.
Qed.

Lemma escape_step_le s st :
  escape_step s = Some st → ∃ out r, st = StrEmit out r ∧ length r < length s.
Proof.
  destruct s as [|b t]; [done|]. unfold escape_step.
  destruct b; try done; try (intros [= <-]; eexists _, _; split; [done|simpl; lia]).
  intros ((r, t') & H1 & H)%bind_Some. apply getu4_le in H1. simpl length.
  destruct (surrogate r); [|simplify_eq; eexists _, _; split; [done|lia]].
  destruct (_ ≫= _) as [[r' u]|] eqn:E; simplify_eq; eexists _, _; (split; [done|]); [|lia].
  apply bind_Some in E as (u1 & Hu1%strip_prefix_le & E). apply bind_Some in E as ((r2, u2) & Hu2%getu4_le & E).
  apply fmap_Some in E as (? & _ & E). simplify_eq. lia.
Qed.

Lemma string_step_shrinks s st :
  string_step s = Some st →
  match st with StrEnd r | StrEmit _ r => length r < length s end.
Proof.
  destruct s as [|b t]; [done|]. unfold string_step.
  destruct (Byte.eqb b Byte.x22); [intros [= <-]; simpl; lia|].
  destruct (Byte.eqb b Byte.x5c); [intros (? & ? & -> & ?)%escape_step_le; simpl; lia|].
  destruct (_ <? _)%N; [done|]. destruct (decode_rune (b :: t)) as [[r k]|] eqn:E; intros [= <-]; [|simpl; lia].
  apply decode_rune_width in E. rewrite length_drop. lia.
Qed.

Lemma parse_string_shrinks fuel s l r : parse_string fuel s = Some (l, r) → length r < length s.
Proof.
  revert s l r. induction fuel as [|fuel IH]; intros s l r; [done|]. cbn [parse_string].
  destruct (string_step s) as [[r'|out r']|] eqn:E; [| |done]; apply string_step_shrinks in E.
  - by intros [= _ <-].
  - intros ([l' r''] & H%IH & [= _ <-])%bind_Some. lia.
Qed.

Lemma parse_string_fuel f1 f2 s : length s < f1 → length s < f2 → parse_string f1 s = parse_string f2 s.
Proof.
  revert f2 s. induction f1 as [|f1 IH]; intros [|f2] s H1 H2; [lia..|]. cbn [parse_string].
  destruct (string_step s) as [[r|out r]|] eqn:E; try done. apply string_step_shrinks in E.
  by rewrite (IH f2) by lia.
Qed.

Lemma span_digits_le s d r : span_digits s = (d, r) → length d + length r = length s.
Proof.
  revert d r. induction s as [|b s IH]; intros d r; simpl; [by intros [= <- <-]|].
  destruct (is_digit b); [|by intros [= <- <-]]. destruct (span_digits s) as [d' r'].
  intros [= <- <-]. simpl. by rewrite (IH d' r').
Qed.

Lemma scan_sign_le signs s sg r : scan_sign signs s = (sg, r) → length r <= length s.
Proof. destruct s as [|b s]; simpl; [by intros [= _ <-]|]. case_bool_decide; intros [= _ <-]; simpl; lia. Qed.

Lemma digits1_le s d r : digits1 s = Some (d, r) → length r <= length s.
Proof.
  unfold digits1. destruct (span_digits s) as [d' r'] eqn:E. apply span_digits_le in E.
  case_bool_decide; [done|]. intros [= _ <-]. lia.
Qed.

Lemma scan_int_shrinks s d r : scan_int s = Some (d, r) → length r < length s.
Proof.
  destruct s as [|b s]; [done|]. simpl. destruct (Byte.eqb b Byte.x30); [intros [= _ <-]; lia|].
  destruct (is_digit b); [|done]. destruct (span_digits s) as [d' r'] eqn:E. apply span_digits_le in E.
  intros [= _ <-]. lia.
Qed.

Lemma scan_frac_le s d r : scan_frac s = Some (d, r) → length r <= length s.
Proof.
  destruct s as [|b s]; [by intros [= _ <-]|]. simpl. destruct (Byte.eqb b Byte.x2e); [|by intros [= _ <-]].
  intros ([d' r'] & H%digits1_le & [= _ <-])%bind_Some. lia.
Qed.

Lemma scan_exp_le s d r : scan_exp s = Some (d, r) → length r <= length s.
Proof.
  destruct s as [|b s]; [by intros [= _ <-]|]. unfold scan_exp. case_bool_decide; [|by intros [= _ <-]].
  destruct (scan_sign (ascii_bytes "+-") s) as [sg s'] eqn:E. apply scan_sign_le in E.
  intros ([d' r'] & H'%digits1_le & [= _ <-])%bind_Some. simpl. lia.
Qed.

Lemma scan_number_shrinks s l r : scan_number s = Some (l, r) → length r < length s.
Proof.
  unfold scan_number. destruct (scan_sign (ascii_bytes "-") s) as [sg s1] eqn:E. apply scan_sign_le in E.
  intros ([i s2] & H1%scan_int_shrinks & H)%bind_Some.
  apply bind_Some in H as ([f s3] & H2%scan_frac_le & H). apply bind_Some in H as ([e s4] & H3%scan_exp_le & H).
  injection H as _ <-. lia.
Qed.

Lemma parse_scalar_shrinks b t v r : parse_scalar b t = Some (v, r) → length r < length (b :: t).
Proof.
  assert (Hnum : ('(l, r) ← scan_number (b :: t); Some (JNum l, r)) = Some (v, r) → length r < length (b :: t)).
  { intros ([l r'] & H%scan_number_shrinks & [= _ <-])%bind_Some. done. }
  unfold parse_scalar. destruct b; try exact Hnum; clear Hnum.
  - intros ([s r'] & H%parse_string_shrinks & [= _ <-])%bind_Some. simpl. lia.
  - intros (r' & H%strip_prefix_le & [= _ <-])%fmap_Some. simpl. lia.
  - intros (r' & H%strip_prefix_le & [= _ <-])%fmap_Some. simpl. lia.
  - intros (r' & H%strip_prefix_le & [= _ <-])%fmap_Some. simpl. lia.
Qed.

Section containers_fuel.
Context (value : bytes → option (json * bytes)).
Context (Hvalue : ∀ s v r, value s = Some (v, r) → length r < length s).

Lemma parse_member_shrinks s m r : parse_member value s = Some (m, r) → length r < length s.
Proof using Hvalue.
  unfold parse_member. pose proof (skip_ws_le s) as Hs. destruct (skip_ws s) as [|b t]; [done|].
  assert (H : ('(k, r) ← parse_string (S (length t)) t;
      match skip_ws r with Byte.x3a :: t => '(v, r) ← value t; Some (k, v, r) | _ => None end) = Some (m, r) →
      length r < length s); [|by destruct b].
  intros ([k r1] & H1%parse_string_shrinks & H)%bind_Some. pose proof (skip_ws_le r1) as Hr1.
  destruct (skip_ws r1) as [|b' t']; [done|]. simpl in *. destruct b'; try done.
  apply bind_Some in H as ([v r2] & H2%Hvalue & [= _ <-]). lia.
Qed.

Lemma parse_elems_shrinks fuel s l r : parse_elems value fuel s = Some (l, r) → length r < length s.
Proof using Hvalue.
  revert s l r. induction fuel as [|fuel IH]; intros s l r; [done|]. cbn [parse_elems].
  intros ([v r1] & H1%Hvalue & H)%bind_Some. pose proof (skip_ws_le r1) as Hr1.
  destruct (skip_ws r1) as [|b t]; [done|]. simpl in Hr1. destruct b; try done.
  - apply bind_Some in H as ([vs r2] & H2%IH & [= _ <-]). lia.
  - injection H as _ <-. lia.
Qed.

Lemma parse_elems_fuel f1 f2 s :
  length s < f1 → length s < f2 → parse_elems value f1 s = parse_elems value f2 s.
Proof using Hvalue.
  revert f2 s. induction f1 as [|f1 IH]; intros [|f2] s H1 H2; [lia..|]. cbn [parse_elems].
  destruct (value s) as [[v r]|] eqn:E; [|done]. apply Hvalue in E. cbn [mbind option_bind].
  pose proof (skip_ws_le r) as Hr. destruct (skip_ws r) as [|b t]; [done|]. simpl in Hr. destruct b; try done.
  by rewrite (IH f2) by lia.
Qed.

Lemma parse_members_shrinks fuel s l r : parse_members value fuel s = Some (l, r) → length r < length s.
Proof using Hvalue.
  revert s l r. induction fuel as [|fuel IH]; intros s l r; [done|]. cbn [parse_members].
  intros ([m r1] & H1%parse_member_shrinks & H)%bind_Some. pose proof (skip_ws_le r1) as Hr1.
  destruct (skip_ws r1) as [|b t]; [done|]. simpl in Hr1. destruct b; try done.
  - apply bind_Some in H as ([vs r2] & H2%IH & [= _ <-]). lia.
  - injection H as _ <-. lia.
Qed.

Lemma parse_members_fuel f1 f2 s :
  length s < f1 → length s < f2 → parse_members value f1 s = parse_members value f2 s.
Proof using Hvalue.
  revert f2 s. induction f1 as [|f1 IH]; intros [|f2] s H1 H2; [lia..|]. cbn [parse_members].
  destruct (parse_member value s) as [[m r]|] eqn:E; [|done]. apply parse_member_shrinks in E. cbn [mbind option_bind].
  pose proof (skip_ws_le r) as Hr. destruct (skip_ws r) as [|b t]; [done|]. simpl in Hr. destruct b; try done.
  by rewrite (IH f2) by lia.
Qed.

Lemma parse_array_shrinks s v r : parse_array value s = Some (v, r) → length r < length s.
Proof using Hvalue.
  unfold parse_array. pose proof (skip_ws_le s) as Hs. set (t := skip_ws s) in *. clearbody t.
  assert (H : ('(l, r) ← parse_elems value (S (length t)) t; Some (JArr l, r)) = Some (v, r) → length r < length s).
  { intros ([l r'] & H%parse_elems_shrinks & [= _ <-])%bind_Some. lia. }
  destruct t as [|b t]; [done|]. destruct b; try exact H. intros [= _ <-]. simpl in Hs. lia.
Qed.

Lemma parse_object_shrinks s v r : parse_object value s = Some (v, r) → length r < length s.
Proof using Hvalue.
  unfold parse_object. pose proof (skip_ws_le s) as Hs. set (t := skip_ws s) in *. clearbody t.
  assert (H : ('(l, r) ← parse_members value (S (length t)) t; Some (JObj l, r)) = Some (v, r) → length r < length s).
  { intros ([l r'] & H%parse_members_shrinks & [= _ <-])%bind_Some. lia. }
  destruct t as [|b t]; [done|]. destruct b; try exact H. intros [= _ <-]. simpl in Hs. lia.
Qed.
End containers_fuel.

Lemma parse_value_shrinks depth s v r : parse_value depth s = Some (v, r) → length r < length s.
Proof.
  revert s v r. induction depth as [|depth IH]; intros s v r; cbn [parse_value];
    pose proof (skip_ws_le s) as Hs; (destruct (skip_ws s) as [|b t]; [done|]); simpl in Hs;
    (destruct (Byte.eqb b Byte.x5b); [|destruct (Byte.eqb b Byte.x7b)]); try done;
    try (intros H%parse_scalar_shrinks; simpl in H; lia).
  - intros H%parse_array_shrinks; [lia|done].
  - intros H%parse_object_shrinks; [lia|done].
Qed.

(** The parsers never run out of fuel: with more of it they give the same.
    (The nesting depth is a limit of encoding/json, not fuel.) *)
Lemma parse_fuel_enough depth s fuel :
  length s < fuel →
  parse_string fuel s = parse_string (S (length s)) s ∧
  parse_elems (parse_value depth) fuel s = parse_elems (parse_value depth) (S (length s)) s ∧
  parse_members (parse_value depth) fuel s = parse_members (parse_value depth) (S (length s)) s.
Proof.
  intros Hf. split_and!; [apply parse_string_fuel|apply parse_elems_fuel|apply parse_members_fuel];
    try lia; apply parse_value_shrinks.
Qed.
