(* ===== verification/Wal.v ===== *)
(** The write-ahead log: src/internal/storage/wal.go.

    The directory of the log is a map from names to file contents (or
    subdirectories).  Every call to the operating system takes its outcome
    from a list of faults, so an execution with failing reads, writes, syncs or
    truncations is a run of the same definitions; an empty list means that
    nothing fails any more.  A write that fails may have stored a part of its
    bytes.

    The definitions follow wal.go operation by operation.  WalSpec.v shows that
    a log on a disk without faults meets [StorageSpec], the specification
    against which the Raft node is verified; WalFaults.v shows what torn, damaged
    and failing writes and reads do. *)

From S2P Require Import Prelude Types Storage Binary Text Json.

(** ** The operating system *)

(** The outcome of a call: done, or failed after [stored] bytes. *)
Inductive fault : Type :=
| Fine
| Fails (stored : nat) (msg : string).

Record os : Type := mkOS {
  os_dir : gmap string (option bytes);
  os_faults : list fault;
}.

Definition os_call (s : os) : os * option (nat * string) :=
  match os_faults s with
  | [] => (s, None)
  | Fine :: fs => (mkOS (os_dir s) fs, None)
  | Fails n msg :: fs => (mkOS (os_dir s) fs, Some (n, msg))
  end.

Definition os_set (name : string) (content : bytes) (s : os) : os :=
  mkOS (<[name := Some content]> (os_dir s)) (os_faults s).

Definition os_content (name : string) (s : os) : option bytes := os_dir s !! name ≫= id.

(** [os.OpenFile(path, O_CREATE|O_RDWR|O_APPEND, 0644)]. *)
Definition OpenFile_append (name : string) (s : os) : os * option string :=
  let '(s, f) := os_call s in
  match f, os_dir s !! name with
  | Some (_, msg), _ => (s, Some msg)
  | None, None => (os_set name [] s, None)
  | None, Some None => (s, Some "is a directory")
  | None, Some (Some _) => (s, None)
  end.

(** [f.Write(buf)] on a file that is open for appending. *)
Definition Write (name : string) (buf : bytes) (s : os) : os * option string :=
  let '(s, f) := os_call s in
  let old := default [] (os_content name s) in
  match f with
  | Some (n, msg) => (os_set name (old ++ take n buf) s, Some msg)
  | None => (os_set name (old ++ buf) s, None)
  end.

(** [io.ReadFull] of [n] bytes, with [rest] left in the file. For an empty
    buffer the file is not read at all, so no fault can strike. *)
Inductive read_result : Type :=
| ReadOk (data rest : bytes)
| ReadEOF
| ReadErr (msg : string).

Definition ReadFull (n : N) (rest : bytes) (s : os) : os * read_result :=
  if (n =? 0)%N then (s, ReadOk [] rest) else
  let '(s, f) := os_call s in
  match f with
  | Some (_, msg) => (s, ReadErr msg)
  | None => 
      (s, if (n <=? N.of_nat (length rest))%N
          then ReadOk (take (N.to_nat n) rest) (drop (N.to_nat n) rest) else ReadEOF)
  end.

(** ** The log *)

Definition RecordTerm : N := 1.
Definition RecordVote : N := 2.
Definition RecordEntry : N := 3.
Definition maxWALSize : Z := 64 * 1024 * 1024.

(** An open file: its name, and whether it was closed. *)
Record handle : Type := mkHandle { h_name : string; h_closed : bool }.

Record WAL : Type := mkWAL {
  w_os : os;
  w_file : option handle;
  w_fileID : Z;
  w_fileSize : Z;
}.

Record walFile : Type := mkWalFile { wf_id : Z; wf_name : string }.

(** [fmt.Sprintf(walFilePattern, id)] with the pattern [wal_%06d.log]. *)
Definition zeros (n : nat) : bytes := replicate n Byte.x30.

Definition format06d (id : Z) : bytes :=
  let digits := FormatUint (Z.abs_N id) in
  if (id <? 0)%Z then Byte.x2d :: zeros (5 - length digits) ++ digits
  else zeros (6 - length digits) ++ digits.

Definition walFileName (id : Z) : string :=
  String.string_of_list_byte (ascii_bytes "wal_" ++ format06d id ++ ascii_bytes ".log").

(** [fmt.Sscanf(name, walFilePattern, &id)]: white space before the number is
    skipped, the number takes at most six characters with its sign, and what
    follows [.log] is not looked at.  (White space is the ASCII one here.) *)
Definition scan_space (b : Byte.byte) : bool :=
  bool_decide (b ∈ [Byte.x20; Byte.x09; Byte.x0b; Byte.x0c; Byte.x0d]).

Fixpoint scan_skip (s : bytes) : bytes :=
  match s with
  | b :: s' => if scan_space b then scan_skip s' else s
  | [] => []
  end.

Definition sscanf_id (name : string) : option Z :=
  s ← strip_prefix (ascii_bytes "wal_") (ascii_bytes name);
  let s := scan_skip s in
  let '(sg, s1) := scan_sign (ascii_bytes "+-") s in
  let width := 6 - length sg in
  let '(d, _) := span_digits (take width s1) in
  n ← ParseUint (10 ^ 6) d;
  _ ← strip_prefix (ascii_bytes ".log") (drop (length d) s1);
  Some (if bool_decide (sg = [Byte.x2d]) then (- Z.of_N n)%Z else Z.of_N n).

Definition wal_entry (e : string * option bytes) : option walFile :=
  match e.2 with
  | None => None
  | Some _ =>
      _ ← strip_prefix (ascii_bytes "wal_") (ascii_bytes e.1);
      id ← sscanf_id e.1;
      Some (mkWalFile id e.1)
  end.

Definition by_name (a b : walFile) : Prop := String.leb (wf_name a) (wf_name b) = true.
Definition by_id (a b : walFile) : Prop := (wf_id a <= wf_id b)%Z.

#[global] Instance by_name_dec : RelDecision by_name := λ a b, decide (String.leb (wf_name a) (wf_name b) = true).
#[global] Instance by_id_dec : RelDecision by_id := λ a b, decide (wf_id a <= wf_id b)%Z.

(** [os.ReadDir] lists by name; the files are then sorted by their number.
    [sort.Slice] promises no order for equal numbers; there are none among the
    names that the log gives its files. *)
Definition list_dir (d : gmap string (option bytes)) : list walFile :=
  merge_sort by_id (merge_sort by_name (omap wal_entry (map_to_list d))).

Definition listWALFiles (s : os) : os * (list walFile + string) :=
  let '(s, f) := os_call s in
  match f with
  | Some (_, msg) => (s, inr ("list WAL dir: " +:+ msg))
  | None => (s, inl (list_dir (os_dir s)))
  end.

Definition openCurrentFile (w : WAL) : WAL * option string :=
  let name := walFileName (w_fileID w) in
  let '(s, e) := OpenFile_append name (w_os w) in
  match e with
  | Some msg => (mkWAL s (w_file w) (w_fileID w) (w_fileSize w), Some ("open WAL file: " +:+ msg))
  | None =>
      let '(s, f) := os_call s in
      match f with
      | Some (_, msg) => (mkWAL s (w_file w) (w_fileID w) (w_fileSize w), Some ("stat WAL file: " +:+ msg))
      | None =>
          let size := Z.of_nat (length (default [] (os_content name s))) in
          (mkWAL s (Some (mkHandle name false)) (w_fileID w) size, None)
      end
  end.

Definition NewWAL (s : os) : os * (WAL + string) :=
  let '(s, f) := os_call s in
  match f with
  | Some (_, msg) => (s, inr ("create WAL dir: " +:+ msg))
  | None =>
      match listWALFiles s with
      | (s, inr err) => (s, inr err)
      | (s, inl files) =>
          let fileID := match last files with None => 1%Z | Some f => wf_id f end in
          match openCurrentFile (mkWAL s None fileID 0) with
          | (w, Some err) => (w_os w, inr err)
          | (w, None) => (w_os w, inl w)
          end
      end
  end.

(** [w.file.Close()]; closing a second time is an error. *)
Definition close_handle (s : os) (h : handle) : os * option string :=
  if h_closed h then (s, Some "file already closed")
  else let '(s, f) := os_call s in (s, snd <$> f).

Definition set_closed (h : handle) : handle := mkHandle (h_name h) true.

Definition rotate (w : WAL) : WAL * option string :=
  let '(w, e) :=
    match w_file w with
    | None => (w, None)
    | Some h =>
        let '(s, e) := close_handle (w_os w) h in
        (mkWAL s (Some (set_closed h)) (w_fileID w) (w_fileSize w), e)
    end in
  match e with
  | Some msg => (w, Some ("close WAL file for rotation: " +:+ msg))
  | None => openCurrentFile (mkWAL (w_os w) (w_file w) (w_fileID w + 1) (w_fileSize w))
  end.

(** The bytes of a record. *)
Definition record_header (recordType : N) (data : bytes) : bytes :=
  PutUint32 recordType ++ PutUint32 (N.of_nat (length data)).

Definition record_bytes (recordType : N) (data : bytes) : bytes :=
  record_header recordType data ++ data ++
  PutUint32 (ChecksumIEEE (record_header recordType data ++ data)).

(** Writing to and syncing an open file. *)
Definition write_sync (buf : bytes) (w : WAL) : WAL * option string :=
  match w_file w with
  | None => (w, Some "write WAL record: invalid argument")
  | Some h =>
      if h_closed h then (w, Some "write WAL record: file already closed")
      else
        let '(s, e) := Write (h_name h) buf (w_os w) in
        match e with
        | Some msg => (mkWAL s (Some h) (w_fileID w) (w_fileSize w), Some ("write WAL record: " +:+ msg))
        | None =>
            let '(s, f) := os_call s in
            match f with
            | Some (_, msg) => (mkWAL s (Some h) (w_fileID w) (w_fileSize w), Some ("fsync WAL: " +:+ msg))
            | None => (mkWAL s (Some h) (w_fileID w) (w_fileSize w + Z.of_nat (length buf)), None)
            end
        end
  end.

Definition Append (recordType : N) (payload : json) (w : WAL) : WAL * option string :=
  let data := Marshal payload in
  let recordSize := Z.of_nat (4 + 4 + length data + 4) in
  let '(w, e) :=
    if (maxWALSize <? w_fileSize w + recordSize)%Z then
      let '(w, e) := rotate w in (w, (λ err, "WAL rotation: " +:+ err) <$> e)
    else (w, None) in
  match e with
  | Some err => (w, Some err)
  | None => write_sync (record_bytes recordType data) w
  end.

(** *** Reading back *)

(** The payload of a record as [PersistTerm], [PersistVote] and [PersistEntry]
    pass it to [Append]. *)
Definition record_type (r : wrecord) : N :=
  match r with
  | TermRecord _ => RecordTerm
  | VoteRecord _ _ => RecordVote
  | EntryRecord _ _ _ => RecordEntry
  end.

Definition record_payload (r : wrecord) : json :=
  match r with
  | TermRecord t => JObj [(ascii_bytes "term", json_uint t)]
  | VoteRecord v t => JObj [(ascii_bytes "voted_for", json_string v); (ascii_bytes "term", json_uint t)]
  | EntryRecord i t c =>
      JObj [(ascii_bytes "index", json_uint i); (ascii_bytes "term", json_uint t);
            (ascii_bytes "command", json_bytes c)]
  end.

(** The fields of the three structures, for [json.Unmarshal]. *)
Definition TermRecord_fields : list (field N) := [("term", decode_uint two64)].

Definition VoteRecord_fields : list (field (string * N)) :=
  [("voted_for", λ j p, (., p.2) <$> decode_string j p.1);
   ("term", λ j p, (p.1,.) <$> decode_uint two64 j p.2)].

Definition EntryRecord_fields : list (field (N * N * bytes)) :=
  [("index", λ j p, (λ i, (i, p.1.2, p.2)) <$> decode_uint two64 j p.1.1);
   ("term", λ j p, (λ t, (p.1.1, t, p.2)) <$> decode_uint two64 j p.1.2);
   ("command", λ j p, (p.1,.) <$> decode_bytes j p.2)].

(** The [switch recordType] of [replayFile]: a payload that does not decode and
    an unknown type change nothing. *)
Definition decode_record (recordType : N) (payload : bytes) : option wrecord :=
  if (recordType =? RecordTerm)%N then
    TermRecord <$> Unmarshal TermRecord_fields 0%N payload
  else if (recordType =? RecordVote)%N then
    (λ p, VoteRecord p.1 p.2) <$> Unmarshal VoteRecord_fields ("", 0%N) payload
  else if (recordType =? RecordEntry)%N then
    (λ p, EntryRecord p.1.1 p.1.2 p.2) <$> Unmarshal EntryRecord_fields (0%N, 0%N, []) payload
  else None.

Definition process_record (recordType : N) (payload : bytes) (acc : recovered) : recovered :=
  match decode_record recordType payload with
  | Some r => replay_record acc r
  | None => acc
  end.

(** [truncateFile]; its error is only logged. *)
Definition truncateFile (name : string) (offset : Z) (s : os) : os :=
  let '(s, f) := os_call s in
  match f with
  | Some _ => s
  | None =>
      let '(s, f) := os_call s in
      match f, os_content name s with
      | None, Some content => os_set name (take (Z.to_nat offset) content) s
      | _, _ => s
      end
  end.

Definition u32 (n : N) : N := (n mod two32)%N.

(** The loop of [replayFile]; [rest] is what is left of the file to read.  The
    size [payloadLen+4] and the length added to [validOffset] are [uint32]
    expressions.  Every round reads at least the eight bytes of a header. *)
Fixpoint replay_loop (fuel : nat) (name : string) (rest : bytes) (validOffset : Z)
    (acc : recovered) (s : os) : outcome (os * (recovered + string)) :=
  match fuel with
  | O => Ret (s, inl acc)
  | S fuel =>
      let '(s, r) := ReadFull 8 rest s in
      match r with
      | ReadEOF => Ret (s, inl acc)
      | ReadErr msg => Ret (s, inr ("read WAL header: " +:+ msg))
      | ReadOk header rest =>
          recordType ← Uint32 header;
          payloadLen ← Uint32 (drop 4 header);
          let '(s, r) := ReadFull (u32 (payloadLen + 4)) rest s in
          match r with
          | ReadEOF | ReadErr _ => Ret (truncateFile name validOffset s, inl acc)
          | ReadOk payloadAndCRC rest =>
              payload ← go_slice_to payloadAndCRC payloadLen;
              storedCRC ← Uint32 (drop (N.to_nat payloadLen) payloadAndCRC);
              if (storedCRC =? ChecksumIEEE (header ++ payload))%N then
                replay_loop fuel name rest (validOffset + Z.of_N (u32 (8 + payloadLen + 4)))
                  (process_record recordType payload acc) s
              else Ret (truncateFile name validOffset s, inl acc)
          end
      end
  end.

Definition replayFile (name : string) (s : os) : outcome (os * (recovered + string)) :=
  let '(s, f) := os_call s in
  match f, os_content name s with
  | Some (_, msg), _ => Ret (s, inr ("open WAL for replay: " +:+ msg))
  | None, None => Ret (s, inr "open WAL for replay: no such file")
  | None, Some content => replay_loop (S (length content)) name content 0 recovered_zero s
  end.

(** The loop of [Replay] over the files; an error ends it. *)
Fixpoint replay_each (files : list walFile) (acc : recovered) (s : os) : outcome (os * recovered) :=
  match files with
  | [] => Ret (s, acc)
  | f :: files =>
      '(s, r) ← replayFile (wf_name f) s;
      match r with
      | inr _ => Ret (s, acc)
      | inl rec => replay_each files (replay_merge acc rec) s
      end
  end.

Definition with_os (w : WAL) (s : os) : WAL := mkWAL s (w_file w) (w_fileID w) (w_fileSize w).

Definition WAL_Replay (w : WAL) : outcome (WAL * (recovered + string)) :=
  let '(s, r) := listWALFiles (w_os w) in
  match r with
  | inr err => Ret (with_os w s, inr err)
  | inl files =>
      '(s, rec) ← replay_each files recovered_zero s;
      Ret (with_os w s, inl rec)
  end.

Definition Close (w : WAL) : WAL * option string :=
  match w_file w with
  | None => (w, None)
  | Some h =>
      let '(s, e) := close_handle (w_os w) h in
      (mkWAL s (Some (set_closed h)) (w_fileID w) (w_fileSize w), e)
  end.

(** [PersistTerm], [PersistVote] and [PersistEntry]. *)
Definition Persist (w : WAL) (r : wrecord) : WAL * option string :=
  Append (record_type r) (record_payload r) w.

(** A new process opens the directory that the old one left. *)
Definition reopen (w : WAL) : WAL + string := (NewWAL (w_os w)).2.

(** File names have six digits when they are read, so the files from number
    1000000 on are not found. *)
Definition listed (w : WAL) : bool := (w_fileID w <? 1000000)%Z.

#[global] Instance WAL_Storage : Storage WAL := {
  wal_append := Persist;
  wal_replay := WAL_Replay;
  wal_reopen := reopen;
  wal_listed := listed;
}.
