(* ===== verification/WalSpec.v ===== *)
(** The write-ahead log of Wal.v meets [StorageSpec] as long as no call to the
    operating system fails: what [Persist] wrote, [WAL_Replay] reads back, also
    in a new process.

    [good_log js w] says that the directory of [w] holds exactly the files 1 to
    n with the records [js], the last of them open; all operations keep it. *)

From S2P Require Import Prelude Types Storage Binary Text Json Wal.

(** ** Payloads *)

(** Node ids must be valid UTF-8, since [json.Marshal] replaces anything else;
    ids and commands must fit in the [uint32] length of a record. *)
Definition log_id (v : NodeID) : Prop :=
  valid_string v = true ∧ (N.of_nat (length (ascii_bytes v)) <= 1048576)%N.
Definition log_command (c : bytes) : Prop := (N.of_nat (length c) <= 67108864)%N.

Definition log_record (r : wrecord) : Prop :=
  match r with
  | TermRecord t => (t < two64)%N
  | VoteRecord v t => log_id v ∧ (t < two64)%N
  | EntryRecord i t c => (i < two64)%N ∧ (t < two64)%N ∧ log_command c
  end.

Lemma decode_record_payload r :
  log_record r → decode_record (record_type r) (Marshal (record_payload r)) = Some r.
Proof.
  destruct r as [t|v t|i t c]; intros Hr.
  - change (TermRecord <$> Unmarshal TermRecord_fields 0%N (Marshal (record_payload (TermRecord t))) =
            Some (TermRecord t)).
    unfold record_payload. rewrite Unmarshal_Marshal by scalars.
    change (fmap TermRecord (a ← decode_uint two64 (sanitize_json (json_uint t)) 0; Some a) = Some (TermRecord t)).
    by rewrite decode_json_uint.
  - destruct Hr as [[Hv _] Ht].
    change ((λ p, VoteRecord p.1 p.2) <$>
      Unmarshal VoteRecord_fields ("", 0%N) (Marshal (record_payload (VoteRecord v t))) = Some (VoteRecord v t)).
    unfold record_payload. rewrite Unmarshal_Marshal by scalars.
    change ((λ p : string * N, VoteRecord p.1 p.2) <$>
      (a ← ((., 0%N) <$> decode_string (sanitize_json (json_string v)) "");
       a' ← ((a.1,.) <$> decode_uint two64 (sanitize_json (json_uint t)) a.2); Some a') = Some (VoteRecord v t)).
    rewrite decode_json_string. simpl. by rewrite ParseUint_FormatUint, sanitize_string_valid.
  - destruct Hr as (Hi & Ht & _).
    change ((λ p, EntryRecord p.1.1 p.1.2 p.2) <$>
      Unmarshal EntryRecord_fields (0%N, 0%N, []) (Marshal (record_payload (EntryRecord i t c))) =
      Some (EntryRecord i t c)).
    unfold record_payload. rewrite Unmarshal_Marshal by scalars.
    change ((λ p : N * N * bytes, EntryRecord p.1.1 p.1.2 p.2) <$>
      (a ← ((λ i, (i, 0%N, [] : bytes)) <$> decode_uint two64 (sanitize_json (json_uint i)) 0%N);
       a' ← ((λ t, (a.1.1, t, a.2)) <$> decode_uint two64 (sanitize_json (json_uint t)) a.1.2);
       a'' ← ((a'.1,.) <$> decode_bytes (sanitize_json (json_bytes c)) a'.2); Some a'') = Some (EntryRecord i t c)).
    rewrite decode_json_uint by done. simpl. rewrite ParseUint_FormatUint by done. simpl.
    by rewrite decode_json_bytes.
Qed.

Lemma length_names :
  length (quote (ascii_bytes "term")) = 6 ∧ length (quote (ascii_bytes "voted_for")) = 11 ∧
  length (quote (ascii_bytes "index")) = 7 ∧ length (quote (ascii_bytes "command")) = 9.
Proof. done. Qed.

Ltac simpl_length := repeat first [rewrite length_app | rewrite length_cons]; cbn [length].

(** A record is smaller than 2^32 by far. *)
Lemma length_payload r :
  log_record r → (N.of_nat (length (Marshal (record_payload r))) < 4000000000)%N.
Proof.
  destruct r as [t|v t|i t c]; cbn [log_record record_payload]; intros Hr; pose proof length_names.
  - apply length_FormatUint_64 in Hr.
    cbn [Marshal fmap list_fmap join snd fst json_uint]. simpl_length. lia.
  - destruct Hr as [[_ Hv] Ht%length_FormatUint_64].
    pose proof (length_quote (ascii_bytes v)) as Hq.
    cbn [Marshal fmap list_fmap join snd fst json_uint json_string]. simpl_length. lia.
  - destruct Hr as (Hi%length_FormatUint_64 & Ht%length_FormatUint_64 & Hc). unfold log_command in Hc.
    assert (Hq : (N.of_nat (length (Marshal (json_bytes c))) <= 12 * N.of_nat (length c) + 14)%N).
    { unfold json_bytes. case_bool_decide; [simpl; lia|]. pose proof (length_quote (base64_encode c)).
      pose proof (length_base64 c). change (Marshal (JStr (base64_encode c))) with (quote (base64_encode c)). lia. }
    set (x := json_bytes c) in *. clearbody x.
    cbn [Marshal fmap list_fmap join snd fst json_uint]. simpl_length. lia.
Qed.

(** ** Reading a file *)

Lemma os_call_fine s : os_faults s = [] → os_call s = (s, None).
Proof. unfold os_call. by intros ->. Qed.

Lemma ReadFull_quiet n rest s :
  os_faults s = [] →
  ReadFull n rest s = (s, if (n <=? N.of_nat (length rest))%N
                          then ReadOk (take (N.to_nat n) rest) (drop (N.to_nat n) rest) else ReadEOF).
Proof.
  intros Hf. unfold ReadFull. rewrite os_call_fine by done. destruct (N.eqb_spec n 0) as [->|]; [|done].
  by rewrite (proj2 (N.leb_le _ _)) by lia.
Qed.

Lemma ReadFull_ok n a b s :
  os_faults s = [] → n = N.of_nat (length a) → ReadFull n (a ++ b) s = (s, ReadOk a b).
Proof.
  intros Hs ->. rewrite ReadFull_quiet by done.
  rewrite (proj2 (N.leb_le _ _)) by (rewrite length_app; lia).
  by rewrite Nat2N.id, take_app_length, drop_app_length.
Qed.

Lemma ReadFull_short n a s : os_faults s = [] → (N.of_nat (length a) < n)%N → ReadFull n a s = (s, ReadEOF).
Proof.
  intros Hs Hn. rewrite ReadFull_quiet by done. by apply N.leb_gt in Hn as ->.
Qed.

Lemma length_record_header ty data : length (record_header ty data) = 8.
Proof. done. Qed.

Lemma length_record_bytes ty data : length (record_bytes ty data) = 12 + length data.
Proof. unfold record_bytes. rewrite !length_app. simpl. lia. Qed.

Lemma u32_small n : (n < two32)%N → u32 n = n.
Proof. apply N.mod_small. Qed.

(** The header of a record, read back. *)
Lemma read_header ty data rest :
  (ty < two32)%N → (N.of_nat (length data) < two32)%N →
  Uint32 (record_header ty data ++ rest) = Ret ty ∧
  Uint32 (drop 4 (record_header ty data ++ rest)) = Ret (N.of_nat (length data)).
Proof.
  intros Hty Hlen. split.
  - unfold record_header. rewrite <- app_assoc. by apply Uint32_PutUint32.
  - change (drop 4 (record_header ty data ++ rest)) with (PutUint32 (N.of_nat (length data)) ++ rest).
    by apply Uint32_PutUint32.
Qed.

(** One round of the loop: a payload with any checksum [crc] after it. *)
Lemma replay_loop_round fuel name ty data crc rest off acc s :
  os_faults s = [] → (ty < two32)%N → (N.of_nat (length data) < 4000000000)%N → (crc < two32)%N →
  replay_loop (S fuel) name (record_header ty data ++ data ++ PutUint32 crc ++ rest) off acc s =
    if (crc =? ChecksumIEEE (record_header ty data ++ data))%N then
      replay_loop fuel name rest (off + Z.of_nat (12 + length data)) (process_record ty data acc) s
    else Ret (truncateFile name off s, inl acc).
Proof.
  intros Hs Hty Hlen Hcrc. cbn [replay_loop]. rewrite ReadFull_ok by done.
  destruct (read_header ty data []) as [H1 H2]; [done|unfold two32; lia|].
  rewrite app_nil_r in H1, H2. rewrite H1. cbn [mbind outcome_bind]. rewrite H2. cbn [mbind outcome_bind].
  rewrite (app_assoc data), ReadFull_ok;
    [|done|rewrite u32_small by (unfold two32; lia); rewrite length_app; simpl; lia].
  rewrite go_slice_to_Ret by (rewrite length_app; lia). cbn [mbind outcome_bind].
  rewrite Nat2N.id, take_app_length, drop_app_length.
  rewrite <- (app_nil_r (PutUint32 crc)), Uint32_PutUint32 by done. cbn [mbind outcome_bind].
  case_match; [|done]. f_equal. rewrite u32_small by (unfold two32; lia). lia.
Qed.

Lemma replay_loop_record fuel name ty data rest off acc s :
  os_faults s = [] → (ty < two32)%N → (N.of_nat (length data) < 4000000000)%N →
  replay_loop (S fuel) name (record_bytes ty data ++ rest) off acc s =
    replay_loop fuel name rest (off + Z.of_nat (length (record_bytes ty data))) (process_record ty data acc) s.
Proof.
  intros Hs Hty Hlen. rewrite length_record_bytes. unfold record_bytes. rewrite <- !app_assoc.
  rewrite replay_loop_round by (done || apply ChecksumIEEE_lt). by rewrite N.eqb_refl.
Qed.

(** ** Files of records *)

Definition encode_record (r : wrecord) : bytes :=
  record_bytes (record_type r) (Marshal (record_payload r)).

Definition encode_file (rs : list wrecord) : bytes := concat (encode_record <$> rs).

Lemma encode_file_snoc rs r : encode_file (rs ++ [r]) = encode_file rs ++ encode_record r.
Proof. unfold encode_file. rewrite fmap_app, concat_app. simpl. by rewrite app_nil_r. Qed.

Lemma length_encode_file rs : length rs <= length (encode_file rs).
Proof.
  induction rs as [|r rs IH]; [simpl; lia|]. unfold encode_file in *. rewrite fmap_cons.
  cbn [concat]. rewrite length_app. unfold encode_record at 1. rewrite length_record_bytes. simpl. lia.
Qed.

Lemma record_type_lt r : (record_type r < two32)%N.
Proof. by destruct r. Qed.

(** Reading a file that starts with well-formed records processes them in
    order. *)
Lemma replay_loop_file fuel name rs rest off acc s :
  os_faults s = [] → Forall log_record rs →
  replay_loop (length rs + fuel) name (encode_file rs ++ rest) off acc s =
    replay_loop fuel name rest (off + Z.of_nat (length (encode_file rs))) (foldl replay_record acc rs) s.
Proof.
  intros Hs Hrs. revert off acc. induction Hrs as [|r rs Hr _ IH]; intros off acc.
  { simpl. by rewrite Z.add_0_r. }
  unfold encode_file in *. rewrite fmap_cons. cbn [concat length plus]. rewrite <- app_assoc.
  unfold encode_record at 1. rewrite replay_loop_record by (done || by apply record_type_lt || by apply length_payload).
  rewrite IH. unfold process_record. rewrite decode_record_payload by done. cbn [foldl].
  fold (encode_record r). f_equal. rewrite length_app. lia.
Qed.

Lemma replay_loop_fuel_end name off acc s fuel :
  os_faults s = [] → replay_loop fuel name [] off acc s = Ret (s, inl acc).
Proof. intros Hs. destruct fuel; [done|]. cbn [replay_loop]. by rewrite ReadFull_short by (done || simpl; lia). Qed.

Lemma replayFile_ok name rs s :
  os_faults s = [] → os_content name s = Some (encode_file rs) → Forall log_record rs →
  replayFile name s = Ret (s, inl (replay_file rs)).
Proof.
  intros Hs Hc Hrs. unfold replayFile. rewrite os_call_fine, Hc by done.
  pose proof (length_encode_file rs).
  replace (S (length (encode_file rs))) with (length rs + (S (length (encode_file rs)) - length rs)) by lia.
  rewrite <- (app_nil_r (encode_file rs)) at 2. rewrite replay_loop_file by done.
  by apply replay_loop_fuel_end.
Qed.

(** ** File names *)

Lemma uint_of_bytes_zeros k s d :
  uint_of_bytes s = Some d → ∃ d', uint_of_bytes (zeros k ++ s) = Some d' ∧ N.of_uint d' = N.of_uint d.
Proof.
  intros Hs. induction k as [|k (d' & IH & Hd)]; [by exists d|].
  exists (Decimal.D0 d'). simpl. fold (zeros k). by rewrite IH.
Qed.

Lemma format06d_pos id : (0 <= id)%Z →
  format06d id = zeros (6 - length (FormatUint (Z.to_N id))) ++ FormatUint (Z.to_N id).
Proof.
  intros Hid. unfold format06d. rewrite (proj2 (Z.ltb_ge _ _)) by lia.
  by replace (Z.abs_N id) with (Z.to_N id) by lia.
Qed.

Lemma format06d_value id : (0 <= id)%Z →
  ∃ d, uint_of_bytes (format06d id) = Some d ∧ N.of_uint d = Z.to_N id.
Proof.
  intros Hid. rewrite format06d_pos by done.
  destruct (uint_of_bytes_zeros (6 - length (FormatUint (Z.to_N id))) (FormatUint (Z.to_N id)) (N.to_uint (Z.to_N id)))
    as (d & Hd & Hv); [apply uint_of_bytes_of_uint|].
  exists d. by rewrite Hd, Hv, DecimalN.Unsigned.of_to.
Qed.

Lemma format06d_digits id : (0 <= id)%Z → Forall is_digit (format06d id).
Proof.
  intros Hid. rewrite format06d_pos by done. apply Forall_app. split.
  - apply Forall_replicate. done.
  - apply bytes_of_uint_digits.
Qed.

Lemma length_format06d id : (0 <= id < 1000000)%Z → length (format06d id) = 6.
Proof.
  intros Hid. rewrite format06d_pos, length_app by lia. unfold zeros. rewrite length_replicate.
  assert (length (FormatUint (Z.to_N id)) <= 6) by (apply length_FormatUint; [lia|simpl; lia]). lia.
Qed.

Lemma walFileName_bytes id :
  ascii_bytes (walFileName id) = ascii_bytes "wal_" ++ format06d id ++ ascii_bytes ".log".
Proof. apply String.list_byte_of_string_of_list_byte. Qed.

Lemma walFileName_inj a b : (0 <= a)%Z → (0 <= b)%Z → walFileName a = walFileName b → a = b.
Proof.
  intros Ha Hb E%(f_equal ascii_bytes). rewrite !walFileName_bytes in E.
  apply app_inv_head, app_inv_tail in E.
  destruct (format06d_value a Ha) as (d & Hd & Hv). destruct (format06d_value b Hb) as (d' & Hd' & Hv').
  rewrite E, Hd' in Hd. injection Hd as <-. lia.
Qed.

Lemma strip_prefix_app p s : strip_prefix p (p ++ s) = Some s.
Proof.
  induction p as [|b p IH]; [done|]. simpl.
  by rewrite (Byte.byte_dec_lb (eq_refl b)).
Qed.

(** A name with six digits is read back as its number. *)
Lemma sscanf_id_walFileName id : (0 <= id < 1000000)%Z → sscanf_id (walFileName id) = Some id.
Proof.
  intros Hid. unfold sscanf_id. rewrite walFileName_bytes, strip_prefix_app. cbn [mbind option_bind].
  pose proof (length_format06d id Hid) as Hlen.
  pose proof (format06d_digits id (proj1 Hid)) as Hdig.
  destruct (format06d_value id (proj1 Hid)) as (d & Hd & Hv).
  destruct (format06d id) as [|b s] eqn:Ef; [done|].
  assert (Hb : is_digit b) by by apply Forall_inv in Hdig.
  assert (Hskip : scan_skip ((b :: s) ++ ascii_bytes ".log") = (b :: s) ++ ascii_bytes ".log")
    by (cbn [app scan_skip]; destruct b; try done).
  assert (Hsign : scan_sign (ascii_bytes "+-") ((b :: s) ++ ascii_bytes ".log") =
                  ([], (b :: s) ++ ascii_bytes ".log")) by (cbn [app scan_sign]; destruct b; try done).
  rewrite Hskip, Hsign. cbn [length]. change (6 - 0) with 6.
  rewrite <- Hlen at 1. rewrite take_app_length.
  rewrite <- (app_nil_r (b :: s)) at 1. rewrite span_digits_app by done.
  unfold ParseUint. rewrite bool_decide_eq_false_2, Hd by done. cbn [mbind option_bind].
  rewrite (proj2 (N.ltb_lt _ _)) by (rewrite Hv; change (10 ^ 6)%N with 1000000%N; lia). cbn [mbind option_bind].
  rewrite drop_app_length, <- (app_nil_r (ascii_bytes ".log")), strip_prefix_app. cbn [mbind option_bind].
  rewrite bool_decide_eq_false_2, Hv by done. simpl. by rewrite Z2N.id by lia.
Qed.

(** ** The directory *)

(** The files 1, 2, ... with the given contents. *)
Definition log_files (cs : list bytes) : list (string * option bytes) :=
  imap (λ k c, (walFileName (Z.of_nat (S k)), Some c)) cs.

Definition log_dir (cs : list bytes) : gmap string (option bytes) := list_to_map (log_files cs).

Definition log_names (n : nat) : list walFile :=
  (λ k, mkWalFile (Z.of_nat (S k)) (walFileName (Z.of_nat (S k)))) <$> seq 0 n.

Lemma log_files_NoDup cs : NoDup (log_files cs).*1.
Proof.
  apply NoDup_alt. intros i j x Hi Hj.
  rewrite list_lookup_fmap in Hi, Hj. unfold log_files in Hi, Hj. rewrite list_lookup_imap in Hi, Hj.
  destruct (cs !! i); [|done]. destruct (cs !! j); [|done]. simpl in *.
  rewrite <- Hi in Hj. apply (inj Some), walFileName_inj in Hj; lia.
Qed.

Lemma log_dir_lookup cs k c : cs !! k = Some c → log_dir cs !! walFileName (Z.of_nat (S k)) = Some (Some c).
Proof.
  intros Hk. apply elem_of_list_to_map; [apply log_files_NoDup|].
  apply list_elem_of_lookup. exists k. unfold log_files. by rewrite list_lookup_imap, Hk.
Qed.

Lemma log_dir_lookup_None cs n :
  length cs < n → log_dir cs !! walFileName (Z.of_nat n) = None.
Proof.
  intros Hn. apply not_elem_of_list_to_map. intros (x & E & Hx)%list_elem_of_fmap.
  apply list_elem_of_lookup in Hx as [k Hk]. unfold log_files in Hk. rewrite list_lookup_imap in Hk.
  destruct (cs !! k) eqn:Hc; [|done]. injection Hk as <-. simpl in E.
  apply walFileName_inj in E; [|lia..]. apply lookup_lt_Some in Hc. lia.
Qed.

Lemma log_dir_snoc cs c :
  log_dir (cs ++ [c]) = <[walFileName (Z.of_nat (S (length cs))) := Some c]> (log_dir cs).
Proof.
  unfold log_dir, log_files. rewrite imap_app, list_to_map_app. simpl. rewrite Nat.add_0_r.
  rewrite <- insert_union_r; [by rewrite map_union_empty|].
  apply (log_dir_lookup_None cs). lia.
Qed.

#[export] Instance by_id_trans : Transitive by_id.
Proof. intros a b c. unfold by_id. lia. Qed.

#[export] Instance by_id_total : Total by_id.
Proof. intros a b. unfold by_id. lia. Qed.

Lemma log_names_sorted n : StronglySorted by_id (log_names n).
Proof.
  unfold log_names. generalize 0. induction n as [|n IH]; intros k; [constructor|].
  simpl. constructor; [apply IH|]. apply Forall_fmap, Forall_forall. intros j Hj%elem_of_seq.
  unfold by_id. simpl. lia.
Qed.

Lemma log_names_last n :
  last (log_names (S n)) = Some (mkWalFile (Z.of_nat (S n)) (walFileName (Z.of_nat (S n)))).
Proof. unfold log_names. by rewrite fmap_last, seq_S, last_snoc. Qed.

Lemma omap_log_files cs :
  (Z.of_nat (length cs) < 1000000)%Z → omap wal_entry (log_files cs) = log_names (length cs).
Proof.
  induction cs as [|c cs IH] using rev_ind; intros Hn; [done|].
  rewrite length_app in *. simpl in Hn. unfold log_files, log_names in *.
  rewrite imap_app, omap_app, IH, Nat.add_1_r, seq_S, fmap_app by lia. f_equal.
  cbn [imap omap list_omap fmap list_fmap]. rewrite Nat.add_0_r. cbv beta.
  unfold wal_entry. cbn [fst snd]. rewrite walFileName_bytes, strip_prefix_app. cbn [mbind option_bind].
  rewrite sscanf_id_walFileName by lia. done.
Qed.

(** The files are found in the order of their numbers. *)
Lemma list_dir_log cs : (Z.of_nat (length cs) < 1000000)%Z → list_dir (log_dir cs) = log_names (length cs).
Proof.
  intros Hn. unfold list_dir.
  assert (Hp : merge_sort by_id (merge_sort by_name (omap wal_entry (map_to_list (log_dir cs)))) ≡ₚ
               log_names (length cs)).
  { rewrite !merge_sort_Permutation. unfold log_dir.
    by rewrite map_to_list_to_map, omap_log_files by (done || apply log_files_NoDup). }
  apply (StronglySorted_unique_strong by_id); [|apply StronglySorted_merge_sort; apply _|apply log_names_sorted|done].
  intros x y Hx Hy Hxy Hyx. rewrite Hp in Hx. unfold log_names in Hx, Hy.
  apply list_elem_of_fmap in Hx as (i & -> & _). apply list_elem_of_fmap in Hy as (j & -> & _).
  unfold by_id in *. simpl in *. by replace i with j by lia.
Qed.

(** ** The journal of a directory *)

(** A reference reader: the records of the valid prefix of a file. *)
Fixpoint file_records (fuel : nat) (s : bytes) : list wrecord :=
  match fuel with
  | O => []
  | S fuel =>
      match Uint32 s, Uint32 (drop 4 s) with
      | Ret ty, Ret len =>
          if (12 + len <=? N.of_nat (length s))%N then
            let n := N.to_nat len in
            let data := take n (drop 8 s) in
            if bool_decide (Uint32 (drop (8 + n) s) = Ret (ChecksumIEEE (take 8 s ++ data)))
            then option_list (decode_record ty data) ++ file_records fuel (drop (12 + n) s)
            else []
          else []
      | _, _ => []
      end
  end.

Definition content_records (s : bytes) : list wrecord := file_records (length s) s.

Lemma file_records_step fuel r rest :
  log_record r → file_records (S fuel) (encode_record r ++ rest) = r :: file_records fuel rest.
Proof.
  intros Hr. pose proof (length_payload r Hr) as Hlen. pose proof (decode_record_payload r Hr) as Hd.
  unfold encode_record, record_bytes. set (data := Marshal (record_payload r)) in *.
  set (h := record_header (record_type r) data). rewrite <- !app_assoc.
  set (crc := PutUint32 (ChecksumIEEE (h ++ data))). set (tl := data ++ crc ++ rest).
  destruct (read_header (record_type r) data tl) as [H1 H2]; [apply record_type_lt|unfold two32; lia|]. fold h in H1, H2.
  assert (Hd8 : drop 8 (h ++ tl) = tl) by done. assert (Ht8 : take 8 (h ++ tl) = h) by done.
  assert (Hdn : drop (8 + length data) (h ++ tl) = crc ++ rest).
  { rewrite <- drop_drop, Hd8. unfold tl. by rewrite drop_app_length. }
  assert (Hdr : drop (12 + length data) (h ++ tl) = rest).
  { replace (12 + length data) with ((8 + length data) + 4) by lia. by rewrite <- drop_drop, Hdn. }
  cbn [file_records]. rewrite H1, H2, Nat2N.id, Ht8, Hd8, Hdn, Hdr.
  rewrite (proj2 (N.leb_le _ _)) by (unfold tl, crc; rewrite !length_app; simpl; lia).
  replace (take (length data) tl) with data by (unfold tl; by rewrite take_app_length).
  rewrite bool_decide_eq_true_2, Hd by (unfold crc; apply Uint32_PutUint32, ChecksumIEEE_lt). done.
Qed.

Lemma content_records_encode rs : Forall log_record rs → content_records (encode_file rs) = rs.
Proof.
  intros Hrs. unfold content_records. pose proof (length_encode_file rs) as Hlen.
  generalize dependent (length (encode_file rs)). intros fuel. revert fuel.
  induction Hrs as [|r rs Hr _ IH]; intros fuel Hf; [by destruct fuel|].
  destruct fuel as [|fuel]; simpl in Hf; [lia|]. unfold encode_file in *. rewrite fmap_cons. cbn [concat].
  rewrite file_records_step, IH by (done || lia). done.
Qed.

(** ** The operations on a good log *)

(** The log with the records [js], its last file open.  [size] is the field
    [fileSize], which can be larger than the file: [Replay] may truncate the
    file after [openCurrentFile] took its size.  It only decides when to
    rotate. *)
Definition log_state (js : list (list wrecord)) (size : Z) : WAL :=
  mkWAL (mkOS (log_dir (encode_file <$> js)) [])
    (Some (mkHandle (walFileName (Z.of_nat (length js))) false))
    (Z.of_nat (length js)) size.

Definition good_log (js : list (list wrecord)) (w : WAL) : Prop :=
  js ≠ [] ∧ Forall (Forall log_record) js ∧ ∃ size, w = log_state js size.

Lemma log_dir_set fs f f' :
  <[walFileName (Z.of_nat (length (fs ++ [f]))) := Some (encode_file f')]>
    (log_dir (encode_file <$> fs ++ [f])) = log_dir (encode_file <$> fs ++ [f']).
Proof.
  rewrite !fmap_app. simpl. rewrite !log_dir_snoc, length_fmap, length_app. simpl.
  rewrite Nat.add_1_r. apply insert_insert_eq.
Qed.

Lemma log_state_content fs f :
  log_dir (encode_file <$> fs ++ [f]) !! walFileName (Z.of_nat (length (fs ++ [f]))) = Some (Some (encode_file f)).
Proof.
  rewrite fmap_app, length_app. simpl. rewrite log_dir_snoc, length_fmap, Nat.add_1_r. apply lookup_insert_eq.
Qed.

Lemma write_sync_ok fs f r size :
  ∃ size', write_sync (encode_record r) (log_state (fs ++ [f]) size) = (log_state (fs ++ [f ++ [r]]) size', None).
Proof.
  unfold write_sync, log_state. cbn [w_file h_closed h_name w_os w_fileID w_fileSize].
  unfold Write, os_call, os_content, os_set. cbn [os_faults os_dir]. rewrite log_state_content.
  cbn [mbind option_bind id default os_faults os_dir].
  rewrite <- encode_file_snoc, log_dir_set. eexists. by rewrite !length_app.
Qed.

Lemma rotate_ok js size :
  js ≠ [] → rotate (log_state js size) = (log_state (js ++ [[]]) 0, None).
Proof.
  intros Hjs. unfold rotate, log_state.
  cbn [w_file w_os w_fileID w_fileSize close_handle h_closed os_call os_faults fmap option_fmap option_map].
  unfold openCurrentFile. cbn [w_fileID w_os w_file w_fileSize].
  replace (Z.of_nat (length js) + 1)%Z with (Z.of_nat (length (js ++ [[]]))) by (rewrite length_app; simpl; lia).
  unfold OpenFile_append. cbn [os_call os_faults os_dir].
  rewrite log_dir_lookup_None by (rewrite length_fmap, length_app; simpl; lia).
  unfold os_set. cbn [os_call os_faults os_dir]. unfold os_content. cbn [os_dir].
  rewrite lookup_insert_eq. cbn [mbind option_bind id default length].
  rewrite fmap_app. cbn [default fmap list_fmap]. rewrite log_dir_snoc, length_fmap, length_app.
  cbn [length]. by rewrite Nat.add_1_r.
Qed.

Lemma Persist_ok js size r :
  js ≠ [] →
  ∃ js' size', Persist (log_state js size) r = (log_state js' size', None) ∧ journal_add r js js' ∧ js' ≠ [].
Proof.
  intros Hjs. unfold Persist, Append. fold (encode_record r). cbv zeta. destruct (maxWALSize <? _)%Z.
  - rewrite rotate_ok by done. cbn [fmap option_fmap option_map].
    destruct (write_sync_ok js [] r 0) as [size' ->]. exists (js ++ [[r]]), size'. split; [done|].
    split; [constructor|by destruct js].
  - destruct (exists_last Hjs) as (fs & f & ->). destruct (write_sync_ok fs f r size) as [size' ->].
    eexists _, size'. split; [done|]. split; [constructor|by destruct fs].
Qed.

Lemma replay_each_ok js acc s k files :
  os_faults s = [] → Forall (Forall log_record) js →
  (∀ i f, js !! i = Some f → os_content (walFileName (Z.of_nat (S (k + i)))) s = Some (encode_file f)) →
  replay_each (((λ i, mkWalFile (Z.of_nat (S i)) (walFileName (Z.of_nat (S i)))) <$> seq k (length js)) ++ files) acc s =
    replay_each files (foldl (λ s f, replay_merge s (replay_file f)) acc js) s.
Proof.
  intros Hs Hjs. revert acc k. induction Hjs as [|f js Hf _ IH]; intros acc k Hc; [done|].
  cbn [length seq]. rewrite fmap_cons. cbn [replay_each wf_name app].
  rewrite (replayFile_ok _ f s) by (done || by rewrite <- (Hc 0 f eq_refl), Nat.add_0_r).
  cbn [mbind outcome_bind]. rewrite IH; [done|]. intros i g Hi.
  rewrite <- (Hc (S i) g Hi). do 4 f_equal. lia.
Qed.

Lemma log_content cs i c faults :
  cs !! i = Some c → os_content (walFileName (Z.of_nat (S i))) (mkOS (log_dir cs) faults) = Some c.
Proof. intros Hi. unfold os_content. cbn [os_dir]. by rewrite (log_dir_lookup _ i c). Qed.

Lemma encoded_content js i f faults :
  js !! i = Some f →
  os_content (walFileName (Z.of_nat (S i))) (mkOS (log_dir (encode_file <$> js)) faults) = Some (encode_file f).
Proof. intros Hi. apply log_content. by rewrite list_lookup_fmap, Hi. Qed.

Lemma WAL_Replay_ok js size :
  Forall (Forall log_record) js → (Z.of_nat (length js) < 1000000)%Z →
  WAL_Replay (log_state js size) = Ret (log_state js size, inl (replay_files js)).
Proof.
  intros Hjs Hn. unfold WAL_Replay, listWALFiles. cbn [w_os log_state os_call os_faults os_dir].
  rewrite list_dir_log, length_fmap by by rewrite length_fmap.
  rewrite <- (app_nil_r (log_names _)). unfold log_names.
  rewrite replay_each_ok; [done|done|done|]. intros i f Hi. by apply encoded_content.
Qed.

(** Opening an existing directory with the files 1 to n. *)
Lemma NewWAL_log cs c :
  (Z.of_nat (S (length cs)) < 1000000)%Z →
  NewWAL (mkOS (log_dir (cs ++ [c])) []) =
    (mkOS (log_dir (cs ++ [c])) [],
     inl (mkWAL (mkOS (log_dir (cs ++ [c])) [])
            (Some (mkHandle (walFileName (Z.of_nat (S (length cs)))) false))
            (Z.of_nat (S (length cs))) (Z.of_nat (length c)))).
Proof.
  intros Hn. unfold NewWAL, listWALFiles. cbn [os_call os_faults os_dir].
  rewrite list_dir_log by (rewrite length_app; simpl; lia). rewrite length_app. cbn [length].
  rewrite Nat.add_1_r, log_names_last. cbn [wf_id].
  unfold openCurrentFile. cbn [w_fileID w_os w_file w_fileSize]. unfold OpenFile_append. cbn [os_call os_faults os_dir].
  assert (Hl : (cs ++ [c]) !! length cs = Some c) by (rewrite lookup_app_r, Nat.sub_diag; done).
  rewrite (log_dir_lookup _ _ _ Hl). cbn [os_call os_faults]. by rewrite (log_content _ _ _ [] Hl).
Qed.

Lemma reopen_ok js size :
  js ≠ [] → (Z.of_nat (length js) < 1000000)%Z → ∃ size', reopen (log_state js size) = inl (log_state js size').
Proof.
  intros Hjs Hn. destruct (exists_last Hjs) as (fs & f & ->). rewrite length_app in Hn. simpl in Hn.
  unfold reopen, log_state. cbn [w_os]. rewrite fmap_app. cbn [fmap list_fmap].
  rewrite NewWAL_log by (rewrite length_fmap; lia). eexists. rewrite length_fmap, length_app.
  cbn [length snd]. by rewrite Nat.add_1_r.
Qed.

(** ** The specification *)

(** The records in the files of a log. *)
Definition wal_records (w : WAL) : list (list wrecord) :=
  (λ k, content_records (default [] (os_content (walFileName (Z.of_nat (S k))) (w_os w)))) <$>
    seq 0 (Z.to_nat (w_fileID w)).

Lemma wal_records_log js size : Forall (Forall log_record) js → wal_records (log_state js size) = js.
Proof.
  intros Hjs. unfold wal_records. cbn [w_fileID log_state w_os]. rewrite Nat2Z.id.
  apply list_eq_same_length with (length js); [done|by rewrite length_fmap, length_seq|].
  intros i f g Hi Hf Hg. rewrite list_lookup_fmap, lookup_seq_lt in Hf by done.
  apply (inj Some) in Hf. rewrite <- Hf, Nat.add_0_l, (encoded_content js i g [] Hg).
  apply content_records_encode. rewrite Forall_forall in Hjs. apply Hjs.
  by apply list_elem_of_lookup_2 in Hg.
Qed.

Lemma journal_add_good r js js' :
  journal_add r js js' → log_record r → Forall (Forall log_record) js → Forall (Forall log_record) js'.
Proof.
  intros Hadd Hr Hjs. destruct Hadd as [fs f|fs].
  - apply Forall_app in Hjs as [Hfs Hf]. apply Forall_inv in Hf.
    apply Forall_app. split; [done|]. repeat constructor. apply Forall_app. by repeat constructor.
  - apply Forall_app. split; [done|]. by repeat constructor.
Qed.

#[global] Instance WAL_StorageSpec : StorageSpec WAL.
Proof.
  refine {| wal_journal := wal_records; wal_good w := ∃ js, good_log js w;
            storable_id := log_id; storable_command := log_command |}.
  - intros w r (js & Hne & Hjs & size & ->) Hr.
    destruct (Persist_ok js size r Hne) as (js' & size' & HP & Hadd & Hne').
    assert (Hjs' : Forall (Forall log_record) js').
    { eapply journal_add_good; [done| |done]. by destruct r. }
    exists (log_state js' size'). split; [done|]. split; [by exists js'; split_and!; eauto|].
    by rewrite !wal_records_log.
  - intros w (js & Hne & Hjs & size & ->) Hl%Z.ltb_lt. exists (log_state js size).
    rewrite wal_records_log by done. split; [by apply WAL_Replay_ok|]. split; [by exists js; split_and!; eauto|done].
  - intros w (js & Hne & Hjs & size & ->) Hl.
    destruct (reopen_ok js size) as [size' HR]; [done|by apply Z.ltb_lt|].
    exists (log_state js size'). split; [done|]. split; [by exists js; split_and!; eauto|].
    split; [done|]. by rewrite !wal_records_log.
Defined.

(** A new log in an empty directory. *)
Lemma NewWAL_fresh : (NewWAL (mkOS ∅ [])).2 = inl (log_state [[]] 0).
Proof. done. Qed.
