(* ===== verification/WalReplay.v ===== *)
(** Replay of a write-ahead log with arbitrary contents: whatever bytes a file
    holds, reading it comes to an end, and reading it again after the first
    reading cut off its tail gives the same and changes nothing. *)

From S2P Require Import Prelude Types Storage Binary Text Json Wal WalSpec.

(** ** One read *)

Lemma ReadFull_inv n rest s s' d r : ReadFull n rest s = (s', ReadOk d r) → rest = d ++ r ∧ length d = N.to_nat n.
Proof.
  unfold ReadFull. destruct (N.eqb_spec n 0) as [->|]; [by intros [= _ <- <-]|]. destruct (os_call s) as [s1 [[? ?]|]]; [done|].
  destruct (N.leb_spec n (N.of_nat (length rest))); [|done]. intros [= _ <- <-].
  rewrite take_drop, length_take. split; [done|lia].
Qed.

Lemma truncateFile_quiet name pre rest s :
  os_faults s = [] → os_content name s = Some (pre ++ rest) →
  truncateFile name (Z.of_nat (length pre)) s = os_set name pre s.
Proof.
  intros Hf Hc. unfold truncateFile, os_call. rewrite Hf. cbv iota beta zeta. rewrite Hf, Hc.
  by rewrite Nat2Z.id, take_app_length.
Qed.

(** A record that passes the checks: what is read, and how far. *)
Lemma record_read header pc payload len crc :
  Uint32 (drop 4 header) = Ret len → length pc = N.to_nat (u32 (len + 4)) →
  go_slice_to pc len = Ret payload → Uint32 (drop (N.to_nat len) pc) = Ret crc →
  (N.of_nat (8 + length pc) < two32)%N → u32 (8 + len + 4) = N.of_nat (8 + length pc).
Proof.
  intros Hlen Hpc Hs _ Hb. unfold go_slice_to in Hs. destruct (N.leb_spec len (N.of_nat (length pc))) as [Hle|]; [|done].
  pose proof (Uint32_lt _ _ Hlen). unfold u32, two32 in *.
  assert (len + 4 < 4294967296)%N by div_mod_lia.
  rewrite N.mod_small in Hpc by done. rewrite N.mod_small by lia. lia.
Qed.

(** ** The fuel *)

Lemma replay_loop_fuel f1 f2 name rest off acc s :
  length rest < f1 → length rest < f2 →
  replay_loop f1 name rest off acc s = replay_loop f2 name rest off acc s.
Proof.
  revert f2 rest off acc s. induction f1 as [|f1 IH]; intros [|f2] rest off acc s H1 H2; [lia..|].
  cbn [replay_loop]. destruct (ReadFull 8 rest s) as [s1 [header r1| |msg]] eqn:E1; [|done..].
  apply ReadFull_inv in E1 as [-> Hh].
  destruct (Uint32 header) as [ty|]; [|done]. cbn [mbind outcome_bind].
  destruct (Uint32 (drop 4 header)) as [len|]; [|done]. cbn [mbind outcome_bind].
  destruct (ReadFull (u32 (len + 4)) r1 s1) as [s2 [pc r2| |msg]] eqn:E2; [|done..].
  apply ReadFull_inv in E2 as [-> _]. rewrite !length_app in *.
  destruct (go_slice_to pc len) as [payload|]; [|done]. cbn [mbind outcome_bind].
  destruct (Uint32 (drop (N.to_nat len) pc)) as [crc|]; [|done]. cbn [mbind outcome_bind].
  destruct (crc =? _)%N; [|done]. apply IH; lia.
Qed.

(** C30: Reading a file terminates.  The loop of [replayFile] reads at least a
    header in every round, so [length content + 1] rounds are enough: with more
    fuel it gives the same, whatever the bytes are and whichever calls fail. *)
Theorem replay_terminates fuel name content off acc s :
  length content < fuel →
  replay_loop fuel name content off acc s = replay_loop (S (length content)) name content off acc s.
Proof. intros Hf. apply replay_loop_fuel; lia. Qed.

(** ** Reading twice *)

Section idempotent.
Context (name : string).

Lemma replay_loop_again fuel rest pre acc s s' r :
  length rest < fuel → os_faults s = [] → os_content name s = Some (pre ++ rest) →
  (N.of_nat (length (pre ++ rest)) < two32)%N →
  replay_loop fuel name rest (Z.of_nat (length pre)) acc s = Ret (s', r) →
  ∃ rest' acc', r = inl acc' ∧ os_faults s' = [] ∧ os_content name s' = Some (pre ++ rest') ∧ rest' `prefix_of` rest ∧
    ∀ fuel2 off2 s2, length rest' < fuel2 → os_faults s2 = [] →
      replay_loop fuel2 name rest' off2 acc s2 = Ret (s2, inl acc').
Proof.
  revert rest pre acc s. induction fuel as [|fuel IH]; intros rest pre acc s Hfuel Hf Hc Hb Hr; [lia|].
  assert (Hend : ∀ t acc, length t < 8 → ∀ fuel2 off2 s2, length t < fuel2 → os_faults s2 = [] →
      replay_loop fuel2 name t off2 acc s2 = Ret (s2, inl acc)).
  { intros t a Ht [|fuel2] off2 s2 ? Hf2; [lia|]. cbn [replay_loop]. rewrite ReadFull_quiet by done.
    by rewrite (proj2 (N.leb_gt _ _)) by lia. }
  assert (Hcut : replay_loop (S fuel) name rest (Z.of_nat (length pre)) acc s =
      Ret (truncateFile name (Z.of_nat (length pre)) s, inl acc) →
      ∃ rest' acc', r = inl acc' ∧ os_faults s' = [] ∧ os_content name s' = Some (pre ++ rest') ∧ rest' `prefix_of` rest ∧
      ∀ fuel2 off2 s2, length rest' < fuel2 → os_faults s2 = [] →
      replay_loop fuel2 name rest' off2 acc s2 = Ret (s2, inl acc')).
  { intros E. rewrite E, (truncateFile_quiet _ _ rest) in Hr by done. apply Ret_pair_inj in Hr as [<- <-].
    exists [], acc. rewrite app_nil_r. split_and!; [done|done| |apply prefix_nil|apply Hend; simpl; lia].
    unfold os_content, os_set. simpl. by rewrite lookup_insert_eq. }
  cbn [replay_loop] in Hr, Hcut.
  destruct (ReadFull 8 rest s) as [s1 [header r1| |msg]] eqn:E1; rewrite ReadFull_quiet in E1 by done.
  - pose proof E1 as E1'. rewrite <- (ReadFull_quiet 8 rest s Hf) in E1'. apply ReadFull_inv in E1' as [-> Hh].
    injection E1 as <- _. 
    destruct (Uint32 header) as [ty|] eqn:Ety; [|done]. cbn [mbind outcome_bind] in Hr, Hcut.
    destruct (Uint32 (drop 4 header)) as [len|] eqn:Elen; [|done]. cbn [mbind outcome_bind] in Hr, Hcut.
    destruct (ReadFull (u32 (len + 4)) r1 s) as [s2 [pc r2| |msg]] eqn:E2; 
      [|rewrite ReadFull_quiet in E2 by done; injection E2 as <- _; by apply Hcut
       |rewrite ReadFull_quiet in E2 by done; by destruct (_ <=? _)%N].
    pose proof E2 as E2'. apply ReadFull_inv in E2' as [-> Hpc]. rewrite ReadFull_quiet in E2 by done. injection E2 as <- _.
    destruct (go_slice_to pc len) as [payload|] eqn:Ep; [|done]. cbn [mbind outcome_bind] in Hr, Hcut.
    destruct (Uint32 (drop (N.to_nat len) pc)) as [crc|] eqn:Ecrc; [|done]. cbn [mbind outcome_bind] in Hr, Hcut.
    destruct (crc =? _)%N eqn:Ecmp; [|by apply Hcut]. clear Hcut.
    rewrite (record_read header pc payload len crc) in Hr;
      [|done..|rewrite !length_app in Hb; lia].
    replace (Z.of_nat (length pre) + _)%Z with (Z.of_nat (length (pre ++ header ++ pc))) in Hr
      by (rewrite !length_app; lia).
    destruct (IH r2 (pre ++ header ++ pc) (process_record ty payload acc) s) as (rest' & acc' & -> & Hf' & Hc' & Hp & Hagain).
    { rewrite !length_app in Hfuel. lia. }
    { done. }
    { by rewrite <- !app_assoc. }
    { by rewrite <- !app_assoc. }
    { exact Hr. }
    exists (header ++ pc ++ rest'), acc'. rewrite <- !app_assoc in Hc'. split_and!; [done..|by do 2 apply prefix_app|].
    intros [|fuel2] off2 s2 Hfuel2 Hf2; [lia|]. cbn [replay_loop]. rewrite ReadFull_ok by (done || lia).
    rewrite Ety. cbn [mbind outcome_bind]. rewrite Elen. cbn [mbind outcome_bind]. rewrite ReadFull_ok by (done || lia).
    rewrite Ep. cbn [mbind outcome_bind]. rewrite Ecrc. cbn [mbind outcome_bind]. rewrite Ecmp.
    apply Hagain; [rewrite !length_app in Hfuel2; lia|done].
  - injection E1 as <- E1. destruct (N.leb_spec 8 (N.of_nat (length rest))); [done|].
    apply Ret_pair_inj in Hr as [<- <-]. exists rest, acc. split_and!; [done..|apply Hend; lia].
  - by destruct (8 <=? _)%N.
Qed.
End idempotent.

(** C29: Replay is idempotent.  Reading a file of arbitrary bytes on a disk
    without faults either panics or recovers some records and leaves a prefix
    of the file, and reading what it left gives the same records and changes
    nothing.  (A file of 4 GB or more is not covered: the offset at which it
    would be cut is computed in 32 bits.) *)
Theorem replay_idempotent name content s s' r :
  os_faults s = [] → os_content name s = Some content → (N.of_nat (length content) < two32)%N →
  replayFile name s = Ret (s', r) →
  ∃ rec content', r = inl rec ∧ os_content name s' = Some content' ∧ content' `prefix_of` content ∧
    replayFile name s' = Ret (s', inl rec).
Proof.
  intros Hf Hc Hb Hr. unfold replayFile, os_call in Hr. rewrite Hf in Hr. cbv iota beta zeta in Hr. rewrite Hc in Hr.
  destruct (replay_loop_again name (S (length content)) content [] recovered_zero s s' r)
    as (rest' & rec & -> & Hf' & Hc' & Hp & Hagain); [lia|done..|].
  exists rec, rest'. split_and!; [done..|]. unfold replayFile, os_call. rewrite Hf'. cbv iota beta zeta.
  rewrite Hc'. simpl app. apply Hagain; [lia|done].
Qed.

(** ** Witnesses *)
Module ReplayWitnesses.

(** A vote, then the first nine bytes of another record. *)
Definition torn : bytes :=
  record_bytes RecordVote (Marshal (record_payload (VoteRecord "b" 3))) ++
  take 9 (record_bytes RecordTerm (Marshal (record_payload (TermRecord 4)))).
Definition disk : os := mkOS {["wal_000001.log" := Some torn]} [].
Definition after : os :=
  os_set "wal_000001.log" (record_bytes RecordVote (Marshal (record_payload (VoteRecord "b" 3)))) disk.

Lemma replay_terminates_witness :
  replay_loop 100 "wal_000001.log" torn 0 recovered_zero disk =
  replay_loop (S (length torn)) "wal_000001.log" torn 0 recovered_zero disk.
Proof. apply replay_terminates. vm_compute. lia. Defined.

Lemma replay_idempotent_witness :
  ∃ rec content', (inl (mkRecovered 3 "b" []) : recovered + string) = inl rec ∧
    os_content "wal_000001.log" after = Some content' ∧ content' `prefix_of` torn ∧
    replayFile "wal_000001.log" after = Ret (after, inl rec).
Proof.
  apply (replay_idempotent "wal_000001.log" torn disk after (inl (mkRecovered 3 "b" []))); by_compute.
Defined.
End ReplayWitnesses.
