(* ===== verification/WalFaults.v ===== *)
(** What the write-ahead log does with a file that ends in the middle of a
    record, with damaged records and with failing calls to the operating
    system.

    A crash during [Append] leaves a prefix of the record.  With at least the
    header there, [Replay] cuts it off and everything is as before the append;
    a changed byte is detected by the checksum.  The remaining theorems are
    about cases that go wrong: a partial header is left in the file, where
    it hides the records appended later; a failed write does the same; a read
    error truncates valid records; a log that failed to rotate never writes
    again. *)

From S2P Require Import Prelude Types Storage Binary Text Json Wal WalSpec.

(** ** Persist, restart, replay *)

Fixpoint persist_all (w : WAL) (rs : list wrecord) : WAL * list (option string) :=
  match rs with
  | [] => (w, [])
  | r :: rs =>
      let '(w, e) := Persist w r in
      let '(w, es) := persist_all w rs in (w, e :: es)
  end.

Lemma persist_all_ok js size rs :
  js ≠ [] → Forall log_record rs → Forall (Forall log_record) js →
  ∃ js' size', persist_all (log_state js size) rs = (log_state js' size', replicate (length rs) None) ∧
         js' ≠ [] ∧ Forall (Forall log_record) js' ∧ concat js' = concat js ++ rs.
Proof.
  intros Hne Hrs. revert js size Hne. induction Hrs as [|r rs Hr _ IH]; intros js size Hne Hjs.
  { exists js, size. by rewrite app_nil_r. }
  cbn [persist_all]. destruct (Persist_ok js size r Hne) as (js1 & size1 & -> & Hadd & Hne1).
  destruct (IH js1 size1 Hne1 (journal_add_good _ _ _ Hadd Hr Hjs)) as (js' & size' & -> & ? & ? & Hc).
  exists js', size'. split_and!; [done..|]. rewrite Hc, (cons_middle r _ rs), app_assoc. f_equal.
  destruct Hadd; rewrite !concat_app; simpl; by rewrite ?app_nil_r, ?app_assoc.
Qed.

(** C26: What is persisted is read back after a restart.  Any storable records,
    appended to a new log without faults of the disk, are appended without
    error; and when at most 999999 files were needed, a new process opens the
    directory and its replay gives exactly these records, spread over the files
    in the order in which they were written. *)
Theorem persisted_records_recovered rs :
  Forall log_record rs →
  ∃ w js, persist_all (log_state [[]] 0) rs = (w, replicate (length rs) None) ∧ concat js = rs ∧
    (listed w = true →
     ∃ w', reopen w = inl w' ∧ WAL_Replay w' = Ret (w', inl (replay_files js))).
Proof.
  intros Hrs. destruct (persist_all_ok [[]] 0 rs) as (js & size & HP & Hne & Hjs & Hc);
    [done|done|by repeat constructor|].
  exists (log_state js size), js. split_and!; [done|done|]. intros Hl%Z.ltb_lt.
  destruct (reopen_ok js size Hne Hl) as [size' ->]. eexists. split; [done|]. by apply WAL_Replay_ok.
Qed.

(** ** Torn and damaged records *)

(** The directory of a log with a file that holds the records [f] and some more
    bytes, behind the files [fs] and before the files [gs]. *)
Definition with_damage (fs : list (list wrecord)) (f : list wrecord) (tail : bytes) (gs : list (list wrecord)) : os :=
  mkOS (log_dir ((encode_file <$> fs) ++ (encode_file f ++ tail) :: (encode_file <$> gs))) [].

(** The same when it is the last file of the log. *)
Definition with_tail (fs : list (list wrecord)) (f : list wrecord) (tail : bytes) : os :=
  with_damage fs f tail [].

Definition file_name (fs : list (list wrecord)) : string := walFileName (Z.of_nat (S (length fs))).

Lemma damage_lookup fs f tail gs :
  ((encode_file <$> fs) ++ (encode_file f ++ tail) :: (encode_file <$> gs)) !! length fs = Some (encode_file f ++ tail).
Proof. by rewrite lookup_app_r, length_fmap, Nat.sub_diag by (rewrite length_fmap; lia). Qed.

Lemma with_damage_content fs f tail gs :
  os_content (file_name fs) (with_damage fs f tail gs) = Some (encode_file f ++ tail).
Proof. apply log_content, damage_lookup. Qed.

(** Other content for one file of a directory. *)
Lemma log_dir_insert cs c c' ds :
  <[walFileName (Z.of_nat (S (length cs))) := Some c']> (log_dir (cs ++ c :: ds)) = log_dir (cs ++ c' :: ds).
Proof.
  induction ds as [|d ds IH] using rev_ind.
  - rewrite !log_dir_snoc. apply insert_insert_eq.
  - rewrite !app_comm_cons, !app_assoc, !log_dir_snoc, <- IH, !length_app. simpl. apply insert_insert_ne.
    intros E%walFileName_inj; lia.
Qed.

(** Truncation at the end of the valid records. *)
Lemma truncate_damage fs f tail gs :
  truncateFile (file_name fs) (Z.of_nat (length (encode_file f))) (with_damage fs f tail gs) =
    with_damage fs f [] gs.
Proof.
  unfold truncateFile. rewrite !os_call_fine by done. rewrite with_damage_content.
  rewrite Nat2Z.id, take_app_length. unfold os_set, with_damage, file_name. cbn [os_dir os_faults].
  rewrite <- (length_fmap encode_file fs), log_dir_insert. by rewrite app_nil_r.
Qed.

(** The file is replayed up to its tail. *)
Lemma replayFile_tail fs f tail gs :
  Forall log_record f →
  ∃ fuel, length tail < fuel ∧
    replayFile (file_name fs) (with_damage fs f tail gs) =
      replay_loop fuel (file_name fs) tail (Z.of_nat (length (encode_file f))) (replay_file f) (with_damage fs f tail gs).
Proof.
  intros Hf. unfold replayFile. rewrite os_call_fine, with_damage_content by done.
  pose proof (length_encode_file f).
  exists (S (length (encode_file f ++ tail)) - length f). split; [rewrite length_app; lia|].
  replace (S (length (encode_file f ++ tail))) with
    (length f + (S (length (encode_file f ++ tail)) - length f)) at 1 by (rewrite length_app; lia).
  rewrite replay_loop_file by done. done.
Qed.

(** A tail that is a proper prefix of a record with its whole header. *)
Lemma replay_torn fuel fs f r k gs :
  log_record r → 8 <= k < length (encode_record r) →
  replay_loop (S fuel) (file_name fs) (take k (encode_record r)) (Z.of_nat (length (encode_file f)))
      (replay_file f) (with_damage fs f (take k (encode_record r)) gs) =
    Ret (with_damage fs f [] gs, inl (replay_file f)).
Proof.
  intros Hr Hk. pose proof (length_payload r Hr) as Hlen. unfold encode_record in *.
  set (data := Marshal (record_payload r)) in *. set (s := with_damage _ _ _ _).
  rewrite length_record_bytes in Hk. unfold record_bytes. set (h := record_header _ _).
  assert (Hh : length h = 8) by done.
  replace (take k (h ++ data ++ PutUint32 (ChecksumIEEE (h ++ data)))) with
    (h ++ take (k - 8) (data ++ PutUint32 (ChecksumIEEE (h ++ data))))
    by (rewrite (take_app_ge h), Hh by lia; done).
  cbn [replay_loop]. rewrite ReadFull_ok by done.
  destruct (read_header (record_type r) data []) as [H1 H2]; [apply record_type_lt|unfold two32; lia|].
  fold h in H1, H2. rewrite app_nil_r in H1, H2. rewrite H1. cbn [mbind outcome_bind]. rewrite H2.
  cbn [mbind outcome_bind]. rewrite ReadFull_short; [unfold s; by rewrite truncate_damage|done|].
  rewrite u32_small by (unfold two32; lia). rewrite length_take, length_app. simpl. lia.
Qed.

(** A record with another byte in its type, payload or checksum. *)
Lemma replay_damaged fuel fs f ty data crc rest gs :
  (ty < two32)%N → (N.of_nat (length data) < 4000000000)%N → (crc < two32)%N →
  crc ≠ ChecksumIEEE (record_header ty data ++ data) →
  let tail := record_header ty data ++ data ++ PutUint32 crc ++ rest in
  replay_loop (S fuel) (file_name fs) tail (Z.of_nat (length (encode_file f))) (replay_file f)
      (with_damage fs f tail gs) = Ret (with_damage fs f [] gs, inl (replay_file f)).
Proof.
  intros Hty Hlen Hcrc Hne tail. unfold tail at 1. rewrite replay_loop_round by done.
  apply N.eqb_neq in Hne as ->. by rewrite truncate_damage.
Qed.

(** *** All files *)

Lemma replay_with_damage fs f tail gs w :
  Forall (Forall log_record) fs → Forall (Forall log_record) gs →
  (Z.of_nat (length (fs ++ f :: gs)) < 1000000)%Z → w_os w = with_damage fs f tail gs →
  replayFile (file_name fs) (with_damage fs f tail gs) = Ret (with_damage fs f [] gs, inl (replay_file f)) →
  WAL_Replay w = Ret (with_os w (with_damage fs f [] gs), inl (replay_files (fs ++ f :: gs))).
Proof.
  intros Hfs Hgs Hn Hw Hrep. unfold WAL_Replay, listWALFiles. rewrite Hw, os_call_fine by done.
  assert (Hlen : length ((encode_file <$> fs) ++ (encode_file f ++ tail) :: (encode_file <$> gs)) =
                 length fs + S (length gs)) by by rewrite length_app, length_cons, !length_fmap.
  unfold with_damage at 1. cbn [os_dir]. rewrite list_dir_log by (rewrite Hlen, length_app in *; simpl in *; lia).
  rewrite Hlen. unfold log_names. rewrite seq_app, fmap_app, replay_each_ok; [|done|done|].
  - cbn [Nat.add seq]. rewrite fmap_cons. cbn [replay_each wf_name]. fold (file_name fs). rewrite Hrep.
    cbn [mbind outcome_bind]. rewrite <- (app_nil_r (fmap _ (seq (S _) _))), replay_each_ok; [|done|done|].
    + cbn [replay_each mbind outcome_bind]. unfold replay_files. by rewrite foldl_app.
    + intros i g Hi. apply log_content. rewrite lookup_app_r, length_fmap by (rewrite length_fmap; lia).
      replace (S (length fs) + i - length fs) with (S i) by lia.
      change ((encode_file <$> gs) !! i = Some (encode_file g)). by rewrite list_lookup_fmap, Hi.
  - intros i g Hi. apply log_content. rewrite lookup_app_l; [by rewrite list_lookup_fmap; simpl; rewrite Hi|].
    rewrite length_fmap. by apply lookup_lt_Some in Hi.
Qed.

Lemma NewWAL_dir cs :
  cs ≠ [] → (Z.of_nat (length cs) < 1000000)%Z →
  ∃ size, (NewWAL (mkOS (log_dir cs) [])).2 =
    inl (mkWAL (mkOS (log_dir cs) []) (Some (mkHandle (walFileName (Z.of_nat (length cs))) false))
           (Z.of_nat (length cs)) size).
Proof.
  intros Hne Hn. destruct (exists_last Hne) as (ds & c & ->). rewrite length_app, Nat.add_1_r in *.
  rewrite NewWAL_log by done. by eexists.
Qed.

(** A new process on a directory with a file that ends in [tail], when the
    replay of that file cuts the tail off. *)
Lemma recovered_log fs f tail gs :
  Forall (Forall log_record) fs → Forall log_record f → Forall (Forall log_record) gs →
  (Z.of_nat (length (fs ++ f :: gs)) < 1000000)%Z →
  (∀ fuel, length tail < fuel →
    replay_loop fuel (file_name fs) tail (Z.of_nat (length (encode_file f))) (replay_file f) (with_damage fs f tail gs) =
      Ret (with_damage fs f [] gs, inl (replay_file f))) →
  ∃ w w', (NewWAL (with_damage fs f tail gs)).2 = inl w ∧
    WAL_Replay w = Ret (w', inl (replay_files (fs ++ f :: gs))) ∧ good_log (fs ++ f :: gs) w'.
Proof.
  intros Hfs Hf Hgs Hn Hrep.
  assert (Hlen : length ((encode_file <$> fs) ++ (encode_file f ++ tail) :: (encode_file <$> gs)) =
                 length (fs ++ f :: gs)) by by rewrite !length_app, !length_cons, !length_fmap.
  destruct (NewWAL_dir ((encode_file <$> fs) ++ (encode_file f ++ tail) :: (encode_file <$> gs))) as [size HW];
    [by destruct fs|by rewrite Hlen|].
  eexists _, _. split; [exact HW|]. split.
  - eapply replay_with_damage; [done|done|done|reflexivity|].
    destruct (replayFile_tail fs f tail gs Hf) as (fuel & Hfuel & ->). by apply Hrep.
  - split; [by destruct fs|]. split; [apply Forall_app; by repeat constructor|].
    exists size. unfold with_os, log_state, with_damage. cbn [w_file w_fileID w_fileSize].
    by rewrite Hlen, app_nil_r, fmap_app.
Qed.

(** C27: A torn append is undone.  When the process dies while a record is
    being appended and at least the eight bytes of its header were written, the
    next process opens the log, its replay gives exactly the records appended
    before, and leaves a log that is good again: the torn record is cut off. *)
Theorem torn_append_recovered fs f r k :
  Forall (Forall log_record) fs → Forall log_record f → log_record r →
  (Z.of_nat (S (length fs)) < 1000000)%Z → 8 <= k < length (encode_record r) →
  ∃ w w', (NewWAL (with_tail fs f (take k (encode_record r)))).2 = inl w ∧
    WAL_Replay w = Ret (w', inl (replay_files (fs ++ [f]))) ∧ good_log (fs ++ [f]) w'.
Proof.
  intros Hfs Hf Hr Hn Hk. apply recovered_log; [done..|by rewrite length_app, Nat.add_1_r|].
  intros [|fuel] Hfuel; [lia|]. by apply replay_torn.
Qed.

(** A record with one byte changed, outside its length field, is a header, a
    payload of the same length and a checksum that do not fit together. *)
Lemma changed_record ty data i b c :
  (ty < two32)%N → record_bytes ty data !! i = Some b → b ≠ c → i < 4 ∨ 8 <= i →
  ∃ ty' data' crc, <[i := c]> (record_bytes ty data) = record_header ty' data' ++ data' ++ PutUint32 crc ∧
    (ty' < two32)%N ∧ length data' = length data ∧ (crc < two32)%N ∧
    crc ≠ ChecksumIEEE (record_header ty' data' ++ data').
Proof.
  intros Hty Hi Hne Hpos. apply lookup_lt_Some in Hi as Hlen. rewrite length_record_bytes in Hlen.
  unfold record_bytes in *. set (h := record_header ty data) in *. set (crc := ChecksumIEEE (h ++ data)) in *.
  pose proof (ChecksumIEEE_lt (h ++ data)) as Hcrc. fold crc in Hcrc. assert (Hh : length h = 8) by done.
  assert (Hcase : i < 4 ∨ (8 <= i < 8 + length data) ∨ 8 + length data <= i) by lia.
  destruct Hcase as [Hc|[Hc|Hc]].
  - destruct (PutUint32_surj (<[i := c]> (PutUint32 ty))) as (ty' & Hty' & E); [by rewrite length_insert|].
    assert (Eh : <[i := c]> h = record_header ty' data).
    { unfold h, record_header. by rewrite insert_app_l, E by (simpl; lia). }
    exists ty', data, crc. rewrite insert_app_l, Eh by lia. split_and!; try done.
    rewrite <- Eh, <- insert_app_l by lia. unfold crc. apply not_eq_sym, (ChecksumIEEE_insert _ i b); [|done].
    rewrite lookup_app_l in * by lia. done.
  - exists ty, (<[i - 8 := c]> data), crc. unfold record_header. rewrite length_insert. fold (record_header ty data). fold h.
    rewrite insert_app_r_alt, insert_app_l by lia. rewrite Hh. split_and!; try done.
    replace (h ++ <[i - 8 := c]> data) with (<[i := c]> (h ++ data)) by (rewrite insert_app_r_alt, Hh by lia; done).
    apply not_eq_sym, (ChecksumIEEE_insert _ i b); [|done].
    rewrite app_assoc, lookup_app_l in Hi by (rewrite length_app; lia). done.
  - destruct (PutUint32_surj (<[i - 8 - length data := c]> (PutUint32 crc))) as (crc' & Hcrc' & E);
      [by rewrite length_insert|].
    exists ty, data, crc'. fold h. rewrite !insert_app_r_alt, Hh, E by lia. split_and!; try done.
    intros ->. fold crc in E. rewrite !lookup_app_r, Hh in Hi by lia. rewrite E in Hi.
    rewrite list_lookup_insert_eq in Hi by (simpl; lia). congruence.
Qed.

(** C28: Damage of one byte is detected.  When one byte of a record of some
    file of the log (at most 999999 files, a disk without faults), not in its
    length field, has another value than was written, a new process opens the
    log and its replay gives the records of the files before, the records of
    this file before the damaged one and none behind it, and the records of the
    later files; it cuts the file at the damaged record, which leaves a log
    that is good again. *)
Theorem damaged_byte_detected fs f r rest gs i b c :
  Forall (Forall log_record) fs → Forall log_record f → log_record r → Forall (Forall log_record) gs →
  (Z.of_nat (length (fs ++ f :: gs)) < 1000000)%Z →
  encode_record r !! i = Some b → b ≠ c → i < 4 ∨ 8 <= i →
  ∃ w w', (NewWAL (with_damage fs f (<[i := c]> (encode_record r) ++ rest) gs)).2 = inl w ∧
    WAL_Replay w = Ret (w', inl (replay_files (fs ++ f :: gs))) ∧ good_log (fs ++ f :: gs) w'.
Proof.
  intros Hfs Hf Hr Hgs Hn Hi Hne Hpos. pose proof (length_payload r Hr) as Hlen.
  destruct (changed_record _ _ _ _ _ (record_type_lt r) Hi Hne Hpos)
    as (ty & data & crc & E & Hty & Hdata & Hcrc & Hbad).
  unfold encode_record. rewrite E, <- !app_assoc. apply recovered_log; [done..|].
  intros [|fuel] Hfuel; [lia|]. apply replay_damaged; [done|by rewrite Hdata|done..].
Qed.

(** ** Where the log loses records *)

(** A log whose file is closed never writes again.  [rotate] closes the old
    file before it opens the new one and keeps the closed file when that fails;
    from then on every append fails, whatever the disk does. *)
Theorem closed_log_stays_closed w h r :
  w_file w = Some h → h_closed h = true →
  ∃ w' h' err, Persist w r = (w', Some err) ∧ w_file w' = Some h' ∧ h_closed h' = true.
Proof.
  intros Hw Hh. unfold Persist, Append. cbv zeta. destruct (maxWALSize <? _)%Z.
  - unfold rotate, close_handle. rewrite Hw, Hh. cbn [fmap option_fmap option_map].
    by eexists _, (set_closed h), _.
  - unfold write_sync. rewrite Hw, Hh. by eexists w, h, _.
Qed.

(** [openCurrentFile] that fails leaves the file of the log as it was. *)
Lemma openCurrentFile_error w w' err : openCurrentFile w = (w', Some err) → w_file w' = w_file w.
Proof.
  unfold openCurrentFile. destruct (OpenFile_append _ _) as [s [msg|]]; [by intros [= <- _]|].
  destruct (os_call s) as [s' [[n msg]|]]; [by intros [= <- _]|done].
Qed.

(** A rotation that fails leaves the log closed, so that (with the theorem
    before) no later append succeeds. *)
Theorem failed_rotation_closes w h w' err :
  w_file w = Some h → rotate w = (w', Some err) →
  ∃ h', w_file w' = Some h' ∧ h_closed h' = true.
Proof.
  intros Hw. unfold rotate. rewrite Hw. destruct (close_handle (w_os w) h) as [s [msg|]].
  - intros [= <- _]. by exists (set_closed h).
  - intros H%openCurrentFile_error. rewrite H. by exists (set_closed h).
Qed.

Module Losses.

(** A new process on a directory, and what its replay gives. *)
Definition opened (s : os) : WAL :=
  match (NewWAL s).2 with inl w => w | inr _ => log_state [[]] 0 end.
Definition recovers (w : WAL) : option recovered :=
  match WAL_Replay w with Ret (_, inl r) => Some r | _ => None end.
Definition after_replay (w : WAL) : WAL :=
  match WAL_Replay w with Ret (w', _) => w' | Panic => w end.

(** A log of one file with the given content, open, and faults to come. *)
Definition one_file (content : bytes) (faults : list fault) : WAL :=
  mkWAL (mkOS (log_dir [content]) faults) (Some (mkHandle (walFileName 1) false)) 1 (Z.of_nat (length content)).

Definition torn_header : WAL :=
  opened (with_tail [] [VoteRecord "a" 1] (take 3 (encode_record (TermRecord 2)))).
Definition voted : WAL * option string := Persist (after_replay torn_header) (VoteRecord "b" 2).

(** A partial header is not cut off, and hides what is appended behind it.
    The process died after three bytes of a record; the next one replays the
    log and persists a vote in term 2 without error; the one after it recovers
    term 1 and the old vote. *)
Theorem partial_header_hides_vote :
  recovers torn_header = Some (mkRecovered 1 "a" []) ∧ voted.2 = None ∧
  recovers (opened (w_os voted.1)) = Some (mkRecovered 1 "a" []).
Proof. vm_compute. repeat split. Qed.

Definition failed : WAL * option string :=
  Persist (one_file [] [Fails 20 "no space left on device"]) (TermRecord 1).
Definition succeeded : WAL * option string := Persist failed.1 (VoteRecord "b" 2).

(** A failed write hides the appends that succeed after it.  A write stores
    20 bytes and fails; the append of the next record reports success, and a
    restart recovers nothing. *)
Theorem failed_write_hides_later_appends :
  failed.2 = Some "write WAL record: no space left on device" ∧ succeeded.2 = None ∧
  recovers (opened (w_os succeeded.1)) = Some recovered_zero.
Proof. vm_compute. repeat split. Qed.

Definition two_records : bytes := encode_file [TermRecord 1; VoteRecord "a" 1].
Definition read_error : WAL := one_file two_records [Fine; Fine; Fine; Fails 0 "input/output error"].

(** One failing read of a payload during replay truncates the file at that
    record; valid records are lost for good. *)
Theorem read_error_truncates_valid_records :
  recovers (one_file two_records []) = Some (mkRecovered 1 "a" []) ∧
  recovers read_error = Some recovered_zero ∧
  os_content (walFileName 1) (w_os (after_replay read_error)) = Some [].
Proof. vm_compute. repeat split. Qed.

(** Replay panics on a length field of 2^32-3: the size [payloadLen+4] of
    the buffer wraps around to 1, and the payload is sliced out of it. *)
Theorem length_overflow_panics :
  WAL_Replay (one_file (PutUint32 RecordTerm ++ PutUint32 4294967293 ++ [Byte.x00]) []) = Panic.
Proof. vm_compute. reflexivity. Qed.

(** A log of two files; a byte of the first is damaged. *)
Definition damaged_first : WAL :=
  opened (mkOS (log_dir [<[20 := Byte.x00]> (encode_file [VoteRecord "a" 1; EntryRecord 1 1 [Byte.x01]]);
                         encode_file [EntryRecord 2 1 [Byte.x02]]]) []).

(** Replay does not stop at a corrupt record: it drops the rest of that file
    and goes on with the next one, so the recovered entries start with index 2. *)
Theorem replay_continues_after_corruption :
  recovers damaged_first = Some (mkRecovered 0 "" [mkEntry 1 2 [Byte.x02]]).
Proof. vm_compute. reflexivity. Qed.

(** The file with number 1000000 is written but not found: its name has
    seven digits, of which the pattern reads six. *)
Theorem millionth_file_not_found content :
  wal_entry (walFileName 999999, Some content) = Some (mkWalFile 999999 (walFileName 999999)) ∧
  wal_entry (walFileName 1000000, Some content) = None.
Proof. split; vm_compute; reflexivity. Qed.

End Losses.

(** ** Witnesses *)

Module FaultWitnesses.

Lemma persisted_records_recovered_witness :
  ∃ w js, persist_all (log_state [[]] 0) [TermRecord 3; EntryRecord 1 3 [Byte.x00]] =
            (w, replicate 2 None) ∧ concat js = [TermRecord 3; EntryRecord 1 3 [Byte.x00]] ∧
    (listed w = true → ∃ w', reopen w = inl w' ∧ WAL_Replay w' = Ret (w', inl (replay_files js))).
Proof.
  apply (persisted_records_recovered [TermRecord 3; EntryRecord 1 3 [Byte.x00]]).
  repeat constructor; vm_compute; discriminate.
Defined.

Lemma torn_append_recovered_witness :
  ∃ w w', (NewWAL (with_tail [] [TermRecord 3] (take 9 (encode_record (TermRecord 4))))).2 = inl w ∧
    WAL_Replay w = Ret (w', inl (replay_files ([] ++ [[TermRecord 3]]))) ∧ good_log ([] ++ [[TermRecord 3]]) w'.
Proof.
  apply (torn_append_recovered [] [TermRecord 3] (TermRecord 4) 9);
    [constructor|repeat constructor|done|done|vm_compute; lia].
Defined.

Lemma damaged_byte_detected_witness :
  ∃ w w', (NewWAL (with_damage [] [TermRecord 3] (<[9 := Byte.x00]> (encode_record (TermRecord 4)) ++ [])
                     [[VoteRecord "a" 3]])).2 = inl w ∧
    WAL_Replay w = Ret (w', inl (replay_files [[TermRecord 3]; [VoteRecord "a" 3]])) ∧
    good_log [[TermRecord 3]; [VoteRecord "a" 3]] w'.
Proof.
  apply (damaged_byte_detected [] [TermRecord 3] (TermRecord 4) [] [[VoteRecord "a" 3]] 9 Byte.x22 Byte.x00);
    [constructor|repeat constructor|done|repeat constructor; by vm_compute|done
    |vm_compute; reflexivity|discriminate|lia].
Defined.

Definition closed : WAL := mkWAL (mkOS ∅ []) (Some (mkHandle (walFileName 1) true)) 1 0.

Lemma closed_log_stays_closed_witness :
  ∃ w' h' err, Persist closed (TermRecord 1) = (w', Some err) ∧ w_file w' = Some h' ∧ h_closed h' = true.
Proof. apply (closed_log_stays_closed closed (mkHandle (walFileName 1) true)); reflexivity. Defined.

Definition no_space : WAL := Losses.one_file [] [Fine; Fails 0 "no space left on device"].

Lemma failed_rotation_closes_witness :
  (rotate no_space).2 = Some "open WAL file: no space left on device" ∧
  ∃ h', w_file (rotate no_space).1 = Some h' ∧ h_closed h' = true.
Proof.
  split; [vm_compute; reflexivity|].
  apply (failed_rotation_closes no_space (mkHandle (walFileName 1) false) (rotate no_space).1
    "open WAL file: no space left on device"); vm_compute; reflexivity.
Defined.

End FaultWitnesses.
