(* ===== verification/KVStore.v ===== *)
(** The state machine: src/internal/kvstore/store.go, and the goroutine of
    src/cmd/server/main.go that feeds committed entries to it.

    The map is a [gmap]; the mutex makes each operation atomic, so an operation
    is a function on the map.  Commands travel as JSON: [SerializePut] and
    [SerializeDelete] write what [Apply] reads, for keys and values that are
    valid UTF-8. *)

From S2P Require Import Prelude Types Binary Text Json.

Definition CmdPut : string := "put".
Definition CmdDelete : string := "delete".

Record Command : Type := mkCommand {
  cmd_Op : string;
  cmd_Key : string;
  cmd_Value : string;
}.

Record KVStore : Type := mkKVStore { data : gmap string string }.

Definition NewKVStore : KVStore := mkKVStore ∅.

Definition Get (s : KVStore) (key : string) : string * bool :=
  match data s !! key with
  | Some v => (v, true)
  | None => ("", false)
  end.

Definition Put (key value : string) (s : KVStore) : KVStore := mkKVStore (<[key := value]> (data s)).
Definition Delete (key : string) (s : KVStore) : KVStore := mkKVStore (delete key (data s)).

(** [json.Marshal] of a [Command]; an empty value is omitted. *)
Definition command_json (c : Command) : json :=
  JObj ([(ascii_bytes "op", json_string (cmd_Op c)); (ascii_bytes "key", json_string (cmd_Key c))] ++
        if bool_decide (cmd_Value c = "") then [] else [(ascii_bytes "value", json_string (cmd_Value c))]).

Definition Command_fields : list (field Command) :=
  [("op", λ j c, (λ s, mkCommand s (cmd_Key c) (cmd_Value c)) <$> decode_string j (cmd_Op c));
   ("key", λ j c, (λ s, mkCommand (cmd_Op c) s (cmd_Value c)) <$> decode_string j (cmd_Key c));
   ("value", λ j c, (λ s, mkCommand (cmd_Op c) (cmd_Key c) s) <$> decode_string j (cmd_Value c))].

(** The two errors of [Apply]. *)
Inductive apply_error : Type :=
| UnmarshalError
| UnknownOp (op : string).

Definition Apply (cmdBytes : bytes) (s : KVStore) : KVStore * option apply_error :=
  match Unmarshal Command_fields (mkCommand "" "" "") cmdBytes with
  | None => (s, Some UnmarshalError)
  | Some cmd =>
      if bool_decide (cmd_Op cmd = CmdPut) then (Put (cmd_Key cmd) (cmd_Value cmd) s, None)
      else if bool_decide (cmd_Op cmd = CmdDelete) then (Delete (cmd_Key cmd) s, None)
      else (s, Some (UnknownOp (cmd_Op cmd)))
  end.

Definition SerializePut (key value : string) : bytes := Marshal (command_json (mkCommand CmdPut key value)).
Definition SerializeDelete (key : string) : bytes := Marshal (command_json (mkCommand CmdDelete key "")).

(** The consumer of the apply channel in main.go: an entry without a command
    is skipped, an error of [Apply] is only logged. *)
Definition consume_entry (s : KVStore) (e : LogEntry) : KVStore :=
  match e_Command e with
  | [] => s
  | _ => (Apply (e_Command e) s).1
  end.

(** The store of a server that was given these entries. *)
Definition replica (es : list LogEntry) : KVStore := foldl consume_entry NewKVStore es.

(** ** Reading commands back *)

Lemma Unmarshal_command c :
  Unmarshal Command_fields (mkCommand "" "" "") (Marshal (command_json c)) =
    Some (mkCommand (sanitize_string (cmd_Op c)) (sanitize_string (cmd_Key c)) (sanitize_string (cmd_Value c))).
Proof.
  destruct c as [op key value]. unfold command_json. cbn [cmd_Op cmd_Key cmd_Value app].
  case_bool_decide as E; (rewrite Unmarshal_Marshal by scalars).
  - by rewrite E.
  - done.
Qed.

(** The command that a byte sequence stands for, if any, and its effect. *)
Definition decode_command (b : bytes) : option Command := Unmarshal Command_fields (mkCommand "" "" "") b.

Lemma Apply_put key value s :
  Apply (SerializePut key value) s = (Put (sanitize_string key) (sanitize_string value) s, None).
Proof. unfold Apply, SerializePut. by rewrite Unmarshal_command. Qed.

Lemma Apply_delete key s :
  Apply (SerializeDelete key) s = (Delete (sanitize_string key) s, None).
Proof. unfold Apply, SerializeDelete. by rewrite Unmarshal_command. Qed.

Lemma SerializePut_nonempty key value : SerializePut key value ≠ [].
Proof. done. Qed.

Lemma SerializeDelete_nonempty key : SerializeDelete key ≠ [].
Proof. done. Qed.

(** ** Reads *)

Lemma Get_Put key value k s :
  Get (Put key value s) k = if bool_decide (k = key) then (value, true) else Get s k.
Proof.
  unfold Get, Put. cbn [data]. case_bool_decide as E; [by rewrite E, lookup_insert_eq|].
  by rewrite lookup_insert_ne.
Qed.

Lemma Get_Delete key k s :
  Get (Delete key s) k = if bool_decide (k = key) then ("", false) else Get s k.
Proof.
  unfold Get, Delete. cbn [data]. case_bool_decide as E; [by rewrite E, lookup_delete_eq|].
  by rewrite lookup_delete_ne.
Qed.

(** An entry that writes a key: a put or delete of it, or anything that decodes
    to one. *)
Definition writes_key (k : string) (e : LogEntry) : bool :=
  match decode_command (e_Command e) with
  | Some c => bool_decide (cmd_Key c = k)
  | None => false
  end.

Lemma consume_other k e s : writes_key k e = false → Get (consume_entry s e) k = Get s k.
Proof.
  unfold writes_key, consume_entry, Apply. fold (decode_command (e_Command e)).
  destruct (e_Command e) as [|b cmd] eqn:E; [done|].
  destruct (decode_command (b :: cmd)) as [c|]; [|done].
  intros Hk%bool_decide_eq_false_1. repeat case_bool_decide; cbn [fst].
  - by rewrite Get_Put, bool_decide_eq_false_2 by congruence.
  - by rewrite Get_Delete, bool_decide_eq_false_2 by congruence.
  - done.
Qed.

Lemma replica_others k es s :
  Forall (λ e, writes_key k e = false) es → Get (foldl consume_entry s es) k = Get s k.
Proof.
  intros H. revert s. induction H as [|e es He _ IH]; intros s; [done|]. simpl.
  by rewrite IH, consume_other.
Qed.

Lemma replica_app es1 es2 : replica (es1 ++ es2) = foldl consume_entry (replica es1) es2.
Proof. unfold replica. by rewrite foldl_app. Qed.

(** The last write wins: after the entries [es1], a put, and entries that do
    not write its key, a read gives the value. *)
Lemma replica_put es1 es2 i t key value :
  valid_string key = true → valid_string value = true →
  Forall (λ e, writes_key key e = false) es2 →
  Get (replica (es1 ++ mkEntry t i (SerializePut key value) :: es2)) key = (value, true).
Proof.
  intros Hk Hv Hes. rewrite replica_app. cbn [foldl]. rewrite replica_others by done.
  change (consume_entry (replica es1) (mkEntry t i (SerializePut key value)))
    with (Apply (SerializePut key value) (replica es1)).1.
  rewrite Apply_put, !sanitize_string_valid by done. cbn [fst].
  by rewrite Get_Put, bool_decide_eq_true_2.
Qed.

(** ** Properties *)


(** Every branch of [Apply]: bytes that do not decode and unknown
    operations leave the store alone and are reported; a put or delete that
    decodes changes exactly its key. *)
Theorem Apply_spec cmdBytes s s' err :
  Apply cmdBytes s = (s', err) →
  match decode_command cmdBytes with
  | None => s' = s ∧ err = Some UnmarshalError
  | Some c =>
      (cmd_Op c ≠ CmdPut → cmd_Op c ≠ CmdDelete → s' = s ∧ err = Some (UnknownOp (cmd_Op c))) ∧
      (err = None ↔ cmd_Op c = CmdPut ∨ cmd_Op c = CmdDelete) ∧
      (∀ k, k ≠ cmd_Key c → Get s' k = Get s k) ∧
      (cmd_Op c = CmdPut → Get s' (cmd_Key c) = (cmd_Value c, true)) ∧
      (cmd_Op c = CmdDelete → Get s' (cmd_Key c) = ("", false))
  end.
Proof.
  unfold Apply. fold (decode_command cmdBytes). destruct (decode_command cmdBytes) as [c|]; [|by intros [= <- <-]].
  case_bool_decide as Hp; [|case_bool_decide as Hd]; intros [= <- <-].
  - rewrite Hp. split_and!; [done|naive_solver|intros k Hk; by rewrite Get_Put, bool_decide_eq_false_2| |done].
    by rewrite Get_Put, bool_decide_eq_true_2.
  - rewrite Hd. split_and!; [done|naive_solver|intros k Hk; by rewrite Get_Delete, bool_decide_eq_false_2|done|].
    by rewrite Get_Delete, bool_decide_eq_true_2.
  - split_and!; [done|naive_solver|done|done|done].
Qed.

Lemma Apply_spec_witness :
  match decode_command (SerializePut "x" "1") with
  | None => False
  | Some c => cmd_Op c = CmdPut → Get (Put "x" "1" NewKVStore) (cmd_Key c) = (cmd_Value c, true)
  end.
Proof.
  pose proof (Apply_spec (SerializePut "x" "1") NewKVStore (Put "x" "1" NewKVStore) None) as H.
  vm_compute in H. vm_compute. by destruct H as (_ & _ & _ & H & _).
Defined.

(** Keys that are not valid UTF-8 can collide: two different keys, one
    entry of the map.  A put of one is read back under a third key, U+FFFD, and
    under neither of the two. *)
Theorem invalid_keys_collide :
  let k1 := String.string_of_list_byte [Byte.xfe] in
  let k2 := String.string_of_list_byte [Byte.xff] in
  k1 ≠ k2 ∧ SerializePut k1 "v" = SerializePut k2 "v" ∧
  Get (Apply (SerializePut k1 "v") NewKVStore).1 k1 = ("", false).
Proof. vm_compute. repeat split; [discriminate]. Qed.
