(* ===== verification/Api.v ===== *)
(** The HTTP interface: src/internal/api/handler.go.

    A handler is a function from the states of the node it looks at, the store
    and a request to a response.  The node may change while a handler waits
    in [SubmitCommand]: [looks] are the states in which the waiting loop looks
    at the node (Replication.v), [later] is its state when the handler asks
    for the leader afterwards.  [net/http] is modelled as far as the handlers use
    it: a response is a status with a JSON value, or a redirect.  Here a handler
    looks at one state of the node before it waits; Http.v has the handlers look
    by look. *)

From S2P Require Import Prelude Types RaftLog Storage Node Replication Binary Text Json KVStore.

Inductive method : Type := MethodGet | MethodPut | MethodDelete | MethodOther.

#[global] Instance method_eq_decision : EqDecision method.
Proof. solve_decision. Defined.

(** [inr] is an error while reading the body. *)
Record request : Type := mkRequest {
  r_Method : method;
  r_Path : string;
  r_Body : bytes + string;
}.

Inductive response : Type :=
| JSONResponse (status : N) (v : json)
| Redirect (status : N) (location : string)
| NotFoundPage.

Definition StatusOK : N := 200.
Definition StatusMovedPermanently : N := 301.
Definition StatusTemporaryRedirect : N := 307.
Definition StatusBadRequest : N := 400.
Definition StatusNotFound : N := 404.
Definition StatusMethodNotAllowed : N := 405.
Definition StatusInternalServerError : N := 500.
Definition StatusServiceUnavailable : N := 503.

Definition maxRequestBody : N := 1048576.

(** A map with string values, in the order of its keys. *)
Definition string_map (l : list (string * string)) : json :=
  JObj ((λ p, (ascii_bytes p.1, json_string p.2)) <$> l).

Definition writeJSON (status : N) (v : json) : response := JSONResponse status v.

Definition error_response (status : N) (msg : string) : response :=
  writeJSON status (string_map [("error", msg)]).

Section api.
Context {W : Type} `{Storage W}.
Implicit Types n : Node W.

(** [Handler]: the node and the store it points to are arguments of the
    operations, since other goroutines change them between two requests. *)
Record Handler : Type := mkHandler { h_peerHTTPAddrs : gmap NodeID string }.

Definition NewHandler (peerHTTPAddrs : gmap NodeID string) : Handler := mkHandler peerHTTPAddrs.

Definition em_dash : string := String.string_of_list_byte [Byte.xe2; Byte.x80; Byte.x94].

(** The location of a redirect: bytes over 0x7f are written in hexadecimal. *)
Definition hex_escape (s : bytes) : bytes :=
  concat ((λ b, if (Byte.to_N b <? 0x80)%N then [b]
                else [Byte.x25; hex_digit (Byte.to_N b / 16); hex_digit (Byte.to_N b mod 16)]) <$> s).

Definition location (addr path : string) : string :=
  String.string_of_list_byte (hex_escape (ascii_bytes ("http://" +:+ addr +:+ path))).

Definition redirectToLeader (h : Handler) n (r : request) : response :=
  let leaderID := LeaderID n in
  if bool_decide (leaderID = "") then
    error_response StatusServiceUnavailable ("no leader elected " +:+ em_dash +:+ " try again later")
  else
    match h_peerHTTPAddrs h !! leaderID with
    | None => error_response StatusServiceUnavailable "leader address unknown"
    | Some leaderAddr => Redirect StatusTemporaryRedirect (location leaderAddr (r_Path r))
    end.

Definition handleGet (h : Handler) n (store : KVStore) (r : request) (key : string) : response :=
  if negb (IsLeader n) then redirectToLeader h n r
  else
    match Get store key with
    | (_, false) => error_response StatusNotFound "key not found"
    | (val, true) => writeJSON StatusOK (string_map [("key", key); ("value", val)])
    end.

(** [io.ReadAll(io.LimitReader(r.Body, maxRequestBody))]. *)
Definition read_limited (b : bytes) : bytes :=
  if (N.of_nat (length b) <=? maxRequestBody)%N then b else take (N.to_nat maxRequestBody) b.

(** The request body of a put. *)
Definition put_fields : list (field string) := [("value", decode_string)].

Definition submit_error_response (h : Handler) (later : Node W) (r : request) (err : raft_error) : response :=
  match err with
  | ErrNotLeader => redirectToLeader h later r
  | _ => error_response StatusInternalServerError (raft_error_Error err)
  end.

Definition handlePut (h : Handler) n (looks : list (Node W)) (later : Node W) (r : request) (key : string)
    : Node W * response :=
  if negb (IsLeader n) then (n, redirectToLeader h n r)
  else
    match r_Body r with
    | inr _ => (n, error_response StatusBadRequest "failed to read body")
    | inl body =>
        match Unmarshal put_fields "" (read_limited body) with
        | None => (n, error_response StatusBadRequest "invalid JSON body")
        | Some value =>
            match SubmitCommand (SerializePut key value) n looks with
            | (n', inr err) => (n', submit_error_response h later r err)
            | (n', inl (index, term)) =>
                (n', writeJSON StatusOK
                       (JObj [(ascii_bytes "index", json_uint index); (ascii_bytes "key", json_string key);
                              (ascii_bytes "term", json_uint term); (ascii_bytes "value", json_string value)]))
            end
        end
    end.

Definition handleDelete (h : Handler) n (looks : list (Node W)) (later : Node W) (r : request) (key : string)
    : Node W * response :=
  if negb (IsLeader n) then (n, redirectToLeader h n r)
  else
    match SubmitCommand (SerializeDelete key) n looks with
    | (n', inr err) => (n', submit_error_response h later r err)
    | (n', inl _) => (n', writeJSON StatusOK (string_map [("key", key); ("status", "deleted")]))
    end.

Definition trim_prefix (p s : string) : string :=
  match strip_prefix (ascii_bytes p) (ascii_bytes s) with
  | Some rest => String.string_of_list_byte rest
  | None => s
  end.

Definition handleKV (h : Handler) n looks later store (r : request) : Node W * response :=
  let key := trim_prefix "/kv/" (r_Path r) in
  if bool_decide (key = "") then (n, error_response StatusBadRequest "key is required")
  else
    match r_Method r with
    | MethodGet => (n, handleGet h n store r key)
    | MethodPut => handlePut h n looks later r key
    | MethodDelete => handleDelete h n looks later r key
    | MethodOther => (n, error_response StatusMethodNotAllowed "method not allowed")
    end.

Definition status_json (st : NodeStatus) : json :=
  JObj [(ascii_bytes "node_id", json_string (st_NodeID st)); (ascii_bytes "state", json_string (st_State st));
        (ascii_bytes "term", json_uint (st_Term st)); (ascii_bytes "commit_index", json_uint (st_CommitIndex st));
        (ascii_bytes "last_applied", json_uint (st_LastApplied st));
        (ascii_bytes "peers", JArr (json_string <$> st_Peers st));
        (ascii_bytes "leader_id", json_string (st_LeaderID st))].

Definition handleStatus n (r : request) : response :=
  if bool_decide (r_Method r = MethodGet) then writeJSON StatusOK (status_json (Status n))
  else error_response StatusMethodNotAllowed "method not allowed".

Definition handleHealthz : response := writeJSON StatusOK (string_map [("status", "ok")]).

(** Go's conversion [int64(x)] and the wrapping subtraction. *)
Definition int64_sub (a b : Z) : Z :=
  let d := ((a - b) mod Z.of_N two64)%Z in
  if (d <? Z.of_N two63)%Z then d else (d - Z.of_N two64)%Z.

Definition handleReadyz n : response :=
  let st := Status n in
  let lag := int64_sub (int_of_u64 (st_CommitIndex st)) (int_of_u64 (st_LastApplied st)) in
  if (10 <? lag)%Z then
    writeJSON StatusServiceUnavailable
      (string_map [("reason", "apply lag: " +:+ String.string_of_list_byte (FormatUint (Z.to_N lag)));
                   ("status", "not ready")])
  else writeJSON StatusOK (string_map [("status", "ready")]).

(** A path under [/kv/]. *)
Definition is_kv (r : request) : bool :=
  bool_decide (is_Some (strip_prefix (ascii_bytes "/kv/") (ascii_bytes (r_Path r)))).

(** [RegisterRoutes]; the path is the one that [ServeMux] has cleaned.  A path
    that is only registered with a slash at its end is redirected there. *)
Definition serve (h : Handler) n looks later store (r : request) : Node W * response :=
  if is_kv r then handleKV h n looks later store r
  else if bool_decide (r_Path r = "/status") then (n, handleStatus n r)
  else if bool_decide (r_Path r = "/healthz") then (n, handleHealthz)
  else if bool_decide (r_Path r = "/readyz") then (n, handleReadyz n)
  else if bool_decide (r_Path r = "/kv") then (n, Redirect StatusMovedPermanently "/kv/")
  else (n, NotFoundPage).

End api.

(** ** What the responses mean *)

Section responses.
Context {W : Type} `{Storage W}.
Implicit Types n : Node W.

Lemma submit_wait_success index term (looks : list (Node W)) r :
  submit_wait index term looks = inl r → ∃ s, s ∈ looks ∧ submit_poll index term s = Some (inl r).
Proof.
  induction looks as [|s looks IH]; simpl; [done|].
  destruct (submit_poll index term s) as [o|] eqn:E; [intros ->; exists s; split; [left|done]|].
  intros (s' & Hin & Hs')%IH. exists s'. split; [by right|done].
Qed.

Lemma SubmitCommand_success cmd n looks n' index term :
  SubmitCommand cmd n looks = (n', inl (index, term)) →
  submit_append cmd n = (n', inl (index, term)) ∧
  ∃ s, s ∈ looks ∧ submit_poll index term s = Some (inl (index, term)).
Proof.
  unfold SubmitCommand. destruct (submit_append cmd n) as [m [[i t]|err]] eqn:E; [|done].
  intros Hs. apply (f_equal fst) in Hs as Hm. apply (f_equal snd) in Hs. cbn [fst snd] in *. subst m.
  apply submit_wait_success in Hs as (s & Hin & Hp).
  assert (Hit : (i, t) = (index, term)).
  { unfold submit_poll in Hp. split_ifs; congruence. }
  injection Hit as -> ->. eauto.
Qed.

Lemma not_ok_error status msg v : status ≠ StatusOK → error_response status msg ≠ JSONResponse StatusOK v.
Proof. intros Hs [= E]. done. Qed.

Lemma redirect_not_ok h n r v : redirectToLeader h n r ≠ JSONResponse StatusOK v.
Proof. unfold redirectToLeader. split_ifs; [done|]. by destruct (_ !! _). Qed.

(** What a 200 for a put means.  The node led when the request came, the
    body decoded to a value, the command for this key and value was appended to
    the log at the index and in the term of the answer, and the waiting loop
    found it applied. *)
Theorem put_ok_means_applied h n looks later r key n' v :
  handlePut h n looks later r key = (n', JSONResponse StatusOK v) →
  IsLeader n = true ∧
  ∃ body value index term,
    r_Body r = inl body ∧ Unmarshal put_fields "" (read_limited body) = Some value ∧
    submit_append (SerializePut key value) n = (n', inl (index, term)) ∧
    (∃ s, s ∈ looks ∧ submit_poll index term s = Some (inl (index, term))) ∧
    v = JObj [(ascii_bytes "index", json_uint index); (ascii_bytes "key", json_string key);
              (ascii_bytes "term", json_uint term); (ascii_bytes "value", json_string value)].
Proof.
  unfold handlePut. destruct (IsLeader n) eqn:Hl; cbn [negb].
  2: { intros H'%(f_equal snd). by apply redirect_not_ok in H'. }
  destruct (r_Body r) as [body|] eqn:Hb; [|done].
  destruct (Unmarshal put_fields "" (read_limited body)) as [value|] eqn:Hu; [|done].
  destruct (SubmitCommand _ n looks) as [m [[index term]|err]] eqn:Hs.
  - intros Heq. apply (f_equal fst) in Heq as Hm. apply (f_equal snd) in Heq. cbn [fst snd] in Hm, Heq. subst m.
    injection Heq as <-. apply SubmitCommand_success in Hs as [Ha Hp]. split; [done|].
    by exists body, value, index, term.
  - intros Heq%(f_equal snd). cbn [snd] in Heq. exfalso.
    destruct err; [by apply redirect_not_ok in Heq|discriminate Heq..].
Qed.

(** C35: A server that does not lead neither reads its store nor changes its log
    for a client.  Any request on a key leaves the node as it is, and its answer
    does not depend on the store: a get, put or delete is redirected to the
    address of the leader, if the node knows a leader and its address, and else
    answered with 503; any other method is answered with 405. *)
Theorem follower_redirects h n r :
  IsLeader n = false → is_kv r = true → trim_prefix "/kv/" (r_Path r) ≠ "" →
  ∃ resp, (∀ looks later store, serve h n looks later store r = (n, resp)) ∧
    ((r_Method r = MethodOther ∧ resp = error_response StatusMethodNotAllowed "method not allowed") ∨
     (r_Method r ≠ MethodOther ∧ LeaderID n ≠ "" ∧
        ∃ addr, h_peerHTTPAddrs h !! LeaderID n = Some addr ∧
                resp = Redirect StatusTemporaryRedirect (location addr (r_Path r))) ∨
     (r_Method r ≠ MethodOther ∧ (LeaderID n = "" ∨ h_peerHTTPAddrs h !! LeaderID n = None) ∧
        ∃ msg, resp = error_response StatusServiceUnavailable msg)).
Proof.
  intros Hl Hkv Hkey. unfold serve, handleKV, handleGet, handlePut, handleDelete. rewrite Hkv, Hl.
  rewrite bool_decide_eq_false_2 by done. cbn [negb].
  assert (Hr : (LeaderID n ≠ "" ∧ ∃ addr, h_peerHTTPAddrs h !! LeaderID n = Some addr ∧
                 redirectToLeader h n r = Redirect StatusTemporaryRedirect (location addr (r_Path r))) ∨
               ((LeaderID n = "" ∨ h_peerHTTPAddrs h !! LeaderID n = None) ∧
                 ∃ msg, redirectToLeader h n r = error_response StatusServiceUnavailable msg)).
  { unfold redirectToLeader. case_bool_decide; [right; eauto|].
    destruct (h_peerHTTPAddrs h !! LeaderID n) as [addr|]; [left|right]; eauto. }
  destruct (r_Method r); [exists (redirectToLeader h n r); split; [done|]; right; naive_solver..|].
  eexists. split; [done|]. by left.
Qed.

(** [/readyz] answers 200 exactly when at most ten committed entries are not
    applied yet; the conversions to [int64] do not matter below 2^63. *)
Theorem readyz_lag n :
  (lastApplied n <= commitIndex n)%N → (commitIndex n < two63)%N →
  ((commitIndex n - lastApplied n <= 10)%N →
     handleReadyz n = JSONResponse StatusOK (string_map [("status", "ready")])) ∧
  ((10 < commitIndex n - lastApplied n)%N →
     ∃ v, handleReadyz n = JSONResponse StatusServiceUnavailable v).
Proof.
  intros Hle Hlt. unfold handleReadyz. cbn [Status st_CommitIndex st_LastApplied].
  rewrite !int_of_u64_small by lia.
  assert (Hsub : int64_sub (Z.of_N (commitIndex n)) (Z.of_N (lastApplied n)) =
                 (Z.of_N (commitIndex n) - Z.of_N (lastApplied n))%Z).
  { unfold int64_sub, two63, two64 in *. rewrite Z.mod_small by lia.
    by rewrite (proj2 (Z.ltb_lt _ _)) by lia. }
  rewrite Hsub. split; intros Hlag.
  - by rewrite (proj2 (Z.ltb_ge _ _)) by lia.
  - rewrite (proj2 (Z.ltb_lt _ _)) by lia. eauto.
Qed.

End responses.

Module ApiWitnesses.

Definition node : Node Journal := NewNode "a" ["b"; "c"] None 0.
Definition following : Node Journal := node |> set_leaderID "b".
Definition leading : Node Journal := node |> set_state Leader |> set_currentTerm 1.
Definition handler : Handler := mkHandler {["b" := "10.0.0.2:8080"]}.
Definition put_request : request := mkRequest MethodPut "/kv/x" (inl (Marshal (string_map [("value", "1")]))).
Definition appended : Node Journal := (submit_append (SerializePut "x" "1") leading).1.
Definition done_look : Node Journal := appended |> set_lastApplied 1.

Lemma put_ok_means_applied_witness :
  ∃ body value index term,
    r_Body put_request = inl body ∧ Unmarshal put_fields "" (read_limited body) = Some value ∧
    submit_append (SerializePut "x" value) leading = (appended, inl (index, term)).
Proof.
  destruct (put_ok_means_applied handler leading [done_look] done_look put_request "x" appended
    (JObj [(ascii_bytes "index", json_uint 1); (ascii_bytes "key", json_string "x");
           (ascii_bytes "term", json_uint 1); (ascii_bytes "value", json_string "1")]))
    as (_ & body & value & index & term & Hb & Hu & Ha & _); [vm_compute; reflexivity|].
  by exists body, value, index, term.
Defined.

Lemma follower_redirects_witness :
  serve handler following [] following NewKVStore put_request =
    (following, Redirect StatusTemporaryRedirect "http://10.0.0.2:8080/kv/x").
Proof.
  destruct (follower_redirects handler following put_request) as (resp & Hs & Hcase);
    [done|by_compute|vm_compute; discriminate|]. rewrite Hs.
  destruct Hcase as [[Hm _]|[(_ & _ & addr & Ha & ->)|(_ & [He|He] & _)]]; [discriminate Hm| |discriminate He|vm_compute in He; discriminate He].
  vm_compute in Ha. injection Ha as <-. by_compute.
Defined.

Lemma readyz_lag_witness :
  handleReadyz done_look = JSONResponse StatusOK (string_map [("status", "ready")]) ∨
  ∃ v, handleReadyz (appended |> set_commitIndex 11) = JSONResponse StatusServiceUnavailable v.
Proof.
  right. apply (readyz_lag (appended |> set_commitIndex 11)); vm_compute; done.
Defined.

End ApiWitnesses.
