(* ===== verification/Http.v ===== *)
(** The HTTP requests as goroutines: the handlers of src/internal/api/handler.go
    step by step.

    net/http runs a handler in a goroutine of its own.  A handler looks at the
    node and at the store several times, each time under their locks, and other
    goroutines run in between: [hstate] says how far a request has come, and
    [hstep] is one look.  [serve] of Api.v is what becomes of a request when
    nothing else happens between its first look and its command
    ([serve_is_sequential]). *)

From S2P Require Import Prelude Types RaftLog Storage Node Replication.
From S2P Require Import Binary Text Json KVStore Api.

(** A command that a request asks for. *)
Inductive write : Type :=
| WPut (key value : string)
| WDelete (key : string).

Definition write_key (x : write) : string := match x with WPut key _ | WDelete key => key end.

Definition write_command (x : write) : bytes :=
  match x with
  | WPut key value => SerializePut key value
  | WDelete key => SerializeDelete key
  end.

(** The answer when the command was applied. *)
Definition write_response (x : write) (index : LogIndex) (term : Term) : response :=
  match x with
  | WPut key value =>
      writeJSON StatusOK
        (JObj [(ascii_bytes "index", json_uint index); (ascii_bytes "key", json_string key);
               (ascii_bytes "term", json_uint term); (ascii_bytes "value", json_string value)])
  | WDelete key => writeJSON StatusOK (string_map [("key", key); ("status", "deleted")])
  end.

Definition get_response (store : KVStore) (key : string) : response :=
  match Get store key with
  | (_, false) => error_response StatusNotFound "key not found"
  | (val, true) => writeJSON StatusOK (string_map [("key", key); ("value", val)])
  end.

(** How far a handler has come: at its beginning, before [store.Get], before the
    first critical section of [SubmitCommand], in its waiting loop, before
    [node.LeaderID], or done with an answer. *)
Inductive hstate : Type :=
| HStart
| HRead (key : string)
| HSubmit (x : write)
| HWait (x : write) (index : LogIndex) (term : Term)
| HRedirect
| HDone (resp : response).

(** What the handlers of [handlePut] and [handleDelete] do with an error of
    [SubmitCommand]. *)
Definition submit_failed (err : raft_error) : hstate :=
  match err with
  | ErrNotLeader => HRedirect
  | _ => HDone (error_response StatusInternalServerError (raft_error_Error err))
  end.

Section http.
Context {W : Type} `{Storage W}.
Implicit Types n : Node W.

(** [handlePut] after [IsLeader]. *)
Definition put_body (r : request) (key : string) : hstate :=
  match r_Body r with
  | inr _ => HDone (error_response StatusBadRequest "failed to read body")
  | inl body =>
      match Unmarshal put_fields "" (read_limited body) with
      | None => HDone (error_response StatusBadRequest "invalid JSON body")
      | Some value => HSubmit (WPut key value)
      end
  end.

(** [handleKV] up to the first look at the node, which is [IsLeader]. *)
Definition start_kv n (r : request) : hstate :=
  let key := trim_prefix "/kv/" (r_Path r) in
  if bool_decide (key = "") then HDone (error_response StatusBadRequest "key is required")
  else
    match r_Method r with
    | MethodGet => if IsLeader n then HRead key else HRedirect
    | MethodPut => if IsLeader n then put_body r key else HRedirect
    | MethodDelete => if IsLeader n then HSubmit (WDelete key) else HRedirect
    | MethodOther => HDone (error_response StatusMethodNotAllowed "method not allowed")
    end.

Definition hstart n (r : request) : hstate :=
  if is_kv r then start_kv n r
  else if bool_decide (r_Path r = "/status") then HDone (handleStatus n r)
  else if bool_decide (r_Path r = "/healthz") then HDone handleHealthz
  else if bool_decide (r_Path r = "/readyz") then HDone (handleReadyz n)
  else if bool_decide (r_Path r = "/kv") then HDone (Redirect StatusMovedPermanently "/kv/")
  else HDone NotFoundPage.

(** One look of a handler; [None] when it has answered. *)
Definition hstep (h : Handler) n (store : KVStore) (r : request) (st : hstate) : option (Node W * hstate) :=
  match st with
  | HStart => Some (n, hstart n r)
  | HRead key => Some (n, HDone (get_response store key))
  | HSubmit x =>
      let (n', res) := submit_append (write_command x) n in
      Some (n', match res with
                | inl (index, term) => HWait x index term
                | inr err => submit_failed err
                end)
  | HWait x index term =>
      Some (n, match submit_poll index term n with
               | Some (inl (index, term)) => HDone (write_response x index term)
               | Some (inr err) => submit_failed err
               | None => HWait x index term
               end)
  | HRedirect => Some (n, HDone (redirectToLeader h n r))
  | HDone _ => None
  end.

(** The deadline of the waiting loop passes. *)
Definition htimeout (st : hstate) : option hstate :=
  match st with
  | HWait _ _ _ => Some (submit_failed ErrTimeout)
  | _ => None
  end.

(** ** Without interference *)

(** The waiting loop looks at the node in these states, until its deadline. *)
Fixpoint hwait (h : Handler) (store : KVStore) (r : request) (looks : list (Node W)) (st : hstate) : hstate :=
  match st, looks with
  | HWait _ _ _, n :: looks' =>
      match hstep h n store r st with Some (_, st') => hwait h store r looks' st' | None => st end
  | HWait _ _ _, [] => default st (htimeout st)
  | _, _ => st
  end.

(** The handler of a write from its command on; [later] is the node when a
    redirect is needed after the command. *)
Definition hwrite (h : Handler) n looks later store (r : request) (x : write) : option (Node W * hstate) :=
  '(n', st) ← hstep h n store r (HSubmit x);
  match hwait h store r looks st with
  | HRedirect => '(_, st') ← hstep h later store r HRedirect; Some (n', st')
  | st' => Some (n', st')
  end.

(** A handler whose first two looks see the same node. *)
Definition sequential (h : Handler) n looks later store (r : request) : option (Node W * hstate) :=
  match hstep h n store r HStart with
  | Some (n, HSubmit x) => hwrite h n looks later store r x
  | Some (n, HDone resp) => Some (n, HDone resp)
  | Some (n, st) => hstep h n store r st
  | None => None
  end.

Lemma wait_done h store r looks x index term :
  hwait h store r looks (HWait x index term) =
    match submit_wait index term looks with
    | inl (index, term) => HDone (write_response x index term)
    | inr err => submit_failed err
    end.
Proof.
  induction looks as [|n looks IH]; [done|]. cbn [hwait hstep submit_wait].
  destruct (submit_poll index term n) as [[[i t]|err]|]; [by destruct looks|by destruct looks, err|done].
Qed.

(** The goroutine of a write from its command on. *)
Lemma submit_done h n looks later store r x n' res :
  SubmitCommand (write_command x) n looks = (n', res) →
  hwrite h n looks later store r x =
  Some (n', HDone match res with
                  | inl (index, term) => write_response x index term
                  | inr err => submit_error_response h later r err
                  end).
Proof.
  unfold SubmitCommand, hwrite. cbn [hstep].
  destruct (submit_append (write_command x) n) as [n1 [[i t]|err]]; intros [= <- <-]; cbn [mbind option_bind].
  - rewrite wait_done by done. by destruct (submit_wait i t looks) as [[? ?]|[]].
  - by destruct looks, err.
Qed.

(** [serve], the handlers as one step, is the goroutine of a request that
    nothing interferes with between its first look at the node and its command:
    the same change of the node and the same answer, for every request, every
    state and every sequence of states that the waiting loop sees. *)
Theorem serve_is_sequential h n looks later store r :
  sequential h n looks later store r =
    let (n', resp) := serve h n looks later store r in Some (n', HDone resp).
Proof.
  unfold sequential, serve. cbn [hstep]. unfold hstart.
  destruct (is_kv r); [|by repeat case_bool_decide]. unfold start_kv, handleKV.
  case_bool_decide; [done|]. destruct (r_Method r); [| | |done].
  - unfold handleGet. destruct (IsLeader n); cbn [negb hstep]; [|done]. unfold get_response.
    by destruct (Get store _) as [? []].
  - unfold handlePut, put_body. destruct (IsLeader n); cbn [negb]; [|done].
    destruct (r_Body r) as [body|]; [|done]. destruct (Unmarshal _ _ _) as [value|]; [|done].
    change (SerializePut ?k ?v) with (write_command (WPut k v)).
    destruct (SubmitCommand _ _ _) as [n' res] eqn:E. rewrite (submit_done _ _ _ _ _ _ _ _ _ E).
    by destruct res as [[? ?]|].
  - unfold handleDelete. destruct (IsLeader n); cbn [negb]; [|done].
    change (SerializeDelete ?k) with (write_command (WDelete k)).
    destruct (SubmitCommand _ _ _) as [n' res] eqn:E. rewrite (submit_done _ _ _ _ _ _ _ _ _ E).
    by destruct res as [[? ?]|].
Qed.

End http.
