(* ===== verification/System.v ===== *)
(** The server as a whole: the Raft cluster (Guarantees.v) with the
    write-ahead log on disk (WalSpec.v), the key-value store (KVStore.v) and
    the HTTP interface (Api.v).

    [sv_consumed] of a server is what the consumer goroutine of main.go has taken
    from [applyCh], so [replica (sv_consumed s)] is the content of its store. *)

From S2P Require Import Prelude Types RaftLog Storage Node Replication Cluster.
From S2P Require Import Protocol Refinement Ghost ElectionSafety LogFacts LogSafety Bounds Simulation Safety.
From S2P Require Import Guarantees Binary Text Json Wal WalSpec KVStore Api.
Import RLog.

(** ** Replicated stores *)

Definition store_of {W} (s : server W) : KVStore := replica (sv_consumed s).

Section replicas.
Context {W : Type} `{HStorage : Storage W} `{HRand : Rand}.
Context (ids : list NodeID) (Hnodup : NoDup ids) (Hnonempty : "" ∉ ids).
Implicit Types c : cluster W.
Implicit Types w : NodeID → option W.

Lemma prefix_store (l1 l2 : list LogEntry) :
  l1 `prefix_of` l2 → replica l2 = foldl consume_entry (replica l1) (drop (length l1) l2).
Proof. intros [es ->]. rewrite drop_app_length. apply replica_app. Qed.

Lemma prefix_same_length {A} (l1 l2 : list A) : l1 `prefix_of` l2 → length l1 = length l2 → l1 = l2.
Proof. intros [k ->]. rewrite length_app. destruct k; simpl; [by rewrite app_nil_r|lia]. Qed.

(** The stores of the servers are copies of one store.  At any two points of an
    execution with intact restarts, of the stores of two servers one is what the
    other becomes by applying the entries that the first server has taken
    beyond those of the other; and servers whose consumers have taken equally
    many entries have equal stores. *)
Theorem replicas_agree w evs1 evs2 c1 c2 i j si sj :
  intact_run (evs1 ++ evs2) (init_cluster ids w) → (N.of_nat (length (evs1 ++ evs2)) < event_limit)%N →
  run evs1 (init_cluster ids w) = Some (Ret c1) → run evs2 c1 = Some (Ret c2) →
  cl_servers c1 !! i = Some si → cl_servers c2 !! j = Some sj →
  (store_of sj = foldl consume_entry (store_of si) (drop (length (sv_consumed si)) (sv_consumed sj)) ∨
   store_of si = foldl consume_entry (store_of sj) (drop (length (sv_consumed sj)) (sv_consumed si))) ∧
  (length (sv_consumed si) = length (sv_consumed sj) → store_of si = store_of sj).
Proof.
  intros Hin Hlen Hr1 Hr2 Hi Hj.
  destruct (reach_two ids Hnodup Hnonempty _ _ _ _ _ Hin Hlen Hr1 Hr2) as (g1 & g2 & n1 & n2 & HI1 & HI2 & Hs).
  unfold store_of.
  destruct (consumed_agree ids Hnodup Hnonempty c1 c2 g1 g2 n1 n2 i j si sj HI1 HI2 Hs Hi Hj) as [Hp|Hp].
  - split; [left; by apply prefix_store|]. intros Hl. by rewrite (prefix_same_length _ _ Hp Hl).
  - split; [right; by apply prefix_store|]. intros Hl. by rewrite (prefix_same_length _ _ Hp (eq_sym Hl)).
Qed.

(** An acknowledged put is read back.  If the leader appended the command of
    a put, and at a later point the waiting loop of [SubmitCommand] reports
    success, then from there on, through crashes and elections, every server
    whose consumer has got that far has the value in its store, unless a later
    entry wrote the key. *)
Theorem acknowledged_put_visible w evs1 evs2 evs3 c1 c2 c3 i s1 s2 n' key value index term r j sj :
  valid_string key = true → valid_string value = true →
  let put := SerializePut key value in
  intact_run (evs1 ++ (EvSubmit i put :: evs2) ++ evs3) (init_cluster ids w) →
  (N.of_nat (length (evs1 ++ (EvSubmit i put :: evs2) ++ evs3)) < event_limit)%N →
  run evs1 (init_cluster ids w) = Some (Ret c1) →
  cl_servers c1 !! i = Some s1 → submit_append put (sv_node s1) = (n', inl (index, term)) →
  run (EvSubmit i put :: evs2) c1 = Some (Ret c2) → cl_servers c2 !! i = Some s2 →
  submit_poll index term (sv_node s2) = Some (inl r) → run evs3 c2 = Some (Ret c3) →
  cl_servers c3 !! j = Some sj → N.to_nat index <= length (sv_consumed sj) →
  Forall (λ e, writes_key key e = false) (drop (N.to_nat index) (sv_consumed sj)) →
  Get (store_of sj) key = (value, true).
Proof.
  intros Hk Hv put Hin Hlen Hr1 Hi1 Hsub Hr2 Hi2 Hpoll Hr3 Hj Hle Hafter.
  destruct (acknowledged_command ids Hnodup Hnonempty w evs1 evs2 evs3 c1 c2 c3 i s1 s2 n' put index term r
    Hin Hlen Hr1 Hi1 Hsub Hr2 Hi2 Hpoll Hr3) as (_ & [Hpos _] & _ & Hall).
  destruct (lookup_lt_is_Some_2 (sv_consumed sj) (N.to_nat index - 1)) as [e He]; [lia|].
  rewrite (proj1 (Hall j sj Hj) e He) in He. unfold store_of.
  rewrite <- (take_drop_middle _ _ _ He). replace (S (N.to_nat index - 1)) with (N.to_nat index) by lia.
  by apply replica_put.
Qed.
End replicas.

(** ** With the log on disk *)

(** Every server starts with what [NewWAL] makes of an empty directory. *)
Definition new_wal : WAL :=
  match (NewWAL (mkOS ∅ [])).2 with inl w => w | inr _ => log_state [[]] 0 end.
Definition disks (i : NodeID) : option WAL := Some new_wal.

Lemma disks_fresh : fresh_wal disks.
Proof.
  intros i x [= <-]. unfold new_wal. rewrite NewWAL_fresh. split.
  - exists [[]]. split_and!; [done|by repeat constructor|by eexists].
  - change (wal_journal (log_state [[]] 0)) with (wal_records (log_state [[]] 0)).
    by rewrite wal_records_log by by repeat constructor.
Qed.

(** C25: Election safety on disk.  Servers that keep their term and vote in the
    write-ahead log of wal.go, on disks without faults, never elect two leaders
    of one term, however often they restart, as long as their ids are valid
    UTF-8, commands are at most 64 MB and the log needs fewer than a million
    files (in [sized_run]). *)
Theorem election_safety_on_disk `{HRand : Rand} ids evs1 evs2 c1 c2 i j si sj :
  NoDup ids → "" ∉ ids → (∀ k, k ∈ ids → log_id k) →
  (∀ k cmd, EvSubmit k cmd ∈ evs1 ++ evs2 → log_command cmd) →
  sized_run (evs1 ++ evs2) (init_cluster ids disks) →
  run evs1 (init_cluster ids disks) = Some (Ret c1) → run evs2 c1 = Some (Ret c2) →
  cl_servers c1 !! i = Some si → cl_servers c2 !! j = Some sj →
  IsLeader (sv_node si) = true → IsLeader (sv_node sj) = true →
  currentTerm (sv_node si) = currentTerm (sv_node sj) → i = j.
Proof.
  intros Hnd Hne Hids Hcmd. apply (one_leader (W := WAL) (SS := WAL_StorageSpec) ids Hnd Hne Hids disks); [apply disks_fresh|done].
Qed.

Module DiskDemo.

#[local] Existing Instance Demo.constant_rand.

Definition ids : list NodeID := ["a"; "b"; "c"].
Definition start : cluster WAL := init_cluster ids disks.
Definition result (o : option (outcome (cluster WAL))) : cluster WAL :=
  match o with Some (Ret c) => c | _ => start end.
Definition server_of (i : NodeID) (c : cluster WAL) : server WAL :=
  default (init_server ids disks i) (cl_servers c !! i).

(** [a] is elected by [b]; [b] restarts from its disk. *)
Definition elected : cluster WAL := result (run Demo.elect start).
Definition after : list event := [EvRestart "b"; EvSubmit "a" (SerializePut "x" "1")].
Definition restarted : cluster WAL := result (run after elected).

Lemma ids_log_id k : k ∈ ids → log_id k.
Proof.
  intros Hk. repeat (apply elem_of_cons in Hk as [->|Hk]; [by split; vm_compute|]). by apply elem_of_nil in Hk.
Qed.

Lemma commands_fit k cmd : EvSubmit k cmd ∈ Demo.elect ++ after → log_command cmd.
Proof.
  intros Hin. repeat (apply elem_of_cons in Hin as [E|Hin]; [first [discriminate E|injection E as -> ->; by vm_compute]|]).
  by apply elem_of_nil in Hin.
Qed.

Lemma election_safety_on_disk_witness :
  votedFor (sv_node (server_of "b" restarted)) = "a" ∧ ("a" : NodeID) = "a".
Proof.
  split; [by_compute|].
  apply (election_safety_on_disk ids Demo.elect after elected restarted
           "a" "a" (server_of "a" elected) (server_of "a" restarted));
    [decided|decided|exact ids_log_id|exact commands_fit|decided|by_compute..].
Defined.

End DiskDemo.

(** ** What the system does not guarantee *)

Module Limits.

#[local] Existing Instance Demo.constant_rand.

(** The third call to the operating system that the log of [b] makes fails:
    the write of its first vote. *)
Definition full_disk (i : NodeID) : option WAL :=
  if bool_decide (i = "b")
  then Some (mkWAL (mkOS (os_dir (w_os new_wal)) [Fine; Fine; Fails 0 "no space left on device"])
               (w_file new_wal) (w_fileID new_wal) (w_fileSize new_wal))
  else disks i.

(** [a] is elected by [b]; [b] restarts; [c] is elected by [b]. *)
Definition two_elections : list event :=
  Demo.elect ++ [EvRestart "b"; EvElection "c"; EvVoteRequest 4; EvVoteReply 5].

Definition divided : cluster WAL :=
  DiskDemo.result (run two_elections (init_cluster DiskDemo.ids full_disk)).

(** A vote counts although it could not be stored.  [HandleRequestVote]
    grants the vote when [PersistVote] has failed, so after one failed write and
    a restart a server votes again in the same term, and two servers lead
    term 1. *)
Theorem failed_persist_two_leaders :
  run two_elections (init_cluster DiskDemo.ids full_disk) = Some (Ret divided) ∧
  IsLeader (sv_node (DiskDemo.server_of "a" divided)) = true ∧
  IsLeader (sv_node (DiskDemo.server_of "c" divided)) = true ∧
  currentTerm (sv_node (DiskDemo.server_of "a" divided)) = 1%N ∧
  currentTerm (sv_node (DiskDemo.server_of "c" divided)) = 1%N.
Proof. vm_compute. repeat split. Qed.

Definition handler : Handler := mkHandler ∅.
Definition get_x : request := mkRequest MethodGet "/kv/x" (inl []).

(** [a] leads, commits a put and has sent it to its consumer, which has not
    taken it yet. *)
Definition put_at_a : list event :=
  Demo.elect ++
  [EvSubmit "a" (SerializePut "x" "1"); EvReplicate "a" "b"; EvAppendRequest 3; EvAppendReply 4;
   EvApplyCollect "a"; EvApplySend "a"; EvApplyFinish "a"].
Definition put_done : cluster Journal := Demo.result (run put_at_a Demo.start).

(** An acknowledged write may not be readable yet.  [lastApplied] counts
    the entries sent to the channel, not the ones the store has applied: the
    waiting loop acknowledges the put, and a read at the same leader answers
    that the key does not exist. *)
Theorem acknowledged_before_applied :
  run put_at_a Demo.start = Some (Ret put_done) ∧
  submit_poll 1 1 (sv_node (Demo.server_of "a" put_done)) = Some (inl (1, 1)%N) ∧
  handleGet handler (sv_node (Demo.server_of "a" put_done)) (store_of (Demo.server_of "a" put_done)) get_x "x" =
    error_response StatusNotFound "key not found".
Proof. vm_compute. repeat split. Qed.

(** [b] is elected by [c], puts another value and commits it with [c]; nothing
    of this reaches [a]. *)
Definition put_at_b : list event :=
  [EvConsume "a"; EvElection "b"; EvVoteRequest 6; EvVoteReply 7;
   EvSubmit "b" (SerializePut "x" "2"); EvReplicate "b" "c"; EvAppendRequest 8; EvAppendReply 9;
   EvReplicate "b" "c"; EvAppendRequest 10; EvAppendReply 11;
   EvApplyCollect "b"; EvApplySend "b"; EvApplySend "b"; EvApplyFinish "b"; EvConsume "b"; EvConsume "b"].
Definition overtaken : cluster Journal := Demo.result (run (put_at_a ++ put_at_b) Demo.start).

(** Reads are not linearizable.  A leader that has been replaced, but has not
    heard of it, answers reads from its own store: [b] has acknowledged the value
    2, and [a] answers 1. *)
Theorem stale_read :
  run (put_at_a ++ put_at_b) Demo.start = Some (Ret overtaken) ∧
  submit_poll 2 2 (sv_node (Demo.server_of "b" overtaken)) = Some (inl (2, 2)%N) ∧
  Get (store_of (Demo.server_of "b" overtaken)) "x" = ("2", true) ∧
  handleGet handler (sv_node (Demo.server_of "a" overtaken)) (store_of (Demo.server_of "a" overtaken)) get_x "x" =
    writeJSON StatusOK (string_map [("key", "x"); ("value", "1")]).
Proof. vm_compute. repeat split. Qed.

End Limits.

Module SystemWitnesses.

#[local] Existing Instance Demo.constant_rand.

Definition later : list event := [EvConsume "a"].
Definition seen : cluster Journal := Demo.result (run later Limits.put_done).

Lemma replicas_agree_witness :
  length (sv_consumed (Demo.server_of "a" seen)) = 1 ∧
  let es := sv_consumed (Demo.server_of "a" seen) in
  let es' := sv_consumed (Demo.server_of "b" Limits.put_done) in
  (store_of (Demo.server_of "a" seen) =
     foldl consume_entry (store_of (Demo.server_of "b" Limits.put_done)) (drop (length es') es) ∨
   store_of (Demo.server_of "b" Limits.put_done) =
     foldl consume_entry (store_of (Demo.server_of "a" seen)) (drop (length es) es')).
Proof.
  split; [vm_compute; reflexivity|].
  apply (replicas_agree Demo.ids Demo.ids_nodup Demo.ids_nonempty Demo.wals Limits.put_at_a later
    Limits.put_done seen "b" "a" (Demo.server_of "b" Limits.put_done) (Demo.server_of "a" seen));
    [decided|vm_compute; reflexivity..].
Defined.

Definition submitted : list event :=
  [EvReplicate "a" "b"; EvAppendRequest 3; EvAppendReply 4;
   EvApplyCollect "a"; EvApplySend "a"; EvApplyFinish "a"].

(** After the acknowledgement [a] and [b] restart; [b] is elected by [c], commits
    a write of another key, and its store is built anew from the log. *)
Definition after_crash : list event :=
  [EvRestart "a"; EvRestart "b"; EvElection "b"; EvVoteRequest 4; EvVoteReply 5;
   EvHeartbeats "b"; EvHeartbeatTask 7; EvAppendRequest 8; EvAppendReply 9;
   EvSubmit "b" (SerializePut "y" "2"); EvReplicate "b" "c"; EvAppendRequest 10; EvAppendReply 11;
   EvApplyCollect "b"; EvApplySend "b"; EvApplySend "b"; EvConsume "b"; EvConsume "b"].
Definition rebuilt : cluster Journal := Demo.result (run after_crash Limits.put_done).

Lemma acknowledged_put_visible_witness :
  length (sv_consumed (Demo.server_of "b" rebuilt)) = 2 ∧
  Get (store_of (Demo.server_of "b" rebuilt)) "x" = ("1", true).
Proof.
  split; [by_compute|].
  apply (acknowledged_put_visible Demo.ids Demo.ids_nodup Demo.ids_nonempty Demo.wals Demo.elect submitted after_crash
    Demo.elected Limits.put_done rebuilt "a" (Demo.server_of "a" Demo.elected) (Demo.server_of "a" Limits.put_done)
    (submit_append (SerializePut "x" "1") (sv_node (Demo.server_of "a" Demo.elected))).1 "x" "1" 1 1 (1, 1)%N "b");
    [by_compute|by_compute|decided|by_compute|by_compute
    |by_compute|by_compute|by_compute|by_compute|by_compute|by_compute
    |by_compute|decided|decided].
Defined.

End SystemWitnesses.
