(* ===== verification/Web.v ===== *)
(** Clients of the cluster: HTTP requests (Http.v) that run beside the critical
    sections of the servers (Cluster.v).

    A [web] is a cluster with the requests that have arrived at its servers; a
    [web_event] is a step of the cluster, the arrival of a request, one look of
    a request's goroutine at its server, or the end of its waiting time.  A
    restart of a server takes the requests with it that it has not answered.
    Commands come from requests only.  The trace of a web is the execution of the
    cluster in it.

    The theorems describe the answers that clients get by the one log that the
    cluster implements ([decided] of Abstraction.v): acknowledged writes are in
    it, each at a place of its own and in the order of real time, and reads are
    answered from a prefix of it. *)

From S2P Require Import Prelude Types RaftLog Storage Node Replication Cluster.
From S2P Require Import Protocol Refinement Ghost ElectionSafety LogFacts LogSafety Bounds Simulation Safety.
From S2P Require Import Guarantees Abstraction Binary Text Json KVStore Api Http System.
Import RLog.

(** What a request asks for. *)
Definition write_of (r : request) : option write :=
  let key := trim_prefix "/kv/" (r_Path r) in
  if is_kv r && negb (bool_decide (key = "")) then
    match r_Method r, r_Body r with
    | MethodPut, inl body =>
        match Unmarshal put_fields "" (read_limited body) with Some value => Some (WPut key value) | None => None end
    | MethodDelete, _ => Some (WDelete key)
    | _, _ => None
    end
  else None.

Definition read_of (r : request) : option string :=
  let key := trim_prefix "/kv/" (r_Path r) in
  if is_kv r && negb (bool_decide (key = "")) then
    match r_Method r with MethodGet => Some key | _ => None end
  else None.

(** A request at a server; its state is [None] when the server stopped before it
    answered.  [wr_taken] is the place of its command in the trace, if it got
    that far. *)
Record web_request : Type := mkWebRequest {
  wr_server : NodeID;
  wr_request : request;
  wr_state : option hstate;
  wr_taken : option nat;
}.

Definition with_state (st : option hstate) (q : web_request) : web_request :=
  mkWebRequest (wr_server q) (wr_request q) st (wr_taken q).

Inductive web_event : Type :=
| WEvent (ev : event)
| WArrive (i : NodeID) (r : request)
| WLook (k : nat)
| WDeadline (k : nat).

Section web.
Context {W : Type} `{HStorage : Storage W} `{HRand : Rand}.
Context (handlers : NodeID → Handler).
Implicit Types c : cluster W.

Record web : Type := mkWeb {
  wb_cluster : cluster W;
  wb_requests : list web_request;
  wb_trace : list event;
}.

Definition web_init c : web := mkWeb c [] [].

(** The requests that a stopped server takes with it. *)
Definition lose (i : NodeID) (q : web_request) : web_request :=
  match wr_state q with
  | Some (HDone _) => q
  | _ => if bool_decide (wr_server q = i) then with_state None q else q
  end.

Definition after_event (ev : event) (qs : list web_request) : list web_request :=
  match ev with EvRestart i => lose i <$> qs | _ => qs end.

(** The event of the cluster in a look, and the request after it. *)
Definition look_events (q : web_request) (st : hstate) : list event :=
  match st with HSubmit x => [EvSubmit (wr_server q) (write_command x)] | _ => [] end.

Definition looked (q : web_request) (st st' : hstate) (now : nat) : web_request :=
  mkWebRequest (wr_server q) (wr_request q) (Some st')
    (match st with HSubmit _ => Some now | _ => wr_taken q end).

Definition web_look (k : nat) (b : web) : option web :=
  q ← wb_requests b !! k;
  st ← wr_state q;
  s ← cl_servers (wb_cluster b) !! wr_server q;
  '(n', st') ← hstep (handlers (wr_server q)) (sv_node s) (store_of s) (wr_request q) st;
  Some (mkWeb
    (mkCluster (<[wr_server q := set_node n' s]> (cl_servers (wb_cluster b))) (cl_net (wb_cluster b)))
    (<[k := looked q st st' (length (wb_trace b))]> (wb_requests b))
    (wb_trace b ++ look_events q st)).

Definition web_deadline (k : nat) (b : web) : option web :=
  q ← wb_requests b !! k;
  st ← wr_state q;
  st' ← htimeout st;
  Some (mkWeb (wb_cluster b) (<[k := with_state (Some st') q]> (wb_requests b)) (wb_trace b)).

Definition web_exec (e : web_event) (b : web) : option (outcome web) :=
  match e with
  | WEvent (EvSubmit _ _) => None
  | WEvent ev =>
      match exec ev (wb_cluster b) with
      | Some (Ret c) => Some (Ret (mkWeb c (after_event ev (wb_requests b)) (wb_trace b ++ [ev])))
      | Some Panic => Some Panic
      | None => None
      end
  | WArrive i r =>
      match cl_servers (wb_cluster b) !! i with
      | Some _ => Some (Ret (mkWeb (wb_cluster b) (wb_requests b ++ [mkWebRequest i r (Some HStart) None]) (wb_trace b)))
      | None => None
      end
  | WLook k => Ret <$> web_look k b
  | WDeadline k => Ret <$> web_deadline k b
  end.

(** The steps by cases. *)
Inductive web_effect (b : web) : web → Prop :=
| we_event ev c :
    exec ev (wb_cluster b) = Some (Ret c) →
    web_effect b (mkWeb c (after_event ev (wb_requests b)) (wb_trace b ++ [ev]))
| we_arrive i r :
    web_effect b (mkWeb (wb_cluster b) (wb_requests b ++ [mkWebRequest i r (Some HStart) None]) (wb_trace b))
| we_look k q st s n' st' :
    wb_requests b !! k = Some q → wr_state q = Some st → cl_servers (wb_cluster b) !! wr_server q = Some s →
    hstep (handlers (wr_server q)) (sv_node s) (store_of s) (wr_request q) st = Some (n', st') →
    web_effect b (mkWeb
      (mkCluster (<[wr_server q := set_node n' s]> (cl_servers (wb_cluster b))) (cl_net (wb_cluster b)))
      (<[k := looked q st st' (length (wb_trace b))]> (wb_requests b))
      (wb_trace b ++ look_events q st))
| we_deadline k q st st' :
    wb_requests b !! k = Some q → wr_state q = Some st → htimeout st = Some st' →
    web_effect b (mkWeb (wb_cluster b) (<[k := with_state (Some st') q]> (wb_requests b)) (wb_trace b)).

Lemma web_exec_effect e b b' : web_exec e b = Some (Ret b') → web_effect b b'.
Proof.
  intros Hx. destruct e as [ev|i r|k|k].
  - destruct ev; cbn [web_exec] in Hx; try done;
      (destruct (exec _ _) as [[c|]|] eqn:E; [|done..]; injection Hx as <-; exact (we_event b _ c E)).
  - cbn [web_exec] in Hx. destruct (cl_servers _ !! i); [|done]. injection Hx as <-. constructor.
  - apply fmap_Some in Hx as (b1 & Hl & [= <-]). unfold web_look in Hl.
    apply bind_Some in Hl as (q & Hq & (st & Hst & (s & Hs & ([n' st'] & Hh & [= <-])%bind_Some)%bind_Some)%bind_Some).
    by econstructor.
  - apply fmap_Some in Hx as (b1 & Hl & [= <-]). unfold web_deadline in Hl.
    apply bind_Some in Hl as (q & Hq & (st & Hst & (st' & Ht & [= <-])%bind_Some)%bind_Some).
    by econstructor.
Qed.

Fixpoint web_run (es : list web_event) (b : web) : option (outcome web) :=
  match es with
  | [] => Some (Ret b)
  | e :: es' =>
      match web_exec e b with
      | Some (Ret b') => web_run es' b'
      | r => r
      end
  end.

(** ** The history of a request *)

Section history.
Context (c0 : cluster W).

(** The [p]-th event of [evs] puts the command of [x] into the log of [i]. *)
Definition taken (evs : list event) (p : nat) (i : NodeID) (x : write) (index : LogIndex) (term : Term) : Prop :=
  evs !! p = Some (EvSubmit i (write_command x)) ∧
  ∃ c1 s1, run (take p evs) c0 = Some (Ret c1) ∧ cl_servers c1 !! i = Some s1 ∧
    (submit_append (write_command x) (sv_node s1)).2 = inl (index, term).

(** Later the waiting loop was successful. *)
Definition acked (evs : list event) (p : nat) (i : NodeID) (x : write) (index : LogIndex) (term : Term) : Prop :=
  taken evs p i x index term ∧
  ∃ evs1 c2 s2, evs1 `prefix_of` evs ∧ p < length evs1 ∧ run evs1 c0 = Some (Ret c2) ∧
    cl_servers c2 !! i = Some s2 ∧ submit_poll index term (sv_node s2) = Some (inl (index, term)).

(** The answer comes from the store of [i] at some point. *)
Definition read_at (evs : list event) (i : NodeID) (key : string) (resp : response) : Prop :=
  ∃ evs1 c1 s1, evs1 `prefix_of` evs ∧ run evs1 c0 = Some (Ret c1) ∧
    cl_servers c1 !! i = Some s1 ∧ resp = get_response (store_of s1) key.

(** An answer that says nothing about a key. *)
Definition plain (resp : response) : Prop :=
  match resp with
  | JSONResponse status _ => status ≠ StatusOK ∧ status ≠ StatusNotFound
  | _ => True
  end.

Definition request_ok (evs : list event) (q : web_request) : Prop :=
  let r := wr_request q in
  (∀ p, wr_taken q = Some p → p < length evs) ∧
  match wr_state q with
  | None | Some HStart | Some HRedirect => True
  | Some (HRead key) => read_of r = Some key
  | Some (HSubmit x) => write_of r = Some x
  | Some (HWait x index term) =>
      write_of r = Some x ∧ ∃ p, wr_taken q = Some p ∧ taken evs p (wr_server q) x index term
  | Some (HDone resp) =>
      (∃ x index term p, write_of r = Some x ∧ resp = write_response x index term ∧ wr_taken q = Some p ∧
         acked evs p (wr_server q) x index term) ∨
      (∃ key, read_of r = Some key ∧ read_at evs (wr_server q) key resp) ∨
      (is_kv r = true → plain resp)
  end.

Lemma taken_app evs evs' p i x index term : taken evs p i x index term → taken (evs ++ evs') p i x index term.
Proof.
  intros [Hp H]. pose proof (lookup_lt_Some _ _ _ Hp). split; [by apply lookup_app_l_Some|].
  by rewrite take_app_le by lia.
Qed.

Lemma request_ok_app evs evs' q : request_ok evs q → request_ok (evs ++ evs') q.
Proof.
  intros [Hp Hq]. split; [intros p Ht; rewrite length_app; specialize (Hp p Ht); lia|]. revert Hq.
  destruct (wr_state q) as [[| | | | |resp]|]; [done|done|done| |done| |done].
  - intros (? & p & ? & ?). eauto using taken_app.
  - intros [(x & index & term & p & Hx & Hr & Ht & Hk & e1 & c2 & s2 & Hpre & H)|
           [(key & Hk & e1 & c1 & s1 & Hpre & H)|?]]; [left|right; left|auto].
    + exists x, index, term, p. split_and!; [done..|]. split; [by apply taken_app|].
      exists e1, c2, s2. split; [|done]. by apply prefix_app_r.
    + exists key. split; [done|]. exists e1, c1, s1. split; [|done]. by apply prefix_app_r.
Qed.

(** What a request is after its first look. *)
Lemma hstart_ok (n : Node W) r :
  match hstart n r with
  | HRead key => read_of r = Some key
  | HSubmit x => write_of r = Some x
  | HDone resp => is_kv r = true → plain resp
  | HRedirect => True
  | _ => False
  end.
Proof.
  unfold hstart, read_of, write_of. destruct (is_kv r); [|by repeat case_bool_decide].
  unfold start_kv, put_body. cbn [andb]. case_bool_decide as Hk; [done|]. cbn [negb].
  destruct (r_Method r); [by destruct (IsLeader n)| |by destruct (IsLeader n)|done].
  destruct (IsLeader n); [|done]. destruct (r_Body r) as [body|]; [|done].
  by destruct (Unmarshal _ _ _).
Qed.

(** The part of [request_ok] about the state. *)
Lemma request_ok_state evs q st :
  (∀ p, wr_taken q = Some p → p < length evs) → wr_state q = Some st →
  match st with
  | HStart | HRedirect => True
  | HDone resp => plain resp
  | _ => False
  end → request_ok evs q.
Proof. intros Hp Hst. split; [done|]. rewrite Hst. destruct st; try done. auto. Qed.

Lemma submit_failed_ok evs q err :
  (∀ p, wr_taken q = Some p → p < length evs) → wr_state q = Some (submit_failed err) → request_ok evs q.
Proof. intros Hp Hst. eapply request_ok_state; [done..|]. by destruct err. Qed.

Lemma redirect_plain h (n : Node W) r : plain (redirectToLeader h n r).
Proof. unfold redirectToLeader. case_bool_decide; [done|]. by destruct (h_peerHTTPAddrs h !! LeaderID n). Qed.

(** One look of a request at its server. *)
Section look.
Context (evs : list event) (c : cluster W) (q : web_request) (st : hstate) (s : server W) (h : Handler).
Context (Hr : run evs c0 = Some (Ret c)) (Hst : wr_state q = Some st) (Hs : cl_servers c !! wr_server q = Some s).
Context (n' : Node W) (st' : hstate).
Context (Hx : hstep h (sv_node s) (store_of s) (wr_request q) st = Some (n', st')).

Lemma look_run :
  run (evs ++ look_events q st) c0 =
    Some (Ret (mkCluster (<[wr_server q := set_node n' s]> (cl_servers c)) (cl_net c))).
Proof using Hr Hs Hst Hx.
  assert (Hsame : n' = sv_node s →
    mkCluster (<[wr_server q := set_node n' s]> (cl_servers c)) (cl_net c) = c).
  { intros ->. rewrite insert_id; [by destruct c|]. rewrite Hs. by destruct s. }
  destruct st as [|key|x|x index term| |resp]; cbn [hstep look_events] in *; rewrite ?app_nil_r; [..|done];
    try by rewrite Hsame by congruence.
  rewrite (run_app_Ret _ _ _ _ Hr). cbn [run exec]. unfold at_server, on_submit, react. rewrite Hs.
  cbn [mbind option_bind outcome_bind]. destruct (submit_append _ _) as [n1 res]. injection Hx as <- _.
  by rewrite app_nil_r.
Qed.

Lemma look_request : request_ok evs q → request_ok (evs ++ look_events q st) (looked q st st' (length evs)).
Proof using Hr Hs Hst Hx.
  intros [Hp Hq]. rewrite Hst in Hq.
  destruct st as [|key|x|x index term| |resp]; cbn [hstep look_events] in *; rewrite ?app_nil_r; [..|done].
  - injection Hx as _ <-. split; [done|]. cbn [looked wr_state wr_request].
    pose proof (hstart_ok (sv_node s) (wr_request q)) as Hk. destruct (hstart _ _); auto; done.
  - injection Hx as _ <-. split; [done|]. right; left. exists key. split; [done|]. by exists evs, c, s.
  - destruct (submit_append (write_command x) (sv_node s)) as [n1 res] eqn:Hsub. injection Hx as _ <-.
    assert (Hp' : ∀ p, Some (length evs) = Some p → p < length (evs ++ [EvSubmit (wr_server q) (write_command x)])).
    { intros p [= <-]. rewrite length_app. simpl. lia. }
    destruct res as [[index term]|err]; [|by eapply submit_failed_ok]. split; [done|]. split; [done|].
    exists (length evs). split; [done|]. split; [by apply list_lookup_middle|].
    exists c, s. rewrite take_app_length, Hsub. done.
  - injection Hx as _ <-. destruct Hq as (Hw & p & Ht & Htk).
    destruct (submit_poll index term (sv_node s)) as [[r|err]|] eqn:Hpoll; [|by eapply submit_failed_ok|].
    + destruct (submit_poll_success _ _ _ _ Hpoll) as (_ & _ & _ & ->). split; [done|]. left.
      exists x, index, term, p. split_and!; [done..|]. split; [done|]. exists evs, c, s. split_and!; auto.
    + split; [done|]. split; [done|]. eauto.
  - injection Hx as _ <-. eapply request_ok_state; [done..|]. apply redirect_plain.
Qed.
End look.

(** Two commands have different places. *)
Definition web_ok (b : web) : Prop :=
  run (wb_trace b) c0 = Some (Ret (wb_cluster b)) ∧
  (∀ k q, wb_requests b !! k = Some q → request_ok (wb_trace b) q) ∧
  (∀ k1 k2 q1 q2 p, wb_requests b !! k1 = Some q1 → wb_requests b !! k2 = Some q2 →
     wr_taken q1 = Some p → wr_taken q2 = Some p → k1 = k2).

Lemma lose_taken i q : wr_taken (lose i q) = wr_taken q.
Proof. unfold lose. destruct (wr_state q) as [[]|]; try done; by case_bool_decide. Qed.

Lemma lose_ok evs i q : request_ok evs q → request_ok evs (lose i q).
Proof.
  intros [Hp Hq]. unfold lose. destruct (wr_state q) as [[]|] eqn:E; try (split; [done|]; by rewrite E);
    case_bool_decide; split; rewrite ?E; done.
Qed.

(** The [k]-th request moves on. *)
Lemma web_ok_insert b c k q q' evs :
  web_ok b → wb_requests b !! k = Some q → run (wb_trace b ++ evs) c0 = Some (Ret c) →
  request_ok (wb_trace b ++ evs) q' → (wr_taken q' = wr_taken q ∨ wr_taken q' = Some (length (wb_trace b))) →
  web_ok (mkWeb c (<[k := q']> (wb_requests b)) (wb_trace b ++ evs)).
Proof.
  intros (Hr & Hall & Hinj) Hk Hr' Hq' Hor. split_and!; [done|..]; cbn [wb_requests wb_trace].
  - intros k' x [(-> & <- & _)|[_ H]]%list_lookup_insert_Some; [done|]. eapply request_ok_app, Hall, H.
  - assert (Hnew : ∀ k' x p, k ≠ k' → wb_requests b !! k' = Some x → wr_taken q' = Some p → wr_taken x = Some p → False).
    { intros k' x p Hne Hx Hp Hp'. destruct Hor as [Hor|Hor].
      - apply Hne, (Hinj _ _ _ _ p Hk Hx); [congruence|done].
      - destruct (Hall _ _ Hx) as [Hlt _]. specialize (Hlt _ Hp'). rewrite Hor in Hp. injection Hp as <-. lia. }
    intros k1 k2 q1 q2 p [(-> & <- & _)|[Hn1 H1]]%list_lookup_insert_Some [(-> & <- & _)|[Hn2 H2]]%list_lookup_insert_Some Hp1 Hp2;
      [done|by destruct (Hnew k2 q2 p)|by destruct (Hnew k1 q1 p)|by eapply Hinj].
Qed.

Lemma web_ok_event ev b c :
  web_ok b → exec ev (wb_cluster b) = Some (Ret c) →
  web_ok (mkWeb c (after_event ev (wb_requests b)) (wb_trace b ++ [ev])).
Proof.
  intros (Hr & Hall & Hinj) Hx.
  assert (Hlk : ∀ k q, after_event ev (wb_requests b) !! k = Some q → ∃ q0, wb_requests b !! k = Some q0 ∧
    wr_taken q = wr_taken q0 ∧ (request_ok (wb_trace b) q0 → request_ok (wb_trace b) q)).
  { intros k q Hq. destruct ev; simpl in Hq; try (by exists q).
    apply list_lookup_fmap_Some in Hq as (q0 & -> & Hq). exists q0. split_and!; [done|apply lose_taken|apply lose_ok]. }
  split_and!; cbn [wb_requests wb_trace wb_cluster].
  - rewrite (run_app_Ret _ _ _ _ Hr). cbn [run]. by rewrite Hx.
  - intros k q (q0 & Hq0 & _ & Hok)%Hlk. eapply request_ok_app, Hok, Hall, Hq0.
  - intros k1 k2 q1 q2 p (q1' & H1 & -> & _)%Hlk (q2' & H2 & -> & _)%Hlk. by apply Hinj.
Qed.

Lemma web_ok_arrive b i r :
  web_ok b → web_ok (mkWeb (wb_cluster b) (wb_requests b ++ [mkWebRequest i r (Some HStart) None]) (wb_trace b)).
Proof.
  intros (Hr & Hall & Hinj). split_and!; [done|..]; cbn [wb_requests wb_trace].
  - intros k q [H|[_ H]]%lookup_app_Some; [by eapply Hall|]. by apply list_lookup_singleton_Some in H as [_ <-].
  - intros k1 k2 q1 q2 p [H1|[_ [_ <-]%list_lookup_singleton_Some]]%lookup_app_Some
      [H2|[_ [_ <-]%list_lookup_singleton_Some]]%lookup_app_Some; try done. by apply Hinj.
Qed.

Lemma web_ok_step e b b' : web_exec e b = Some (Ret b') → web_ok b → web_ok b'.
Proof.
  intros Hx%web_exec_effect Hb. pose proof Hb as (Hr & Hall & _).
  destruct Hx as [ev c Hc|i r|k q st s n' st' Hq Hst Hs Hh|k q st st' Hq Hst Ht].
  - by apply web_ok_event.
  - by apply web_ok_arrive.
  - eapply web_ok_insert; [done|exact Hq| | |].
    + by eapply look_run.
    + by eapply look_request, Hall.
    + destruct st; auto.
  - rewrite <- (app_nil_r (wb_trace b)). eapply web_ok_insert; [done|exact Hq|by rewrite app_nil_r| |by left].
    rewrite app_nil_r. destruct (Hall _ _ Hq) as [Hp _]. destruct st; try done. injection Ht as <-.
    by apply (submit_failed_ok _ _ ErrTimeout).
Qed.

Lemma web_ok_run es b b' : web_run es b = Some (Ret b') → web_ok b → web_ok b'.
Proof.
  revert b. induction es as [|e es IH]; intros b Hr Hb; cbn [web_run] in Hr; [by injection Hr as <-|].
  destruct (web_exec e b) as [[b1|]|] eqn:Hx; [|done..]. eapply IH; [done|]. by eapply web_ok_step.
Qed.

Lemma web_ok_init es b : web_run es (web_init c0) = Some (Ret b) → web_ok b.
Proof. intros Hr. eapply web_ok_run; [done|]. by split_and!. Qed.
End history.

(** What a step does to the trace and to the places of the commands. *)
Lemma web_step_taken e b b' :
  web_exec e b = Some (Ret b') →
  wb_trace b `prefix_of` wb_trace b' ∧
  ∀ k q', wb_requests b' !! k = Some q' →
    (∃ q, wb_requests b !! k = Some q ∧ wr_taken q' = wr_taken q) ∨
    wr_taken q' = None ∨ wr_taken q' = Some (length (wb_trace b)).
Proof.
  intros Hx%web_exec_effect. destruct Hx as [ev c Hc|i r|k q st s n' st' Hq Hst Hs Hh|k q st st' Hq Hst Ht].
  - split; [by apply prefix_app_r|]. intros k q' Hq. left.
    destruct ev; cbn [wb_requests after_event] in Hq; try (by exists q').
    apply list_lookup_fmap_Some in Hq as (q0 & -> & Hq). exists q0. split; [done|apply lose_taken].
  - split; [done|]. intros k q' [H|[_ [_ <-]%list_lookup_singleton_Some]]%lookup_app_Some; eauto.
  - split; [by apply prefix_app_r|]. intros k' q' [(-> & <- & _)|[_ H]]%list_lookup_insert_Some; [|eauto].
    destruct st; simpl; eauto.
  - split; [done|]. intros k' q' [(-> & <- & _)|[_ H]]%list_lookup_insert_Some; eauto.
Qed.

(** Requests that arrive after a point get places after it. *)
Lemma web_run_taken es b b' :
  web_run es b = Some (Ret b') →
  wb_trace b `prefix_of` wb_trace b' ∧
  ∀ k q p, length (wb_requests b) <= k → wb_requests b' !! k = Some q → wr_taken q = Some p → length (wb_trace b) <= p.
Proof.
  intros Hr.
  cut (∀ t0 k0 b, web_run es b = Some (Ret b') → t0 `prefix_of` wb_trace b →
    (∀ k q p, k0 <= k → wb_requests b !! k = Some q → wr_taken q = Some p → length t0 <= p) →
    t0 `prefix_of` wb_trace b' ∧ ∀ k q p, k0 <= k → wb_requests b' !! k = Some q → wr_taken q = Some p → length t0 <= p).
  { intros Hcut. apply (Hcut (wb_trace b) (length (wb_requests b)) b Hr); [done|].
    intros k q p Hk Hq. apply lookup_lt_Some in Hq. lia. }
  clear b Hr. intros t0 k0. induction es as [|e es IH]; intros b Hr Hp Hall; cbn [web_run] in Hr; [by injection Hr as <-|].
  destruct (web_exec e b) as [[b1|]|] eqn:Hx; [|done..]. destruct (web_step_taken _ _ _ Hx) as [Hp1 Hst].
  apply (IH b1 Hr); [by etrans|]. intros k q p Hk Hq Ht. destruct (Hst _ _ Hq) as [(q0 & Hq0 & He)|[He|He]].
  - apply (Hall k q0); [done..|congruence].
  - congruence.
  - rewrite He in Ht. injection Ht as <-. by apply prefix_length.
Qed.

(** ** What is taken gets a place of its own *)

Section answers.
Context (ids : list NodeID) (Hnodup : NoDup ids) (Hnonempty : "" ∉ ids) (w : NodeID → option W).
Implicit Types evs : list event.

Abbreviation c0 := (init_cluster ids w).
Abbreviation good evs := (intact_run evs c0 ∧ N.lt (N.of_nat (length evs)) event_limit).
Abbreviation log_of evs := (decided evs c0).

Lemma good_prefix evs1 evs2 : good evs2 → evs1 `prefix_of` evs2 → (∃ c, run evs1 c0 = Some (Ret c)) → good evs1.
Proof.
  intros [Hin Hlen] [evs ->] [c Hr]. rewrite length_app in Hlen. split; [|lia].
  by destruct (intact_run_app _ _ _ _ Hin Hr).
Qed.

(** An acknowledged write is in the decided log, and in the log of every server
    that leads its term or a later one. *)
Lemma acked_decided evs c p i x index term :
  good evs → run evs c0 = Some (Ret c) → acked c0 evs p i x index term →
  (0 < index)%N ∧ log_of evs !! (N.to_nat index - 1) = Some (mkEntry term index (write_command x)) ∧
  ∀ j sj, cl_servers c !! j = Some sj → IsLeader (sv_node sj) = true → (term <= currentTerm (sv_node sj))%N →
    entries (log (sv_node sj)) !! N.to_nat index = Some (mkEntry term index (write_command x)).
Proof using Hnodup Hnonempty.
  intros Hgood Hrun ([Hp (c1 & s1 & Hr1 & Hs1 & Hsub)] & e1 & c2 & s2 & [e2 ->] & Hlt & Hr & Hs2 & Hpoll).
  pose proof Hgood as [Hin Hlen].
  destruct (submit_append (write_command x) (sv_node s1)) as [n' res] eqn:E. cbn [snd] in Hsub. subst res.
  rewrite take_app_le in Hr1 by lia. rewrite lookup_app_l in Hp by lia. pose proof (take_drop_middle _ _ _ Hp) as He1.
  assert (Hr2 : run (EvSubmit i (write_command x) :: drop (S p) e1) c1 = Some (Ret c2)).
  { rewrite <- He1, (run_app_Ret _ _ _ _ Hr1) in Hr. done. }
  rewrite (run_app_Ret _ _ _ _ Hr) in Hrun.
  destruct (acknowledged_command ids Hnodup Hnonempty w (take p e1) (drop (S p) e1) e2 c1 c2 c i s1 s2 n'
    (write_command x) index term (index, term)) as (_ & Hidx & Hlk & Hall); rewrite ?app_assoc, ?He1; try done.
  split_and!; [lia| |intros j sj Hj; by apply (proj2 (Hall j sj Hj))].
  eapply prefix_lookup_Some; [|by apply (committed_decided ids Hnodup Hnonempty w (e1 ++ e2) e1 c2 i s2); [..|apply prefix_app_r| |]].
  rewrite committed_entries_core, lookup_drop. unfold committed. cbn [core_of k_commit k_log].
  rewrite lookup_take_lt by lia. by replace (1 + (N.to_nat index - 1)) with (N.to_nat index) by lia.
Qed.

Lemma submit_term cmd (n n' : Node W) index term :
  submit_append cmd n = (n', inl (index, term)) → currentTerm n = term.
Proof.
  unfold submit_append. case_bool_decide; [|done]. cbv zeta. cbn [negb].
  destruct (wal _) as [x|]; [destruct (PersistEntry x _ _ _) as [x' [msg|]]|];
    intros E; (discriminate E || (apply (f_equal snd) in E; cbn [snd] in E; by injection E as _ <-)).
Qed.

(** A leader gives a command an index that no entry of its term has had. *)
Lemma new_index evs evs' c c' i j s sj cmd index term e p :
  good evs → evs' `prefix_of` evs → run evs c0 = Some (Ret c) → run evs' c0 = Some (Ret c') →
  cl_servers c !! i = Some s → (submit_append cmd (sv_node s)).2 = inl (index, term) →
  cl_servers c' !! j = Some sj → entries (log (sv_node sj)) !! p = Some e → 0 < p → e_Term e = term →
  p < N.to_nat index.
Proof using Hnodup Hnonempty.
  intros [Hin Hlen] [evs2 ->] Hr Hr' Hs Hsub Hj He Hp Ht. rewrite (run_app_Ret _ _ _ _ Hr') in Hr.
  destruct (reach_two ids Hnodup Hnonempty w evs' evs2 c' c Hin Hlen Hr' Hr) as (g' & g & n' & n & HI' & HI & Hsteps).
  destruct (submit_append cmd (sv_node s)) as [n1 res] eqn:E. cbn [snd] in Hsub. subst res.
  destruct (reach ids Hnodup Hnonempty w _ c Hin Hlen) as [g2 HI2]; [by rewrite (run_app_Ret _ _ _ _ Hr')|].
  pose proof (reached_shape ids _ _ _ _ _ HI2 Hlen Hs) as Hsh.
  destruct (submit_appended _ _ _ _ _ Hsh E) as (Hl & _ & _ & _ & Hidx).
  pose proof (submit_term _ _ _ _ _ E) as Htm. apply abs_lookup in Hs, Hj.
  destruct (ru_live _ _ _ _ _ _ _ HI') as [HE' HL']. destruct (ru_live _ _ _ _ _ _ _ HI) as [_ HL].
  destruct (li_log _ _ _ _ HL' _ _ Hj) as [_ Hlm]. destruct (Hlm p e He Hp) as (T' & HT' & Hpre).
  destruct (steps_tl_le ids Hnodup Hnonempty _ _ Hsteps (conj HE' HL') _ _ HT') as (T & HT & HpreT).
  pose proof (li_leader _ _ _ _ HL _ _ Hs Hl) as HT2. cbn [core_of k_term k_log snd] in *.
  rewrite Htm, <- Ht, HT in HT2. injection HT2 as ->.
  apply prefix_length in Hpre, HpreT. apply lookup_lt_Some in He. rewrite length_take in Hpre. lia.
Qed.

(** The place of a command that is taken later than another. *)
Lemma taken_later evs p1 p2 i1 i2 x1 x2 index1 index2 term :
  good evs → p1 < p2 → taken c0 evs p1 i1 x1 index1 term → taken c0 evs p2 i2 x2 index2 term → (index1 < index2)%N.
Proof using Hnodup Hnonempty.
  intros Hgood Hlt [Hp1 (c1 & s1 & Hr1 & Hs1 & Hsub1)] [Hp2 (c2 & s2 & Hr2 & Hs2 & Hsub2)].
  pose proof (good_prefix _ _ Hgood (prefix_take evs p2) (ex_intro _ _ Hr2)) as Hgood2.
  pose proof (good_prefix _ _ Hgood (prefix_take evs p1) (ex_intro _ _ Hr1)) as [Hin1 Hlen1].
  destruct (reach ids Hnodup Hnonempty w _ c1 Hin1 Hlen1 Hr1) as [g1 HI1].
  pose proof (reached_shape ids _ _ _ _ _ HI1 Hlen1 Hs1) as Hsh.
  destruct (submit_append (write_command x1) (sv_node s1)) as [n1 res] eqn:E. cbn [snd] in Hsub1. subst res.
  destruct (submit_appended _ _ _ _ _ Hsh E) as (_ & _ & _ & Hlog & Hidx).
  cut (N.to_nat index1 < N.to_nat index2); [lia|].
  eapply (new_index (take p2 evs) (take (S p1) evs)); [done| |exact Hr2| |exact Hs2|exact Hsub2| | | |].
  - replace (take (S p1) evs) with (take (S p1) (take p2 evs)) by (rewrite take_take; f_equal; lia). apply prefix_take.
  - rewrite (take_S_r _ _ _ Hp1), (run_app_Ret _ _ _ _ Hr1). cbn [run]. by rewrite (submit_exec _ _ _ _ _ _ _ Hs1 E).
  - apply (lookup_insert_eq (cl_servers c1) i1).
  - cbn [set_node sv_node]. rewrite Hlog, Hidx, Nat2N.id. by apply list_lookup_middle.
  - destruct Hsh as [? _]. lia.
  - done.
Qed.

Lemma taken_distinct evs p1 p2 i1 i2 x1 x2 index term :
  good evs → p1 ≠ p2 → taken c0 evs p1 i1 x1 index term → taken c0 evs p2 i2 x2 index term → False.
Proof using Hnodup Hnonempty.
  intros Hgood Hne H1 H2. destruct (decide (p1 < p2)).
  - pose proof (taken_later _ _ _ _ _ _ _ _ _ _ Hgood l H1 H2). lia.
  - pose proof (taken_later _ p2 p1 _ _ _ _ _ _ _ Hgood ltac:(lia) H2 H1). lia.
Qed.

(** What was decided before a command was taken does not reach its index, if the
    command is decided. *)
Lemma taken_after evs t0 p i x index term :
  good evs → t0 `prefix_of` evs → length t0 <= p → taken c0 evs p i x index term → (0 < index)%N →
  log_of evs !! (N.to_nat index - 1) = Some (mkEntry term index (write_command x)) →
  length (log_of t0) < N.to_nat index.
Proof using Hnodup Hnonempty.
  intros Hgood Ht0 Hp [Hlk (c1 & s1 & Hr1 & Hs1 & Hsub)] Hpos Hdec. pose proof Hgood as [Hin Hlen].
  destruct (decide (length (log_of t0) < N.to_nat index)) as [|Hge]; [done|exfalso].
  pose proof (decided_mono ids Hnodup Hnonempty w evs t0 Hin Hlen Ht0) as Hmono.
  destruct (lookup_lt_is_Some_2 (log_of t0) (N.to_nat index - 1)) as [e He]; [lia|].
  assert (e = mkEntry term index (write_command x)) as ->.
  { apply (prefix_lookup_Some _ _ _ _ He) in Hmono. congruence. }
  destruct (longest_in (visited t0 c0 ≫= committed_at)) as [Hnil|Hd].
  { unfold decided in He. by rewrite Hnil in He. }
  apply decided_in in Hd as (e1 & x1 & j & sj & Hp1 & Hr & Hj & Heq). unfold decided in He. rewrite Heq in He.
  unfold committed_entries in He. apply lookup_take_Some in He as [He _]. rewrite lookup_drop in He.
  pose proof (good_prefix _ _ Hgood (prefix_take evs p) (ex_intro _ _ Hr1)) as Hgood1.
  cut (N.to_nat index < N.to_nat index); [lia|].
  replace (N.to_nat index) with (1 + (N.to_nat index - 1)) at 1 by lia.
  eapply (new_index (take p evs) e1 _ x1 _ _ _ _ _ _ _ _ _ Hgood1); try done; [|lia].
  etrans; [exact Hp1|]. destruct Ht0 as [rest ->]. rewrite take_app_ge by lia. by apply prefix_app_r.
Qed.

Lemma taken_inj evs p i i' x x' index index' term term' :
  taken c0 evs p i x index term → taken c0 evs p i' x' index' term' → index = index' ∧ term = term'.
Proof.
  intros [Hp (c1 & s1 & Hr & Hs & Hsub)] [Hp' (c1' & s1' & Hr' & Hs' & Hsub')].
  rewrite Hp in Hp'. injection Hp' as <- Hc. rewrite Hr in Hr'. injection Hr' as <-. rewrite Hs in Hs'. injection Hs' as <-.
  rewrite <- Hc, Hsub in Hsub'. by injection Hsub' as <- <-.
Qed.

(** A write that was answered with 200. *)
Lemma answered_write b k q x v :
  web_ok c0 b → wb_requests b !! k = Some q → write_of (wr_request q) = Some x →
  wr_state q = Some (HDone (JSONResponse StatusOK v)) →
  ∃ index term p, JSONResponse StatusOK v = write_response x index term ∧ wr_taken q = Some p ∧
    acked c0 (wb_trace b) p (wr_server q) x index term.
Proof.
  intros (_ & Hall & _) Hq Hw Hst. destruct (Hall _ _ Hq) as [_ Hok]. rewrite Hst in Hok.
  destruct Hok as [(x' & index & term & p & Hw' & ? & ? & ?)|[(key & Hk & _)|Hpl]].
  - rewrite Hw in Hw'. injection Hw' as <-. eauto 6.
  - exfalso. unfold write_of, read_of in *. destruct (is_kv _ && _); [|done]. by destruct (r_Method _).
  - exfalso. destruct Hpl as [? _]; [|done]. unfold write_of in Hw. by destruct (is_kv _).
Qed.

(** C7: Acknowledged writes are decided.  In executions in which every restart is
    intact (the server gets its log back), a put or delete that was answered with
    status 200 is in the log that the cluster has decided, at the index and with
    the term of the answer, and it stays there: whatever elections and intact
    restarts there were since the answer, every server whose consumer has got that
    far has taken this very command there; and if the command is a put whose key
    and value are valid UTF-8, the server has the value in its store unless a
    later entry wrote the key. *)
Theorem http_writes_decided es b k q x v :
  web_run es (web_init c0) = Some (Ret b) →
  intact_run (wb_trace b) c0 → (N.of_nat (length (wb_trace b)) < event_limit)%N →
  wb_requests b !! k = Some q → write_of (wr_request q) = Some x →
  wr_state q = Some (HDone (JSONResponse StatusOK v)) →
  ∃ m term, let e := mkEntry term (N.of_nat (S m)) (write_command x) in
    decided (wb_trace b) c0 !! m = Some e ∧
    JSONResponse StatusOK v = write_response x (N.of_nat (S m)) term ∧
    ∀ j sj, cl_servers (wb_cluster b) !! j = Some sj → m < length (sv_consumed sj) →
      sv_consumed sj !! m = Some e ∧
      ∀ key value, x = WPut key value → valid_string key = true → valid_string value = true →
        Forall (λ e', writes_key key e' = false) (drop (S m) (sv_consumed sj)) →
        Get (store_of sj) key = (value, true).
Proof using Hnodup Hnonempty.
  intros Hr Hin Hlen Hq Hw Hst. pose proof (web_ok_init c0 es b Hr) as Hok.
  destruct (answered_write b k q x v Hok Hq Hw Hst) as (index & term & p & Hv & _ & Hack).
  destruct (acked_decided _ _ _ _ _ _ _ (conj Hin Hlen) (proj1 Hok) Hack) as (Hpos & Hdec & _).
  exists (N.to_nat index - 1), term. replace (N.of_nat (S (N.to_nat index - 1))) with index by lia.
  split_and!; [done..|]. intros j sj Hj Hlt. destruct Hok as (Hrun & _).
  pose proof (consumed_decided ids Hnodup Hnonempty w (wb_trace b) _ _ j sj Hin Hlen (reflexivity _) Hrun Hj) as Hp.
  assert (Hm : sv_consumed sj !! (N.to_nat index - 1) = Some (mkEntry term index (write_command x)))
    by (rewrite <- Hdec; by apply prefix_lookup_lt).
  split; [done|]. intros key value -> Hk Hval Hlater. unfold store_of. rewrite <- (take_drop_middle _ _ _ Hm).
  by apply replica_put.
Qed.

(** C8: Acknowledged writes are ordered.  In executions in which every restart is
    intact, two requests that were answered with
    200 for a put or delete have different places in the decided log; and if one
    was answered before the other arrived, its place comes first. *)
Theorem http_writes_ordered es1 es2 b1 b2 k1 k2 q1 q2 x1 x2 v1 v2 :
  web_run es1 (web_init c0) = Some (Ret b1) → web_run es2 b1 = Some (Ret b2) →
  intact_run (wb_trace b2) c0 → (N.of_nat (length (wb_trace b2)) < event_limit)%N → k1 ≠ k2 →
  wb_requests b2 !! k1 = Some q1 → write_of (wr_request q1) = Some x1 →
  wr_state q1 = Some (HDone (JSONResponse StatusOK v1)) →
  wb_requests b2 !! k2 = Some q2 → write_of (wr_request q2) = Some x2 →
  wr_state q2 = Some (HDone (JSONResponse StatusOK v2)) →
  ∃ m1 m2 e1 e2, m1 ≠ m2 ∧
    decided (wb_trace b2) c0 !! m1 = Some e1 ∧ e_Command e1 = write_command x1 ∧
    decided (wb_trace b2) c0 !! m2 = Some e2 ∧ e_Command e2 = write_command x2 ∧
    (wb_requests b1 !! k1 = Some q1 → length (wb_requests b1) <= k2 → m1 < m2).
Proof using Hnodup Hnonempty.
  intros Hr1 Hr2 Hin Hlen Hne Hq1 Hw1 Hst1 Hq2 Hw2 Hst2.
  pose proof (web_ok_init c0 es1 b1 Hr1) as Hok1. pose proof (web_ok_run c0 es2 b1 b2 Hr2 Hok1) as Hok2.
  destruct (answered_write b2 k1 q1 x1 v1 Hok2 Hq1 Hw1 Hst1) as (i1 & t1 & p1 & _ & Hp1 & Hack1).
  destruct (answered_write b2 k2 q2 x2 v2 Hok2 Hq2 Hw2 Hst2) as (i2 & t2 & p2 & _ & Hp2 & Hack2).
  destruct (acked_decided _ _ _ _ _ _ _ (conj Hin Hlen) (proj1 Hok2) Hack1) as (Hpos1 & Hdec1 & _).
  destruct (acked_decided _ _ _ _ _ _ _ (conj Hin Hlen) (proj1 Hok2) Hack2) as (Hpos2 & Hdec2 & _).
  eexists (N.to_nat i1 - 1), (N.to_nat i2 - 1), _, _. split_and!; [|exact Hdec1|done|exact Hdec2|done|].
  - intros Heq. assert (i1 = i2) as -> by lia. rewrite Hdec1 in Hdec2. injection Hdec2 as -> _.
    apply (taken_distinct (wb_trace b2) p1 p2 (wr_server q1) (wr_server q2) x1 x2 i2 t2); [done| |apply Hack1|apply Hack2].
    intros ->. apply Hne. by eapply (proj2 (proj2 Hok2)).
  - intros Hq1' Hk2. destruct (answered_write b1 k1 q1 x1 v1 Hok1 Hq1' Hw1 Hst1) as (i1' & t1' & p1' & _ & Hp1' & Hack1').
    destruct (web_run_taken es2 b1 b2 Hr2) as [Hpre Hafter]. specialize (Hafter k2 q2 p2 Hk2 Hq2 Hp2).
    assert (p1' = p1) as -> by congruence.
    assert (i1' = i1) as ->.
    { destruct Hpre as [rest Hrest]. rewrite Hrest in Hack1.
      by destruct (taken_inj _ _ _ _ _ _ _ _ _ _ (taken_app c0 _ rest _ _ _ _ _ (proj1 Hack1')) (proj1 Hack1)). }
    destruct (acked_decided _ _ _ _ _ _ _ (good_prefix _ _ (conj Hin Hlen) Hpre (ex_intro _ _ (proj1 Hok1)))
      (proj1 Hok1) Hack1') as (_ & Hdec1' & _).
    apply lookup_lt_Some in Hdec1'.
    pose proof (taken_after _ _ _ _ _ _ _ (conj Hin Hlen) Hpre Hafter (proj1 Hack2) Hpos2 Hdec2). lia.
Qed.

(** C9: Reads come from the decided log.  In executions in which every restart is
    intact, what a get is answered for a key (200 with a value, or 404) is what
    the key has after some prefix of the log that the cluster has decided: never a
    value that was not decided or that such an execution loses later. *)
Theorem http_reads_decided es b k q key status v :
  web_run es (web_init c0) = Some (Ret b) →
  intact_run (wb_trace b) c0 → (N.of_nat (length (wb_trace b)) < event_limit)%N →
  wb_requests b !! k = Some q → read_of (wr_request q) = Some key →
  wr_state q = Some (HDone (JSONResponse status v)) → status = StatusOK ∨ status = StatusNotFound →
  ∃ m, m <= length (decided (wb_trace b) c0) ∧
    JSONResponse status v = get_response (replica (take m (decided (wb_trace b) c0))) key.
Proof using Hnodup Hnonempty.
  intros Hr Hin Hlen Hq Hk Hst Hs. destruct (web_ok_init c0 es b Hr) as (_ & Hall & _).
  destruct (Hall _ _ Hq) as [_ Hok]. rewrite Hst in Hok.
  destruct Hok as [(x & _ & _ & _ & Hw & _)|[(key' & Hk' & e1 & c1 & s1 & Hp & Hr1 & Hs1 & ->)|Hpl]].
  - exfalso. unfold write_of, read_of in *. destruct (is_kv _ && _); [|done]. by destruct (r_Method _).
  - rewrite Hk in Hk'. injection Hk' as <-.
    pose proof (consumed_decided ids Hnodup Hnonempty w (wb_trace b) e1 c1 _ s1 Hin Hlen Hp Hr1 Hs1) as Hpre.
    exists (length (sv_consumed s1)). split; [by apply prefix_length|]. unfold store_of.
    destruct Hpre as [rest ->]. by rewrite take_app_length.
  - exfalso. assert (Hkv : is_kv (wr_request q) = true) by (unfold read_of in Hk; by destruct (is_kv _)).
    destruct (Hpl Hkv) as [? ?]. by destruct Hs.
Qed.
End answers.
End web.

(** ** A concrete history

    A put at [a], a restart of [b], a get at [a], and a delete at [a]. *)
Module WebDemo.
#[local] Existing Instance Demo.constant_rand.

Definition handlers (i : NodeID) : Handler := mkHandler ∅.
Definition put : request := mkRequest MethodPut "/kv/x" (inl (Marshal (string_map [("value", "1")]))).
Definition get : request := mkRequest MethodGet "/kv/x" (inl []).
Definition del : request := mkRequest MethodDelete "/kv/x" (inl []).

Definition cluster_events (evs : list event) : list web_event := WEvent <$> evs.

Definition first : list web_event :=
  cluster_events Demo.elect ++ [WArrive "a" put; WLook 0; WLook 0] ++ cluster_events Demo.replicate ++
  [WLook 0; WEvent (EvRestart "b")].

Definition second : list web_event :=
  [WArrive "a" get; WLook 1; WLook 1; WArrive "a" del; WLook 2; WLook 2;
   WEvent (EvReplicate "a" "b"); WEvent (EvAppendRequest 5); WEvent (EvAppendReply 6);
   WEvent (EvApplyCollect "a"); WEvent (EvApplySend "a"); WEvent (EvApplyFinish "a"); WLook 2].

Definition start : web := web_init Demo.start.
Definition result (o : option (outcome web)) : web (W := Journal) := match o with Some (Ret b) => b | _ => start end.
Definition after1 : web := result (web_run handlers first start).
Definition after2 : web := result (web_run handlers second after1).

Definition request_at (k : nat) (b : web (W := Journal)) : web_request :=
  default (mkWebRequest "" put None None) (wb_requests b !! k).
Definition answer (k : nat) (b : web (W := Journal)) : response :=
  match wr_state (request_at k b) with Some (HDone resp) => resp | _ => NotFoundPage end.
Definition answer_json (k : nat) (b : web (W := Journal)) : json :=
  match answer k b with JSONResponse _ v => v | _ => JObj [] end.

(** The execution of the cluster in it. *)
Definition history : list event :=
  Demo.elect ++ [EvSubmit "a" (SerializePut "x" "1")] ++ Demo.replicate ++
  [EvRestart "b"; EvSubmit "a" (SerializeDelete "x"); EvReplicate "a" "b"; EvAppendRequest 5; EvAppendReply 6;
   EvApplyCollect "a"; EvApplySend "a"; EvApplyFinish "a"].

Lemma after2_trace : wb_trace after2 = history.
Proof. by_compute. Qed.

Lemma after2_intact : intact_run (wb_trace after2) Demo.start.
Proof. rewrite after2_trace. decided. Qed.

Lemma after1_run : web_run handlers first (web_init (init_cluster Demo.ids Demo.wals)) = Some (Ret after1).
Proof. by_compute. Qed.

Lemma second_run : web_run handlers second after1 = Some (Ret after2).
Proof. by_compute. Qed.

Lemma after2_run : web_run handlers (first ++ second) (web_init (init_cluster Demo.ids Demo.wals)) = Some (Ret after2).
Proof. by_compute. Qed.

Lemma after2_short : (N.of_nat (length (wb_trace after2)) < event_limit)%N.
Proof. by_compute. Qed.

Lemma after2_request k : k < 3 → wb_requests after2 !! k = Some (request_at k after2).
Proof. intros Hk. destruct k as [|[|[|]]]; [by_compute..|lia]. Qed.

Lemma after2_answer k : k < 3 → wr_state (request_at k after2) = Some (HDone (JSONResponse StatusOK (answer_json k after2))).
Proof. intros Hk. destruct k as [|[|[|]]]; [by_compute..|lia]. Qed.

Lemma after2_write : write_of (wr_request (request_at 0 after2)) = Some (WPut "x" "1") ∧
  write_of (wr_request (request_at 2 after2)) = Some (WDelete "x") ∧ read_of (wr_request (request_at 1 after2)) = Some "x".
Proof. split_and!; by_compute. Qed.

Lemma after1_request : wb_requests after1 !! 0 = Some (request_at 0 after2) ∧ length (wb_requests after1) = 1.
Proof. split; by_compute. Qed.

Lemma http_writes_decided_witness :
  ∃ m term, let e := mkEntry term (N.of_nat (S m)) (SerializePut "x" "1") in
    decided (wb_trace after2) Demo.start !! m = Some e ∧
    JSONResponse StatusOK (answer_json 0 after2) = write_response (WPut "x" "1") (N.of_nat (S m)) term.
Proof.
  pose proof (http_writes_decided handlers Demo.ids Demo.ids_nodup Demo.ids_nonempty Demo.wals (first ++ second) after2
    0 (request_at 0 after2) (WPut "x" "1") (answer_json 0 after2) after2_run after2_intact after2_short
    (after2_request 0 ltac:(lia)) (proj1 after2_write) (after2_answer 0 ltac:(lia))) as (m & term & Hd & Hv & _).
  exists m, term. split; [exact Hd|exact Hv].
Defined.

(** The put was answered before the delete arrived. *)
Lemma http_writes_ordered_witness :
  ∃ m1 m2 e1 e2, m1 < m2 ∧
    decided (wb_trace after2) Demo.start !! m1 = Some e1 ∧ e_Command e1 = SerializePut "x" "1" ∧
    decided (wb_trace after2) Demo.start !! m2 = Some e2 ∧ e_Command e2 = SerializeDelete "x".
Proof.
  pose proof (http_writes_ordered handlers Demo.ids Demo.ids_nodup Demo.ids_nonempty Demo.wals first second after1 after2
    0 2 (request_at 0 after2) (request_at 2 after2) (WPut "x" "1") (WDelete "x")
    (answer_json 0 after2) (answer_json 2 after2) after1_run second_run after2_intact after2_short
    ltac:(discriminate) (after2_request 0 ltac:(lia)) (proj1 after2_write) (after2_answer 0 ltac:(lia))
    (after2_request 2 ltac:(lia)) (proj1 (proj2 after2_write)) (after2_answer 2 ltac:(lia)))
    as (m1 & m2 & e1 & e2 & _ & H1 & Hc1 & H2 & Hc2 & Hlt).
  exists m1, m2, e1, e2. split; [|split_and!; [exact H1|exact Hc1|exact H2|exact Hc2]].
  destruct after1_request as [Hq Hl]. apply Hlt; [exact Hq|rewrite Hl; lia].
Defined.

Lemma http_reads_decided_witness :
  ∃ m, JSONResponse StatusOK (answer_json 1 after2) =
    get_response (replica (take m (decided (wb_trace after2) Demo.start))) "x".
Proof.
  pose proof (http_reads_decided handlers Demo.ids Demo.ids_nodup Demo.ids_nonempty Demo.wals (first ++ second) after2
    1 (request_at 1 after2) "x" StatusOK (answer_json 1 after2) after2_run after2_intact after2_short
    (after2_request 1 ltac:(lia)) (proj2 (proj2 after2_write)) (after2_answer 1 ltac:(lia)) (or_introl eq_refl))
    as (m & _ & Hm).
  exists m. exact Hm.
Defined.
End WebDemo.
