(* ===== verification/Stack.v ===== *)
(** The whole server, from HTTP to the disk: clients (Web.v) of a cluster whose
    servers keep their state in the files of wal.go (WalSpec.v) and restart from
    them.

    Restarts are intact when no server restarts after it has truncated its log
    (Recovery.v); with this the guarantees of Web.v hold for servers with files,
    and what a client was told is in the files of every later leader, from which
    a new process reads it back at its place, unless that leader has truncated its
    log. *)

From S2P Require Import Prelude Types RaftLog Storage Node Replication Cluster.
From S2P Require Import Protocol Refinement Ghost ElectionSafety LogFacts LogSafety Bounds Simulation Safety.
From S2P Require Import Guarantees Recovery Abstraction Binary Text Json Wal WalSpec KVStore Api Http System Web.
Import RLog.

Section stack.
Context `{HRand : Rand} (handlers : NodeID → Handler).
Context (ids : list NodeID) (Hnodup : NoDup ids) (Hnonempty : "" ∉ ids) (Hids : ∀ k, k ∈ ids → log_id k).

Abbreviation c0 := (init_cluster ids disks).

(** A server that has not truncated its log and whose files are all found
    restarts with the log that it had. *)
Lemma leader_restarts es b j sj d :
  web_run handlers es (web_init c0) = Some (Ret b) →
  (∀ i cmd, EvSubmit i cmd ∈ wb_trace b → log_command cmd) →
  (N.of_nat (S (length (wb_trace b))) < event_limit)%N → cl_servers (wb_cluster b) !! j = Some sj → wal (sv_node sj) = Some d →
  ready_run (wb_trace b ++ [EvRestart j]) c0 → clean_run ∅ (wb_trace b ++ [EvRestart j]) c0 →
  ∃ s', on_restart sj = Some (Ret (s', [])) ∧ entries (log (sv_node s')) = entries (log (sv_node sj)).
Proof using Hnodup Hnonempty Hids.
  intros Hr Hcmd Hlen Hj Hd Hrd Hcl. pose proof (proj1 (web_ok_init handlers c0 es b Hr)) as Hrun.
  assert (Hcmd' : storable_events (W := WAL) (wb_trace b ++ [EvRestart j])).
  { intros i cmd [?|?%list_elem_of_singleton]%elem_of_app; [by apply (Hcmd i)|done]. }
  assert (Hin : intact_run (wb_trace b ++ [EvRestart j]) c0).
  { apply (clean_run_intact (W := WAL) (SS := WAL_StorageSpec) ids Hnodup Hnonempty Hids disks);
      [apply disks_fresh|done|rewrite length_app; simpl; lia|done..]. }
  destruct (intact_run_app _ _ _ _ Hin Hrun) as [Hin1 [Hj1 _]]. destruct (ready_run_app _ _ _ _ Hrd Hrun) as [Hrd1 [Hready _]].
  destruct (run_holds (W := WAL) (SS := WAL_StorageSpec) ids Hnodup Hnonempty Hids disks (wb_trace b) _
    disks_fresh Hcmd Hrd1 Hin1 ltac:(lia) Hrun) as (g & HI & Hhold).
  destruct (restart_stored (SS := WAL_StorageSpec) _ sj d (Hhold j sj Hj) Hd (Hready sj Hj d Hd)) as (s' & Hs' & _).
  exists s'. split; [done|]. cbn [intact_restart] in Hj1. rewrite Hj in Hj1. unfold intact in Hj1. rewrite Hs' in Hj1.
  by destruct Hj1 as (_ & _ & HL).
Qed.

(** C10: What a client was told is on the disks.  Take servers with the write-ahead
    log of wal.go on disks without faults, ids and commands that fit its records,
    and an execution in which servers restart only while all files of their logs
    are found and never after they have truncated their log.  A put or delete that
    was answered with 200 is in the log that the cluster has decided, at the index
    and with the term of the answer, whatever restarts and elections there were.
    Every server that leads that term or a later one has it on its disk: if it
    has not truncated its log and all its files are found, then a new process that
    [NewWAL], [NewNode], [Replay] and [Start] make from its files starts and has
    the entry at that index of its log. *)
Theorem acknowledged_write_on_disk es b k q x v :
  web_run handlers es (web_init c0) = Some (Ret b) →
  (∀ i cmd, EvSubmit i cmd ∈ wb_trace b → log_command cmd) →
  (N.of_nat (S (length (wb_trace b))) < event_limit)%N → ready_run (wb_trace b) c0 → clean_run ∅ (wb_trace b) c0 →
  wb_requests b !! k = Some q → write_of (wr_request q) = Some x →
  wr_state q = Some (HDone (JSONResponse StatusOK v)) →
  ∃ m term, let e := mkEntry term (N.of_nat (S m)) (write_command x) in
    decided (wb_trace b) c0 !! m = Some e ∧
    JSONResponse StatusOK v = write_response x (N.of_nat (S m)) term ∧
    ∀ j sj d, cl_servers (wb_cluster b) !! j = Some sj → IsLeader (sv_node sj) = true →
      (term <= currentTerm (sv_node sj))%N → wal (sv_node sj) = Some d →
      ready_run (wb_trace b ++ [EvRestart j]) c0 → clean_run ∅ (wb_trace b ++ [EvRestart j]) c0 →
      ∃ s', on_restart sj = Some (Ret (s', [])) ∧ entries (log (sv_node s')) !! S m = Some e.
Proof using Hnodup Hnonempty Hids.
  intros Hr Hcmd Hlen Hrd Hcl Hq Hw Hst. pose proof (web_ok_init handlers c0 es b Hr) as Hok.
  pose proof (proj1 Hok) as Hrun.
  assert (Hin : intact_run (wb_trace b) c0)
    by (apply (clean_run_intact (W := WAL) (SS := WAL_StorageSpec) ids Hnodup Hnonempty Hids disks); [apply disks_fresh|done|lia|done..]).
  assert (Hlen' : (N.of_nat (length (wb_trace b)) < event_limit)%N) by lia.
  destruct (answered_write ids disks b k q x v Hok Hq Hw Hst) as (index & term & p & Hv & _ & Hack).
  destruct (acked_decided ids Hnodup Hnonempty disks _ _ _ _ _ _ _ (conj Hin Hlen') Hrun Hack) as (Hpos & Hdec & Hlead).
  exists (N.to_nat index - 1), term. replace (N.of_nat (S (N.to_nat index - 1))) with index by lia.
  split_and!; [done..|]. intros j sj d Hj Hl Ht Hd Hrd' Hcl'. specialize (Hlead j sj Hj Hl Ht).
  destruct (leader_restarts es b j sj d) as (s' & Hs' & HL); try done.
  exists s'. split; [done|]. rewrite HL. by replace (S (N.to_nat index - 1)) with (N.to_nat index) by lia.
Qed.
End stack.

(** ** A concrete history on disk

    The history of [WebDemo], with files. *)
Module StackDemo.
#[local] Existing Instance Demo.constant_rand.

Definition start : cluster WAL := init_cluster DiskDemo.ids disks.
Definition result (o : option (outcome web)) : web (W := WAL) := match o with Some (Ret b) => b | _ => web_init start end.
Definition final : web := result (web_run WebDemo.handlers (WebDemo.first ++ WebDemo.second) (web_init start)).
Definition put_at (b : web (W := WAL)) : web_request :=
  default (mkWebRequest "" WebDemo.put None None) (wb_requests b !! 0).
Definition answer : json :=
  match wr_state (put_at final) with Some (HDone (JSONResponse _ v)) => v | _ => JObj [] end.
Definition leader : server WAL := default (init_server DiskDemo.ids disks "a") (cl_servers (wb_cluster final) !! "a").

Definition disk : WAL := default new_wal (wal (sv_node leader)).

Lemma final_run : web_run WebDemo.handlers (WebDemo.first ++ WebDemo.second) (web_init start) = Some (Ret final).
Proof. by_compute. Qed.

Lemma final_trace : wb_trace final = WebDemo.history.
Proof. by_compute. Qed.

Lemma final_commands i cmd : EvSubmit i cmd ∈ wb_trace final → log_command cmd.
Proof.
  rewrite final_trace. intros Hin.
  repeat (apply elem_of_cons in Hin as [E|Hin]; [first [discriminate E|injection E as -> ->; by vm_compute]|]).
  by apply elem_of_nil in Hin.
Qed.

Lemma final_ready : ready_run (wb_trace final) start.
Proof. rewrite final_trace. decided. Qed.

Lemma final_clean : clean_run ∅ (wb_trace final) start.
Proof. rewrite final_trace. decided. Qed.

Lemma final_short : (N.of_nat (S (length (wb_trace final))) < event_limit)%N.
Proof. rewrite final_trace. by_compute. Qed.

Lemma final_put : wb_requests final !! 0 = Some (put_at final).
Proof. by_compute. Qed.

Lemma final_write : write_of (wr_request (put_at final)) = Some (WPut "x" "1").
Proof. by_compute. Qed.

Lemma final_answer : wr_state (put_at final) = Some (HDone (JSONResponse StatusOK answer)).
Proof. by_compute. Qed.

Lemma final_leader : cl_servers (wb_cluster final) !! "a" = Some leader ∧ IsLeader (sv_node leader) = true ∧
  currentTerm (sv_node leader) = 1%N ∧ wal (sv_node leader) = Some disk.
Proof. split_and!; by_compute. Qed.

Lemma restart_ready_a : ready_run (wb_trace final ++ [EvRestart "a"]) start.
Proof. rewrite final_trace. decided. Qed.

Lemma restart_clean_a : clean_run ∅ (wb_trace final ++ [EvRestart "a"]) start.
Proof. rewrite final_trace. decided. Qed.

Lemma answer_put : JSONResponse StatusOK answer = write_response (WPut "x" "1") 1 1.
Proof. by_compute. Qed.

Lemma answer_place index term :
  JSONResponse StatusOK answer = write_response (WPut "x" "1") index term → index = 1%N ∧ term = 1%N.
Proof.
  rewrite answer_put. intros [= Hi Ht]. split; apply (inj FormatUint); by symmetry.
Qed.

Lemma acknowledged_write_on_disk_witness :
  let e := mkEntry 1 1 (SerializePut "x" "1") in
  decided (wb_trace final) start !! 0 = Some e ∧
  ∃ s', on_restart leader = Some (Ret (s', [])) ∧ entries (log (sv_node s')) !! 1 = Some e.
Proof.
  pose proof (acknowledged_write_on_disk WebDemo.handlers DiskDemo.ids ltac:(decided) ltac:(decided) DiskDemo.ids_log_id
    (WebDemo.first ++ WebDemo.second) final 0 (put_at final) (WPut "x" "1") answer final_run final_commands final_short
    final_ready final_clean final_put final_write final_answer) as (m & term & Hd & Ha & Hdisk).
  apply answer_place in Ha as [Hm ->]. assert (m = 0) as -> by lia.
  destruct final_leader as (Hl & Hlead & Hterm & Hwal). split; [exact Hd|].
  apply (Hdisk "a" leader disk Hl Hlead); [rewrite Hterm; done|exact Hwal|exact restart_ready_a|exact restart_clean_a].
Defined.
End StackDemo.
