(* ===== verification/Config.v ===== *)
(** Configuration: src/internal/config/config.go, with the parts of Go's
    [flag] and [strings] packages that it uses.

    [Parse] takes the command line; [flag.Parse] ends the process on a
    malformed one, which is the result [Exit].  [ParseFromEnv] is the second
    entry point, for values that come from the environment. *)

From S2P Require Import Prelude Types Binary Text Json.

(** ** Strings *)

(** [unicode.IsSpace]. *)
Definition IsSpace (r : N) : bool :=
  ((0x09 <=? r)%N && (r <=? 0x0D)%N) ||
  bool_decide (r ∈ [0x20; 0x85; 0xA0; 0x1680; 0x2028; 0x2029; 0x202F; 0x205F; 0x3000]%N) ||
  ((0x2000 <=? r)%N && (r <=? 0x200A)%N).

Definition space_rune (c : option N * bytes) : bool :=
  match c.1 with Some r => IsSpace r | None => false end.

Fixpoint drop_spaces (cs : list (option N * bytes)) : list (option N * bytes) :=
  match cs with
  | c :: cs' => if space_rune c then drop_spaces cs' else cs
  | [] => []
  end.

(** [strings.TrimSpace]. *)
Definition TrimSpace (s : bytes) : bytes :=
  concat (snd <$> reverse (drop_spaces (reverse (drop_spaces (runes s))))).

Definition comma : Byte.byte := Byte.x2c.
Definition equals : Byte.byte := Byte.x3d.

(** [strings.SplitN(s, sep, 2)] for a one-byte separator: the part before its
    first occurrence, and the rest if there is one. *)
Fixpoint cut (sep : Byte.byte) (s : bytes) : bytes * option bytes :=
  match s with
  | [] => ([], None)
  | b :: s' =>
      if Byte.eqb b sep then ([], Some s')
      else let '(x, r) := cut sep s' in (b :: x, r)
  end.

(** [strings.Split(s, sep)]. *)
Fixpoint Split (sep : Byte.byte) (s : bytes) : list bytes :=
  match s with
  | [] => [[]]
  | b :: s' =>
      if Byte.eqb b sep then [] :: Split sep s'
      else match Split sep s' with
           | x :: l => (b :: x) :: l
           | [] => [[b]]
           end
  end.

Definition to_string (b : bytes) : string := String.string_of_list_byte b.

(** ** The configuration *)

Record Config : Type := mkConfig {
  cfg_NodeID : NodeID;
  cfg_Peers : list NodeID;
  cfg_HTTPAddr : string;
  cfg_GRPCAddr : string;
  cfg_DataDir : string;
  cfg_PeerGRPCAddrs : gmap NodeID string;
  cfg_PeerHTTPAddrs : gmap NodeID string;
}.

Inductive config_error : Type :=
| NodeIDRequired
| InvalidPair (p : string)
| InGRPCAddrs (e : config_error)
| InHTTPAddrs (e : config_error).

Fixpoint parse_pairs (pairs : list bytes) (m : gmap NodeID string) : gmap NodeID string + config_error :=
  match pairs with
  | [] => inl m
  | p :: pairs' =>
      let p := TrimSpace p in
      if bool_decide (p = []) then parse_pairs pairs' m
      else
        match cut equals p with
        | (_, None) => inr (InvalidPair (to_string p))
        | (k, Some v) => parse_pairs pairs' (<[to_string (TrimSpace k) := to_string (TrimSpace v)]> m)
        end
  end.

Definition parseAddrMap (s : bytes) : gmap NodeID string + config_error := parse_pairs (Split comma s) ∅.

(** The loop over the peer list. *)
Definition parse_peers (s : bytes) : list NodeID :=
  to_string <$> filter (λ p, p ≠ []) (TrimSpace <$> Split comma s).

(** The seven settings, as strings. *)
Record settings : Type := mkSettings {
  s_nodeID : string;
  s_peers : string;
  s_httpAddr : string;
  s_grpcAddr : string;
  s_dataDir : string;
  s_peerGRPC : string;
  s_peerHTTP : string;
}.

Definition addr_map (s : string) : gmap NodeID string + config_error :=
  if bool_decide (s = "") then inl ∅ else parseAddrMap (ascii_bytes s).

Definition peer_list (s : string) : list NodeID :=
  if bool_decide (s = "") then [] else parse_peers (ascii_bytes s).

Definition ParseFromEnv (s : settings) : Config + config_error :=
  match addr_map (s_peerGRPC s) with
  | inr e => inr e
  | inl grpc =>
      match addr_map (s_peerHTTP s) with
      | inr e => inr e
      | inl http =>
          inl (mkConfig (s_nodeID s) (peer_list (s_peers s)) (s_httpAddr s) (s_grpcAddr s) (s_dataDir s) grpc http)
      end
  end.

(** What [Parse] does after [flag.Parse]. *)
Definition parse_settings (s : settings) : Config + config_error :=
  if bool_decide (s_nodeID s = "") then inr NodeIDRequired
  else
    match addr_map (s_peerGRPC s) with
    | inr e => inr (InGRPCAddrs e)
    | inl grpc =>
        match addr_map (s_peerHTTP s) with
        | inr e => inr (InHTTPAddrs e)
        | inl http =>
            inl (mkConfig (s_nodeID s) (peer_list (s_peers s)) (s_httpAddr s) (s_grpcAddr s) (s_dataDir s) grpc http)
        end
    end.

(** ** The command line *)

Definition default_settings : settings := mkSettings "" "" ":8080" ":9090" "./data" "" "".

(** The flags that [Parse] defines. *)
Definition set_flag (name : bytes) (v : string) (s : settings) : option settings :=
  let 'mkSettings a b c d e f g := s in
  if bool_decide (name = ascii_bytes "node-id") then Some (mkSettings v b c d e f g)
  else if bool_decide (name = ascii_bytes "peers") then Some (mkSettings a v c d e f g)
  else if bool_decide (name = ascii_bytes "http-addr") then Some (mkSettings a b v d e f g)
  else if bool_decide (name = ascii_bytes "grpc-addr") then Some (mkSettings a b c v e f g)
  else if bool_decide (name = ascii_bytes "data-dir") then Some (mkSettings a b c d v f g)
  else if bool_decide (name = ascii_bytes "peer-grpc-addrs") then Some (mkSettings a b c d e v g)
  else if bool_decide (name = ascii_bytes "peer-http-addrs") then Some (mkSettings a b c d e f v)
  else None.

Inductive parsed : Type :=
| Parsed (r : Config + config_error)
| Exit (code : N).

(** The flag at the head of the arguments: its text after one or two dashes;
    [None] ends the flags. *)
Definition flag_text (arg : bytes) : option (option bytes) :=
  match arg with
  | Byte.x2d :: Byte.x2d :: [] => None
  | Byte.x2d :: Byte.x2d :: name | Byte.x2d :: name =>
      match name with
      | [] => None
      | b :: _ => if bool_decide (b ∈ [Byte.x2d; equals]) then Some None else Some (Some name)
      end
  | _ => None
  end.

(** Name and value of a flag text; an [=] at its start was excluded. *)
Definition flag_parts (text : bytes) : bytes * option bytes := cut equals text.

Fixpoint parse_flags (args : list string) (s : settings) : settings + N :=
  match args with
  | [] => inl s
  | arg :: args' =>
      match flag_text (ascii_bytes arg) with
      | None => inl s
      | Some None => inr 2%N
      | Some (Some text) =>
          let '(name, v) := flag_parts text in
          match v with
          | Some v =>
              match set_flag name (to_string v) s with
              | Some s' => parse_flags args' s'
              | None => inr (if bool_decide (name ∈ [ascii_bytes "h"; ascii_bytes "help"]) then 0%N else 2%N)
              end
          | None =>
              match set_flag name "" s with
              | None => inr (if bool_decide (name ∈ [ascii_bytes "h"; ascii_bytes "help"]) then 0%N else 2%N)
              | Some _ =>
                  match args' with
                  | [] => inr 2%N
                  | v :: args'' =>
                      match set_flag name v s with
                      | Some s' => parse_flags args'' s'
                      | None => inr 2%N
                      end
                  end
              end
          end
      end
  end.

Definition Parse (args : list string) : parsed :=
  match parse_flags args default_settings with
  | inr code => Exit code
  | inl s => Parsed (parse_settings s)
  end.

(** ** Reading what was written *)

Lemma Split_nonempty sep s : Split sep s ≠ [].
Proof. induction s as [|b s IH]; [done|]. simpl. destruct (Byte.eqb b sep); [done|]. by destruct (Split sep s). Qed.

Lemma eqb_neq b c : b ≠ c → Byte.eqb b c = false.
Proof. intros H. destruct (Byte.eqb b c) eqn:E; [by apply Byte.byte_dec_bl in E|done]. Qed.

Lemma Split_plain sep s : sep ∉ s → Split sep s = [s].
Proof.
  induction s as [|b s IH]; [done|]. intros [Hb Hs]%not_elem_of_cons. simpl.
  by rewrite eqb_neq, IH by done.
Qed.

Lemma Split_app sep s t : sep ∉ s → Split sep (s ++ sep :: t) = s :: Split sep t.
Proof.
  induction s as [|b s IH]; simpl; intros Hs.
  - by rewrite (Byte.byte_dec_lb (eq_refl sep)).
  - apply not_elem_of_cons in Hs as [Hb Hs]. by rewrite eqb_neq, IH by done.
Qed.

(** Splitting inverts joining. *)
Lemma Split_join sep l : l ≠ [] → Forall (λ s, sep ∉ s) l → Split sep (join sep l) = l.
Proof.
  intros Hne Hl. induction Hl as [|s l Hs Hl IH]; [done|]. destruct l as [|t l].
  - by apply Split_plain.
  - by rewrite join_cons, Split_app, IH.
Qed.

Lemma cut_app sep s t : sep ∉ s → cut sep (s ++ sep :: t) = (s, Some t).
Proof.
  induction s as [|b s IH]; simpl; intros Hs.
  - by rewrite (Byte.byte_dec_lb (eq_refl sep)).
  - apply not_elem_of_cons in Hs as [Hb Hs]. by rewrite eqb_neq, IH by done.
Qed.

(** *** Trimming *)

Lemma runes_concat s : concat (snd <$> runes s) = s.
Proof.
  induction s as [|b s E IH|s r k E IH] using runes_ind; [done|..].
  - rewrite runes_cons, E, fmap_cons. cbn [concat snd]. by rewrite IH.
  - rewrite (runes_step _ _ _ E), fmap_cons. cbn [concat snd]. by rewrite IH, take_drop.
Qed.

(** Neither the first nor the last rune is white space. *)
Definition trimmed (s : bytes) : Prop :=
  match head (runes s) with Some c => space_rune c = false | None => True end ∧
  match last (runes s) with Some c => space_rune c = false | None => True end.

Lemma drop_spaces_stop cs :
  match head cs with Some c => space_rune c = false | None => True end → drop_spaces cs = cs.
Proof. destruct cs as [|c cs]; [done|]. simpl. by intros ->. Qed.

Lemma TrimSpace_trimmed s : trimmed s → TrimSpace s = s.
Proof.
  intros [Hh Hl]. unfold TrimSpace. rewrite (drop_spaces_stop (runes s)) by done.
  rewrite drop_spaces_stop by by rewrite head_reverse. rewrite reverse_involutive. apply runes_concat.
Qed.

(** ASCII text without white space at its ends is trimmed. *)
Definition plain_byte (b : Byte.byte) : bool := (0x20 <? Byte.to_N b)%N && (Byte.to_N b <? 0x80)%N.

Lemma plain_rune b s : plain_byte b = true → runes (b :: s) = (Some (Byte.to_N b), [b]) :: runes s.
Proof. intros [_ H]%andb_true_iff. apply N.ltb_lt in H. by rewrite (runes_step _ _ _ (decode_ascii b s H)). Qed.

Lemma plain_not_space b : plain_byte b = true → space_rune (Some (Byte.to_N b), [b]) = false.
Proof. destruct b; vm_compute; done. Qed.

Lemma plain_runes s : Forall plain_byte s → runes s = (λ b, (Some (Byte.to_N b), [b])) <$> s.
Proof.
  induction 1 as [|b s Hb _ IH]; [done|]. rewrite plain_rune, IH by by apply Is_true_true. done.
Qed.

Lemma plain_trimmed s : Forall plain_byte s → trimmed s.
Proof.
  intros Hs. unfold trimmed. rewrite plain_runes by done.
  rewrite fmap_last.
  assert (Hp : ∀ b, b ∈ s → space_rune (Some (Byte.to_N b), [b]) = false).
  { intros b Hb. apply plain_not_space, Is_true_true. by eapply Forall_forall in Hs. }
  split.
  - destruct s as [|b s]; [done|]. apply Hp. left.
  - destruct (last s) as [b|] eqn:E; [|done]. apply Hp. apply last_Some in E as [l ->]. set_solver.
Qed.

(** ** Properties *)

(** The text of an address map, as it is passed on the command line. *)
Definition addr_pair (p : string * string) : bytes := ascii_bytes p.1 ++ equals :: ascii_bytes p.2.
Definition addr_text (l : list (string * string)) : bytes := join comma (addr_pair <$> l).

(** Ids and addresses of printable ASCII characters; no id contains [=], none
    of both a comma. *)
Definition plain_addr (p : string * string) : Prop :=
  Forall plain_byte (ascii_bytes p.1) ∧ Forall plain_byte (ascii_bytes p.2) ∧
  (equals ∉ ascii_bytes p.1) ∧ (comma ∉ ascii_bytes p.1) ∧ (comma ∉ ascii_bytes p.2).

Lemma to_string_bytes s : to_string (ascii_bytes s) = s.
Proof. apply String.string_of_list_byte_of_string. Qed.

Lemma plain_TrimSpace s : Forall plain_byte s → TrimSpace s = s.
Proof. intros H. by apply TrimSpace_trimmed, plain_trimmed. Qed.

Lemma app_cons_not_nil' {A} (l1 l2 : list A) x : l1 ++ x :: l2 ≠ [].
Proof. by destruct l1. Qed.

Lemma parse_pairs_text l m :
  Forall plain_addr l →
  parse_pairs (addr_pair <$> l) m = inl (foldl (λ m p, <[p.1 := p.2]> m) m l).
Proof.
  intros Hl. revert m. induction Hl as [|[k v] l (Hk & Hv & Heq & _) _ IH]; intros m; [done|].
  simpl in Hk, Hv, Heq. rewrite fmap_cons. cbn [parse_pairs].
  assert (Hp : Forall plain_byte (addr_pair (k, v))).
  { apply Forall_app. split; [done|]. by constructor. }
  rewrite (plain_TrimSpace _ Hp), bool_decide_eq_false_2 by apply app_cons_not_nil'.
  unfold addr_pair at 1. simpl. rewrite cut_app by done. rewrite !plain_TrimSpace, !to_string_bytes by done. apply IH.
Qed.

(** C37: Address maps are read back.  The text [id=addr,id=addr,...] of a list of
    addresses with plain ids parses without error, to the map in which the
    last address given for an id counts. *)
Theorem parseAddrMap_text l :
  l ≠ [] → Forall plain_addr l →
  parseAddrMap (addr_text l) = inl (foldl (λ m p, <[p.1 := p.2]> m) ∅ l).
Proof.
  intros Hne Hl. unfold parseAddrMap, addr_text. rewrite Split_join.
  - by apply parse_pairs_text.
  - by destruct l.
  - apply Forall_fmap. eapply Forall_impl; [exact Hl|]. intros [k v] (_ & _ & _ & Hk & Hv).
    unfold addr_pair, comma, equals in *. simpl in *. set_solver.
Qed.

(** The two ways to configure agree.  For the same seven settings with a
    node id, [Parse] (after the command line was read) and [ParseFromEnv] fail
    on the same ones and give the same configuration; without a node id only
    [Parse] fails. *)
Theorem parse_settings_equiv s :
  (s_nodeID s ≠ "" → ∀ cfg, parse_settings s = inl cfg ↔ ParseFromEnv s = inl cfg) ∧
  (s_nodeID s = "" → parse_settings s = inr NodeIDRequired) ∧
  (∀ cfg, ParseFromEnv s = inl cfg → cfg_NodeID cfg = s_nodeID s).
Proof.
  unfold parse_settings, ParseFromEnv. split_and!.
  - intros Hne cfg. rewrite bool_decide_eq_false_2 by done.
    destruct (addr_map (s_peerGRPC s)); [|done]. by destruct (addr_map (s_peerHTTP s)).
  - intros He. by rewrite bool_decide_eq_true_2.
  - intros cfg. destruct (addr_map (s_peerGRPC s)); [|done].
    destruct (addr_map (s_peerHTTP s)); [|done]. by intros [= <-].
Qed.

(** Peer lists are read back: a comma-separated list of plain, non-empty ids
    parses to exactly these ids, in their order. *)
Theorem peer_list_text l :
  l ≠ [] → Forall (λ p, p ≠ "" ∧ Forall plain_byte (ascii_bytes p) ∧ comma ∉ ascii_bytes p) l →
  parse_peers (join comma (ascii_bytes <$> l)) = l.
Proof.
  intros Hne Hl. unfold parse_peers. rewrite Split_join; [|by destruct l|].
  2: { apply Forall_fmap. eapply Forall_impl; [exact Hl|]. by intros p (_ & _ & ?). }
  assert (Ht : TrimSpace <$> (ascii_bytes <$> l) = ascii_bytes <$> l).
  { clear Hne. induction Hl as [|p l (_ & Hp & _) _ IH]; [done|]. rewrite !fmap_cons, IH.
    by rewrite plain_TrimSpace. }
  rewrite Ht, filter_all.
  - rewrite <- list_fmap_compose. clear. induction l as [|p l IH]; [done|]. rewrite fmap_cons, IH. f_equal.
    apply to_string_bytes.
  - apply Forall_fmap. eapply Forall_impl; [exact Hl|]. intros p (Hp & _). simpl. by destruct p.
Qed.

(** The settings as a command line. *)
Definition flag_args (s : settings) : list string :=
  ["--node-id"; s_nodeID s; "--peers"; s_peers s; "--http-addr"; s_httpAddr s; "--grpc-addr"; s_grpcAddr s;
   "--data-dir"; s_dataDir s; "--peer-grpc-addrs"; s_peerGRPC s; "--peer-http-addrs"; s_peerHTTP s].


(** Both notations, one or two dashes; an unknown flag or a missing value ends
    the process with status 2. *)
Example Parse_examples :
  Parse ["--node-id=n1"; "-peers"; "n2, n3"; "--peer-grpc-addrs"; "n2=h2:9090, n3 = h3:9090"; "rest"] =
    Parsed (inl (mkConfig "n1" ["n2"; "n3"] ":8080" ":9090" "./data"
                   (<["n3" := "h3:9090"]> (<["n2" := "h2:9090"]> ∅)) ∅)) ∧
  Parse [] = Parsed (inr NodeIDRequired) ∧
  Parse ["--node-id"; "n1"; "--peer-http-addrs=n2"] = Parsed (inr (InHTTPAddrs (InvalidPair "n2"))) ∧
  Parse ["--node"; "n1"] = Exit 2 ∧ Parse ["--node-id"] = Exit 2 ∧ Parse ["-h"] = Exit 0.
Proof. vm_compute. repeat split. Qed.

Module ConfigWitnesses.
Definition addrs : list (string * string) := [("n2", "h2:9090"); ("n3", "h3:9090")].

Lemma plain_addrs : Forall plain_addr addrs.
Proof. repeat constructor; vm_compute; try exact I; set_solver. Qed.

Lemma parseAddrMap_text_witness :
  parseAddrMap (addr_text addrs) = inl (foldl (λ m p, <[p.1 := p.2]> m) ∅ addrs).
Proof. apply (parseAddrMap_text addrs); [discriminate|exact plain_addrs]. Defined.

Lemma peer_list_text_witness : parse_peers (join comma (ascii_bytes <$> ["n2"; "n3"])) = ["n2"; "n3"].
Proof.
  apply (peer_list_text ["n2"; "n3"]); [discriminate|].
  repeat constructor; vm_compute; try exact I; try discriminate; set_solver.
Defined.


Definition env : settings := mkSettings "n1" "n2" ":8080" ":9090" "./data" "" "".

Lemma parse_settings_equiv_witness :
  parse_settings env = inl (mkConfig "n1" ["n2"] ":8080" ":9090" "./data" ∅ ∅) ∧
  ParseFromEnv env = inl (mkConfig "n1" ["n2"] ":8080" ":9090" "./data" ∅ ∅).
Proof. split; [vm_compute; reflexivity|]. apply (parse_settings_equiv env); vm_compute; [discriminate|reflexivity]. Defined.
End ConfigWitnesses.
