(* ===== verification/Transport.v ===== *)
(** RPC between the servers: src/internal/raft/transport.go (the interface),
    src/internal/transport/grpc.go (the client) and server.go (the service).

    gRPC and the code generated from raft.proto are not part of the sources
    that are modelled: creating a client connection, invoking a method on it and
    closing it are parameters, and so are the operations of a server ([GrpcLib],
    with their documented behaviour [GrpcSpec]).  What the transport relies on is that a call
    which returns a response returns the one that the peer's service computed
    from exactly this request ([serves_vote], [serves_append]); under it, a
    call through the transport is a call of the peer's handler, which is how
    Cluster.v treats messages. *)

From S2P Require Import Prelude Types RaftLog Storage Node.

(** ** The interface *)

Class Transport (T : Type) := {
  SendRequestVote : T → NodeID → RequestVoteArgs → T * (RequestVoteReply + string);
  SendAppendEntries : T → NodeID → AppendEntriesArgs → T * (AppendEntriesReply + string);
}.

(** ** The messages of raft.proto *)

Record VoteRequest : Type := mkVoteRequest {
  pb_v_Term : N; pb_v_CandidateId : string; pb_v_LastLogIndex : N; pb_v_LastLogTerm : N;
}.
Record VoteResponse : Type := mkVoteResponse { pb_vr_Term : N; pb_vr_VoteGranted : bool }.
Record LogEntryProto : Type := mkLogEntryProto { pb_e_Term : N; pb_e_Index : N; pb_e_Command : bytes }.
Record AppendRequest : Type := mkAppendRequest {
  pb_a_Term : N; pb_a_LeaderId : string; pb_a_PrevLogIndex : N; pb_a_PrevLogTerm : N;
  pb_a_Entries : list LogEntryProto; pb_a_LeaderCommit : N;
}.
Record AppendResponse : Type := mkAppendResponse {
  pb_ar_Term : N; pb_ar_Success : bool; pb_ar_ConflictTerm : N; pb_ar_ConflictIndex : N;
}.

(** *** Conversions of the client *)

Definition vote_request (args : RequestVoteArgs) : VoteRequest :=
  mkVoteRequest (rv_Term args) (rv_CandidateID args) (rv_LastLogIndex args) (rv_LastLogTerm args).

Definition vote_reply (resp : VoteResponse) : RequestVoteReply :=
  mkRequestVoteReply (pb_vr_Term resp) (pb_vr_VoteGranted resp).

Definition proto_entry (e : LogEntry) : LogEntryProto := mkLogEntryProto (e_Term e) (e_Index e) (e_Command e).

Definition append_request (args : AppendEntriesArgs) : AppendRequest :=
  mkAppendRequest (ae_Term args) (ae_LeaderID args) (ae_PrevLogIndex args) (ae_PrevLogTerm args)
    (proto_entry <$> ae_Entries args) (ae_LeaderCommit args).

Definition append_reply (resp : AppendResponse) : AppendEntriesReply :=
  mkAppendEntriesReply (pb_ar_Term resp) (pb_ar_Success resp) (pb_ar_ConflictTerm resp) (pb_ar_ConflictIndex resp).

(** *** Conversions of the service *)

Definition vote_args (req : VoteRequest) : RequestVoteArgs :=
  mkRequestVoteArgs (pb_v_Term req) (pb_v_CandidateId req) (pb_v_LastLogIndex req) (pb_v_LastLogTerm req).

Definition vote_response (reply : RequestVoteReply) : VoteResponse :=
  mkVoteResponse (rvr_Term reply) (rvr_VoteGranted reply).

Definition raft_entry (e : LogEntryProto) : LogEntry := mkEntry (pb_e_Term e) (pb_e_Index e) (pb_e_Command e).

Definition append_args (req : AppendRequest) : AppendEntriesArgs :=
  mkAppendEntriesArgs (pb_a_Term req) (pb_a_LeaderId req) (pb_a_PrevLogIndex req) (pb_a_PrevLogTerm req)
    (raft_entry <$> pb_a_Entries req) (pb_a_LeaderCommit req).

Definition append_response (reply : AppendEntriesReply) : AppendResponse :=
  mkAppendResponse (aer_Term reply) (aer_Success reply) (aer_ConflictTerm reply) (aer_ConflictIndex reply).

(** ** The service *)

Section service.
Context {W : Type} `{Storage W} `{Rand}.

Definition GRPCServer_RequestVote (req : VoteRequest) (n : Node W) : outcome (Node W * VoteResponse) :=
  '(n, reply) ← HandleRequestVote (vote_args req) n; Ret (n, vote_response reply).

Definition GRPCServer_AppendEntries (req : AppendRequest) (n : Node W) : outcome (Node W * AppendResponse) :=
  '(n, reply) ← HandleAppendEntries (append_args req) n; Ret (n, append_response reply).
End service.

(** ** The server *)

(** What server.go uses of google.golang.org/grpc: a server without services, the
    registration of a service, serving on a listener (an error when it does not
    get that far), the beginning of a graceful stop, and whether it takes new
    calls. *)
Class GrpcLib (S : Type) := {
  grpc_NewServer : S;
  grpc_RegisterService : S → S;
  grpc_Serve : S → S + string;
  grpc_GracefulStop : S → S;
  grpc_accepts : S → bool;
}.

(** What its documentation promises: a server takes no calls before it serves;
    once a stop has begun it takes no new calls, and serving fails. *)
Class GrpcSpec (S : Type) `{GrpcLib S} := {
  grpc_stopped : S → Prop;
  grpc_new_idle : grpc_accepts (grpc_RegisterService grpc_NewServer) = false;
  grpc_stop_begun s : grpc_stopped (grpc_GracefulStop s);
  grpc_stopped_idle s : grpc_stopped s → grpc_accepts s = false;
  grpc_stopped_serve s : grpc_stopped s → ∃ err, grpc_Serve s = inr err;
}.

(** [GRPCServer] is its server; the node it delegates to is an argument of the
    handlers. *)
Section grpc_server.
Context {S : Type} `{GrpcLib S}.

Definition NewGRPCServer : S := grpc_RegisterService grpc_NewServer.

(** [listen] is the error of [net.Listen], if any. *)
Definition GRPCServer_Serve (listen : option string) (s : S) : S * option string :=
  match listen with
  | Some err => (s, Some err)
  | None =>
      match grpc_Serve s with
      | inl s' => (s', None)
      | inr err => (s, Some err)
      end
  end.

(** [Stop] begins; it returns when no call is pending. *)
Definition GRPCServer_Stop (s : S) : S := grpc_GracefulStop s.
End grpc_server.

(** ** The client *)

Section client.
Context {conn : Type}.
Context (NewClient : string → nat → conn + string).
Context (InvokeVote : conn → VoteRequest → VoteResponse + string).
Context (InvokeAppend : conn → AppendRequest → AppendResponse + string).
Context (CloseConn : conn → option string).

Record GRPCTransport : Type := mkGRPCTransport {
  t_conns : gmap NodeID conn;
  t_addrs : gmap NodeID string;
}.

Definition NewGRPCTransport (addrs : gmap NodeID string) : GRPCTransport := mkGRPCTransport ∅ addrs.

(** The retry loop: up to [attempts] more calls, the first of them number
    [attempt]; the error of the last one counts. *)
Fixpoint connect (addr : string) (attempt attempts : nat) : conn + string :=
  match attempts with
  | O => inr ""
  | S attempts' =>
      match NewClient addr attempt with
      | inl c => inl c
      | inr err => match attempts' with O => inr err | _ => connect addr (S attempt) attempts' end
      end
  end.

Definition getConn (target : NodeID) (t : GRPCTransport) : GRPCTransport * (conn + string) :=
  match t_conns t !! target with
  | Some c => (t, inl c)
  | None =>
      match t_addrs t !! target with
      | None => (t, inr ("unknown peer: " +:+ target))
      | Some addr =>
          match connect addr 0 3 with
          | inr err => (t, inr ("connect to " +:+ target +:+ " (" +:+ addr +:+ "): " +:+ err))
          | inl c => (mkGRPCTransport (<[target := c]> (t_conns t)) (t_addrs t), inl c)
          end
      end
  end.

Definition grpc_SendRequestVote (t : GRPCTransport) (target : NodeID) (args : RequestVoteArgs)
    : GRPCTransport * (RequestVoteReply + string) :=
  match getConn target t with
  | (t, inr err) => (t, inr err)
  | (t, inl c) =>
      (t, match InvokeVote c (vote_request args) with
          | inr err => inr ("RequestVote to " +:+ target +:+ ": " +:+ err)
          | inl resp => inl (vote_reply resp)
          end)
  end.

Definition grpc_SendAppendEntries (t : GRPCTransport) (target : NodeID) (args : AppendEntriesArgs)
    : GRPCTransport * (AppendEntriesReply + string) :=
  match getConn target t with
  | (t, inr err) => (t, inr err)
  | (t, inl c) =>
      (t, match InvokeAppend c (append_request args) with
          | inr err => inr ("AppendEntries to " +:+ target +:+ ": " +:+ err)
          | inl resp => inl (append_reply resp)
          end)
  end.

(** [Close]; the connections are closed in an unspecified order, and the
    first error is reported. *)
Definition first_error (l : list (NodeID * conn)) : option string :=
  foldl (λ e p, match e, CloseConn p.2 with
                | None, Some err => Some ("close conn to " +:+ p.1 +:+ ": " +:+ err)
                | e, _ => e
                end) None l.

Definition GRPCTransport_Close (t : GRPCTransport) : GRPCTransport * option string :=
  (mkGRPCTransport ∅ (t_addrs t), first_error (map_to_list (t_conns t))).

#[local] Instance grpc_Transport : Transport GRPCTransport := {
  SendRequestVote := grpc_SendRequestVote;
  SendAppendEntries := grpc_SendAppendEntries;
}.

(** ** Properties *)

Lemma entries_roundtrip (es : list LogEntry) : raft_entry <$> (proto_entry <$> es) = es.
Proof. induction es as [|[t i c] es IH]; [done|]. by rewrite !fmap_cons, IH. Qed.

(** Nothing is lost in the conversions.  The service sees the arguments that
    the client was given, and the client the reply that the node gave; entries
    keep their order. *)
Theorem messages_roundtrip args reply aargs areply :
  vote_args (vote_request args) = args ∧ vote_reply (vote_response reply) = reply ∧
  append_args (append_request aargs) = aargs ∧ append_reply (append_response areply) = areply.
Proof.
  destruct args, reply, aargs, areply. split_and!; try done.
  unfold append_args, append_request. simpl. by rewrite entries_roundtrip.
Qed.

Lemma append_args_request args : append_args (append_request args) = args.
Proof. destruct args. unfold append_args, append_request. simpl. by rewrite entries_roundtrip. Qed.

Lemma connect_ok addr k n c : connect addr k n = inl c → ∃ i, NewClient addr i = inl c.
Proof.
  revert k. induction n as [|n IH]; intros k; simpl; [done|].
  destruct (NewClient addr k) as [c'|err] eqn:E; [intros [= <-]; eauto|]. destruct n; [done|apply IH].
Qed.

(** A connection in the cache was made for the peer's address. *)
Definition cache_ok (t : GRPCTransport) : Prop :=
  ∀ p c, t_conns t !! p = Some c → ∃ addr i, t_addrs t !! p = Some addr ∧ NewClient addr i = inl c.

(** C34: The connection cache.  Whatever is in it leads to the address of its
    peer; [getConn] keeps this, never changes or drops a cached connection,
    adds one only for the peer it was asked for, and returns the cached one from
    then on; an unknown peer and three failed attempts leave everything as
    it was. *)
Theorem getConn_cache target t t' r :
  cache_ok t → getConn target t = (t', r) →
  cache_ok t' ∧ t_conns t ⊆ t_conns t' ∧ t_addrs t' = t_addrs t ∧
  match r with
  | inl c => t_conns t' !! target = Some c ∧ getConn target t' = (t', inl c) ∧
             (∀ p, p ≠ target → t_conns t' !! p = t_conns t !! p)
  | inr _ => t' = t
  end.
Proof.
  intros Hc. unfold getConn. destruct (t_conns t !! target) as [c|] eqn:E.
  { intros [= <- <-]. split_and!; try done. by rewrite E. }
  destruct (t_addrs t !! target) as [addr|] eqn:Ea; [|by intros [= <- <-]].
  destruct (connect addr 0 3) as [c|err] eqn:Ec; [|by intros [= <- <-]].
  intros [= <- <-]. cbn [t_conns t_addrs]. apply connect_ok in Ec as [i Hi]. split_and!.
  - intros p c'. cbn [t_conns t_addrs]. rewrite lookup_insert. case_decide as Hp; [|apply Hc].
    subst p. intros [= <-]. eauto.
  - by apply insert_subseteq.
  - done.
  - apply lookup_insert_eq.
  - by rewrite lookup_insert_eq.
  - intros p Hp. by apply lookup_insert_ne.
Qed.

Section calls.
Context {W : Type} `{Storage W} `{Rand}.

(** What the transport relies on: a connection whose calls are answered by the
    service on the node [n], or fail. *)
Definition serves_vote (c : conn) (n : Node W) : Prop :=
  ∀ req resp, InvokeVote c req = inl resp → ∃ n', GRPCServer_RequestVote req n = Ret (n', resp).
Definition serves_append (c : conn) (n : Node W) : Prop :=
  ∀ req resp, InvokeAppend c req = inl resp → ∃ n', GRPCServer_AppendEntries req n = Ret (n', resp).

(** C33: A call through the transport is a call of the peer's handler.  If every
    connection to the peer's address is answered by the service on the node [n],
    then a reply that [SendRequestVote] or [SendAppendEntries] returns is the
    reply that the node's handler gives to exactly these arguments. *)
Theorem calls_reach_handler (t : GRPCTransport) target (n : Node W) addr :
  cache_ok t → t_addrs t !! target = Some addr →
  (∀ i c, NewClient addr i = inl c → serves_vote c n ∧ serves_append c n) →
  (∀ args t' reply, SendRequestVote t target args = (t', inl reply) →
     ∃ n', HandleRequestVote args n = Ret (n', reply)) ∧
  (∀ args t' reply, SendAppendEntries t target args = (t', inl reply) →
     ∃ n', HandleAppendEntries args n = Ret (n', reply)).
Proof.
  intros Hc Ha Hserve.
  assert (Hget : ∀ t' c, getConn target t = (t', inl c) → serves_vote c n ∧ serves_append c n).
  { intros t' c. unfold getConn. destruct (t_conns t !! target) as [c0|] eqn:E.
    - intros [= _ <-]. destruct (Hc _ _ E) as (addr' & i & Ha' & Hi). rewrite Ha in Ha'.
      injection Ha' as <-. by apply (Hserve i).
    - rewrite Ha. destruct (connect addr 0 3) as [c0|] eqn:Ec; [|done]. intros [= _ <-].
      apply connect_ok in Ec as [i Hi]. by apply (Hserve i). }
  split; intros args t' reply.
  - simpl. unfold grpc_SendRequestVote. destruct (getConn target t) as [t1 [c|]] eqn:E; [|done].
    destruct (InvokeVote c (vote_request args)) as [resp|] eqn:Ei; [|done]. intros [= _ <-].
    destruct (Hget _ _ eq_refl) as [Hv _]. destruct (Hv _ _ Ei) as [n' Hn]. unfold GRPCServer_RequestVote in Hn.
    apply bind_Ret in Hn as ([n1 r] & Hh & [= <- <-]). destruct args, r. eauto.
  - simpl. unfold grpc_SendAppendEntries. destruct (getConn target t) as [t1 [c|]] eqn:E; [|done].
    destruct (InvokeAppend c (append_request args)) as [resp|] eqn:Ei; [|done]. intros [= _ <-].
    destruct (Hget _ _ eq_refl) as [_ Hv]. destruct (Hv _ _ Ei) as [n' Hn]. unfold GRPCServer_AppendEntries in Hn.
    apply bind_Ret in Hn as ([n1 r] & Hh & [= <- <-]). rewrite append_args_request in Hh. destruct r. eauto.
Qed.
End calls.
End client.

(** ** A network in memory *)

Module TransportWitnesses.

Definition constant_rand : Rand.
Proof. refine {| Int63n _ _ := 0%Z |}. intros _ n. lia. Defined.

#[local] Existing Instance constant_rand.

(** A connection is the address it leads to; [b] answers at "h2". *)
Definition node_b : Node Journal := NewNode "b" ["a"; "c"] None 0.
Definition dial (addr : string) (attempt : nat) : string + string :=
  if attempt =? 0 then inr "refused" else inl addr.
Definition invoke_vote (c : string) (req : VoteRequest) : VoteResponse + string :=
  match GRPCServer_RequestVote req node_b with
  | Ret (_, resp) => if bool_decide (c = "h2") then inl resp else inr "unavailable"
  | Panic => inr "unavailable"
  end.
Definition invoke_append (c : string) (req : AppendRequest) : AppendResponse + string :=
  match GRPCServer_AppendEntries req node_b with
  | Ret (_, resp) => if bool_decide (c = "h2") then inl resp else inr "unavailable"
  | Panic => inr "unavailable"
  end.

Definition transport : GRPCTransport (conn := string) := NewGRPCTransport {["b" := "h2"]}.
Definition args : RequestVoteArgs := mkRequestVoteArgs 1 "a" 0 0.

Lemma serves i c : dial "h2" i = inl c → serves_vote invoke_vote c node_b ∧ serves_append invoke_append c node_b.
Proof.
  unfold dial. destruct (i =? 0); [done|]. intros [= <-]. split; intros req resp.
  - unfold invoke_vote. destruct (GRPCServer_RequestVote req node_b) as [[n r]|]; [|done]. intros [= <-]. eauto.
  - unfold invoke_append. destruct (GRPCServer_AppendEntries req node_b) as [[n r]|]; [|done]. intros [= <-]. eauto.
Qed.

Lemma cache_ok_new : cache_ok dial transport.
Proof. intros p c H. cbn in H. by rewrite lookup_empty in H. Qed.

Lemma calls_reach_handler_witness :
  ∃ n', HandleRequestVote args node_b = Ret (n', mkRequestVoteReply 1 true).
Proof.
  apply (proj1 (calls_reach_handler dial invoke_vote invoke_append transport "b" node_b "h2"
    cache_ok_new eq_refl serves) args (mkGRPCTransport {["b" := "h2"]} {["b" := "h2"]})).
  vm_compute. reflexivity.
Defined.

Lemma getConn_cache_witness :
  ∃ c, t_conns (mkGRPCTransport {["b" := "h2"]} {["b" := "h2"]}) !! ("b" : NodeID) = Some c ∧
       getConn dial "b" (mkGRPCTransport {["b" := "h2"]} {["b" := "h2"]}) =
         (mkGRPCTransport {["b" := "h2"]} {["b" := "h2"]}, inl c).
Proof.
  exists "h2".
  destruct (getConn_cache dial "b" transport (mkGRPCTransport {["b" := "h2"]} {["b" := "h2"]}) (inl "h2") cache_ok_new)
    as (_ & _ & _ & H1 & H2 & _); [vm_compute; reflexivity|]. by split.
Defined.

End TransportWitnesses.
