(* ===== verification/Main.v ===== *)
(** The server process: src/cmd/server/main.go.

    [boot] is what [main] does up to the point where all goroutines run: the
    configuration, the write-ahead log in the directory of the node, the
    transport, the node, its replay, the store and the HTTP handler.  An
    error ends the process with status 1; a panic during replay is [Panic].
    [shutdown] is the order of the calls after a signal when nothing else runs;
    Process.v has the goroutines of the process and [main] among them.  Logging
    and the metrics endpoint are not modelled. *)

From S2P Require Import Prelude Types RaftLog Storage Node Replication Cluster.
From S2P Require Import Binary Text Json Wal WalSpec KVStore Api Config Transport.

Record process : Type := mkProcess {
  p_config : Config;
  p_transport : GRPCTransport (conn := string);
  p_node : Node WAL;
  p_store : KVStore;
  p_handler : Handler;
}.

(** The end of [main] before all goroutines run: the process ends with a
    status, leaving the disk as it is then. *)
Inductive booted : Type :=
| Running (p : process)
| Exited (code : N) (disk : os).

Section main.
Context `{HRand : Rand}.

(** From the configuration on; [disk] is the directory of the write-ahead log
    and [seed] the state of the random source. *)
Definition boot_config (cfg : Config) (disk : os) (seed : nat) : outcome booted :=
  match NewWAL disk with
  | (disk, inr _) => Ret (Exited 1 disk)
  | (_, inl wal) =>
      let grpcTransport := NewGRPCTransport (cfg_PeerGRPCAddrs cfg) in
      let node := NewNode (cfg_NodeID cfg) (cfg_Peers cfg) (Some wal) seed in
      r ← Replay node;
      Ret match r with
          | inr _ => Exited 1 (w_os wal)
          | inl node =>
              Running (mkProcess cfg grpcTransport (Start node) NewKVStore
                         (NewHandler (cfg_PeerHTTPAddrs cfg)))
          end
  end.

Definition boot (args : list string) (disk : os) (seed : nat) : outcome booted :=
  match Parse args with
  | Exit code => Ret (Exited code disk)
  | Parsed (inr _) => Ret (Exited 1 disk)
  | Parsed (inl cfg) => boot_config cfg disk seed
  end.

(** After a signal: the servers are shut down, the node is stopped, and the
    deferred calls close the transport and the write-ahead log. *)
Definition shutdown (CloseConn : string → option string) (p : process) : outcome process :=
  node ← Stop (p_node p);
  let transport := (GRPCTransport_Close CloseConn (p_transport p)).1 in
  let node := match wal node with
              | Some w => node |> set_wal (Some (Close w).1)
              | None => node
              end in
  Ret (mkProcess (p_config p) transport node (p_store p) (p_handler p)).

(** The server of Cluster.v that a process runs: nothing is being applied, and
    its consumer has taken nothing. *)
Definition as_server (p : process) : server WAL := mkServer (p_node p) None [].

(** ** Properties *)

(** A restart in the cluster model is a start of the process.  For a server
    with a log on disk and a configuration with its id and peers, [on_restart]
    is [main] on the directory that the old process left: the same node, an
    empty store, the same panic, and no server where [main] exits. *)
Theorem restart_is_boot cfg (s : server WAL) w :
  wal (sv_node s) = Some w → cfg_NodeID cfg = id (sv_node s) → cfg_Peers cfg = peers (sv_node s) →
  on_restart s =
    match boot_config cfg (w_os w) (draws (sv_node s)) with
    | Panic => Some Panic
    | Ret (Exited _ _) => None
    | Ret (Running p) => Some (Ret (as_server p, []))
    end ∧
  (∀ p, boot_config cfg (w_os w) (draws (sv_node s)) = Ret (Running p) →
     p_store p = replica (sv_consumed (as_server p)) ∧ h_peerHTTPAddrs (p_handler p) = cfg_PeerHTTPAddrs cfg).
Proof.
  intros Hw Hid Hps. unfold on_restart, boot_config. rewrite Hw, Hid, Hps.
  change (wal_reopen w) with (NewWAL (w_os w)).2. destruct (NewWAL (w_os w)) as [d [w'|err]]; [|done]. cbn [snd].
  destruct (Replay _) as [[n|e]|]; cbn [mbind outcome_bind]; [|done|done].
  split; [done|]. by intros p [= <-].
Qed.

(** A first start in the cluster model is a start of the process on an empty
    directory: [main] runs, and its node is that of [init_server]. *)
Theorem init_is_boot cfg ids :
  cfg_Peers cfg = peers_of ids (cfg_NodeID cfg) →
  ∃ p, boot_config cfg (mkOS ∅ []) 0 = Ret (Running p) ∧
       as_server p = init_server ids (λ _, Some (log_state [[]] 0)) (cfg_NodeID cfg).
Proof.
  intros Hps. unfold boot_config. pose proof NewWAL_fresh as Hf.
  destruct (NewWAL (mkOS ∅ [])) as [d r]. cbn [snd] in Hf. subst r.
  unfold Replay. cbn [wal NewNode].
  change (wal_replay (log_state [[]] 0)) with (WAL_Replay (log_state [[]] 0)).
  rewrite WAL_Replay_ok by (done || by repeat constructor). cbn [mbind outcome_bind].
  eexists. split; [reflexivity|]. unfold as_server, init_server. cbn [p_node]. by rewrite Hps.
Qed.

(** Shutting down keeps the log.  A process whose node runs shuts down
    without panic; its node is stopped, no connection is left, and the files of
    its write-ahead log are as before, so that the next start reads the same. *)
Theorem shutdown_keeps_log C p w :
  stopped (p_node p) = false → wal (p_node p) = Some w →
  ∃ p' w', shutdown C p = Ret p' ∧ stopped (p_node p') = true ∧ t_conns (p_transport p') = ∅ ∧
    wal (p_node p') = Some w' ∧ os_dir (w_os w') = os_dir (w_os w) ∧
    (os_faults (w_os w) = [] → ∀ cfg seed, boot_config cfg (w_os w') seed = boot_config cfg (w_os w) seed).
Proof.
  intros Hs Hw. unfold shutdown, Stop. rewrite Hs. cbn [mbind outcome_bind].
  set (n := cancelContext _).
  assert (Hn : wal n = Some w ∧ stopped n = true).
  { unfold n, cancelContext, stopHeartbeatTimer, stopElectionTimer. repeat case_match; by simpl. }
  clearbody n. destruct Hn as [Hn Hst]. rewrite Hn.
  assert (Hd : os_dir (w_os (Close w).1) = os_dir (w_os w) ∧
               (os_faults (w_os w) = [] → w_os (Close w).1 = w_os w)).
  { unfold Close, close_handle, os_call. repeat case_match; simplify_eq; simpl; done. }
  destruct Hd as [Hd Hf]. eexists _, _. split; [reflexivity|]. split_and!; [done|done|done|done|].
  intros Hnf cfg seed. by rewrite Hf.
Qed.
End main.

Module MainWitnesses.
#[local] Existing Instance TransportWitnesses.constant_rand.

Definition cfg : Config := mkConfig "a" ["b"; "c"] ":8080" ":9090" "./data" ∅ ∅.
Definition w0 : WAL := (Persist (log_state [[]] 0) (VoteRecord "b" 3)).1.
Definition crashed : server WAL := mkServer (NewNode "a" ["b"; "c"] (Some w0) 0) None [].

Lemma restart_is_boot_witness :
  on_restart crashed =
    match boot_config cfg (w_os w0) 0 with
    | Panic => Some Panic
    | Ret (Exited _ _) => None
    | Ret (Running p) => Some (Ret (as_server p, []))
    end.
Proof. apply (restart_is_boot cfg crashed w0); reflexivity. Defined.

Lemma init_is_boot_witness :
  ∃ p, boot_config cfg (mkOS ∅ []) 0 = Ret (Running p) ∧
       as_server p = init_server ["a"; "b"; "c"] (λ _, Some (log_state [[]] 0)) "a".
Proof. apply (init_is_boot cfg ["a"; "b"; "c"]). reflexivity. Defined.

Definition proc : process :=
  mkProcess cfg (NewGRPCTransport ∅) (Start (NewNode "a" ["b"; "c"] (Some w0) 0)) NewKVStore (mkHandler ∅).

Lemma shutdown_keeps_log_witness :
  ∃ p' w', shutdown (λ _, None) proc = Ret p' ∧ stopped (p_node p') = true ∧ wal (p_node p') = Some w'.
Proof.
  destruct (shutdown_keeps_log (λ _, None) proc w0) as (p' & w' & H1 & H2 & _ & H3 & _); [reflexivity..|].
  by exists p', w'.
Defined.
End MainWitnesses.
