(* ===== verification/Process.v ===== *)
(** The running server process: the goroutines that main.go starts, and how the
    process ends.

    A [proc] is the state of a process after start-up: the node with its event
    loop (RunLoop.v) and its apply loop, the consumer of [applyCh] with the
    store, the HTTP server with its requests (Http.v), the gRPC server with its
    calls, and the place where [main] is.  A [proc_event] is one step of one of
    them; [main] waits for a signal and then stops the others one by one.  The
    theorems show that the order of the stops is right: no request or call is
    at work when the node is stopped, and [main] always gets to its end. *)

From S2P Require Import Prelude Types RaftLog Storage Node Replication Cluster RunLoop.
From S2P Require Import Binary Text Json Wal WalSpec KVStore Api Http Config Transport Main.

(** [applyLoop]: waiting for its tick, sending entries, or ended. *)
Inductive apply_loop : Type :=
| ATick
| ASend (es : list LogEntry) (newLastApplied : LogIndex)
| AEnded.

(** The consumer goroutine of [main]: at its [select], with an entry that it has
    taken from [applyCh] and not yet applied, or ended. *)
Inductive consumer : Type :=
| CSelect
| CApply (e : LogEntry)
| CEnded.

(** [http.Server]: before [ListenAndServe], serving, failed to listen, or shut
    down. *)
Inductive http_status : Type := HttpNew | HttpServing | HttpFailed | HttpShutdown.

(** [NewServer]; its timeouts are not modelled. *)
Definition NewServer : http_status := HttpNew.

(** A call of a peer. *)
Inductive rpc : Type :=
| RpcVote (req : VoteRequest)
| RpcAppend (req : AppendRequest).

(** Where [main] is: waiting for a signal, before [cancel], before and in
    [httpServer.Shutdown], before and in [grpcServer.Stop], before [node.Stop],
    before the deferred calls of [cancel], [grpcTransport.Close] and
    [wal.Close], and at its end. *)
Inductive main_point : Type :=
| MSignal | MCancel | MShutdown | MShutdownWait | MGrpcStop | MGrpcWait | MNodeStop
| MDeferCancel | MDeferTransport | MDeferWal | MEnd.

#[global] Instance http_status_eq_decision : EqDecision http_status.
Proof. solve_decision. Defined.
#[global] Instance main_point_eq_decision : EqDecision main_point.
Proof. solve_decision. Defined.

(** How many steps [main] is from its end. *)
Definition main_rank (m : main_point) : nat :=
  match m with
  | MSignal => 10 | MCancel => 9 | MShutdown => 8 | MShutdownWait => 7 | MGrpcStop => 6 | MGrpcWait => 5
  | MNodeStop => 4 | MDeferCancel => 3 | MDeferTransport => 2 | MDeferWal => 1 | MEnd => 0
  end.

(** ** Only [node.Stop] stops the node *)

Section stopped.
Context `{HRand : Rand}.
Implicit Types n : Node WAL.

Lemma view_stopped n n' : view n' = view n → stopped n' = stopped n.
Proof. unfold view. intros E. by injection E. Qed.

Lemma persist_stopped r n : stopped (persist r n) = stopped n.
Proof. apply view_stopped, persist_view_rl. Qed.

Lemma becomeFollower_stopped t n : stopped (becomeFollowerLocked t n) = stopped n.
Proof.
  unfold becomeFollowerLocked. set (n1 := if (_ <? _)%N then _ else _).
  assert (Hn1 : stopped n1 = stopped n) by (unfold n1; case_match; [by rewrite persist_stopped|done]).
  clearbody n1. cbv zeta. case_bool_decide; [|done]. rewrite <- Hn1. unfold cancelReplication, cancelContext.
  simpl. by destruct (replicateCancel n1).
Qed.

Lemma reply_stopped n n' t : view n' = view n ∨ n' = becomeFollowerLocked t n → stopped n' = stopped n.
Proof. intros [?| ->]; [by apply view_stopped|apply becomeFollower_stopped]. Qed.

Lemma handleVoteReply_stopped p term reply n : stopped (handleVoteReply p term reply n) = stopped n.
Proof.
  unfold handleVoteReply. destruct (_ || _); [done|]. destruct (_ <? _)%N; [apply becomeFollower_stopped|].
  destruct (rvr_VoteGranted reply); [|done]. destruct (map_get _ _ p); [done|]. case_match; [|done].
  unfold becomeLeaderLocked, stopElectionTimer. simpl. by destruct (electionTimer n).
Qed.

Lemma HandleRequestVote_stopped args n n' reply :
  HandleRequestVote args n = Ret (n', reply) → stopped n' = stopped n.
Proof.
  unfold HandleRequestVote. set (n1 := if (currentTerm n <? rv_Term args)%N then _ else _).
  assert (Hn1 : stopped n1 = stopped n) by (unfold n1; case_match; [apply becomeFollower_stopped|done]).
  clearbody n1. destruct (rv_Term args <? currentTerm n1)%N; [by intros [<- _]%Ret_pair_inj|].
  destruct (isLogUpToDate n1 _ _) as [ok|]; simpl; [|done].
  destruct (_ && ok); intros [<- _]%Ret_pair_inj; [|done]. by rewrite persist_stopped.
Qed.

Lemma HandleAppendEntries_stopped args n n' reply :
  HandleAppendEntries args n = Ret (n', reply) → stopped n' = stopped n.
Proof.
  unfold HandleAppendEntries. destruct (ae_Term args <? currentTerm n)%N; [by intros [<- _]%Ret_pair_inj|].
  set (n1 := if (currentTerm n <? ae_Term args)%N then _ else _).
  assert (Hn1 : stopped n1 = stopped n) by (unfold n1; case_match; [apply becomeFollower_stopped|done]).
  clearbody n1. set (n2 := if bool_decide _ then _ else _).
  assert (Hn2 : stopped n2 = stopped n).
  { rewrite <- Hn1. unfold n2, cancelReplication, cancelContext. case_bool_decide; [done|]. simpl.
    by destruct (replicateCancel n1). }
  clearbody n2. set (n3 := resetElectionTimerLocked _). assert (Hn3 : stopped n3 = stopped n) by done. clearbody n3.
  destruct (check_prev args n3) as [[[ct ci]|]|]; simpl; [by intros [<- _]%Ret_pair_inj| |done].
  destruct (append_entries_loop _ _ _ n3) as [n4|] eqn:El; simpl; [|done].
  intros [<- _]%Ret_pair_inj. apply append_loop_view, view_stopped in El.
  rewrite <- Hn3, <- El. unfold follower_commit. by case_match.
Qed.

Lemma startElection_stopped n n' args : startElection n = Ret (n', args) → stopped n' = stopped n.
Proof.
  unfold startElection. cbv zeta. intros (t & _ & He)%bind_Ret. apply Ret_pair_inj in He as [<- _].
  set (n1 := set_votesReceived _ _). transitivity (stopped n1); [|done]. clearbody n1.
  set (n2 := persist (VoteRecord _ _) _). transitivity (stopped n2); [done|]. unfold n2. by rewrite !persist_stopped.
Qed.

Lemma receive_stopped ch n n' : receive ch n = Some n' → stopped n' = stopped n.
Proof.
  unfold receive. destruct ch as [|k]; [destruct (electionTimer n) as [[]|]|destruct (heartbeatTimer n !! k) as [[]|]];
    try done; by intros [= <-].
Qed.

Lemma rl_exec_stopped ev n l n' l' o :
  rl_exec ev (n, l) = Some (Ret ((n', l'), o)) → ev ≠ RLStop → stopped n' = stopped n.
Proof.
  intros Hx Hne. destruct ev; cbn [rl_exec] in Hx; try done;
    try (apply keep_Ret in Hx as (n1 & Hr & [= -> _] & _)).
  - destruct l; try done. by injection Hx as <- _ _.
  - destruct l as [|ch| | | |]; try done. destruct (receive ch n) as [n1|] eqn:Hrec; [|done]. injection Hx as <- _ _.
    by eapply receive_stopped.
  - destruct l; try done. destruct (stopped n) eqn:E; [|done]. by injection Hx as <- _ _.
  - destruct l; try done. by injection Hx as <- _ _.
  - destruct l as [| | |role| |]; try done.
    assert (Hse : role ≠ Leader → ∃ args, startElection n = Ret (n', args)).
    { intros Hr. destruct role; [| |done]; destruct (startElection n) as [[n1 args]|]; try done;
        injection Hx as <- _ _; by exists args. }
    destruct role; [| |by injection Hx as <- _ _]; destruct Hse as [args Hse]; try done; by eapply startElection_stopped.
  - destruct l; try done. by injection Hx as <- _ _.
  - unfold expire_election in Hx. destruct (electionTimer n) as [[]|]; try done.
    by apply keep_Ret in Hx as (n1 & [= <-] & [= -> _] & _).
  - unfold expire_heartbeat in Hx. destruct (heartbeatTimer n !! k) as [[]|]; try done.
    by apply keep_Ret in Hx as (n1 & [= <-] & [= -> _] & _).
  - apply fst_Ret in Hr as [r Hr]. by eapply HandleRequestVote_stopped.
  - injection Hr as <-. apply handleVoteReply_stopped.
  - apply fst_Ret in Hr as [r Hr]. by eapply HandleAppendEntries_stopped.
  - eapply reply_stopped, heartbeat_reply_cases, Hr.
  - apply fst_Ret in Hr as [b Hr]. eapply reply_stopped, replicate_reply_cases, Hr.
  - by apply bind_Ret in Hr as (args & _ & [= <-]).
  - by apply bind_Ret in Hr as (act & _ & [= <-]).
  - injection Hr as <-. apply view_stopped, submit_view.
  - by injection Hr as <-.
Qed.

Lemma hstep_stopped h n store r st n' st' : hstep h n store r st = Some (n', st') → stopped n' = stopped n.
Proof.
  destruct st as [| |x| | |]; cbn [hstep]; try (by intros [= <- _]).
  pose proof (submit_view (write_command x) n) as Hv. destruct (submit_append _ _) as [n1 res].
  intros [= <- _]. by apply view_stopped.
Qed.

Definition serve_rpc (m : rpc) (n : Node WAL) : outcome (Node WAL) :=
  match m with
  | RpcVote req => fst <$> GRPCServer_RequestVote req n
  | RpcAppend req => fst <$> GRPCServer_AppendEntries req n
  end.

Lemma serve_rpc_stopped m n n' : serve_rpc m n = Ret n' → stopped n' = stopped n.
Proof.
  destruct m as [req|req]; intros [r Hr]%fst_Ret; apply bind_Ret in Hr as ([n1 reply] & Hr & [= <- _]);
    [by eapply HandleRequestVote_stopped|by eapply HandleAppendEntries_stopped].
Qed.
End stopped.
Section process.
Context `{HRand : Rand} {S : Type} `{HGrpc : GrpcLib S}.
Context (NewClient : string → nat → string + string) (CloseConn : string → option string).

Record proc : Type := mkProc {
  pr_node : Node WAL;
  pr_loop : loop;
  pr_apply : apply_loop;
  pr_ctx_done : bool;
  pr_consumer : consumer;
  pr_store : KVStore;
  pr_handler : Handler;
  pr_http : http_status;
  pr_requests : list (request * option hstate);
  pr_grpc : S;
  pr_grpc_served : bool;
  pr_rpcs : list rpc;
  pr_transport : GRPCTransport (conn := string);
  pr_main : main_point;
}.

Implicit Types p : proc.

(** [main] after all goroutines were started. *)
Definition start_proc (x : process) : proc :=
  mkProc (p_node x) AtTop ATick false CSelect (p_store x) (p_handler x) NewServer [] NewGRPCServer false []
    (p_transport x) MSignal.

Definition on_node n p := mkProc n (pr_loop p) (pr_apply p) (pr_ctx_done p) (pr_consumer p) (pr_store p) (pr_handler p)
  (pr_http p) (pr_requests p) (pr_grpc p) (pr_grpc_served p) (pr_rpcs p) (pr_transport p) (pr_main p).
Definition on_loop l p := mkProc (pr_node p) l (pr_apply p) (pr_ctx_done p) (pr_consumer p) (pr_store p) (pr_handler p)
  (pr_http p) (pr_requests p) (pr_grpc p) (pr_grpc_served p) (pr_rpcs p) (pr_transport p) (pr_main p).
Definition on_apply a p := mkProc (pr_node p) (pr_loop p) a (pr_ctx_done p) (pr_consumer p) (pr_store p) (pr_handler p)
  (pr_http p) (pr_requests p) (pr_grpc p) (pr_grpc_served p) (pr_rpcs p) (pr_transport p) (pr_main p).
Definition on_ctx p := mkProc (pr_node p) (pr_loop p) (pr_apply p) true (pr_consumer p) (pr_store p) (pr_handler p)
  (pr_http p) (pr_requests p) (pr_grpc p) (pr_grpc_served p) (pr_rpcs p) (pr_transport p) (pr_main p).
Definition on_consumer b s p := mkProc (pr_node p) (pr_loop p) (pr_apply p) (pr_ctx_done p) b s (pr_handler p)
  (pr_http p) (pr_requests p) (pr_grpc p) (pr_grpc_served p) (pr_rpcs p) (pr_transport p) (pr_main p).
Definition on_http h p := mkProc (pr_node p) (pr_loop p) (pr_apply p) (pr_ctx_done p) (pr_consumer p) (pr_store p) (pr_handler p)
  h (pr_requests p) (pr_grpc p) (pr_grpc_served p) (pr_rpcs p) (pr_transport p) (pr_main p).
Definition on_requests rs p := mkProc (pr_node p) (pr_loop p) (pr_apply p) (pr_ctx_done p) (pr_consumer p) (pr_store p) (pr_handler p)
  (pr_http p) rs (pr_grpc p) (pr_grpc_served p) (pr_rpcs p) (pr_transport p) (pr_main p).
Definition on_grpc g b p := mkProc (pr_node p) (pr_loop p) (pr_apply p) (pr_ctx_done p) (pr_consumer p) (pr_store p) (pr_handler p)
  (pr_http p) (pr_requests p) g b (pr_rpcs p) (pr_transport p) (pr_main p).
Definition on_rpcs rs p := mkProc (pr_node p) (pr_loop p) (pr_apply p) (pr_ctx_done p) (pr_consumer p) (pr_store p) (pr_handler p)
  (pr_http p) (pr_requests p) (pr_grpc p) (pr_grpc_served p) rs (pr_transport p) (pr_main p).
Definition on_transport t p := mkProc (pr_node p) (pr_loop p) (pr_apply p) (pr_ctx_done p) (pr_consumer p) (pr_store p) (pr_handler p)
  (pr_http p) (pr_requests p) (pr_grpc p) (pr_grpc_served p) (pr_rpcs p) t (pr_main p).
Definition on_main m p := mkProc (pr_node p) (pr_loop p) (pr_apply p) (pr_ctx_done p) (pr_consumer p) (pr_store p) (pr_handler p)
  (pr_http p) (pr_requests p) (pr_grpc p) (pr_grpc_served p) (pr_rpcs p) (pr_transport p) m.

(** A request that has not been answered and whose connection is open. *)
Definition open_request (x : request * option hstate) : bool :=
  match x.2 with None | Some (HDone _) => false | _ => true end.

Definition idle (p : proc) : bool := negb (existsb open_request (pr_requests p)).

(** The critical sections that the event loop, the timers and the goroutines
    that wait for replies run. *)
Definition loop_event (ev : rl_event) : bool :=
  match ev with
  | RLVoteRequest _ | RLAppendRequest _ | RLSubmit _ | RLApplied _ | RLStop => false
  | _ => true
  end.

Inductive proc_event : Type :=
| PLoop (ev : rl_event)
| PApplyTick | PApplySend | PApplyDone | PApplyStop
| PConsume | PConsumeApply | PConsumeStop
| PListen (err : option string) | PConnect (r : request) | PHandle (k : nat) | PDeadline (k : nat) | PDisconnect (k : nat)
| PGrpcListen (err : option string) | PCall (m : rpc) | PServe (k : nat)
| PDial (target : NodeID)
| PKill
| PMain.

Definition exec_loop (ev : rl_event) p : option (outcome proc) :=
  if loop_event ev then
    match rl_exec ev (pr_node p, pr_loop p) with
    | Some r => Some ('((n, l), _) ← r; Ret (p |> on_node n |> on_loop l))
    | None => None
    end
  else None.

(** [applyLoop]: the tick and the first critical section, one entry, the last
    critical section, and the two places where it looks at [stopCh]. *)
Definition apply_tick p : option (outcome proc) :=
  match pr_apply p with
  | ATick =>
      Some (r ← apply_collect (pr_node p);
            Ret match r with Some (es, new) => p |> on_apply (ASend es new) | None => p end)
  | _ => None
  end.

Definition apply_one p : option (outcome proc) :=
  match pr_apply p with
  | ASend (e :: es) new =>
      match apply_send e (pr_node p) with
      | Some n => Some (Ret (p |> on_node n |> on_apply (ASend es new)))
      | None => None
      end
  | _ => None
  end.

Definition apply_done p : option (outcome proc) :=
  match pr_apply p with
  | ASend [] new => Some (Ret (p |> on_node (apply_finish new (pr_node p)) |> on_apply ATick))
  | _ => None
  end.

Definition apply_stop p : option (outcome proc) :=
  if stopped (pr_node p) then
    match pr_apply p with
    | ATick | ASend (_ :: _) _ => Some (Ret (p |> on_apply AEnded))
    | _ => None
    end
  else None.

(** The consumer: it takes an entry, applies it, and ends when its context is
    done; when both channels are ready, [select] may take either. *)
Definition consume p : option (outcome proc) :=
  match pr_consumer p, applyCh (pr_node p) with
  | CSelect, e :: es => Some (Ret (p |> on_node (set_applyCh es (pr_node p)) |> on_consumer (CApply e) (pr_store p)))
  | _, _ => None
  end.

Definition consume_apply p : option (outcome proc) :=
  match pr_consumer p with
  | CApply e => Some (Ret (p |> on_consumer CSelect (consume_entry (pr_store p) e)))
  | _ => None
  end.

Definition consume_stop p : option (outcome proc) :=
  match pr_consumer p with
  | CSelect => if pr_ctx_done p then Some (Ret (p |> on_consumer CEnded (pr_store p))) else None
  | _ => None
  end.

(** [httpServer.ListenAndServe]: an error is only logged. *)
Definition listen (err : option string) p : option (outcome proc) :=
  match pr_http p with
  | HttpNew => Some (Ret (p |> on_http match err with Some _ => HttpFailed | None => HttpServing end))
  | _ => None
  end.

Definition connect_client (r : request) p : option (outcome proc) :=
  match pr_http p with
  | HttpServing => Some (Ret (p |> on_requests (pr_requests p ++ [(r, Some HStart)])))
  | _ => None
  end.

Definition set_request (k : nat) (r : request) (st : option hstate) p : proc :=
  p |> on_requests (<[k := (r, st)]> (pr_requests p)).

Definition handle (k : nat) p : option (outcome proc) :=
  match pr_requests p !! k with
  | Some (r, Some st) =>
      match hstep (pr_handler p) (pr_node p) (pr_store p) r st with
      | Some (n, st') => Some (Ret (p |> on_node n |> set_request k r (Some st')))
      | None => None
      end
  | _ => None
  end.

Definition deadline (k : nat) p : option (outcome proc) :=
  match pr_requests p !! k with
  | Some (r, Some st) =>
      match htimeout st with
      | Some st' => Some (Ret (p |> set_request k r (Some st')))
      | None => None
      end
  | _ => None
  end.

(** A connection is closed before its request has come. *)
Definition disconnect (k : nat) p : option (outcome proc) :=
  match pr_requests p !! k with
  | Some (r, Some HStart) => Some (Ret (p |> set_request k r None))
  | _ => None
  end.

(** [grpcServer.Serve] in its goroutine: an error is only logged. *)
Definition grpc_listen (err : option string) p : option (outcome proc) :=
  if pr_grpc_served p then None
  else Some (Ret (p |> on_grpc (GRPCServer_Serve err (pr_grpc p)).1 true)).

Definition call (m : rpc) p : option (outcome proc) :=
  if grpc_accepts (pr_grpc p) then Some (Ret (p |> on_rpcs (pr_rpcs p ++ [m]))) else None.

Definition serve_call (k : nat) p : option (outcome proc) :=
  match pr_rpcs p !! k with
  | Some m => Some (n ← serve_rpc m (pr_node p); Ret (p |> on_node n |> on_rpcs (delete k (pr_rpcs p))))
  | None => None
  end.

(** [main] from the signal on: [Shutdown] returns when all requests are done,
    [Stop] of the gRPC server when no call is pending; the deferred calls run in
    the reverse order. *)
Definition main_step p : option (outcome proc) :=
  match pr_main p with
  | MSignal => None
  | MCancel => Some (Ret (p |> on_ctx |> on_main MShutdown))
  | MShutdown => Some (Ret (p |> on_http HttpShutdown |> on_main MShutdownWait))
  | MShutdownWait => if idle p then Some (Ret (p |> on_main MGrpcStop)) else None
  | MGrpcStop => Some (Ret (p |> on_grpc (GRPCServer_Stop (pr_grpc p)) (pr_grpc_served p) |> on_main MGrpcWait))
  | MGrpcWait => match pr_rpcs p with [] => Some (Ret (p |> on_main MNodeStop)) | _ => None end
  | MNodeStop => Some (n ← Stop (pr_node p); Ret (p |> on_node n |> on_main MDeferCancel))
  | MDeferCancel => Some (Ret (p |> on_ctx |> on_main MDeferTransport))
  | MDeferTransport =>
      Some (Ret (p |> on_transport (GRPCTransport_Close CloseConn (pr_transport p)).1 |> on_main MDeferWal))
  | MDeferWal =>
      Some (Ret (p |> on_node match wal (pr_node p) with
                              | Some w => set_wal (Some (Close w).1) (pr_node p)
                              | None => pr_node p
                              end |> on_main MEnd))
  | MEnd => None
  end.

(** A step of the process; nothing happens after the end of [main]. *)
Definition proc_exec (ev : proc_event) p : option (outcome proc) :=
  if bool_decide (pr_main p = MEnd) then None
  else
    match ev with
    | PLoop ev => exec_loop ev p
    | PApplyTick => apply_tick p
    | PApplySend => apply_one p
    | PApplyDone => apply_done p
    | PApplyStop => apply_stop p
    | PConsume => consume p
    | PConsumeApply => consume_apply p
    | PConsumeStop => consume_stop p
    | PListen err => listen err p
    | PConnect r => connect_client r p
    | PHandle k => handle k p
    | PDeadline k => deadline k p
    | PDisconnect k => disconnect k p
    | PGrpcListen err => grpc_listen err p
    | PCall m => call m p
    | PServe k => serve_call k p
    | PDial target => Some (Ret (p |> on_transport (getConn NewClient target (pr_transport p)).1))
    | PKill => match pr_main p with MSignal => Some (Ret (p |> on_main MCancel)) | _ => None end
    | PMain => main_step p
    end.

Fixpoint proc_run (evs : list proc_event) p : option (outcome proc) :=
  match evs with
  | [] => Some (Ret p)
  | ev :: evs' =>
      match proc_exec ev p with
      | Some (Ret p') => proc_run evs' p'
      | r => r
      end
  end.

(** ** The order of the stops *)

Context `{HSpec : !GrpcSpec S}.

Abbreviation rank p := (main_rank (pr_main p)).

Record proc_inv p : Prop := {
  pi_http : rank p <= 7 → pr_http p = HttpShutdown;
  pi_idle : rank p <= 6 → idle p = true;
  pi_grpc : rank p <= 5 → grpc_stopped (pr_grpc p);
  pi_rpcs : rank p <= 4 → pr_rpcs p = [];
  pi_stopped : stopped (pr_node p) = bool_decide (rank p <= 3);
}.

(** What the invariant is about. *)
Definition front p : main_point * http_status * bool * S * list rpc * bool :=
  (pr_main p, pr_http p, idle p, pr_grpc p, pr_rpcs p, stopped (pr_node p)).

Lemma proc_inv_front p p' : front p' = front p → proc_inv p → proc_inv p'.
Proof.
  unfold front. intros E [H1 H2 H3 H4 H5]. injection E as Em Eh Ei Eg Er Es.
  constructor; rewrite ?Em, ?Eh, ?Ei, ?Eg, ?Er, ?Es; done.
Qed.

Lemma proc_inv_start x : stopped (p_node x) = false → proc_inv (start_proc x).
Proof. intros Hs. constructor; simpl; (lia || done). Qed.

(** An idle server handles nothing. *)
Lemma idle_request p k r st : idle p = true → pr_requests p !! k = Some (r, Some st) → ∃ resp, st = HDone resp.
Proof.
  unfold idle. intros Hi%negb_true_iff Hk. destruct (open_request (r, Some st)) eqn:E; [|destruct st; naive_solver].
  exfalso. assert (existsb open_request (pr_requests p) = true); [|congruence].
  apply existsb_exists. exists (r, Some st). split; [|done]. by apply list_elem_of_In, list_elem_of_lookup_2 with k.
Qed.

(** While requests are handled, [main] has not got past [Shutdown]. *)
Lemma busy_inv p p' :
  (idle p = true → False) → (pr_main p', pr_http p', pr_grpc p', pr_rpcs p', stopped (pr_node p')) =
    (pr_main p, pr_http p, pr_grpc p, pr_rpcs p, stopped (pr_node p)) → proc_inv p → proc_inv p'.
Proof.
  intros Hb E [H1 H2 H3 H4 H5]. injection E as Em Eh Eg Er Es.
  constructor; rewrite ?Em, ?Eh, ?Eg, ?Er, ?Es; try done. intros Hr. destruct (Hb (H2 Hr)).
Qed.

Lemma open_busy p k r st :
  pr_requests p !! k = Some (r, Some st) → (∀ resp, st ≠ HDone resp) → idle p = true → False.
Proof. intros Hk Hne Hi. destruct (idle_request p k r st Hi Hk) as [resp ->]. by apply (Hne resp). Qed.

Ltac stage H1 H2 H3 H4 H5 :=
  constructor; simpl; intros;
  first [lia | apply H1; lia | apply H2; lia | apply H3; lia | apply H4; lia | by rewrite H5 | done | idtac].

Lemma main_inv p p' : main_step p = Some (Ret p') → proc_inv p → proc_inv p'.
Proof.
  unfold main_step. intros Hx [H1 H2 H3 H4 H5]. destruct (pr_main p) eqn:Em; try done; simpl in *.
  - injection Hx as <-. stage H1 H2 H3 H4 H5.
  - injection Hx as <-. stage H1 H2 H3 H4 H5.
  - destruct (idle p) eqn:Ei; [|done]. injection Hx as <-. stage H1 H2 H3 H4 H5.
  - injection Hx as <-. stage H1 H2 H3 H4 H5. apply grpc_stop_begun.
  - destruct (pr_rpcs p) eqn:Er; [|done]. injection Hx as <-. stage H1 H2 H3 H4 H5.
  - unfold Stop in Hx. rewrite H5 in Hx. simpl in Hx. injection Hx as <-. stage H1 H2 H3 H4 H5.
    unfold cancelContext, stopHeartbeatTimer, stopElectionTimer. by repeat case_match.
  - injection Hx as <-. stage H1 H2 H3 H4 H5.
  - injection Hx as <-. stage H1 H2 H3 H4 H5.
  - injection Hx as <-. stage H1 H2 H3 H4 H5. destruct (wal (pr_node p)); by rewrite <- H5.
Qed.

(** The steps that [main] and the servers do not see. *)
Definition quiet_event (ev : proc_event) : bool :=
  match ev with
  | PLoop _ | PApplyTick | PApplySend | PApplyDone | PApplyStop | PConsume | PConsumeApply | PConsumeStop | PDial _ => true
  | _ => false
  end.

Lemma quiet_step ev p p' :
  proc_exec ev p = Some (Ret p') → quiet_event ev = true → front p' = front p ∧ pr_requests p' = pr_requests p.
Proof.
  unfold proc_exec. case_bool_decide; [done|]. intros Hx Hq. destruct ev as [ev| | | | | | | |err|r|k|k|k|err|m|k|t| |]; try done.
  - unfold exec_loop in Hx. destruct (loop_event ev) eqn:El; [|done].
    destruct (rl_exec ev _) as [[[[n l] o]|]|] eqn:Hr; try done. injection Hx as <-.
    split; [|done]. unfold front. simpl. f_equal. eapply rl_exec_stopped; [done|]. by intros ->.
  - unfold apply_tick in Hx. destruct (pr_apply p); try done. apply (f_equal (default Panic)) in Hx. simpl in Hx.
    by apply bind_Ret in Hx as ([[es new]|] & _ & [= <-]).
  - unfold apply_one in Hx. destruct (pr_apply p) as [|[|e es] new|]; try done. unfold apply_send in Hx.
    destruct (_ <? _); [|done]. by injection Hx as <-.
  - unfold apply_done in Hx. destruct (pr_apply p) as [|[|e es] new|]; try done. by injection Hx as <-.
  - unfold apply_stop in Hx. destruct (stopped _); [|done].
    destruct (pr_apply p) as [|[|e es] new|]; try done; by injection Hx as <-.
  - unfold consume in Hx. destruct (pr_consumer p); try done.
    destruct (applyCh _); [done|]. by injection Hx as <-.
  - unfold consume_apply in Hx. destruct (pr_consumer p); try done. by injection Hx as <-.
  - unfold consume_stop in Hx. destruct (pr_consumer p); try done.
    destruct (pr_ctx_done p); [|done]. by injection Hx as <-.
  - by injection Hx as <-.
Qed.

Lemma proc_inv_step ev p p' : proc_exec ev p = Some (Ret p') → proc_inv p → proc_inv p'.
Proof.
  intros Hx HI. destruct (quiet_event ev) eqn:Hq.
  { apply (proc_inv_front p); [|done]. by apply (quiet_step ev). }
  unfold proc_exec in Hx. case_bool_decide; [done|]. destruct ev as [ev| | | | | | | |err|r|k|k|k|err|m|k|t| |]; try done.
  - unfold listen in Hx. destruct (pr_http p) eqn:Eh; try done. injection Hx as <-. destruct HI as [H1 H2 H3 H4 H5].
    constructor; simpl; try done. intros Hr. by rewrite H1 in Eh.
  - unfold connect_client in Hx. destruct (pr_http p) eqn:Eh; try done. injection Hx as <-. destruct HI as [H1 H2 H3 H4 H5].
    constructor; simpl; try done. intros Hr. rewrite H1 in Eh by lia. done.
  - unfold handle in Hx. destruct (pr_requests p !! k) as [[r [st|]]|] eqn:Hk; try done.
    destruct (hstep _ _ _ _ _) as [[n st']|] eqn:Hh; [|done]. injection Hx as <-.
    apply (busy_inv p); [|simpl; by rewrite (hstep_stopped _ _ _ _ _ _ _ Hh)|done].
    apply (open_busy p k r st Hk). by intros resp ->.
  - unfold deadline in Hx. destruct (pr_requests p !! k) as [[r [st|]]|] eqn:Hk; try done.
    destruct (htimeout st) as [st'|] eqn:Hh; [|done]. injection Hx as <-.
    apply (busy_inv p); [|done|done]. apply (open_busy p k r st Hk). by intros resp ->.
  - unfold disconnect in Hx. destruct (pr_requests p !! k) as [[r [[]|]]|] eqn:Hk; try done. injection Hx as <-.
    apply (busy_inv p); [|done|done]. by apply (open_busy p k r HStart Hk).
  - unfold grpc_listen in Hx. destruct (pr_grpc_served p); [done|]. injection Hx as <-. destruct HI as [H1 H2 H3 H4 H5].
    constructor; simpl; try done. intros Hr. unfold GRPCServer_Serve. destruct err; [by apply H3|].
    destruct (grpc_stopped_serve (pr_grpc p) (H3 Hr)) as [e ->]. by apply H3.
  - unfold call in Hx. destruct (grpc_accepts (pr_grpc p)) eqn:Ea; [|done]. injection Hx as <-. destruct HI as [H1 H2 H3 H4 H5].
    constructor; simpl; try done. intros Hr. rewrite grpc_stopped_idle in Ea by (apply H3; lia). done.
  - unfold serve_call in Hx. destruct (pr_rpcs p !! k) as [m|] eqn:Hk; [|done]. apply (f_equal (default Panic)) in Hx. simpl in Hx.
    apply bind_Ret in Hx as (n & Hn & [= <-]). apply serve_rpc_stopped in Hn. destruct HI as [H1 H2 H3 H4 H5].
    constructor; simpl; try done; [|by rewrite Hn]. intros Hr. rewrite H4 in Hk by lia. done.
  - destruct (pr_main p) eqn:Em; try done. injection Hx as <-. destruct HI as [H1 H2 H3 H4 H5].
    rewrite Em in H5. constructor; simpl; try lia. done.
  - by eapply main_inv.
Qed.

Lemma proc_inv_run evs p p' : proc_run evs p = Some (Ret p') → proc_inv p → proc_inv p'.
Proof.
  revert p. induction evs as [|ev evs IH]; intros p Hr HI; cbn [proc_run] in Hr; [by injection Hr as <-|].
  destruct (proc_exec ev p) as [[p1|]|] eqn:Hx; [|done..]. eapply IH; [done|]. by eapply proc_inv_step.
Qed.

(** C31: The stops are in the right order.  Whatever the goroutines do: when [main]
    is past [Shutdown] of the HTTP server, all its requests are done and no new
    one starts; when it is past [Stop] of the gRPC server, no call is pending and
    none is accepted; the node is stopped by [main] and by nothing else, at a
    point where no request and no call works on it, and [main] never panics (a
    second [node.Stop] would). *)
Theorem stops_in_order x evs p :
  stopped (p_node x) = false → proc_run evs (start_proc x) = Some (Ret p) →
  (rank p <= 6 → (∀ r, connect_client r p = None) ∧ ∀ k, handle k p = None ∧ deadline k p = None) ∧
  (rank p <= 4 → (∀ m, call m p = None) ∧ ∀ k, serve_call k p = None) ∧
  (stopped (pr_node p) = true ↔ rank p <= 3) ∧
  main_step p ≠ Some Panic.
Proof using HSpec.
  intros Hs Hr. destruct (proc_inv_run evs _ p Hr (proc_inv_start x Hs)) as [H1 H2 H3 H4 H5]. split_and!.
  - intros Hrank. split.
    + intros r. unfold connect_client. by rewrite H1 by lia.
    + intros k. unfold handle, deadline. destruct (pr_requests p !! k) as [[r [st|]]|] eqn:Hk; [|done..].
      by destruct (idle_request p k r st (H2 Hrank) Hk) as [resp ->].
  - intros Hrank. split.
    + intros m. unfold call. by rewrite grpc_stopped_idle by (apply H3; lia).
    + intros k. unfold serve_call. by rewrite H4.
  - rewrite H5. apply bool_decide_eq_true.
  - unfold main_step. destruct (pr_main p) eqn:Em; try done; try (by destruct (idle p)); try (by destruct (pr_rpcs p)).
    unfold Stop. by rewrite H5.
Qed.

(** ** The end of [main] *)

(** How many looks a request still needs at most. *)
Definition request_work (x : request * option hstate) : nat :=
  match x.2 with
  | Some HStart => 4 | Some (HSubmit _) => 3 | Some (HWait _ _ _) => 2 | Some (HRead _) | Some HRedirect => 1
  | Some (HDone _) | None => 0
  end.

Definition work p : nat := sum_list (request_work <$> pr_requests p).

(** What [main] waits for. *)
Definition main_wait p : nat :=
  match pr_main p with
  | MShutdownWait => work p
  | MGrpcWait => length (pr_rpcs p)
  | _ => 0
  end.

Definition remaining p : nat := rank p + work p + length (pr_rpcs p).

Lemma sum_insert (f : request * option hstate → nat) l k y z :
  l !! k = Some y → sum_list (f <$> <[k := z]> l) + f y = sum_list (f <$> l) + f z.
Proof.
  revert k. induction l as [|x l IH]; intros [|k] Hk; simplify_eq/=; [lia|]. specialize (IH k Hk). lia.
Qed.

(** Every look but one of the waiting loop brings a request closer to its end. *)
Lemma hstart_work {W} `{Storage W} (n : Node W) r : request_work (r, Some (hstart n r)) <= 3.
Proof.
  unfold hstart, start_kv, put_body. repeat (case_match || case_bool_decide); cbn; lia.
Qed.

Lemma failed_work r err : request_work (r, Some (submit_failed err)) <= 1.
Proof. destruct err; cbn; lia. Qed.

Lemma hstep_work h n store r st n' st' :
  hstep h n store r st = Some (n', st') →
  request_work (r, Some st') <= request_work (r, Some st) ∧
  ((∀ x index term, st ≠ HWait x index term) → request_work (r, Some st') < request_work (r, Some st)).
Proof.
  destruct st as [|key|x|x index term| |resp]; cbn [hstep]; intros Hx; [..|done].
  - injection Hx as _ <-. pose proof (hstart_work n r). cbn [request_work snd] in *. split; [|intros _]; cbn; lia.
  - injection Hx as _ <-. cbn. split; intros; lia.
  - destruct (submit_append _ _) as [n1 [[index term]|err]]; injection Hx as _ <-; [cbn; split; intros; lia|].
    pose proof (failed_work r err). split; [|intros _]; cbn [request_work snd] in *; lia.
  - injection Hx as _ <-. split; [|by intros Hne; destruct (Hne x index term)].
    destruct (submit_poll _ _ _) as [[[i t]|err]|]; [cbn; lia| |done].
    pose proof (failed_work r err). cbn [request_work snd] in *. lia.
  - injection Hx as _ <-. cbn. split; intros; lia.
Qed.

(** The steps of [main], of the goroutines of its requests, the deadline of
    their waiting loop included, and of the calls that are pending. *)
Definition own_step (ev : proc_event) : Prop :=
  match ev with PMain | PHandle _ | PDeadline _ | PServe _ => True | _ => False end.

(** A request that is open can go on. *)
Lemma open_progress p :
  pr_main p = MShutdownWait → idle p = false →
  ∃ ev p', own_step ev ∧ proc_exec ev p = Some (Ret p') ∧ pr_main p' = pr_main p ∧ pr_rpcs p' = pr_rpcs p ∧ work p' < work p.
Proof.
  intros Hm Hi%negb_false_iff. apply existsb_exists in Hi as ([r st] & Hin & Ho).
  apply list_elem_of_In, list_elem_of_lookup_1 in Hin as [k Hk]. destruct st as [st|]; [|done].
  assert (Hcase : (∃ x index term, st = HWait x index term) ∨ ∀ x index term, st ≠ HWait x index term)
    by (destruct st; eauto).
  destruct Hcase as [(x & index & term & ->)|Hne].
  - exists (PDeadline k). unfold proc_exec. rewrite bool_decide_eq_false_2 by congruence. unfold deadline. rewrite Hk.
    eexists. split; [done|]. split; [reflexivity|]. split_and!; [done..|]. unfold work. cbn [pr_requests set_request on_requests].
    pose proof (sum_insert request_work _ k _ (r, Some (submit_failed ErrTimeout)) Hk) as Hsum. cbn in Hsum |- *. lia.
  - destruct (hstep (pr_handler p) (pr_node p) (pr_store p) r st) as [[n st']|] eqn:Hh.
    2: { destruct st; try done. cbn [hstep] in Hh. by destruct (submit_append _ _). }
    exists (PHandle k). unfold proc_exec. rewrite bool_decide_eq_false_2 by congruence. unfold handle. rewrite Hk, Hh.
    eexists. split; [done|]. split; [reflexivity|]. split_and!; [done..|]. unfold work. cbn [pr_requests set_request on_requests on_node].
    pose proof (sum_insert request_work _ k _ (r, Some st') Hk). destruct (hstep_work _ _ _ _ _ _ _ Hh) as [_ Hlt].
    specialize (Hlt Hne). lia.
Qed.

(** The first pending call panics in its handler. *)
Definition call_panics p : Prop := ∃ m, head (pr_rpcs p) = Some m ∧ serve_rpc m (pr_node p) = Panic.

(** After the signal, until its end, [main] or something it waits for can go on. *)
Lemma stop_progress p :
  proc_inv p → pr_main p ≠ MSignal → pr_main p ≠ MEnd →
  call_panics p ∨
  ∃ ev p', own_step ev ∧ proc_exec ev p = Some (Ret p') ∧ remaining p' < remaining p ∧ pr_main p' ≠ MSignal.
Proof.
  intros HI Hs He. assert (Hx : ∀ p', main_step p = Some (Ret p') → proc_exec PMain p = Some (Ret p')).
  { intros p' Hm. unfold proc_exec. by rewrite bool_decide_eq_false_2. }
  destruct (decide (pr_main p = MShutdownWait ∧ idle p = false)) as [[Hm Hi]|Hno].
  { destruct (open_progress p Hm Hi) as (ev & p' & Hown & Hev & Hm' & Hr' & Hlt). right. exists ev, p'.
    split_and!; [done..| |congruence]. unfold remaining. rewrite Hm', Hr'. lia. }
  destruct (decide (pr_main p = MGrpcWait ∧ pr_rpcs p ≠ [])) as [[Hm Hr]|Hno2].
  { destruct (pr_rpcs p) as [|m ms] eqn:Er; [done|]. destruct (serve_rpc m (pr_node p)) as [n|] eqn:Em.
    2: { left. exists m. by rewrite Er. }
    right. exists (PServe 0). unfold proc_exec. rewrite bool_decide_eq_false_2 by done. unfold serve_call. rewrite Er. simpl.
    rewrite Em. eexists. split; [done|]. split; [reflexivity|]. split; [|done]. unfold remaining, work. simpl. rewrite Er. simpl. lia. }
  right. exists PMain. pose proof (pi_stopped _ HI) as Hst. unfold main_step in Hx.
  destruct (pr_main p) eqn:Em; try done;
    try (eexists; split; [done|]; split; [apply Hx; reflexivity|]; unfold remaining, work; simpl; rewrite Em; simpl; split; [lia|done]).
  - destruct (idle p) eqn:Ei; [|by destruct Hno]. eexists. split; [done|]. split; [by apply Hx|].
    unfold remaining, work. simpl. rewrite Em. simpl. split; [lia|done].
  - destruct (pr_rpcs p) eqn:Er; [|by destruct Hno2]. eexists. split; [done|]. split; [by apply Hx|].
    unfold remaining, work. simpl. rewrite Em, Er. simpl. split; [lia|done].
  - unfold Stop in Hx. rewrite Hst in Hx. simpl in Hx. eexists. split; [done|]. split; [by apply Hx|].
    unfold remaining, work. simpl. rewrite Em. simpl. split; [lia|done].
Qed.

Lemma stop_run p :
  proc_inv p → pr_main p ≠ MSignal →
  ∃ evs p', Forall own_step evs ∧ length evs <= remaining p ∧ proc_run evs p = Some (Ret p') ∧
    (pr_main p' = MEnd ∨ call_panics p').
Proof using HSpec.
  remember (remaining p) as m eqn:Em. revert p Em. induction m as [m IH] using lt_wf_ind. intros p -> HI Hs.
  destruct (decide (pr_main p = MEnd)) as [He|He]; [exists [], p; split_and!; [constructor|simpl; lia|done|by left]|].
  destruct (stop_progress p HI Hs He) as [Hp|(ev & p1 & Hown & Hx & Hlt & Hs1)].
  { exists [], p. split_and!; [constructor|simpl; lia|done|by right]. }
  destruct (IH (remaining p1) Hlt p1 eq_refl (proc_inv_step _ _ _ Hx HI) Hs1) as (evs & p' & Hall & Hlen & Hr & Hend).
  exists (ev :: evs), p'. simpl. rewrite Hx. split_and!; [by constructor|lia|done..].
Qed.

(** No step of any goroutine takes [main] back or gives it more to wait for. *)
Lemma wait_same p p' :
  pr_main p' = pr_main p → pr_requests p' = pr_requests p → pr_rpcs p' = pr_rpcs p →
  pr_main p' = pr_main p ∧ main_wait p' <= main_wait p.
Proof. intros Hm Hq Hr. unfold main_wait, work. rewrite Hm, Hq, Hr. by destruct (pr_main p). Qed.

Lemma wait_request p p' k r st st' :
  pr_requests p !! k = Some (r, st) → pr_requests p' = <[k := (r, st')]> (pr_requests p) →
  request_work (r, st') <= request_work (r, st) → pr_main p' = pr_main p → pr_rpcs p' = pr_rpcs p →
  pr_main p' = pr_main p ∧ main_wait p' <= main_wait p.
Proof.
  intros Hk Hq Hle Hm Hr. unfold main_wait, work. rewrite Hm, Hq, Hr. split; [done|].
  pose proof (sum_insert request_work _ k _ (r, st') Hk). destruct (pr_main p); lia.
Qed.

Lemma main_step_rank p p' : main_step p = Some (Ret p') → rank p' < rank p.
Proof.
  unfold main_step. destruct (pr_main p) eqn:Em; try done; simpl; intros Hx;
    repeat case_match; simplify_eq; simpl; try lia.
  apply bind_Ret in Hx as (n & _ & [= <-]). simpl. lia.
Qed.

Lemma wait_step ev p p' :
  proc_inv p → pr_main p ≠ MSignal → proc_exec ev p = Some (Ret p') →
  rank p' < rank p ∨ (pr_main p' = pr_main p ∧ main_wait p' <= main_wait p).
Proof using HSpec.
  intros HI Hs Hx. destruct (quiet_event ev) eqn:Hq.
  { right. destruct (quiet_step ev p p' Hx Hq) as [E Hreq]. unfold front in E. injection E as Hm _ _ _ Hr _. by apply wait_same. }
  unfold proc_exec in Hx. case_bool_decide; [done|]. destruct ev as [ev| | | | | | | |err|r|k|k|k|err|m|k|t| |]; try done.
  10: { left. by apply main_step_rank. }
  9: { by destruct (pr_main p). }
  all: right.
  - unfold listen in Hx. destruct (pr_http p); try done. injection Hx as <-. by apply wait_same.
  - unfold connect_client in Hx. destruct (pr_http p) eqn:Eh; try done. injection Hx as <-. split; [done|].
    unfold main_wait. simpl. destruct (pr_main p) eqn:Em; try done. rewrite (pi_http _ HI) in Eh; [done|]. rewrite Em. simpl. lia.
  - unfold handle in Hx. destruct (pr_requests p !! k) as [[r [st|]]|] eqn:Hk; try done.
    destruct (hstep _ _ _ _ _) as [[n st']|] eqn:Hh; [|done]. injection Hx as <-.
    eapply wait_request; [exact Hk|done| |done..]. by destruct (hstep_work _ _ _ _ _ _ _ Hh).
  - unfold deadline in Hx. destruct (pr_requests p !! k) as [[r [st|]]|] eqn:Hk; try done.
    destruct (htimeout st) as [st'|] eqn:Hh; [|done]. injection Hx as <-.
    eapply wait_request; [exact Hk|done| |done..]. destruct st; try done. injection Hh as <-. cbn. lia.
  - unfold disconnect in Hx. destruct (pr_requests p !! k) as [[r [[]|]]|] eqn:Hk; try done. injection Hx as <-.
    eapply wait_request; [exact Hk|done|cbn; lia|done..].
  - unfold grpc_listen in Hx. destruct (pr_grpc_served p); [done|]. injection Hx as <-. by apply wait_same.
  - unfold call in Hx. destruct (grpc_accepts (pr_grpc p)) eqn:Ea; [|done]. injection Hx as <-. split; [done|].
    unfold main_wait, work. simpl. destruct (pr_main p) eqn:Em; try done.
    rewrite grpc_stopped_idle in Ea; [done|]. apply (pi_grpc _ HI). rewrite Em. simpl. lia.
  - unfold serve_call in Hx. destruct (pr_rpcs p !! k) as [m|] eqn:Hk; [|done]. apply (f_equal (default Panic)) in Hx. simpl in Hx.
    apply bind_Ret in Hx as (n & Hn & [= <-]). split; [done|]. unfold main_wait, work. simpl.
    pose proof (length_delete _ _ (ex_intro _ _ Hk)). destruct (pr_main p); try done. lia.
Qed.

(** C32: [main] gets to its end.  In every state of a process after the signal, at
    most as many steps as there is work left, all of them of [main] itself, of the
    goroutines of the requests that are open (which end by their deadline at the
    latest) and of the calls that are pending, lead to the end of [main], or to a
    state in which the first pending call panics in its handler: no step of
    clients, of peers or of the other goroutines is needed.  And until the end no
    step of any goroutine takes [main] back or adds to what it waits for. *)
Theorem shutdown_completes x evs p :
  stopped (p_node x) = false → proc_run evs (start_proc x) = Some (Ret p) → pr_main p ≠ MSignal →
  (∃ evs' p', Forall own_step evs' ∧ length evs' <= remaining p ∧ proc_run evs' p = Some (Ret p') ∧
     (pr_main p' = MEnd ∨ call_panics p')) ∧
  ∀ ev p', proc_exec ev p = Some (Ret p') →
    rank p' < rank p ∨ (pr_main p' = pr_main p ∧ main_wait p' <= main_wait p).
Proof using HSpec.
  intros Hs Hr Hm. pose proof (proc_inv_run evs _ p Hr (proc_inv_start x Hs)) as HI.
  split; [by apply stop_run|]. intros ev p'. by apply wait_step.
Qed.
End process.

(** ** A concrete process

    A gRPC library that does what its documentation says, and a process that gets
    a request and a call and then a signal. *)
Module ProcessWitnesses.
#[local] Existing Instance TransportWitnesses.constant_rand.

Inductive grpc_state : Type := GNew | GServing | GStopped.

#[global] Instance simple_grpc : GrpcLib grpc_state := {
  grpc_NewServer := GNew;
  grpc_RegisterService s := s;
  grpc_Serve s := match s with GStopped => inr "grpc: the server has been stopped" | _ => inl GServing end;
  grpc_GracefulStop _ := GStopped;
  grpc_accepts s := match s with GServing => true | _ => false end;
}.

#[global] Instance simple_grpc_spec : GrpcSpec grpc_state.
Proof. refine {| grpc_stopped s := s = GStopped |}; [done|done|by intros s ->|intros s ->; by eexists]. Defined.

Definition dial (addr : string) (attempt : nat) : string + string := inl addr.
Definition hang_up (c : string) : option string := None.
Definition get : request := mkRequest MethodGet "/kv/x" (inl []).
Definition vote : rpc := RpcVote (mkVoteRequest 4 "b" 0 0).

Definition begin : list proc_event :=
  [PListen None; PGrpcListen None; PLoop RLTop; PConnect get; PCall vote; PKill; PMain; PHandle 0; PMain].

Definition run_it (evs : list proc_event) : option (outcome (proc (S := grpc_state))) :=
  proc_run dial hang_up evs (start_proc MainWitnesses.proc).
Definition at_stop : proc :=
  match run_it begin with Some (Ret p) => p | _ => start_proc MainWitnesses.proc end.

(** [main] waits for the request; it is redirected, the call is served, and
    [main] ends. *)
Definition rest : list proc_event :=
  [PHandle 0; PMain; PMain; PServe 0; PMain; PMain; PMain; PMain; PMain].
Definition after_call : proc :=
  match run_it (begin ++ take 5 rest) with Some (Ret p) => p | _ => start_proc MainWitnesses.proc end.

Lemma at_stop_run : proc_run dial hang_up begin (start_proc MainWitnesses.proc) = Some (Ret at_stop).
Proof. by_compute. Qed.

Lemma after_call_run :
  proc_run dial hang_up (begin ++ take 5 rest) (start_proc MainWitnesses.proc) = Some (Ret after_call).
Proof. by_compute. Qed.

Lemma running : stopped (p_node MainWitnesses.proc) = false.
Proof. by_compute. Qed.

Lemma stops_in_order_witness :
  pr_main after_call = MNodeStop ∧ stopped (pr_node after_call) = false ∧ call vote after_call = None.
Proof.
  destruct (stops_in_order dial hang_up MainWitnesses.proc (begin ++ take 5 rest) after_call running after_call_run)
    as (_ & Hcalls & _).
  split; [by_compute|]. split; [by_compute|]. apply Hcalls. vm_compute. lia.
Defined.

Lemma shutdown_completes_witness :
  pr_main at_stop = MShutdownWait ∧ remaining at_stop = 9 ∧
  ∃ evs' p', Forall own_step evs' ∧ length evs' <= 9 ∧ proc_run dial hang_up evs' at_stop = Some (Ret p') ∧
    (pr_main p' = MEnd ∨ call_panics p').
Proof.
  split; [by_compute|]. assert (Hrem : remaining at_stop = 9) by by_compute. split; [exact Hrem|]. rewrite <- Hrem.
  apply (shutdown_completes dial hang_up MainWitnesses.proc begin at_stop running at_stop_run). vm_compute. discriminate.
Defined.

(** The steps of [rest] are such steps. *)
Lemma rest_ends : match run_it (begin ++ rest) with Some (Ret p) => pr_main p = MEnd | _ => False end.
Proof. by_compute. Qed.
End ProcessWitnesses.
